(* ===== verification/_CoqProject ===== *)
-Q . S2P
Prelude.v
GoLib.v
RespTypes.v
RespWriter.v
RespReader.v
RespProofs.v
RespSpec.v
StorageTypes.v
Filepath.v
Matching.v
MatchingProofs.v
MatchingSpec.v
Memory.v
MemoryInv.v
StoreSpec.v
MemoryOps.v
MemoryBulk.v
MemoryEvict.v
MemoryCleanup.v
MemoryScan.v
MemoryInfo.v
MemorySpec.v
Interleaving.v
Threads.v
StorageThreads.v
StorageLocks.v
StorageGuard.v
StorageThreadsAlone.v
StorageProgress.v
StorageAtomic.v
StorageAtomicOps.v
StorageLinear.v
StorageSpec.v
StorageThreadsSpec.v
Lzf.v
Rdb.v
RdbFormat.v
RdbProofs.v
RdbTotal.v
RdbSpec.v
StorageIface.v
RdbLoad.v
RdbLoadSpec.v
GoList.v
Sha1.v
Lua.v
LuaSpec.v
LuaCache.v
LuaCacheSpec.v
Client.v
ClientProofs.v
ClientSpec.v
ClientRun.v
ClientRunSpec.v
ClientLife.v
ClientLifeSpec.v
ClientLifeStop.v
Sync.v
SyncSpec.v
SyncWait.v
Options.v
Server.v
ServerProofs.v
ServerSpec.v
ServerLife.v
ServerLifeSpec.v
Replica.v
ReplicaSpec.v
