(* ===== verification/Prelude.v ===== *)
(** * redis-inmemory-replica: a verification library

    The program is a Go library that connects to a Redis master as a replica,
    loads the master's RDB file, follows its command stream and keeps the data in
    a sharded in-memory store that clients read through a Redis server of its own.
    This development models the protocol codec, the storage engine, the RDB loader,
    the replication client and its manager, the Lua engine, the server and the
    replica that puts them together as functions on explicit state, and proves what
    each of them promises.

    ** How the parts interact

    The client (replication/client.go) writes commands with the RESP writer and
    reads replies with the RESP reader (protocol/). A full synchronisation streams
    the RDB payload in chunks, collects them and hands them to the RDB parser
    (replication/rdb.go, replication/lzf.go), which drives a batching handler that
    writes to a [storage.Storage]. The command stream is decoded and applied to
    the same storage. The memory storage (storage/memory.go) is the only
    implementation of that interface; key listings use the pattern matchers of
    storage/matching.go, and a background goroutine removes expired keys. The
    server (server/server.go) answers its clients from that storage, runs their
    scripts on it with the Lua engine (lua/engine.go), asks the manager whether the
    first synchronisation is over and may forward writes to the master. A replica
    (replica.go) builds all of them from its options (options.go), on one storage.

    ** Files

    Vocabulary:
    - Prelude: bytes, machine integers, errors, the effect monad and its loops.
      [M S A] is a Go call on a state [S]: a value, an error, a panic, or a bounded
      loop that ran out of fuel. The state is also kept with an error, since the
      code goes on using a reader or a parser after a failed call.
    - GoLib: strconv, strings and the fmt verbs of the error texts. Filepath:
      filepath.Match on Unix and the decoding of runes. Both model the standard
      library, not code of this repository. Case mapping and splitting of strings
      that are not ASCII are left abstract ([GoUnicode]).

    Protocol, protocol/types.go, writer.go, reader.go:
    - RespTypes ([Value], [Command], [ParseCommand]), RespWriter, RespReader; one
      definition per method, with the source's names.
    - RespProofs (lemmas), RespSpec (theorems): writing and reading are inverse,
      the reader terminates on every stream, consumes a prefix of it and returns
      only well-formed values, [Skip] agrees with [ReadNext], integers are parsed
      as strconv does, the replication payload is streamed exactly.

    Storage, storage/value.go, storage.go, matching.go, memory.go:
    - StorageTypes (values, expiry, cleanup presets), Matching (the strategies),
      MatchingProofs and MatchingSpec: the automaton and, within its limits, the
      default and the simple strategy decide the glob semantics.
    - Memory: [MemoryStorage] and every method. A database is the list of its
      shards; [db.shards\[i\]] is read by [get_shard], which panics as the code
      would. The order of a range over a map and the draws of the generator come
      from the class [GoRuntime], the hash from [XXHash], both arbitrary.
    - MemoryInv: the invariant [wf] (every database has all its shards, every key
      is in the shard of its hash, the configuration is usable) and the contents
      [absDB] as one map per database, whatever the sharding.
    - StoreSpec: the abstract store: a map of databases, the selected number, the
      memory limit, and the relation [astep] between store, operation, reply and
      next store. MemoryOps, MemoryBulk, MemoryEvict, MemoryCleanup, MemoryScan and MemoryInfo
      prove the methods, MemorySpec that each refines its [astep].
    - Interleaving: the two paths that find a key expired in one critical section
      and delete it in a later one, as a transition system over reachable states.
    - StorageSpec (theorems): every run of operations refines the abstract store,
      construction, reading back, expiry under concurrency, cleanup, observers,
      scanning.
    - Threads: goroutines on the storage. A method is a program ([Prog]) over the
      locks, the fields and the shards; [thread_step] is one action of one goroutine,
      with [RWMutex] as sync.RWMutex (a writer that waits keeps new readers out) and
      databases as objects on a heap, so that a goroutine goes on with the database it
      found when another one flushes it away. StorageThreads: one program per
      method ([t_Get] for Get), its locks in the source's order, and runs of calls,
      steps and returns ([sys_run], [history]).
    - StorageThreadsAlone: a program that runs alone is the method of Memory.
      StorageLocks: [safe], a proof rule that follows the locks held, for every
      program. StorageGuard: the invariant it gives along every run. StorageProgress:
      exclusion, progress and termination without eviction, the deadlock with it.
    - StorageAtomic: the specification of concurrent use, [atomic], on which each
      operation takes effect on each of its keys at one moment, and [lwp], the rule that shows
      it of a program. StorageAtomicOps applies it to every method, StorageLinear turns
      it into a simulation. StorageThreadsSpec (theorems): linearizability, no races,
      all calls return without eviction, eviction can deadlock, methods run alone.
    - StorageIface: what the replication client needs of a storage, as the class
      [StorageOps] with the laws [StorageLaws], discharged by [MemoryStorage].

    RDB, replication/lzf.go, rdb.go:
    - Lzf (the decompressor and the token format), Rdb (the parser over an
      abstract handler), RdbFormat (an encoder for files as Redis writes them, the part
      of them the parser can read, [readable_ritem], and what it makes of a string,
      [rstring_read]), RdbProofs (parsing inverts encoding there), RdbTotal (parsing
      returns on every input), RdbSpec (theorems).

    Replication, replication/client.go:
    - RdbLoad: the load statistics, the batching handler, the chunk aggregator and
      the reader over chunks. RdbLoadSpec: a file is loaded as if its entries were
      applied one at a time, and chunks are read back byte for byte.
    - Client: the state of a client and its handshake, synchronisation, stream
      and heartbeat. ClientProofs, ClientSpec: a full synchronisation end to end,
      a stream of commands as a fold over the abstract store, from the first one the
      fresh reader sees, termination on any input, the database filter. They use
      [StorageLaws] only.
    - ClientRun: connecting, the loop that reconnects, [Start] and [Stop], over a
      [Network] that says what each dial returns. ClientRunSpec: one session with a
      master end to end, and that the loop ends once the client is stopped.
    - ClientLife: the goroutines of a client, [run] as often as it has been begun, the
      heartbeat and the callers of [Stop], as an executable transition system over the
      fields and the channels they share; what a dial, a synchronisation, a read or a
      timer gives is an event. ClientLifeSpec (theorems): the invariant [alone] of a
      client with one [run] at a time, which never panics or leaks. ClientLifeStop
      (theorems): a stopped loop ends, within 23 of its steps; from any state a client
      with one loop can reach, a second Start can lead to a connection nobody closes and
      to a panic.

    Replication, replication/sync.go:
    - Sync: the coordinator of all managers, the manager's start with its retries, its
      callbacks, its status. SyncSpec: theorems. SyncWait: the callers of WaitForSync,
      the completions and the callbacks as an executable transition system, cut at the
      critical sections and the select, and its theorem.

    Scripts, lua/engine.go:
    - Sha1: the digest that names a cached script (crypto/sha1). Lua: the script
      cache, the pool of interpreter states, the conversions and the commands of a
      script. The interpreter is the class [LuaVM], a machine whose step calls the
      engine, works on, returns, fails or ends the process; a table is a reference into
      a heap and may hold itself. [run_script] and [convertLuaValue] follow it with
      fuel. LuaSpec: the cache is least-recently-used; all a script does to the storage
      is a sequence of five abstract operations; which runs come back, and with what.
    - GoList: container/list with its pointers. LuaCache: the cache as the map of
      pointers and the ring it is, shared by goroutines whose critical sections
      interleave. LuaCacheSpec (theorems): it refines the cache of Lua as long as no
      flush falls between the two sections of an EvalSHA, and loses scripts when one does.

    Server, server/server.go:
    - Server: the state of the server and of a connection, a definition per
      handler and reply writer, the table of commands, the loop of a connection.
      The connections to the master are the class [MasterNet].
    - ServerProofs: [replies], one well-shaped reply per handler, relative to a
      preorder on storages and a set of scripts; [spares] is the preorder of reading.
      ServerSpec (theorems):
      sessions of any client, authentication, the reads as a refinement of the
      abstract store, redirection, scripts that write, sizes that panic.
    - ServerLife: the server with its goroutines, the accepting one, one per client
      and the caller of [Stop], as an executable transition system whose events are
      their steps and what the network does. ServerLifeSpec (theorems): many clients
      interleaved only read and are always answered, a stopped server has nothing
      left that runs or is open, and [Stop] returns.

    Replica, options.go, errors.go, replica.go:
    - Options: the configuration, every option with its validation, the TLS
      presets; the options of the library keep a configuration valid.
    - Replica: construction, life cycle, and the steps of the client's goroutine
      and of a server's connection on the storage they share. ReplicaSpec
      (theorems): what [New] builds, settings without effect, the life cycle, and
      that the data of the master's file is what clients read, whatever they and the
      cleanup do in between.

    ** Conventions

    - Go's int and int64 are [Z]; [wrap64] and [wrapU64] are written where the
      code can leave the range. Byte slices and strings are lists of bytes.
      Times are nanoseconds since the epoch and passed as an argument, one value
      per call; float64 is the executable binary64 of the Standard Library.
    - In Memory and all that builds on it a method that takes locks is one atomic
      step. Interleaving cuts the expiry paths at their critical sections, Threads all
      methods at every action. Linearizability justifies the atomic steps, key by key
      for the operations of many.
    - Fuel: [ReadNext] and [Skip] take one unit per byte left and one more, since
      each level of nesting reads a type byte; the RDB loops one unit per byte
      left and per error that may still be skipped, since each round reads or
      skips an error; the command stream three rounds per byte and three more,
      since the third protocol error in a row ends it; the client's loop one round per
      look at the stop channel before the stop and one more; eviction one round per key
      to evict and one more; batched deletion one round per key, enough for any
      positive batch size; the server's loop one round per byte left and one more. Each
      bound is proved to be enough by the termination theorems, or by a theorem that the
      call succeeds. A script has no bound: [lua_fuel], a field of [LuaVM], says how many
      steps of the interpreter and levels of a table the server's model follows, the
      theorem on scripts speaks of every fuel, and the ones on sessions of the scripts
      that come back within it ([halting]).

    ** What is not modelled

    Logging and metrics only produce output. Memory exhaustion by an announced
    length is not modelled, apart from the allocation of shards, of a scan's result
    and of a script's keys. The network is what has still to arrive and the error after it; how it
    is cut into packets matters only to [streamCommands], whose fresh reader loses
    what the old one had buffered ([ClientEnv]). Deadlines appear as the error of
    setting one. Linearizability is stated for a storage that does not evict and whose
    database is neither flushed nor changed; a Del or an Exists of several keys, which
    locks one shard after the other, is atomic on each key only. RDB files are those of
    RdbFormat: streams, modules, functions, the marks of LRU and LFU and an expiry of a
    hash field are not in it, and the contents of a ziplist, an intset or a listpack are
    one string, as the parser takes them. That observers call
    the storage back is left out. ClientRun follows one goroutine and counts the loops begun ([runs]); what
    travels on a connection is there and in Client, the interleavings are in
    ClientLife, where a synchronisation or a command is one event and the settings do
    not change. A server command is one atomic step, also in ServerLife; the critical
    sections of the engine's cache interleave in LuaCache, where a script runs in no
    time. A master that hangs is left out, and so, in ServerLife, is a script that never
    ends. [Stop] of the server is called once. adapters.go, interfaces.go and version.go only forward to loggers
    and collectors or hold constants. *)

From Stdlib Require Import ZArith Lia String.
From Stdlib Require Strings.Byte.
From stdpp Require Import base list list_numbers gmap strings countable.

Export Corelib.Init.Byte.ByteSyntaxNotations.
Delimit Scope byte_scope with byte.
Open Scope Z_scope.

(** ** Bytes and byte strings *)

Abbreviation byte := Byte.byte.
Abbreviation bytes := (list Byte.byte).

#[global] Instance byte_eq_dec : EqDecision byte := Byte.byte_eq_dec.
#[global] Instance byte_inhabited : Inhabited byte := populate Byte.x00.

#[global] Program Instance byte_countable : Countable byte :=
  inj_countable Byte.to_N Byte.of_N _.
Next Obligation. exact Byte.of_to_N. Qed.

(** The unsigned value of a byte, and the byte of an integer modulo 256. *)
Definition bz (b : byte) : Z := Z.of_N (Byte.to_N b).
Definition zb (z : Z) : byte := default Byte.x00 (Byte.of_N (Z.to_N (z mod 256))).

(** The bytes of an ASCII literal. *)
Definition bs (s : string) : bytes := String.list_byte_of_string s.

Lemma bz_range b : 0 <= bz b < 256.
Proof.
  unfold bz. pose proof (Byte.to_N_bounded b). lia.
Qed.

Lemma zb_bz b : zb (bz b) = b.
Proof.
  unfold zb. rewrite Z.mod_small by apply bz_range. unfold bz.
  by rewrite N2Z.id, Byte.of_to_N.
Qed.

Lemma bz_zb z : bz (zb z) = z mod 256.
Proof.
  unfold zb, bz. pose proof (Z.mod_pos_bound z 256 ltac:(lia)) as Hb.
  destruct (Byte.of_N (Z.to_N (z mod 256))) as [b|] eqn:E; simpl.
  - apply Byte.to_of_N in E. rewrite E. lia.
  - apply Byte.of_N_None_iff in E. lia.
Qed.

Lemma bz_inj a b : bz a = bz b -> a = b.
Proof. intros H. by rewrite <- (zb_bz a), <- (zb_bz b), H. Qed.

Lemma zb_inj_small x y : 0 <= x < 256 -> 0 <= y < 256 -> zb x = zb y -> x = y.
Proof.
  intros Hx Hy H. apply (f_equal bz) in H. rewrite !bz_zb in H.
  rewrite !Z.mod_small in H; lia.
Qed.

#[global] Arguments bs : simpl never.
#[global] Arguments bz : simpl never.
#[global] Arguments zb : simpl never.

(** ** Machine integers

    Go's [int] and [int64] are 64-bit two's complement, [uint64] is modulo
    2^64. They are kept as [Z]; [wrap64] and [wrapU64] are written where the
    code can leave the range. *)

Definition maxInt64 : Z := 2 ^ 63 - 1.
Definition minInt64 : Z := - 2 ^ 63.
Definition wrap64 (z : Z) : Z := (z + 2 ^ 63) mod 2 ^ 64 - 2 ^ 63.
Definition wrapU64 (z : Z) : Z := z mod 2 ^ 64.
Definition wrap32 (z : Z) : Z := (z + 2 ^ 31) mod 2 ^ 32 - 2 ^ 31.
Definition in_int64 (z : Z) : Prop := minInt64 <= z <= maxInt64.

#[global] Instance in_int64_dec z : Decision (in_int64 z).
Proof. unfold in_int64. apply _. Defined.

Lemma wrap64_id z : in_int64 z -> wrap64 z = z.
Proof.
  unfold in_int64, minInt64, maxInt64, wrap64. intros H.
  rewrite Z.mod_small; lia.
Qed.

Lemma wrap64_range z : in_int64 (wrap64 z).
Proof.
  unfold in_int64, minInt64, maxInt64, wrap64.
  pose proof (Z.mod_pos_bound (z + 2 ^ 63) (2 ^ 64) ltac:(lia)). lia.
Qed.

(** ** Errors, outcomes and the effect monad

    A Go call either returns a value, returns an [error], panics or, when the
    model bounds a loop by fuel, runs out of fuel. An error is compared with
    [io.EOF] by identity in several places and is otherwise only used through
    its text, so it is either one of the sentinel values or a formatted
    message. *)

Inductive error : Type :=
| EOF
| ErrUnexpectedEOF
| ErrSyntax
| ErrRange
| ErrBadPattern
| Errorf (msg : bytes).

#[global] Instance error_eq_dec : EqDecision error.
Proof. solve_decision. Defined.

Definition Error (e : error) : bytes :=
  match e with
  | EOF => bs "EOF"
  | ErrUnexpectedEOF => bs "unexpected EOF"
  | ErrSyntax => bs "invalid syntax"
  | ErrRange => bs "value out of range"
  | ErrBadPattern => bs "syntax error in pattern"
  | Errorf msg => msg
  end.

Inductive outcome (A : Type) : Type :=
| Ok (a : A)
| Err (e : error)
| Panic (msg : bytes)
| OutOfFuel.
Arguments Ok {A} a.
Arguments Err {A} e.
Arguments Panic {A} msg.
Arguments OutOfFuel {A}.

#[global] Instance outcome_eq_dec `{EqDecision A} : EqDecision (outcome A).
Proof. solve_decision. Defined.

(** A computation over a state [S]. The state is also returned with an error:
    the code keeps using a reader or a parser after a failed call. *)
Definition M (S A : Type) : Type := S -> outcome A * S.

Definition gret {S A} (a : A) : M S A := fun s => (Ok a, s).
Definition gfail {S A} (e : error) : M S A := fun s => (Err e, s).
Definition gbind {S A B} (m : M S A) (k : A -> M S B) : M S B := fun s =>
  match m s with
  | (Ok a, s') => k a s'
  | (Err e, s') => (Err e, s')
  | (Panic p, s') => (Panic p, s')
  | (OutOfFuel, s') => (OutOfFuel, s')
  end.
Definition gget {S} : M S S := fun s => (Ok s, s).
Definition gput {S} (s : S) : M S unit := fun _ => (Ok tt, s).
Definition gmodify {S} (f : S -> S) : M S unit := fun s => (Ok tt, f s).

(** [if err != nil { handler }]: hands the error of [m] to [h]. *)
Definition gtry {S A B} (m : M S A) (k : A -> M S B) (h : error -> M S B) : M S B := fun s =>
  match m s with
  | (Ok a, s') => k a s'
  | (Err e, s') => h e s'
  | (Panic p, s') => (Panic p, s')
  | (OutOfFuel, s') => (OutOfFuel, s')
  end.

(** [fmt.Errorf("<pre>: %w", err)] around the error of [m]. *)
Definition gwrap {S A} (pre : bytes) (m : M S A) : M S A :=
  gtry m gret (fun e => gfail (Errorf (pre ++ Error e))).

(** [defer f()] before [m]: [f] runs when [m] is over, and its panic wins. *)
Definition gdefer {S A} (f : M S unit) (m : M S A) : M S A := fun s =>
  match m s with
  | (OutOfFuel, s1) => (OutOfFuel, s1)
  | (o, s1) =>
      match f s1 with
      | (Panic p, s2) => (Panic p, s2)
      | (OutOfFuel, s2) => (OutOfFuel, s2)
      | (_, s2) => (o, s2)
      end
  end.

Declare Scope go_scope.
Delimit Scope go_scope with go.
Open Scope go_scope.

Notation "'let!' x := m 'in' k" := (gbind m (fun x => k))
  (at level 10, x pattern, m at level 100, k at level 200) : go_scope.
Notation "m ';;!' k" := (gbind m (fun _ => k))
  (at level 199, right associativity) : go_scope.

Lemma gbind_ok {S A B} (m : M S A) (k : A -> M S B) s a s' :
  m s = (Ok a, s') -> gbind m k s = k a s'.
Proof. intros H. unfold gbind. by rewrite H. Qed.

Lemma gbind_err {S A B} (m : M S A) (k : A -> M S B) s e s' :
  m s = (Err e, s') -> gbind m k s = (Err e, s').
Proof. intros H. unfold gbind. by rewrite H. Qed.

Lemma gtry_ok {S A B} (m : M S A) (k : A -> M S B) h s a s' :
  m s = (Ok a, s') -> gtry m k h s = k a s'.
Proof. intros H. unfold gtry. by rewrite H. Qed.

Lemma gtry_err {S A B} (m : M S A) (k : A -> M S B) h s e s' :
  m s = (Err e, s') -> gtry m k h s = h e s'.
Proof. intros H. unfold gtry. by rewrite H. Qed.

(** A [for] loop over the elements of a list, with the loop variables as an
    accumulator, and one without. *)
Fixpoint gfold {S A B} (f : B -> A -> M S B) (l : list A) (b : B) : M S B :=
  match l with
  | [] => gret b
  | a :: l' => gbind (f b a) (fun b' => gfold f l' b')
  end.
Definition gfor {S A} (f : A -> M S unit) (l : list A) : M S unit :=
  gfold (fun _ a => f a) l tt.

(** The loop rule: an invariant of the elements visited so far, the loop
    variables and the state. *)
Lemma gfold_ok {S A B} (P : list A -> B -> S -> Prop) (f : B -> A -> M S B) l b s :
  P [] b s ->
  (forall pre a post b s, l = pre ++ a :: post -> P pre b s ->
     exists b' s', f b a s = (Ok b', s') /\ P (pre ++ [a]) b' s') ->
  exists b' s', gfold f l b s = (Ok b', s') /\ P l b' s'.
Proof.
  intros H0 Hstep.
  assert (Hgen : forall post pre b s, l = pre ++ post -> P pre b s ->
    exists b' s', gfold f post b s = (Ok b', s') /\ P l b' s').
  { induction post as [|a post IH]; intros pre b1 s1 El HP; cbn [gfold].
    - exists b1, s1. rewrite app_nil_r in El. by subst.
    - destruct (Hstep pre a post b1 s1 El HP) as (b2 & s2 & E & HP2).
      unfold gbind. rewrite E. apply (IH (pre ++ [a])); [by rewrite <- app_assoc|done]. }
  by apply (Hgen l [] b s).
Qed.

Lemma gfold_ext {S A B} (f g : B -> A -> M S B) l b s :
  (forall b a s, f b a s = g b a s) -> gfold f l b s = gfold g l b s.
Proof.
  intros E. revert b s. induction l as [|a l IH]; intros b s; [done|]. cbn. unfold gbind. rewrite E.
  by destruct (g b a s) as [[] ?].
Qed.

Lemma gfold_app {S A B} (f : B -> A -> M S B) l1 l2 b s :
  gfold f (l1 ++ l2) b s = gbind (gfold f l1 b) (gfold f l2) s.
Proof.
  revert b s. induction l1 as [|a l1 IH]; intros b s; [done|]. cbn.
  unfold gbind. by destruct (f b a s) as [[b'|e|p|] s'].
Qed.

Lemma gfold_pure {S A B} (f : B -> A -> M S B) (g : B -> A -> B) l b s :
  (forall b a s, f b a s = (Ok (g b a), s)) -> gfold f l b s = (Ok (foldl g b l), s).
Proof.
  intros Hf. revert b. induction l as [|a l IH]; intros b; [done|].
  cbn. unfold gbind. rewrite Hf. apply IH.
Qed.

(** Two nested loops are one loop over the pairs. *)
Lemma gfold_nested {S A C B} (f : A -> B -> C -> M S B) (l : list (A * list C)) b s :
  gfold (fun b '(a, cs) => gfold (f a) cs b) l b s =
  gfold (fun b '(a, c) => f a b c) (l ≫= fun '(a, cs) => pair a <$> cs) b s.
Proof.
  revert b s. induction l as [|[a cs] l IH]; intros b s; [done|].
  cbn [gfold mbind list_bind]. rewrite gfold_app. unfold gbind.
  assert (E : forall b s, gfold (f a) cs b s =
    gfold (fun b '(a, c) => f a b c) (pair a <$> cs) b s).
  { clear. induction cs as [|c cs IH]; intros b s; [done|]. cbn. unfold gbind.
    destruct (f a b c s) as [[?|?|?|] ?]; done || apply IH. }
  rewrite E. destruct (gfold _ (pair a <$> cs) b s) as [[?|?|?|] ?]; done || apply IH.
Qed.

(** A computation is total on [s] when it neither panics nor runs out of fuel. *)
Definition returns {A} (o : outcome A) : Prop :=
  match o with Ok _ | Err _ => True | Panic _ | OutOfFuel => False end.

Lemma returns_gbind {S A B} (m : M S A) (k : A -> M S B) s :
  returns (m s).1 ->
  (forall a s', m s = (Ok a, s') -> returns (k a s').1) ->
  returns (gbind m k s).1.
Proof.
  unfold gbind. intros Hm Hk. destruct (m s) as [[a|e|p|] s'] eqn:E; simpl in *; auto.
Qed.

(** ** Lists and maps *)

Lemma map_to_list_union {K A} `{Countable K} (m1 m2 : gmap K A) : m1 ##ₘ m2 ->
  map_to_list (m1 ∪ m2) ≡ₚ map_to_list m1 ++ map_to_list m2.
Proof.
  intros Hd. apply NoDup_Permutation.
  - apply NoDup_map_to_list.
  - apply stdpp.list_relations.list.NoDup_app. split; [apply NoDup_map_to_list|]. split; [|apply NoDup_map_to_list].
    intros [k v] H1 H2. apply elem_of_map_to_list in H1, H2.
    eapply map_disjoint_spec in Hd; eauto.
  - intros [k v]. rewrite elem_of_app, !elem_of_map_to_list. by apply lookup_union_Some.
Qed.

(** ** Automation *)

(** Decides boolean comparisons by cases and linear arithmetic. *)
Ltac zbool :=
  repeat match goal with
  | |- context [Z.ltb ?a ?b] => destruct (Z.ltb_spec a b)
  | |- context [Z.leb ?a ?b] => destruct (Z.leb_spec a b)
  | |- context [Z.eqb ?a ?b] => destruct (Z.eqb_spec a b)
  end; cbn [orb andb negb]; first [reflexivity | exfalso; lia | lia].

(** Splits on the first match or conditional of the goal. *)
Ltac break :=
  match goal with
  | |- context [match ?x with _ => _ end] => destruct x eqn:?
  end.

(** One step through a monadic computation whose first action is known. *)
Ltac gstep := first [erewrite gbind_ok; [|done] | erewrite gtry_ok; [|done]].
