(* ===== verification/GoLib.v ===== *)
(** * The parts of Go's standard library the replica uses

    [strconv] (decimal formatting and parsing), [strings] (prefix, suffix and
    byte search, case mapping, splitting) and the [fmt] verbs that appear in
    error texts and replies. Functions on strings work on the bytes of the
    string, as Go's do. The Unicode tables behind [strings.ToUpper],
    [strings.ToLower] and [strings.Fields] only matter for strings that hold
    a byte above 127: for those the class [GoUnicode] leaves the result
    abstract. *)

From Stdlib Require Import ZArith Lia String.
From stdpp Require Import base list list_numbers.
From S2P Require Import Prelude.

(** ** strconv *)

Definition digit (d : Z) : byte := zb (48 + d).
Definition is_digit (c : byte) : bool := (48 <=? bz c) && (bz c <=? 57).

Fixpoint format_digits (fuel : nat) (n : Z) (acc : bytes) : bytes :=
  match fuel with
  | O => acc
  | S fuel' =>
      if n <? 10 then digit n :: acc
      else format_digits fuel' (n / 10) (digit (n mod 10) :: acc)
  end.

Definition FormatUint (n : Z) : bytes :=
  format_digits (S (Z.to_nat (Z.log2 n))) n [].

(** [strconv.FormatInt(n, 10)] and [strconv.Itoa(n)]. *)
Definition FormatInt (n : Z) : bytes :=
  if n <? 0 then "-"%byte :: FormatUint (- n) else FormatUint n.

(** The value of a string of decimal digits appended to [acc]. *)
Fixpoint digits_value (acc : Z) (l : bytes) : option Z :=
  match l with
  | [] => Some acc
  | c :: l' => if is_digit c then digits_value (acc * 10 + (bz c - 48)) l' else None
  end.

(** [strconv.ParseInt(s, 10, 64)] and [strconv.Atoi(s)]; [None] is any error. *)
Definition ParseInt (s : bytes) : option Z :=
  let unsigned (l : bytes) := match l with [] => None | _ => digits_value 0 l end in
  match s with
  | [] => None
  | c :: l =>
      if bool_decide (c = "-"%byte) then
        match unsigned l with
        | Some v => if v <=? 2 ^ 63 then Some (- v) else None
        | None => None
        end
      else
        match unsigned (if bool_decide (c = "+"%byte) then l else s) with
        | Some v => if v <=? maxInt64 then Some v else None
        | None => None
        end
  end.

(** ** fmt verbs *)

Definition hex_digit (d : Z) : byte := if d <? 10 then zb (48 + d) else zb (87 + d).

(** [%02x] of a byte. *)
Definition fmt_02x (b : byte) : bytes := [hex_digit (bz b / 16); hex_digit (bz b mod 16)].

(** [%c] of a byte: the rune with that number, in UTF-8. *)
Definition fmt_c (b : byte) : bytes :=
  if bz b <? 128 then [b] else [zb (192 + bz b / 64); zb (128 + bz b mod 64)].

(** The fraction of [time.Duration]'s text form: [prec] digits of [v] without the
    trailing zeros, and what is left of [v]. *)
Fixpoint fmtFrac (prec : nat) (v : Z) (print : bool) (acc : bytes) : bytes * Z :=
  match prec with
  | O => (if print then "."%byte :: acc else acc, v)
  | S prec' =>
      let print' := print || negb (v mod 10 =? 0) in
      fmtFrac prec' (v / 10) print' (if print' then digit (v mod 10) :: acc else acc)
  end.

(** [%v] of a [time.Duration] in nanoseconds. *)
Definition Duration_String (d : Z) : bytes :=
  let u := Z.abs d in
  let text :=
    if u =? 0 then bs "0s"
    else if u <? 1000 then FormatUint u ++ bs "ns"
    else if u <? 1000000 then
      let '(f, v) := fmtFrac 3 u false [] in FormatUint v ++ f ++ [zb 194; zb 181] ++ bs "s"
    else if u <? 1000000000 then
      let '(f, v) := fmtFrac 6 u false [] in FormatUint v ++ f ++ bs "ms"
    else
      let '(f, v) := fmtFrac 9 u false [] in
      let seconds := FormatUint (v mod 60) ++ f ++ bs "s" in
      let m := v / 60 in
      if m =? 0 then seconds
      else
        let minutes := FormatUint (m mod 60) ++ bs "m" ++ seconds in
        if m / 60 =? 0 then minutes else FormatUint (m / 60) ++ bs "h" ++ minutes in
  if d <? 0 then "-"%byte :: text else text.

(** ** strings *)

Definition HasPrefix (s p : bytes) : bool := bool_decide (take (length p) s = p).
Definition HasSuffix (s p : bytes) : bool :=
  bool_decide (length p <= length s)%nat && bool_decide (drop (length s - length p) s = p).

Fixpoint Contains (s sub : bytes) : bool :=
  HasPrefix s sub || match s with [] => false | _ :: s' => Contains s' sub end.

Fixpoint IndexByte (s : bytes) (c : byte) : option nat :=
  match s with
  | [] => None
  | x :: s' => if bool_decide (x = c) then Some O else S <$> IndexByte s' c
  end.

Fixpoint LastIndexByte (s : bytes) (c : byte) : option nat :=
  match s with
  | [] => None
  | x :: s' =>
      match LastIndexByte s' c with
      | Some i => Some (S i)
      | None => if bool_decide (x = c) then Some O else None
      end
  end.

Fixpoint Join (l : list bytes) (sep : bytes) : bytes :=
  match l with
  | [] => []
  | [x] => x
  | x :: l' => x ++ sep ++ Join l' sep
  end.

Definition ReplaceByte (s : bytes) (old new : byte) : bytes :=
  (fun c => if bool_decide (c = old) then new else c) <$> s.

Definition isASCII (s : bytes) : bool := forallb (fun c => bz c <? 128) s.
Definition upper_byte (c : byte) : byte :=
  if (97 <=? bz c) && (bz c <=? 122) then zb (bz c - 32) else c.
Definition lower_byte (c : byte) : byte :=
  if (65 <=? bz c) && (bz c <=? 90) then zb (bz c + 32) else c.
Definition asciiSpace (c : byte) : bool :=
  ((9 <=? bz c) && (bz c <=? 13)) || (bz c =? 32).

(** Results of the case mapping and field splitting on strings that are not
    pure ASCII. *)
Class GoUnicode := {
  unicode_ToUpper : bytes -> bytes;
  unicode_ToLower : bytes -> bytes;
  unicode_Fields : bytes -> list bytes;
  unicode_TrimSpace : bytes -> bytes;
}.

Fixpoint fields_go (cur : bytes) (s : bytes) : list bytes :=
  match s with
  | [] => match cur with [] => [] | _ => [reverse cur] end
  | c :: s' =>
      if asciiSpace c then
        match cur with [] => fields_go [] s' | _ => reverse cur :: fields_go [] s' end
      else fields_go (c :: cur) s'
  end.

Fixpoint split_go (cur : bytes) (s : bytes) (sep : byte) : list bytes :=
  match s with
  | [] => [reverse cur]
  | c :: s' => if bool_decide (c = sep) then reverse cur :: split_go [] s' sep
               else split_go (c :: cur) s' sep
  end.

(** [strings.Split(s, sep)] for a one-byte separator. *)
Definition SplitByte (s : bytes) (sep : byte) : list bytes := split_go [] s sep.

Section Unicode.
Context {U : GoUnicode}.

Definition ToUpper (s : bytes) : bytes :=
  if isASCII s then upper_byte <$> s else unicode_ToUpper s.
Definition ToLower (s : bytes) : bytes :=
  if isASCII s then lower_byte <$> s else unicode_ToLower s.
Definition Fields (s : bytes) : list bytes :=
  if isASCII s then fields_go [] s else unicode_Fields s.

Fixpoint trim_left (s : bytes) : bytes :=
  match s with c :: s' => if asciiSpace c then trim_left s' else s | [] => [] end.
Definition TrimSpace (s : bytes) : bytes :=
  if isASCII s then reverse (trim_left (reverse (trim_left s))) else unicode_TrimSpace s.

End Unicode.

(** ** Decimal formatting and parsing are inverse *)

Lemma bz_digit d : 0 <= d < 10 -> bz (digit d) = 48 + d.
Proof. intros H. unfold digit. rewrite bz_zb, Z.mod_small; lia. Qed.

Lemma is_digit_digit d : 0 <= d < 10 -> is_digit (digit d) = true.
Proof. intros H. unfold is_digit. rewrite (bz_digit d H). lia. Qed.

Lemma is_digit_spec c : is_digit c = true <-> 48 <= bz c <= 57.
Proof. unfold is_digit. lia. Qed.

Lemma digits_value_format fuel n acc :
  0 <= n < 2 ^ Z.of_nat fuel -> (0 < fuel)%nat ->
  digits_value 0 (format_digits fuel n acc) = digits_value n acc.
Proof.
  revert n acc. induction fuel as [|fuel IH]; intros n acc Hn Hf; [lia|].
  cbn [format_digits]. destruct (Z.ltb_spec n 10) as [Hlt|Hge].
  - cbn [digits_value]. rewrite is_digit_digit, bz_digit by lia. f_equal. lia.
  - assert (Hpow : 2 ^ Z.of_nat (S fuel) = 2 * 2 ^ Z.of_nat fuel).
    { rewrite Nat2Z.inj_succ, Z.pow_succ_r; lia. }
    pose proof (Z.div_mod n 10 ltac:(lia)). pose proof (Z.mod_pos_bound n 10 ltac:(lia)).
    destruct fuel as [|fuel]; [simpl in Hpow; lia|].
    rewrite IH by lia. cbn [digits_value].
    rewrite is_digit_digit, bz_digit by lia. f_equal. lia.
Qed.

Lemma format_digits_all fuel n acc :
  0 <= n -> Forall (fun c => is_digit c = true) acc ->
  Forall (fun c => is_digit c = true) (format_digits fuel n acc).
Proof.
  revert n acc. induction fuel as [|fuel IH]; intros n acc Hn Hacc; cbn [format_digits]; [done|].
  pose proof (Z.mod_pos_bound n 10 ltac:(lia)).
  destruct (Z.ltb_spec n 10).
  - constructor; [apply is_digit_digit; lia|done].
  - apply IH; [apply Z.div_pos; lia|]. constructor; [apply is_digit_digit; lia|done].
Qed.

Lemma format_digits_cons fuel n acc :
  (0 < fuel)%nat -> exists c l, format_digits fuel n acc = c :: l.
Proof.
  revert n acc. induction fuel as [|fuel IH]; intros n acc Hf; [lia|]. cbn [format_digits].
  destruct (n <? 10); [eauto|]. destruct fuel; [simpl; eauto|]. apply IH. lia.
Qed.

Lemma FormatUint_value n : 0 <= n -> digits_value 0 (FormatUint n) = Some n.
Proof.
  intros Hn. unfold FormatUint. rewrite digits_value_format; [done| |lia].
  rewrite Nat2Z.inj_succ, Z2Nat.id by apply Z.log2_nonneg.
  destruct (Z.eq_dec n 0) as [->|]; [simpl; lia|].
  pose proof (Z.log2_spec n ltac:(lia)). lia.
Qed.

Lemma FormatUint_digits n : 0 <= n -> Forall (fun c => is_digit c = true) (FormatUint n).
Proof. intros. apply format_digits_all; [done|constructor]. Qed.

Lemma FormatUint_cons n : 0 <= n ->
  exists c l, FormatUint n = c :: l /\ is_digit c = true.
Proof.
  intros Hn. destruct (format_digits_cons (S (Z.to_nat (Z.log2 n))) n [] ltac:(lia)) as (c & l & E).
  pose proof (FormatUint_digits n Hn) as Hd. unfold FormatUint in *. rewrite E in Hd |- *.
  exists c, l. split; [done|]. by inversion Hd.
Qed.

Lemma not_digit_neq c d : is_digit c = true -> is_digit d = false -> c <> d.
Proof. congruence. Qed.

Lemma ParseInt_FormatInt n : in_int64 n -> ParseInt (FormatInt n) = Some n.
Proof.
  unfold in_int64, minInt64, maxInt64. intros Hn. unfold FormatInt.
  destruct (Z.ltb_spec n 0) as [Hneg|Hpos].
  - unfold ParseInt. rewrite bool_decide_true by done.
    destruct (FormatUint_cons (- n) ltac:(lia)) as (c & l & E & Hc). rewrite E, <- E.
    rewrite FormatUint_value by lia.
    destruct (Z.leb_spec (- n) (2 ^ 63)); [f_equal; lia|lia].
  - destruct (FormatUint_cons n ltac:(lia)) as (c & l & E & Hc). rewrite E. unfold ParseInt.
    rewrite !bool_decide_false by (apply not_digit_neq; done).
    rewrite <- E, FormatUint_value by lia. unfold maxInt64.
    destruct (Z.leb_spec n (2 ^ 63 - 1)); [done|lia].
Qed.

Lemma digits_value_mono acc l v :
  0 <= acc -> digits_value acc l = Some v -> acc <= v.
Proof.
  revert acc. induction l as [|c l IH]; intros acc Ha H; cbn [digits_value] in H; [simplify_eq; lia|].
  destruct (is_digit c) eqn:E; [|done]. apply is_digit_spec in E. apply IH in H; lia.
Qed.
