(* ===== verification/RespTypes.v ===== *)
(** * RESP values and commands (protocol/types.go) *)

From Stdlib Require Import ZArith Lia String.
From stdpp Require Import base list list_numbers.
From S2P Require Import Prelude GoLib.

(** ** ValueType and Value *)

Definition TypeSimpleString : byte := "+"%byte.
Definition TypeError : byte := "-"%byte.
Definition TypeInteger : byte := ":"%byte.
Definition TypeBulkString : byte := "$"%byte.
Definition TypeArray : byte := "*"%byte.
Definition TypeNull : byte := "N"%byte.

(** [type Value struct]: one struct for every RESP type, its [Type] field a
    tag that says which of the other fields are meaningful. *)
Inductive Value : Type := mkValue {
  VType : byte;
  Data : bytes;
  Integer : Z;
  Array : list Value;
  IsNull : bool
}.

(** Composite literals of the source; omitted fields have their zero value. *)
Definition SimpleStringValue (d : bytes) : Value := mkValue TypeSimpleString d 0 [] false.
Definition ErrorValue (d : bytes) : Value := mkValue TypeError d 0 [] false.
Definition IntegerValue (n : Z) : Value := mkValue TypeInteger [] n [] false.
Definition BulkStringValue (d : bytes) : Value := mkValue TypeBulkString d 0 [] false.
Definition NullBulkStringValue : Value := mkValue TypeBulkString [] 0 [] true.
Definition ArrayValue (a : list Value) : Value := mkValue TypeArray [] 0 a false.
Definition NullArrayValue : Value := mkValue TypeArray [] 0 [] true.

(** Induction over nested values. *)
Lemma Value_ind_nested (P : Value -> Prop) :
  (forall ty d n arr null, Forall P arr -> P (mkValue ty d n arr null)) ->
  forall v, P v.
Proof.
  intros H. fix IH 1. intros [ty d n arr null]. apply H.
  induction arr as [|v arr IHarr]; constructor; [apply IH|exact IHarr].
Qed.

(** [func (v Value) String() string] *)
Fixpoint Value_String (v : Value) : bytes :=
  match v with
  | mkValue ty d n arr null =>
      if bool_decide (ty = TypeSimpleString) then d
      else if bool_decide (ty = TypeError) then d
      else if bool_decide (ty = TypeInteger) then FormatInt n
      else if bool_decide (ty = TypeBulkString) then
        if null then bs "(nil)" else d
      else if bool_decide (ty = TypeArray) then
        if null then bs "(nil)"
        else bs "[" ++ Join (map Value_String arr) (bs ", ") ++ bs "]"
      else if bool_decide (ty = TypeNull) then bs "(nil)"
      else bs "unknown type " ++ fmt_c ty
  end.

(** [func (v Value) IsError() bool] and [func (v Value) Error() string] *)
Definition IsError (v : Value) : bool := bool_decide (VType v = TypeError).
Definition Value_Error (v : Value) : bytes := if IsError v then Data v else [].

(** ** Commands *)

(** [type Command struct] *)
Record Command : Type := mkCommand { Name : bytes; Args : list bytes }.

(** The loop over [v.Array[1:]] that collects the arguments. *)
Fixpoint command_args (l : list Value) : outcome (list bytes) :=
  match l with
  | [] => Ok []
  | v :: l' =>
      if bool_decide (VType v = TypeBulkString) then
        match command_args l' with
        | Ok args => Ok (Data v :: args)
        | o => o
        end
      else Err (Errorf (bs "command arguments must be bulk strings"))
  end.

Section Commands.
Context {U : GoUnicode}.

(** [func ParseCommand(v Value) ( *Command, error)] *)
Definition ParseCommand (v : Value) : outcome Command :=
  if bool_decide (VType v <> TypeArray) || bool_decide (length (Array v) = 0%nat) then
    Err (Errorf (bs "invalid command format"))
  else
    match Array v with
    | [] => Err (Errorf (bs "invalid command format"))
    | name :: rest =>
        if bool_decide (VType name = TypeBulkString) then
          match command_args rest with
          | Ok args => Ok (mkCommand (ToUpper (Data name)) args)
          | Err e => Err e
          | Panic p => Panic p
          | OutOfFuel => OutOfFuel
          end
        else Err (Errorf (bs "command name must be bulk string"))
    end.

(** [func (c *Command) String() string] *)
Definition Command_String (c : Command) : bytes := Name c ++ bs " " ++ Join (Args c) (bs " ").

End Commands.

(** ** Well-formed values

    [wf_value] describes the values the reader can build: each tag uses only
    its own fields, line-based payloads hold no line feed, and lengths are
    within the reader's limits. *)

Definition maxBulkSize : Z := 1024 * 1024 * 1024.
Definition maxArraySize : Z := 1024 * 1024.

Definition no_lf (d : bytes) : Prop := Forall (fun c => c <> Byte.x0a) d.

Inductive wf_value : Value -> Prop :=
| wf_simple d : no_lf d -> wf_value (SimpleStringValue d)
| wf_error d : no_lf d -> wf_value (ErrorValue d)
| wf_integer n : in_int64 n -> wf_value (IntegerValue n)
| wf_bulk d : Z.of_nat (length d) <= maxBulkSize -> wf_value (BulkStringValue d)
| wf_null_bulk : wf_value NullBulkStringValue
| wf_array a :
    Z.of_nat (length a) <= maxArraySize -> Forall wf_value a -> wf_value (ArrayValue a)
| wf_null_array : wf_value NullArrayValue.

(** Induction over well-formed values, with a hypothesis for every element. *)
Lemma wf_value_ind_nested (P : Value -> Prop) :
  (forall d, no_lf d -> P (SimpleStringValue d)) ->
  (forall d, no_lf d -> P (ErrorValue d)) ->
  (forall n, in_int64 n -> P (IntegerValue n)) ->
  (forall d, Z.of_nat (length d) <= maxBulkSize -> P (BulkStringValue d)) ->
  P NullBulkStringValue ->
  (forall a, Z.of_nat (length a) <= maxArraySize -> Forall wf_value a -> Forall P a ->
     P (ArrayValue a)) ->
  P NullArrayValue ->
  forall v, wf_value v -> P v.
Proof.
  intros H1 H2 H3 H4 H5 H6 H7. fix IH 2. intros v [d Hd|d Hd|n Hn|d Hd| |a Ha Hall|]; auto.
  apply H6; [done..|]. induction Hall as [|x l Hx _ IHl]; constructor; [by apply IH|].
  apply IHl. cbn in Ha. lia.
Qed.

Lemma command_args_bulk (l : list bytes) : command_args (BulkStringValue <$> l) = Ok l.
Proof. induction l as [|d l IH]; [done|]. cbn. by rewrite IH. Qed.

Lemma ParseCommand_bulk {U : GoUnicode} name args :
  ParseCommand (ArrayValue (BulkStringValue <$> (name :: args))) =
  Ok (mkCommand (ToUpper name) args).
Proof.
  rewrite fmap_cons. unfold ParseCommand, ArrayValue.
  cbn [VType Array length orb BulkStringValue Data].
  rewrite command_args_bulk. done.
Qed.
