(* ===== verification/RespWriter.v ===== *)
(** * The RESP writer (protocol/writer.go)

    A [Writer] wraps a [bufio.Writer]: bytes are buffered and reach the
    connection at [Flush]. The automatic flush of a full buffer only moves
    bytes from [w_buf] to [w_sent] earlier, so the model keeps everything in
    [w_buf] until [Flush]. A [bufio.Writer] whose connection has failed keeps
    returning that error ([w_err]). *)

From Stdlib Require Import ZArith Lia String.
From stdpp Require Import base list list_numbers.
From S2P Require Import Prelude GoLib RespTypes.

Definition CRLF : bytes := [Byte.x0d; Byte.x0a].

Record Writer : Type := mkWriter { w_buf : bytes; w_sent : bytes; w_err : option error }.

(** [NewWriter] and [Reset]: a writer on a fresh connection. *)
Definition NewWriter : Writer := mkWriter [] [] None.

Definition WriteString (s : bytes) : M Writer unit := fun w =>
  match w_err w with
  | Some e => (Err e, w)
  | None => (Ok tt, mkWriter (w_buf w ++ s) (w_sent w) None)
  end.

Definition Flush : M Writer unit := fun w =>
  match w_err w with
  | Some e => (Err e, w)
  | None => (Ok tt, mkWriter [] (w_sent w ++ w_buf w) None)
  end.

Definition writeCRLF : M Writer unit := WriteString CRLF.

Definition WriteSimpleString (s : bytes) : M Writer unit :=
  WriteString (bs "+") ;;! WriteString s ;;! writeCRLF.

Definition WriteError (msg : bytes) : M Writer unit :=
  WriteString (bs "-") ;;! WriteString msg ;;! writeCRLF.

Definition WriteInteger (n : Z) : M Writer unit :=
  WriteString (bs ":") ;;! WriteString (FormatInt n) ;;! writeCRLF.

Definition WriteBulkString (data : bytes) : M Writer unit :=
  WriteString (bs "$") ;;! WriteString (FormatInt (Z.of_nat (length data))) ;;!
  writeCRLF ;;! WriteString data ;;! writeCRLF.

Definition WriteBulkStringFromString (s : bytes) : M Writer unit := WriteBulkString s.

Definition WriteNullBulkString : M Writer unit := WriteString (bs "$-1") ;;! writeCRLF.
Definition WriteNullArray : M Writer unit := WriteString (bs "*-1") ;;! writeCRLF.

(** [for _, x := range l { if err := f(x); err != nil { return err } }] *)
Definition giter {S A} (f : A -> M S unit) : list A -> M S unit :=
  fix go l := match l with [] => gret tt | x :: l' => f x ;;! go l' end.

(** The body of [WriteArray], over the element writer it calls. *)
Definition WriteArray_with (wv : Value -> M Writer unit) (values : list Value) : M Writer unit :=
  WriteString (bs "*") ;;! WriteString (FormatInt (Z.of_nat (length values))) ;;!
  writeCRLF ;;! giter wv values.

Fixpoint WriteValue (v : Value) : M Writer unit :=
  match v with
  | mkValue ty d n arr null =>
      if bool_decide (ty = TypeSimpleString) then WriteSimpleString d
      else if bool_decide (ty = TypeError) then WriteError d
      else if bool_decide (ty = TypeInteger) then WriteInteger n
      else if bool_decide (ty = TypeBulkString) then
        if null then WriteNullBulkString else WriteBulkString d
      else if bool_decide (ty = TypeArray) then
        if null then WriteNullArray else WriteArray_with WriteValue arr
      else gfail (Errorf (bs "unsupported value type: " ++ fmt_c ty))
  end.

Definition WriteArray (values : list Value) : M Writer unit := WriteArray_with WriteValue values.

Definition WriteCommand (cmd : bytes) (args : list bytes) : M Writer unit :=
  WriteString (bs "*") ;;! WriteString (FormatInt (1 + Z.of_nat (length args))) ;;!
  writeCRLF ;;! WriteBulkStringFromString cmd ;;! giter WriteBulkStringFromString args.

Definition WriteOK : M Writer unit := WriteSimpleString (bs "OK").
Definition WritePONG : M Writer unit := WriteSimpleString (bs "PONG").

(** ** What the writer produces

    [encode v] is the wire form of [v]; the lemmas below show that the writer
    appends exactly these bytes. *)

Definition encode_bulk (d : bytes) : bytes :=
  bs "$" ++ FormatInt (Z.of_nat (length d)) ++ CRLF ++ d ++ CRLF.

Fixpoint encode (v : Value) : bytes :=
  match v with
  | mkValue ty d n arr null =>
      if bool_decide (ty = TypeSimpleString) then bs "+" ++ d ++ CRLF
      else if bool_decide (ty = TypeError) then bs "-" ++ d ++ CRLF
      else if bool_decide (ty = TypeInteger) then bs ":" ++ FormatInt n ++ CRLF
      else if bool_decide (ty = TypeBulkString) then
        if null then bs "$-1" ++ CRLF else encode_bulk d
      else if null then bs "*-1" ++ CRLF
      else bs "*" ++ FormatInt (Z.of_nat (length arr)) ++ CRLF ++ concat (map encode arr)
  end.

(** A value all of whose nested tags the writer supports. *)
Fixpoint supported (v : Value) : bool :=
  match v with
  | mkValue ty _ _ arr null =>
      bool_decide (ty = TypeSimpleString) || bool_decide (ty = TypeError)
      || bool_decide (ty = TypeInteger) || bool_decide (ty = TypeBulkString)
      || (bool_decide (ty = TypeArray) && (null || forallb supported arr))
  end.

(** [emits m out]: on a healthy writer [m] succeeds and appends [out]. *)
Definition emits (m : M Writer unit) (out : bytes) : Prop :=
  forall b sent, m (mkWriter b sent None) = (Ok tt, mkWriter (b ++ out) sent None).

Lemma emits_WriteString s : emits (WriteString s) s.
Proof. by intros b sent. Qed.

Lemma emits_writeCRLF : emits writeCRLF CRLF.
Proof. apply emits_WriteString. Qed.

Lemma emits_ret : emits (gret tt) [].
Proof. intros b sent. by rewrite app_nil_r. Qed.

Lemma emits_bind m k o1 o2 : emits m o1 -> emits k o2 -> emits (m ;;! k) (o1 ++ o2).
Proof.
  intros Hm Hk b sent. rewrite (gbind_ok _ _ _ _ _ (Hm b sent)), Hk. by rewrite app_assoc.
Qed.

Lemma emits_giter {A} (f : A -> M Writer unit) (g : A -> bytes) l :
  Forall (fun x => emits (f x) (g x)) l -> emits (giter f l) (concat (map g l)).
Proof.
  induction 1 as [|x l Hx _ IH]; cbn; [apply emits_ret|]. by apply emits_bind.
Qed.

Create HintDb resp.
#[global] Arguments CRLF : simpl never.
#[export] Hint Resolve emits_WriteString emits_writeCRLF emits_ret emits_bind : resp.

Lemma emits_WriteBulkString d : emits (WriteBulkString d) (encode_bulk d).
Proof. unfold WriteBulkString, encode_bulk. auto 10 with resp. Qed.
#[export] Hint Resolve emits_WriteBulkString : resp.

Lemma emits_WriteArray_with wv (g : Value -> bytes) l :
  Forall (fun v => emits (wv v) (g v)) l ->
  emits (WriteArray_with wv l)
    (bs "*" ++ FormatInt (Z.of_nat (length l)) ++ CRLF ++ concat (map g l)).
Proof. intros H. unfold WriteArray_with. auto 10 using emits_giter with resp. Qed.

Lemma WriteValue_encode v : supported v = true -> emits (WriteValue v) (encode v).
Proof.
  induction v as [ty d n arr null IH] using Value_ind_nested. cbn [WriteValue encode supported].
  unfold WriteSimpleString, WriteError, WriteInteger, WriteNullBulkString, WriteNullArray.
  repeat case_bool_decide; cbn; try discriminate; intros Hs;
    [auto 10 with resp..| |]; destruct null; auto 10 with resp.
  apply emits_WriteArray_with. cbn in Hs. rewrite forallb_forall in Hs.
  rewrite Forall_forall in IH |- *. intros x Hx. apply IH; [done|].
  apply Hs. by apply list_elem_of_In.
Qed.

Lemma WriteCommand_encode cmd args :
  emits (WriteCommand cmd args)
    (encode (ArrayValue (BulkStringValue <$> (cmd :: args)))).
Proof.
  replace (encode _) with
    (bs "*" ++ FormatInt (1 + Z.of_nat (length args)) ++ CRLF ++
       encode_bulk cmd ++ concat (map encode_bulk args)).
  - unfold WriteCommand. repeat apply emits_bind; auto with resp.
    apply emits_giter, Forall_forall. intros. apply emits_WriteBulkString.
  - cbn -[bs CRLF FormatInt length]. do 3 f_equal.
    + cbn. rewrite length_fmap. lia.
    + do 2 f_equal. induction args as [|a args IH]; [done|]. cbn. by rewrite IH.
Qed.
