(* ===== verification/RespReader.v ===== *)
(** * The RESP reader (protocol/reader.go)

    A [Reader] wraps a [bufio.Reader] over a connection. The model keeps the
    bytes the stream still has to deliver ([rd_buf]) and the error the
    connection reports after them ([rd_err], [EOF] for an orderly close).
    How the bytes are cut into network reads is invisible to the parser. *)

From Stdlib Require Import ZArith Lia String.
From stdpp Require Import base list list_numbers.
From S2P Require Import Prelude GoLib RespTypes RespWriter.

Record Reader : Type := mkReader { rd_buf : bytes; rd_err : error }.

(** ** bufio.Reader and io.ReadFull *)

Definition ReadByte : M Reader byte := fun r =>
  match rd_buf r with
  | [] => (Err (rd_err r), r)
  | b :: l => (Ok b, mkReader l (rd_err r))
  end.

(** The error of [io.ReadFull] when the stream ends before the buffer is
    full: [io.EOF] becomes [io.ErrUnexpectedEOF] after a partial read. *)
Definition short_read_error (r : Reader) : error :=
  if bool_decide (rd_err r = EOF) then
    match rd_buf r with [] => EOF | _ => ErrUnexpectedEOF end
  else rd_err r.

Definition ReadFull (n : Z) : M Reader bytes := fun r =>
  if n <=? Z.of_nat (length (rd_buf r)) then
    (Ok (take (Z.to_nat n) (rd_buf r)), mkReader (drop (Z.to_nat n) (rd_buf r)) (rd_err r))
  else (Err (short_read_error r), mkReader [] (rd_err r)).

(** [br.Discard(n)] *)
Definition Discard (n : Z) : M Reader unit := fun r =>
  if n <=? Z.of_nat (length (rd_buf r)) then
    (Ok tt, mkReader (drop (Z.to_nat n) (rd_buf r)) (rd_err r))
  else (Err (rd_err r), mkReader [] (rd_err r)).

(** The prefix up to and including the first line feed, and the rest. *)
Fixpoint split_lf (l : bytes) : option (bytes * bytes) :=
  match l with
  | [] => None
  | c :: l' =>
      if bool_decide (c = Byte.x0a) then Some ([c], l')
      else match split_lf l' with Some (p, r) => Some (c :: p, r) | None => None end
  end.

(** [br.ReadBytes('\n')] *)
Definition ReadBytesLF : M Reader bytes := fun r =>
  match split_lf (rd_buf r) with
  | Some (line, rest) => (Ok line, mkReader rest (rd_err r))
  | None => (Err (rd_err r), mkReader [] (rd_err r))
  end.

(** ** Lines *)

Definition readLine : M Reader bytes :=
  let! line := gwrap (bs "failed to read line: ") ReadBytesLF in
  if (Z.of_nat (length line) <? 2) then
    gfail (Errorf (bs "line too short (" ++ FormatInt (Z.of_nat (length line)) ++
                   bs " bytes), expected CRLF terminator"))
  else if negb (HasSuffix line CRLF) then
    match drop (length line - 2) line with
    | [a; b] =>
        gfail (Errorf (bs "missing CRLF terminator, got [" ++ FormatInt (bz a) ++ bs ", " ++
                       FormatInt (bz b) ++ bs "] instead of [13, 10]"))
    | _ => fun r => (Panic (bs "slice bounds out of range"), r)
    end
  else gret (take (length line - 2) line).

Definition expectCRLF : M Reader unit := fun r =>
  let n := Z.min 2 (Z.of_nat (length (rd_buf r))) in
  gtry (ReadFull 2)
    (fun crlf =>
       if bool_decide (crlf = CRLF) then gret tt
       else match crlf with
            | [a; b] =>
                gfail (Errorf (bs "expected CRLF terminator [13, 10], got [" ++ FormatInt (bz a) ++
                               bs ", " ++ FormatInt (bz b) ++ bs "]"))
            | _ => fun r => (Panic (bs "index out of range"), r)
            end)
    (fun e => gfail (Errorf (bs "failed to read CRLF terminator (read " ++ FormatInt n ++
                             bs "/2 bytes): " ++ Error e))) r.

(** ** Integers *)

(** The digit loop of [parseInt64]; [n] is an [int64]. *)
Fixpoint parseInt64_loop (n : Z) (b : bytes) : outcome Z :=
  match b with
  | [] => Ok n
  | c :: b' =>
      if (bz c <? 48) || (57 <? bz c) then Err ErrSyntax
      else if maxInt64 / 10 <? n then Err ErrRange
      else parseInt64_loop (wrap64 (n * 10 + (bz c - 48))) b'
  end.

Definition parseInt64 (b : bytes) : outcome Z :=
  match b with
  | [] => Err ErrSyntax
  | c :: b' =>
      let neg := bool_decide (c = "-"%byte) in
      let digits := if neg || bool_decide (c = "+"%byte) then b' else b in
      match digits with
      | [] => Err ErrSyntax
      | _ =>
          match parseInt64_loop 0 digits with
          | Ok n => Ok (if neg then wrap64 (- n) else n)
          | o => o
          end
      end
  end.

(** [length, err := parseInt64(line)] with the caller's error text. *)
Definition parseLength (what line : bytes) : M Reader Z :=
  match parseInt64 line with
  | Ok n => gret n
  | _ => gfail (Errorf (what ++ line))
  end.

(** ** Values *)

Definition readSimpleString : M Reader Value :=
  let! line := readLine in gret (SimpleStringValue line).

Definition readError : M Reader Value :=
  let! line := readLine in gret (ErrorValue line).

Definition readInteger : M Reader Value :=
  let! line := readLine in
  let! n := parseLength (bs "invalid integer: ") line in
  gret (IntegerValue n).

Definition readBulkString : M Reader Value :=
  let! line := readLine in
  let! length := parseLength (bs "invalid bulk string length: ") line in
  if length =? -1 then gret NullBulkStringValue
  else if (length <? 0) || (maxBulkSize <? length) then
    gfail (Errorf (bs "invalid bulk string length: " ++ FormatInt length))
  else
    let! data := ReadFull length in
    expectCRLF ;;! gret (BulkStringValue data).

(** [for i := 0; i < n; i++ { value, err := r.ReadNext(); ... }] *)
Fixpoint read_elements (next : M Reader Value) (n : nat) : M Reader (list Value) :=
  match n with
  | O => gret []
  | S n' =>
      let! v := next in
      let! l := read_elements next n' in
      gret (v :: l)
  end.

Definition readArray (next : M Reader Value) : M Reader Value :=
  let! line := readLine in
  let! length := parseLength (bs "invalid array length: ") line in
  if length =? -1 then gret NullArrayValue
  else if (length <? 0) || (maxArraySize <? length) then
    gfail (Errorf (bs "invalid array length: " ++ FormatInt length))
  else
    let! array := read_elements next (Z.to_nat length) in
    gret (ArrayValue array).

(** [ReadNext] recurses through [readArray]; the fuel bounds the nesting
    depth. *)
Fixpoint ReadNext_fuel (fuel : nat) : M Reader Value :=
  match fuel with
  | O => fun r => (OutOfFuel, r)
  | S fuel' =>
      let! typeByte := ReadByte in
      if bool_decide (typeByte = TypeSimpleString) then readSimpleString
      else if bool_decide (typeByte = TypeError) then readError
      else if bool_decide (typeByte = TypeInteger) then readInteger
      else if bool_decide (typeByte = TypeBulkString) then readBulkString
      else if bool_decide (typeByte = TypeArray) then readArray (ReadNext_fuel fuel')
      else if bool_decide (typeByte = Byte.x00) then
        gfail (Errorf (bs "unknown RESP type: empty byte (connection may be closed)"))
      else
        gfail (Errorf (bs "unknown RESP type: " ++ fmt_c typeByte ++ bs " (0x" ++
                       fmt_02x typeByte ++ bs ")"))
  end.

(** Every level of nesting consumes a type byte, so one unit of fuel per
    remaining byte (plus one for the read that finds none) is enough; see
    [ReadNext_fuel_enough]. *)
Definition ReadNext : M Reader Value := fun r => ReadNext_fuel (S (length (rd_buf r))) r.

(** ** Skip *)

Fixpoint skip_elements (skip : M Reader unit) (n : nat) : M Reader unit :=
  match n with O => gret tt | S n' => skip ;;! skip_elements skip n' end.

Fixpoint Skip_fuel (fuel : nat) : M Reader unit :=
  match fuel with
  | O => fun r => (OutOfFuel, r)
  | S fuel' =>
      let! typeByte := ReadByte in
      if bool_decide (typeByte = TypeSimpleString) || bool_decide (typeByte = TypeError) then
        let! _ := readLine in gret tt
      else if bool_decide (typeByte = TypeInteger) then
        let! _ := readLine in gret tt
      else if bool_decide (typeByte = TypeBulkString) then
        let! line := readLine in
        let! length := parseLength (bs "invalid bulk string length: ") line in
        if length =? -1 then gret tt
        else if (length <? 0) || (maxBulkSize <? length) then
          gfail (Errorf (bs "invalid bulk string length: " ++ FormatInt length))
        else Discard (length + 2)
      else if bool_decide (typeByte = TypeArray) then
        let! line := readLine in
        let! length := parseLength (bs "invalid array length: ") line in
        if length =? -1 then gret tt
        else if (length <? 0) || (maxArraySize <? length) then
          gfail (Errorf (bs "invalid array length: " ++ FormatInt length))
        else skip_elements (Skip_fuel fuel') (Z.to_nat length)
      else gfail (Errorf (bs "unknown RESP type: " ++ fmt_c typeByte))
  end.

Definition Skip : M Reader unit := fun r => Skip_fuel (S (length (rd_buf r))) r.

(** ** Streaming bulk strings

    [ReadBulkString] and [ReadBulkStringForReplication] hand the payload to a
    callback in chunks. The callback [fn] works on a state [C] of its own; a
    null bulk string calls it once with [nil] ([None]). *)

Section Streaming.
Context {C : Type} (fn : option bytes -> M C unit).

Definition on_reader {A} (m : M Reader A) : M (Reader * C) A := fun '(r, c) =>
  let '(o, r') := m r in (o, (r', c)).

Definition on_callback {A} (m : M C A) : M (Reader * C) A := fun '(r, c) =>
  let '(o, c') := m c in (o, (r, c')).

Definition chunkSize : Z := 8192.

(** [for remaining > 0 { ... }]; the fuel bounds the number of chunks. *)
Fixpoint read_chunks (fuel : nat) (remaining : Z) : M (Reader * C) unit :=
  if remaining <=? 0 then gret tt
  else
    match fuel with
    | O => fun s => (OutOfFuel, s)
    | S fuel' =>
        let toRead := if remaining <? chunkSize then remaining else chunkSize in
        let! buffer := on_reader (ReadFull toRead) in
        on_callback (fn (Some buffer)) ;;!
        read_chunks fuel' (remaining - Z.of_nat (length buffer))
    end.

(** The header and payload shared by both functions; [finish] is what follows
    the payload. *)
Definition read_bulk_stream (finish : M (Reader * C) unit) : M (Reader * C) unit :=
  let! typeByte := on_reader ReadByte in
  if negb (bool_decide (typeByte = TypeBulkString)) then
    gfail (Errorf (bs "expected bulk string, got " ++ fmt_c typeByte))
  else
    let! line := on_reader readLine in
    let! length := on_reader (parseLength (bs "invalid bulk string length: ") line) in
    if length =? -1 then on_callback (fn None)
    else if (length <? 0) || (maxBulkSize <? length) then
      gfail (Errorf (bs "invalid bulk string length: " ++ FormatInt length))
    else read_chunks (Z.to_nat (length / chunkSize + 1)) length ;;! finish.

Definition ReadBulkString : M (Reader * C) unit := read_bulk_stream (on_reader expectCRLF).

(** RDB data in a replication stream is not followed by CRLF. *)
Definition ReadBulkStringForReplication : M (Reader * C) unit := read_bulk_stream (gret tt).

End Streaming.
