(* ===== verification/RespProofs.v ===== *)
(** * Correctness of the RESP codec

    Round trip of writer and reader, termination of the recursive reader,
    agreement of [Skip] with [ReadNext], and the range behaviour of
    [parseInt64]. *)

From Stdlib Require Import ZArith Lia String.
From stdpp Require Import base list list_numbers.
From S2P Require Import Prelude GoLib RespTypes RespWriter RespReader.

(** ** parseInt64 against strconv.ParseInt *)

Lemma maxInt64_div10 : maxInt64 / 10 = 922337203685477580.
Proof. reflexivity. Qed.

Lemma parseInt64_loop_value n l v :
  0 <= n -> digits_value n l = Some v -> v <= maxInt64 -> parseInt64_loop n l = Ok v.
Proof.
  revert n. induction l as [|c l IH]; intros n Hn Hv Hmax; cbn in *; [congruence|].
  destruct (is_digit c) eqn:Hc; [|done]. apply is_digit_spec in Hc.
  assert (Hle : n * 10 + (bz c - 48) <= v) by (eapply digits_value_mono, Hv; lia).
  replace ((bz c <? 48) || (57 <? bz c)) with false by zbool.
  rewrite maxInt64_div10. unfold maxInt64 in *. destruct (Z.ltb_spec 922337203685477580 n) as [Hbig|Hsmall]; [exfalso; lia|].
  rewrite wrap64_id by (unfold in_int64, minInt64, maxInt64; lia).
  apply IH; [lia|done|lia].
Qed.

(** The one magnitude beyond [maxInt64] that [ParseInt] accepts, 2^63 after a
    minus sign, also comes out right: the accumulator wraps to [minInt64] and
    negation leaves it there. *)
Lemma parseInt64_loop_min n l :
  0 <= n <= maxInt64 -> digits_value n l = Some (2 ^ 63) -> parseInt64_loop n l = Ok minInt64.
Proof.
  revert n. induction l as [|c l IH]; intros n Hn Hv; cbn in *.
  - unfold maxInt64 in *. simplify_eq. exfalso; lia.
  - destruct (is_digit c) eqn:Hc; [|done]. apply is_digit_spec in Hc.
    assert (Hle : n * 10 + (bz c - 48) <= 2 ^ 63) by (eapply digits_value_mono, Hv; lia).
    replace ((bz c <? 48) || (57 <? bz c)) with false by zbool.
    rewrite maxInt64_div10. unfold maxInt64 in *. destruct (Z.ltb_spec 922337203685477580 n) as [Hbig|Hsmall]; [exfalso; lia|].
    destruct (Z.eq_dec (n * 10 + (bz c - 48)) (2 ^ 63)) as [E|E].
    + rewrite E in *. destruct l as [|c' l]; cbn in Hv.
      * done.
      * destruct (is_digit c') eqn:Hc'; [|done]. apply is_digit_spec in Hc'.
        apply digits_value_mono in Hv; [exfalso|]; lia.
    + rewrite wrap64_id by (unfold in_int64, minInt64, maxInt64; lia). apply IH; [lia|done].
Qed.

Lemma parseInt64_ParseInt s v : ParseInt s = Some v -> parseInt64 s = Ok v.
Proof.
  unfold ParseInt, parseInt64. destruct s as [|c l]; [done|]. intros H.
  destruct (bool_decide (c = "-"%byte)) eqn:Hneg; cbn [orb].
  - destruct l as [|d l]; [done|]. destruct (digits_value 0 (d :: l)) as [w|] eqn:Hw; [|done].
    destruct (Z.leb_spec w (2 ^ 63)); [|done]. simplify_eq.
    assert (0 <= w) by (eapply digits_value_mono, Hw; lia).
    destruct (Z.eq_dec w (2 ^ 63)) as [->|Hne].
    + rewrite (parseInt64_loop_min 0) by (done || unfold maxInt64; lia). done.
    + rewrite (parseInt64_loop_value 0 _ w) by (done || unfold maxInt64; lia).
      rewrite wrap64_id by (unfold in_int64, minInt64, maxInt64; lia). done.
  - set (ds := if bool_decide (c = "+"%byte) then l else c :: l) in *.
    destruct ds as [|d ds]; [done|].
    destruct (digits_value 0 (d :: ds)) as [w|] eqn:Hw; [|done].
    destruct (Z.leb_spec w maxInt64); [|done]. simplify_eq.
    by rewrite (parseInt64_loop_value 0 _ v).
Qed.

Lemma parseInt64_FormatInt n : in_int64 n -> parseInt64 (FormatInt n) = Ok n.
Proof. intros H. by apply parseInt64_ParseInt, ParseInt_FormatInt. Qed.

(** ** Reading back a line *)

Lemma split_lf_crlf d rest : no_lf d -> split_lf (d ++ CRLF ++ rest) = Some (d ++ CRLF, rest).
Proof.
  induction 1 as [|c d Hc _ IH]; [done|]. cbn [split_lf app].
  rewrite bool_decide_false by done. rewrite IH. done.
Qed.

Lemma HasSuffix_app d p : HasSuffix (d ++ p) p = true.
Proof.
  unfold HasSuffix. rewrite length_app, !bool_decide_true; [done| |lia].
  by replace (length d + length p - length p)%nat with (length d + 0)%nat by lia;
     rewrite drop_app_add, drop_0.
Qed.

Lemma readLine_ok d rest e :
  no_lf d -> readLine (mkReader (d ++ CRLF ++ rest) e) = (Ok d, mkReader rest e).
Proof.
  intros Hd. unfold readLine, gwrap, gbind, gtry, ReadBytesLF. cbn [rd_buf rd_err].
  rewrite split_lf_crlf by done. cbn [gret]. rewrite length_app. change (length CRLF) with 2%nat.
  replace (Z.of_nat (length d + 2) <? 2) with false by zbool.
  rewrite HasSuffix_app. cbn [negb].
  replace (length d + 2 - 2)%nat with (length d) by lia. by rewrite take_app_length.
Qed.

Lemma digits_no_lf l : Forall (fun c => is_digit c = true) l -> no_lf l.
Proof. intros H. eapply Forall_impl; [exact H|]. intros c Hc ->. done. Qed.

Lemma FormatInt_no_lf n : no_lf (FormatInt n).
Proof.
  unfold FormatInt. destruct (Z.ltb_spec n 0).
  - constructor; [done|]. apply digits_no_lf, FormatUint_digits. lia.
  - by apply digits_no_lf, FormatUint_digits.
Qed.

Lemma readLine_FormatInt n rest e :
  readLine (mkReader (FormatInt n ++ CRLF ++ rest) e) = (Ok (FormatInt n), mkReader rest e).
Proof. apply readLine_ok, FormatInt_no_lf. Qed.

Lemma parseLength_FormatInt what n r : in_int64 n ->
  parseLength what (FormatInt n) r = (Ok n, r).
Proof. intros H. unfold parseLength. by rewrite parseInt64_FormatInt. Qed.

Lemma ReadFull_app d rest e :
  ReadFull (Z.of_nat (length d)) (mkReader (d ++ rest) e) = (Ok d, mkReader rest e).
Proof.
  unfold ReadFull. cbn [rd_buf rd_err]. rewrite length_app, Nat2Z.id.
  replace (Z.of_nat (length d) <=? Z.of_nat (length d + length rest)) with true by zbool.
  by rewrite take_app_length, drop_app_length.
Qed.

Lemma expectCRLF_ok rest e : expectCRLF (mkReader (CRLF ++ rest) e) = (Ok tt, mkReader rest e).
Proof. 
  unfold expectCRLF. erewrite gtry_ok by apply (ReadFull_app CRLF).
  by rewrite bool_decide_true.
Qed.

Lemma size_in_int64 n : 0 <= n <= maxBulkSize -> in_int64 n.
Proof. unfold maxBulkSize, in_int64, minInt64, maxInt64. lia. Qed.

Lemma readBulkString_ok d rest e :
  Z.of_nat (length d) <= maxBulkSize ->
  readBulkString (mkReader (FormatInt (Z.of_nat (length d)) ++ CRLF ++ d ++ CRLF ++ rest) e) =
  (Ok (BulkStringValue d), mkReader rest e).
Proof.
  intros Hd. unfold readBulkString. erewrite gbind_ok by apply readLine_FormatInt.
  erewrite gbind_ok by (apply parseLength_FormatInt, size_in_int64; lia).
  replace (Z.of_nat (length d) =? -1) with false by zbool.
  replace ((_ <? 0) || (maxBulkSize <? _)) with false by zbool.
  erewrite gbind_ok by apply ReadFull_app.
  by erewrite gbind_ok by apply expectCRLF_ok.
Qed.

Lemma read_elements_ok next (l : list Value) rest e :
  Forall (fun v => forall rest, next (mkReader (encode v ++ rest) e) = (Ok v, mkReader rest e)) l ->
  read_elements next (length l) (mkReader (concat (map encode l) ++ rest) e) =
  (Ok l, mkReader rest e).
Proof.
  induction 1 as [|v l Hv _ IH]; [done|]. cbn [length read_elements map concat].
  rewrite <- app_assoc. erewrite gbind_ok by apply Hv. by erewrite gbind_ok by apply IH.
Qed.

Lemma readArray_ok next (l : list Value) rest e :
  Z.of_nat (length l) <= maxArraySize ->
  Forall (fun v => forall rest, next (mkReader (encode v ++ rest) e) = (Ok v, mkReader rest e)) l ->
  readArray next
    (mkReader (FormatInt (Z.of_nat (length l)) ++ CRLF ++ concat (map encode l) ++ rest) e) =
  (Ok (ArrayValue l), mkReader rest e).
Proof.
  intros Hlen Hl. unfold readArray. erewrite gbind_ok by apply readLine_FormatInt.
  erewrite gbind_ok by (apply parseLength_FormatInt, size_in_int64; unfold maxBulkSize, maxArraySize in *; lia).
  replace (Z.of_nat (length l) =? -1) with false by zbool.
  replace ((_ <? 0) || (maxArraySize <? _)) with false by zbool.
  rewrite Nat2Z.id. by erewrite gbind_ok by (apply read_elements_ok, Hl).
Qed.

Lemma encode_elem_length v l : v ∈ l ->
  (length (encode v) <= length (concat (map encode l)))%nat.
Proof.
  induction 1 as [v l|v w l _ IH]; cbn; rewrite length_app; lia.
Qed.

(** The type byte followed by the payload, per kind of value. *)
Lemma encode_simple d : encode (SimpleStringValue d) = TypeSimpleString :: d ++ CRLF.
Proof. reflexivity. Qed.
Lemma encode_error d : encode (ErrorValue d) = TypeError :: d ++ CRLF.
Proof. reflexivity. Qed.
Lemma encode_integer n : encode (IntegerValue n) = TypeInteger :: FormatInt n ++ CRLF.
Proof. reflexivity. Qed.
Lemma encode_bulk_value d :
  encode (BulkStringValue d) =
  TypeBulkString :: FormatInt (Z.of_nat (length d)) ++ CRLF ++ d ++ CRLF.
Proof. reflexivity. Qed.
Lemma encode_null_bulk : encode NullBulkStringValue = TypeBulkString :: FormatInt (-1) ++ CRLF.
Proof. reflexivity. Qed.
Lemma encode_array a :
  encode (ArrayValue a) =
  TypeArray :: FormatInt (Z.of_nat (length a)) ++ CRLF ++ concat (map encode a).
Proof. reflexivity. Qed.
Lemma encode_null_array : encode NullArrayValue = TypeArray :: FormatInt (-1) ++ CRLF.
Proof. reflexivity. Qed.
Create Rewrite HintDb resp_encode.
#[export] Hint Rewrite encode_simple encode_error encode_integer encode_bulk_value
  encode_null_bulk encode_array encode_null_array : resp_encode.

(** Dispatch of [ReadNext] on the type byte. *)
Lemma ReadNext_simple fuel l e :
  ReadNext_fuel (S fuel) (mkReader (TypeSimpleString :: l) e) = readSimpleString (mkReader l e).
Proof. reflexivity. Qed.
Lemma ReadNext_error fuel l e :
  ReadNext_fuel (S fuel) (mkReader (TypeError :: l) e) = readError (mkReader l e).
Proof. reflexivity. Qed.
Lemma ReadNext_integer fuel l e :
  ReadNext_fuel (S fuel) (mkReader (TypeInteger :: l) e) = readInteger (mkReader l e).
Proof. reflexivity. Qed.
Lemma ReadNext_bulk fuel l e :
  ReadNext_fuel (S fuel) (mkReader (TypeBulkString :: l) e) = readBulkString (mkReader l e).
Proof. reflexivity. Qed.
Lemma ReadNext_array fuel l e :
  ReadNext_fuel (S fuel) (mkReader (TypeArray :: l) e) =
  readArray (ReadNext_fuel fuel) (mkReader l e).
Proof. reflexivity. Qed.
#[export] Hint Rewrite ReadNext_simple ReadNext_error ReadNext_integer ReadNext_bulk
  ReadNext_array : resp_encode.

Lemma ReadNext_fuel_encode v : wf_value v -> forall fuel rest e,
  (length (encode v) <= fuel)%nat ->
  ReadNext_fuel fuel (mkReader (encode v ++ rest) e) = (Ok v, mkReader rest e).
Proof.
  induction 1 as [d Hd|d Hd|n Hn|d Hd| |a Ha _ IH|] using wf_value_ind_nested;
    intros fuel rest e Hfuel; autorewrite with resp_encode in Hfuel |- *;
    (destruct fuel as [|fuel]; [cbn in Hfuel; lia|]);
    rewrite <- app_comm_cons, <- ?app_assoc; autorewrite with resp_encode.
  - unfold readSimpleString. by erewrite gbind_ok by (by apply readLine_ok).
  - unfold readError. by erewrite gbind_ok by (by apply readLine_ok).
  - unfold readInteger. erewrite gbind_ok by apply readLine_FormatInt.
    by erewrite gbind_ok by (by apply parseLength_FormatInt).
  - by apply readBulkString_ok.
  - unfold readBulkString. erewrite gbind_ok by apply readLine_FormatInt.
    by erewrite gbind_ok by (by apply parseLength_FormatInt).
  - apply readArray_ok; [done|]. rewrite Forall_forall in IH |- *. intros v Hv rest'.
    apply IH; [done|]. pose proof (encode_elem_length v a Hv).
    cbn in Hfuel. rewrite !length_app in Hfuel. lia.
  - unfold readArray. erewrite gbind_ok by apply readLine_FormatInt.
    by erewrite gbind_ok by (by apply parseLength_FormatInt).
Qed.

Lemma ReadNext_encode v rest e : wf_value v ->
  ReadNext (mkReader (encode v ++ rest) e) = (Ok v, mkReader rest e).
Proof.
  intros Hv. apply ReadNext_fuel_encode; [done|]. cbn [rd_buf]. rewrite length_app. lia.
Qed.

Lemma command_args_returns l : returns (command_args l).
Proof. induction l as [|v l IH]; cbn; [done|]. case_bool_decide; [|done]. by destruct (command_args l). Qed.

Lemma ParseCommand_returns {U : GoUnicode} v : returns (ParseCommand v).
Proof.
  unfold ParseCommand. destruct (_ || _); [done|]. destruct (Array v) as [|x l]; [done|].
  case_bool_decide; [|done]. pose proof (command_args_returns l). by destruct (command_args l).
Qed.

Lemma wf_value_supported v : wf_value v -> supported v = true.
Proof.
  induction 1 as [| | | | |a _ _ IH|] using wf_value_ind_nested; try done.
  cbn. apply forallb_forall. intros x Hx. rewrite Forall_forall in IH.
  apply IH, list_elem_of_In, Hx.
Qed.

(** ** Termination and input consumption

    [good n m]: on a stream of at most [n] bytes [m] returns (no panic, no
    exhausted fuel) and leaves a suffix of its input. *)

Definition good {A} (n : nat) (m : M Reader A) : Prop :=
  forall r, (length (rd_buf r) <= n)%nat ->
  returns (m r).1 /\ rd_buf (m r).2 `suffix_of` rd_buf r /\ rd_err (m r).2 = rd_err r.

Lemma good_ret {A} n (a : A) : good n (gret a).
Proof. intros r _. by cbn. Qed.

Lemma good_fail {A} n e : good (A:=A) n (gfail e).
Proof. intros r _. by cbn. Qed.

Lemma good_bind {A B} n (m : M Reader A) (k : A -> M Reader B) :
  good n m -> (forall a, good n (k a)) -> good n (gbind m k).
Proof.
  intros Hm Hk r Hr. destruct (Hm r Hr) as (H1 & H2 & H3). unfold gbind.
  destruct (m r) as [[a|e|p|] r'] eqn:E; cbn in *; try done.
  destruct (Hk a r') as (H4 & H5 & H6).
  - apply suffix_length in H2. lia.
  - split; [done|]. split; [by etrans|congruence].
Qed.

Lemma good_try {A B} n (m : M Reader A) (k : A -> M Reader B) h :
  good n m -> (forall a, good n (k a)) -> (forall e, good n (h e)) -> good n (gtry m k h).
Proof.
  intros Hm Hk Hh r Hr. destruct (Hm r Hr) as (H1 & H2 & H3). unfold gtry.
  assert (Hlen : (length (rd_buf (m r).2) <= n)%nat) by (apply suffix_length in H2; lia).
  destruct (m r) as [[a|e|p|] r'] eqn:E; cbn in *; try done.
  - destruct (Hk a r' Hlen) as (H4 & H5 & H6). split; [done|]. split; [by etrans|congruence].
  - destruct (Hh e r' Hlen) as (H4 & H5 & H6). split; [done|]. split; [by etrans|congruence].
Qed.

Lemma good_le {A} n n' (m : M Reader A) : (n' <= n)%nat -> good n m -> good n' m.
Proof. intros Hle Hm r Hr. apply Hm. lia. Qed.

Lemma good_ReadFull n k : good n (ReadFull k).
Proof.
  intros r _. unfold ReadFull. destruct (k <=? _); cbn.
  - split; [done|]. split; [apply suffix_drop|done].
  - split; [done|]. split; [apply suffix_nil|done].
Qed.

Lemma good_Discard n k : good n (Discard k).
Proof.
  intros r _. unfold Discard. destruct (k <=? _); cbn.
  - split; [done|]. split; [apply suffix_drop|done].
  - split; [done|]. split; [apply suffix_nil|done].
Qed.

Lemma split_lf_app l p q : split_lf l = Some (p, q) -> l = p ++ q.
Proof.
  revert p q. induction l as [|c l IH]; intros p q H; cbn in H; [done|].
  case_bool_decide; [by simplify_eq|]. destruct (split_lf l) as [[p' q']|]; [|done].
  simplify_eq. cbn. f_equal. by apply IH.
Qed.

Lemma good_ReadBytesLF n : good n ReadBytesLF.
Proof.
  intros r _. unfold ReadBytesLF. destruct (split_lf (rd_buf r)) as [[p q]|] eqn:E; cbn.
  - apply split_lf_app in E. split; [done|]. split; [by exists p|done].
  - split; [done|]. split; [apply suffix_nil|done].
Qed.

Lemma drop_last_two (l : bytes) : (2 <= length l)%nat ->
  exists a b, drop (length l - 2) l = [a; b].
Proof.
  intros H. assert (Hl : length (drop (length l - 2) l) = 2%nat) by (rewrite length_drop; lia).
  destruct (drop (length l - 2) l) as [|a [|b [|c m]]]; cbn in Hl; try lia. eauto.
Qed.

Lemma good_readLine n : good n readLine.
Proof.
  unfold readLine, gwrap. apply good_bind.
  { apply good_try; auto using good_ReadBytesLF, good_ret, good_fail. }
  intros line. destruct (Z.ltb_spec (Z.of_nat (length line)) 2); [apply good_fail|].
  destruct (negb _); [|apply good_ret].
  destruct (drop_last_two line) as (a & b & ->); [lia|apply good_fail].
Qed.

Lemma good_parseLength n what line : good n (parseLength what line).
Proof. unfold parseLength. break; auto using good_ret, good_fail. Qed.

Lemma ReadFull_length k r d r' : 0 <= k ->
  ReadFull k r = (Ok d, r') -> Z.of_nat (length d) = k.
Proof.
  unfold ReadFull. intros Hk H. destruct (Z.leb_spec k (Z.of_nat (length (rd_buf r)))); [|done].
  simplify_eq. rewrite length_take. lia.
Qed.

Lemma good_expectCRLF n : good n expectCRLF.
Proof.
  intros r Hr. unfold expectCRLF.
  pose proof (good_ReadFull n 2 r Hr) as (H1 & H2 & H3).
  destruct (ReadFull 2 r) as [[d|e|p|] r'] eqn:E; try done.
  - erewrite gtry_ok by done. case_bool_decide; [done|].
    apply ReadFull_length in E; [|lia]. destruct d as [|a [|b [|c d]]]; cbn in E; try lia. done.
  - by erewrite gtry_err by done.
Qed.

#[export] Hint Resolve good_ret good_fail good_bind good_try good_ReadFull good_Discard
  good_readLine good_parseLength good_expectCRLF : resp.

Lemma good_read_elements n next k : good n next -> good n (read_elements next k).
Proof. intros Hn. induction k as [|k IH]; cbn; auto with resp. Qed.

Lemma good_skip_elements n skip k : good n skip -> good n (skip_elements skip k).
Proof. intros Hn. induction k as [|k IH]; cbn; auto with resp. Qed.

Lemma good_readSimpleString n : good n readSimpleString.
Proof. unfold readSimpleString. auto with resp. Qed.
Lemma good_readError n : good n readError.
Proof. unfold readError. auto with resp. Qed.
Lemma good_readInteger n : good n readInteger.
Proof. unfold readInteger. auto with resp. Qed.
Lemma good_readBulkString n : good n readBulkString.
Proof. unfold readBulkString. apply good_bind; [auto with resp|intros line].
  apply good_bind; [auto with resp|intros k]. repeat break; auto 6 with resp.
Qed.
Lemma good_readArray n next : good n next -> good n (readArray next).
Proof.
  intros Hn. unfold readArray. apply good_bind; [auto with resp|intros line].
  apply good_bind; [auto with resp|intros k]. repeat break; auto 6 using good_read_elements with resp.
Qed.
#[export] Hint Resolve good_read_elements good_skip_elements good_readSimpleString good_readError
  good_readInteger good_readBulkString good_readArray : resp.

(** A computation that starts with [ReadByte] and continues on one byte less. *)
Lemma good_ReadByte_bind {A} n (k : byte -> M Reader A) :
  (forall b, good n (k b)) -> good (S n) (gbind ReadByte k).
Proof.
  intros Hk [[|b l] e] Hr; [done|]. cbn in Hr. rewrite (gbind_ok _ _ _ b (mkReader l e)) by done.
  destruct (Hk b (mkReader l e)) as (H1 & H2 & H3); [cbn; lia|].
  split; [done|]. split; [|done]. etrans; [exact H2|]. by exists [b].
Qed.

Lemma good_ReadByte0 {A} (k : byte -> M Reader A) : good 0 (gbind ReadByte k).
Proof. intros [[|b l] e] Hr; [done|]. cbn in Hr. lia. Qed.

Lemma good_ReadNext_fuel fuel : good fuel (ReadNext_fuel (S fuel)).
Proof.
  induction fuel as [|fuel IH]; [apply good_ReadByte0|].
  cbn [ReadNext_fuel]. apply good_ReadByte_bind. intros b.
  repeat case_bool_decide; auto with resp.
Qed.

Lemma good_Skip_fuel fuel : good fuel (Skip_fuel (S fuel)).
Proof.
  induction fuel as [|fuel IH]; [apply good_ReadByte0|].
  cbn [Skip_fuel]. apply good_ReadByte_bind. intros b.
  repeat match goal with |- good _ (if ?c then _ else _) => destruct c end; auto with resp;
    (apply good_bind; [auto with resp|intros line]; apply good_bind; [auto with resp|intros k];
     repeat break; auto with resp).
Qed.

(** Two computations that agree on streams of at most [n] bytes. *)
Definition agree {A} (n : nat) (m1 m2 : M Reader A) : Prop :=
  forall r, (length (rd_buf r) <= n)%nat -> m1 r = m2 r.

Lemma agree_bind {A B} n (m1 m2 : M Reader A) (k1 k2 : A -> M Reader B) :
  good n m1 -> agree n m1 m2 -> (forall a, agree n (k1 a) (k2 a)) ->
  agree n (gbind m1 k1) (gbind m2 k2).
Proof.
  intros Hg Hm Hk r Hr. unfold gbind. rewrite <- (Hm r Hr).
  destruct (Hg r Hr) as (_ & H2 & _). apply suffix_length in H2.
  destruct (m1 r) as [[a|e|p|] r']; [apply Hk; cbn in *; lia|done..].
Qed.

Lemma agree_refl {A} n (m : M Reader A) : agree n m m.
Proof. by intros r _. Qed.

Lemma agree_read_elements n next1 next2 k :
  good n next1 -> agree n next1 next2 -> agree n (read_elements next1 k) (read_elements next2 k).
Proof.
  intros Hg Ha. induction k as [|k IH]; cbn; [apply agree_refl|].
  apply agree_bind; [done..|]. intros a. apply agree_bind; auto using agree_refl with resp.
Qed.

Lemma agree_ReadByte_bind {A} n (k1 k2 : byte -> M Reader A) :
  (forall b, agree n (k1 b) (k2 b)) -> agree (S n) (gbind ReadByte k1) (gbind ReadByte k2).
Proof.
  intros Hk [[|b l] e] Hr; [done|]. cbn in Hr. unfold gbind. cbn. apply Hk. cbn. lia.
Qed.

Lemma ReadNext_fuel_agree n : forall fuel, (n < fuel)%nat ->
  agree n (ReadNext_fuel (S n)) (ReadNext_fuel fuel).
Proof.
  induction n as [|n IH]; intros [|fuel] Hf; try lia.
  - intros [[|b l] e] Hr; [done|]. cbn in Hr. lia.
  - cbn [ReadNext_fuel]. apply agree_ReadByte_bind. intros b.
    repeat case_bool_decide; auto using agree_refl.
    unfold readArray. apply agree_bind; auto using agree_refl with resp. intros line.
    apply agree_bind; auto using agree_refl with resp. intros k.
    repeat break; auto using agree_refl. apply agree_bind; auto using agree_refl.
    + apply good_read_elements, good_ReadNext_fuel.
    + apply agree_read_elements; [apply good_ReadNext_fuel|apply IH; lia].
Qed.

Lemma ReadNext_fuel_enough fuel r : (length (rd_buf r) < fuel)%nat ->
  ReadNext_fuel fuel r = ReadNext r.
Proof. intros H. symmetry. by apply ReadNext_fuel_agree. Qed.

(** ** Every value the reader returns is well formed *)

Definition yields {A} (m : M Reader A) (P : A -> Prop) : Prop :=
  forall r a r', m r = (Ok a, r') -> P a.

Lemma yields_ret {A} (a : A) (P : A -> Prop) : P a -> yields (gret a) P.
Proof. intros H r b r' E. unfold gret in E. by simplify_eq. Qed.

Lemma yields_fail {A} e (P : A -> Prop) : yields (gfail e) P.
Proof. by intros r b r' E. Qed.

Lemma yields_bind {A B} (m : M Reader A) (k : A -> M Reader B) P Q :
  yields m P -> (forall a, P a -> yields (k a) Q) -> yields (gbind m k) Q.
Proof.
  intros Hm Hk r b r' E. unfold gbind in E.
  destruct (m r) as [[a|?|?|] r1] eqn:E1; try done. eapply Hk, E. by eapply Hm.
Qed.

Lemma yields_any {A} (m : M Reader A) : yields m (fun _ => True).
Proof. done. Qed.

Lemma split_lf_line l p q : split_lf l = Some (p, q) -> exists d, p = d ++ [Byte.x0a] /\ no_lf d.
Proof.
  revert p q. induction l as [|c l IH]; intros p q H; cbn in H; [done|].
  case_bool_decide as Hc.
  - simplify_eq. exists []. by split; [|constructor].
  - destruct (split_lf l) as [[p' q']|] eqn:E; [|done]. simplify_eq.
    destruct (IH p' q eq_refl) as (d & -> & Hd). exists (c :: d). by split; [|constructor].
Qed.

Lemma yields_readLine : yields readLine no_lf.
Proof.
  unfold readLine, gwrap. apply (yields_bind _ _ (fun line => exists d, line = d ++ [Byte.x0a] /\ no_lf d)).
  - intros r a r' E. unfold gtry, ReadBytesLF in E.
    destruct (split_lf (rd_buf r)) as [[p q]|] eqn:Es; cbn in E; [|done].
    unfold gret in E. simplify_eq. by eapply split_lf_line.
  - intros line (d & -> & Hd). repeat break; try apply yields_fail; try done.
    apply yields_ret. rewrite length_app. cbn [length].
    replace (length d + 1 - 2)%nat with (length d - 1)%nat by lia.
    rewrite take_app_le by lia. by apply Forall_take.
Qed.

Lemma parseInt64_range b n : parseInt64 b = Ok n -> in_int64 n.
Proof.
  assert (Hloop : forall l m v, in_int64 m -> parseInt64_loop m l = Ok v -> in_int64 v).
  { induction l as [|c l IH]; intros m v Hm H; cbn in H; [by simplify_eq|].
    repeat match type of H with context [if ?c then _ else _] => destruct c end; try done.
    eapply IH, H. apply wrap64_range. }
  intros H. destruct b as [|c b]; [done|]. cbn in H.
  match type of H with match ?x with _ => _ end = _ => destruct x as [|d l] end; [done|].
  destruct (parseInt64_loop 0 (d :: l)) as [m| | |] eqn:E; simplify_eq.
  case_bool_decide; simplify_eq; [apply wrap64_range|].
  eapply Hloop, E. unfold in_int64, minInt64, maxInt64. lia.
Qed.

Lemma yields_parseLength what line : yields (parseLength what line) in_int64.
Proof.
  unfold parseLength. destruct (parseInt64 line) eqn:E; try apply yields_fail.
  by eapply yields_ret, parseInt64_range.
Qed.

Lemma yields_read_elements next (P : Value -> Prop) k :
  yields next P -> yields (read_elements next k) (fun l => length l = k /\ Forall P l).
Proof.
  intros Hn. induction k as [|k IH]; cbn; [by apply yields_ret|].
  eapply yields_bind; [done|]. intros v Hv. eapply yields_bind; [done|].
  intros l [Hl HF]. apply yields_ret. by cbn; split; [lia|constructor].
Qed.

Lemma yields_ReadFull k : 0 <= k -> yields (ReadFull k) (fun d => Z.of_nat (length d) = k).
Proof. intros Hk r d r' E. by eapply ReadFull_length. Qed.

Lemma yields_ReadNext_fuel fuel : yields (ReadNext_fuel fuel) wf_value.
Proof.
  induction fuel as [|fuel IH]; [done|]. cbn [ReadNext_fuel].
  eapply yields_bind; [apply yields_any|]. intros b _.
  repeat case_bool_decide; try apply yields_fail;
    (eapply yields_bind; [apply yields_readLine|intros line Hline]);
    try (by apply yields_ret; constructor);
    (eapply yields_bind; [apply yields_parseLength|intros k Hk]).
  - apply yields_ret. by constructor.
  - destruct (Z.eqb_spec k (-1)); [apply yields_ret; constructor|].
    destruct (Z.ltb_spec k 0); [apply yields_fail|].
    destruct (Z.ltb_spec maxBulkSize k); [apply yields_fail|]. cbn [orb].
    eapply yields_bind; [by apply yields_ReadFull|]. intros d Hd.
    eapply yields_bind; [apply yields_any|]. intros _ _. apply yields_ret. constructor. cbn in Hd. lia.
  - destruct (Z.eqb_spec k (-1)); [apply yields_ret; constructor|].
    destruct (Z.ltb_spec k 0); [apply yields_fail|].
    destruct (Z.ltb_spec maxArraySize k); [apply yields_fail|]. cbn [orb].
    eapply yields_bind; [apply yields_read_elements, IH|]. intros l [Hl HF].
    apply yields_ret. constructor; [lia|done].
Qed.

(** ** Skip follows ReadNext *)

(** [skips m sk]: whenever [m] succeeds, [sk] succeeds and leaves the same
    stream. *)
Definition skips {A} (m : M Reader A) (sk : M Reader unit) : Prop :=
  forall r a r', m r = (Ok a, r') -> sk r = (Ok tt, r').

Lemma gbind_inv {S A B} (m : M S A) (k : A -> M S B) s b s' :
  gbind m k s = (Ok b, s') -> exists a s1, m s = (Ok a, s1) /\ k a s1 = (Ok b, s').
Proof. unfold gbind. destruct (m s) as [[a|?|?|] s1]; try done. eauto. Qed.

Lemma skips_bind {A B} (m : M Reader A) (k : A -> M Reader B) sk :
  (forall a, skips (k a) (sk a)) -> skips (gbind m k) (gbind m sk).
Proof.
  intros Hk r b r' E. apply gbind_inv in E as (a & r1 & E1 & E2).
  erewrite gbind_ok by done. by eapply Hk.
Qed.

Lemma skips_fail {A} e sk : skips (A:=A) (gfail e) sk.
Proof. by intros r a r' E. Qed.

Lemma skips_ret {A} (a : A) : skips (gret a) (gret tt).
Proof. intros r b r' E. unfold gret in *. by simplify_eq. Qed.

Lemma skips_elements next sk k : skips next sk -> skips (read_elements next k) (skip_elements sk k).
Proof.
  intros H. induction k as [|k IH]; cbn; [apply skips_ret|].
  intros r l r' E. apply gbind_inv in E as (v & r1 & E1 & E2).
  erewrite gbind_ok by (by eapply H). apply gbind_inv in E2 as (l' & r2 & E2 & E3).
  unfold gret in E3. simplify_eq. by eapply IH.
Qed.

(** Reading a payload and its CRLF leaves what [Discard (k + 2)] leaves. *)
Lemma skips_bulk k : 0 <= k ->
  skips (let! data := ReadFull k in expectCRLF ;;! gret (BulkStringValue data)) (Discard (k + 2)).
Proof.
  intros Hk r v r' E. apply gbind_inv in E as (d & r1 & E1 & E2).
  apply gbind_inv in E2 as ([] & r2 & E2 & E3). unfold gret in E3. simplify_eq.
  unfold ReadFull in E1. destruct (Z.leb_spec k (Z.of_nat (length (rd_buf r)))); [|done]. simplify_eq.
  unfold expectCRLF, gtry, ReadFull in E2. cbn [rd_buf rd_err] in E2. rewrite length_drop in E2.
  unfold Discard. replace (k + 2 <=? Z.of_nat (length (rd_buf r))) with
    (2 <=? Z.of_nat (length (rd_buf r) - Z.to_nat k)) by zbool.
  destruct (2 <=? _); [|done]. cbn in E2. rewrite drop_drop in E2.
  replace (Z.to_nat (k + 2)) with (Z.to_nat k + 2)%nat by lia.
  case_bool_decide; [unfold gret in E2; by simplify_eq|].
  destruct (take _ _) as [|a [|b [|c l]]]; done.
Qed.

Lemma skips_ReadNext_fuel fuel : skips (ReadNext_fuel fuel) (Skip_fuel fuel).
Proof.
  induction fuel as [|fuel IH]; [done|]. cbn [ReadNext_fuel Skip_fuel].
  apply skips_bind. intros b. repeat case_bool_decide; cbn [orb]; try apply skips_fail;
    try (apply skips_bind; intros line); try apply skips_ret.
  - intros r v r' E. apply gbind_inv in E as (n & r1 & E1 & E2).
    unfold parseLength in E1. destruct (parseInt64 line); try done. unfold gret in *. by simplify_eq.
  - apply skips_bind. intros k. destruct (k =? -1); [apply skips_ret|].
    destruct (Z.ltb_spec k 0); [apply skips_fail|].
    destruct (maxBulkSize <? k); [apply skips_fail|]. by apply skips_bulk.
  - apply skips_bind. intros k. destruct (k =? -1); [apply skips_ret|].
    destruct ((k <? 0) || (maxArraySize <? k)); [apply skips_fail|].
    intros r v r' E. apply gbind_inv in E as (l & r1 & E1 & E2). unfold gret in E2. simplify_eq.
    by eapply skips_elements.
Qed.

(** ** Streaming a bulk string in chunks *)

(** The cut of a payload into chunks of at most [chunkSize] bytes. *)
Fixpoint chunks_of (fuel : nat) (d : bytes) : list bytes :=
  match fuel, d with
  | O, _ | _, [] => []
  | S fuel', _ => take (Z.to_nat chunkSize) d :: chunks_of fuel' (drop (Z.to_nat chunkSize) d)
  end.

Definition payload_chunks (d : bytes) : list bytes :=
  chunks_of (Z.to_nat (Z.of_nat (length d) / chunkSize + 1)) d.

Lemma chunks_of_concat fuel d :
  Z.of_nat (length d) <= Z.of_nat fuel * chunkSize -> concat (chunks_of fuel d) = d.
Proof.
  revert d. induction fuel as [|fuel IH]; intros d Hd.
  - destruct d; [done|cbn in Hd; lia].
  - destruct d as [|b d]; [done|]. cbn [chunks_of concat]. rewrite IH; [by rewrite take_drop|].
    rewrite length_drop. unfold chunkSize in *. cbn [length] in *. lia.
Qed.

Lemma chunks_of_bounds fuel d :
  Forall (fun c => 0 < Z.of_nat (length c) <= chunkSize) (chunks_of fuel d).
Proof.
  revert d. induction fuel as [|fuel IH]; intros d; [by destruct d|].
  destruct d as [|b d]; [constructor|]. cbn [chunks_of]. constructor; [|apply IH].
  rewrite length_take. unfold chunkSize. cbn [length]. lia.
Qed.

Lemma payload_fuel_enough (d : bytes) :
  Z.of_nat (length d) <=
  Z.of_nat (Z.to_nat (Z.of_nat (length d) / chunkSize + 1)) * chunkSize.
Proof.
  unfold chunkSize. pose proof (Z.div_mod (Z.of_nat (length d)) 8192 ltac:(lia)).
  pose proof (Z.mod_pos_bound (Z.of_nat (length d)) 8192 ltac:(lia)).
  pose proof (Z.div_pos (Z.of_nat (length d)) 8192 ltac:(lia) ltac:(lia)). lia.
Qed.

Lemma payload_chunks_concat d : concat (payload_chunks d) = d.
Proof. apply chunks_of_concat, payload_fuel_enough. Qed.

Section StreamingProofs.
Context {C : Type} (fn : option bytes -> M C unit) (step : C -> bytes -> C).
Hypothesis fn_ok : forall b c, fn (Some b) c = (Ok tt, step c b).

Lemma on_reader_ok {A} (m : M Reader A) r a r' (c : C) :
  m r = (Ok a, r') -> on_reader m (r, c) = (Ok a, (r', c)).
Proof. intros H. unfold on_reader. by rewrite H. Qed.

Lemma read_chunks_ok fuel d rest e c :
  Z.of_nat (length d) <= Z.of_nat fuel * chunkSize ->
  read_chunks fn fuel (Z.of_nat (length d)) (mkReader (d ++ rest) e, c) =
  (Ok tt, (mkReader rest e, foldl step c (chunks_of fuel d))).
Proof.
  revert d c. induction fuel as [|fuel IH]; intros d c Hd.
  - destruct d; [done|cbn in Hd; lia].
  - destruct d as [|b d']; [done|]. remember (b :: d') as d.
    assert (Hlen : (0 < length d)%nat) by (subst; cbn; lia).
    cbn [read_chunks]. destruct (Z.leb_spec (Z.of_nat (length d)) 0); [lia|].
    set (toRead := if _ <? _ then _ else _).
    assert (HtoRead : toRead = Z.of_nat (length (take (Z.to_nat chunkSize) d))).
    { subst toRead. rewrite length_take. unfold chunkSize.
      destruct (Z.ltb_spec (Z.of_nat (length d)) 8192); lia. }
    rewrite HtoRead. rewrite <- (take_drop (Z.to_nat chunkSize) d) at 2. rewrite <- app_assoc.
    unfold gbind, on_reader. rewrite ReadFull_app. unfold on_callback. rewrite fn_ok.
    replace (Z.of_nat (length d) - _) with (Z.of_nat (length (drop (Z.to_nat chunkSize) d)))
      by (rewrite length_take, length_drop; lia).
    rewrite IH by (rewrite length_drop; unfold chunkSize in *; lia).
    rewrite Heqd. done.
Qed.

Lemma read_bulk_stream_ok finish d rest e c :
  Z.of_nat (length d) <= maxBulkSize ->
  read_bulk_stream fn finish
    (mkReader (bs "$" ++ FormatInt (Z.of_nat (length d)) ++ CRLF ++ d ++ rest) e, c) =
  finish (mkReader rest e, foldl step c (payload_chunks d)).
Proof.
  intros Hd. unfold read_bulk_stream.
  erewrite gbind_ok by (apply on_reader_ok; reflexivity).
  change (negb _) with false. cbv iota.
  erewrite gbind_ok by (apply on_reader_ok, readLine_FormatInt).
  erewrite gbind_ok by (apply on_reader_ok, parseLength_FormatInt, size_in_int64; lia).
  replace (Z.of_nat (length d) =? -1) with false by zbool.
  replace ((_ <? 0) || (maxBulkSize <? _)) with false by zbool.
  by erewrite gbind_ok by apply read_chunks_ok, payload_fuel_enough.
Qed.

End StreamingProofs.

(** ** Streaming returns on every input *)

Section StreamingTotal.
Context {C : Type} (fn : option bytes -> M C unit).
Hypothesis fn_returns : forall b c, returns (fn b c).1.

Definition ends {A} (m : M (Reader * C) A) : Prop := forall s, returns (m s).1.

Lemma ends_bind {A B} (m : M (Reader * C) A) (k : A -> M (Reader * C) B) :
  ends m -> (forall a, ends (k a)) -> ends (gbind m k).
Proof.
  intros Hm Hk s. unfold gbind. specialize (Hm s). destruct (m s) as [[a|e|p|] s']; try done. apply Hk.
Qed.

Lemma ends_on_reader {A} (m : M Reader A) : (forall n, good n m) -> ends (on_reader m).
Proof.
  intros Hm [r c]. destruct (Hm (length (rd_buf r)) r) as (Hr & _); [done|].
  unfold on_reader. by destruct (m r).
Qed.

Lemma ends_on_callback b : ends (on_callback (fn b)).
Proof. intros [r c]. unfold on_callback. specialize (fn_returns b c). by destruct (fn b c). Qed.

Lemma ends_read_chunks fuel : forall remaining, remaining <= Z.of_nat fuel * chunkSize ->
  ends (read_chunks fn fuel remaining).
Proof.
  induction fuel as [|fuel IH]; intros n Hn [r c]; cbn [read_chunks];
    (destruct (Z.leb_spec n 0); [done|]); [lia|].
  set (toRead := if n <? chunkSize then n else chunkSize).
  assert (Ht : 0 <= toRead /\ (toRead = n \/ toRead = chunkSize)).
  { subst toRead. unfold chunkSize. destruct (Z.ltb_spec n 8192); lia. }
  unfold gbind at 1, on_reader. destruct (good_ReadFull (length (rd_buf r)) toRead r) as (Hr & _); [done|].
  destruct (ReadFull toRead r) as [[d|e|p|] r'] eqn:E; try done.
  apply ReadFull_length in E; [|lia]. apply ends_bind; [apply ends_on_callback|]. intros _. apply IH.
  rewrite E. unfold chunkSize in *. lia.
Qed.

Lemma ends_read_bulk_stream finish : ends finish -> ends (read_bulk_stream fn finish).
Proof.
  intros Hf. unfold read_bulk_stream. apply ends_bind.
  { intros [[[|b l] e] c]; done. }
  intros b. destruct (negb _); [done|]. apply ends_bind; [apply ends_on_reader, good_readLine|].
  intros line. apply ends_bind; [apply ends_on_reader; intros; apply good_parseLength|].
  intros n. destruct (n =? -1); [apply ends_on_callback|].
  destruct ((n <? 0) || (maxBulkSize <? n)) eqn:Hb; [done|].
  apply ends_bind; [|done]. apply ends_read_chunks.
  pose proof (Z.div_mod n chunkSize ltac:(done)). pose proof (Z.mod_pos_bound n chunkSize ltac:(done)).
  pose proof (Z.div_pos n chunkSize ltac:(lia) ltac:(done)). unfold chunkSize in *. lia.
Qed.

End StreamingTotal.
