(* ===== verification/RespSpec.v ===== *)
(** * What the RESP codec guarantees *)

From Stdlib Require Import ZArith Lia String.
From stdpp Require Import base list list_numbers.
From S2P Require Import Prelude GoLib RespTypes RespWriter RespReader RespProofs.

(** Values used by the witnesses. *)
Definition sample_value : Value :=
  ArrayValue [BulkStringValue (bs "SET"); IntegerValue (-42);
              ArrayValue [SimpleStringValue (bs "OK"); NullBulkStringValue]; NullArrayValue].

#[global] Instance sample_unicode : GoUnicode :=
  {| unicode_ToUpper := fun s => s; unicode_ToLower := fun s => s;
     unicode_Fields := fun s => [s]; unicode_TrimSpace := fun s => s |}.

Lemma sample_value_wf : wf_value sample_value.
Proof.
  unfold sample_value. repeat first
    [ apply wf_array | apply wf_bulk | apply wf_simple | apply wf_integer | apply wf_null_bulk
    | apply wf_null_array | apply Forall_cons; split | apply Forall_nil ];
    unfold in_int64, minInt64, maxInt64, maxArraySize, maxBulkSize, no_lf; cbn; try lia;
    repeat constructor; done.
Defined.

(** C19: writing any well-formed value and flushing sends bytes from which the
    reader recovers exactly that value, leaving whatever follows in the
    stream untouched. *)
Theorem resp_round_trip v rest e : wf_value v ->
  exists w, (WriteValue v ;;! Flush) NewWriter = (Ok tt, w) /\ w_buf w = [] /\
    ReadNext (mkReader (w_sent w ++ rest) e) = (Ok v, mkReader rest e).
Proof.
  intros Hv. exists (mkWriter [] (encode v) None).
  split; [|split; [done|by apply ReadNext_encode]].
  by erewrite gbind_ok by apply WriteValue_encode, wf_value_supported, Hv.
Qed.

Lemma resp_round_trip_witness :
  wf_value sample_value /\
  exists w, (WriteValue sample_value ;;! Flush) NewWriter = (Ok tt, w) /\ w_buf w = [] /\
    ReadNext (mkReader (w_sent w ++ bs "+next") EOF) = (Ok sample_value, mkReader (bs "+next") EOF).
Proof. split; [exact sample_value_wf|]. apply resp_round_trip. exact sample_value_wf. Defined.

(** C26: a command sent with [WriteCommand] is read back by [ReadNext] and
    decoded by [ParseCommand] into the upper-cased name and the same
    arguments, whatever bytes the arguments hold. *)
Theorem command_round_trip {U : GoUnicode} name args rest e :
  Z.of_nat (length (name :: args)) <= maxArraySize ->
  Forall (fun d => Z.of_nat (length d) <= maxBulkSize) (name :: args) ->
  exists w v, (WriteCommand name args ;;! Flush) NewWriter = (Ok tt, w) /\
    ReadNext (mkReader (w_sent w ++ rest) e) = (Ok v, mkReader rest e) /\
    ParseCommand v = Ok (mkCommand (ToUpper name) args).
Proof.
  intros Hlen Hargs. set (v := ArrayValue (BulkStringValue <$> (name :: args))).
  exists (mkWriter [] (encode v) None), v. split; [|split].
  - by erewrite gbind_ok by apply WriteCommand_encode.
  - apply ReadNext_encode. apply wf_array; [by rewrite length_fmap|].
    apply Forall_fmap. eapply Forall_impl; [exact Hargs|]. intros d Hd. by apply wf_bulk.
  - by apply ParseCommand_bulk.
Qed.

Lemma command_round_trip_witness :
  exists w v, (WriteCommand (bs "set") [bs "k"; bs "a b"] ;;! Flush) NewWriter = (Ok tt, w) /\
    ReadNext (mkReader (w_sent w ++ bs "$") EOF) = (Ok v, mkReader (bs "$") EOF) /\
    ParseCommand v = Ok (mkCommand (ToUpper (bs "set")) [bs "k"; bs "a b"]).
Proof.
  apply command_round_trip; [vm_compute; discriminate|].
  repeat constructor; vm_compute; discriminate.
Defined.

(** C29: the recursive reader terminates on every stream: it returns a value or
    an error, never exhausts the nesting bound of the model, consumes a prefix
    of the stream, and more fuel gives the same result. *)
Theorem ReadNext_total r :
  returns (ReadNext r).1 /\ rd_buf (ReadNext r).2 `suffix_of` rd_buf r /\
  rd_err (ReadNext r).2 = rd_err r /\
  (forall fuel, (length (rd_buf r) < fuel)%nat -> ReadNext_fuel fuel r = ReadNext r).
Proof.
  destruct (good_ReadNext_fuel (length (rd_buf r)) r) as (H1 & H2 & H3); [done|].
  repeat split; [done..|]. intros fuel Hf. by apply ReadNext_fuel_enough.
Qed.

(** C40: every value the reader accepts is well formed: integers fit in 64
    bits, bulk strings and arrays are within [maxBulkSize] and [maxArraySize],
    lines hold no line feed, and each type uses only its own fields. *)
Theorem ReadNext_wf r v r' : ReadNext r = (Ok v, r') -> wf_value v.
Proof. apply yields_ReadNext_fuel. Qed.

Lemma ReadNext_wf_witness : wf_value (ArrayValue [BulkStringValue (bs "PING")]).
Proof.
  apply (ReadNext_wf (mkReader (bs "*1" ++ CRLF ++ bs "$4" ++ CRLF ++ bs "PING" ++ CRLF) EOF)
           _ (mkReader [] EOF)).
  vm_compute. reflexivity.
Defined.

(** [Skip] moves the stream exactly past the value that [ReadNext] would
    have returned. *)
Theorem Skip_follows_ReadNext r v r' : ReadNext r = (Ok v, r') -> Skip r = (Ok tt, r').
Proof. apply skips_ReadNext_fuel. Qed.

Lemma Skip_follows_ReadNext_witness :
  Skip (mkReader (bs "$2" ++ CRLF ++ bs "hi" ++ CRLF ++ bs ":1") EOF) =
  (Ok tt, mkReader (bs ":1") EOF).
Proof. apply (Skip_follows_ReadNext _ (BulkStringValue (bs "hi"))). vm_compute. reflexivity. Defined.

(** On every string that [strconv.ParseInt] accepts as a 64-bit decimal,
    including both ends of the range, [parseInt64] returns the same number. *)
Theorem parseInt64_strconv s v : ParseInt s = Some v -> parseInt64 s = Ok v.
Proof. apply parseInt64_ParseInt. Qed.

Lemma parseInt64_strconv_witness : parseInt64 (bs "-9223372036854775808") = Ok (- 2 ^ 63).
Proof. apply parseInt64_strconv. vm_compute. reflexivity. Defined.

(** The overflow test of [parseInt64] lets two magnitudes past the 64-bit
    range through: they are out of range for [strconv.ParseInt] but
    [parseInt64] returns them wrapped to negative numbers. *)
Theorem parseInt64_overflow_accepted v : v = 2 ^ 63 \/ v = 2 ^ 63 + 1 ->
  ParseInt (FormatInt v) = None /\ parseInt64 (FormatInt v) = Ok (v - 2 ^ 64).
Proof. by intros [-> | ->]; vm_compute. Qed.

Lemma parseInt64_overflow_accepted_witness :
  ParseInt (FormatInt (2 ^ 63)) = None /\ parseInt64 (FormatInt (2 ^ 63)) = Ok (2 ^ 63 - 2 ^ 64).
Proof. apply parseInt64_overflow_accepted. left. reflexivity. Defined.

(** Streaming the RDB payload of a replication stream hands the callback
    chunks of 1 to 8192 bytes whose concatenation is the payload, and stops
    right after the last payload byte (no CRLF is expected). *)
Theorem replication_payload_streamed {C} (fn : option bytes -> M C unit) step d rest e c :
  (forall b c, fn (Some b) c = (Ok tt, step c b)) ->
  Z.of_nat (length d) <= maxBulkSize ->
  exists chunks, concat chunks = d /\
    Forall (fun b => 0 < Z.of_nat (length b) <= chunkSize) chunks /\
    ReadBulkStringForReplication fn
      (mkReader (bs "$" ++ FormatInt (Z.of_nat (length d)) ++ CRLF ++ d ++ rest) e, c) =
    (Ok tt, (mkReader rest e, foldl step c chunks)).
Proof.
  intros Hfn Hd. exists (payload_chunks d).
  split; [apply payload_chunks_concat|]. split; [apply chunks_of_bounds|].
  unfold ReadBulkStringForReplication. by erewrite read_bulk_stream_ok.
Qed.

Lemma replication_payload_streamed_witness :
  exists chunks, concat chunks = bs "REDIS" /\
    Forall (fun b => 0 < Z.of_nat (length b) <= chunkSize) chunks /\
    ReadBulkStringForReplication (fun o c => (Ok tt, c ++ default [] o))
      (mkReader (bs "$" ++ FormatInt 5 ++ CRLF ++ bs "REDIS" ++ bs "*1") EOF, []) =
    (Ok tt, (mkReader (bs "*1") EOF, foldl (fun c b => c ++ b) [] chunks)).
Proof.
  apply (replication_payload_streamed (fun o c => (Ok tt, c ++ default [] o)) (fun c b => c ++ b)
           (bs "REDIS")); [reflexivity|vm_compute; discriminate].
Defined.
