(* ===== verification/StorageTypes.v ===== *)
(** * Stored values and storage configuration (storage/value.go, storage/storage.go)

    Points in time are nanoseconds since the Unix epoch and durations are
    nanoseconds, both as [Z]. A [float64] is Stdlib's executable IEEE-754
    binary64 ([spec_float] with precision 53 and exponent bound 1024). *)

From Stdlib Require Import ZArith Lia String.
From Stdlib Require Floats.SpecFloat.
From stdpp Require Import base list list_numbers gmap.
From S2P Require Import Prelude.

(** ** Floating point *)

Abbreviation float64 := SpecFloat.spec_float.

(** [float64(n)] for an integer, and the quotient of two floats. *)
Definition float_of_int (n : Z) : float64 := SpecFloat.binary_normalize 53 1024 n 0 false.
Definition float_div (a b : float64) : float64 := SpecFloat.SFdiv 53 1024 a b.
Definition float_add (a b : float64) : float64 := SpecFloat.SFadd 53 1024 a b.
Definition float_mul (a b : float64) : float64 := SpecFloat.SFmul 53 1024 a b.
Definition float_ltb (a b : float64) : bool := SpecFloat.SFltb a b.

(** The float nearest to the decimal fraction [n / d], as a source literal
    denotes it. *)
Definition float_lit (n d : Z) : float64 := float_div (float_of_int n) (float_of_int d).

(** [int64(f)] for a finite float: truncation toward zero. *)
Definition int_of_float (f : float64) : Z :=
  match f with
  | SpecFloat.S754_finite s m e =>
      let a := if 0 <=? e then Z.pos m * 2 ^ e else Z.pos m / 2 ^ (- e) in
      if s then - a else a
  | _ => 0
  end.

(** ** Value types *)

Definition ValueTypeString : Z := 0.
Definition ValueTypeList : Z := 1.
Definition ValueTypeSet : Z := 2.
Definition ValueTypeZSet : Z := 3.
Definition ValueTypeHash : Z := 4.
Definition ValueTypeStream : Z := 5.

(** [func (vt ValueType) String() string] *)
Definition ValueType_String (vt : Z) : bytes :=
  if vt =? ValueTypeString then bs "string"
  else if vt =? ValueTypeList then bs "list"
  else if vt =? ValueTypeSet then bs "set"
  else if vt =? ValueTypeZSet then bs "zset"
  else if vt =? ValueTypeHash then bs "hash"
  else if vt =? ValueTypeStream then bs "stream"
  else bs "none".

(** ** Values *)

(** [type ZSetMember struct] and [type StreamEntry struct] *)
Record ZSetMember : Type := mkZSetMember { Member : bytes; Score : float64 }.
Record StreamEntry : Type := mkStreamEntry { EntryID : bytes; EntryFields : gmap bytes bytes }.

(** The dynamic types the [Data interface{}] field can hold. *)
Inductive StoredData : Type :=
| StringValue (Data : bytes)
| ListValue (Elements : list bytes)
| SetValue (Members : gset bytes)
| ZSetValue (ZMembers : gmap bytes float64) (Scores : list ZSetMember)
| HashValue (Fields : gmap bytes bytes)
| StreamValue (Entries : list StreamEntry) (LastID : bytes).

(** [type Value struct] of package storage. *)
Record StoredValue : Type := mkStored {
  SType : Z;
  SData : StoredData;
  Expiry : option Z;
  Version : Z
}.

(** [func (v *Value) IsExpired() bool], at time [now]. *)
Definition IsExpired (now : Z) (v : StoredValue) : bool :=
  match Expiry v with
  | Some t => t <? now
  | None => false
  end.

(** The zero [time.Time], the first of January of year 1, as nanoseconds since the
    Unix epoch. *)
Definition zero_time : Z := -62135596800 * 1000000000.

(** [time.Until(t)] at time [now]: a duration saturates at the int64 range. *)
Definition Until (now t : Z) : Z := Z.max minInt64 (Z.min maxInt64 (t - now)).

Definition Second : Z := 1000000000.
Definition Millisecond : Z := 1000000.

(** ** Cleanup configuration *)

(** [type CleanupConfig struct] *)
Record CleanupConfig : Type := mkCleanupConfig {
  SampleSize : Z;
  MaxRounds : Z;
  BatchSize : Z;
  ExpiredThreshold : float64
}.

Definition CleanupConfigDefault := mkCleanupConfig 20 4 10 (float_lit 25 100).
Definition CleanupConfigSmallDataset := mkCleanupConfig 10 2 5 (float_lit 5 10).
Definition CleanupConfigMediumDataset := mkCleanupConfig 25 5 12 (float_lit 3 10).
Definition CleanupConfigLargeDataset := mkCleanupConfig 50 8 25 (float_lit 15 100).
Definition CleanupConfigBestPerformance := mkCleanupConfig 100 10 50 (float_lit 1 10).
Definition CleanupConfigLowLatency := mkCleanupConfig 15 3 8 (float_lit 4 10).

(** ** Observers *)

(** The calls a [StorageObserver] receives. *)
Inductive Event : Type :=
| OnKeySet (key value : bytes)
| OnKeyDeleted (key : bytes)
| OnKeyExpired (key : bytes)
| OnKeyAccessed (key : bytes).

#[global] Instance Event_eq_dec : EqDecision Event.
Proof. solve_decision. Defined.

Lemma IsExpired_mono now now' v : now <= now' -> IsExpired now v = true -> IsExpired now' v = true.
Proof. unfold IsExpired. destruct (Expiry v); [lia|done]. Qed.
