(* ===== verification/Filepath.v ===== *)
(** * UTF-8 decoding and path/filepath.Match

    The default matching strategy of the storage calls [filepath.Match] of
    Go's standard library (on a Unix system, separator '/'). This file models
    that function: the chunk scanner, the chunk matcher with its character
    classes, and the backtracking loop over '*'. [None] is [ErrBadPattern]. *)

From Stdlib Require Import ZArith Lia String.
From stdpp Require Import base list list_numbers.
From S2P Require Import Prelude GoLib.

(** ** unicode/utf8 *)

Definition RuneError : Z := 65533.

Definition is_cont (lo hi : Z) (b : byte) : bool := (lo <=? bz b) && (bz b <=? hi).

(** The range of the second byte allowed after a leading byte. *)
Definition second_range (b0 : Z) : Z * Z :=
  if b0 =? 224 then (160, 191) else if b0 =? 237 then (128, 159)
  else if b0 =? 240 then (144, 191) else if b0 =? 244 then (128, 143) else (128, 191).

(** [utf8.DecodeRuneInString]: the rune and its width in bytes. *)
Definition DecodeRune (s : bytes) : Z * nat :=
  match s with
  | [] => (RuneError, 0%nat)
  | c0 :: s1 =>
      let b0 := bz c0 in
      let '(lo, hi) := second_range b0 in
      if b0 <? 128 then (b0, 1%nat)
      else if (194 <=? b0) && (b0 <=? 223) then
        match s1 with
        | c1 :: _ => if is_cont lo hi c1 then ((b0 - 192) * 64 + (bz c1 - 128), 2%nat)
                     else (RuneError, 1%nat)
        | _ => (RuneError, 1%nat)
        end
      else if (224 <=? b0) && (b0 <=? 239) then
        match s1 with
        | c1 :: c2 :: _ =>
            if is_cont lo hi c1 && is_cont 128 191 c2 then
              ((b0 - 224) * 4096 + (bz c1 - 128) * 64 + (bz c2 - 128), 3%nat)
            else (RuneError, 1%nat)
        | _ => (RuneError, 1%nat)
        end
      else if (240 <=? b0) && (b0 <=? 244) then
        match s1 with
        | c1 :: c2 :: c3 :: _ =>
            if is_cont lo hi c1 && is_cont 128 191 c2 && is_cont 128 191 c3 then
              ((b0 - 240) * 262144 + (bz c1 - 128) * 4096 + (bz c2 - 128) * 64 + (bz c3 - 128),
               4%nat)
            else (RuneError, 1%nat)
        | _ => (RuneError, 1%nat)
        end
      else (RuneError, 1%nat)
  end.

(** The runes a [for _, r := range s] loop visits. *)
Fixpoint runes_fuel (fuel : nat) (s : bytes) : list Z :=
  match fuel, s with
  | O, _ | _, [] => []
  | S fuel', _ => let '(r, n) := DecodeRune s in r :: runes_fuel fuel' (drop n s)
  end.
Definition runes (s : bytes) : list Z := runes_fuel (length s) s.

(** [WriteRune]: the UTF-8 encoding of a rune. *)
Definition EncodeRune (r : Z) : bytes :=
  if r <? 128 then [zb r]
  else if r <? 2048 then [zb (192 + r / 64); zb (128 + r mod 64)]
  else if r <? 65536 then [zb (224 + r / 4096); zb (128 + r / 64 mod 64); zb (128 + r mod 64)]
  else [zb (240 + r / 262144); zb (128 + r / 4096 mod 64); zb (128 + r / 64 mod 64);
        zb (128 + r mod 64)].

(** ** filepath.Match *)

Definition Separator : byte := "/"%byte.

Fixpoint trim_stars (p : bytes) : bytes :=
  match p with c :: p' => if bool_decide (c = "*"%byte) then trim_stars p' else p | [] => [] end.

(** The scan for the end of the chunk: how many bytes belong to it. *)
Fixpoint scan_len (inrange : bool) (p : bytes) : nat :=
  match p with
  | [] => 0
  | c :: p' =>
      if bool_decide (c = "\"%byte) then
        match p' with [] => 1 | _ :: p'' => 2 + scan_len inrange p'' end
      else if bool_decide (c = "["%byte) then S (scan_len true p')
      else if bool_decide (c = "]"%byte) then S (scan_len false p')
      else if bool_decide (c = "*"%byte) && negb inrange then 0
      else S (scan_len inrange p')
  end.

(** [scanChunk]: whether the pattern starts with '*', the next chunk, the rest. *)
Definition scanChunk (p : bytes) : bool * bytes * bytes :=
  let star := match p with c :: _ => bool_decide (c = "*"%byte) | [] => false end in
  let p' := trim_stars p in
  let i := scan_len false p' in
  (star, take i p', drop i p').

(** [getEsc]: one possibly escaped character of a class. *)
Definition getEsc (chunk : bytes) : option (Z * bytes) :=
  match chunk with
  | [] => None
  | c :: chunk' =>
      if bool_decide (c = "-"%byte) || bool_decide (c = "]"%byte) then None
      else
        let chunk1 := if bool_decide (c = "\"%byte) then chunk' else chunk in
        match chunk1 with
        | [] => None
        | _ =>
            let '(r, n) := DecodeRune chunk1 in
            if (r =? RuneError) && (n =? 1)%nat then None
            else match drop n chunk1 with [] => None | rest => Some (r, rest) end
        end
  end.

(** The loop over the ranges of a class; [r] is the rune to test. *)
Fixpoint class_ranges (fuel : nat) (r : Z) (matched : bool) (nrange : nat) (chunk : bytes)
  : option (bool * bytes) :=
  match fuel with
  | O => None
  | S fuel' =>
      match chunk with
      | c :: chunk' =>
          if bool_decide (c = "]"%byte) && (0 <? nrange)%nat then Some (matched, chunk')
          else
            match getEsc chunk with
            | None => None
            | Some (lo, chunk1) =>
                match chunk1 with
                | d :: chunk2 =>
                    if bool_decide (d = "-"%byte) then
                      match getEsc chunk2 with
                      | None => None
                      | Some (hi, chunk3) =>
                          class_ranges fuel' r (matched || ((lo <=? r) && (r <=? hi))) (S nrange) chunk3
                      end
                    else class_ranges fuel' r (matched || ((lo <=? r) && (r <=? lo))) (S nrange) chunk1
                | [] => None
                end
            end
      | [] => None
      end
  end.

(** [matchChunk]: matches the chunk against a prefix of [s]; the result is
    [Some (Some rest)] on a match, [Some None] on a failed match of a
    well-formed chunk. After a failure the loop goes on checking the chunk's
    syntax without reading [s]. *)
Fixpoint matchChunk_fuel (fuel : nat) (failed : bool) (chunk s : bytes) : option (option bytes) :=
  match fuel with
  | O => None
  | S fuel' =>
      match chunk with
      | [] => Some (if failed then None else Some s)
      | c :: chunk' =>
          let failed := failed || match s with [] => true | _ => false end in
          if bool_decide (c = "["%byte) then
            let '(r, n) := if failed then (0, 0%nat) else DecodeRune s in
            let s' := if failed then s else drop n s in
            let '(negated, body) :=
              match chunk' with
              | d :: chunk'' => if bool_decide (d = "^"%byte) then (true, chunk'') else (false, chunk')
              | [] => (false, chunk')
              end in
            match class_ranges (S (length body)) r false 0 body with
            | None => None
            | Some (matched, rest) =>
                matchChunk_fuel fuel' (failed || Bool.eqb matched negated) rest s'
            end
          else if bool_decide (c = "?"%byte) then
            if failed then matchChunk_fuel fuel' failed chunk' s
            else
              let '(_, n) := DecodeRune s in
              matchChunk_fuel fuel' (bool_decide (head s = Some Separator)) chunk' (drop n s)
          else
            let lit := if bool_decide (c = "\"%byte) then chunk' else chunk in
            match lit with
            | [] => None
            | d :: rest =>
                if failed then matchChunk_fuel fuel' failed rest s
                else matchChunk_fuel fuel' (bool_decide (head s <> Some d)) rest (tail s)
            end
      end
  end.

Definition matchChunk (chunk s : bytes) : option (option bytes) :=
  matchChunk_fuel (S (length chunk)) false chunk s.

(** The final check that the rest of the pattern is well formed. *)
Fixpoint check_rest (fuel : nat) (p : bytes) : option bool :=
  match fuel, p with
  | O, _ => None
  | _, [] => Some false
  | S fuel', _ =>
      let '(_, chunk, rest) := scanChunk p in
      match matchChunk chunk [] with
      | None => None
      | Some _ => check_rest fuel' rest
      end
  end.

(** Trying a chunk after '*' at every later position up to a separator:
    [Some (Some t)] is the accepted rest of the name. *)
Fixpoint star_search (chunk rest name : bytes) : option (option bytes) :=
  match name with
  | [] => Some None
  | c :: name' =>
      if bool_decide (c = Separator) then Some None
      else
        match matchChunk chunk name' with
        | None => None
        | Some (Some t) =>
            if bool_decide (rest = []) && negb (bool_decide (t = [])) then star_search chunk rest name'
            else Some (Some t)
        | Some None => star_search chunk rest name'
        end
  end.

Fixpoint Match_fuel (fuel : nat) (pattern name : bytes) : option bool :=
  match fuel with
  | O => None
  | S fuel' =>
      match pattern with
      | [] => Some (bool_decide (name = []))
      | _ =>
          let '(star, chunk, rest) := scanChunk pattern in
          if star && bool_decide (chunk = []) then Some (negb (Contains name [Separator]))
          else
            match matchChunk chunk name with
            | Some (Some t) =>
                if bool_decide (t = []) || negb (bool_decide (rest = [])) then
                  Match_fuel fuel' rest t
                else if star then
                  match star_search chunk rest name with
                  | None => None
                  | Some (Some t') => Match_fuel fuel' rest t'
                  | Some None => check_rest (S (length rest)) rest
                  end
                else check_rest (S (length rest)) rest
            | None => None
            | Some None =>
                if star then
                  match star_search chunk rest name with
                  | None => None
                  | Some (Some t') => Match_fuel fuel' rest t'
                  | Some None => check_rest (S (length rest)) rest
                  end
                else check_rest (S (length rest)) rest
            end
      end
  end.

(** [filepath.Match(pattern, name)]; every iteration consumes a byte of the
    pattern. *)
Definition filepath_Match (pattern name : bytes) : option bool :=
  Match_fuel (S (length pattern)) pattern name.

Definition match_test (p n : string) : option bool := filepath_Match (bs p) (bs n).
Example filepath_Match_cases :
  (match_test "a*c" "abbc", match_test "a*c" "a/c", match_test "h?llo" "hello",
   match_test "h[^e]llo" "hallo", match_test "h[a-b]llo" "hbllo", match_test "*:x" "k:x",
   match_test "[" "a", match_test "a*b*c" "axxbyyc", match_test "a\*b" "a*b") =
  (Some true, Some false, Some true, Some true, Some true, Some true, None, Some true, Some true).
Proof. vm_compute. reflexivity. Qed.
