(* ===== verification/Matching.v ===== *)
(** * Key pattern matching (storage/matching.go)

    The four strategies and their dispatch. The global configuration is the
    strategy it holds; [matchPattern] takes the one in force. *)

From Stdlib Require Import ZArith Lia String.
From stdpp Require Import base list list_numbers gmap.
From S2P Require Import Prelude GoLib Filepath.

(** [type MatchingStrategy int] is an integer: any other number is a legal
    value and falls back to the simple strategy. *)
Definition StrategySimple : Z := 0.
Definition StrategyRegex : Z := 1.
Definition StrategyAutomaton : Z := 2.
Definition StrategyGlob : Z := 3.

(** The initial value of [globalMatchingConfig.strategy], and the two functions
    that access it under its lock. *)
Definition defaultStrategy : Z := StrategyGlob.
Definition SetMatchingStrategy (strategy : Z) : M Z unit := gput strategy.
Definition GetMatchingStrategy : M Z Z := gget.

Abbreviation star := "*"%byte (only parsing).
Abbreviation quest := "?"%byte (only parsing).

(** ** Simple strategy *)

Definition matchPatternSimple (key pattern : bytes) : bool :=
  if bool_decide (pattern = []) then bool_decide (key = [])
  else if bool_decide (pattern = [star]) then negb (bool_decide (key = []))
  else if bool_decide (key = pattern) then true
  else if bool_decide (last pattern = Some star) then
    HasPrefix key (take (length pattern - 1) pattern)
  else if bool_decide (head pattern = Some star) then HasSuffix key (drop 1 pattern)
  else
    match IndexByte pattern star with
    | Some starIndex =>
        if bool_decide (LastIndexByte pattern star <> Some starIndex) then false
        else HasPrefix key (take starIndex pattern) && HasSuffix key (drop (S starIndex) pattern)
    | None => false
    end.

(** ** Regex strategy *)

Definition regex_special (r : Z) : bool :=
  existsb (fun c => bz c =? r) (bs ".^$+()[]{}|\").

Definition globToRegex (pattern : bytes) : bytes :=
  concat (map (fun r =>
    if r =? bz star then bs ".*"
    else if r =? bz quest then bs "."
    else if regex_special r then bs "\" ++ EncodeRune r
    else EncodeRune r) (runes pattern)).

(** The fragment of Go's [regexp] syntax that [globToRegex] produces: literal
    runes (possibly escaped), '.', and '.*', anchored at both ends. *)
Inductive RegexTok : Type := RLit (r : Z) | RAny | RAnyStar.

Fixpoint regex_tokens (fuel : nat) (l : list Z) : option (list RegexTok) :=
  match fuel with
  | O => None
  | S fuel' =>
      match l with
      | [] => None
      | [e] => if e =? 36 then Some [] else None
      | c :: d :: l' =>
          if c =? 92 then cons (RLit d) <$> regex_tokens fuel' l'
          else if c =? 46 then
            if d =? 42 then cons RAnyStar <$> regex_tokens fuel' l'
            else cons RAny <$> regex_tokens fuel' (d :: l')
          else if regex_special c || (c =? 42) || (c =? 63) then None
          else cons (RLit c) <$> regex_tokens fuel' (d :: l')
      end
  end.

(** [regexp.Compile] on "^...$" in that fragment. *)
Definition regexp_Compile (re : bytes) : option (list RegexTok) :=
  match runes re with
  | 94 :: l => regex_tokens (length l) l
  | _ => None
  end.

(** Matching works on runes; '.' does not match a line feed. *)
Fixpoint regexp_run (toks : list RegexTok) : list Z -> bool :=
  match toks with
  | [] => fun l => match l with [] => true | _ => false end
  | RLit r :: toks' => fun l => match l with c :: l' => (c =? r) && regexp_run toks' l' | [] => false end
  | RAny :: toks' => fun l => match l with c :: l' => negb (c =? 10) && regexp_run toks' l' | [] => false end
  | RAnyStar :: toks' =>
      fix go l := regexp_run toks' l
                  || match l with c :: l' => negb (c =? 10) && go l' | [] => false end
  end.

Definition matchPatternRegex (str pattern : bytes) : bool :=
  if bool_decide (pattern = [star]) && bool_decide (str = []) then false
  else if bool_decide (pattern = []) then bool_decide (str = [])
  else
    match regexp_Compile (bs "^" ++ globToRegex pattern ++ bs "$") with
    | None => matchPatternSimple str pattern
    | Some toks => regexp_run toks (runes str)
    end.

(** ** Automaton strategy *)

(** The memo table, from (string index, pattern index) to the result. *)
Abbreviation memo := (gmap (nat * nat) bool).

(** [matchAutomaton] with its memo table threaded through; the fuel bounds the
    recursion depth, since every call moves at least one index forward. *)
Fixpoint matchAutomaton (fuel : nat) (str pattern : bytes) (strIdx patIdx : nat) (m : memo)
  : option (bool * memo) :=
  match fuel with
  | O => None
  | S fuel' =>
      match m !! (strIdx, patIdx) with
      | Some result => Some (result, m)
      | None =>
          let store (result : bool) (m : memo) := Some (result, <[(strIdx, patIdx) := result]> m) in
          match pattern !! patIdx with
          | None => store (bool_decide (strIdx = length str)) m
          | Some patChar =>
              match str !! strIdx with
              | None => store (forallb (fun c => bool_decide (c = star)) (drop patIdx pattern)) m
              | Some strChar =>
                  if bool_decide (patChar = star) then
                    match matchAutomaton fuel' str pattern strIdx (S patIdx) m with
                    | Some (true, m1) => store true m1
                    | Some (false, m1) =>
                        match matchAutomaton fuel' str pattern (S strIdx) patIdx m1 with
                        | Some (r, m2) => store r m2
                        | None => None
                        end
                    | None => None
                    end
                  else if bool_decide (patChar = quest) || bool_decide (patChar = strChar) then
                    match matchAutomaton fuel' str pattern (S strIdx) (S patIdx) m with
                    | Some (r, m1) => store r m1
                    | None => None
                    end
                  else store false m
              end
          end
      end
  end.

Definition matchPatternAutomaton (str pattern : bytes) : bool :=
  if bool_decide (pattern = []) then bool_decide (str = [])
  else if bool_decide (pattern = [star]) then negb (bool_decide (str = []))
  else
    match matchAutomaton (S (length str + length pattern)) str pattern 0 0 ∅ with
    | Some (r, _) => r
    | None => false
    end.

(** ** Glob strategy and dispatch *)

Definition matchPatternGlob (str pattern : bytes) : bool :=
  if bool_decide (pattern = [star]) && bool_decide (str = []) then false
  else if bool_decide (pattern = []) then bool_decide (str = [])
  else
    match filepath_Match pattern str with
    | None => matchPatternSimple str pattern
    | Some matched => matched
    end.

Definition MatchPatternWithStrategy (str pattern : bytes) (strategy : Z) : bool :=
  if strategy =? StrategySimple then matchPatternSimple str pattern
  else if strategy =? StrategyRegex then matchPatternRegex str pattern
  else if strategy =? StrategyAutomaton then matchPatternAutomaton str pattern
  else if strategy =? StrategyGlob then matchPatternGlob str pattern
  else matchPatternSimple str pattern.

(** [matchPattern] of storage/memory.go, under the configured strategy. *)
Definition matchPattern (strategy : Z) (str pattern : bytes) : bool :=
  MatchPatternWithStrategy str pattern strategy.
