(* ===== verification/MatchingProofs.v ===== *)
(** * Correctness of the matching strategies *)

From Stdlib Require Import ZArith Lia String.
From stdpp Require Import base list list_numbers gmap.
From S2P Require Import Prelude GoLib Filepath Matching.

(** ** The reference semantics of glob patterns

    '*' stands for any sequence of bytes, '?' for one byte, everything else
    for itself. *)

Inductive glob : bytes -> bytes -> Prop :=
| glob_nil : glob [] []
| glob_star_skip p s : glob p s -> glob (star :: p) s
| glob_star_take p c s : glob (star :: p) s -> glob (star :: p) (c :: s)
| glob_any p c s : glob p s -> glob (quest :: p) (c :: s)
| glob_lit c p s : c <> star -> c <> quest -> glob p s -> glob (c :: p) (c :: s).

Create HintDb glob.
#[export] Hint Constructors glob : glob.

Lemma glob_nil_inv s : glob [] s <-> s = [].
Proof. split; [by inversion 1|intros ->; constructor]. Qed.

Lemma glob_nil_str p : glob p [] <-> Forall (fun c => c = star) p.
Proof.
  split.
  - remember [] as s. induction 1; simplify_eq; auto.
  - induction 1 as [|c p -> _ IH]; auto with glob.
Qed.

Lemma glob_star_cons p c s :
  glob (star :: p) (c :: s) <-> glob p (c :: s) \/ glob (star :: p) s.
Proof.
  split; [|intros [?|?]; auto with glob].
  inversion 1; simplify_eq; auto.
Qed.

Lemma glob_quest_cons p c s : glob (quest :: p) (c :: s) <-> glob p s.
Proof. split; [by inversion 1; simplify_eq|auto with glob]. Qed.

Lemma glob_lit_cons d p c s : d <> star -> d <> quest ->
  glob (d :: p) (c :: s) <-> d = c /\ glob p s.
Proof.
  intros H1 H2. split; [by inversion 1; simplify_eq|]. intros [-> ?]. auto with glob.
Qed.

Lemma glob_star_app p s1 s2 : glob p s2 -> glob (star :: p) (s1 ++ s2).
Proof. intros H. induction s1; cbn; auto with glob. Qed.

Lemma glob_star_inv p s : glob (star :: p) s <-> exists s1 s2, s = s1 ++ s2 /\ glob p s2.
Proof.
  split; [|intros (s1 & s2 & -> & H); by apply glob_star_app].
  induction s as [|c s IH].
  - intros H. exists [], []. split; [done|]. apply glob_nil_str in H. apply glob_nil_str.
    by inversion H.
  - intros [H|H]%glob_star_cons; [by exists [], (c :: s)|].
    destruct (IH H) as (s1 & s2 & -> & Hp). by exists (c :: s1), s2.
Qed.

(** ** The memoising automaton decides the reference semantics *)

Section Automaton.
Context (str pattern : bytes).

Definition memo_ok (m : memo) : Prop :=
  forall i j r, m !! (i, j) = Some r -> r = true <-> glob (drop j pattern) (drop i str).

Lemma memo_ok_store m i j r :
  memo_ok m -> (r = true <-> glob (drop j pattern) (drop i str)) ->
  memo_ok (<[(i, j) := r]> m).
Proof.
  intros Hm Hr i' j' r' H. destruct (decide ((i, j) = (i', j'))) as [E|E].
  - simplify_eq. rewrite lookup_insert_eq in H. by simplify_eq.
  - rewrite lookup_insert_ne in H by done. by apply Hm.
Qed.

Lemma all_stars_spec (p : bytes) :
  forallb (fun c => bool_decide (c = star)) p = true <-> Forall (fun c => c = star) p.
Proof.
  rewrite forallb_forall, Forall_forall. setoid_rewrite bool_decide_eq_true.
  by setoid_rewrite list_elem_of_In.
Qed.

Lemma matchAutomaton_ok fuel : forall i j m,
  (i <= length str)%nat -> (j <= length pattern)%nat -> memo_ok m ->
  (length str - i + (length pattern - j) < fuel)%nat ->
  exists r m', matchAutomaton fuel str pattern i j m = Some (r, m') /\ memo_ok m' /\
    (r = true <-> glob (drop j pattern) (drop i str)).
Proof.
  induction fuel as [|fuel IH]; intros i j m Hi Hj Hm Hf; [lia|]. cbn [matchAutomaton].
  destruct (m !! (i, j)) as [r|] eqn:Em; [eexists r, m; eauto|].
  assert (Hst : forall r m', memo_ok m' -> (r = true <-> glob (drop j pattern) (drop i str)) ->
    exists r0 m0, Some (r, <[(i, j) := r]> m') = Some (r0, m0) /\ memo_ok m0 /\
      (r0 = true <-> glob (drop j pattern) (drop i str))).
  { intros r m' Hm' Hr. eexists _, _. split; [done|]. split; [by apply memo_ok_store|done]. }
  destruct (pattern !! j) as [p|] eqn:Ep.
  2: { apply lookup_ge_None in Ep. apply Hst; [done|]. rewrite (drop_ge pattern) by done.
       rewrite glob_nil_inv, bool_decide_eq_true. split; [intros ->; by apply drop_ge|].
       intros H%(f_equal length). rewrite length_drop in H. cbn in H. lia. }
  destruct (str !! i) as [c|] eqn:Ec.
  2: { apply lookup_ge_None in Ec. apply Hst; [done|]. rewrite (drop_ge str) by done.
       by rewrite glob_nil_str, all_stars_spec. }
  pose proof (lookup_lt_Some _ _ _ Ep). pose proof (lookup_lt_Some _ _ _ Ec).
  rewrite (drop_S pattern p j), (drop_S str c i) in Hst |- * by done.
  case_bool_decide as Hstar; [subst p|].
  - destruct (IH i (S j) m) as (r1 & m1 & -> & Hm1 & Hr1); [lia..|done|lia|].
    rewrite (drop_S str c i) in Hr1 by done. destruct r1.
    + apply Hst; [done|]. rewrite glob_star_cons. tauto.
    + destruct (IH (S i) j m1) as (r2 & m2 & -> & Hm2 & Hr2); [lia..|done|lia|].
      apply Hst; [done|]. rewrite (drop_S pattern star j) in Hr2 by done.
      rewrite glob_star_cons, Hr2. intuition congruence.
  - destruct (bool_decide (p = quest) || bool_decide (p = c)) eqn:Epc.
    + destruct (IH (S i) (S j) m) as (r1 & m1 & -> & Hm1 & Hr1); [lia..|done|lia|].
      apply Hst; [done|]. rewrite Hr1. destruct (decide (p = quest)) as [->|Hq].
      * by rewrite glob_quest_cons.
      * rewrite (bool_decide_false _ Hq) in Epc. cbn in Epc. apply bool_decide_eq_true in Epc.
        rewrite glob_lit_cons by done. tauto.
    + apply orb_false_iff in Epc as [Hq%bool_decide_eq_false Hc%bool_decide_eq_false].
      apply Hst; [done|]. rewrite glob_lit_cons by done. intuition congruence.
Qed.

End Automaton.

Lemma matchPatternAutomaton_glob str pattern : pattern <> [star] ->
  matchPatternAutomaton str pattern = true <-> glob pattern str.
Proof.
  intros Hp. unfold matchPatternAutomaton. case_bool_decide as H1.
  { subst. by rewrite bool_decide_eq_true, glob_nil_inv. }
  rewrite bool_decide_false by done.
  destruct (matchAutomaton_ok str pattern (S (length str + length pattern)) 0 0 ∅)
    as (r & m & -> & _ & Hr); [lia..| |lia|].
  { intros i j r H. by rewrite lookup_empty in H. }
  by rewrite !drop_0 in Hr.
Qed.

(** ** filepath.Match on patterns of literals, '?' and '*'

    For patterns without classes and escapes, and names of ASCII bytes
    without a path separator, [filepath.Match] decides [glob]. *)

Definition plain (p : bytes) : Prop := Forall (fun c => c <> "["%byte /\ c <> "\"%byte) p.
Definition nostar (p : bytes) : Prop := Forall (fun c => c <> star) p.
Definition simple_name (s : bytes) : Prop := Forall (fun c => bz c < 128 /\ c <> Separator) s.

(** Matching a star-free chunk against a prefix. *)
Fixpoint pmatch (chunk s : bytes) : option bytes :=
  match chunk, s with
  | [], _ => Some s
  | c :: chunk', d :: s' =>
      if bool_decide (c = quest) || bool_decide (c = d) then pmatch chunk' s' else None
  | _ :: _, [] => None
  end.

Lemma pmatch_drop chunk s t : pmatch chunk s = Some t -> t = drop (length chunk) s.
Proof.
  revert s. induction chunk as [|c chunk IH]; intros s H; cbn in *; [by simplify_eq|].
  destruct s as [|d s]; [done|]. destruct (_ || _); [|done]. by apply IH.
Qed.

Lemma glob_chunk chunk rest s : nostar chunk ->
  glob (chunk ++ rest) s <-> exists t, pmatch chunk s = Some t /\ glob rest t.
Proof.
  intros H. revert s. induction H as [|c chunk Hc _ IH]; intros s; cbn [app pmatch].
  - split; [eauto|]. intros (t & E & Ht). by simplify_eq.
  - destruct s as [|d s].
    + rewrite glob_nil_str. split; [by inversion 1|]. by intros (? & ? & ?).
    + case_bool_decide as Hq; cbn [orb].
      * subst. by rewrite glob_quest_cons, IH.
      * rewrite glob_lit_cons by done. case_bool_decide as Hd.
        -- rewrite <- IH. tauto.
        -- split; [tauto|]. by intros (? & ? & ?).
Qed.

Lemma matchChunk_failed fuel chunk s : plain chunk -> (length chunk < fuel)%nat ->
  matchChunk_fuel fuel true chunk s = Some None.
Proof.
  intros Hp. revert fuel. induction Hp as [|c chunk [H1 H2] _ IH]; intros fuel Hf;
    (destruct fuel as [|fuel]; [cbn in Hf; lia|]); cbn in *; [done|].
  rewrite (bool_decide_false (c = "["%byte)), (bool_decide_false (c = "\"%byte)) by done.
  case_bool_decide; apply IH; lia.
Qed.

Lemma DecodeRune_ascii c s : bz c < 128 -> DecodeRune (c :: s) = (bz c, 1%nat).
Proof.
  intros H. unfold DecodeRune. destruct (second_range (bz c)).
  by replace (bz c <? 128) with true by zbool.
Qed.

Lemma matchChunk_plain chunk s : plain chunk -> simple_name s ->
  matchChunk chunk s = Some (pmatch chunk s).
Proof.
  unfold matchChunk. generalize (Nat.lt_succ_diag_r (length chunk)).
  generalize (S (length chunk)). intros fuel Hf Hp. revert fuel s Hf.
  induction Hp as [|c chunk [H1 H2] Hp IH]; intros fuel s Hf Hs;
    (destruct fuel as [|fuel]; [cbn in Hf; lia|]); [done|].
  cbn [matchChunk_fuel pmatch length] in *.
  rewrite (bool_decide_false (c = "["%byte)), (bool_decide_false (c = "\"%byte)) by done.
  destruct Hs as [|d s [Hd1 Hd2] Hs]; cbn [orb head tail].
  { case_bool_decide; apply matchChunk_failed; (done || lia). }
  case_bool_decide as Hq; cbn [orb].
  - rewrite DecodeRune_ascii by done. rewrite bool_decide_false by congruence.
    apply IH; [lia|done].
  - destruct (decide (c = d)) as [->|Hcd].
    + rewrite (bool_decide_false (Some d <> Some d)), (bool_decide_true (d = d)) by naive_solver.
      apply IH; [lia|done].
    + rewrite (bool_decide_true (Some d <> Some c)), (bool_decide_false (c = d)) by congruence.
      apply matchChunk_failed; [done|lia].
Qed.

Lemma trim_stars_plain p : plain p -> plain (trim_stars p).
Proof.
  induction 1 as [|c p Hc Hp IH]; cbn; [constructor|]. case_bool_decide; [done|by constructor].
Qed.

Lemma trim_stars_head p : head (trim_stars p) <> Some star.
Proof. induction p as [|c p IH]; cbn; [done|]. case_bool_decide; [done|]. cbn. congruence. Qed.

Lemma glob_trim_stars p s : head p = Some star ->
  glob p s <-> glob (star :: trim_stars p) s.
Proof.
  revert s. induction p as [|c p IH]; intros s H; [done|]. cbn in H. simplify_eq. cbn.
  rewrite bool_decide_true by done. destruct p as [|d p]; [done|].
  destruct (decide (d = star)) as [->|Hd]; cbn [trim_stars].
  - rewrite bool_decide_true by done. specialize (IH) with (1 := eq_refl). cbn in IH.
    rewrite bool_decide_true in IH by done. rewrite <- IH.
    split; [|auto with glob]. intros (s1 & s2 & -> & H)%glob_star_inv.
    rewrite IH in H |- *. apply glob_star_inv in H as (s3 & s4 & -> & H).
    rewrite app_assoc. by apply glob_star_app.
  - by rewrite bool_decide_false.
Qed.

(** On plain patterns the chunk runs up to the next '*'. *)
Lemma scan_len_plain p : plain p ->
  nostar (take (scan_len false p) p) /\
  (drop (scan_len false p) p = [] \/ head (drop (scan_len false p) p) = Some star) /\
  (p <> [] -> head p <> Some star -> scan_len false p <> 0%nat).
Proof.
  induction 1 as [|c p [H1 H2] _ IH]; cbn; [split; [constructor|]; auto|].
  rewrite !bool_decide_false by done. destruct IH as (IH1 & IH2 & IH3).
  case_bool_decide as Hb; [|case_bool_decide as Hs]; cbn.
  - subst. split; [by constructor|]. split; [done|]. done.
  - subst. split; [constructor|]. split; [by right|]. congruence.
  - split; [by constructor|]. split; [done|]. done.
Qed.

Lemma plain_take n p : plain p -> plain (take n p).
Proof. apply Forall_take. Qed.
Lemma plain_drop n p : plain p -> plain (drop n p).
Proof. apply Forall_drop. Qed.
Lemma simple_name_drop n s : simple_name s -> simple_name (drop n s).
Proof. apply Forall_drop. Qed.
#[export] Hint Resolve plain_take plain_drop simple_name_drop trim_stars_plain : glob.

Lemma Contains_separator s : simple_name s -> Contains s [Separator] = false.
Proof.
  induction 1 as [|c s [_ Hc] _ IH]; [done|]. cbn [Contains]. rewrite IH, orb_false_r.
  unfold HasPrefix. cbn. apply bool_decide_eq_false. congruence.
Qed.

(** The first position, from the start of the name on, where the chunk matches
    and the match may be kept. *)
Definition keep (rest t : bytes) : bool := bool_decide (t = []) || negb (bool_decide (rest = [])).

Fixpoint search (chunk rest name : bytes) : option bytes :=
  match pmatch chunk name with
  | Some t => if keep rest t then Some t
              else match name with [] => None | _ :: n => search chunk rest n end
  | None => match name with [] => None | _ :: n => search chunk rest n end
  end.

Lemma star_search_plain chunk rest name : plain chunk -> simple_name name ->
  star_search chunk rest name = Some (match name with [] => None | _ :: n => search chunk rest n end).
Proof.
  intros Hc Hn. induction Hn as [|c n [_ Hc'] Hn IH]; [done|]. cbn [star_search].
  rewrite bool_decide_false, matchChunk_plain, IH by done.
  destruct n as [|d n]; cbn [search]; destruct (pmatch chunk _) as [t|]; try done;
    unfold keep; do 2 case_bool_decide; done.
Qed.

Lemma search_drop chunk rest name t : search chunk rest name = Some t ->
  exists n, t = drop (length chunk + n) name.
Proof.
  induction name as [|c name IH]; cbn [search]; intros H.
  - destruct (pmatch chunk []) as [u|] eqn:E; [|done]. destruct (keep rest u); simplify_eq.
    exists 0%nat. rewrite Nat.add_0_r. by apply pmatch_drop.
  - assert (Hs : search chunk rest name = Some t -> exists n, t = drop (length chunk + n) (c :: name)).
    { intros Ht. destruct (IH Ht) as [n ->]. exists (S n). by rewrite Nat.add_succ_r. }
    destruct (pmatch chunk (c :: name)) as [u|] eqn:E; [|auto].
    destruct (keep rest u); [|auto]. simplify_eq. exists 0%nat. rewrite Nat.add_0_r.
    by apply pmatch_drop.
Qed.

Lemma glob_star_head rest s n : head rest = Some star -> glob rest (drop n s) -> glob rest s.
Proof.
  destruct rest as [|c rest]; [done|]. intros [= ->] H.
  apply glob_star_inv in H as (s1 & s2 & E & H). rewrite <- (take_drop n s), E, app_assoc.
  by apply glob_star_app.
Qed.

Lemma keep_of_glob rest t : (rest = [] \/ head rest = Some star) -> glob rest t -> keep rest t = true.
Proof.
  unfold keep. intros [->|Hr] Ht; [by apply glob_nil_inv in Ht as ->|].
  destruct rest; [done|]. by rewrite (bool_decide_false (_ :: _ = [])), orb_true_r by done.
Qed.

Lemma search_glob chunk rest name : nostar chunk ->
  (rest = [] \/ head rest = Some star) ->
  glob (star :: chunk ++ rest) name <-> exists t, search chunk rest name = Some t /\ glob rest t.
Proof.
  intros Hc Hrest. induction name as [|c name IH].
  - cbn [search]. rewrite glob_star_inv. split.
    + intros (s1 & s2 & E & H). symmetry in E. apply app_nil in E as [-> ->].
      apply glob_chunk in H as (t & Et & Ht); [|done]. rewrite Et, (keep_of_glob rest t); eauto.
    + intros (t & Et & Ht). exists [], []. split; [done|]. apply glob_chunk; [done|].
      destruct (pmatch chunk []) as [u|]; [|done]. destruct (keep rest u); [|done]. eauto.
  - rewrite glob_star_cons, glob_chunk, IH by done. cbn [search].
    destruct (pmatch chunk (c :: name)) as [u|] eqn:E; [|naive_solver].
    destruct (keep rest u) eqn:Hk.
    + assert (Hu : (exists t, search chunk rest name = Some t /\ glob rest t) -> glob rest u).
      { intros (t & Et & Ht). destruct Hrest as [->|Hr].
        - unfold keep in Hk. rewrite (bool_decide_true ([] = [])), orb_false_r in Hk by done.
          apply bool_decide_eq_true in Hk as ->. constructor.
        - apply search_drop in Et as [n ->]. apply pmatch_drop in E as ->.
          eapply (glob_star_head _ _ (S n)); [done|]. rewrite drop_drop.
          by replace (length chunk + S n)%nat with (S (length chunk + n)) by lia. }
      naive_solver.
    + split; [|naive_solver]. intros [(t & Et & Ht)|H]; [|done]. simplify_eq.
      rewrite (keep_of_glob rest t) in Hk; done.
Qed.

(** Once no match is left only the syntax of the rest is checked. *)
Lemma check_rest_plain fuel p : plain p -> (length p < fuel)%nat -> check_rest fuel p = Some false.
Proof.
  revert p. induction fuel as [|fuel IH]; intros p Hp Hf; [lia|]. destruct p as [|c p]; [done|].
  cbn [check_rest scanChunk]. rewrite matchChunk_plain by (auto with glob || constructor).
  apply IH; [auto with glob|]. cbn [trim_stars]. rewrite length_drop.
  case_bool_decide as Hc.
  - assert (length (trim_stars p) <= length p)%nat; [|cbn in Hf; lia]. clear.
    induction p as [|c p IH]; cbn; [done|]. case_bool_decide; cbn; lia.
  - assert (scan_len false (c :: p) <> 0%nat) by (apply scan_len_plain; naive_solver).
    cbn [length] in *. lia.
Qed.

Lemma trim_stars_length p : (length (trim_stars p) <= length p)%nat.
Proof. induction p as [|c p IH]; cbn; [done|]. case_bool_decide; cbn; lia. Qed.

(** What [scanChunk] returns on a non-empty plain pattern. *)
Lemma scanChunk_plain p : plain p -> p <> [] ->
  exists st chunk rest, scanChunk p = (st, chunk, rest) /\ plain chunk /\ plain rest /\
    nostar chunk /\ (rest = [] \/ head rest = Some star) /\ (length rest < length p)%nat /\
    (chunk = [] -> st = true /\ rest = []) /\
    (forall s, glob p s <-> glob (if st then star :: chunk ++ rest else chunk ++ rest) s).
Proof.
  intros Hp Hne. unfold scanChunk. eexists _, _, _. split; [done|].
  set (q := trim_stars p). assert (Hq : plain q) by (by apply trim_stars_plain).
  destruct (scan_len_plain q Hq) as (H1 & H2 & H3).
  pose proof (trim_stars_length p) as Hl. fold q in Hl.
  assert (Hnil : take (scan_len false q) q = [] -> q = []).
  { intros E%(f_equal length). rewrite length_take in E. cbn in E. destruct q as [|d q'] eqn:Eq; [done|].
    assert (scan_len false (d :: q') <> 0%nat); [|cbn [length] in E; lia].
    apply H3; [done|]. rewrite <- Eq. apply trim_stars_head. }
  split; [by apply plain_take|]. split; [by apply plain_drop|]. split; [done|]. split; [done|].
  assert (Hlt : q <> [] -> (length (drop (scan_len false q) q) < length q)%nat).
  { intros Hq0. rewrite length_drop. destruct (scan_len false q) eqn:E; [by rewrite Hnil in Hq0|].
    destruct q; [done|]. cbn [length]. lia. }
  clear H1 H2 H3. destruct p as [|c p]; [done|]. subst q. cbn [trim_stars] in *.
  destruct (decide (c = star)) as [->|Hc].
  - rewrite (bool_decide_true (star = star)) in * by done. split; [|split].
    + rewrite length_drop. cbn [length]. pose proof (trim_stars_length p). lia.
    + intros E. by rewrite (Hnil E).
    + intros s. rewrite take_drop. by apply (glob_trim_stars (star :: p)).
  - rewrite (bool_decide_false (c = star)) in * by done. split; [|split].
    + by apply Hlt.
    + intros E. by apply Hnil in E.
    + intros s. by rewrite take_drop.
Qed.

Lemma search_keep chunk rest name t : search chunk rest name = Some t -> keep rest t = true.
Proof.
  induction name as [|c name IH]; cbn [search]; intros H;
    destruct (pmatch chunk _) as [u|]; try done; auto;
    destruct (keep rest u) eqn:E; try done; auto; by simplify_eq.
Qed.

(** One iteration of the loop of [Match] on a plain pattern. *)
Lemma Match_step fuel p name st chunk rest :
  p <> [] -> scanChunk p = (st, chunk, rest) -> plain chunk -> plain rest -> simple_name name ->
  Match_fuel (S fuel) p name =
  if st && bool_decide (chunk = []) then Some (negb (Contains name [Separator]))
  else match (if st then search chunk rest name else pmatch chunk name) with
       | Some t => if keep rest t then Match_fuel fuel rest t else Some false
       | None => Some false
       end.
Proof.
  intros Hne Esc Hc Hr Hn. cbn [Match_fuel]. destruct p as [|c p]; [done|]. rewrite Esc.
  destruct (st && bool_decide (chunk = [])); [done|].
  rewrite matchChunk_plain, star_search_plain, check_rest_plain by (done || lia).
  fold (keep rest). destruct st.
  - assert (Hs : forall n, match search chunk rest n with
        | Some t => if keep rest t then Match_fuel fuel rest t else Some false
        | None => Some false end =
        match search chunk rest n with Some t => Match_fuel fuel rest t | None => Some false end).
    { intros n. destruct (search chunk rest n) as [u|] eqn:Eu; [|done].
      by rewrite (search_keep _ _ _ _ Eu). }
    rewrite Hs. destruct name as [|d name]; cbn [search]; destruct (pmatch chunk _) as [t|]; try done;
      change (bool_decide (t = []) || negb (bool_decide (rest = []))) with (keep rest t);
      destruct (keep rest t); try done.
  - destruct (pmatch chunk name) as [t|]; [|done]. by unfold keep.
Qed.

Lemma simple_name_pmatch chunk s t : simple_name s -> pmatch chunk s = Some t -> simple_name t.
Proof. intros Hs ->%pmatch_drop. auto with glob. Qed.

Lemma simple_name_search chunk rest s t :
  simple_name s -> search chunk rest s = Some t -> simple_name t.
Proof. intros Hs [n ->]%search_drop. auto with glob. Qed.

Lemma Match_fuel_plain fuel pattern name : plain pattern -> simple_name name ->
  (length pattern < fuel)%nat ->
  exists b, Match_fuel fuel pattern name = Some b /\ (b = true <-> glob pattern name).
Proof.
  revert pattern name. induction fuel as [|fuel IH]; intros p name Hp Hn Hf; [lia|].
  destruct (decide (p = [])) as [->|Hne].
  { cbn. eexists. split; [done|]. by rewrite bool_decide_eq_true, glob_nil_inv. }
  destruct (scanChunk_plain p Hp Hne) as
    (st & chunk & rest & Esc & Hchunk & Hrest & Hns & Hhd & Hlen & Hempty & Hglob).
  erewrite Match_step by done. setoid_rewrite Hglob.
  destruct (st && bool_decide (chunk = [])) eqn:Etrail.
  { apply andb_true_iff in Etrail as [-> ->%bool_decide_eq_true].
    destruct (Hempty eq_refl) as [_ ->]. rewrite Contains_separator by done.
    eexists. split; [done|]. split; [|done]. intros _. rewrite <- (app_nil_r name).
    apply glob_star_app. constructor. }
  set (found := if st then search chunk rest name else pmatch chunk name).
  assert (Hfound : glob (if st then star :: chunk ++ rest else chunk ++ rest) name <->
    exists t, found = Some t /\ glob rest t).
  { subst found. destruct st; [by apply search_glob|by apply glob_chunk]. }
  assert (Hsn : forall t, found = Some t -> simple_name t).
  { subst found. destruct st; eauto using simple_name_search, simple_name_pmatch. }
  setoid_rewrite Hfound. destruct found as [t|]; [|eexists; split; [done|naive_solver]].
  destruct (keep rest t) eqn:Hk.
  - destruct (IH rest t) as (b & -> & Hb); [auto..|lia|]. exists b. split; [done|naive_solver].
  - exists false. split; [done|]. split; [done|]. intros (u & [= <-] & Hu).
    rewrite (keep_of_glob rest t) in Hk; done.
Qed.

Lemma matchPatternGlob_plain str pattern : pattern <> [star] -> plain pattern -> simple_name str ->
  matchPatternGlob str pattern = true <-> glob pattern str.
Proof.
  intros Hp Hpl Hs. unfold matchPatternGlob. rewrite (bool_decide_false (pattern = [star])) by done.
  cbn [andb]. case_bool_decide as H; [subst; by rewrite bool_decide_eq_true, glob_nil_inv|].
  destruct (Match_fuel_plain (S (length pattern)) pattern str) as (b & Eb & Hb); [done..|lia|].
  unfold filepath_Match. by rewrite Eb.
Qed.

(** ** The simple strategy on patterns with one '*' *)

Definition literal (p : bytes) : Prop := Forall (fun c => c <> star /\ c <> quest) p.

Lemma glob_literal a p s : literal a -> glob (a ++ p) s <-> exists t, s = a ++ t /\ glob p t.
Proof.
  intros Ha. revert s. induction Ha as [|c a [H1 H2] _ IH]; intros s; cbn [app].
  - split; [eauto|]. by intros (t & -> & H).
  - destruct s as [|d s].
    + rewrite glob_nil_str. split; [by inversion 1|]. by intros (? & ? & ?).
    + rewrite glob_lit_cons, IH by done. naive_solver.
Qed.

Lemma HasPrefix_spec s p : HasPrefix s p = true <-> exists t, s = p ++ t.
Proof.
  unfold HasPrefix. rewrite bool_decide_eq_true. split.
  - intros E. exists (drop (length p) s). by rewrite <- E at 1; rewrite take_drop.
  - intros [t ->]. apply take_app_length.
Qed.

Lemma HasSuffix_spec s p : HasSuffix s p = true <-> exists t, s = t ++ p.
Proof.
  unfold HasSuffix. rewrite andb_true_iff, !bool_decide_eq_true. split.
  - intros [_ E]. exists (take (length s - length p) s). by rewrite <- E at 2; rewrite take_drop.
  - intros [t ->]. rewrite length_app. split; [lia|].
    by replace (length t + length p - length p)%nat with (length t) by lia;
       rewrite drop_app_length.
Qed.

Lemma literal_nostar a : literal a -> nostar a.
Proof. intros H. eapply Forall_impl; [exact H|]. by intros c []. Qed.

Lemma IndexByte_app a b : nostar a -> IndexByte (a ++ star :: b) star = Some (length a).
Proof.
  induction 1 as [|c a Hc _ IH]; cbn; [done|]. rewrite bool_decide_false by done. by rewrite IH.
Qed.

Lemma LastIndexByte_None b : nostar b -> LastIndexByte b star = None.
Proof. induction 1 as [|c b Hc _ IH]; cbn; [done|]. by rewrite IH, bool_decide_false. Qed.

Lemma LastIndexByte_app a b : nostar b -> LastIndexByte (a ++ star :: b) star = Some (length a).
Proof.
  intros Hb. induction a as [|c a IH]; cbn; [by rewrite LastIndexByte_None|]. by rewrite IH.
Qed.

(** A key holds the literal before the star as a prefix and the one after it as
    a suffix, without overlap. *)
Lemma glob_one_star a b key : literal a -> literal b ->
  glob (a ++ star :: b) key <-> exists m, key = a ++ m ++ b.
Proof.
  intros Ha Hb. rewrite glob_literal by done. split.
  - intros (t & -> & (m & u & -> & Hu)%glob_star_inv). exists m.
    rewrite <- (app_nil_r b) in Hu. apply glob_literal in Hu as (w & -> & ->%glob_nil_inv); [|done].
    by rewrite app_nil_r.
  - intros [m ->]. exists (m ++ b). split; [done|]. apply glob_star_app.
    rewrite <- (app_nil_r b). apply glob_literal; [done|]. exists []. split; [done|constructor].
Qed.

Lemma affixes_middle (a b key : bytes) : (length a + length b <= length key)%nat ->
  HasPrefix key a && HasSuffix key b = true <-> exists m, key = a ++ m ++ b.
Proof.
  intros Hlen. rewrite andb_true_iff, HasPrefix_spec, HasSuffix_spec. split.
  - intros [[t ->] [u E]]. exists (take (length t - length b) t). f_equal.
    rewrite length_app in Hlen. pose proof (f_equal length E) as El. rewrite !length_app in El.
    apply (f_equal (drop (length u))) in E. rewrite drop_app_length, drop_app_ge in E by lia.
    replace (length u - length a)%nat with (length t - length b)%nat in E by lia.
    by rewrite <- E at 2; rewrite take_drop.
  - intros [m ->]. split; [by exists (m ++ b)|]. exists (a ++ m). by rewrite app_assoc.
Qed.

Lemma matchPatternSimple_glob a b key :
  literal a -> literal b -> a ++ star :: b <> [star] ->
  (length a + length b <= length key)%nat ->
  matchPatternSimple key (a ++ star :: b) = true <-> glob (a ++ star :: b) key.
Proof.
  intros Ha Hb Hp Hlen. rewrite glob_one_star, <- affixes_middle by done.
  unfold matchPatternSimple. rewrite bool_decide_false by (by destruct a).
  rewrite (bool_decide_false (a ++ star :: b = [star])) by done.
  case_bool_decide as Hk.
  { subst. rewrite andb_true_iff, HasPrefix_spec, HasSuffix_spec. split; [|done].
    intros _. split; [eauto|]. exists (a ++ [star]). by rewrite <- app_assoc. }
  case_bool_decide as Hl.
  { destruct b as [|c b _] using rev_ind.
    - rewrite length_app. cbn [length]. replace (length a + 1 - 1)%nat with (length a) by lia.
      rewrite take_app_length. rewrite (proj2 (HasSuffix_spec key [])); [|by exists key; rewrite app_nil_r].
      by rewrite andb_true_r.
    - exfalso. rewrite app_comm_cons, app_assoc, last_snoc in Hl. simplify_eq.
      apply Forall_app in Hb as [_ Hb]. inversion Hb. naive_solver. }
  case_bool_decide as Hh.
  { destruct a as [|c a]; cbn in *.
    - by rewrite drop_0.
    - simplify_eq. inversion Ha. naive_solver. }
  rewrite IndexByte_app, LastIndexByte_app by (by apply literal_nostar).
  rewrite bool_decide_false by naive_solver. rewrite take_app_length.
  by replace (S (length a)) with (length a + 1)%nat by lia; rewrite drop_app_add.
Qed.
