(* ===== verification/MatchingSpec.v ===== *)
(** * What key pattern matching guarantees *)

From Stdlib Require Import ZArith Lia String.
From stdpp Require Import base list list_numbers gmap.
From S2P Require Import Prelude GoLib Filepath Matching MatchingProofs.

(** Discharges [plain], [literal] and the like on a concrete pattern. *)
Ltac literal_tac := vm_compute; repeat constructor; discriminate.

Lemma matchChunk_literal chunk s : plain chunk -> literal chunk ->
  matchChunk chunk (chunk ++ s) = Some (Some s).
Proof.
  unfold matchChunk. generalize (Nat.lt_succ_diag_r (length chunk)).
  generalize (S (length chunk)). intros fuel Hf Hp. revert fuel Hf.
  induction Hp as [|c chunk [H1 H2] Hp IH]; intros fuel Hf Hl;
    (destruct fuel as [|fuel]; [cbn in Hf; lia|]); [done|].
  apply Forall_cons in Hl as [[Hs Hq] Hl]. cbn [matchChunk_fuel app length orb head tail] in *.
  rewrite (bool_decide_false (c = "["%byte)), (bool_decide_false (c = quest)),
    (bool_decide_false (c = "\"%byte)), (bool_decide_false (Some c <> Some c)) by naive_solver.
  apply IH; [lia|done].
Qed.

Lemma Contains_here a b sep : Contains (a ++ sep :: b) [sep] = true.
Proof.
  induction a as [|c a IH]; cbn [Contains app].
  - unfold HasPrefix. cbn. by rewrite take_0, bool_decide_true.
  - by rewrite IH, orb_true_r.
Qed.

Lemma scan_len_star a b : plain a -> nostar a -> scan_len false (a ++ star :: b) = length a.
Proof.
  intros Ha. induction Ha as [|c a [H1 H2] _ IH]; intros Hs; [done|].
  apply Forall_cons in Hs as [Hc Hs]. cbn [app scan_len length].
  rewrite IH by done.
  rewrite (bool_decide_false (c = "\"%byte)), (bool_decide_false (c = "["%byte)),
    (bool_decide_false (c = "*"%byte)) by done.
  cbn. by case_bool_decide.
Qed.

(** The default strategy decides the glob semantics ('*' any bytes, '?' one
    byte) on every pattern without classes and escapes and every ASCII key
    without '/', apart from the bare pattern "*". *)
Theorem default_strategy_glob key pattern :
  pattern <> [star] -> plain pattern -> simple_name key ->
  matchPattern defaultStrategy key pattern = true <-> glob pattern key.
Proof. apply matchPatternGlob_plain. Qed.

Lemma default_strategy_glob_witness :
  matchPattern defaultStrategy (bs "user:1:name") (bs "u?er:*:n*e") = true <->
  glob (bs "u?er:*:n*e") (bs "user:1:name").
Proof.
  apply default_strategy_glob; [done| |]; repeat constructor; try done; vm_compute; discriminate.
Defined.

(** C39: the memoising automaton terminates within its bound and decides the
    same glob semantics for every pattern except "*" and every byte string. *)
Theorem automaton_strategy_glob key pattern : pattern <> [star] ->
  matchPattern StrategyAutomaton key pattern = true <-> glob pattern key.
Proof. apply matchPatternAutomaton_glob. Qed.

Lemma automaton_strategy_glob_witness :
  matchPattern StrategyAutomaton (bs "a/b/c") (bs "a*c") = true <-> glob (bs "a*c") (bs "a/b/c").
Proof. apply automaton_strategy_glob. done. Defined.

(** The simple strategy decides the glob semantics for a pattern with one
    '*' on keys at least as long as the literal parts together. *)
Theorem simple_strategy_glob a b key : literal a -> literal b -> a ++ star :: b <> [star] ->
  (length a + length b <= length key)%nat ->
  matchPattern StrategySimple key (a ++ star :: b) = true <-> glob (a ++ star :: b) key.
Proof. apply matchPatternSimple_glob. Qed.

Lemma simple_strategy_glob_witness :
  matchPattern StrategySimple (bs "user:1") (bs "us" ++ star :: bs ":1") = true <->
  glob (bs "us" ++ star :: bs ":1") (bs "user:1").
Proof. apply simple_strategy_glob; [literal_tac..|done|vm_compute; lia]. Defined.

(** When the literal before the '*' and the one after it overlap in the
    key, the simple strategy accepts a key that the pattern does not match
    ("ab*ba" accepts "aba"). *)
Theorem simple_strategy_overlap u v w :
  literal (u ++ v) -> literal (v ++ w) -> u ++ v <> [] -> v ++ w <> [] -> v <> [] ->
  matchPattern StrategySimple (u ++ v ++ w) ((u ++ v) ++ star :: v ++ w) = true /\
  ~ glob ((u ++ v) ++ star :: v ++ w) (u ++ v ++ w).
Proof.
  intros Ha Hb Hane Hbne Hv. split.
  - set (a := u ++ v) in *. set (b := v ++ w) in *.
    change (matchPattern _ ?k ?p) with (matchPatternSimple k p). unfold matchPatternSimple.
    assert (Hla : length a <> 0%nat) by (by intros ?%nil_length_inv).
    rewrite bool_decide_false.
    2: { intros E%(f_equal length). rewrite length_app in E. cbn in E. lia. }
    rewrite bool_decide_false.
    2: { intros E%(f_equal length). rewrite length_app in E. cbn in E. lia. }
    rewrite (bool_decide_false (u ++ b = _)).
    2: { intros E%(f_equal length). subst a b. rewrite !length_app in E. cbn in E.
         rewrite length_app in E. destruct v; [done|]. cbn in E. lia. }
    destruct (exists_last Hbne) as (b' & c & Eb).
    rewrite bool_decide_false.
    2: { rewrite Eb, app_comm_cons, app_assoc, last_snoc. intros [= ->].
         rewrite Eb in Hb. apply Forall_app in Hb as [_ Hb]. inversion Hb. naive_solver. }
    rewrite bool_decide_false.
    2: { destruct a as [|d a']; [done|]. cbn. intros [= ->]. inversion Ha. naive_solver. }
    rewrite IndexByte_app, LastIndexByte_app by (by apply literal_nostar).
    rewrite bool_decide_false by naive_solver. rewrite take_app_length.
    replace (S (length a)) with (length a + 1)%nat by lia. rewrite drop_app_add.
    apply andb_true_iff. split; [apply HasPrefix_spec|apply HasSuffix_spec].
    + exists w. subst a b. by rewrite app_assoc.
    + by exists u.
  - rewrite glob_one_star by done. intros (m & E%(f_equal length)). rewrite !length_app in E.
    destruct v; [done|]. cbn in E. lia.
Qed.

Lemma simple_strategy_overlap_witness :
  matchPattern StrategySimple (bs "aba") (bs "ab*ba") = true /\ ~ glob (bs "ab*ba") (bs "aba").
Proof.
  apply (simple_strategy_overlap (bs "a") (bs "b") (bs "a")); try done; literal_tac.
Defined.

(** Under the default strategy '*' does not cross a '/': a key with a '/'
    after the literal prefix is not matched by "prefix*", although '*' stands
    for any bytes. *)
Theorem default_strategy_stops_at_separator prefix x y :
  plain prefix -> literal prefix ->
  matchPattern defaultStrategy (prefix ++ x ++ Separator :: y) (prefix ++ [star]) = false /\
  glob (prefix ++ [star]) (prefix ++ x ++ Separator :: y).
Proof.
  intros Hp Hl. split.
  - change (matchPattern _ ?k ?p) with (matchPatternGlob k p). unfold matchPatternGlob.
    rewrite (bool_decide_false (_ ++ _ ++ _ :: _ = [])) by (by destruct prefix, x).
    rewrite andb_false_r, bool_decide_false by (by destruct prefix).
    unfold filepath_Match. rewrite length_app, Nat.add_1_r.
    destruct prefix as [|c prefix].
    + cbn -[Contains]. by rewrite Contains_here.
    + assert (Esc : scanChunk ((c :: prefix) ++ [star]) = (false, c :: prefix, [star])).
      { unfold scanChunk. apply Forall_cons in Hl as Hl'. destruct Hl' as [[Hc _] _].
        assert (Et : trim_stars ((c :: prefix) ++ [star]) = (c :: prefix) ++ [star]).
        { cbn. by rewrite bool_decide_false. }
        rewrite Et, scan_len_star by (done || by apply literal_nostar).
        rewrite take_app_length, drop_app_length. cbn. by rewrite bool_decide_false. }
      cbn [Match_fuel]. rewrite Esc. cbn [andb app]. rewrite !app_comm_cons, matchChunk_literal by done.
      rewrite orb_true_r. cbn -[Contains]. by rewrite Contains_here.
  - apply glob_literal; [done|]. eexists. split; [done|]. rewrite <- (app_nil_r (x ++ _)).
    apply glob_star_app. constructor.
Qed.

Lemma default_strategy_stops_at_separator_witness :
  matchPattern defaultStrategy (bs "user" ++ bs ":" ++ Separator :: bs "1") (bs "user" ++ [star]) = false /\
  glob (bs "user" ++ [star]) (bs "user" ++ bs ":" ++ Separator :: bs "1").
Proof. apply default_strategy_stops_at_separator; literal_tac. Defined.
