(* ===== verification/Memory.v ===== *)
(** * The in-memory storage engine (storage/memory.go)

    The state of a [MemoryStorage], one definition per method. A method that
    takes a lock runs as one atomic action here; Interleaving.v splits the
    expiry path into its lock sections, StorageThreads.v has every lock. The pointer [db] a method reads from
    the database map is the database's number. *)

From Stdlib Require Import ZArith Lia String.
From stdpp Require Import base list list_numbers gmap.
From S2P Require Import Prelude GoLib StorageTypes Matching.

(** ** What the code takes from its environment *)

(** [xxhash.Sum64String], a third-party hash. *)
Class XXHash : Type := Sum64String : bytes -> Z.

(** What the Go runtime may choose: the order in which a [range] statement
    visits a map (a fresh choice each time, hence the number of the choice) and
    the draws of a generator. *)
Class GoRuntime : Type := {
  map_iter {K A} `{Countable K} : nat -> gmap K A -> list (K * A);
  map_iter_perm {K A} `{Countable K} (t : nat) (m : gmap K A) : map_iter t m ≡ₚ map_to_list m;
  rng_IntN : nat -> Z -> Z;
  rng_IntN_range (t : nat) (n : Z) : 0 < n -> 0 <= rng_IntN t n < n
}.

(** The largest allocation of the Go runtime on a 64-bit machine: [make] panics
    above it. *)
Definition maxAlloc : Z := 2 ^ 48.

(** ** State *)

(** [type shard struct] without its lock, and [type shardedDatabase struct]. *)
Abbreviation shard := (gmap bytes StoredValue).
Abbreviation shardedDatabase := (list (gmap bytes StoredValue)).

(** [type MemoryStorage struct]. An observer is a handle; [events] is the log
    of the calls made to observers, [entropy] the number of runtime choices
    made so far. *)
Record MemoryStorage : Type := mkMem {
  databases : gmap Z shardedDatabase;
  currentDB : Z;
  shards : Z;
  shardMask : Z;
  memoryLimit : Z;
  observers : list nat;
  cleanupStop : bool;
  cleanupDone : bool;
  cleanupConfig : CleanupConfig;
  events : list (nat * Event);
  entropy : nat
}.

Definition set_databases d s := mkMem d (currentDB s) (shards s) (shardMask s) (memoryLimit s)
  (observers s) (cleanupStop s) (cleanupDone s) (cleanupConfig s) (events s) (entropy s).
Definition set_currentDB c s := mkMem (databases s) c (shards s) (shardMask s) (memoryLimit s)
  (observers s) (cleanupStop s) (cleanupDone s) (cleanupConfig s) (events s) (entropy s).
Definition set_sharding n m s := mkMem (databases s) (currentDB s) n m (memoryLimit s)
  (observers s) (cleanupStop s) (cleanupDone s) (cleanupConfig s) (events s) (entropy s).
Definition set_memoryLimit l s := mkMem (databases s) (currentDB s) (shards s) (shardMask s) l
  (observers s) (cleanupStop s) (cleanupDone s) (cleanupConfig s) (events s) (entropy s).
Definition set_observers o s := mkMem (databases s) (currentDB s) (shards s) (shardMask s)
  (memoryLimit s) o (cleanupStop s) (cleanupDone s) (cleanupConfig s) (events s) (entropy s).
Definition set_stopped s := mkMem (databases s) (currentDB s) (shards s) (shardMask s)
  (memoryLimit s) (observers s) true true (cleanupConfig s) (events s) (entropy s).
Definition set_cleanupConfig c s := mkMem (databases s) (currentDB s) (shards s) (shardMask s)
  (memoryLimit s) (observers s) (cleanupStop s) (cleanupDone s) c (events s) (entropy s).
Definition set_events e s := mkMem (databases s) (currentDB s) (shards s) (shardMask s)
  (memoryLimit s) (observers s) (cleanupStop s) (cleanupDone s) (cleanupConfig s) e (entropy s).
Definition set_entropy t s := mkMem (databases s) (currentDB s) (shards s) (shardMask s)
  (memoryLimit s) (observers s) (cleanupStop s) (cleanupDone s) (cleanupConfig s) (events s) t.

Abbreviation Mem A := (M MemoryStorage A).

Section Memory.
  Context `{Hash : XXHash} `{Runtime : GoRuntime}.

(** ** Runtime primitives *)

(** The order of one [range] over a map, and one draw of the generator. *)
Definition range_map {K A} `{Countable K} (m : gmap K A) : Mem (list (K * A)) := fun s =>
  (Ok (map_iter (entropy s) m), set_entropy (S (entropy s)) s).

Definition rng_draw (n : Z) : Mem Z := fun s =>
  (Ok (rng_IntN (entropy s) n), set_entropy (S (entropy s)) s).

(** [sh := &db.shards[i]], and a write through [sh]. *)
Definition get_shard (db i : Z) : Mem shard := fun s =>
  match databases s !! db with
  | None => (Panic (bs "invalid memory address or nil pointer dereference"), s)
  | Some shs =>
      match (if i <? 0 then None else shs !! Z.to_nat i) with
      | None => (Panic (bs "index out of range"), s)
      | Some sh => (Ok sh, s)
      end
  end.

Definition put_shard (db i : Z) (sh : shard) : Mem unit := fun s =>
  (Ok tt, set_databases (alter (fun shs => <[Z.to_nat i := sh]> shs) db (databases s)) s).

(** [for _, observer := range s.observers { observer.<call> }] *)
Definition notify (ev : Event) : Mem unit := fun s =>
  (Ok tt, set_events (events s ++ map (fun o => (o, ev)) (observers s)) s).

(** [for i := 0; i < s.shards; i++] *)
Definition shard_indices (s : MemoryStorage) : list Z := seqZ 0 (shards s).

(** ** Construction *)

Definition nextPowerOf2 (n : Z) : Z :=
  if n <=? 1 then 1
  else
    let n := n - 1 in
    let n := Z.lor n (Z.shiftr n 1) in
    let n := Z.lor n (Z.shiftr n 2) in
    let n := Z.lor n (Z.shiftr n 4) in
    let n := Z.lor n (Z.shiftr n 8) in
    let n := Z.lor n (Z.shiftr n 16) in
    let n := Z.lor n (Z.shiftr n 32) in
    wrap64 (n + 1).

Definition WithShardCount (count : Z) (s : MemoryStorage) : MemoryStorage :=
  if 0 <? count then
    set_sharding (nextPowerOf2 count) (wrapU64 (nextPowerOf2 count - 1)) s
  else s.

(** A shard is a lock of 24 bytes and a map header of 8. *)
Definition newShardedDatabase (s : MemoryStorage) : outcome shardedDatabase :=
  if (shards s <? 0) || (maxAlloc <? 32 * shards s) then
    Panic (bs "makeslice: len out of range")
  else Ok (replicate (Z.to_nat (shards s)) ∅).

Definition new_database : Mem shardedDatabase := fun s => (newShardedDatabase s, s).

Definition NewMemory_base : MemoryStorage :=
  mkMem ∅ 0 64 63 0 [] false false CleanupConfigDefault [] 0.

Definition NewMemory (opts : list (MemoryStorage -> MemoryStorage)) : outcome MemoryStorage :=
  let s := foldl (fun s opt => opt s) NewMemory_base opts in
  match newShardedDatabase s with
  | Ok db => Ok (set_databases (<[0 := db]> (databases s)) s)
  | Err e => Err e
  | Panic p => Panic p
  | OutOfFuel => OutOfFuel
  end.

Definition NewMemoryWithShards (numShards : Z) : outcome MemoryStorage :=
  NewMemory [WithShardCount numShards].

(** ** Single-key operations *)

Definition keyHash (s : MemoryStorage) (key : bytes) : Z :=
  Z.land (Sum64String key) (shardMask s).

(** The shard of a key: [db := s.databases[s.currentDB]], [sh := &db.shards[s.keyHash(key)]]. *)
Definition key_shard (key : bytes) : Mem (Z * Z * shard) :=
  let! s := gget in
  let db := currentDB s in
  let shardIdx := keyHash s key in
  let! sh := get_shard db shardIdx in
  gret (db, shardIdx, sh).

Definition deleteExpiredKey (now : Z) (key : bytes) : Mem unit :=
  let! (db, i, sh) := key_shard key in
  match sh !! key with
  | None => gret tt
  | Some value =>
      if IsExpired now value then put_shard db i (delete key sh) ;;! notify (OnKeyExpired key)
      else gret tt
  end.

Definition Get (now : Z) (key : bytes) : Mem (option bytes) :=
  let! (db, i, sh) := key_shard key in
  match sh !! key with
  | None => gret None
  | Some value =>
      if IsExpired now value then deleteExpiredKey now key ;;! gret None
      else
        let result :=
          if SType value =? ValueTypeString then
            match SData value with StringValue d => Some d | _ => None end
          else None in
        notify (OnKeyAccessed key) ;;! gret result
  end.

Definition Expire (now : Z) (key : bytes) (expiry : Z) : Mem bool :=
  let! (db, i, sh) := key_shard key in
  match sh !! key with
  | None => gret false
  | Some value =>
      if IsExpired now value then gret false
      else
        put_shard db i (<[key := mkStored (SType value) (SData value) (Some expiry) (Version value)]> sh) ;;!
        gret true
  end.

Definition TTL (now : Z) (key : bytes) : Mem Z :=
  let! (db, i, sh) := key_shard key in
  match sh !! key with
  | None => gret (-2 * Second)
  | Some value =>
      if IsExpired now value then gret (-2 * Second)
      else match Expiry value with
           | None => gret (-1 * Second)
           | Some e => gret (Until now e)
           end
  end.

Definition PTTL (now : Z) (key : bytes) : Mem Z :=
  let! (db, i, sh) := key_shard key in
  match sh !! key with
  | None => gret (-2 * Millisecond)
  | Some value =>
      if IsExpired now value then gret (-2 * Millisecond)
      else match Expiry value with
           | None => gret (-1 * Millisecond)
           | Some e => gret (Until now e)
           end
  end.

Definition Type_ (now : Z) (key : bytes) : Mem Z :=
  let! (db, i, sh) := key_shard key in
  match sh !! key with
  | None => gret ValueTypeString
  | Some value => if IsExpired now value then gret ValueTypeString else gret (SType value)
  end.

(** ** Memory accounting and eviction *)

(** [unsafe.Sizeof(Value)]: a type, an interface, a pointer and a version. *)
Definition sizeofValue : Z := 8 + 16 + 8 + 8.

Definition calculateValueSize (value : StoredValue) : Z :=
  if SType value =? ValueTypeString then
    match SData value with
    | StringValue d => sizeofValue + Z.of_nat (length d)
    | _ => sizeofValue
    end
  else sizeofValue.

Definition MemoryUsage : Mem Z :=
  let! s := gget in
  let! dbs := range_map (databases s) in
  gfold (fun usage '(db, _) =>
    gfold (fun usage i =>
      let! sh := get_shard db i in
      let! entries := range_map sh in
      gfold (fun usage '(key, value) =>
        gret (usage + Z.of_nat (length key) + calculateValueSize value)) entries usage)
      (shard_indices s) usage) dbs 0.

(** One round of [evictLRU] over the shards; the flag is the early return. *)
Fixpoint evict_round (db count : Z) (idx : list Z) (evicted this : Z) : Mem (Z * Z * bool) :=
  match idx with
  | [] => gret (evicted, this, false)
  | i :: idx' =>
      if evicted <? count then
        let! sh := get_shard db i in
        let! entries := range_map sh in
        match entries with
        | [] => evict_round db count idx' evicted this
        | (key, _) :: _ =>
            put_shard db i (delete key sh) ;;!
            notify (OnKeyDeleted key) ;;!
            if count <=? evicted + 1 then gret (evicted + 1, this + 1, true)
            else evict_round db count idx' (evicted + 1) (this + 1)
        end
      else gret (evicted, this, false)
  end.

(** The rounds; every round but the last evicts, so [count] of them and one
    more are enough. *)
Fixpoint evict_rounds (fuel : nat) (count evicted : Z) : Mem Z :=
  if evicted <? count then
    match fuel with
    | O => fun s => (OutOfFuel, s)
    | S fuel' =>
        let! s := gget in
        let! (evicted', this, returned) :=
          evict_round (currentDB s) count (shard_indices s) evicted 0 in
        if (returned : bool) || (this =? 0) then gret evicted'
        else evict_rounds fuel' count evicted'
    end
  else gret evicted.

Definition evictLRU (count : Z) : Mem Z := evict_rounds (S (Z.to_nat count)) count 0.

Definition EvictLRU (count : Z) : Mem Z := evictLRU count.

Definition Set_ (now : Z) (key value : bytes) (expiry : option Z) : Mem unit :=
  let! s := gget in
  let memLimit := memoryLimit s in
  let! (db, i, sh) := key_shard key in
  put_shard db i (<[key := mkStored ValueTypeString (StringValue value) expiry now]> sh) ;;!
  notify (OnKeySet key value) ;;!
  if 0 <? memLimit then
    let! memUsage := MemoryUsage in
    if memLimit <? memUsage then let! _ := evictLRU 1 in gret tt else gret tt
  else gret tt.

(** ** Multi-key operations *)

(** [keysByShard] of [Del] and [Exists]. *)
Definition keysByShard (s : MemoryStorage) (keys : list bytes) : gmap Z (list bytes) :=
  foldl (fun m key => <[keyHash s key := default [] (m !! keyHash s key) ++ [key]]> m) ∅ keys.

Definition Del (keys : list bytes) : Mem Z :=
  let! s := gget in
  let! groups := range_map (keysByShard s keys) in
  gfold (fun deleted '(shardIdx, shardKeys) =>
    gfold (fun deleted key =>
      let! sh := get_shard (currentDB s) shardIdx in
      match sh !! key with
      | Some _ =>
          put_shard (currentDB s) shardIdx (delete key sh) ;;!
          notify (OnKeyDeleted key) ;;!
          gret (deleted + 1)
      | None => gret deleted
      end) shardKeys deleted) groups 0.

Definition Exists (now : Z) (keys : list bytes) : Mem Z :=
  let! s := gget in
  let! groups := range_map (keysByShard s keys) in
  gfold (fun count '(shardIdx, shardKeys) =>
    gfold (fun count key =>
      let! sh := get_shard (currentDB s) shardIdx in
      match sh !! key with
      | Some value => if IsExpired now value then gret count else gret (count + 1)
      | None => gret count
      end) shardKeys count) groups 0.

(** ** Whole-database operations *)

Definition Keys (strategy : Z) (now : Z) (pattern : bytes) : Mem (list bytes) :=
  let! s := gget in
  gfold (fun keys i =>
    let! sh := get_shard (currentDB s) i in
    let! entries := range_map sh in
    if bool_decide (pattern = []) || bool_decide (pattern = [star]) then
      gfold (fun keys '(key, value) =>
        if IsExpired now value then gret keys else gret (keys ++ [key])) entries keys
    else
      gfold (fun keys '(key, value) =>
        if IsExpired now value then gret keys
        else if matchPattern strategy key pattern then gret (keys ++ [key])
        else gret keys) entries keys) (shard_indices s) [].

Definition KeyCount : Mem Z :=
  let! s := gget in
  gfold (fun count i =>
    let! sh := get_shard (currentDB s) i in
    gret (count + Z.of_nat (size sh))) (shard_indices s) 0.

Definition FlushAll : Mem unit :=
  let! s := gget in
  let! dbs := range_map (databases s) in
  gfor (fun '(db, _) =>
    let! fresh := new_database in
    gmodify (fun s => set_databases (<[db := fresh]> (databases s)) s)) dbs.

Definition SelectDB (db : Z) : Mem unit :=
  if (db <? 0) || (15 <? db) then
    gfail (Errorf (bs "invalid database number: " ++ FormatInt db))
  else
    let! s := gget in
    match databases s !! db with
    | Some _ => gret tt
    | None =>
        let! fresh := new_database in
        gmodify (fun s => set_databases (<[db := fresh]> (databases s)) s)
    end ;;!
    gmodify (set_currentDB db).

Definition CurrentDB : Mem Z := let! s := gget in gret (currentDB s).

(** The visit of one shard by [Scan]: the entries left, the counter [i], the
    keys so far; [inl] is the early return with the next cursor. *)
Fixpoint scan_entries (strategy now cursor : Z) (match_ : bytes) (count : Z)
  (entries : list (bytes * StoredValue)) (i : Z) (keys : list bytes) : Z * list bytes + Z * list bytes :=
  match entries with
  | [] => inr (i, keys)
  | (key, value) :: entries' =>
      if i <? cursor then scan_entries strategy now cursor match_ count entries' (i + 1) keys
      else if IsExpired now value then scan_entries strategy now cursor match_ count entries' i keys
      else if negb (bool_decide (match_ = [])) && negb (matchPattern strategy key match_) then
        scan_entries strategy now cursor match_ count entries' i keys
      else
        let keys' := keys ++ [key] in
        if count <=? Z.of_nat (length keys') then inl (i + 1, keys')
        else scan_entries strategy now cursor match_ count entries' (i + 1) keys'
  end.

Fixpoint scan_shards (strategy now db cursor : Z) (match_ : bytes) (count : Z)
  (idx : list Z) (i : Z) (keys : list bytes) : Mem (Z * list bytes) :=
  match idx with
  | [] => gret (0, keys)
  | shardIdx :: idx' =>
      let! sh := get_shard db shardIdx in
      let! entries := range_map sh in
      match scan_entries strategy now cursor match_ count entries i keys with
      | inl r => gret r
      | inr (i', keys') => scan_shards strategy now db cursor match_ count idx' i' keys'
      end
  end.

Definition Scan (strategy now cursor : Z) (match_ : bytes) (count : Z) : Mem (Z * list bytes) :=
  if (count <? 0) || (maxAlloc <? 16 * count) then
    fun s => (Panic (bs "makeslice: cap out of range"), s)
  else
    let! s := gget in
    scan_shards strategy now (currentDB s) cursor match_ count (shard_indices s) 0 [].

(** ** Statistics *)

(** The result of [Info]; [go_memory] is [runtime.MemStats.Alloc]. *)
Record StorageInfo : Type := mkStorageInfo {
  info_keys : Z; info_memory_usage : Z; info_memory_limit : Z; info_current_db : Z;
  info_databases : Z; info_go_memory : Z; info_shards : Z
}.

Definition Info (go_memory : Z) : Mem StorageInfo :=
  let! s := gget in
  let! keys := KeyCount in
  let! usage := MemoryUsage in
  gret (mkStorageInfo keys usage (memoryLimit s) (currentDB s)
          (Z.of_nat (size (databases s))) go_memory (shards s)).

(** The expired keys among the entries given. *)
Definition count_expired (now : Z) (entries : list (bytes * StoredValue)) : Z :=
  Z.of_nat (length (filter (fun kv => IsExpired now kv.2 = true) entries)).

(** The expired count of a shard: exact up to 100 keys, estimated on a sample
    of 50 above. *)
Definition shard_expired (now : Z) (sh : shard) : Mem Z :=
  let! entries := range_map sh in
  let shardKeyCount := Z.of_nat (size sh) in
  if 100 <? shardKeyCount then
    let keys := take 50 entries in
    let sampled := Z.of_nat (length keys) in
    if 0 <? sampled then
      let expiredRatio := float_div (float_of_int (count_expired now keys)) (float_of_int sampled) in
      gret (int_of_float (float_mul expiredRatio (float_of_int shardKeyCount)))
    else gret 0
  else gret (count_expired now entries).

Definition DatabaseInfo (now : Z) : Mem (gmap Z (Z * Z)) :=
  let! s := gget in
  let! dbs := range_map (databases s) in
  gfold (fun info '(dbNum, _) =>
    let! (keyCount, expiredCount) := gfold (fun '(keyCount, expiredCount) i =>
      let! sh := get_shard dbNum i in
      let! e := shard_expired now sh in
      gret (keyCount + Z.of_nat (size sh), expiredCount + e)) (shard_indices s) (0, 0) in
    if keyCount =? 0 then gret info
    else gret (<[dbNum := (keyCount, expiredCount)]> info)) dbs ∅.

(** ** Configuration and shutdown *)

Definition SetMemoryLimit (limit : Z) : Mem unit := gmodify (set_memoryLimit limit).
Definition GetMemoryLimit : Mem Z := let! s := gget in gret (memoryLimit s).
Definition AddObserver (o : nat) : Mem unit :=
  gmodify (fun s => set_observers (observers s ++ [o]) s).
Definition SetCleanupConfig (config : CleanupConfig) : Mem unit := gmodify (set_cleanupConfig config).
Definition GetCleanupConfig : Mem CleanupConfig := let! s := gget in gret (cleanupConfig s).

(** [Close] closes the stop channel and waits for the cleanup goroutine, which
    closes the done channel when it sees the stop. *)
Definition Close : Mem unit := fun s =>
  if cleanupStop s then (Panic (bs "close of closed channel"), s) else (Ok tt, set_stopped s).

(** ** Background cleanup *)

(** The reservoir loop of [sampleAndFindExpiredInShard]. *)
Fixpoint reservoir (actual : Z) (entries : list (bytes * StoredValue)) (i : Z)
  (sampled : list bytes) : Mem (list bytes) :=
  match entries with
  | [] => gret sampled
  | (key, _) :: entries' =>
      if i <? actual then reservoir actual entries' (i + 1) (sampled ++ [key])
      else
        let! j := rng_draw (i + 1) in
        if j <? actual then reservoir actual entries' (i + 1) (<[Z.to_nat j := key]> sampled)
        else reservoir actual entries' (i + 1) sampled
  end.

(** [value, exists := sh.data[key]; exists && value.IsExpired()] *)
Definition expired_in (now : Z) (sh : shard) (key : bytes) : bool :=
  match sh !! key with Some value => IsExpired now value | None => false end.

Definition sampleAndFindExpiredInShard (now db i sampleSize : Z) : Mem (list bytes) :=
  let! sh := get_shard db i in
  if bool_decide (size sh = 0%nat) then gret []
  else
    let len := Z.of_nat (size sh) in
    let actual := if len <? sampleSize then len else sampleSize in
    if actual <? 0 then fun s => (Panic (bs "makeslice: cap out of range"), s)
    else
      let! entries := range_map sh in
      let! sampledKeys :=
        if len <=? actual then gret (map fst entries) else reservoir actual entries 0 [] in
      gret (filter (fun key => expired_in now sh key = true) sampledKeys).

Definition deleteKeyBatchInShard (now db i : Z) (keys : list bytes) : Mem unit :=
  gfor (fun key =>
    let! sh := get_shard db i in
    match sh !! key with
    | Some value =>
        if IsExpired now value then
          put_shard db i (delete key sh) ;;! notify (OnKeyExpired key)
        else gret tt
    | None => gret tt
    end) keys.

(** The batches; with a positive batch size a fuel of one per key is enough,
    with 0 the loop does not end. *)
Fixpoint delete_batches (fuel : nat) (now db i : Z) (expiredKeys : list bytes) (batchSize k : Z)
  : Mem unit :=
  let len := Z.of_nat (length expiredKeys) in
  if k <? len then
    match fuel with
    | O => fun s => (OutOfFuel, s)
    | S fuel' =>
        let end_ := if len <? k + batchSize then len else k + batchSize in
        if (end_ <? k) || (k <? 0) then fun s => (Panic (bs "slice bounds out of range"), s)
        else
          deleteKeyBatchInShard now db i
            (take (Z.to_nat (end_ - k)) (drop (Z.to_nat k) expiredKeys)) ;;!
          delete_batches fuel' now db i expiredKeys batchSize (k + batchSize)
    end
  else gret tt.

Definition deleteExpiredKeysInShardBatched (now db i : Z) (expiredKeys : list bytes)
  (batchSize : Z) : Mem unit :=
  delete_batches (length expiredKeys) now db i expiredKeys batchSize 0.

(** The rounds of [cleanupShard] that are left. *)
Fixpoint cleanup_rounds (rounds : nat) (now db shardIdx : Z) (config : CleanupConfig) : Mem unit :=
  match rounds with
  | O => gret tt
  | S rounds' =>
      let! expiredKeys := sampleAndFindExpiredInShard now db shardIdx (SampleSize config) in
      if bool_decide (expiredKeys = []) then gret tt
      else
        deleteExpiredKeysInShardBatched now db shardIdx expiredKeys (BatchSize config) ;;!
        let expiredRatio := float_div (float_of_int (Z.of_nat (length expiredKeys)))
                                      (float_of_int (SampleSize config)) in
        if float_ltb expiredRatio (ExpiredThreshold config) then gret tt
        else cleanup_rounds rounds' now db shardIdx config
  end.

Definition cleanupShard (now shardIdx db : Z) (config : CleanupConfig) : Mem unit :=
  cleanup_rounds (Z.to_nat (MaxRounds config)) now db shardIdx config.

Definition cleanupDatabase (now db : Z) (config : CleanupConfig) : Mem unit :=
  let! s := gget in
  gfor (fun shardIdx => cleanupShard now shardIdx db config) (shard_indices s).

Definition performCleanup (now : Z) : Mem unit :=
  let! config := GetCleanupConfig in
  let! s := gget in
  let! dbs := range_map (databases s) in
  gfor (fun '(dbNum, _) => cleanupDatabase now dbNum config) dbs.

(** What [select] picks in [cleanupExpiredKeys]: a tick at a time, or the stop. *)
Fixpoint cleanupExpiredKeys (schedule : list (option Z)) : Mem unit :=
  match schedule with
  | [] => fun s => (OutOfFuel, s)
  | None :: _ => gret tt
  | Some now :: schedule' => performCleanup now ;;! cleanupExpiredKeys schedule'
  end.

End Memory.
