(* ===== verification/MemoryInv.v ===== *)
(** * The storage invariant and the abstract contents

    [wf] is the representation invariant of the sharded storage, [absDB] the
    plain map of databases it stands for. The lemmas here say what one access
    through a shard means for the abstract contents. *)

From Stdlib Require Import ZArith Lia String.
From stdpp Require Import base list list_numbers gmap fin_maps.
From S2P Require Import Prelude GoLib StorageTypes Matching Memory.

Section Inv.
  Context `{Hash : XXHash} `{Runtime : GoRuntime}.

(** ** The invariant *)

(** The bit-mask hash and the shards of one database: every shard is there and
    holds only keys that hash to it. *)
Definition hash_index (mask : Z) (k : bytes) : nat := Z.to_nat (Z.land (Sum64String k) mask).

Record wf_db (n mask : Z) (shs : shardedDatabase) : Prop := {
  wf_len : length shs = Z.to_nat n;
  wf_home i sh k : shs !! i = Some sh -> is_Some (sh !! k) -> hash_index mask k = i
}.

(** A cleanup configuration under which the deletion loop makes progress. *)
Definition valid_config (c : CleanupConfig) : Prop := 0 <= SampleSize c /\ 0 < BatchSize c.

Record wf (s : MemoryStorage) : Prop := {
  wf_pow : exists n, 0 <= n /\ shards s = 2 ^ n /\ shardMask s = Z.ones n;
  wf_cap : 32 * shards s <= maxAlloc;
  wf_cur : is_Some (databases s !! currentDB s);
  wf_dbs : map_Forall (fun db shs => 0 <= db <= 15 /\ wf_db (shards s) (shardMask s) shs) (databases s);
  wf_config : valid_config (cleanupConfig s)
}.

(** ** Abstract contents *)

Definition contents (shs : shardedDatabase) : gmap bytes StoredValue := ⋃ shs.
Definition absDB (s : MemoryStorage) : gmap Z (gmap bytes StoredValue) := contents <$> databases s.

(** The database selected, as clients see it. *)
Definition current (s : MemoryStorage) : gmap bytes StoredValue :=
  default ∅ (absDB s !! currentDB s).

(** Everything but the data, the event log and the entropy. *)
Definition config_of (s : MemoryStorage) : MemoryStorage :=
  set_events [] (set_entropy 0 (set_databases ∅ s)).

(** The calls [evs] makes to the observers. *)
Definition notified (s : MemoryStorage) (evs : list Event) : list (nat * Event) :=
  concat (map (fun ev => map (fun o => (o, ev)) (observers s)) evs).

(** The state after an operation that changes the data to [d'] and notifies [evs]. *)
Record evolves (s s' : MemoryStorage) (d' : gmap Z (gmap bytes StoredValue)) (evs : list Event)
  : Prop := {
  ev_wf : wf s';
  ev_config : config_of s' = config_of s;
  ev_data : absDB s' = d';
  ev_events : events s' = events s ++ notified s evs
}.

Lemma config_fields s s' : config_of s' = config_of s ->
  currentDB s' = currentDB s /\ shards s' = shards s /\ shardMask s' = shardMask s /\
  memoryLimit s' = memoryLimit s /\ observers s' = observers s /\
  cleanupConfig s' = cleanupConfig s /\ cleanupStop s' = cleanupStop s.
Proof. unfold config_of. destruct s, s'; cbn. intros [=]. by subst. Qed.

Lemma notified_app s e1 e2 : notified s (e1 ++ e2) = notified s e1 ++ notified s e2.
Proof. unfold notified. by rewrite map_app, concat_app. Qed.

Lemma evolves_refl s : wf s -> evolves s s (absDB s) [].
Proof. intros Hwf. split; [done..|]. unfold notified. by rewrite app_nil_r. Qed.

Lemma evolves_trans s1 s2 s3 d2 d3 e1 e2 :
  evolves s1 s2 d2 e1 -> evolves s2 s3 d3 e2 -> evolves s1 s3 d3 (e1 ++ e2).
Proof.
  intros [W1 C1 D1 E1] [W2 C2 D2 E2]. split; [done|congruence|done|].
  rewrite E2, E1, notified_app, app_assoc. unfold notified.
  by destruct (config_fields _ _ C1) as (_ & _ & _ & _ & -> & _).
Qed.

(** ** The hash *)

Lemma mask_range s k : wf s -> 0 <= keyHash s k < shards s.
Proof.
  intros [(n & Hn & -> & E) _ _ _ _]. unfold keyHash. rewrite E, Z.land_ones by done.
  apply Z.mod_pos_bound. lia.
Qed.

Lemma hash_index_keyHash s k : hash_index (shardMask s) k = Z.to_nat (keyHash s k).
Proof. done. Qed.

Lemma hash_lt s k : wf s -> (hash_index (shardMask s) k < Z.to_nat (shards s))%nat.
Proof. intros Hwf. rewrite hash_index_keyHash. pose proof (mask_range s k Hwf). lia. Qed.

Lemma shards_pos s : wf s -> 0 < shards s.
Proof. intros Hwf. pose proof (mask_range s [] Hwf). lia. Qed.

(** ** Contents of the shards *)

Lemma union_list_lookup (shs : shardedDatabase) k j v :
  (forall i sh, shs !! i = Some sh -> is_Some (sh !! k) -> i = j) ->
  shs !! j ≫= (.!! k) = Some v -> contents shs !! k = Some v.
Proof.
  unfold contents. revert j. induction shs as [|sh shs IH]; intros j Hu Hj; [done|].
  cbn [union_list foldr]. destruct j as [|j].
  - cbn in Hj. by apply lookup_union_Some_l.
  - cbn in Hj. rewrite lookup_union_r.
    + apply (IH j); [|done]. intros i sh' Hi Hk. specialize (Hu (S i) sh' Hi Hk). lia.
    + destruct (sh !! k) eqn:E; [|done]. by specialize (Hu 0%nat sh eq_refl ltac:(by rewrite E)).
Qed.

Lemma union_list_None (shs : shardedDatabase) k :
  (forall i sh, shs !! i = Some sh -> sh !! k = None) -> contents shs !! k = None.
Proof.
  unfold contents. induction shs as [|sh shs IH]; intros Hu; [apply lookup_empty|].
  cbn. apply lookup_union_None. split; [by apply (Hu 0%nat)|].
  apply IH. intros i sh' Hi. by apply (Hu (S i)).
Qed.

Lemma contents_lookup n mask shs k : wf_db n mask shs ->
  contents shs !! k = shs !! hash_index mask k ≫= (.!! k).
Proof.
  intros [_ Hh]. destruct (shs !! hash_index mask k ≫= (.!! k)) as [v|] eqn:E.
  - eapply union_list_lookup; [|done]. intros i sh Hi Hk. symmetry. eauto.
  - apply union_list_None. intros i sh Hi. destruct (sh !! k) as [v|] eqn:Ek; [|done].
    pose proof (Hh i sh k Hi ltac:(eauto)) as <-. rewrite Hi in E. cbn in E. congruence.
Qed.

Lemma wf_db_update n mask shs i sh' : wf_db n mask shs ->
  (forall k, is_Some (sh' !! k) -> hash_index mask k = i) ->
  wf_db n mask (<[i := sh']> shs).
Proof.
  intros [Hl Hh] Hi. split; [by rewrite length_insert|].
  intros j sh k Hj Hk. apply list_lookup_insert_Some in Hj as [(-> & <- & _)|[_ Hj]]; eauto.
Qed.

Lemma contents_update n mask shs i sh sh' k v : wf_db n mask shs ->
  hash_index mask k = i -> shs !! i = Some sh -> sh' = partial_alter (fun _ => v) k sh ->
  wf_db n mask (<[i := sh']> shs) /\
  contents (<[i := sh']> shs) = partial_alter (fun _ => v) k (contents shs).
Proof.
  intros Hwf Hk Hi ->. assert (Hwf' : wf_db n mask (<[i:=partial_alter (fun _ => v) k sh]> shs)).
  { apply wf_db_update; [done|]. intros k' [x Hk'].
    destruct (decide (k' = k)) as [->|Hne]; [done|].
    rewrite lookup_partial_alter_ne in Hk' by done. by eapply (wf_home _ _ _ Hwf). }
  split; [done|]. apply map_eq. intros k'. rewrite (contents_lookup _ _ _ k' Hwf').
  destruct (decide (k' = k)) as [->|Hne].
  - rewrite lookup_partial_alter_eq, Hk, list_lookup_insert_eq by (by eapply lookup_lt_Some).
    cbn. by rewrite lookup_partial_alter_eq.
  - rewrite lookup_partial_alter_ne, (contents_lookup _ _ _ k' Hwf) by done.
    destruct (decide (hash_index mask k' = i)) as [->|Hni].
    + rewrite list_lookup_insert_eq, Hi by (by eapply lookup_lt_Some). cbn.
      by rewrite lookup_partial_alter_ne.
    + by rewrite list_lookup_insert_ne by congruence.
Qed.

(** ** Access through the monad *)

Lemma get_shard_ok s db shs i : wf s -> databases s !! db = Some shs -> 0 <= i < shards s ->
  exists sh, shs !! Z.to_nat i = Some sh /\ get_shard db i s = (Ok sh, s).
Proof.
  intros Hwf Hdb Hi. pose proof (wf_dbs s Hwf db shs Hdb) as [_ [Hl _]].
  destruct (lookup_lt_is_Some_2 shs (Z.to_nat i)) as [sh Hsh]; [rewrite Hl; lia|].
  exists sh. split; [done|]. unfold get_shard. rewrite Hdb.
  destruct (Z.ltb_spec i 0); [lia|]. by rewrite Hsh.
Qed.

Lemma absDB_lookup s db shs : databases s !! db = Some shs -> absDB s !! db = Some (contents shs).
Proof. intros H. unfold absDB. by rewrite lookup_fmap, H. Qed.

Lemma current_contents s shs : databases s !! currentDB s = Some shs -> current s = contents shs.
Proof. intros H. unfold current. by rewrite (absDB_lookup _ _ _ H). Qed.

Lemma current_lookup s : wf s -> absDB s !! currentDB s = Some (current s).
Proof.
  intros Hwf. destruct (wf_cur s Hwf) as [shs E].
  by rewrite (current_contents _ _ E), (absDB_lookup _ _ _ E).
Qed.

(** The shard of a key holds what the abstract database says about the key. *)
Lemma get_shard_key s db m k : wf s -> absDB s !! db = Some m ->
  exists sh, get_shard db (keyHash s k) s = (Ok sh, s) /\ sh !! k = m !! k /\
    (forall v, let s' := set_databases
        (alter (fun shs => <[Z.to_nat (keyHash s k) := partial_alter (fun _ => v) k sh]> shs) db
           (databases s)) s in
      evolves s s' (<[db := partial_alter (fun _ => v) k m]> (absDB s)) []).
Proof.
  intros Hwf Hdb. unfold absDB in Hdb. rewrite lookup_fmap in Hdb.
  destruct (databases s !! db) as [shs|] eqn:Es; [|done]. injection Hdb as <-.
  destruct (get_shard_ok s db shs (keyHash s k) Hwf Es (mask_range s k Hwf)) as (sh & Hsh & Hget).
  exists sh. split; [done|].
  pose proof (wf_dbs s Hwf db shs Es) as [Hr Hd]. split.
  - rewrite (contents_lookup _ _ _ k Hd), hash_index_keyHash, Hsh. done.
  - intros v s'.
    destruct (contents_update _ _ shs _ sh _ k v Hd (hash_index_keyHash s k) Hsh eq_refl) as [Hd' Hc].
    assert (Ea : databases s' = <[db := <[Z.to_nat (keyHash s k) := partial_alter (fun _ => v) k sh]> shs]>
        (databases s)).
    { subst s'. cbn. apply map_eq. intros j. destruct (decide (j = db)) as [->|Hj].
      - by rewrite lookup_alter_eq, Es, lookup_insert_eq.
      - by rewrite lookup_alter_ne, lookup_insert_ne by done. }
    split; [split| | |]; try done.
    + apply Hwf.
    + apply Hwf.
    + rewrite Ea. destruct (decide (currentDB s = db)) as [Ec|Hc'].
      * change (currentDB s') with (currentDB s). rewrite Ec, lookup_insert_eq. eauto.
      * change (currentDB s') with (currentDB s). rewrite lookup_insert_ne by done. apply Hwf.
    + rewrite Ea. apply map_Forall_insert_2; [done|]. apply Hwf.
    + apply Hwf.
    + unfold absDB. rewrite Ea, fmap_insert. by rewrite Hc.
    + cbn. by rewrite app_nil_r.
Qed.

Lemma notify_ok s ev : wf s -> exists s', notify ev s = (Ok tt, s') /\ evolves s s' (absDB s) [ev].
Proof.
  intros [H1 H2 H3 H4 H5]. eexists. split; [done|]. split; [by split|done..|].
  cbn. unfold notified. cbn. by rewrite app_nil_r.
Qed.

Lemma range_map_ok {K A} `{Countable K} s (m : gmap K A) : wf s ->
  exists l s', range_map m s = (Ok l, s') /\ l ≡ₚ map_to_list m /\ evolves s s' (absDB s) [].
Proof.
  intros Hwf. do 2 eexists. split; [done|]. split; [apply map_iter_perm|].
  destruct Hwf as [H1 H2 H3 H4 H5]. split; [by split|done..|]. cbn. by rewrite app_nil_r.
Qed.

(** The notification after a change through a shard. *)
Lemma update_notify s db m k : wf s -> absDB s !! db = Some m ->
  exists sh, get_shard db (keyHash s k) s = (Ok sh, s) /\ sh !! k = m !! k /\
    (forall v, exists s1, put_shard db (keyHash s k) (partial_alter (fun _ => v) k sh) s = (Ok tt, s1) /\
       evolves s s1 (<[db := partial_alter (fun _ => v) k m]> (absDB s)) [] /\
       forall ev, exists s2, notify ev s1 = (Ok tt, s2) /\
         evolves s s2 (<[db := partial_alter (fun _ => v) k m]> (absDB s)) [ev]).
Proof.
  intros Hwf Hdb. destruct (get_shard_key s db m k Hwf Hdb) as (sh & Hget & Hk & Hput).
  exists sh. split; [done|]. split; [done|]. intros v. specialize (Hput v).
  eexists. split; [done|]. split; [done|]. intros ev.
  destruct (notify_ok _ ev (ev_wf _ _ _ _ Hput)) as (s2 & E2 & Hev).
  exists s2. split; [done|]. rewrite (ev_data _ _ _ _ Hput) in Hev.
  by apply (evolves_trans _ _ _ _ _ [] [ev] Hput).
Qed.

Lemma key_shard_ok s k : wf s ->
  exists sh, key_shard k s = (Ok (currentDB s, keyHash s k, sh), s) /\ sh !! k = current s !! k /\
    (forall v, exists s1, put_shard (currentDB s) (keyHash s k) (partial_alter (fun _ => v) k sh) s = (Ok tt, s1) /\
       evolves s s1 (<[currentDB s := partial_alter (fun _ => v) k (current s)]> (absDB s)) [] /\
       forall ev, exists s2, notify ev s1 = (Ok tt, s2) /\
         evolves s s2 (<[currentDB s := partial_alter (fun _ => v) k (current s)]> (absDB s)) [ev]).
Proof.
  intros Hwf.
  destruct (update_notify s (currentDB s) _ k Hwf (current_lookup s Hwf)) as (sh & Hg & Hk & Hput).
  exists sh. split; [|by split]. unfold key_shard, gget. cbn [gbind]. unfold gbind.
  by rewrite Hg.
Qed.

Lemma put_current_same s : wf s -> <[currentDB s := current s]> (absDB s) = absDB s.
Proof. intros Hwf. by apply insert_id, current_lookup. Qed.

End Inv.
