(* ===== verification/StoreSpec.v ===== *)
(** * The abstract store

    What the storage promises, stated on plain maps: a map of databases, the
    database selected and the memory limit. [astep] is the relation between the
    store before an operation, the reply and the store after it; it is
    nondeterministic where the code's choice is not promised (the victims of an
    eviction, the order of a key listing, how much a cleanup cycle removes). *)

From Stdlib Require Import ZArith Lia String.
From stdpp Require Import base list list_numbers gmap fin_maps.
From S2P Require Import Prelude GoLib StorageTypes Matching Memory MemoryInv.

Record AStore : Type := mkAStore {
  adbs : gmap Z (gmap bytes StoredValue);
  acur : Z;
  alimit : Z
}.

Definition selected (a : AStore) : gmap bytes StoredValue := default ∅ (adbs a !! acur a).
Definition with_selected (a : AStore) (m : gmap bytes StoredValue) : AStore :=
  mkAStore (<[acur a := m]> (adbs a)) (acur a) (alimit a).
Definition with_dbs (a : AStore) d : AStore := mkAStore d (acur a) (alimit a).

(** The value a client can still read. *)
Definition live (now : Z) (m : gmap bytes StoredValue) (k : bytes) : option StoredValue :=
  match m !! k with
  | Some v => if IsExpired now v then None else Some v
  | None => None
  end.

Definition string_of (v : StoredValue) : option bytes :=
  if SType v =? ValueTypeString then
    match SData v with StringValue d => Some d | _ => None end
  else None.

(** The memory the accounting charges for one entry, one database, the store. *)
Definition entry_size (k : bytes) (v : StoredValue) : Z := Z.of_nat (length k) + calculateValueSize v.
Definition sumZ (l : list Z) : Z := foldr Z.add 0 l.
#[global] Arguments sumZ : simpl never.
Definition db_usage (m : gmap bytes StoredValue) : Z :=
  sumZ ((fun '(k, v) => entry_size k v) <$> map_to_list m).
Definition usage (d : gmap Z (gmap bytes StoredValue)) : Z :=
  sumZ ((fun '(_, m) => db_usage m) <$> map_to_list d).

(** The keys a listing with a pattern must return. *)
Definition listed (strategy now : Z) (pattern : bytes) (kv : bytes * StoredValue) : Prop :=
  IsExpired now kv.2 = false /\
  (pattern = [] \/ pattern = [star] \/ matchPattern strategy kv.1 pattern = true).

#[global] Instance listed_dec strategy now pattern kv : Decision (listed strategy now pattern kv).
Proof. unfold listed. apply _. Defined.

(** The entries a page of a scan may return. *)
Definition scanned (strategy now : Z) (match_ : bytes) (kv : bytes * StoredValue) : Prop :=
  IsExpired now kv.2 = false /\ (match_ = [] \/ matchPattern strategy kv.1 match_ = true).

#[global] Instance scanned_dec strategy now match_ kv : Decision (scanned strategy now match_ kv).
Proof. unfold scanned. apply _. Defined.

(** A page of a scan over the entries in the order of a visit: the next cursor and the
    keys. *)
Definition page_size (count : Z) : nat := Z.to_nat (Z.max 1 count).

Definition scan_page (strategy now : Z) (match_ : bytes) (count : Z) (L : list (bytes * StoredValue)) (cursor : Z) : Z * list bytes :=
  let m := (filter (scanned strategy now match_) (drop (Z.to_nat cursor) L)).*1 in
  if decide (page_size count <= length m)%nat then
    (Z.max 0 cursor + Z.of_nat (page_size count), take (page_size count) m)
  else (0, m).

(** What is told of a database: nothing when it is empty, or how many keys it has and
    how many of them have expired, exactly up to 100 keys. *)
Definition told (now : Z) (m : gmap bytes StoredValue) (entry : option (Z * Z)) : Prop :=
  if decide (m = ∅) then entry = None
  else exists e, entry = Some (Z.of_nat (size m), e) /\
    (Z.of_nat (size m) <= 100 -> e = count_expired now (map_to_list m)).

(** The database without the keys given. *)
Definition without (ks : list bytes) (m : gmap bytes StoredValue) : gmap bytes StoredValue :=
  filter (fun kv => kv.1 ∉ ks) m.

(** The databases after a cleanup: the same ones, with expired keys missing. *)
Definition shrinks (now : Z) (d d' : gmap Z (gmap bytes StoredValue)) : Prop :=
  (forall db, is_Some (d' !! db) <-> is_Some (d !! db)) /\
  (forall db m0 m1, d !! db = Some m0 -> d' !! db = Some m1 -> m1 ⊆ m0 /\
     forall k v, m0 !! k = Some v -> IsExpired now v = false -> m1 !! k = Some v).

Inductive Op : Type :=
| OpGet (key : bytes)
| OpSet (key value : bytes) (expiry : option Z)
| OpDel (keys : list bytes)
| OpExists (keys : list bytes)
| OpExpire (key : bytes) (expiry : Z)
| OpTTL (key : bytes)
| OpPTTL (key : bytes)
| OpType (key : bytes)
| OpKeys (strategy : Z) (pattern : bytes)
| OpKeyCount
| OpFlushAll
| OpMemoryUsage
| OpSelectDB (db : Z)
| OpCurrentDB
| OpSetMemoryLimit (limit : Z)
| OpGetMemoryLimit
| OpEvictLRU (count : Z)
| OpAddObserver (observer : nat)
| OpSetCleanupConfig (config : CleanupConfig)
| OpCleanup
| OpScan (strategy cursor : Z) (match_ : bytes) (count : Z)
| OpInfo (go_memory : Z)
| OpDatabaseInfo.

Inductive Reply : Type :=
| RUnit
| RVal (v : option bytes)
| RInt (n : Z)
| RBool (b : bool)
| RKeys (ks : list bytes)
| RPage (page : Z * list bytes)
| RInfo (info : StorageInfo)
| RDatabases (info : gmap Z (Z * Z))
| RErr (e : error).

(** The remaining time to live, with the unit of the two sentinels. *)
Definition ttl_reply (unit now : Z) (m : gmap bytes StoredValue) (k : bytes) : Z :=
  match live now m k with
  | None => -2 * unit
  | Some v => match Expiry v with None => -1 * unit | Some e => Until now e end
  end.

Definition astep (now : Z) (a : AStore) (op : Op) (r : Reply) (a' : AStore) : Prop :=
  let m := selected a in
  match op with
  | OpGet k =>
      r = RVal (live now m k ≫= string_of) /\
      a' = (if bool_decide (is_Some (live now m k)) then a else with_selected a (delete k m))
  | OpSet k v e =>
      let m1 := <[k := mkStored ValueTypeString (StringValue v) e now]> m in
      let a1 := with_selected a m1 in
      r = RUnit /\
      if (0 <? alimit a) && (alimit a <? usage (adbs a1)) then
        exists victim, is_Some (m1 !! victim) /\ a' = with_selected a (delete victim m1)
      else a' = a1
  | OpDel ks =>
      r = RInt (Z.of_nat (size (filter (fun kv : bytes * StoredValue => kv.1 ∈ ks) m))) /\
      a' = with_selected a (without ks m)
  | OpExists ks =>
      r = RInt (Z.of_nat (length (filter (fun k => is_Some (live now m k)) ks))) /\ a' = a
  | OpExpire k e =>
      match live now m k with
      | None => r = RBool false /\ a' = a
      | Some v => r = RBool true /\
          a' = with_selected a (<[k := mkStored (SType v) (SData v) (Some e) (Version v)]> m)
      end
  | OpTTL k => r = RInt (ttl_reply Second now m k) /\ a' = a
  | OpPTTL k => r = RInt (ttl_reply Millisecond now m k) /\ a' = a
  | OpType k => r = RInt (match live now m k with Some v => SType v | None => ValueTypeString end) /\ a' = a
  | OpKeys strategy pattern => exists ks, r = RKeys ks /\ a' = a /\
      ks ≡ₚ (filter (listed strategy now pattern) (map_to_list m)).*1
  | OpKeyCount => r = RInt (Z.of_nat (size m)) /\ a' = a
  | OpFlushAll => r = RUnit /\ a' = with_dbs a ((fun _ => ∅) <$> adbs a)
  | OpMemoryUsage => r = RInt (usage (adbs a)) /\ a' = a
  | OpSelectDB db =>
      if (db <? 0) || (15 <? db) then
        r = RErr (Errorf (bs "invalid database number: " ++ FormatInt db)) /\ a' = a
      else r = RUnit /\
        a' = mkAStore (partial_alter (fun o => Some (default ∅ o)) db (adbs a)) db (alimit a)
  | OpCurrentDB => r = RInt (acur a) /\ a' = a
  | OpSetMemoryLimit limit => r = RUnit /\ a' = mkAStore (adbs a) (acur a) limit
  | OpGetMemoryLimit => r = RInt (alimit a) /\ a' = a
  | OpEvictLRU count => exists victims,
      NoDup victims /\ (forall k, k ∈ victims -> is_Some (m !! k)) /\
      Z.of_nat (length victims) = Z.min (Z.max 0 count) (Z.of_nat (size m)) /\
      r = RInt (Z.of_nat (length victims)) /\ a' = with_selected a (without victims m)
  | OpAddObserver _ | OpSetCleanupConfig _ => r = RUnit /\ a' = a
  | OpCleanup => r = RUnit /\ exists d', a' = with_dbs a d' /\
      shrinks now (adbs a) d'
  | OpScan strategy cursor match_ count => exists L, L ≡ₚ map_to_list m /\
      r = RPage (scan_page strategy now match_ count L cursor) /\ a' = a
  | OpInfo go_memory => exists shards, a' = a /\
      r = RInfo (mkStorageInfo (Z.of_nat (size m)) (usage (adbs a)) (alimit a) (acur a) (Z.of_nat (size (adbs a))) go_memory shards)
  | OpDatabaseInfo => exists info, r = RDatabases info /\ a' = a /\
      forall db, match adbs a !! db with Some m => told now m (info !! db) | None => info !! db = None end
  end.

(** The operations of the code, with their replies. *)
Section Run.
  Context `{Hash : XXHash} `{Runtime : GoRuntime}.

Definition reply {A} (f : A -> Reply) (m : Mem A) : Mem Reply :=
  gtry m (fun a => gret (f a)) (fun e => gret (RErr e)).

Definition run_op (now : Z) (op : Op) : Mem Reply :=
  match op with
  | OpGet k => reply RVal (Get now k)
  | OpSet k v e => reply (fun _ => RUnit) (Set_ now k v e)
  | OpDel ks => reply RInt (Del ks)
  | OpExists ks => reply RInt (Exists now ks)
  | OpExpire k e => reply RBool (Expire now k e)
  | OpTTL k => reply RInt (TTL now k)
  | OpPTTL k => reply RInt (PTTL now k)
  | OpType k => reply RInt (Type_ now k)
  | OpKeys strategy pattern => reply RKeys (Keys strategy now pattern)
  | OpKeyCount => reply RInt KeyCount
  | OpFlushAll => reply (fun _ => RUnit) FlushAll
  | OpMemoryUsage => reply RInt MemoryUsage
  | OpSelectDB db => reply (fun _ => RUnit) (SelectDB db)
  | OpCurrentDB => reply RInt CurrentDB
  | OpSetMemoryLimit limit => reply (fun _ => RUnit) (SetMemoryLimit limit)
  | OpGetMemoryLimit => reply RInt GetMemoryLimit
  | OpEvictLRU count => reply RInt (EvictLRU count)
  | OpAddObserver o => reply (fun _ => RUnit) (AddObserver o)
  | OpSetCleanupConfig c => reply (fun _ => RUnit) (SetCleanupConfig c)
  | OpCleanup => reply (fun _ => RUnit) (performCleanup now)
  | OpScan strategy cursor match_ count => reply RPage (Scan strategy now cursor match_ count)
  | OpInfo go_memory => reply RInfo (Info go_memory)
  | OpDatabaseInfo => reply RDatabases (DatabaseInfo now)
  end.

(** The preconditions: a cleanup configuration the deletion loop can use, and a page
    of a scan that can be allocated. *)
Definition op_ok (op : Op) : Prop :=
  match op with
  | OpSetCleanupConfig c => valid_config c
  | OpScan _ _ _ count => 0 <= count /\ 16 * count <= maxAlloc
  | _ => True
  end.

Definition abstract (s : MemoryStorage) : AStore :=
  mkAStore (absDB s) (currentDB s) (memoryLimit s).

(** A run of operations, each at its time. *)
Fixpoint run_ops (ops : list (Z * Op)) : Mem (list Reply) :=
  match ops with
  | [] => gret []
  | (now, op) :: ops' =>
      let! r := run_op now op in
      let! rs := run_ops ops' in
      gret (r :: rs)
  end.

Inductive asteps : AStore -> list (Z * Op) -> list Reply -> AStore -> Prop :=
| asteps_nil a : asteps a [] [] a
| asteps_cons a now op r a' ops rs a'' :
    astep now a op r a' -> asteps a' ops rs a'' -> asteps a ((now, op) :: ops) (r :: rs) a''.

End Run.
