(* ===== verification/MemoryOps.v ===== *)
(** * Proofs about the storage operations

    Every operation on one key is one access to the shard of the key, so its
    effect on the abstract contents follows from [key_shard_ok]; the operations
    over many keys go through the loop rule [gfold_ok]. *)

From Stdlib Require Import ZArith Lia String.
From stdpp Require Import base list list_numbers gmap fin_maps sorting.
From S2P Require Import Prelude GoLib StorageTypes Matching Memory MemoryInv StoreSpec.

Section Ops.
  Context `{Hash : XXHash} `{Runtime : GoRuntime}.

(** What a read-only operation does. *)
Definition reads {A} (s : MemoryStorage) (m : Mem A) (r : A) : Prop :=
  exists s', m s = (Ok r, s') /\ evolves s s' (absDB s) [].

(** ** One key *)

Lemma evolves_keyHash s s' d evs k : evolves s s' d evs -> keyHash s' k = keyHash s k.
Proof.
  intros [_ C _ _]. apply config_fields in C as (_ & _ & E & _). unfold keyHash. by rewrite E.
Qed.

(** Runs the access to the shard of [k]. *)
Ltac shard_of s k :=
  let sh := fresh "sh" in let Hk := fresh "Hk" in let Hput := fresh "Hput" in
  let Hg := fresh "Hg" in
  destruct (key_shard_ok s k) as (sh & Hg & Hk & Hput); [done|];
  unfold gbind at 1; rewrite Hg, ?Hk.

Lemma delete_expired_ok now s k : wf s ->
  exists s', deleteExpiredKey now k s = (Ok tt, s') /\
    match current s !! k with
    | Some v => if IsExpired now v then
        evolves s s' (<[currentDB s := delete k (current s)]> (absDB s)) [OnKeyExpired k]
      else evolves s s' (absDB s) []
    | None => evolves s s' (absDB s) []
    end.
Proof.
  intros Hwf. unfold deleteExpiredKey. shard_of s k.
  destruct (current s !! k) as [v|]; [|by eexists; split; [|apply evolves_refl]].
  destruct (IsExpired now v); [|by eexists; split; [|apply evolves_refl]].
  destruct (Hput None) as (s1 & E1 & _ & Hn). destruct (Hn (OnKeyExpired k)) as (s2 & E2 & Hev).
  exists s2. split; [|done]. erewrite gbind_ok by done. done.
Qed.

Lemma Get_ok now s k : wf s ->
  exists s', Get now k s = (Ok (live now (current s) k ≫= string_of), s') /\
    match current s !! k with
    | Some v => if IsExpired now v then
        evolves s s' (<[currentDB s := delete k (current s)]> (absDB s)) [OnKeyExpired k]
      else evolves s s' (absDB s) [OnKeyAccessed k]
    | None => evolves s s' (absDB s) []
    end.
Proof.
  intros Hwf. unfold Get, live. shard_of s k.
  destruct (current s !! k) as [v|] eqn:Ev; [|by eexists; split; [|apply evolves_refl]].
  destruct (IsExpired now v) eqn:Ex.
  - destruct (delete_expired_ok now s k Hwf) as (s' & E & Hev). rewrite Ev, Ex in Hev.
    exists s'. split; [|done]. by erewrite gbind_ok by done.
  - destruct (notify_ok s (OnKeyAccessed k) Hwf) as (s' & E & Hev).
    exists s'. split; [|done]. by erewrite gbind_ok by done.
Qed.

Lemma Expire_ok now s k e : wf s ->
  exists r s', Expire now k e s = (Ok r, s') /\
    match live now (current s) k with
    | None => r = false /\ evolves s s' (absDB s) []
    | Some v => r = true /\ evolves s s' (<[currentDB s :=
        <[k := mkStored (SType v) (SData v) (Some e) (Version v)]> (current s)]> (absDB s)) []
    end.
Proof.
  intros Hwf. unfold Expire, live. shard_of s k.
  destruct (current s !! k) as [v|]; [|by do 2 eexists; split; [|split; [|apply evolves_refl]]].
  destruct (IsExpired now v); [by do 2 eexists; split; [|split; [|apply evolves_refl]]|].
  destruct (Hput (Some (mkStored (SType v) (SData v) (Some e) (Version v)))) as (s1 & E1 & Hev & _).
  exists true, s1. split; [|done]. by erewrite gbind_ok by done.
Qed.

Lemma TTL_ok now s k : wf s -> reads s (TTL now k) (ttl_reply Second now (current s) k).
Proof.
  intros Hwf. unfold reads, TTL, ttl_reply, live. shard_of s k.
  exists s. split; [|by apply evolves_refl].
  destruct (current s !! k) as [v|]; [|done]. destruct (IsExpired now v); [done|].
  by destruct (Expiry v).
Qed.

Lemma PTTL_ok now s k : wf s -> reads s (PTTL now k) (ttl_reply Millisecond now (current s) k).
Proof.
  intros Hwf. unfold reads, PTTL, ttl_reply, live. shard_of s k.
  exists s. split; [|by apply evolves_refl].
  destruct (current s !! k) as [v|]; [|done]. destruct (IsExpired now v); [done|].
  by destruct (Expiry v).
Qed.

Lemma Type_ok now s k : wf s -> reads s (Type_ now k)
  (match live now (current s) k with Some v => SType v | None => ValueTypeString end).
Proof.
  intros Hwf. unfold reads, Type_, live. shard_of s k.
  exists s. split; [|by apply evolves_refl].
  destruct (current s !! k) as [v|]; [|done]. by destruct (IsExpired now v).
Qed.

(** ** The shards as one database *)

Lemma contents_to_list n mask shs : wf_db n mask shs ->
  map_to_list (contents shs) ≡ₚ shs ≫= map_to_list.
Proof.
  intros [_ Hh]. change (forall i sh k, shs !! i = Some sh -> is_Some (sh !! k) ->
    hash_index mask k = (0 + i)%nat) in Hh. revert Hh. generalize 0%nat. unfold contents.
  induction shs as [|sh shs IH]; intros off Hh.
  - cbn. by rewrite map_to_list_empty.
  - cbn [mbind list_bind union_list foldr]. rewrite map_to_list_union.
    + apply Permutation_app_head, (IH (S off)). intros i sh' k Hi Hk.
      rewrite (Hh (S i) sh' k Hi Hk). lia.
    + apply map_disjoint_spec. intros k x y Hx Hy.
      pose proof (Hh 0%nat sh k eq_refl ltac:(eauto)) as H0.
      change (contents shs !! k = Some y) in Hy.
      rewrite union_list_None in Hy; [done|]. intros i sh' Hi.
      destruct (sh' !! k) eqn:Ek; [|done]. pose proof (Hh (S i) sh' k Hi ltac:(eauto)). lia.
Qed.

(** ** Queries

    A query only advances the entropy; [queries m P s] says that [m] answers
    on [s], and with what. *)

Definition quiet (s s' : MemoryStorage) : Prop := exists t, s' = set_entropy t s.

Definition queries {A} (m : Mem A) (P : A -> Prop) (s : MemoryStorage) : Prop :=
  exists a s', m s = (Ok a, s') /\ quiet s s' /\ P a.

Lemma quiet_refl s : quiet s s.
Proof. exists (entropy s). by destruct s. Qed.

Lemma quiet_trans s1 s2 s3 : quiet s1 s2 -> quiet s2 s3 -> quiet s1 s3.
Proof. intros [t ->] [t' ->]. by exists t'. Qed.

Lemma quiet_evolves s s' : wf s -> quiet s s' -> evolves s s' (absDB s) [].
Proof.
  intros Hwf [t ->]. destruct Hwf as [H1 H2 H3 H4 H5]. split; [by split|done..|].
  cbn. by rewrite app_nil_r.
Qed.

Lemma queries_bind {A B} (m : Mem A) (k : A -> Mem B) P Q s :
  queries m P s ->
  (forall a s', quiet s s' -> P a -> queries (k a) Q s') -> queries (gbind m k) Q s.
Proof.
  intros (a & s1 & E & Hq & HP) Hk. destruct (Hk a s1 Hq HP) as (b & s2 & E2 & Hq2 & HQ).
  exists b, s2. split; [by erewrite gbind_ok by done|]. split; [by eapply quiet_trans|done].
Qed.

Lemma queries_ret {A} (a : A) (P : A -> Prop) s : P a -> queries (gret a) P s.
Proof. intros HP. exists a, s. split; [done|]. split; [apply quiet_refl|done]. Qed.

Lemma queries_weaken {A} (m : Mem A) (P Q : A -> Prop) s :
  queries m P s -> (forall a, P a -> Q a) -> queries m Q s.
Proof. intros (a & s' & E & Hq & HP) H. exists a, s'. eauto. Qed.

Lemma queries_fold {A B} (P : list A -> B -> Prop) (f : B -> A -> Mem B) l b s :
  P [] b ->
  (forall pre a post b s1, l = pre ++ a :: post -> quiet s s1 -> P pre b ->
     queries (f b a) (P (pre ++ [a])) s1) ->
  queries (gfold f l b) (P l) s.
Proof.
  intros H0 Hstep.
  destruct (gfold_ok (fun pre b s1 => quiet s s1 /\ P pre b) f l b s) as (b' & s' & E & Hq & HP).
  - split; [apply quiet_refl|done].
  - intros pre a post b1 s1 El [Hq HP].
    destruct (Hstep pre a post b1 s1 El Hq HP) as (b2 & s2 & E & Hq2 & HP2).
    exists b2, s2. split; [done|]. split; [by eapply quiet_trans|done].
  - exists b', s'. eauto.
Qed.

Lemma queries_range {K A} `{Countable K} (m : gmap K A) s :
  queries (range_map m) (fun l => l ≡ₚ map_to_list m) s.
Proof. do 2 eexists. split; [done|]. split; [by eexists|]. apply map_iter_perm. Qed.

(** The loop over the shards of a database. *)
Lemma queries_shards {B} (P : list shard -> B -> Prop) (F : B -> shard -> Mem B) s s0 db shs b :
  wf s -> quiet s0 s -> databases s !! db = Some shs -> P [] b ->
  (forall pre sh post b s1, shs = pre ++ sh :: post -> quiet s s1 -> P pre b ->
     queries (F b sh) (P (pre ++ [sh])) s1) ->
  queries (gfold (fun b i => gbind (get_shard db i) (F b)) (shard_indices s0) b) (P shs) s.
Proof.
  intros Hwf [t Es] Hdb H0 Hstep.
  pose proof (wf_dbs s Hwf db shs Hdb) as [_ [Hl _]].
  assert (Ei : shard_indices s0 = shard_indices s) by (by subst). rewrite Ei.
  assert (Hlen : length (shard_indices s) = length shs).
  { unfold shard_indices. by rewrite length_seqZ. }
  eapply queries_weaken.
  - apply (queries_fold (fun idx b => P (take (length idx) shs) b)); [done|].
    intros pre i post b1 s1 El Hq HP.
    assert (Hi : i = Z.of_nat (length pre) /\ (length pre < length shs)%nat).
    { assert (Hp : shard_indices s !! length pre = Some i).
      { rewrite El, lookup_app_r, Nat.sub_diag by lia. done. }
      split; [|rewrite <- Hlen; by eapply lookup_lt_Some].
      apply lookup_seqZ in Hp. lia. }
    destruct Hi as [-> Hi].
    destruct (lookup_lt_is_Some_2 shs (length pre) Hi) as [sh Hsh].
    apply (queries_bind _ _ (fun x => x = sh)).
    + exists sh, s1. split; [|split; [apply quiet_refl|done]].
      destruct Hq as [t' ->]. unfold get_shard. cbn. rewrite Hdb.
      destruct (Z.ltb_spec (Z.of_nat (length pre)) 0); [lia|]. by rewrite Nat2Z.id, Hsh.
    + intros ? s2 Hq2 ->. rewrite length_app, Nat.add_1_r, (take_S_r _ _ _ Hsh).
      eapply Hstep; [|by eapply quiet_trans|done]. by symmetry; apply take_drop_middle.
  - intros b' HP. rewrite Hlen, firstn_all in HP. done.
Qed.

Lemma queries_reads {A} s (m : Mem A) r : wf s -> queries m (fun a => a = r) s -> reads s m r.
Proof.
  intros Hwf (a & s' & E & Hq & ->). exists s'. split; [done|]. by apply quiet_evolves.
Qed.

(** The selected database, in shards. *)
Lemma current_shards s : wf s -> exists shs, databases s !! currentDB s = Some shs /\
  current s = contents shs /\ map_to_list (current s) ≡ₚ shs ≫= map_to_list.
Proof.
  intros Hwf. destruct (wf_cur s Hwf) as [shs E]. exists shs. split; [done|].
  rewrite (current_contents _ _ E). split; [done|].
  pose proof (wf_dbs s Hwf _ _ E) as [_ Hd]. by eapply contents_to_list.
Qed.

(** ** Counting and listing *)

Lemma KeyCount_queries s : wf s -> queries KeyCount (fun c => c = Z.of_nat (size (current s))) s.
Proof.
  intros Hwf. destruct (current_shards s Hwf) as (shs & Hdb & _ & Hp). unfold KeyCount, gget, gbind at 1.
  eapply queries_weaken.
  - apply (queries_shards (fun pre c => c = Z.of_nat (length (pre ≫= map_to_list)))
      (fun c sh => gret (c + Z.of_nat (size sh))) s s (currentDB s) shs 0 Hwf (quiet_refl s) Hdb);
      [done|].
    intros pre sh post b s1 _ _ ->. apply queries_ret.
    rewrite bind_app, length_app. cbn. rewrite app_nil_r, length_map_to_list. lia.
  - intros a ->. by rewrite <- length_map_to_list, Hp.
Qed.

Lemma KeyCount_ok s : wf s -> reads s KeyCount (Z.of_nat (size (current s))).
Proof. intros Hwf. by apply queries_reads, KeyCount_queries. Qed.

Lemma foldl_snoc_filter {A B} (P : A -> Prop) `{!forall a, Decision (P a)} (f : A -> B) l acc :
  foldl (fun acc a => if decide (P a) then acc ++ [f a] else acc) acc l = acc ++ (f <$> filter P l).
Proof.
  revert acc. induction l as [|a l IH]; intros acc; cbn [foldl]; [cbn; by rewrite app_nil_r|].
  rewrite IH, filter_cons. case_decide; [|done]. cbn. by rewrite <- app_assoc.
Qed.

Lemma Keys_loop strategy now pattern entries (keys : list bytes) (s : MemoryStorage) :
  (if bool_decide (pattern = []) || bool_decide (pattern = [star]) then
      gfold (fun keys '(key, value) =>
        if IsExpired now value then gret keys else gret (keys ++ [key])) entries keys
    else
      gfold (fun keys '(key, value) =>
        if IsExpired now value then gret keys
        else if matchPattern strategy key pattern then gret (keys ++ [key])
        else gret keys) entries keys) s =
  (Ok (keys ++ (filter (listed strategy now pattern) entries).*1), s).
Proof.
  rewrite <- (foldl_snoc_filter (listed strategy now pattern) fst).
  case_bool_decide as H1; [|case_bool_decide as H2]; cbn [orb]; apply gfold_pure;
    intros b [k v] s'; unfold listed;
    (destruct (decide _) as [[Ha Hb]|Hn]; cbn in *;
     [rewrite Ha|destruct (IsExpired now v) eqn:E; [done|]]); try done.
  - exfalso. naive_solver.
  - exfalso. naive_solver.
  - destruct (matchPattern strategy k pattern); naive_solver.
  - destruct (matchPattern strategy k pattern); [|done]. exfalso. naive_solver.
Qed.

Lemma Keys_ok strategy now pattern s : wf s ->
  queries (Keys strategy now pattern)
    (fun ks => ks ≡ₚ (filter (listed strategy now pattern) (map_to_list (current s))).*1) s.
Proof.
  intros Hwf. destruct (current_shards s Hwf) as (shs & Hdb & _ & Hp).
  unfold Keys, gget, gbind at 1. eapply queries_weaken.
  - apply (queries_shards (fun pre ks =>
      ks ≡ₚ (filter (listed strategy now pattern) (pre ≫= map_to_list)).*1) _ s s (currentDB s) shs []
      Hwf (quiet_refl s) Hdb); [done|].
    intros pre sh post b s1 _ _ Hb. eapply queries_bind; [apply queries_range|].
    intros entries s2 _ He. eexists _, s2. split; [apply Keys_loop|]. split; [apply quiet_refl|].
    rewrite bind_app, filter_app, fmap_app, Hb. cbn. by rewrite app_nil_r, He.
  - intros ks Hks. by rewrite Hks, Hp.
Qed.

(** ** Memory usage *)

#[global] Instance sumZ_perm : Proper ((≡ₚ) ==> eq) sumZ.
Proof. intros l l' Hl. unfold sumZ. apply foldr_permutation_proper; [apply _|solve_proper| |done]. lia. Qed.

Lemma sumZ_nil : sumZ [] = 0.
Proof. done. Qed.

Lemma sumZ_cons x l : sumZ (x :: l) = x + sumZ l.
Proof. done. Qed.

Lemma sumZ_app l l' : sumZ (l ++ l') = sumZ l + sumZ l'.
Proof. unfold sumZ. induction l as [|x l IH]; cbn; lia. Qed.

End Ops.
