(* ===== verification/MemoryBulk.v ===== *)
(** * Proofs about the operations over many keys

    Memory accounting, [Exists] and [Del] by shard groups, eviction, flushing and
    selecting databases, and the cleanup of expired keys. *)

From Stdlib Require Import ZArith Lia String.
From stdpp Require Import base list list_numbers gmap fin_maps sorting.
From S2P Require Import Prelude GoLib StorageTypes Matching Memory MemoryInv StoreSpec MemoryOps.

Section Bulk.
  Context `{Hash : XXHash} `{Runtime : GoRuntime}.

(** ** Memory usage *)

Lemma entries_usage (entries : list (bytes * StoredValue)) (u : Z) (s : MemoryStorage) :
  gfold (fun usage '(key, value) =>
    gret (usage + Z.of_nat (length key) + calculateValueSize value)) entries u s =
  (Ok (u + sumZ ((fun '(k, v) => entry_size k v) <$> entries)), s).
Proof.
  rewrite (gfold_pure _ (fun u '(k, v) => u + entry_size k v)).
  - f_equal. f_equal. revert u. induction entries as [|[k v] l IH]; intros u; [unfold sumZ; cbn; lia|].
    cbn [foldl]. rewrite IH. rewrite fmap_cons, sumZ_cons. lia.
  - intros b [k v] s'. unfold gret, entry_size. do 2 f_equal. lia.
Qed.

Lemma MemoryUsage_ok s : wf s -> queries MemoryUsage (fun u => u = usage (absDB s)) s.
Proof.
  intros Hwf. unfold MemoryUsage, gget, gbind at 1. eapply queries_bind; [apply queries_range|].
  intros dbs s1 Hq Hp. eapply queries_weaken.
  - apply (queries_fold (fun pre u => u = sumZ ((fun '(_, shs) => db_usage (contents shs)) <$> pre)));
      [done|].
    intros pre [db shs] post u s2 El Hq2 ->.
    assert (Hdb : databases s !! db = Some shs).
    { apply elem_of_map_to_list. rewrite <- Hp, El. set_solver. }
    pose proof (quiet_trans _ _ _ Hq Hq2) as [t ->]. rewrite fmap_app, sumZ_app.
    eapply queries_weaken.
    + apply (queries_shards (fun pre' u => u = sumZ ((fun '(_, shs) => db_usage (contents shs)) <$> pre) +
        sumZ ((fun '(k, v) => entry_size k v) <$> (pre' ≫= map_to_list))) _ (set_entropy t s) s db shs).
      * by eapply ev_wf, quiet_evolves; [|by eexists].
      * by exists t; destruct s.
      * done.
      * cbn. unfold sumZ at 3. cbn. lia.
      * intros pre' sh post' u' s3 _ _ ->. eapply queries_bind; [apply queries_range|].
        intros entries s4 _ He. eexists _, s4. split; [apply entries_usage|].
        split; [apply quiet_refl|]. rewrite bind_app, fmap_app, sumZ_app. cbn.
        rewrite app_nil_r, He. lia.
    + intros u' ->. rewrite fmap_cons, sumZ_cons. cbn. rewrite sumZ_nil, Z.add_0_r. unfold db_usage at 3.
      pose proof (wf_dbs s Hwf _ _ Hdb) as [_ Hd]. by rewrite (contents_to_list _ _ _ Hd).
  - intros u ->. unfold usage, absDB. rewrite map_to_list_fmap, <- list_fmap_compose, Hp.
    f_equal. apply list_fmap_ext. by intros ? [??] _.
Qed.

(** ** Keys grouped by shard *)

Lemma grouped_flat (h : bytes -> Z) keys :
  (map_to_list (foldl (fun m key => <[h key := default [] (m !! h key) ++ [key]]> m) (∅ : gmap Z (list bytes)) keys)
     ≫= fun '(i, ks) => pair i <$> ks) ≡ₚ (fun k => (h k, k)) <$> keys.
Proof.
  induction keys as [|k keys IH] using rev_ind; [done|].
  rewrite foldl_snoc, fmap_app.
  set (m := foldl _ _ _) in *. destruct (m !! h k) as [l|] eqn:El.
  - rewrite <- insert_delete_eq, map_to_list_insert by apply lookup_delete_eq.
    rewrite <- (map_to_list_delete _ _ _ El) in IH. cbn in *.
    rewrite fmap_app. cbn. rewrite <- app_assoc, <- IH.
    rewrite <- app_assoc. apply Permutation_app_head, Permutation_app_comm.
  - rewrite map_to_list_insert by done. cbn. rewrite IH. by rewrite Permutation_app_comm.
Qed.

(** The pairs the two nested loops visit, for some order of the groups. *)
Lemma groups_flat s keys groups : groups ≡ₚ map_to_list (keysByShard s keys) ->
  (groups ≫= fun '(i, ks) => pair i <$> ks) ≡ₚ (fun k => (keyHash s k, k)) <$> keys.
Proof. intros ->. apply (grouped_flat (keyHash s)). Qed.

Lemma flat_home s keys flat pre i k post :
  flat ≡ₚ (fun k => (keyHash s k, k)) <$> keys -> flat = pre ++ (i, k) :: post -> i = keyHash s k.
Proof.
  intros Hp ->. assert (Hin : (i, k) ∈ (fun k => (keyHash s k, k)) <$> keys).
  { rewrite <- Hp. set_solver. }
  apply list_elem_of_fmap in Hin as (k' & [= -> ->] & _). done.
Qed.

Lemma live_count_snoc now m ks k :
  length (filter (fun k => is_Some (live now m k)) (ks ++ [k])) =
  (length (filter (fun k => is_Some (live now m k)) ks) +
   match m !! k with Some v => if IsExpired now v then 0 else 1 | None => 0 end)%nat.
Proof.
  rewrite filter_app, length_app, filter_cons, filter_nil. f_equal. unfold live.
  destruct (m !! k) as [v|]; [destruct (IsExpired now v)|];
    first [rewrite decide_True by eauto; done|rewrite decide_False by (by intros []); done].
Qed.

Lemma Exists_ok now s keys : wf s -> queries (Exists now keys)
  (fun n => n = Z.of_nat (length (filter (fun k => is_Some (live now (current s) k)) keys))) s.
Proof.
  intros Hwf. unfold Exists, gget, gbind at 1. eapply queries_bind; [apply queries_range|].
  intros groups s1 Hq Hg. apply groups_flat in Hg.
  assert (E : forall f : Z -> Z -> bytes -> Mem Z, forall b, queries
    (gfold (fun b '(i, k) => f i b k) (groups ≫= fun '(i, ks) => pair i <$> ks) b)
    (fun n => n = b + Z.of_nat (length (filter (fun k => is_Some (live now (current s) k)) keys))) s1 ->
    queries (gfold (fun b '(i, ks) => gfold (f i) ks b) groups b)
    (fun n => n = b + Z.of_nat (length (filter (fun k => is_Some (live now (current s) k)) keys))) s1).
  { intros f b (a & s' & E & H). exists a, s'. split; [|done]. by rewrite gfold_nested. }
  apply (E _ 0). clear E. eapply queries_weaken.
  - apply (queries_fold (fun pre n => n = Z.of_nat (length
      (filter (fun k => is_Some (live now (current s) k)) pre.*2)))); [done|].
    intros pre [i k] post n s2 El Hq2 ->. rewrite (flat_home _ _ _ _ _ _ _ Hg El).
    pose proof (quiet_trans _ _ _ Hq Hq2) as [t ->].
    assert (Hwf2 : wf (set_entropy t s)) by (by eapply ev_wf, quiet_evolves; [|by eexists]).
    destruct (get_shard_key _ _ _ k Hwf2 (current_lookup _ Hwf2)) as (sh & Eg & Ek & _).
    change (current (set_entropy t s)) with (current s) in Ek.
    apply (queries_bind _ _ (fun x => x = sh)).
    { exists sh, (set_entropy t s). split; [exact Eg|]. split; [apply quiet_refl|done]. }
    intros ? s3 _ ->. rewrite Ek, fmap_app. change ([(keyHash s k, k)].*2) with [k]. rewrite live_count_snoc.
    destruct (current s !! k) as [v|]; [destruct (IsExpired now v)|]; apply queries_ret; cbv beta iota; lia.
  - intros n ->. f_equal. rewrite Hg, <- list_fmap_compose. cbn. by rewrite list_fmap_id.
Qed.

(** ** Removing keys *)

Lemma without_lookup ks m k : without ks m !! k = if decide (k ∈ ks) then None else m !! k.
Proof.
  unfold without. case_decide as H.
  - apply map_lookup_filter_None. right. intros x _ Hn. by apply Hn.
  - destruct (m !! k) as [v|] eqn:E.
    + by apply map_lookup_filter_Some.
    + apply map_lookup_filter_None. by left.
Qed.

Lemma without_snoc ks k m : without (ks ++ [k]) m = delete k (without ks m).
Proof.
  apply map_eq. intros k'. rewrite without_lookup. destruct (decide (k' = k)) as [->|Hne].
  - rewrite lookup_delete_eq, decide_True; [done|set_solver].
  - rewrite lookup_delete_ne, without_lookup by done.
    case_decide; case_decide; try done; set_solver.
Qed.

Lemma without_nil m : without [] m = m.
Proof. apply map_eq. intros k. rewrite without_lookup, decide_False; [done|set_solver]. Qed.

Lemma without_equiv ks ks' m : (forall k, is_Some (m !! k) -> k ∈ ks <-> k ∈ ks') ->
  without ks m = without ks' m.
Proof.
  intros H. apply map_eq. intros k. rewrite !without_lookup.
  destruct (m !! k) as [v|] eqn:E; [|by repeat case_decide].
  specialize (H k ltac:(eauto)). repeat case_decide; done || naive_solver.
Qed.

(** Removing distinct keys of a map shrinks it by their number. *)
Lemma without_size ks m : NoDup ks -> (forall k, k ∈ ks -> is_Some (m !! k)) ->
  (size (without ks m) + length ks = size m)%nat.
Proof.
  induction ks as [|k ks IH] using rev_ind; intros Hnd Hin.
  - rewrite without_nil. cbn. lia.
  - apply stdpp.list_relations.list.NoDup_app in Hnd as (Hnd & Hx & _).
    rewrite without_snoc, map_size_delete, length_app. cbn.
    assert (E : without ks m !! k = m !! k).
    { rewrite without_lookup, decide_False; [done|]. intros Hk. specialize (Hx k Hk). set_solver. }
    rewrite E. destruct (Hin k) as [v ->]; [set_solver|].
    specialize (IH Hnd ltac:(set_solver)).
    assert (size (without ks m) <> 0%nat); [|lia].
    intros Hz%map_size_empty_inv. rewrite Hz, lookup_empty in E.
    destruct (Hin k) as [v' ?]; [set_solver|]. congruence.
Qed.

Lemma selected_size_filter (ks dl : list bytes) (m : gmap bytes StoredValue) : NoDup dl ->
  (forall k, k ∈ dl <-> k ∈ ks /\ is_Some (m !! k)) ->
  size (filter (fun kv : bytes * StoredValue => kv.1 ∈ ks) m) = length dl.
Proof.
  intros Hnd Hdl. rewrite <- length_map_to_list, <- (length_fmap fst).
  apply Permutation_length, NoDup_Permutation; [apply NoDup_fst_map_to_list|done|].
  intros k. rewrite Hdl, list_elem_of_fmap. split.
  - intros ([k' v] & -> & Hk). apply elem_of_map_to_list, map_lookup_filter_Some in Hk as [Hk Hin].
    eauto.
  - intros [Hin [v Hv]]. exists (k, v). split; [done|].
    by apply elem_of_map_to_list, map_lookup_filter_Some.
Qed.

(** One deletion of a present key, notified. *)
Lemma delete_notify s db m k ev : wf s -> absDB s !! db = Some m ->
  exists sh, get_shard db (keyHash s k) s = (Ok sh, s) /\ sh !! k = m !! k /\
    exists s1 s2, put_shard db (keyHash s k) (delete k sh) s = (Ok tt, s1) /\
      notify ev s1 = (Ok tt, s2) /\ evolves s s2 (<[db := delete k m]> (absDB s)) [ev].
Proof.
  intros Hwf Hdb. destruct (update_notify s db m k Hwf Hdb) as (sh & Hg & Hk & Hput).
  exists sh. split; [done|]. split; [done|].
  destruct (Hput None) as (s1 & E1 & _ & Hn). destruct (Hn ev) as (s2 & E2 & Hev). eauto 10.
Qed.

(** The state reached from [s] when the keys [ks] of database [db], which held
    [m], were removed and [evs] notified. *)
Definition removed (s s' : MemoryStorage) (db : Z) m ks evs : Prop :=
  evolves s s' (<[db := without ks m]> (absDB s)) evs.

Lemma removed_lookup s s' db m ks evs : removed s s' db m ks evs ->
  absDB s' !! db = Some (without ks m).
Proof. intros H. rewrite (ev_data _ _ _ _ H). apply lookup_insert_eq. Qed.

Lemma removed_nil s db m : wf s -> absDB s !! db = Some m -> removed s s db m [] [].
Proof.
  intros Hwf Hdb. unfold removed. rewrite without_nil, insert_id by done. by apply evolves_refl.
Qed.

Lemma removed_snoc s s1 s2 db m ks k ev evs : removed s s1 db m ks evs ->
  evolves s1 s2 (<[db := delete k (without ks m)]> (absDB s1)) [ev] ->
  removed s s2 db m (ks ++ [k]) (evs ++ [ev]).
Proof.
  intros H1 H2. unfold removed. rewrite without_snoc.
  rewrite (ev_data _ _ _ _ H1), insert_insert_eq in H2. by eapply evolves_trans.
Qed.

Lemma Del_ok s keys : wf s -> exists dl s',
  Del keys s = (Ok (Z.of_nat (length dl)), s') /\ NoDup dl /\
  (forall k, k ∈ dl <-> k ∈ keys /\ is_Some (current s !! k)) /\
  removed s s' (currentDB s) (current s) dl (OnKeyDeleted <$> dl).
Proof.
  intros Hwf. unfold Del, gget, gbind at 1.
  destruct (range_map_ok s (keysByShard s keys) Hwf) as (groups & s1 & Eg & Hg & Hev1).
  erewrite gbind_ok by exact Eg. apply groups_flat in Hg. rewrite gfold_nested.
  edestruct (gfold_ok (fun (pre : list (Z * bytes)) (n : Z) s2 => exists dl, n = Z.of_nat (length dl) /\ NoDup dl /\
    (forall k, k ∈ dl <-> k ∈ pre.*2 /\ is_Some (current s !! k)) /\
    removed s s2 (currentDB s) (current s) dl (OnKeyDeleted <$> dl)))
    as (n & s' & E & dl & -> & Hnd & Hdl & Hr).
  3: { exists dl, s'. split; [exact E|]. split; [done|]. split; [|done].
       intros k. rewrite Hdl, Hg, <- list_fmap_compose. cbn. by rewrite list_fmap_id. }
  { exists []. split; [done|]. split; [constructor|]. split; [cbn; set_solver|].
    unfold removed. rewrite without_nil, put_current_same by done. done. }
  intros pre [i k] post n s2 El (dl & -> & Hnd & Hdl & Hr).
  rewrite (flat_home _ _ _ _ _ _ _ Hg El). clear El.
  destruct (delete_notify s2 (currentDB s) _ k (OnKeyDeleted k) (ev_wf _ _ _ _ Hr)
    (removed_lookup _ _ _ _ _ _ Hr)) as (sh & E1 & Ek & s3 & s4 & E2 & E3 & Hev).
  rewrite (evolves_keyHash _ _ _ _ k Hr) in E1, E2. erewrite gbind_ok by exact E1.
  rewrite Ek, without_lookup. case_decide as Hin.
  - eexists _, s2. split; [done|]. exists dl. split; [done|]. split; [done|]. split; [|done].
    intros k'. rewrite Hdl, fmap_app. cbn. set_solver.
  - destruct (current s !! k) as [v|] eqn:Ev.
    + eexists _, s4. split; [by erewrite !gbind_ok by done|]. exists (dl ++ [k]).
      split; [rewrite length_app; cbn; lia|]. split; [|split].
      * apply stdpp.list_relations.list.NoDup_app. split; [done|]. split; [set_solver|]. apply NoDup_singleton.
      * intros k'. rewrite elem_of_app, Hdl, fmap_app. cbn. set_solver.
      * rewrite fmap_app. by eapply removed_snoc.
    + eexists _, s2. split; [done|]. exists dl. split; [done|]. split; [done|]. split; [|done].
      intros k'. rewrite Hdl, fmap_app. cbn. split; [set_solver|].
      intros [Hk' Hs]. split; [|done]. apply elem_of_app in Hk' as [?|Hk']; [done|].
      apply list_elem_of_singleton in Hk' as ->. rewrite Ev in Hs. by destruct Hs.
Qed.

End Bulk.
