(* ===== verification/MemoryEvict.v ===== *)
(** * Proofs about eviction, [Set] and the database map *)

From Stdlib Require Import ZArith Lia String.
From stdpp Require Import base list list_numbers gmap fin_maps sorting.
From S2P Require Import Prelude GoLib StorageTypes Matching Memory MemoryInv StoreSpec MemoryOps MemoryBulk.

Section Evict.
  Context `{Hash : XXHash} `{Runtime : GoRuntime}.

(** ** One shard by its index *)

Lemma shard_at s db m i : wf s -> absDB s !! db = Some m -> 0 <= i < shards s ->
  exists sh, get_shard db i s = (Ok sh, s) /\
    forall k, sh !! k = if decide (keyHash s k = i) then m !! k else None.
Proof.
  intros Hwf Hdb Hi. unfold absDB in Hdb. rewrite lookup_fmap in Hdb.
  destruct (databases s !! db) as [shs|] eqn:Es; [|done]. injection Hdb as <-.
  destruct (get_shard_ok s db shs i Hwf Es Hi) as (sh & Hsh & Hg). exists sh. split; [done|].
  pose proof (wf_dbs s Hwf db shs Es) as [_ Hd]. intros k. case_decide as Hk.
  - rewrite (contents_lookup _ _ _ k Hd), hash_index_keyHash, Hk, Hsh. done.
  - destruct (sh !! k) as [v|] eqn:Ev; [|done].
    pose proof (wf_home _ _ _ Hd _ _ k Hsh ltac:(eauto)) as Hh.
    rewrite hash_index_keyHash in Hh. pose proof (mask_range s k Hwf). lia.
Qed.

Lemma get_shard_quiet s s' db i sh : quiet s s' ->
  get_shard db i s = (Ok sh, s) -> get_shard db i s' = (Ok sh, s').
Proof.
  intros [t ->]. unfold get_shard. cbn. destruct (databases s !! db) as [shs|]; [|done].
  destruct (if i <? 0 then None else _); [|done]. by intros [= ->].
Qed.

Lemma quiet_wf s s' : wf s -> quiet s s' -> wf s'.
Proof. intros H Hq. by eapply ev_wf, quiet_evolves. Qed.

Lemma quiet_abs s s' : quiet s s' -> absDB s' = absDB s.
Proof. by intros [t ->]. Qed.

(** Deleting a key of shard [i] through the pointer to it. *)
Lemma delete_in_shard s db m i sh k ev : wf s -> absDB s !! db = Some m ->
  get_shard db i s = (Ok sh, s) -> keyHash s k = i ->
  exists s1 s2, put_shard db i (delete k sh) s = (Ok tt, s1) /\ notify ev s1 = (Ok tt, s2) /\
    evolves s s2 (<[db := delete k m]> (absDB s)) [ev].
Proof.
  intros Hwf Hdb Hg <-.
  destruct (delete_notify s db m k ev Hwf Hdb) as (sh' & Hg' & _ & H).
  rewrite Hg in Hg'. by injection Hg' as <-.
Qed.

(** ** Eviction *)

(** [s1] is reached from [s] by evicting the keys [vs] of the database [m]. *)
Definition evicting (s s1 : MemoryStorage) (db : Z) m (vs : list bytes) : Prop :=
  NoDup vs /\ (forall k, k ∈ vs -> is_Some (m !! k)) /\
  removed s s1 db m vs (OnKeyDeleted <$> vs).

Lemma removed_quiet s s1 s2 db m ks evs : removed s s1 db m ks evs -> quiet s1 s2 ->
  removed s s2 db m ks evs.
Proof.
  intros H Hq. pose proof (quiet_evolves _ _ (ev_wf _ _ _ _ H) Hq) as H2.
  unfold removed. rewrite (ev_data _ _ _ _ H) in H2. rewrite <- (app_nil_r evs).
  by eapply evolves_trans.
Qed.

Lemma evicting_snoc s s1 s2 db m vs k : evicting s s1 db m vs ->
  is_Some (without vs m !! k) ->
  evolves s1 s2 (<[db := delete k (without vs m)]> (absDB s1)) [OnKeyDeleted k] ->
  evicting s s2 db m (vs ++ [k]).
Proof.
  intros (Hnd & Hin & Hr) Hk Hev. rewrite without_lookup in Hk.
  case_decide as Hk'; [by destruct Hk|]. split; [|split].
  - apply stdpp.list_relations.list.NoDup_app. split; [done|]. split; [set_solver|]. apply NoDup_singleton.
  - intros k' [?|Hs]%elem_of_app; [by apply Hin|]. by apply list_elem_of_singleton in Hs as ->.
  - rewrite fmap_app. by eapply removed_snoc.
Qed.

Lemma evict_round_ok s db m count idx :
  forall s1 vs this, (forall i, i ∈ idx -> 0 <= i < shards s) -> evicting s s1 db m vs ->
  exists new s2 fl,
    evict_round db count idx (Z.of_nat (length vs)) this s1 =
      (Ok (Z.of_nat (length (vs ++ new)), this + Z.of_nat (length new), fl), s2) /\
    evicting s s2 db m (vs ++ new) /\
    Z.of_nat (length (vs ++ new)) <= Z.max count (Z.of_nat (length vs)) /\
    (fl = true -> count <= Z.of_nat (length (vs ++ new))) /\
    (new = [] -> Z.of_nat (length vs) < count ->
       forall k, keyHash s k ∈ idx -> without vs m !! k = None).
Proof.
  induction idx as [|i idx IH]; intros s1 vs this Hidx Hev; cbn [evict_round].
  { exists [], s1, false. rewrite app_nil_r. cbn. rewrite Z.add_0_r.
    split; [done|]. split; [done|]. split; [lia|]. split; [done|]. intros; set_solver. }
  destruct (Z.ltb_spec (Z.of_nat (length vs)) count) as [Hlt|Hge].
  2: { exists [], s1, false. rewrite app_nil_r. cbn. rewrite Z.add_0_r.
       split; [done|]. split; [done|]. split; [lia|]. split; [done|]. lia. }
  assert (Hwf1 : wf s1) by apply Hev. destruct Hev as (Hnd & Hin & Hr).
  assert (Hc : config_of s1 = config_of s) by apply Hr.
  destruct (shard_at s1 db _ i Hwf1 (removed_lookup _ _ _ _ _ _ Hr)) as (sh & Hg & Hsh).
  { apply config_fields in Hc as (_ & -> & _). apply Hidx. set_solver. }
  erewrite gbind_ok by exact Hg.
  destruct (queries_range sh s1) as (entries & s2 & He & Hq & Hp).
  erewrite gbind_ok by exact He. pose proof (removed_quiet _ _ _ _ _ _ _ Hr Hq) as Hr2.
  destruct entries as [|[k v] entries].
  - destruct (IH s2 vs this) as (new & s3 & fl & E & H1 & H2 & H3 & H4);
      [set_solver|by split|].
    exists new, s3, fl. do 4 (split; [done|]). intros Hn Hl k [Hk|Hk]%elem_of_cons; [|by apply H4].
    specialize (Hsh k). rewrite (evolves_keyHash _ _ _ _ k Hr), decide_True in Hsh by done.
    rewrite <- Hsh. apply Permutation_nil, map_to_list_empty_iff in Hp.
    by rewrite Hp.
  - assert (Hkv : sh !! k = Some v) by (apply elem_of_map_to_list; rewrite <- Hp; set_solver).
    pose proof (Hsh k) as Hk. rewrite Hkv in Hk. case_decide as Hi; [|done].
    destruct (delete_in_shard s2 db (without vs m) i sh k (OnKeyDeleted k))
      as (s3 & s4 & E3 & E4 & Hev4).
    { by eapply quiet_wf. }
    { by eapply removed_lookup. }
    { by eapply get_shard_quiet. }
    { destruct Hq as [t ->]. done. }
    erewrite gbind_ok by exact E3. erewrite gbind_ok by exact E4.
    pose proof (evicting_snoc s s2 s4 db m vs k ltac:(by split) ltac:(rewrite <- Hk; eauto) Hev4) as Hev5.
    assert (El : Z.of_nat (length vs) + 1 = Z.of_nat (length (vs ++ [k])))
      by (rewrite length_app; cbn; lia).
    destruct (Z.leb_spec count (Z.of_nat (length vs) + 1)) as [Hle|Hnle].
    + exists [k], s4, true. rewrite <- El. split; [done|]. split; [done|].
      split; [lia|]. split; [lia|]. done.
    + rewrite El. destruct (IH s4 (vs ++ [k]) (this + 1)) as (new & s5 & fl & E & H1 & H2 & H3 & H4);
        [set_solver|done|].
      exists (k :: new), s5, fl. rewrite <- app_assoc in *. cbn [app] in *.
      rewrite E. cbn [length]. rewrite (Nat2Z.inj_succ (length new)), <- Z.add_1_l, Z.add_assoc.
      split; [done|]. split; [done|]. split; [lia|]. split; [done|]. done.
Qed.

Lemma evict_rounds_ok s m count fuel :
  forall s1 vs, wf s -> evicting s s1 (currentDB s) m vs -> count - Z.of_nat (length vs) <= Z.of_nat fuel ->
  exists vs' s2, evict_rounds (S fuel) count (Z.of_nat (length vs)) s1 = (Ok (Z.of_nat (length vs')), s2) /\
    evicting s s2 (currentDB s) m vs' /\
    Z.of_nat (length vs') = Z.max (Z.of_nat (length vs)) (Z.min count (Z.of_nat (size m))).
Proof.
  induction fuel as [|fuel IH]; intros s1 vs Hwf Hev Hf;
    pose proof (without_size vs m ltac:(apply Hev) ltac:(apply Hev)) as Hsz;
    cbn [evict_rounds]; destruct (Z.ltb_spec (Z.of_nat (length vs)) count) as [Hlt|Hge];
    try (exists vs, s1; split; [done|]; split; [done|]; lia); [lia|].
  assert (Hc : config_of s1 = config_of s) by (destruct Hev as (_ & _ & H); apply H).
  apply config_fields in Hc as (Hcd & Hcs & _).
  unfold gget, gbind at 1. rewrite Hcd.
  destruct (evict_round_ok s (currentDB s) m count (shard_indices s1) s1 vs 0)
    as (new & s2 & fl & E & Hev2 & Hle & Hfl & Hemp); [|done|].
  { intros i. unfold shard_indices. rewrite Hcs, elem_of_seqZ. lia. }
  erewrite gbind_ok by exact E. rewrite Z.add_0_l.
  pose proof (without_size (vs ++ new) m ltac:(apply Hev2) ltac:(apply Hev2)) as Hsz2.
  destruct new as [|k new].
  - rewrite app_nil_r in *. cbn [length Z.of_nat]. rewrite Z.eqb_refl, orb_true_r.
    exists vs, s2. split; [done|]. split; [done|].
    assert (Hz : without vs m = ∅).
    { apply map_empty. intros k. apply Hemp; [done..|]. unfold shard_indices.
      rewrite Hcs, elem_of_seqZ. pose proof (mask_range s k Hwf). lia. }
    rewrite Hz, map_size_empty in Hsz. lia.
  - destruct (Z.eqb_spec (Z.of_nat (length (k :: new))) 0) as [|_]; [cbn in *; lia|].
    rewrite orb_false_r. rewrite length_app in Hle. cbn [length] in Hle. destruct fl.
    + exists (vs ++ k :: new), s2. specialize (Hfl eq_refl). rewrite length_app in *. cbn [length] in *.
      split; [done|]. split; [done|]. lia.
    + destruct (IH s2 (vs ++ k :: new) Hwf Hev2) as (vs' & s3 & E3 & Hev3 & Hl3).
      { rewrite length_app. cbn [length]. lia. }
      exists vs', s3. split; [done|]. split; [done|]. rewrite length_app in *. cbn [length] in *. lia.
Qed.

Lemma evictLRU_ok s count : wf s -> exists vs s',
  evictLRU count s = (Ok (Z.of_nat (length vs)), s') /\
  evicting s s' (currentDB s) (current s) vs /\
  Z.of_nat (length vs) = Z.min (Z.max 0 count) (Z.of_nat (size (current s))).
Proof.
  intros Hwf. unfold evictLRU.
  destruct (evict_rounds_ok s (current s) count (Z.to_nat count) s []) as (vs & s' & E & Hev & Hl);
    [done| |cbn; lia|].
  - split; [constructor|]. split; [set_solver|]. by apply removed_nil, current_lookup.
  - exists vs, s'. split; [done|]. split; [done|]. cbn in Hl. lia.
Qed.

(** ** Set *)

Lemma Set_ok now s k v e : wf s ->
  let m1 := <[k := mkStored ValueTypeString (StringValue v) e now]> (current s) in
  let d1 := <[currentDB s := m1]> (absDB s) in
  exists s', Set_ now k v e s = (Ok tt, s') /\
    if (0 <? memoryLimit s) && (memoryLimit s <? usage d1) then
      exists victim, is_Some (m1 !! victim) /\
        evolves s s' (<[currentDB s := delete victim m1]> (absDB s)) [OnKeySet k v; OnKeyDeleted victim]
    else evolves s s' d1 [OnKeySet k v].
Proof.
  intros Hwf m1 d1. unfold Set_, gget, gbind at 1.
  destruct (key_shard_ok s k Hwf) as (sh & Hg & Hk & Hput). erewrite gbind_ok by exact Hg.
  destruct (Hput (Some (mkStored ValueTypeString (StringValue v) e now))) as (s1 & E1 & _ & Hn).
  destruct (Hn (OnKeySet k v)) as (s2 & E2 & Hev).
  change (partial_alter _ k (current s)) with m1 in Hev.
  erewrite gbind_ok by exact E1. erewrite gbind_ok by exact E2.
  destruct (Z.ltb_spec 0 (memoryLimit s)) as [Hl|Hl]; cbn [andb]; [|by exists s2].
  destruct (MemoryUsage_ok s2 (ev_wf _ _ _ _ Hev)) as (u & s3 & E3 & Hq & ->).
  erewrite gbind_ok by exact E3. rewrite (ev_data _ _ _ _ Hev).
  assert (Hev3 : evolves s s3 d1 [OnKeySet k v]).
  { pose proof (quiet_evolves _ _ (ev_wf _ _ _ _ Hev) Hq) as H3.
    rewrite (ev_data _ _ _ _ Hev) in H3. by apply (evolves_trans _ _ _ _ _ _ [] Hev). }
  fold d1. destruct (memoryLimit s <? usage d1); [|by exists s3].
  destruct (evictLRU_ok s3 1 (ev_wf _ _ _ _ Hev3)) as (vs & s4 & E4 & (_ & Hin & Hr) & Hlen).
  erewrite gbind_ok by exact E4. exists s4. split; [done|].
  destruct (config_fields _ _ (ev_config _ _ _ _ Hev3)) as (Hcd & _).
  assert (Hcur : current s3 = m1).
  { unfold current. rewrite (ev_data _ _ _ _ Hev3), Hcd. unfold d1. by rewrite lookup_insert_eq. }
  rewrite Hcur in *. assert (Hsz : size m1 <> 0%nat).
  { intros Hz%map_size_empty_inv. apply (f_equal (.!! k)) in Hz.
    unfold m1 in Hz. by rewrite lookup_insert_eq, lookup_empty in Hz. }
  destruct vs as [|victim [|]]; cbn in Hlen; [lia| |lia].
  exists victim. split; [apply Hin; set_solver|].
  unfold removed in Hr. rewrite (ev_data _ _ _ _ Hev3), Hcd in Hr. unfold d1 in Hr.
  rewrite insert_insert_eq in Hr. change [victim] with ([] ++ [victim]) in Hr.
  rewrite without_snoc, without_nil in Hr. by apply (evolves_trans _ _ _ _ _ _ _ Hev3 Hr).
Qed.

(** ** Creating and clearing databases *)

Lemma new_database_ok s : wf s ->
  new_database s = (Ok (replicate (Z.to_nat (shards s)) ∅), s).
Proof.
  intros Hwf. unfold new_database, newShardedDatabase. pose proof (shards_pos s Hwf).
  pose proof (wf_cap s Hwf). by zbool || (destruct (Z.ltb_spec (shards s) 0), (Z.ltb_spec maxAlloc (32 * shards s)); cbn; done || lia).
Qed.

Lemma contents_fresh n : contents (replicate n ∅) = ∅.
Proof.
  apply map_empty. intros k. apply union_list_None. intros i sh Hi.
  apply lookup_replicate in Hi as [-> _]. apply lookup_empty.
Qed.

Lemma wf_db_fresh n mask : 0 <= n -> wf_db n mask (replicate (Z.to_nat n) ∅).
Proof.
  intros Hn. split; [by rewrite length_replicate|].
  intros i sh k Hi [v Hv]. apply lookup_replicate in Hi as [-> _]. by rewrite lookup_empty in Hv.
Qed.

(** Installing a fresh database. *)
Lemma fresh_ok s db : wf s -> 0 <= db <= 15 ->
  evolves s (set_databases (<[db := replicate (Z.to_nat (shards s)) ∅]> (databases s)) s)
    (<[db := ∅]> (absDB s)) [].
Proof.
  intros Hwf Hdb. pose proof (shards_pos s Hwf). split; [split|done| |].
  - apply Hwf.
  - apply Hwf.
  - cbn. apply lookup_insert_is_Some'. right. apply Hwf.
  - cbn. apply map_Forall_insert_2; [|apply Hwf]. split; [done|]. apply wf_db_fresh. lia.
  - apply Hwf.
  - unfold absDB. cbn. by rewrite fmap_insert, contents_fresh.
  - cbn. by rewrite app_nil_r.
Qed.

Lemma FlushAll_ok s : wf s -> exists s', FlushAll s = (Ok tt, s') /\
  evolves s s' ((fun _ => ∅) <$> absDB s) [].
Proof.
  intros Hwf. unfold FlushAll, gget, gbind at 1.
  destruct (queries_range (databases s) s) as (dbs & s1 & E1 & Hq & Hp).
  erewrite gbind_ok by exact E1. unfold gfor.
  edestruct (gfold_ok (fun (pre : list (Z * shardedDatabase)) (_ : unit) s2 =>
    evolves s s2 (absDB s2) [] /\ forall db, absDB s2 !! db =
      if decide (db ∈ pre.*1) then Some ∅ else absDB s !! db)) as (u & s2 & E2 & Hev & Hd).
  3: { exists s2. destruct u. split; [exact E2|]. replace ((fun _ => ∅) <$> absDB s) with (absDB s2); [done|].
       apply map_eq. intros db. rewrite Hd, lookup_fmap. unfold absDB. rewrite lookup_fmap.
       case_decide as Hin.
       - rewrite Hp, list_elem_of_fmap in Hin. destruct Hin as ([? shs] & -> & Hin).
         apply elem_of_map_to_list in Hin. cbn. by rewrite Hin.
       - destruct (databases s !! db) as [shs|] eqn:Es; [|done]. contradict Hin.
         rewrite Hp, list_elem_of_fmap. exists (db, shs). split; [done|]. by apply elem_of_map_to_list. }
  { pose proof (quiet_evolves _ _ Hwf Hq) as H1. rewrite (quiet_abs _ _ Hq).
    split; [done|]. intros db. rewrite decide_False; [done|set_solver]. }
  intros pre [db shs] post [] s2 El [Hev Hd].
  erewrite gbind_ok by (apply new_database_ok, Hev).
  assert (Hdb : 0 <= db <= 15).
  { assert (Hin : databases s !! db = Some shs) by (apply elem_of_map_to_list; rewrite <- Hp, El; set_solver).
    by apply (wf_dbs s Hwf) in Hin as [? _]. }
  pose proof (fresh_ok s2 db ltac:(apply Hev) Hdb) as Hf. eexists tt, _. split; [done|].
  rewrite (ev_data _ _ _ _ Hf). split; [by apply (evolves_trans _ _ _ _ _ [] [] Hev)|].
  intros db'. rewrite fmap_app. cbn. destruct (decide (db' = db)) as [->|Hne].
  - rewrite lookup_insert_eq, decide_True; [done|set_solver].
  - rewrite lookup_insert_ne, Hd by done. repeat case_decide; set_solver.
Qed.

Lemma SelectDB_ok s db : wf s -> 0 <= db <= 15 -> exists s', SelectDB db s = (Ok tt, s') /\
  wf s' /\ currentDB s' = db /\ config_of s' = set_currentDB db (config_of s) /\ events s' = events s /\
  absDB s' = partial_alter (fun o => Some (default ∅ o)) db (absDB s).
Proof.
  intros Hwf Hdb. unfold SelectDB.
  destruct (Z.ltb_spec db 0), (Z.ltb_spec 15 db); try lia. cbn [orb]. unfold gget, gbind.
  assert (Hsel : forall s1 d, evolves s s1 d [] -> is_Some (databases s1 !! db) ->
    wf (set_currentDB db s1) /\ config_of (set_currentDB db s1) = set_currentDB db (config_of s) /\
    events (set_currentDB db s1) = events s).
  { intros s1 d [[H1 H2 H3 H4 H5] Hc _ He] Hs. split; [by split|]. split.
    - rewrite <- Hc. done.
    - cbn. rewrite He. cbn. by rewrite app_nil_r. }
  destruct (databases s !! db) as [shs|] eqn:Es.
  - eexists. split; [done|]. destruct (Hsel s _ (evolves_refl s Hwf) ltac:(eauto)) as (A & B & C).
    do 4 (split; [done|]). change (absDB (set_currentDB db s)) with (absDB s).
    apply map_eq. intros j. destruct (decide (j = db)) as [->|Hj];
      [|by rewrite lookup_partial_alter_ne by done].
    by rewrite lookup_partial_alter_eq, (absDB_lookup _ _ _ Es).
  - rewrite new_database_ok by done.
    pose proof (fresh_ok s db Hwf Hdb) as Hf. eexists. split; [done|].
    destruct (Hsel _ _ Hf) as (A & B & C); [cbn; rewrite lookup_insert_eq; eauto|].
    do 4 (split; [done|]). transitivity (<[db := ∅]> (absDB s)); [apply (ev_data _ _ _ _ Hf)|].
    apply map_eq. intros j. destruct (decide (j = db)) as [->|Hj].
    + rewrite lookup_insert_eq, lookup_partial_alter_eq. unfold absDB. by rewrite lookup_fmap, Es.
    + by rewrite lookup_insert_ne, lookup_partial_alter_ne by done.
Qed.

End Evict.
