(* ===== verification/MemoryCleanup.v ===== *)
(** * Proofs about the cleanup of expired keys

    A cleanup cycle never hangs or panics under a valid configuration, removes
    expired keys only, and removes all of them when the shards are no larger
    than the sample. *)

From Stdlib Require Import ZArith Lia String.
From stdpp Require Import base list list_numbers gmap fin_maps sorting.
From S2P Require Import Prelude GoLib StorageTypes Matching Memory MemoryInv StoreSpec MemoryOps MemoryBulk MemoryEvict.

Section Cleanup.
  Context `{Hash : XXHash} `{Runtime : GoRuntime}.

(** A key that is stored and expired. *)
Definition dead (now : Z) (m : gmap bytes StoredValue) (k : bytes) : Prop :=
  exists v, m !! k = Some v /\ IsExpired now v = true.

Lemma dead_without now ks m k : dead now (without ks m) k <-> dead now m k /\ k ∉ ks.
Proof.
  unfold dead. setoid_rewrite without_lookup. case_decide; naive_solver.
Qed.

Lemma without_app ks ks' m : without (ks ++ ks') m = without ks' (without ks m).
Proof.
  apply map_eq. intros k. rewrite !without_lookup. repeat case_decide; try done; set_solver.
Qed.

(** The keys [ks] of [m] expired and were removed. *)
Definition expiring (now : Z) (s s' : MemoryStorage) (db : Z) m (ks : list bytes) : Prop :=
  NoDup ks /\ (forall k, k ∈ ks -> dead now m k) /\ removed s s' db m ks (OnKeyExpired <$> ks).

Lemma expiring_trans now s s1 s2 db m ks ks' : expiring now s s1 db m ks ->
  expiring now s1 s2 db (without ks m) ks' -> expiring now s s2 db m (ks ++ ks').
Proof.
  intros (N1 & D1 & R1) (N2 & D2 & R2). split; [|split].
  - apply stdpp.list_relations.list.NoDup_app. split; [done|]. split; [|done].
    intros k Hk Hk'. apply D2, dead_without in Hk' as [_ ?]. done.
  - intros k [Hk|Hk]%elem_of_app; [by apply D1|]. by apply D2, dead_without in Hk as [? _].
  - unfold removed in *. rewrite fmap_app, without_app.
    rewrite (ev_data _ _ _ _ R1), insert_insert_eq in R2. by eapply evolves_trans.
Qed.

Lemma expiring_nil now s db m : wf s -> absDB s !! db = Some m -> expiring now s s db m [].
Proof. intros Hwf Hdb. split; [constructor|]. split; [set_solver|]. by apply removed_nil. Qed.

Lemma expiring_quiet now s s1 db m : wf s -> absDB s !! db = Some m -> quiet s s1 ->
  expiring now s s1 db m [].
Proof.
  intros Hwf Hdb Hq. split; [constructor|]. split; [set_solver|].
  eapply removed_quiet; [|done]. by apply removed_nil.
Qed.

Lemma expiring_wf now s s' db m ks : expiring now s s' db m ks -> wf s'.
Proof. intros (_ & _ & H). apply H. Qed.

Lemma expiring_lookup now s s' db m ks : expiring now s s' db m ks ->
  absDB s' !! db = Some (without ks m).
Proof. intros (_ & _ & H). by eapply removed_lookup. Qed.

Lemma expiring_keyHash now s s' db m ks k : expiring now s s' db m ks -> keyHash s' k = keyHash s k.
Proof. intros (_ & _ & H). by eapply evolves_keyHash. Qed.

Lemma expiring_config now s s' db m ks : expiring now s s' db m ks -> config_of s' = config_of s.
Proof. intros (_ & _ & H). apply H. Qed.

(** ** Deleting a batch *)

Lemma deleteKeyBatch_ok now s db m i keys : wf s -> absDB s !! db = Some m -> 0 <= i < shards s ->
  exists ks s', deleteKeyBatchInShard now db i keys s = (Ok tt, s') /\ expiring now s s' db m ks /\
    (forall k, k ∈ ks <-> k ∈ keys /\ keyHash s k = i /\ dead now m k).
Proof.
  intros Hwf Hdb Hi. unfold deleteKeyBatchInShard, gfor.
  edestruct (gfold_ok (fun (pre : list bytes) (_ : unit) s1 => exists ks, expiring now s s1 db m ks /\
    (forall k, k ∈ ks <-> k ∈ pre /\ keyHash s k = i /\ dead now m k)))
    as ([] & s' & E & ks & H & Hks); [| |by eauto].
  { exists []. split; [by apply expiring_nil|]. set_solver. }
  intros pre k post [] s1 _ (ks & Hex & Hks). pose proof (expiring_wf _ _ _ _ _ _ Hex) as Hwf1.
  pose proof (expiring_lookup _ _ _ _ _ _ Hex) as Hdb1.
  destruct (config_fields _ _ (expiring_config _ _ _ _ _ _ Hex)) as (_ & Hsh & _).
  destruct (shard_at s1 db _ i Hwf1 Hdb1) as (sh & Hg & Hlk); [by rewrite Hsh|].
  erewrite gbind_ok by exact Hg. rewrite (Hlk k).
  assert (Hsame : ~ (keyHash s k = i /\ dead now (without ks m) k) ->
    expiring now s s1 db m ks /\ forall k', k' ∈ ks <-> k' ∈ pre ++ [k] /\ keyHash s k' = i /\ dead now m k').
  { intros Hn. split; [done|]. intros k'. rewrite Hks, elem_of_app, list_elem_of_singleton.
    split; [naive_solver|]. intros [[?| ->] [? ?]]; [naive_solver|].
    destruct (decide (k ∈ ks)) as [Hin|Hin]; [by apply Hks in Hin|].
    destruct Hn. split; [done|]. by apply dead_without. }
  rewrite (expiring_keyHash _ _ _ _ _ _ k Hex).
  destruct (decide (keyHash s k = i)) as [Hk|Hk];
    [|eexists tt, s1; split; [done|]; exists ks; apply Hsame; naive_solver].
  destruct (without ks m !! k) as [v|] eqn:Ev;
    [|eexists tt, s1; split; [done|]; exists ks; apply Hsame; intros [_ (v & ? & _)]; congruence].
  destruct (IsExpired now v) eqn:Ex;
    [|eexists tt, s1; split; [done|]; exists ks; apply Hsame; intros [_ (v' & ? & ?)]; congruence].
  destruct (delete_in_shard s1 db _ i sh k (OnKeyExpired k) Hwf1 Hdb1 Hg) as (s2 & s3 & E2 & E3 & Hev).
  { by rewrite (expiring_keyHash _ _ _ _ _ _ k Hex). }
  exists tt, s3. split; [by erewrite gbind_ok by exact E2|].
  assert (Hd : dead now (without ks m) k) by (by exists v).
  exists (ks ++ [k]). split.
  - apply (expiring_trans _ _ _ _ _ _ _ _ Hex). split; [apply NoDup_singleton|]. split.
    + intros ? ->%list_elem_of_singleton. done.
    + unfold removed. change [k] with ([] ++ [k]). by rewrite without_snoc, without_nil.
  - intros k'. apply dead_without in Hd as [Hd _].
    rewrite !elem_of_app, Hks, list_elem_of_singleton. naive_solver.
Qed.

(** ** All batches *)

Lemma delete_batches_ok now db i keys b : 0 < b -> forall fuel s m k,
  wf s -> absDB s !! db = Some m -> 0 <= i < shards s -> (length keys - k <= fuel)%nat ->
  exists ks s', delete_batches fuel now db i keys b (Z.of_nat k) s = (Ok tt, s') /\
    expiring now s s' db m ks /\
    (forall x, x ∈ ks <-> x ∈ drop k keys /\ keyHash s x = i /\ dead now m x).
Proof.
  intros Hb. induction fuel as [|fuel IH]; intros s m k Hwf Hdb Hi Hf; cbn [delete_batches];
    destruct (Z.ltb_spec (Z.of_nat k) (Z.of_nat (length keys))) as [Hlt|Hge]; [lia| | |];
    try (exists [], s; split; [done|]; split; [by apply expiring_nil|];
         intros x; rewrite drop_ge by lia; set_solver).
  set (end_ := if Z.of_nat (length keys) <? Z.of_nat k + b then _ else _).
  assert (He : end_ = Z.min (Z.of_nat (length keys)) (Z.of_nat k + b)).
  { unfold end_. destruct (Z.ltb_spec (Z.of_nat (length keys)) (Z.of_nat k + b)); lia. }
  destruct (Z.ltb_spec end_ (Z.of_nat k)), (Z.ltb_spec (Z.of_nat k) 0); try lia. cbn [orb].
  rewrite Nat2Z.id.
  destruct (deleteKeyBatch_ok now s db m i (take (Z.to_nat (end_ - Z.of_nat k)) (drop k keys)) Hwf Hdb Hi)
    as (ks & s1 & E & Hex & Hks).
  erewrite gbind_ok by exact E.
  destruct (config_fields _ _ (expiring_config _ _ _ _ _ _ Hex)) as (_ & Hsh & _).
  replace (Z.of_nat k + b) with (Z.of_nat (k + Z.to_nat b)) by lia.
  destruct (IH s1 (without ks m) (k + Z.to_nat b)%nat) as (ks' & s2 & E2 & Hex2 & Hks2).
  { by eapply expiring_wf. } { by eapply expiring_lookup. } { by rewrite Hsh. } { lia. }
  exists (ks ++ ks'), s2. split; [done|]. split; [by eapply expiring_trans|].
  intros x. rewrite elem_of_app, Hks, Hks2, dead_without.
  rewrite (expiring_keyHash _ _ _ _ _ _ x Hex).
  assert (Hd : x ∈ drop k keys <-> x ∈ take (Z.to_nat (end_ - Z.of_nat k)) (drop k keys) \/
    x ∈ drop (k + Z.to_nat b) keys).
  { rewrite <- (take_drop (Z.to_nat (end_ - Z.of_nat k)) (drop k keys)) at 1.
    rewrite elem_of_app, drop_drop. destruct (Z.le_gt_cases (Z.of_nat k + b) (Z.of_nat (length keys))).
    - replace (k + Z.to_nat (end_ - Z.of_nat k))%nat with (k + Z.to_nat b)%nat by lia. done.
    - rewrite (drop_ge keys (k + Z.to_nat (end_ - _))), (drop_ge keys (k + Z.to_nat b)) by lia. done. }
  rewrite Hd, Hks. destruct (decide (x ∈ take (Z.to_nat (end_ - Z.of_nat k)) (drop k keys))); naive_solver.
Qed.

(** ** Sampling *)

Lemma reservoir_ok actual entries i sampled s :
  queries (reservoir actual entries i sampled) (fun _ => True) s.
Proof.
  revert i sampled s. induction entries as [|[k v] l IH]; intros i sampled s; cbn [reservoir].
  - by apply queries_ret.
  - destruct (i <? actual); [apply IH|].
    apply (queries_bind _ _ (fun _ => True)); [|intros j s' _ _; destruct (j <? actual); apply IH].
    do 2 eexists. split; [done|]. split; [by eexists|done].
Qed.

(** The part of [m] that shard [i] holds. *)
Definition shard_part (s : MemoryStorage) (i : Z) (m : gmap bytes StoredValue) : gmap bytes StoredValue :=
  filter (fun kv => keyHash s kv.1 = i) m.

Lemma shard_part_lookup s i m k :
  shard_part s i m !! k = if decide (keyHash s k = i) then m !! k else None.
Proof.
  unfold shard_part. case_decide as H.
  - destruct (m !! k) as [v|] eqn:E; [by apply map_lookup_filter_Some|].
    apply map_lookup_filter_None. by left.
  - apply map_lookup_filter_None. by right.
Qed.

Lemma sample_ok now s db m i n : wf s -> absDB s !! db = Some m -> 0 <= i < shards s -> 0 <= n ->
  queries (sampleAndFindExpiredInShard now db i n)
    (fun ks => Z.of_nat (size (shard_part s i m)) <= n ->
       forall k, keyHash s k = i -> dead now m k -> k ∈ ks) s.
Proof.
  intros Hwf Hdb Hi Hn. destruct (shard_at s db m i Hwf Hdb Hi) as (sh & Hg & Hlk).
  assert (Hsh : sh = shard_part s i m).
  { apply map_eq. intros k. by rewrite shard_part_lookup. }
  unfold sampleAndFindExpiredInShard. apply (queries_bind _ _ (fun x => x = sh)).
  { exists sh, s. split; [done|]. split; [apply quiet_refl|done]. }
  intros ? s1 Hq ->. rewrite <- Hsh.
  assert (Hin : forall k, keyHash s k = i -> dead now m k -> expired_in now sh k = true /\ is_Some (sh !! k)).
  { intros k Hk (v & Hv & Hx). unfold expired_in. rewrite Hlk, decide_True, Hv by done. eauto. }
  case_bool_decide as Hz.
  { apply queries_ret. intros _ k Hk Hd. destruct (Hin k Hk Hd) as [_ [v Hv]].
    apply map_size_empty_inv in Hz. by rewrite Hz, lookup_empty in Hv. }
  destruct (Z.ltb_spec (Z.of_nat (size sh)) n) as [Hlt|Hge].
  - destruct (Z.ltb_spec (Z.of_nat (size sh)) 0); [lia|]. rewrite Z.leb_refl.
    eapply queries_bind; [apply queries_range|]. intros entries s2 _ Hp.
    apply (queries_bind _ _ (fun x => x = entries.*1)); [by apply queries_ret|].
    intros ? s3 _ ->. apply queries_ret. intros _ k Hk Hd. destruct (Hin k Hk Hd) as [He [v Hv]].
    apply list_elem_of_filter. split; [done|]. apply list_elem_of_fmap. exists (k, v).
    split; [done|]. rewrite Hp. by apply elem_of_map_to_list.
  - destruct (Z.ltb_spec n 0); [lia|]. eapply queries_bind; [apply queries_range|].
    intros entries s2 _ Hp.
    apply (queries_bind _ _ (fun x => Z.of_nat (size sh) <= n -> x = entries.*1)).
    + destruct (Z.leb_spec (Z.of_nat (size sh)) n); [by apply queries_ret|].
      eapply queries_weaken; [apply reservoir_ok|]. intros; lia.
    + intros ks s3 _ Hks. apply queries_ret. intros Hle k Hk Hd. destruct (Hin k Hk Hd) as [He [v Hv]].
      rewrite Hks by done.
      apply list_elem_of_filter. split; [done|]. apply list_elem_of_fmap. exists (k, v).
      split; [done|]. rewrite Hp. by apply elem_of_map_to_list.
Qed.

(** ** Rounds, shards, databases *)

Lemma cleanup_rounds_ok now db i config rounds : valid_config config -> forall s m,
  wf s -> absDB s !! db = Some m -> 0 <= i < shards s ->
  exists ks s', cleanup_rounds rounds now db i config s = (Ok tt, s') /\ expiring now s s' db m ks /\
    (forall k, k ∈ ks -> keyHash s k = i) /\
    (rounds <> O -> Z.of_nat (size (shard_part s i m)) <= SampleSize config ->
     forall k, keyHash s k = i -> dead now m k -> k ∈ ks).
Proof.
  intros [Hn Hb]. induction rounds as [|rounds IH]; intros s m Hwf Hdb Hi; cbn [cleanup_rounds].
  { exists [], s. split; [done|]. split; [by apply expiring_nil|]. split; [set_solver|done]. }
  destruct (sample_ok now s db m i (SampleSize config) Hwf Hdb Hi Hn) as (keys & s1 & E1 & Hq & Hall).
  erewrite gbind_ok by exact E1. pose proof (expiring_quiet now s s1 db m Hwf Hdb Hq) as Hex1.
  case_bool_decide as Hz.
  { subst keys. exists [], s1. split; [done|]. split; [done|]. split; [set_solver|]. intros _. done. }
  assert (Hs1 : shards s1 = shards s) by (by destruct Hq as [t ->]).
  assert (Hk1 : forall k, keyHash s1 k = keyHash s k) by (by destruct Hq as [t ->]).
  unfold deleteExpiredKeysInShardBatched.
  destruct (delete_batches_ok now db i keys (BatchSize config) Hb (length keys) s1 m 0)
    as (ks & s2 & E2 & Hex2 & Hks); [by eapply quiet_wf|by rewrite (quiet_abs _ _ Hq)|by rewrite Hs1|lia|].
  change (Z.of_nat 0) with 0 in E2. erewrite gbind_ok by exact E2.
  assert (Hex : expiring now s s2 db m ks).
  { change ks with ([] ++ ks). eapply expiring_trans; [done|]. by rewrite without_nil. }
  setoid_rewrite Hk1 in Hks. rewrite drop_0 in Hks.
  assert (Hdone : Z.of_nat (size (shard_part s i m)) <= SampleSize config ->
    forall k, keyHash s k = i -> dead now m k -> k ∈ ks).
  { intros Hle k Hk Hd. apply Hks. auto. }
  match goal with |- context [float_ltb ?a ?b] => destruct (float_ltb a b) end.
  { exists ks, s2. split; [done|]. split; [done|]. split; [|done]. intros k Hk. by apply Hks. }
  destruct (config_fields _ _ (expiring_config _ _ _ _ _ _ Hex)) as (_ & Hs2 & _).
  destruct (IH s2 (without ks m)) as (ks' & s3 & E3 & Hex3 & Hh & _);
    [by eapply expiring_wf|by eapply expiring_lookup|by rewrite Hs2|].
  exists (ks ++ ks'), s3. split; [done|]. split; [by eapply expiring_trans|]. split.
  - intros k [Hk|Hk]%elem_of_app; [by apply Hks|]. apply Hh in Hk.
    by rewrite (expiring_keyHash _ _ _ _ _ _ k Hex) in Hk.
  - intros _ Hle k Hk Hd. apply elem_of_app. left. auto.
Qed.

Lemma shard_part_without s i ks m :
  (size (shard_part s i (without ks m)) <= size (shard_part s i m))%nat.
Proof.
  apply map_subseteq_size, map_subseteq_spec. intros k v.
  rewrite !shard_part_lookup, without_lookup. repeat case_decide; done.
Qed.

(** Every shard of the database is at most as large as the sample. *)
Definition small_shards (s : MemoryStorage) (m : gmap bytes StoredValue) (n : Z) : Prop :=
  forall i, Z.of_nat (size (shard_part s i m)) <= n.

Lemma cleanupDatabase_ok now s db m config : valid_config config ->
  wf s -> absDB s !! db = Some m ->
  exists ks s', cleanupDatabase now db config s = (Ok tt, s') /\ expiring now s s' db m ks /\
    (1 <= MaxRounds config -> small_shards s m (SampleSize config) -> forall k, dead now m k -> k ∈ ks).
Proof.
  intros Hc Hwf Hdb. unfold cleanupDatabase, gget, gbind at 1, gfor.
  edestruct (gfold_ok (fun (pre : list Z) (_ : unit) s1 => exists ks, expiring now s s1 db m ks /\
    (1 <= MaxRounds config -> small_shards s m (SampleSize config) ->
     forall k, keyHash s k ∈ pre -> dead now m k -> k ∈ ks))) as ([] & s' & E & ks & H & Hks).
  3: { exists ks, s'. split; [exact E|]. split; [done|]. intros Hr Hsm k. apply Hks; [done..|].
       unfold shard_indices. rewrite elem_of_seqZ. pose proof (mask_range s k Hwf). lia. }
  { exists []. split; [by apply expiring_nil|]. set_solver. }
  intros pre i post [] s1 El (ks & Hex & Hks).
  assert (Hi : 0 <= i < shards s).
  { assert (Hin : i ∈ shard_indices s) by (rewrite El; set_solver).
    unfold shard_indices in Hin. rewrite elem_of_seqZ in Hin. lia. }
  destruct (config_fields _ _ (expiring_config _ _ _ _ _ _ Hex)) as (_ & Hs1 & _).
  unfold cleanupShard.
  destruct (cleanup_rounds_ok now db i config (Z.to_nat (MaxRounds config)) Hc s1 (without ks m))
    as (ks' & s2 & E2 & Hex2 & _ & Hall);
    [by eapply expiring_wf|by eapply expiring_lookup|by rewrite Hs1|].
  exists tt, s2. split; [done|]. exists (ks ++ ks'). split; [by eapply expiring_trans|].
  intros Hr Hsm k Hk Hd. apply elem_of_app. destruct (decide (k ∈ ks)) as [|Hn]; [by left|].
  apply elem_of_app in Hk as [Hk|Hk]; [left; auto|]. apply list_elem_of_singleton in Hk.
  right. apply Hall; [lia| | |by apply dead_without].
  - etrans; [|apply (Hsm i)]. apply inj_le. etrans; [|apply (shard_part_without s i ks m)].
    apply Nat.eq_le_incl. f_equal. apply map_eq. intros k'. rewrite !shard_part_lookup.
    by rewrite (expiring_keyHash _ _ _ _ _ _ k' Hex).
  - by rewrite (expiring_keyHash _ _ _ _ _ _ k Hex).
Qed.

Definition live_part (now : Z) (m : gmap bytes StoredValue) : gmap bytes StoredValue :=
  filter (fun kv => IsExpired now kv.2 = false) m.

Lemma without_shrinks now m ks : (forall k, k ∈ ks -> dead now m k) ->
  without ks m ⊆ m /\ forall k v, m !! k = Some v -> IsExpired now v = false -> without ks m !! k = Some v.
Proof.
  intros Hks. split.
  - apply map_subseteq_spec. intros k v. rewrite without_lookup. by case_decide.
  - intros k v Hk Hl. rewrite without_lookup, decide_False; [done|].
    intros (v' & Hv & Hx)%Hks. congruence.
Qed.

Lemma without_live now m ks : (forall k, k ∈ ks -> dead now m k) -> (forall k, dead now m k -> k ∈ ks) ->
  without ks m = live_part now m.
Proof.
  intros H1 H2. apply map_eq. intros k. rewrite without_lookup. unfold live_part. symmetry.
  case_decide as Hk.
  - destruct (H1 k Hk) as (v & Hv & Hx). apply map_lookup_filter_None. right. intros v' Hv'. cbn. congruence.
  - destruct (m !! k) as [v|] eqn:E; [|apply map_lookup_filter_None; by left].
    apply map_lookup_filter_Some. split; [done|]. cbn.
    destruct (IsExpired now v) eqn:Ex; [|done]. destruct Hk. apply H2. by exists v.
Qed.

Lemma performCleanup_ok now s : wf s -> exists s' gone,
  performCleanup now s = (Ok tt, s') /\ evolves s s' (absDB s') (OnKeyExpired <$> gone) /\
  shrinks now (absDB s) (absDB s') /\
  (1 <= MaxRounds (cleanupConfig s) ->
   (forall db m, absDB s !! db = Some m -> small_shards s m (SampleSize (cleanupConfig s))) ->
   absDB s' = live_part now <$> absDB s).
Proof.
  intros Hwf. unfold performCleanup, GetCleanupConfig, gget.
  erewrite gbind_ok by (by erewrite gbind_ok by done). unfold gbind at 1.
  destruct (queries_range (databases s) s) as (dbs & s1 & E1 & Hq & Hp).
  erewrite gbind_ok by exact E1. unfold gfor.
  set (ok := 1 <= MaxRounds (cleanupConfig s) /\
    forall db m, absDB s !! db = Some m -> small_shards s m (SampleSize (cleanupConfig s))).
  assert (Hnd : NoDup dbs.*1) by (rewrite Hp; apply NoDup_fst_map_to_list).
  edestruct (gfold_ok (fun (pre : list (Z * shardedDatabase)) (_ : unit) s2 => exists gone,
    evolves s s2 (absDB s2) (OnKeyExpired <$> gone) /\ shrinks now (absDB s) (absDB s2) /\
    (forall db, db ∉ pre.*1 -> absDB s2 !! db = absDB s !! db) /\
    (ok -> forall db, db ∈ pre.*1 -> absDB s2 !! db = live_part now <$> absDB s !! db)))
    as ([] & s2 & E2 & gone & Hev & Hsh & _ & Hall).
  3: { exists s2, gone. split; [exact E2|]. split; [done|]. split; [done|].
       intros Hr Hsm. apply map_eq. intros db. rewrite lookup_fmap.
       destruct (databases s !! db) as [shs|] eqn:Es.
       - apply Hall; [done|]. rewrite Hp, list_elem_of_fmap. exists (db, shs). split; [done|].
         by apply elem_of_map_to_list.
       - unfold absDB at 2. rewrite lookup_fmap, Es. cbn.
         destruct (absDB s2 !! db) eqn:Ex; [|done].
         destruct (proj1 (proj1 Hsh db) ltac:(eauto)) as [? Hx].
         unfold absDB in Hx. by rewrite lookup_fmap, Es in Hx. }
  { exists []. rewrite (quiet_abs _ _ Hq). split; [by apply quiet_evolves|]. split; [|set_solver].
    split; [done|]. intros db m0 m1 H1 H2. assert (m0 = m1) by congruence. by subst. }
  intros pre [db shs] post [] s2 El (gone & Hev & Hsh & Hrest & Hall).
  assert (Hdb : absDB s !! db = Some (contents shs)).
  { apply absDB_lookup, elem_of_map_to_list. rewrite <- Hp, El. set_solver. }
  assert (Hpre : db ∉ pre.*1).
  { rewrite El, fmap_app in Hnd. apply stdpp.list_relations.list.NoDup_app in Hnd as (_ & Hd & _).
    intros Hin. apply (Hd db Hin). cbn. set_solver. }
  set (m := contents shs) in *.
  assert (Hdb2 : absDB s2 !! db = Some m) by (by rewrite Hrest).
  destruct (cleanupDatabase_ok now s2 db m (cleanupConfig s)) as (ks & s3 & E3 & Hex & Hks);
    [apply Hwf|apply Hev|done|].
  destruct Hex as (Hn & Hd & Hr). exists tt, s3. split; [done|].
  exists (gone ++ ks). pose proof (ev_data _ _ _ _ Hr) as Hdata.
  split; [|split; [|split]].
  - rewrite fmap_app. eapply evolves_trans; [done|]. rewrite Hdata. done.
  - destruct Hsh as [Hs1 Hs2]. split.
    + intros db'. rewrite Hdata. destruct (decide (db' = db)) as [->|Hne].
      * rewrite lookup_insert_eq, Hdb. split; eauto.
      * by rewrite lookup_insert_ne.
    + intros db' m0 m1 H0 H1. rewrite Hdata in H1. destruct (decide (db' = db)) as [->|Hne].
      * rewrite lookup_insert_eq in H1. injection H1 as <-.
        assert (m0 = m) as -> by congruence. by apply without_shrinks.
      * rewrite lookup_insert_ne in H1 by done. by eapply Hs2.
  - intros db' Hn'. rewrite fmap_app in Hn'. rewrite Hdata, lookup_insert_ne by (cbn in Hn'; set_solver).
    apply Hrest. set_solver.
  - intros Hok db' Hin. rewrite fmap_app in Hin. rewrite Hdata.
    destruct (decide (db' = db)) as [->|Hne].
    + rewrite lookup_insert_eq, Hdb. cbn. f_equal. apply without_live; [done|].
      apply Hks; [apply Hok|]. intros i. destruct Hok as [_ Hok]. specialize (Hok db m Hdb i).
      etrans; [|exact Hok]. apply inj_le, Nat.eq_le_incl. f_equal. apply map_eq. intros k.
      rewrite !shard_part_lookup. by rewrite (evolves_keyHash _ _ _ _ k Hev).
    + rewrite lookup_insert_ne by done. apply Hall; [done|]. cbn in Hin. set_solver.
Qed.

End Cleanup.
