(* ===== verification/MemoryScan.v ===== *)
(** * Construction and cursor iteration

    The shard count is the least power of two not below the request; a new
    storage satisfies the invariant. [Scan] is described by a pure page function
    over the entries in visiting order. *)

From Stdlib Require Import ZArith Lia String.
From stdpp Require Import base list list_numbers gmap fin_maps sorting.
From S2P Require Import Prelude GoLib StorageTypes Matching Memory MemoryInv StoreSpec MemoryOps.
From S2P Require Import MemoryBulk MemoryEvict.

(** ** The next power of two *)

(** Bit [i] of [y] is set when one of the [w] bits of [x] from [i] up is. *)
Definition covers (x w y : Z) : Prop :=
  forall i, 0 <= i -> Z.testbit y i = true <-> exists j, 0 <= j < w /\ Z.testbit x (i + j) = true.

Lemma covers_start x : covers x 1 x.
Proof.
  intros i Hi. split.
  - intros H. exists 0. by rewrite Z.add_0_r.
  - intros (j & Hj & H). by assert (j = 0) as -> by lia; rewrite Z.add_0_r in H.
Qed.

Lemma covers_double x w y : 0 < w -> covers x w y -> covers x (2 * w) (Z.lor y (Z.shiftr y w)).
Proof.
  unfold covers. intros Hw H i Hi.
  rewrite Z.lor_spec, Z.shiftr_spec, orb_true_iff, (H i), (H (i + w)) by lia. split.
  - intros [(j & Hj & Hb)|(j & Hj & Hb)]; [exists j|exists (w + j)]; split; try lia; [done|].
    by rewrite Z.add_assoc.
  - intros (j & Hj & Hb). destruct (Z.lt_ge_cases j w).
    + left. exists j. split; [lia|done].
    + right. exists (j - w). split; [lia|]. by replace (i + w + (j - w)) with (i + j) by lia.
Qed.

Lemma covers_ones x y : 0 < x < 2 ^ 63 -> 0 <= y -> covers x 64 y -> y = Z.ones (Z.log2 x + 1).
Proof.
  intros Hx Hy H. apply Z.bits_inj'. intros i Hi.
  assert (Hl : 0 <= Z.log2 x < 63) by (split; [apply Z.log2_nonneg|apply Z.log2_lt_pow2; lia]).
  unfold covers in H. apply eq_true_iff_eq. rewrite (H i) by done. destruct (Z.lt_ge_cases i (Z.log2 x + 1)).
  - rewrite Z.ones_spec_low by lia. split; [done|]. intros _. exists (Z.log2 x - i).
    split; [lia|]. replace (i + (Z.log2 x - i)) with (Z.log2 x) by lia. apply Z.bit_log2; lia.
  - rewrite Z.ones_spec_high by lia. split; [|done]. intros (j & Hj & Hb).
    rewrite Z.bits_above_log2 in Hb by lia. done.
Qed.

Lemma nextPowerOf2_bits n : 2 <= n <= maxInt64 ->
  nextPowerOf2 n = wrap64 (2 ^ (Z.log2 (n - 1) + 1)).
Proof.
  unfold maxInt64. intros Hn. unfold nextPowerOf2. destruct (Z.leb_spec n 1); [lia|].
  set (x := n - 1). cbn zeta.
  pose proof (covers_double x 1 _ eq_refl (covers_start x)) as H1. cbn [Z.mul Pos.mul] in H1.
  pose proof (covers_double x 2 _ eq_refl H1) as H2. cbn [Z.mul Pos.mul] in H2.
  pose proof (covers_double x 4 _ eq_refl H2) as H3. cbn [Z.mul Pos.mul] in H3.
  pose proof (covers_double x 8 _ eq_refl H3) as H4. cbn [Z.mul Pos.mul] in H4.
  pose proof (covers_double x 16 _ eq_refl H4) as H5. cbn [Z.mul Pos.mul] in H5.
  pose proof (covers_double x 32 _ eq_refl H5) as H6. cbn [Z.mul Pos.mul] in H6.
  apply covers_ones in H6; [|subst x; lia|].
  - rewrite H6, Z.ones_equiv. f_equal. lia.
  - repeat first [apply Z.lor_nonneg; split | apply Z.shiftr_nonneg]; subst x; lia.
Qed.

Lemma nextPowerOf2_log2_up n : 1 <= n <= 2 ^ 62 -> nextPowerOf2 n = 2 ^ Z.log2_up n.
Proof.
  intros Hn. destruct (Z.eq_dec n 1) as [->|Hne]; [done|].
  rewrite nextPowerOf2_bits by (unfold maxInt64; lia).
  unfold Z.log2_up. destruct (Z.compare_spec 1 n); try lia. rewrite Z.add_1_r, <- Z.sub_1_r.
  apply wrap64_id. unfold in_int64, minInt64, maxInt64.
  assert (Hl : Z.succ (Z.log2 (n - 1)) <= 62).
  { assert (Z.log2 (n - 1) < 62); [|lia]. apply Z.log2_lt_pow2; lia. }
  pose proof (Z.pow_le_mono_r 2 (Z.succ (Z.log2 (n - 1))) 62 ltac:(lia) Hl).
  pose proof (Z.pow_nonneg 2 (Z.succ (Z.log2 (n - 1))) ltac:(lia)). lia.
Qed.

Lemma nextPowerOf2_overflow n : 2 ^ 62 < n <= maxInt64 -> nextPowerOf2 n = minInt64.
Proof.
  unfold maxInt64. intros Hn. rewrite nextPowerOf2_bits by (unfold maxInt64; lia).
  replace (Z.log2 (n - 1)) with 62; [done|]. symmetry. apply Z.log2_unique; lia.
Qed.

(** ** Construction *)

Section New.
  Context `{Hash : XXHash} `{Runtime : GoRuntime}.

Lemma NewMemory_from n s0 : 0 <= n <= 43 ->
  s0 = set_sharding (2 ^ n) (2 ^ n - 1) NewMemory_base ->
  exists s, NewMemory [fun _ => s0] = Ok s /\ wf s /\
    abstract s = mkAStore {[0 := ∅]} 0 0 /\ shards s = 2 ^ n /\ events s = [].
Proof.
  intros Hn ->. unfold NewMemory. cbn [foldl]. unfold newShardedDatabase. cbn [shards set_sharding].
  pose proof (Z.pow_le_mono_r 2 n 43 ltac:(lia) ltac:(lia)) as Hp.
  pose proof (Z.pow_pos_nonneg 2 n ltac:(lia) ltac:(lia)) as Hpos.
  assert (Hcap : 32 * 2 ^ n <= maxAlloc) by (change maxAlloc with (32 * 2 ^ 43); lia).
  destruct (Z.ltb_spec (2 ^ n) 0); [lia|]. destruct (Z.ltb_spec maxAlloc (32 * 2 ^ n)); [lia|].
  cbn [orb]. eexists. split; [done|]. split; [split|split; [|done]].
  - exists n. cbn. rewrite Z.ones_equiv. split; [lia|]. split; [done|lia].
  - done.
  - cbn. rewrite lookup_insert_eq. eauto.
  - cbn. apply map_Forall_insert_2; [|apply map_Forall_empty]. split; [lia|]. apply wf_db_fresh. lia.
  - cbn. split; cbn; lia.
  - unfold abstract, absDB. cbn. by rewrite fmap_insert, fmap_empty, contents_fresh.
Qed.

Lemma NewMemory_default : exists s, NewMemory [] = Ok s /\ wf s /\
  abstract s = mkAStore {[0 := ∅]} 0 0 /\ shards s = 64 /\ events s = [].
Proof. by apply (NewMemory_from 6 NewMemory_base). Qed.

Lemma NewMemory_sharded count : 0 < count <= 2 ^ 43 -> exists s, NewMemory [WithShardCount count] = Ok s /\
  wf s /\ abstract s = mkAStore {[0 := ∅]} 0 0 /\ shards s = 2 ^ Z.log2_up count /\ events s = [].
Proof.
  intros Hc. assert (Hl : 0 <= Z.log2_up count <= 43).
  { split; [apply Z.log2_up_nonneg|]. rewrite <- (Z.log2_up_pow2 43) by lia. apply Z.log2_up_le_mono. lia. }
  pose proof (Z.pow_le_mono_r 2 _ 43 ltac:(lia) (proj2 Hl)).
  pose proof (Z.pow_pos_nonneg 2 (Z.log2_up count) ltac:(lia) (proj1 Hl)).
  destruct (NewMemory_from (Z.log2_up count) (WithShardCount count NewMemory_base) Hl) as (s & E & Hs).
  - unfold WithShardCount. destruct (Z.ltb_spec 0 count); [|lia].
    rewrite nextPowerOf2_log2_up by lia. unfold wrapU64. by rewrite Z.mod_small by lia.
  - exists s. split; [|done]. rewrite <- E. done.
Qed.

(** ** Scan as pages over the visiting order *)

Section Pages.
  Context (strategy now : Z) (match_ : bytes) (count : Z).

Abbreviation page_size := (page_size count).
Abbreviation scan_page := (scan_page strategy now match_ count).

Lemma scan_entries_app cursor l1 l2 i keys :
  scan_entries strategy now cursor match_ count (l1 ++ l2) i keys =
  match scan_entries strategy now cursor match_ count l1 i keys with
  | inl r => inl r
  | inr (i', keys') => scan_entries strategy now cursor match_ count l2 i' keys'
  end.
Proof.
  revert i keys. induction l1 as [|[k v] l1 IH]; intros i keys; [done|]. cbn [app scan_entries].
  destruct (i <? cursor); [done|]. destruct (IsExpired now v); [done|]. destruct (_ && _); [done|].
  cbn zeta. destruct (_ <=? _); done.
Qed.

Lemma scan_entries_skip cursor L i : i <= cursor -> (Z.to_nat (cursor - i) <= length L)%nat ->
  scan_entries strategy now cursor match_ count L i [] =
  scan_entries strategy now cursor match_ count (drop (Z.to_nat (cursor - i)) L) cursor [].
Proof.
  revert i. induction L as [|[k v] L IH]; intros i Hi Hl.
  - cbn in Hl. assert (i = cursor) as -> by lia. by rewrite drop_nil.
  - destruct (Z.eq_dec i cursor) as [->|Hne]; [by rewrite Z.sub_diag|].
    cbn [scan_entries]. destruct (Z.ltb_spec i cursor); [|lia].
    cbn [length] in Hl. rewrite IH by lia.
    by replace (Z.to_nat (cursor - i)) with (S (Z.to_nat (cursor - (i + 1)))) by lia.
Qed.

Lemma scan_entries_short cursor L i : i + Z.of_nat (length L) <= cursor ->
  scan_entries strategy now cursor match_ count L i [] = inr (i + Z.of_nat (length L), []).
Proof.
  revert i. induction L as [|[k v] L IH]; intros i Hl; cbn [scan_entries length] in *.
  - by rewrite Z.add_0_r.
  - destruct (Z.ltb_spec i cursor); [|lia]. rewrite IH by lia. do 2 f_equal. lia.
Qed.

Lemma scan_entries_collect cursor L i keys : cursor <= i -> (length keys < page_size)%nat ->
  let m := (filter (scanned strategy now match_) L).*1 in
  let n := (page_size - length keys)%nat in
  scan_entries strategy now cursor match_ count L i keys =
  if decide (n <= length m)%nat then inl (i + Z.of_nat n, keys ++ take n m)
  else inr (i + Z.of_nat (length m), keys ++ m).
Proof.
  revert i keys. induction L as [|[k v] L IH]; intros i keys Hi Hk.
  - cbn. rewrite decide_False by lia. by rewrite Z.add_0_r, app_nil_r.
  - cbn [scan_entries]. destruct (Z.ltb_spec i cursor); [lia|]. cbn zeta. rewrite filter_cons.
    assert (Hs : scanned strategy now match_ (k, v) <-> (IsExpired now v = false /\
      negb (bool_decide (match_ = [])) && negb (matchPattern strategy k match_) = false)).
    { unfold scanned. cbn. rewrite andb_false_iff, !negb_false_iff, bool_decide_eq_true. done. }
    destruct (IsExpired now v); [rewrite !(decide_False (P := scanned _ _ _ _)) by (intros Hx%Hs; naive_solver); by apply IH|].
    destruct (_ && _); [rewrite !(decide_False (P := scanned _ _ _ _)) by (intros Hx%Hs; naive_solver); by apply IH|].
    rewrite !(decide_True (P := scanned _ _ _ _)) by (by apply Hs). rewrite fmap_cons. cbn [length fst].
    rewrite length_app. cbn [length].
    destruct (Z.leb_spec count (Z.of_nat (length keys + 1))) as [Hle|Hgt].
    + assert (page_size - length keys = 1)%nat as -> by (unfold StoreSpec.page_size in *; lia).
      rewrite decide_True by lia. done.
    + rewrite IH; [|lia|rewrite length_app; cbn; unfold StoreSpec.page_size in *; lia]. cbn zeta.
      rewrite length_app. cbn [length].
      replace (page_size - length keys)%nat with (S (page_size - (length keys + 1)))
        by (unfold StoreSpec.page_size in *; lia).
      set (n := (page_size - (length keys + 1))%nat). cbn [take].
      case_decide; case_decide; try lia; rewrite <- app_assoc; cbn [app]; do 2 f_equal; lia.
Qed.

Lemma scan_entries_page cursor L :
  match scan_entries strategy now cursor match_ count L 0 [] with
  | inl r => r
  | inr (_, keys) => (0, keys)
  end = scan_page L cursor.
Proof.
  unfold StoreSpec.scan_page. cbn zeta. assert (Hp : (0 < page_size)%nat) by (unfold StoreSpec.page_size; lia).
  destruct (Z.le_gt_cases cursor 0) as [Hc|Hc].
  - rewrite (scan_entries_collect cursor L 0 []) by (done || cbn; lia). cbn zeta. cbn [length].
    replace (Z.to_nat cursor) with O by lia.
    rewrite Nat.sub_0_r, drop_0, Z.max_l by done. by case_decide.
  - destruct (Z.le_gt_cases cursor (Z.of_nat (length L))).
    + rewrite scan_entries_skip by lia. rewrite Z.sub_0_r.
      rewrite (scan_entries_collect cursor _ cursor []) by (done || cbn; lia). cbn zeta. cbn [length].
      rewrite Nat.sub_0_r, Z.max_r by lia. by case_decide.
    + rewrite scan_entries_short by lia. rewrite drop_ge by lia. cbn. by rewrite decide_False by lia.
Qed.

(** A page loses nothing: what is left to list after it is in the rest of the
    order from the next cursor. *)
Lemma scan_page_covers L c : let m := (filter (scanned strategy now match_) (drop c L)).*1 in
  (page_size <= length m)%nat -> forall k, k ∈ m ->
  k ∈ take page_size m \/ k ∈ (filter (scanned strategy now match_) (drop (c + page_size) L)).*1.
Proof.
  intros m Hp k Hk. rewrite <- (take_drop page_size m) in Hk. apply elem_of_app in Hk as [Hk|Hk]; [by left|].
  right. subst m. rewrite <- (take_drop page_size (drop c L)), filter_app, fmap_app, drop_drop in Hk.
  rewrite drop_app in Hk. apply elem_of_app in Hk as [Hk|Hk].
  - rewrite drop_ge in Hk; [by apply not_elem_of_nil in Hk|].
    rewrite length_fmap. etrans; [apply length_filter|]. rewrite length_take. lia.
  - match type of Hk with _ ∈ drop ?n ?l => rewrite <- (take_drop n l) end.
    apply elem_of_app. by right.
Qed.

Lemma scan_page_sound L c cur ks k : scan_page L c = (cur, ks) -> k ∈ ks ->
  exists v, (k, v) ∈ L /\ scanned strategy now match_ (k, v).
Proof.
  unfold StoreSpec.scan_page. cbn zeta. set (m := (filter _ _).*1). intros E Hk.
  assert (Hm : k ∈ m).
  { case_decide; injection E as _ <-; [|done]. rewrite <- (take_drop page_size m). set_solver. }
  subst m. apply list_elem_of_fmap in Hm as ([k' v] & -> & Hm).
  apply list_elem_of_filter in Hm as [Hs Hm]. exists v. split; [|done].
  rewrite <- (take_drop (Z.to_nat c) L). apply elem_of_app. by right.
Qed.

(** The loop of a client: pages from a cursor until the cursor comes back 0. *)
Fixpoint scan_all (fuel : nat) (cursor : Z) : Mem (list bytes) :=
  match fuel with
  | O => fun s => (OutOfFuel, s)
  | S fuel' =>
      let! (c, ks) := Scan strategy now cursor match_ count in
      if c =? 0 then gret ks
      else let! rest := scan_all fuel' c in gret (ks ++ rest)
  end.

Lemma scan_shards_ok s db cursor idx shs :
  Forall2 (fun i sh => get_shard db i s = (Ok sh, s)) idx shs -> forall s1 i keys, quiet s s1 ->
  exists es s2, Forall2 (fun e sh => exists t, e = map_iter t sh) es shs /\ quiet s s2 /\
    scan_shards strategy now db cursor match_ count idx i keys s1 =
    (Ok match scan_entries strategy now cursor match_ count (concat es) i keys with
        | inl r => r
        | inr (_, ks) => (0, ks)
        end, s2).
Proof.
  induction 1 as [|i0 sh idx shs Hg _ IH]; intros s1 i keys Hq; cbn [scan_shards].
  - exists [], s1. split; [constructor|]. by split.
  - erewrite gbind_ok by (by eapply get_shard_quiet). unfold range_map, gbind.
    set (e := map_iter (entropy s1) sh). set (s2 := set_entropy _ s1).
    assert (Hq2 : quiet s s2) by (eapply quiet_trans; [done|by eexists]).
    destruct (scan_entries strategy now cursor match_ count e i keys) as [r|[i' keys']] eqn:E.
    + exists (e :: (map_iter 0 <$> shs)), s2. split; [|split; [done|]].
      * constructor; [by eexists|]. apply Forall2_fmap_l, Forall_Forall2_diag, Forall_forall. by eexists.
      * cbn [concat]. by rewrite scan_entries_app, E.
    + destruct (IH s2 i' keys' Hq2) as (es & s3 & Hes & Hq3 & Er).
      exists (e :: es), s3. split; [constructor; [by eexists|done]|]. split; [done|].
      rewrite Er. cbn [concat]. by rewrite scan_entries_app, E.
Qed.

Lemma Scan_ok s cursor : wf s -> 0 <= count -> 16 * count <= maxAlloc ->
  exists shs es s', databases s !! currentDB s = Some shs /\
    Forall2 (fun e sh => exists t, e = map_iter t sh) es shs /\ quiet s s' /\
    Scan strategy now cursor match_ count s = (Ok (scan_page (concat es) cursor), s').
Proof.
  intros Hwf Hc Hm. destruct (current_shards s Hwf) as (shs & Hdb & _).
  unfold Scan. destruct (Z.ltb_spec count 0), (Z.ltb_spec maxAlloc (16 * count)); try lia.
  cbn [orb]. unfold gget, gbind.
  pose proof (wf_dbs s Hwf _ _ Hdb) as [_ [Hl _]].
  destruct (scan_shards_ok s (currentDB s) cursor (shard_indices s) shs) with s 0 (@nil bytes)
    as (es & s' & Hes & Hq & E); [|apply quiet_refl|].
  - apply Forall2_same_length_lookup_2; [unfold shard_indices; rewrite length_seqZ; lia|].
    intros i x sh Hx Hsh. apply lookup_seqZ in Hx as [-> Hi].
    destruct (get_shard_ok s (currentDB s) shs (0 + Z.of_nat i) Hwf Hdb ltac:(lia)) as (sh' & Hs' & Hg).
    rewrite Z.add_0_l, Nat2Z.id in Hs'. rewrite Hsh in Hs'. by injection Hs' as <-.
  - exists shs, es, s'. split; [done|]. split; [done|]. split; [done|].
    rewrite E. by rewrite scan_entries_page.
Qed.

Lemma orders_perm (es : list (list (bytes * StoredValue))) (shs : shardedDatabase) :
  Forall2 (fun e sh => exists t, e = map_iter t sh) es shs -> concat es ≡ₚ shs ≫= map_to_list.
Proof.
  induction 1 as [|e sh es shs [t ->] _ IH]; [done|]. cbn. by rewrite IH, map_iter_perm.
Qed.

(** When the runtime visits a map in the same order every time, the loop of the
    client ends and lists every key. *)
Lemma scan_all_ok s shs (L := concat (map_iter 0 <$> shs)) :
  (forall t t' (m : shard), map_iter t m = map_iter t' m) ->
  wf s -> databases s !! currentDB s = Some shs -> 0 <= count -> 16 * count <= maxAlloc ->
  forall fuel s1 c, quiet s s1 -> (length L - c < fuel)%nat ->
  exists ks s2, scan_all fuel (Z.of_nat c) s1 = (Ok ks, s2) /\ quiet s s2 /\
    (forall k, k ∈ (filter (scanned strategy now match_) (drop c L)).*1 -> k ∈ ks) /\
    (forall k, k ∈ ks -> exists v, (k, v) ∈ L /\ scanned strategy now match_ (k, v)).
Proof.
  intros Hst Hwf Hdb Hc Hm. induction fuel as [|fuel IH]; intros s1 c Hq Hf; [lia|].
  cbn [scan_all].
  destruct (Scan_ok s1 (Z.of_nat c)) as (shs' & es & s2 & Hdb' & Hes & Hq2 & E);
    [by eapply quiet_wf|done|done|].
  assert (shs' = shs) as -> by (destruct Hq as [t ->]; cbn in Hdb'; congruence).
  assert (concat es = L) as Hes'.
  { subst L. f_equal. clear -Hes Hst. induction Hes as [|e sh es shs [t ->] _ IH]; [done|].
    rewrite fmap_cons. f_equal; [apply Hst|done]. }
  rewrite Hes' in E. erewrite gbind_ok by exact E. clear Hes Hes' E es.
  destruct (scan_page L (Z.of_nat c)) as [c' ks] eqn:Ep.
  pose proof (fun k => scan_page_sound L (Z.of_nat c) c' ks k Ep) as Hsound.
  unfold StoreSpec.scan_page in Ep. rewrite Nat2Z.id in Ep. cbn zeta in Ep.
  set (m := (filter _ _).*1) in *. pose proof (quiet_trans _ _ _ Hq Hq2) as Hq3.
  assert (Hp : (0 < page_size)%nat) by (unfold StoreSpec.page_size; lia).
  case_decide as Hd; injection Ep as <- <-.
  - destruct (Z.eqb_spec (Z.max 0 (Z.of_nat c) + Z.of_nat page_size) 0); [lia|].
    replace (Z.max 0 (Z.of_nat c) + Z.of_nat page_size) with (Z.of_nat (c + page_size)) by lia.
    destruct (IH s2 (c + page_size)%nat Hq3) as (rest & s3 & E3 & Hq4 & H1 & H2).
    { assert (c < length L)%nat; [|lia]. destruct (Nat.lt_ge_cases c (length L)); [done|].
      subst m. rewrite drop_ge in Hd by done. cbn in Hd. lia. }
    erewrite gbind_ok by exact E3. eexists _, s3. split; [done|]. split; [done|]. split.
    + intros k Hk. apply elem_of_app. destruct (scan_page_covers L c Hd k Hk); auto.
    + intros k [Hk|Hk]%elem_of_app; auto.
  - cbn. exists m, s2. by split.
Qed.

End Pages.
End New.
