(* ===== verification/MemoryInfo.v ===== *)
(** * Statistics of the storage

    [DatabaseInfo] and [Info]: what they tell is the number of keys, exact, and the
    number of expired keys, exact for databases of up to 100 keys. *)

From Stdlib Require Import ZArith Lia String.
From stdpp Require Import base list list_numbers gmap fin_maps sorting.
From S2P Require Import Prelude GoLib StorageTypes Matching Memory MemoryInv StoreSpec MemoryOps MemoryBulk.

#[global] Instance count_expired_perm now : Proper ((≡ₚ) ==> (=)) (count_expired now).
Proof. intros l l' H. unfold count_expired. f_equal. by apply Permutation_length, filter_Permutation. Qed.

Lemma count_expired_app now l l' : count_expired now (l ++ l') = count_expired now l + count_expired now l'.
Proof. unfold count_expired. rewrite filter_app, length_app. lia. Qed.

Section Info.
  Context `{Hash : XXHash} `{Runtime : GoRuntime}.
  Context (now : Z).

Lemma shard_expired_ok sh s :
  queries (shard_expired now sh) (fun e => Z.of_nat (size sh) <= 100 -> e = count_expired now (map_to_list sh)) s.
Proof.
  unfold shard_expired. eapply queries_bind; [apply queries_range|]. intros entries s' _ He. cbn zeta.
  destruct (Z.ltb_spec 100 (Z.of_nat (size sh))).
  - case_match; apply queries_ret; lia.
  - apply queries_ret. intros _. by apply count_expired_perm.
Qed.

(** One database, shard by shard. *)
Lemma database_told s s1 db shs : wf s -> quiet s s1 -> databases s !! db = Some shs ->
  queries (gfold (fun '(keyCount, expiredCount) i =>
      let! sh := get_shard db i in
      let! e := shard_expired now sh in
      gret (keyCount + Z.of_nat (size sh), expiredCount + e)) (shard_indices s) (0, 0))
    (fun '(k, e) => k = Z.of_nat (size (contents shs)) /\ (k <= 100 -> e = count_expired now (map_to_list (contents shs)))) s1.
Proof.
  intros Hs Hq Hdb. set (F := fun (x : Z * Z) sh => let! e := shard_expired now sh in gret (x.1 + Z.of_nat (size sh), x.2 + e)).
  unfold queries. rewrite (gfold_ext _ (fun x i => gbind (get_shard db i) (F x))) by (by intros []).
  eapply queries_weaken; [apply (queries_shards (fun pre '(k, e) => k = Z.of_nat (length (pre ≫= map_to_list)) /\
      (k <= 100 -> e = count_expired now (pre ≫= map_to_list))) F s1 s db shs)|].
  - by eapply ev_wf, quiet_evolves.
  - done.
  - by destruct Hq as [t ->].
  - done.
  - intros pre sh post [k e] s2 _ _ [-> He]. eapply queries_bind; [apply shard_expired_ok|]. intros e' s3 _ He'.
    apply queries_ret. cbn [fst snd]. rewrite bind_app, length_app. cbn [mbind list_bind]. rewrite app_nil_r, length_map_to_list. split; [lia|].
    intros Hle. rewrite count_expired_app. rewrite He, He' by lia. done.
  - intros [k e] [-> He]. pose proof (wf_dbs s Hs _ _ Hdb) as [_ Hd]. pose proof (contents_to_list _ _ _ Hd) as Hp.
    rewrite <- length_map_to_list, Hp. split; [done|]. exact He.
Qed.

(** What is told of the databases visited so far. *)
Definition told_of (dbs : gmap Z (gmap bytes StoredValue)) (visited : list Z) (info : gmap Z (Z * Z)) : Prop :=
  forall db, match dbs !! db with
    | Some m => if decide (db ∈ visited) then told now m (info !! db) else info !! db = None
    | None => info !! db = None
    end.

Lemma told_next dbs visited db m info info' : told_of dbs visited info -> dbs !! db = Some m ->
  told now m (info' !! db) -> (forall db', db' <> db -> info' !! db' = info !! db') -> told_of dbs (visited ++ [db]) info'.
Proof.
  intros Hinv Hm Hd Ho db'. specialize (Hinv db'). destruct (decide (db' = db)) as [->|Hne].
  - rewrite Hm, decide_True; [done|set_solver].
  - rewrite (Ho db') by done. destruct (dbs !! db') as [m'|]; [|done].
    destruct (decide (db' ∈ visited)), (decide (db' ∈ visited ++ [db])); try done; set_solver.
Qed.

Lemma DatabaseInfo_ok s : wf s -> queries (DatabaseInfo now) (fun info => forall db,
  match absDB s !! db with Some m => told now m (info !! db) | None => info !! db = None end) s.
Proof.
  intros Hs. unfold DatabaseInfo, gget, gbind at 1. eapply queries_bind; [apply queries_range|].
  intros dbs s1 Hq Hp. eapply queries_weaken; [apply (queries_fold (fun pre => told_of (absDB s) pre.*1))|].
  - intros db. cbn. by destruct (absDB s !! db).
  - intros pre [db shs] post info s2 El Hq2 Hinv. assert (Hdb : databases s !! db = Some shs).
    { apply elem_of_map_to_list. rewrite <- Hp, El, elem_of_app, elem_of_cons. auto. }
    assert (Hnew : db ∉ pre.*1).
    { pose proof (NoDup_fst_map_to_list (databases s)) as Hnd. rewrite <- Hp, El, fmap_app in Hnd.
      apply NoDup_app in Hnd as (_ & Hnd & _). intros Hin. apply (Hnd db Hin). by left. }
    pose proof (quiet_trans _ _ _ Hq Hq2) as Hq3.
    eapply queries_bind; [by apply database_told|]. intros [k e] s3 _ [-> He].
    assert (Habs : absDB s !! db = Some (contents shs)) by (unfold absDB; by rewrite lookup_fmap, Hdb).
    assert (Hnone : info !! db = None) by (specialize (Hinv db); rewrite Habs, decide_False in Hinv; done).
    rewrite fmap_app. cbn [fmap list_fmap fst]. destruct (Z.eqb_spec (Z.of_nat (size (contents shs))) 0) as [Hz|Hz]; apply queries_ret;
      (eapply told_next; [done|done| |]); unfold told.
    + rewrite decide_True; [done|]. apply map_size_empty_iff. lia.
    + done.
    + rewrite decide_False by (intros He0; by rewrite He0, map_size_empty in Hz). rewrite lookup_insert_eq. eauto.
    + intros db' Hne. by rewrite lookup_insert_ne.
  - intros info Hinv db. specialize (Hinv db). destruct (absDB s !! db) as [m|] eqn:Em; [|done].
    rewrite decide_True in Hinv; [done|]. unfold absDB in Em. rewrite lookup_fmap in Em.
    destruct (databases s !! db) as [shs|] eqn:Edb; [|done]. rewrite Hp. apply list_elem_of_fmap. exists (db, shs).
    split; [done|]. by apply elem_of_map_to_list.
Qed.

Lemma Info_ok s go_memory : wf s -> queries (Info go_memory) (fun i => i = mkStorageInfo (Z.of_nat (size (current s)))
  (usage (absDB s)) (memoryLimit s) (currentDB s) (Z.of_nat (size (absDB s))) go_memory (shards s)) s.
Proof.
  intros Hs. unfold Info, gget, gbind at 1. eapply queries_bind; [by apply KeyCount_queries|]. intros k s1 Hq ->.
  assert (Hs1 : wf s1) by by eapply ev_wf, quiet_evolves.
  eapply queries_bind; [by apply MemoryUsage_ok|]. intros u s2 _ ->. apply queries_ret.
  destruct Hq as [t ->]. unfold absDB. by rewrite map_size_fmap.
Qed.

End Info.
