(* ===== verification/MemorySpec.v ===== *)
(** * What the storage engine guarantees *)

From Stdlib Require Import ZArith Lia String.
From stdpp Require Import base list list_numbers gmap fin_maps sorting.
From S2P Require Import Prelude GoLib StorageTypes Matching Memory MemoryInv StoreSpec MemoryOps.
From S2P Require Import MemoryBulk MemoryEvict MemoryCleanup MemoryScan MemoryInfo.

Section Refinement.
  Context `{Hash : XXHash} `{Runtime : GoRuntime}.

(** ** From [evolves] to the abstract store *)

Lemma abstract_evolves s s' d evs : evolves s s' d evs -> abstract s' = with_dbs (abstract s) d.
Proof.
  intros [_ Hc Hd _]. apply config_fields in Hc as (Hcd & _ & _ & Hl & _).
  unfold abstract, with_dbs. cbn. by rewrite Hd, Hcd, Hl.
Qed.

Lemma abstract_same s s' evs : evolves s s' (absDB s) evs -> abstract s' = abstract s.
Proof. intros H. by rewrite (abstract_evolves _ _ _ _ H). Qed.

(** The invariant holds after and the sharding is the one from before. *)
Definition sane (s s' : MemoryStorage) : Prop := wf s' /\ shards s' = shards s.

Lemma evolves_sane s s' d evs : evolves s s' d evs -> sane s s'.
Proof. intros [H1 H2 _ _]. split; [done|]. by apply config_fields in H2 as (_ & -> & _). Qed.

(** One operation of the code is one step of the abstract store. *)
Definition implements (now : Z) (op : Op) (s : MemoryStorage) : Prop :=
  exists r s', run_op now op s = (Ok r, s') /\ sane s s' /\ astep now (abstract s) op r (abstract s').

Lemma implements_reads {A} now op s (f : A -> Reply) (m : Mem A) (a : A) :
  run_op now op = reply f m -> reads s m a ->
  (forall a', a' = abstract s -> astep now (abstract s) op (f a) a') -> implements now op s.
Proof.
  intros E (s' & Em & Hev) Hstep. exists (f a), s'. rewrite E. unfold reply.
  rewrite (gtry_ok _ _ _ _ _ _ Em). split; [done|]. split; [by eapply evolves_sane|].
  by apply Hstep, (abstract_same _ _ _ Hev).
Qed.

Lemma implements_queries {A} now op s (f : A -> Reply) (m : Mem A) (P : A -> Prop) :
  run_op now op = reply f m -> wf s -> queries m P s ->
  (forall a, P a -> astep now (abstract s) op (f a) (abstract s)) -> implements now op s.
Proof.
  intros E Hwf (a & s' & Em & Hq & HP) Hstep. apply (implements_reads now op s f m a); [done| |by intros a' ->; apply Hstep].
  exists s'. split; [done|]. by apply quiet_evolves.
Qed.

Lemma Get_implements now s k : wf s -> implements now (OpGet k) s.
Proof.
  intros Hwf. destruct (Get_ok now s k Hwf) as (s' & E & Hev).
  exists (RVal (live now (current s) k ≫= string_of)), s'. cbn [run_op]. unfold reply.
  rewrite (gtry_ok _ _ _ _ _ _ E). split; [done|]. cbn [astep].
  change (selected (abstract s)) with (current s). unfold live in *.
  destruct (current s !! k) as [v|] eqn:Ev; [destruct (IsExpired now v) eqn:Ex|];
    (split; [by eapply evolves_sane|]; split; [done|]).
  - rewrite bool_decide_false by (by intros []). by apply (abstract_evolves _ _ _ _ Hev).
  - rewrite bool_decide_true by eauto. by apply (abstract_same _ _ _ Hev).
  - rewrite bool_decide_false by (by intros []). rewrite (abstract_same _ _ _ Hev).
    unfold with_selected. cbn. rewrite delete_id by done.
    change (selected (abstract s)) with (current s). by rewrite put_current_same.
Qed.

Lemma Set_implements now s k v e : wf s -> implements now (OpSet k v e) s.
Proof.
  intros Hwf. pose proof (Set_ok now s k v e Hwf) as H. cbn zeta in H.
  destruct H as (s' & E & Hev). exists RUnit, s'. cbn [run_op]. unfold reply.
  rewrite (gtry_ok _ _ _ _ _ _ E). split; [done|]. cbn [astep].
  change (selected (abstract s)) with (current s). cbn [alimit abstract adbs with_selected acur].
  destruct (_ && _).
  - destruct Hev as (victim & Hin & Hev). split; [by eapply evolves_sane|]. split; [done|]. exists victim.
    split; [done|]. by apply (abstract_evolves _ _ _ _ Hev).
  - split; [by eapply evolves_sane|]. split; [done|]. by apply (abstract_evolves _ _ _ _ Hev).
Qed.

Lemma Del_implements now s ks : wf s -> implements now (OpDel ks) s.
Proof.
  intros Hwf. destruct (Del_ok s ks Hwf) as (dl & s' & E & Hnd & Hdl & Hr).
  exists (RInt (Z.of_nat (length dl))), s'. cbn [run_op]. unfold reply.
  rewrite (gtry_ok _ _ _ _ _ _ E). split; [done|]. split; [by eapply evolves_sane|]. cbn [astep].
  change (selected (abstract s)) with (current s). split.
  - by rewrite (selected_size_filter ks dl (current s) Hnd Hdl).
  - rewrite (abstract_evolves _ _ _ _ Hr). unfold with_selected, with_dbs. cbn. do 2 f_equal.
    apply without_equiv. intros k Hk. rewrite Hdl. naive_solver.
Qed.

Lemma Expire_implements now s k e : wf s -> implements now (OpExpire k e) s.
Proof.
  intros Hwf. destruct (Expire_ok now s k e Hwf) as (r & s' & E & Hev).
  exists (RBool r), s'. cbn [run_op]. unfold reply. rewrite (gtry_ok _ _ _ _ _ _ E).
  split; [done|]. cbn [astep]. change (selected (abstract s)) with (current s).
  destruct (live now (current s) k) as [v|]; destruct Hev as [-> Hev]; (split; [by eapply evolves_sane|]).
  - split; [done|]. by apply (abstract_evolves _ _ _ _ Hev).
  - split; [done|]. by apply (abstract_same _ _ _ Hev).
Qed.

Lemma Keys_implements now s strategy pattern : wf s -> implements now (OpKeys strategy pattern) s.
Proof.
  intros Hwf. destruct (Keys_ok strategy now pattern s Hwf) as (ks & s' & E & Hq & Hks).
  exists (RKeys ks), s'. cbn [run_op]. unfold reply. rewrite (gtry_ok _ _ _ _ _ _ E).
  pose proof (quiet_evolves _ _ Hwf Hq) as Hev. split; [done|]. split; [by eapply evolves_sane|].
  cbn [astep]. exists ks. split; [done|]. split; [by apply (abstract_same _ _ _ Hev)|done].
Qed.

Lemma SelectDB_implements now s db : wf s -> implements now (OpSelectDB db) s.
Proof.
  intros Hwf. unfold implements. cbn [run_op astep]. unfold reply.
  destruct ((db <? 0) || (15 <? db)) eqn:Er.
  - eexists _, s. unfold SelectDB. rewrite Er. split; [done|]. by split.
  - destruct (SelectDB_ok s db Hwf) as (s' & E & Hwf' & Hc & Hcfg & _ & Hd).
    { destruct (Z.ltb_spec db 0), (Z.ltb_spec 15 db); try done; lia. }
    exists RUnit, s'. rewrite (gtry_ok _ _ _ _ _ _ E). split; [done|].
    pose proof (f_equal memoryLimit Hcfg) as Hl. pose proof (f_equal shards Hcfg) as Hs. cbn in Hl, Hs.
    split; [by split|]. split; [done|]. unfold abstract. cbn. by rewrite Hd, Hc, Hl.
Qed.

Lemma Evict_implements now s count : wf s -> implements now (OpEvictLRU count) s.
Proof.
  intros Hwf. destruct (evictLRU_ok s count Hwf) as (vs & s' & E & (Hnd & Hin & Hr) & Hl).
  exists (RInt (Z.of_nat (length vs))), s'. cbn [run_op]. unfold reply, EvictLRU.
  rewrite (gtry_ok _ _ _ _ _ _ E). split; [done|]. split; [by eapply evolves_sane|]. cbn [astep]. exists vs.
  do 4 (split; [done|]). by apply (abstract_evolves _ _ _ _ Hr).
Qed.

Lemma FlushAll_implements now s : wf s -> implements now OpFlushAll s.
Proof.
  intros Hwf. destruct (FlushAll_ok s Hwf) as (s' & E & Hev).
  exists RUnit, s'. cbn [run_op]. unfold reply. rewrite (gtry_ok _ _ _ _ _ _ E).
  split; [done|]. split; [by eapply evolves_sane|]. split; [done|]. by apply (abstract_evolves _ _ _ _ Hev).
Qed.

Lemma Cleanup_implements now s : wf s -> implements now OpCleanup s.
Proof.
  intros Hwf. destruct (performCleanup_ok now s Hwf) as (s' & gone & E & Hev & Hsh & _).
  exists RUnit, s'. cbn [run_op]. unfold reply. rewrite (gtry_ok _ _ _ _ _ _ E).
  split; [done|]. split; [by eapply evolves_sane|]. split; [done|]. exists (absDB s'). split; [|done].
  by apply (abstract_evolves _ _ _ _ Hev).
Qed.

Lemma Scan_implements now s strategy cursor match_ count : wf s -> 0 <= count -> 16 * count <= maxAlloc ->
  implements now (OpScan strategy cursor match_ count) s.
Proof.
  intros Hwf Hc Hm.
  destruct (Scan_ok strategy now match_ count s cursor Hwf Hc Hm) as (shs & es & s' & Hdb & Hes & Hq & E).
  set (page := scan_page strategy now match_ count (concat es) cursor) in *.
  eapply (implements_queries _ _ _ RPage _ (fun p => p = page)); [done|done|by exists page, s'|].
  intros ? ->. exists (concat es). split; [|done]. rewrite (orders_perm es shs Hes).
  destruct (current_shards s Hwf) as (shs' & Hdb' & _ & Hp). rewrite Hdb in Hdb'. injection Hdb' as <-. by rewrite <- Hp.
Qed.

(** The setters keep the data. *)
Lemma setter_implements now op s f :
  run_op now op = reply (fun _ => RUnit) (gmodify f) -> sane s (f s) ->
  astep now (abstract s) op RUnit (abstract (f s)) -> implements now op s.
Proof. intros E Hwf Hstep. exists RUnit, (f s). by rewrite E. Qed.

Lemma run_op_implements now op s : wf s -> op_ok op -> implements now op s.
Proof.
  intros Hwf Hok. destruct op.
  - by apply Get_implements.
  - by apply Set_implements.
  - by apply Del_implements.
  - eapply implements_reads; [done|by apply queries_reads, Exists_ok|by intros a' ->].
  - by apply Expire_implements.
  - eapply implements_reads; [done|by apply TTL_ok|by intros a' ->].
  - eapply implements_reads; [done|by apply PTTL_ok|by intros a' ->].
  - eapply implements_reads; [done|by apply Type_ok|by intros a' ->].
  - by apply Keys_implements.
  - eapply implements_reads; [done|by apply KeyCount_ok|by intros a' ->].
  - by apply FlushAll_implements.
  - eapply implements_reads; [done|by apply queries_reads, MemoryUsage_ok|by intros a' ->].
  - by apply SelectDB_implements.
  - eapply implements_reads; [done|exists s; split; [done|by apply evolves_refl]|by intros a' ->].
  - eapply setter_implements; [done|split; [destruct Hwf; by split|done]|done].
  - eapply implements_reads; [done|exists s; split; [done|by apply evolves_refl]|by intros a' ->].
  - by apply Evict_implements.
  - eapply setter_implements; [done|split; [destruct Hwf; by split|done]|done].
  - eapply setter_implements; [done|split; [destruct Hwf; by split|done]|done].
  - by apply Cleanup_implements.
  - destruct Hok. by apply Scan_implements.
  - eapply implements_queries; [done|done|by apply Info_ok|]. intros i ->. by exists (shards s).
  - eapply implements_queries; [done|done|by apply DatabaseInfo_ok|]. intros info Hi. by exists info.
Qed.

(** No operation drops a database. *)
Lemma astep_keeps_dbs now a op r a' : astep now a op r a' ->
  forall db, is_Some (adbs a !! db) -> is_Some (adbs a' !! db).
Proof.
  assert (Hsel : forall m db, is_Some (adbs a !! db) -> is_Some (adbs (with_selected a m) !! db)).
  { intros m db H. cbn. apply lookup_insert_is_Some'. by right. }
  intros Hstep db Hdb. destruct op; cbn [astep] in Hstep; cbn zeta in Hstep;
    try (destruct Hstep as [_ ->]; auto; fail).
  - destruct Hstep as [_ ->]. case_bool_decide; auto.
  - destruct Hstep as [_ Hs]. destruct (_ && _); [|by rewrite Hs; apply Hsel].
    destruct Hs as (? & _ & ->). auto.
  - destruct (live now (selected a) key); destruct Hstep as [_ ->]; auto.
  - destruct Hstep as (? & _ & -> & _). auto.
  - destruct Hstep as [_ ->]. cbn. rewrite lookup_fmap. by destruct Hdb as [? ->].
  - destruct (_ || _); destruct Hstep as [_ ->]; [done|]. cbn.
    destruct (decide (db = db0)) as [->|Hne]; [by rewrite lookup_partial_alter_eq|].
    by rewrite lookup_partial_alter_ne.
  - destruct Hstep as (? & _ & _ & _ & _ & ->). auto.
  - destruct Hstep as (_ & d' & -> & [Hd _]). cbn. by apply Hd.
  - by destruct Hstep as (? & _ & _ & ->).
  - by destruct Hstep as (? & -> & _).
  - by destruct Hstep as (? & _ & -> & _).
Qed.

Lemma run_ops_implements ops : forall s, wf s -> Forall (fun '(_, op) => op_ok op) ops ->
  exists rs s', run_ops ops s = (Ok rs, s') /\ wf s' /\ asteps (abstract s) ops rs (abstract s').
Proof.
  induction ops as [|[now op] ops IH]; intros s Hwf Hok; cbn [run_ops].
  - exists [], s. split; [done|]. split; [done|]. constructor.
  - apply Forall_cons in Hok as [Hop Hok].
    destruct (run_op_implements now op s Hwf Hop) as (r & s1 & E1 & [Hwf1 _] & Hstep).
    destruct (IH s1 Hwf1 Hok) as (rs & s2 & E2 & Hwf2 & Hsteps).
    exists (r :: rs), s2. erewrite gbind_ok by exact E1. erewrite gbind_ok by exact E2.
    split; [done|]. split; [done|]. by econstructor.
Qed.

End Refinement.
