(* ===== verification/Interleaving.v ===== *)
(** * Expiry under concurrency (storage/memory.go)

    Two paths of the storage decide that a key is expired in one critical
    section and delete it in a later one: [Get] (read lock, then
    [deleteExpiredKey]) and the cleanup (sample under the read lock, then
    [deleteKeyBatchInShard] per batch). Between the two sections any client may
    store the key anew. Here each critical section is one step of a transition
    system, the clock runs, and clients interleave freely. A pending deletion
    names its database by number; the code keeps the pointer, which after
    [FlushAll] leads to the discarded shards instead. *)

From Stdlib Require Import ZArith Lia String.
From stdpp Require Import base list list_numbers gmap fin_maps relations.
From S2P Require Import Prelude GoLib StorageTypes Matching Memory MemoryInv StoreSpec MemoryOps.
From S2P Require Import MemoryBulk MemoryEvict MemoryCleanup MemoryScan MemorySpec.

Section Interleaving.
  Context `{Hash : XXHash} `{Runtime : GoRuntime}.

(** A deletion decided on and not yet made. *)
Inductive Pending : Type :=
| PGet (key : bytes)
| PBatch (db i : Z) (keys : list bytes).

Record System : Type := mkSystem {
  store : MemoryStorage;
  clock : Z;
  pending : list Pending
}.

(** The second critical section of a pending deletion. *)
Definition finish (now : Z) (p : Pending) : Mem unit :=
  match p with
  | PGet key => deleteExpiredKey now key
  | PBatch db i keys => deleteKeyBatchInShard now db i keys
  end.

(** The steps of the expiry paths and of the clock. *)
Inductive expiry_step : System -> System -> Prop :=
| step_tick s t t' ps : t <= t' ->
    expiry_step (mkSystem s t ps) (mkSystem s t' ps)
| step_get s t ps k v s' : key_shard k s = (Ok v, s') -> expired_in t v.2 k = true ->
    expiry_step (mkSystem s t ps) (mkSystem s' t (PGet k :: ps))
| step_sample s t ps db i n keys s' :
    is_Some (databases s !! db) -> 0 <= i < shards s ->
    sampleAndFindExpiredInShard t db i n s = (Ok keys, s') ->
    expiry_step (mkSystem s t ps) (mkSystem s' t (PBatch db i keys :: ps))
| step_finish s t ps1 p ps2 s' : finish t p s = (Ok tt, s') ->
    expiry_step (mkSystem s t (ps1 ++ p :: ps2)) (mkSystem s' t (ps1 ++ ps2)).

(** A client operation at the current time. *)
Inductive client_step : System -> System -> Prop :=
| step_client s t ps op r s' : op_ok op -> run_op t op s = (Ok r, s') ->
    client_step (mkSystem s t ps) (mkSystem s' t ps).

Definition system_step (x y : System) : Prop := expiry_step x y \/ client_step x y.

(** The databases and shards that pending batches name exist. *)
Definition pending_ok (s : MemoryStorage) (p : Pending) : Prop :=
  match p with
  | PGet _ => True
  | PBatch db i _ => is_Some (absDB s !! db) /\ 0 <= i < shards s
  end.

Definition inv (x : System) : Prop := wf (store x) /\ Forall (pending_ok (store x)) (pending x).

Lemma shrinks_refl now d : shrinks now d d.
Proof. split; [done|]. intros db m0 m1 H0 H1. assert (m0 = m1) by congruence. by subst. Qed.

Lemma shrinks_trans t t' d1 d2 d3 : t <= t' -> shrinks t d1 d2 -> shrinks t' d2 d3 -> shrinks t' d1 d3.
Proof.
  intros Ht [A1 B1] [A2 B2]. split; [intros db; by rewrite A2, A1|].
  intros db m0 m2 H0 H2. destruct (proj2 (A1 db) ltac:(eauto)) as [m1 H1].
  destruct (B1 db m0 m1 H0 H1) as [S1 L1], (B2 db m1 m2 H1 H2) as [S2 L2].
  split; [by etrans|]. intros k v Hk Hl. apply L2; [|done]. apply L1; [done|].
  destruct (IsExpired t v) eqn:E; [|done]. by rewrite (IsExpired_mono _ _ _ Ht E) in Hl.
Qed.

Lemma removed_shrinks now s s' db m ks evs : absDB s !! db = Some m ->
  (forall k, k ∈ ks -> dead now m k) -> removed s s' db m ks evs -> shrinks now (absDB s) (absDB s').
Proof.
  intros Hdb Hks [_ _ -> _]. split.
  - intros j. destruct (decide (j = db)) as [->|Hj]; [|by rewrite lookup_insert_ne].
    rewrite lookup_insert_eq, Hdb. split; eauto.
  - intros j m0 m1 H0 H1. destruct (decide (j = db)) as [->|Hj].
    + rewrite lookup_insert_eq in H1. injection H1 as <-. assert (m0 = m) as -> by congruence.
      by apply without_shrinks.
    + rewrite lookup_insert_ne in H1 by done. assert (m0 = m1) as -> by congruence. by split.
Qed.

(** Finishing a deletion succeeds and removes keys that are expired now. *)
Lemma finish_ok now p s : wf s -> pending_ok s p ->
  exists s', finish now p s = (Ok tt, s') /\ wf s' /\ config_of s' = config_of s /\
    shrinks now (absDB s) (absDB s').
Proof.
  intros Hwf Hp. destruct p as [k|db i keys]; cbn [finish].
  - destruct (delete_expired_ok now s k Hwf) as (s' & E & Hev). exists s'. split; [done|].
    pose proof (current_lookup s Hwf) as Hcur.
    assert (Hsame : evolves s s' (absDB s) [] ->
      wf s' /\ config_of s' = config_of s /\ shrinks now (absDB s) (absDB s')).
    { intros [H1 H2 H3 _]. rewrite H3. do 2 (split; [done|]). apply shrinks_refl. }
    destruct (current s !! k) as [v|] eqn:Ek; [|by apply Hsame].
    destruct (IsExpired now v) eqn:Ex; [|by apply Hsame].
    split; [apply Hev|]. split; [apply Hev|].
    eapply (removed_shrinks now s s' (currentDB s) (current s) ([] ++ [k])); [done| |].
    + intros ? ->%list_elem_of_singleton. by exists v.
    + unfold removed. rewrite without_snoc, without_nil. exact Hev.
  - destruct Hp as [[m Hdb] Hi].
    destruct (deleteKeyBatch_ok now s db m i keys Hwf Hdb Hi) as (ks & s' & E & (Hn & Hd & Hr) & _).
    exists s'. split; [done|]. split; [apply Hr|]. split; [apply Hr|].
    by eapply removed_shrinks.
Qed.

Lemma pending_ok_mono s s' p : shards s' = shards s ->
  (forall db, is_Some (absDB s !! db) -> is_Some (absDB s' !! db)) -> pending_ok s p -> pending_ok s' p.
Proof. intros Hs Hd. destruct p; cbn; [done|]. rewrite Hs. naive_solver. Qed.

Lemma quiet_inv s s' t t' ps ps' : quiet s s' -> inv (mkSystem s t ps) ->
  Forall (pending_ok s) ps' -> inv (mkSystem s' t' (ps' ++ ps)).
Proof.
  intros Hq [Hwf Hps] Hp. split; [by eapply quiet_wf|]. cbn in *. destruct Hq as [n ->].
  by apply Forall_app.
Qed.

(** A step of an expiry path keeps the invariant and removes only keys that are
    expired when it runs. *)
Lemma expiry_step_ok x y : expiry_step x y -> inv x ->
  inv y /\ clock x <= clock y /\ shrinks (clock y) (absDB (store x)) (absDB (store y)).
Proof.
  intros Hstep Hinv. destruct Hstep as [s t t' ps Ht|s t ps k v s' E Hx|s t ps db i n keys s' Hdb Hi E|
    s t ps1 p ps2 s' E]; cbn [clock store].
  - split; [done|]. split; [done|]. apply shrinks_refl.
  - destruct (key_shard_ok s k (proj1 Hinv)) as (sh & E' & _). rewrite E in E'. injection E' as _ ->.
    split; [|split; [done|apply shrinks_refl]].
    apply (quiet_inv s s t t ps [PGet k] (quiet_refl s) Hinv). by apply Forall_singleton.
  - destruct Hdb as [shs Hshs]. pose proof (absDB_lookup s db shs Hshs) as Hm.
    assert (Hq : quiet s s').
    { unfold sampleAndFindExpiredInShard, gbind in E.
      destruct (get_shard_ok s db shs i (proj1 Hinv) Hshs Hi) as (sh & _ & Hg). rewrite Hg in E.
      destruct (bool_decide _); [injection E as _ <-; apply quiet_refl|].
      destruct (_ <? 0); [done|]. cbn [range_map] in E.
      set (n' := if _ <? n then _ else n) in E.
      assert (Hq1 : quiet s (set_entropy (S (entropy s)) s)) by (by eexists).
      unfold range_map in E. destruct (_ <=? n'); [injection E as _ <-; done|].
      destruct (reservoir_ok n' (map_iter (entropy s) sh) 0 [] (set_entropy (S (entropy s)) s))
        as (ks & s2 & E2 & Hq2 & _). rewrite E2 in E. injection E as _ <-.
      exact (quiet_trans _ _ _ Hq1 Hq2). }
    split; [|split; [done|rewrite (quiet_abs _ _ Hq); apply shrinks_refl]].
    apply (quiet_inv s s' t t ps [PBatch db i keys] Hq Hinv). apply Forall_singleton. cbn. eauto.
  - destruct Hinv as [Hwf Hps]. cbn in Hps. apply Forall_app in Hps as [H1 [Hp H2]%Forall_cons].
    destruct (finish_ok t p s Hwf Hp) as (s'' & E' & Hwf' & Hc & Hsh). rewrite E in E'.
    injection E' as <-. split; [|split; [done|done]]. split; [done|]. cbn.
    apply config_fields in Hc as (_ & Hc & _).
    apply Forall_app; split; (eapply Forall_impl; [done|]); intros q;
      apply (pending_ok_mono s s'); try done; intros db; apply Hsh.
Qed.

(** A client operation keeps the invariant: no operation drops a database. *)
Lemma client_step_ok x y : client_step x y -> inv x -> inv y.
Proof.
  intros [s t ps op r s' Hok E] [Hwf Hps]. cbn in *.
  destruct (run_op_implements t op s Hwf Hok) as (r' & s'' & E' & [Hwf' Hsh] & Hstep). rewrite E in E'.
  injection E' as <- <-. split; [done|]. cbn. eapply Forall_impl; [done|]. intros p.
  apply pending_ok_mono.
  - done.
  - apply (astep_keeps_dbs _ _ _ _ _ Hstep).
Qed.

End Interleaving.
