(* ===== verification/Threads.v ===== *)
(** * Goroutines on the storage: programs, locks and steps (storage/memory.go)

    Memory runs a method as one action. Here a method is a program over the locks
    and the fields it touches, and goroutines interleave between any two of its
    actions. A database is an object on a heap: a goroutine that read its pointer
    goes on with it after [FlushAll] has put another one in its place. *)

From Stdlib Require Import ZArith Lia String.
From stdpp Require Import base list list_numbers gmap countable.
From S2P Require Import Prelude GoLib StorageTypes Matching Memory.

(** ** Locks *)

(** [s.mu], and [sh.mu] of shard [i] of the database at address [a]. *)
Inductive Lock : Type :=
| Main
| Shard (a : nat) (i : Z).

Inductive Mode : Type := Rd | Wr.

#[global] Instance Lock_eq_dec : EqDecision Lock.
Proof. solve_decision. Defined.
#[global] Instance Mode_eq_dec : EqDecision Mode.
Proof. solve_decision. Defined.
#[global] Instance Lock_countable : Countable Lock.
Proof.
  refine (inj_countable' (fun l => match l with Main => None | Shard a i => Some (a, i) end)
    (fun o => match o with None => Main | Some (a, i) => Shard a i end) _).
  by intros [].
Defined.

(** [sync.RWMutex]: the goroutines that hold it to read, the one that holds it to
    write, and the writer that has announced itself and waits for the readers to
    leave. New readers and other writers wait for both. *)
Record RWMutex : Type := mkRW { readers : gset nat; writer : option nat; waiting : option nat }.

Definition unlocked : RWMutex := mkRW ∅ None None.

Definition RLock (i : nat) (m : RWMutex) : option RWMutex :=
  match writer m, waiting m with None, None => Some (mkRW ({[i]} ∪ readers m) None None) | _, _ => None end.
Definition announce (i : nat) (m : RWMutex) : option RWMutex :=
  match writer m, waiting m with None, None => Some (mkRW (readers m) None (Some i)) | _, _ => None end.
Definition enter (i : nat) (m : RWMutex) : option RWMutex :=
  if bool_decide (readers m = ∅) then Some (mkRW ∅ (Some i) None) else None.
Definition RUnlock (i : nat) (m : RWMutex) : RWMutex := mkRW (readers m ∖ {[i]}) (writer m) (waiting m).
Definition Unlock (m : RWMutex) : RWMutex := mkRW (readers m) None (waiting m).

(** ** Memory *)

(** The fields [s.mu] protects; a database is an address. *)
Record Meta : Type := mkMeta {
  m_databases : gmap Z nat;
  m_currentDB : Z;
  m_memoryLimit : Z;
  m_observers : list nat;
  m_cleanupConfig : CleanupConfig
}.

(** The storage: the heap of databases, those fields, and what never changes or has
    no lock. *)
Record World : Type := mkWorld {
  w_heap : list shardedDatabase;
  w_meta : Meta;
  w_shards : Z;
  w_mask : Z;
  w_stop : bool * bool;
  w_events : list (nat * Event);
  w_entropy : nat
}.

Definition set_heap h w := mkWorld h (w_meta w) (w_shards w) (w_mask w) (w_stop w) (w_events w) (w_entropy w).
Definition set_meta m w := mkWorld (w_heap w) m (w_shards w) (w_mask w) (w_stop w) (w_events w) (w_entropy w).
Definition set_log e w := mkWorld (w_heap w) (w_meta w) (w_shards w) (w_mask w) (w_stop w) e (w_entropy w).
Definition set_toss t w := mkWorld (w_heap w) (w_meta w) (w_shards w) (w_mask w) (w_stop w) (w_events w) t.

(** The storage of Memory, with each database in place of its address. *)
Definition flat (w : World) : MemoryStorage :=
  let m := w_meta w in
  mkMem ((fun a => default [] (w_heap w !! a)) <$> m_databases m) (m_currentDB m) (w_shards w) (w_mask w)
    (m_memoryLimit m) (m_observers m) (fst (w_stop w)) (snd (w_stop w)) (m_cleanupConfig m) (w_events w) (w_entropy w).

(** ** Programs *)

(** [AcqW]: the writer has announced itself. [Index]: [sh := &db.shards\[i\]], on the
    result of a lookup in [s.databases]. [Emit]: the calls to the observers given.
    [Toss] is a choice of the runtime, [Clock] a look at the time. *)
Inductive Prog (R : Type) : Type :=
| Halt (o : outcome R)
| Acq (l : Lock) (m : Mode) (k : Prog R)
| AcqW (l : Lock) (k : Prog R)
| Rel (l : Lock) (m : Mode) (k : Prog R)
| GetMeta (k : Meta -> Prog R)
| SetMeta (m : Meta) (k : Prog R)
| NewDB (k : nat -> Prog R)
| Index (db : option nat) (i : Z) (k : nat -> Prog R)
| GetShard (a : nat) (i : Z) (k : shard -> Prog R)
| PutShard (a : nat) (i : Z) (sh : shard) (k : Prog R)
| Emit (os : list nat) (ev : Event) (k : Prog R)
| Toss (k : nat -> Prog R)
| Clock (k : Z -> Prog R).

Arguments Halt {R} _. Arguments Acq {R} _ _ _. Arguments AcqW {R} _ _. Arguments Rel {R} _ _ _.
Arguments GetMeta {R} _. Arguments SetMeta {R} _ _. Arguments NewDB {R} _. Arguments Index {R} _ _ _.
Arguments GetShard {R} _ _ _. Arguments PutShard {R} _ _ _ _. Arguments Emit {R} _ _ _. Arguments Toss {R} _.
Arguments Clock {R} _.

Fixpoint pbind {A B} (p : Prog A) (k : A -> Prog B) : Prog B :=
  match p with
  | Halt (Ok a) => k a
  | Halt (Err e) => Halt (Err e)
  | Halt (Panic s) => Halt (Panic s)
  | Halt OutOfFuel => Halt OutOfFuel
  | Acq l m p => Acq l m (pbind p k)
  | AcqW l p => AcqW l (pbind p k)
  | Rel l m p => Rel l m (pbind p k)
  | GetMeta f => GetMeta (fun x => pbind (f x) k)
  | SetMeta m p => SetMeta m (pbind p k)
  | NewDB f => NewDB (fun x => pbind (f x) k)
  | Index db i f => Index db i (fun x => pbind (f x) k)
  | GetShard a i f => GetShard a i (fun x => pbind (f x) k)
  | PutShard a i sh p => PutShard a i sh (pbind p k)
  | Emit os ev p => Emit os ev (pbind p k)
  | Toss f => Toss (fun x => pbind (f x) k)
  | Clock f => Clock (fun x => pbind (f x) k)
  end.

(** [f] of the value, [h] of the error. *)
Fixpoint pcatch {A B} (f : A -> B) (h : error -> B) (p : Prog A) : Prog B :=
  match p with
  | Halt (Ok a) => Halt (Ok (f a))
  | Halt (Err e) => Halt (Ok (h e))
  | Halt (Panic s) => Halt (Panic s)
  | Halt OutOfFuel => Halt OutOfFuel
  | Acq l m p => Acq l m (pcatch f h p)
  | AcqW l p => AcqW l (pcatch f h p)
  | Rel l m p => Rel l m (pcatch f h p)
  | GetMeta q => GetMeta (fun x => pcatch f h (q x))
  | SetMeta m p => SetMeta m (pcatch f h p)
  | NewDB q => NewDB (fun x => pcatch f h (q x))
  | Index db i q => Index db i (fun x => pcatch f h (q x))
  | GetShard a i q => GetShard a i (fun x => pcatch f h (q x))
  | PutShard a i sh p => PutShard a i sh (pcatch f h p)
  | Emit os ev p => Emit os ev (pcatch f h p)
  | Toss q => Toss (fun x => pcatch f h (q x))
  | Clock q => Clock (fun x => pcatch f h (q x))
  end.

Definition pret {A} (a : A) : Prog A := Halt (Ok a).
Definition lock (l : Lock) (m : Mode) : Prog unit := Acq l m (pret tt).
Definition unlock (l : Lock) (m : Mode) : Prog unit := Rel l m (pret tt).
Definition index (db : option nat) (i : Z) : Prog nat := Index db i pret.
Definition load (a : nat) (i : Z) : Prog shard := GetShard a i pret.
Definition store (a : nat) (i : Z) (sh : shard) : Prog unit := PutShard a i sh (pret tt).
Definition emit (os : list nat) (ev : Event) : Prog unit := Emit os ev (pret tt).
Definition time_Now : Prog Z := Clock pret.

Declare Scope prog_scope.
Delimit Scope prog_scope with prog.
Notation "'let*' x ':=' p 'in' q" := (pbind p (fun x => q))
  (at level 10, x pattern, p at level 100, q at level 200) : prog_scope.
Notation "p ;;* q" := (pbind p (fun _ => q)) (at level 100, q at level 200, right associativity) : prog_scope.

Fixpoint pfold {A B} (f : B -> A -> Prog B) (l : list A) (b : B) : Prog B :=
  match l with [] => pret b | x :: l' => pbind (f b x) (pfold f l') end.

Section Threads.
  Context `{Hash : XXHash} `{Runtime : GoRuntime}.

Definition prange {K A} `{Countable K} (m : gmap K A) : Prog (list (K * A)) := Toss (fun t => pret (map_iter t m)).
Definition pdraw (n : Z) : Prog Z := Toss (fun t => pret (rng_IntN t n)).

(** ** Actions on the memory *)

Definition nil_panic : bytes := bs "invalid memory address or nil pointer dereference".

(** A new database, at the end of the heap. *)
Definition alloc (w : World) : outcome nat * World :=
  match newShardedDatabase (flat w) with
  | Ok shs => (Ok (length (w_heap w)), set_heap (w_heap w ++ [shs]) w)
  | Err e => (Err e, w)
  | Panic s => (Panic s, w)
  | OutOfFuel => (OutOfFuel, w)
  end.

Definition shard_at (w : World) (a : nat) (i : Z) : option shard :=
  shs ← w_heap w !! a; if i <? 0 then None else shs !! Z.to_nat i.

Definition indexed (w : World) (db : option nat) (i : Z) : outcome nat :=
  match db with
  | None => Panic nil_panic
  | Some a => match shard_at w a i with Some _ => Ok a | None => Panic (bs "index out of range") end
  end.

Definition write_shard (a : nat) (i : Z) (sh : shard) (w : World) : World :=
  set_heap (alter (fun shs => <[Z.to_nat i := sh]> shs) a (w_heap w)) w.

Definition log_events (os : list nat) (ev : Event) (w : World) : World :=
  set_log (w_events w ++ map (fun o => (o, ev)) os) w.

(** A program run alone, at a time. *)
Fixpoint exec {A} (now : Z) (p : Prog A) (w : World) : outcome A * World :=
  match p with
  | Halt o => (o, w)
  | Acq _ _ k | AcqW _ k | Rel _ _ k => exec now k w
  | GetMeta k => exec now (k (w_meta w)) w
  | SetMeta m k => exec now k (set_meta m w)
  | NewDB k =>
      match alloc w with
      | (Ok a, w') => exec now (k a) w'
      | (Err e, w') => (Err e, w')
      | (Panic s, w') => (Panic s, w')
      | (OutOfFuel, w') => (OutOfFuel, w')
      end
  | Index db i k =>
      match indexed w db i with
      | Ok a => exec now (k a) w
      | Err e => (Err e, w)
      | Panic s => (Panic s, w)
      | OutOfFuel => (OutOfFuel, w)
      end
  | GetShard a i k => exec now (k (default ∅ (shard_at w a i))) w
  | PutShard a i sh k => exec now k (write_shard a i sh w)
  | Emit os ev k => exec now k (log_events os ev w)
  | Toss k => exec now (k (w_entropy w)) (set_toss (S (w_entropy w)) w)
  | Clock k => exec now (k now) w
  end.

(** ** Goroutines *)

Record System {R : Type} : Type := mkSystem {
  threads : gmap nat (Prog R);
  mutexes : gmap Lock RWMutex;
  world : World;
  clock : Z
}.
Arguments System : clear implicits.

Definition mutex {R} (s : System R) (l : Lock) : RWMutex := default unlocked (mutexes s !! l).

(** Goroutine [i] goes on with [p], the lock [l] and the memory changed. *)
Definition goes_on {R} (i : nat) (p : Prog R) (s : System R) : System R :=
  mkSystem _ (<[i := p]> (threads s)) (mutexes s) (world s) (clock s).
Definition with_lock {R} (l : Lock) (m : RWMutex) (s : System R) : System R :=
  mkSystem _ (threads s) (<[l := m]> (mutexes s)) (world s) (clock s).
Definition with_world {R} (w : World) (s : System R) : System R :=
  mkSystem _ (threads s) (mutexes s) w (clock s).

Definition proceed {R A} (i : nat) (k : A -> Prog R) (o : outcome A) (s : System R) : System R :=
  goes_on i (match o with Ok a => k a | Err e => Halt (Err e) | Panic p => Halt (Panic p) | OutOfFuel => Halt OutOfFuel end) s.

(** The next action of goroutine [i]; [None]: it has none or has to wait. *)
Definition thread_step {R} (i : nat) (s : System R) : option (System R) :=
  match threads s !! i with
  | None | Some (Halt _) => None
  | Some (Acq l Rd k) => m ← RLock i (mutex s l); Some (goes_on i k (with_lock l m s))
  | Some (Acq l Wr k) => m ← announce i (mutex s l); Some (goes_on i (AcqW l k) (with_lock l m s))
  | Some (AcqW l k) => m ← enter i (mutex s l); Some (goes_on i k (with_lock l m s))
  | Some (Rel l Rd k) => Some (goes_on i k (with_lock l (RUnlock i (mutex s l)) s))
  | Some (Rel l Wr k) => Some (goes_on i k (with_lock l (Unlock (mutex s l)) s))
  | Some (GetMeta k) => Some (goes_on i (k (w_meta (world s))) s)
  | Some (SetMeta m k) => Some (goes_on i k (with_world (set_meta m (world s)) s))
  | Some (NewDB k) => let '(o, w) := alloc (world s) in Some (proceed i k o (with_world w s))
  | Some (Index db j k) => Some (proceed i k (indexed (world s) db j) s)
  | Some (GetShard a j k) => Some (goes_on i (k (default ∅ (shard_at (world s) a j))) s)
  | Some (PutShard a j sh k) => Some (goes_on i k (with_world (write_shard a j sh (world s)) s))
  | Some (Emit os ev k) => Some (goes_on i k (with_world (log_events os ev (world s)) s))
  | Some (Toss k) =>
      Some (goes_on i (k (w_entropy (world s))) (with_world (set_toss (S (w_entropy (world s))) (world s)) s))
  | Some (Clock k) => Some (goes_on i (k (clock s)) s)
  end.

End Threads.

Arguments System : clear implicits.
