(* ===== verification/StorageThreads.v ===== *)
(** * The methods of the storage as programs (storage/memory.go)

    One program per method, with every lock it takes and every field and shard it
    touches, in the source's order. StorageThreadsAlone shows that a program run
    alone is the method of Memory. *)

From Stdlib Require Import ZArith Lia String.
From stdpp Require Import base list list_numbers gmap.
From S2P Require Import Prelude GoLib StorageTypes Matching Memory StoreSpec Threads.

Local Open Scope prog_scope.

Section StorageThreads.
  Context `{Hash : XXHash} `{Runtime : GoRuntime}.

(** [s.shards] and [s.shardMask]. *)
  Context (n mask : Z).

Definition hash (key : bytes) : Z := Z.land (Sum64String key) mask.
Definition all_shards : list Z := seqZ 0 n.

(** [s.mu.RLock(); x := f(s); s.mu.RUnlock()] *)
Definition read_meta {A} (f : Meta -> A) : Prog A :=
  lock Main Rd ;;* let* m := GetMeta pret in unlock Main Rd ;;* pret (f m).

(** [s.databases\[s.currentDB\]] *)
Definition current_db (m : Meta) : option nat := m_databases m !! m_currentDB m.

(** [s.mu.RLock(); for _, observer := range s.observers { ... }; s.mu.RUnlock()] *)
Definition tell (ev : Event) : Prog unit :=
  lock Main Rd ;;* let* m := GetMeta pret in emit (m_observers m) ev ;;* unlock Main Rd.

(** [value.IsExpired()] *)
Definition is_expired (v : StoredValue) : Prog bool := let* now := time_Now in pret (IsExpired now v).

(** ** One key *)

Definition t_deleteExpiredKey (key : bytes) : Prog unit :=
  let* db := read_meta current_db in
  let* a := index db (hash key) in
  lock (Shard a (hash key)) Wr ;;*
  let* sh := load a (hash key) in
  match sh !! key with
  | None => unlock (Shard a (hash key)) Wr
  | Some value =>
      let* expired := is_expired value in
      if expired then
        store a (hash key) (delete key sh) ;;* unlock (Shard a (hash key)) Wr ;;* tell (OnKeyExpired key)
      else unlock (Shard a (hash key)) Wr
  end.

Definition t_Get (key : bytes) : Prog (option bytes) :=
  let* db := read_meta current_db in
  let* a := index db (hash key) in
  lock (Shard a (hash key)) Rd ;;*
  let* sh := load a (hash key) in
  match sh !! key with
  | None => unlock (Shard a (hash key)) Rd ;;* pret None
  | Some value =>
      let* expired := is_expired value in
      if expired then unlock (Shard a (hash key)) Rd ;;* t_deleteExpiredKey key ;;* pret None
      else
        let result :=
          if SType value =? ValueTypeString then
            match SData value with StringValue d => Some d | _ => None end
          else None in
        let* observers := read_meta m_observers in
        emit observers (OnKeyAccessed key) ;;*
        unlock (Shard a (hash key)) Rd ;;*
        pret result
  end.

(** The usage of one shard is read in one section. *)
Definition t_MemoryUsage : Prog Z :=
  let* dbs := (lock Main Rd ;;* let* m := GetMeta pret in let* dbs := prange (m_databases m) in
    unlock Main Rd ;;* pret dbs) in
  pfold (fun usage '(_, db) =>
    pfold (fun usage i =>
      let* a := index (Some db) i in
      lock (Shard a i) Rd ;;*
      let* sh := load a i in
      let* entries := prange sh in
      unlock (Shard a i) Rd ;;*
      pret (foldl (fun usage '(key, value) => usage + Z.of_nat (length key) + calculateValueSize value) usage entries))
      all_shards usage) dbs 0.

Fixpoint t_evict_round (db : option nat) (observers : list nat) (count : Z) (idx : list Z) (evicted this : Z)
  : Prog (Z * Z * bool) :=
  match idx with
  | [] => pret (evicted, this, false)
  | i :: idx' =>
      if evicted <? count then
        let* a := index db i in
        lock (Shard a i) Wr ;;*
        let* sh := load a i in
        let* entries := prange sh in
        match entries with
        | [] => unlock (Shard a i) Wr ;;* t_evict_round db observers count idx' evicted this
        | (key, _) :: _ =>
            store a i (delete key sh) ;;*
            emit observers (OnKeyDeleted key) ;;*
            unlock (Shard a i) Wr ;;*
            if count <=? evicted + 1 then pret (evicted + 1, this + 1, true)
            else t_evict_round db observers count idx' (evicted + 1) (this + 1)
        end
      else pret (evicted, this, false)
  end.

Fixpoint t_evict_rounds (fuel : nat) (db : option nat) (observers : list nat) (count evicted : Z) : Prog Z :=
  if evicted <? count then
    match fuel with
    | O => Halt OutOfFuel
    | S fuel' =>
        let* (evicted', this, returned) := t_evict_round db observers count all_shards evicted 0 in
        if (returned : bool) || (this =? 0) then pret evicted' else t_evict_rounds fuel' db observers count evicted'
    end
  else pret evicted.

(** Its caller holds [s.mu]. *)
Definition t_evictLRU (count : Z) : Prog Z :=
  let* m := GetMeta pret in
  t_evict_rounds (S (Z.to_nat count)) (current_db m) (m_observers m) count 0.

(** [s.mu.Lock(); evicted := s.evictLRU(count); s.mu.Unlock()] *)
Definition t_EvictLRU (count : Z) : Prog Z :=
  lock Main Wr ;;* let* evicted := t_evictLRU count in unlock Main Wr ;;* pret evicted.

Definition t_Set (key value : bytes) (expiry : option Z) : Prog unit :=
  let* (db, memLimit) := read_meta (fun m => (current_db m, m_memoryLimit m)) in
  let* a := index db (hash key) in
  let* now := time_Now in
  lock (Shard a (hash key)) Wr ;;*
  let* sh := load a (hash key) in
  store a (hash key) (<[key := mkStored ValueTypeString (StringValue value) expiry now]> sh) ;;*
  unlock (Shard a (hash key)) Wr ;;*
  tell (OnKeySet key value) ;;*
  if 0 <? memLimit then
    let* memUsage := t_MemoryUsage in
    if memLimit <? memUsage then t_EvictLRU 1 ;;* pret tt else pret tt
  else pret tt.

Definition t_Expire (key : bytes) (expiry : Z) : Prog bool :=
  let* db := read_meta current_db in
  let* a := index db (hash key) in
  lock (Shard a (hash key)) Wr ;;*
  let* sh := load a (hash key) in
  match sh !! key with
  | None => unlock (Shard a (hash key)) Wr ;;* pret false
  | Some value =>
      let* expired := is_expired value in
      if expired then unlock (Shard a (hash key)) Wr ;;* pret false
      else
        store a (hash key) (<[key := mkStored (SType value) (SData value) (Some expiry) (Version value)]> sh) ;;*
        unlock (Shard a (hash key)) Wr ;;* pret true
  end.

(** [TTL] and [PTTL] differ in the unit of the two sentinels only. The time is read
    once for the expiry and once for the rest. *)
Definition t_remaining (unit : Z) (key : bytes) : Prog Z :=
  let* db := read_meta current_db in
  let* a := index db (hash key) in
  lock (Shard a (hash key)) Rd ;;*
  let* sh := load a (hash key) in
  match sh !! key with
  | None => unlock (Shard a (hash key)) Rd ;;* pret (-2 * unit)
  | Some value =>
      let* expired := is_expired value in
      if expired then unlock (Shard a (hash key)) Rd ;;* pret (-2 * unit)
      else match Expiry value with
           | None => unlock (Shard a (hash key)) Rd ;;* pret (-1 * unit)
           | Some e => let* now := time_Now in unlock (Shard a (hash key)) Rd ;;* pret (Until now e)
           end
  end.
Definition t_TTL (key : bytes) : Prog Z := t_remaining Second key.
Definition t_PTTL (key : bytes) : Prog Z := t_remaining Millisecond key.

Definition t_Type (key : bytes) : Prog Z :=
  let* db := read_meta current_db in
  let* a := index db (hash key) in
  lock (Shard a (hash key)) Rd ;;*
  let* sh := load a (hash key) in
  match sh !! key with
  | None => unlock (Shard a (hash key)) Rd ;;* pret ValueTypeString
  | Some value =>
      let* expired := is_expired value in
      unlock (Shard a (hash key)) Rd ;;*
      pret (if expired then ValueTypeString else SType value)
  end.

(** ** Many keys *)

Definition t_keysByShard (keys : list bytes) : gmap Z (list bytes) :=
  foldl (fun m key => <[hash key := default [] (m !! hash key) ++ [key]]> m) ∅ keys.

Definition t_Del (keys : list bytes) : Prog Z :=
  let* db := read_meta current_db in
  let* groups := prange (t_keysByShard keys) in
  pfold (fun deleted '(i, shardKeys) =>
    let* a := index db i in
    lock (Shard a i) Wr ;;*
    let* deleted := pfold (fun deleted key =>
      let* sh := load a i in
      match sh !! key with
      | Some _ => store a i (delete key sh) ;;* tell (OnKeyDeleted key) ;;* pret (deleted + 1)
      | None => pret deleted
      end) shardKeys deleted in
    unlock (Shard a i) Wr ;;* pret deleted) groups 0.

Definition t_Exists (keys : list bytes) : Prog Z :=
  let* db := read_meta current_db in
  let* groups := prange (t_keysByShard keys) in
  pfold (fun count '(i, shardKeys) =>
    let* a := index db i in
    lock (Shard a i) Rd ;;*
    let* count := pfold (fun count key =>
      let* sh := load a i in
      match sh !! key with
      | Some value => let* expired := is_expired value in pret (if expired then count else count + 1)
      | None => pret count
      end) shardKeys count in
    unlock (Shard a i) Rd ;;* pret count) groups 0.

(** ** All keys *)

Definition t_Keys (strategy : Z) (pattern : bytes) : Prog (list bytes) :=
  let* db := read_meta current_db in
  pfold (fun keys i =>
    let* a := index db i in
    lock (Shard a i) Rd ;;*
    let* sh := load a i in
    let* entries := prange sh in
    let* keys := pfold (fun keys '(key, value) =>
      let* expired := is_expired value in
      pret (if expired then keys
            else if bool_decide (pattern = []) || bool_decide (pattern = [star]) || matchPattern strategy key pattern
              then keys ++ [key] else keys)) entries keys in
    unlock (Shard a i) Rd ;;* pret keys) all_shards [].

Definition t_KeyCount : Prog Z :=
  let* db := read_meta current_db in
  pfold (fun count i =>
    let* a := index db i in
    lock (Shard a i) Rd ;;*
    let* sh := load a i in
    unlock (Shard a i) Rd ;;* pret (count + Z.of_nat (size sh))) all_shards 0.

(** The visit of one shard: the entries left, the counter [i], the keys so far; [inl] is
    the early return. *)
Fixpoint t_scan_entries (strategy cursor : Z) (match_ : bytes) (count : Z) (entries : list (bytes * StoredValue))
  (i : Z) (keys : list bytes) : Prog (Z * list bytes + Z * list bytes) :=
  match entries with
  | [] => pret (inr (i, keys))
  | (key, value) :: entries' =>
      if i <? cursor then t_scan_entries strategy cursor match_ count entries' (i + 1) keys
      else
        let* expired := is_expired value in
        if expired then t_scan_entries strategy cursor match_ count entries' i keys
        else if negb (bool_decide (match_ = [])) && negb (matchPattern strategy key match_) then
          t_scan_entries strategy cursor match_ count entries' i keys
        else
          let keys' := keys ++ [key] in
          if count <=? Z.of_nat (length keys') then pret (inl (i + 1, keys'))
          else t_scan_entries strategy cursor match_ count entries' (i + 1) keys'
  end.

Fixpoint t_scan_shards (strategy cursor : Z) (match_ : bytes) (count : Z) (db : option nat) (idx : list Z) (i : Z)
  (keys : list bytes) : Prog (Z * list bytes) :=
  match idx with
  | [] => pret (0, keys)
  | shardIdx :: idx' =>
      let* a := index db shardIdx in
      lock (Shard a shardIdx) Rd ;;*
      let* sh := load a shardIdx in
      let* entries := prange sh in
      let* r := t_scan_entries strategy cursor match_ count entries i keys in
      unlock (Shard a shardIdx) Rd ;;*
      match r with
      | inl page => pret page
      | inr (i', keys') => t_scan_shards strategy cursor match_ count db idx' i' keys'
      end
  end.

Definition t_Scan (strategy cursor : Z) (match_ : bytes) (count : Z) : Prog (Z * list bytes) :=
  let* db := read_meta current_db in
  if (count <? 0) || (maxAlloc <? 16 * count) then Halt (Panic (bs "makeslice: cap out of range"))
  else t_scan_shards strategy cursor match_ count db all_shards 0 [].

Definition t_Info (go_memory : Z) : Prog StorageInfo :=
  let* m := read_meta id in
  let* keys := t_KeyCount in
  let* usage := t_MemoryUsage in
  pret (mkStorageInfo keys usage (m_memoryLimit m) (m_currentDB m) (Z.of_nat (size (m_databases m))) go_memory n).

Definition t_count_expired (entries : list (bytes * StoredValue)) : Prog Z :=
  pfold (fun count '(_, value) => let* expired := is_expired value in pret (if expired then count + 1 else count)) entries 0.

Definition t_shard_expired (sh : shard) : Prog Z :=
  let* entries := prange sh in
  let shardKeyCount := Z.of_nat (size sh) in
  if 100 <? shardKeyCount then
    let keys := take 50 entries in
    let sampled := Z.of_nat (length keys) in
    let* expiredSample := t_count_expired keys in
    if 0 <? sampled then
      pret (int_of_float (float_mul (float_div (float_of_int expiredSample) (float_of_int sampled)) (float_of_int shardKeyCount)))
    else pret 0
  else t_count_expired entries.

(** The map is copied in one section and visited after it. *)
Definition t_DatabaseInfo : Prog (gmap Z (Z * Z)) :=
  let* databases := read_meta m_databases in
  let* dbs := prange databases in
  pfold (fun info '(dbNum, db) =>
    let* (keyCount, expiredCount) := pfold (fun '(keyCount, expiredCount) i =>
      let* a := index (Some db) i in
      lock (Shard a i) Rd ;;*
      let* sh := load a i in
      let* e := t_shard_expired sh in
      unlock (Shard a i) Rd ;;*
      pret (keyCount + Z.of_nat (size sh), expiredCount + e)) all_shards (0, 0) in
    pret (if keyCount =? 0 then info else <[dbNum := (keyCount, expiredCount)]> info)) dbs ∅.

Definition t_FlushAll : Prog unit :=
  lock Main Wr ;;*
  let* m := GetMeta pret in
  let* dbs := prange (m_databases m) in
  pfold (fun _ '(db, _) =>
    let* fresh := NewDB pret in
    let* m := GetMeta pret in
    SetMeta (mkMeta (<[db := fresh]> (m_databases m)) (m_currentDB m) (m_memoryLimit m) (m_observers m)
      (m_cleanupConfig m)) (pret tt)) dbs tt ;;*
  unlock Main Wr.

Definition t_SelectDB (db : Z) : Prog unit :=
  lock Main Wr ;;*
  if (db <? 0) || (15 <? db) then
    unlock Main Wr ;;* Halt (Err (Errorf (bs "invalid database number: " ++ FormatInt db)))
  else
    let* m := GetMeta pret in
    let* m := match m_databases m !! db with
      | Some _ => pret m
      | None =>
          let* fresh := NewDB pret in
          let m := mkMeta (<[db := fresh]> (m_databases m)) (m_currentDB m) (m_memoryLimit m) (m_observers m)
            (m_cleanupConfig m) in
          SetMeta m (pret m)
      end in
    SetMeta (mkMeta (m_databases m) db (m_memoryLimit m) (m_observers m) (m_cleanupConfig m)) (pret tt) ;;*
    unlock Main Wr.

(** ** Settings *)

(** [s.mu.Lock(); defer s.mu.Unlock(); <assignment>] *)
Definition write_meta (f : Meta -> Meta) : Prog unit :=
  lock Main Wr ;;* let* m := GetMeta pret in SetMeta (f m) (pret tt) ;;* unlock Main Wr.

Definition t_CurrentDB : Prog Z := read_meta m_currentDB.
Definition t_GetMemoryLimit : Prog Z := read_meta m_memoryLimit.
Definition t_GetCleanupConfig : Prog CleanupConfig := read_meta m_cleanupConfig.
Definition t_SetMemoryLimit (limit : Z) : Prog unit :=
  write_meta (fun m => mkMeta (m_databases m) (m_currentDB m) limit (m_observers m) (m_cleanupConfig m)).
Definition t_AddObserver (o : nat) : Prog unit :=
  write_meta (fun m => mkMeta (m_databases m) (m_currentDB m) (m_memoryLimit m) (m_observers m ++ [o]) (m_cleanupConfig m)).
Definition t_SetCleanupConfig (c : CleanupConfig) : Prog unit :=
  write_meta (fun m => mkMeta (m_databases m) (m_currentDB m) (m_memoryLimit m) (m_observers m) c).

(** ** Cleanup *)

Fixpoint t_reservoir (actual : Z) (entries : list (bytes * StoredValue)) (i : Z) (sampled : list bytes)
  : Prog (list bytes) :=
  match entries with
  | [] => pret sampled
  | (key, _) :: entries' =>
      if i <? actual then t_reservoir actual entries' (i + 1) (sampled ++ [key])
      else
        let* j := pdraw (i + 1) in
        t_reservoir actual entries' (i + 1) (if j <? actual then <[Z.to_nat j := key]> sampled else sampled)
  end.

Definition t_sample (a : nat) (i sampleSize : Z) : Prog (list bytes) :=
  lock (Shard a i) Rd ;;*
  let* sh := load a i in
  if bool_decide (size sh = 0%nat) then unlock (Shard a i) Rd ;;* pret []
  else
    let len := Z.of_nat (size sh) in
    let actual := if len <? sampleSize then len else sampleSize in
    if actual <? 0 then Halt (Panic (bs "makeslice: cap out of range"))
    else
      let* entries := prange sh in
      let* sampledKeys := if len <=? actual then pret (map fst entries) else t_reservoir actual entries 0 [] in
      let* expiredKeys := pfold (fun expiredKeys key =>
        match sh !! key with
        | Some value => let* expired := is_expired value in pret (if expired then expiredKeys ++ [key] else expiredKeys)
        | None => pret expiredKeys
        end) sampledKeys [] in
      unlock (Shard a i) Rd ;;* pret expiredKeys.

Definition t_deleteKeyBatch (a : nat) (i : Z) (keys : list bytes) : Prog unit :=
  lock (Shard a i) Wr ;;*
  pfold (fun _ key =>
    let* sh := load a i in
    match sh !! key with
    | Some value =>
        let* expired := is_expired value in
        if expired then store a i (delete key sh) ;;* tell (OnKeyExpired key) else pret tt
    | None => pret tt
    end) keys tt ;;*
  unlock (Shard a i) Wr.

Fixpoint t_delete_batches (fuel : nat) (a : nat) (i : Z) (expiredKeys : list bytes) (batchSize k : Z) : Prog unit :=
  let len := Z.of_nat (length expiredKeys) in
  if k <? len then
    match fuel with
    | O => Halt OutOfFuel
    | S fuel' =>
        let end_ := if len <? k + batchSize then len else k + batchSize in
        if (end_ <? k) || (k <? 0) then Halt (Panic (bs "slice bounds out of range"))
        else
          t_deleteKeyBatch a i (take (Z.to_nat (end_ - k)) (drop (Z.to_nat k) expiredKeys)) ;;*
          t_delete_batches fuel' a i expiredKeys batchSize (k + batchSize)
    end
  else pret tt.

Fixpoint t_cleanup_rounds (rounds : nat) (a : nat) (i : Z) (config : CleanupConfig) : Prog unit :=
  match rounds with
  | O => pret tt
  | S rounds' =>
      let* expiredKeys := t_sample a i (SampleSize config) in
      if bool_decide (expiredKeys = []) then pret tt
      else
        t_delete_batches (length expiredKeys) a i expiredKeys (BatchSize config) 0 ;;*
        let expiredRatio := float_div (float_of_int (Z.of_nat (length expiredKeys)))
                                      (float_of_int (SampleSize config)) in
        if float_ltb expiredRatio (ExpiredThreshold config) then pret tt
        else t_cleanup_rounds rounds' a i config
  end.

Definition t_cleanupShard (i : Z) (db : nat) (config : CleanupConfig) : Prog unit :=
  let* a := index (Some db) i in
  t_cleanup_rounds (Z.to_nat (MaxRounds config)) a i config.

Definition t_performCleanup : Prog unit :=
  let* config := t_GetCleanupConfig in
  let* dbs := (lock Main Rd ;;* let* m := GetMeta pret in let* dbs := prange (m_databases m) in
    unlock Main Rd ;;* pret dbs) in
  pfold (fun _ '(_, db) => pfold (fun _ i => t_cleanupShard i db config) all_shards tt) dbs tt.

(** ** Calls *)

Definition ok {A} (f : A -> Reply) (p : Prog A) : Prog Reply := pcatch f RErr p.

Definition program (op : Op) : Prog Reply :=
  match op with
  | OpGet k => ok RVal (t_Get k)
  | OpSet k v e => ok (fun _ => RUnit) (t_Set k v e)
  | OpDel ks => ok RInt (t_Del ks)
  | OpExists ks => ok RInt (t_Exists ks)
  | OpExpire k e => ok RBool (t_Expire k e)
  | OpTTL k => ok RInt (t_TTL k)
  | OpPTTL k => ok RInt (t_PTTL k)
  | OpType k => ok RInt (t_Type k)
  | OpKeys strategy pattern => ok RKeys (t_Keys strategy pattern)
  | OpKeyCount => ok RInt t_KeyCount
  | OpFlushAll => ok (fun _ => RUnit) t_FlushAll
  | OpMemoryUsage => ok RInt t_MemoryUsage
  | OpSelectDB db => ok (fun _ => RUnit) (t_SelectDB db)
  | OpCurrentDB => ok RInt t_CurrentDB
  | OpSetMemoryLimit limit => ok (fun _ => RUnit) (t_SetMemoryLimit limit)
  | OpGetMemoryLimit => ok RInt t_GetMemoryLimit
  | OpEvictLRU count => ok RInt (t_EvictLRU count)
  | OpAddObserver o => ok (fun _ => RUnit) (t_AddObserver o)
  | OpSetCleanupConfig c => ok (fun _ => RUnit) (t_SetCleanupConfig c)
  | OpCleanup => ok (fun _ => RUnit) t_performCleanup
  | OpScan strategy cursor match_ count => ok RPage (t_Scan strategy cursor match_ count)
  | OpInfo go_memory => ok RInfo (t_Info go_memory)
  | OpDatabaseInfo => ok RDatabases t_DatabaseInfo
  end.

End StorageThreads.

(** ** Runs *)

Section Runs.
  Context `{Hash : XXHash} `{Runtime : GoRuntime}.

(** A goroutine calls an operation, makes a step, or returns; time passes. *)
Inductive Label : Type :=
| LCall (i : nat) (op : Op)
| LStep (i : nat)
| LReturn (i : nat)
| LTick (t : Z).

Definition sys_next (l : Label) (s : System Reply) : option (System Reply) :=
  match l with
  | LCall i op =>
      match threads s !! i with
      | None => Some (goes_on i (program (w_shards (world s)) (w_mask (world s)) op) s)
      | Some _ => None
      end
  | LStep i => thread_step i s
  | LReturn i =>
      match threads s !! i with
      | Some (Halt _) => Some (mkSystem _ (delete i (threads s)) (mutexes s) (world s) (clock s))
      | _ => None
      end
  | LTick t => if clock s <=? t then Some (mkSystem _ (threads s) (mutexes s) (world s) t) else None
  end.

Fixpoint sys_run (ls : list Label) (s : System Reply) : option (System Reply) :=
  match ls with [] => Some s | l :: ls' => s' ← sys_next l s; sys_run ls' s' end.

Definition start (w : World) (t : Z) : System Reply := mkSystem _ ∅ ∅ w t.

(** What is seen from outside: the calls and what they return. *)
Inductive Seen : Type :=
| Called (i : nat) (op : Op)
| Returned (i : nat) (o : outcome Reply).

Definition seen (l : Label) (s : System Reply) : list Seen :=
  match l with
  | LCall i op => [Called i op]
  | LReturn i => match threads s !! i with Some (Halt o) => [Returned i o] | _ => [] end
  | _ => []
  end.

Fixpoint history (ls : list Label) (s : System Reply) : list Seen :=
  match ls with
  | [] => []
  | l :: ls' => seen l s ++ match sys_next l s with Some s' => history ls' s' | None => [] end
  end.

End Runs.
