(* ===== verification/StorageLocks.v ===== *)
(** * The locking discipline of the storage

    [safe] follows the locks a program holds: it takes no lock twice, reads and
    writes the memory only under the lock that protects it, and, if [ordered],
    takes locks in one order, a shard's before [s.mu]. Every method is safe, and
    all but eviction are ordered. *)

From Stdlib Require Import ZArith Lia String.
From stdpp Require Import base list list_numbers gmap fin_maps fin_map_dom.
From S2P Require Import Prelude GoLib StorageTypes Matching Memory MemoryInv StoreSpec Threads StorageThreads.

Local Open Scope prog_scope.

Definition rank (l : Lock) : nat := match l with Main => 1 | Shard _ _ => 0 end.

Section Locks.
  Context `{Hash : XXHash} `{Runtime : GoRuntime}.
  Context (ordered : bool) (ns mask : Z).

(** The locks held, and in which mode. *)
Abbreviation Held := (gmap Lock Mode).

Definition may_take (l : Lock) (H : Held) : Prop :=
  H !! l = None /\ (ordered = true -> forall l', is_Some (H !! l') -> (rank l' < rank l)%nat).

(** Fields that make sense when the heap has [n] databases. *)
Definition meta_ok (n : nat) (m : Meta) : Prop :=
  is_Some (current_db m) /\ (forall db a, m_databases m !! db = Some a -> (a < n)%nat) /\
  valid_config (m_cleanupConfig m) /\ (ordered = true -> m_memoryLimit m <= 0).

(** [Q]: what holds when the program is done, of the databases there are then, the
    value and the locks held. No program begins with a writer that has announced
    itself. *)
Fixpoint safe {A} (n : nat) (p : Prog A) (H : Held) (Q : nat -> A -> Held -> Prop) : Prop :=
  match p with
  | Halt (Ok a) => Q n a H
  | Halt (Err _) => H = ∅
  | Halt _ => False
  | Acq l m k => may_take l H /\ safe n k (<[l := m]> H) Q
  | AcqW _ _ => False
  | Rel l m k => H !! l = Some m /\ safe n k (delete l H) Q
  | GetMeta k => is_Some (H !! Main) /\ forall n' m, (n <= n')%nat -> meta_ok n' m -> safe n' (k m) H Q
  | SetMeta m k => H !! Main = Some Wr /\ meta_ok n m /\ safe n k H Q
  | NewDB k => forall a n', (n <= a < n')%nat -> safe n' (k a) H Q
  | Index db i k => exists a, db = Some a /\ (a < n)%nat /\ 0 <= i < ns /\ safe n (k a) H Q
  | GetShard a i k => is_Some (H !! Shard a i) /\ forall sh, safe n (k sh) H Q
  | PutShard a i sh k => H !! Shard a i = Some Wr /\ safe n k H Q
  | Emit _ _ k => safe n k H Q
  | Toss k => forall t, safe n (k t) H Q
  | Clock k => forall t, safe n (k t) H Q
  end.

Lemma safe_mono {A} (p : Prog A) : forall n H (Q Q' : nat -> A -> Held -> Prop),
  (forall n' a H', (n <= n')%nat -> Q n' a H' -> Q' n' a H') -> safe n p H Q -> safe n p H Q'.
Proof.
  induction p as [[]| | | | | | | | | | | |]; intros n H' Q Q' HQ; cbn [safe]; try done; try naive_solver.
  - intros [? Hk]. split; [done|]. intros n' m' Hn Hm. eapply H; [|by apply Hk]. intros. apply HQ; [lia|done].
  - intros Hk a n' Hn. eapply H; [|by apply Hk]. intros. apply HQ; [lia|done].
Qed.

Lemma safe_bind {A B} (p : Prog A) (k : A -> Prog B) : forall n H Q,
  safe n p H (fun n' a H' => safe n' (k a) H' Q) -> safe n (pbind p k) H Q.
Proof. induction p as [[]| | | | | | | | | | | |]; intros n H' Q; cbn [safe pbind]; naive_solver. Qed.

Lemma safe_then {A B} (p : Prog A) (k : A -> Prog B) n H Q (P : nat -> A -> Held -> Prop) : safe n p H P ->
  (forall n' a H', (n <= n')%nat -> P n' a H' -> safe n' (k a) H' Q) -> safe n (pbind p k) H Q.
Proof. intros Hp Hk. apply safe_bind. eapply safe_mono; [|exact Hp]. auto. Qed.

Lemma safe_ok {A} (f : A -> Reply) (p : Prog A) : forall n H,
  safe n p H (fun _ _ H => H = ∅) -> safe n (ok f p) H (fun _ _ H => H = ∅).
Proof. unfold ok. induction p as [[]| | | | | | | | | | | |]; intros n H'; cbn [safe pcatch]; naive_solver. Qed.

(** More databases do no harm. *)
Lemma meta_grow n n' m : (n <= n')%nat -> meta_ok n m -> meta_ok n' m.
Proof. intros Hn (? & Ha & ?). split_and!; try done; [|naive_solver..]. intros db a Hdb. apply Ha in Hdb. lia. Qed.

Lemma safe_grow {A} (p : Prog A) : forall n n' H (Q : A -> Held -> Prop), (n <= n')%nat ->
  safe n p H (fun _ => Q) -> safe n' p H (fun _ => Q).
Proof.
  induction p as [[]| | | | | | | | | | | |]; intros n n' H' Q Hn; cbn [safe]; try done; try naive_solver.
  - intros [? Hk]. split; [done|]. intros n2 m2 Hn2. apply Hk. lia.
  - intros (? & Hm & Hk). split_and!; [done|by eapply meta_grow|eauto].
  - intros Hk a n2 Hn2. apply Hk. lia.
  - intros (a & ? & ? & ? & Hk). exists a. split; [done|split; [lia|split; [done|eauto]]].
Qed.

(** A loop that keeps the locks. *)
Lemma safe_fold {A B} (f : B -> A -> Prog B) l n0 (H : Held) (Q : nat -> B -> Held -> Prop) :
  (forall n b x, (n0 <= n)%nat -> x ∈ l -> safe n (f b x) H (fun _ _ H' => H' = H)) ->
  (forall n b, (n0 <= n)%nat -> Q n b H) -> forall n b, (n0 <= n)%nat -> safe n (pfold f l b) H Q.
Proof.
  intros Hf HQ. induction l as [|x l IH]; intros n b Hn; cbn [pfold]; [by apply HQ|].
  eapply safe_then; [apply Hf; [done|left]|]. cbn. intros n' b' H' Hn' ->. apply IH; [|lia].
  intros n2 b2 x2 Hn2 Hx. apply Hf; [done|by right].
Qed.

(** ** Sections *)

Lemma take_none l : may_take l ∅.
Proof. split; [done|]. intros _ l'. rewrite lookup_empty. by intros []. Qed.

Lemma take_main a i m : may_take Main {[Shard a i := m]}.
Proof.
  split; [by rewrite lookup_singleton_ne|]. intros _ l' [m' [<- _]%lookup_singleton_Some]. cbn. lia.
Qed.

Lemma leave l m (H : Held) : H !! l = None -> delete l (<[l := m]> H) = H.
Proof. apply delete_insert_id. Qed.

Lemma safe_read_meta {A} (f : Meta -> A) n H Q : may_take Main H ->
  (forall n' m, (n <= n')%nat -> meta_ok n' m -> Q n' (f m) H) -> safe n (read_meta f) H Q.
Proof.
  intros Ht HQ. cbn. split; [done|]. rewrite lookup_insert_eq. split; [done|]. intros n' m Hn Hm. split; [done|].
  rewrite leave by apply Ht. by apply HQ.
Qed.

Lemma safe_tell ev n H Q : may_take Main H -> (forall n', (n <= n')%nat -> Q n' tt H) -> safe n (tell ev) H Q.
Proof.
  intros Ht HQ. cbn. split; [done|]. rewrite lookup_insert_eq. split; [done|]. intros n' m Hn Hm. split; [done|].
  rewrite leave by apply Ht. by apply HQ.
Qed.

(** A shard's lock around [p]. *)
Lemma safe_shard {A} a i m (p : Prog A) n Q :
  safe n p {[Shard a i := m]} (fun n' x H => H = {[Shard a i := m]} /\ Q n' x ∅) ->
  safe n (lock (Shard a i) m ;;* let* x := p in unlock (Shard a i) m ;;* pret x) ∅ Q.
Proof.
  intros Hp. cbn [lock pbind pret safe]. split; [apply take_none|]. rewrite insert_empty. eapply safe_then; [exact Hp|].
  intros n' x H' _ [-> HQ]. cbn. rewrite lookup_singleton_eq. split; [done|]. by rewrite delete_singleton_eq.
Qed.

(** ** Methods of one key *)

Context (fits : forall key, 0 <= hash mask key < ns).

(** The pointers a method begins with. *)
Lemma safe_find {A} key (k : nat -> Prog A) n Q :
  (forall n' a, (n <= n')%nat -> (a < n')%nat -> safe n' (k a) ∅ Q) ->
  safe n (let* db := read_meta current_db in let* a := index db (hash mask key) in k a) ∅ Q.
Proof.
  intros Hk. apply (safe_then _ _ n ∅ Q (fun n' db H' => H' = ∅ /\ exists a, db = Some a /\ (a < n')%nat)).
  { apply safe_read_meta; [apply take_none|]. intros n' m Hn ([a Ha] & Hm & _). split; [done|]. exists a.
    split; [done|]. by eapply Hm. }
  intros n' db H' Hn (-> & a & -> & Ha). cbn. exists a. split; [done|]. split; [done|]. split; [apply fits|]. by apply Hk.
Qed.

(** The rest of a method, when it is a few actions long. *)
Ltac held := rewrite ?insert_empty, ?lookup_singleton_eq, ?lookup_insert_eq, ?delete_singleton_eq;
  try rewrite delete_insert_id by (by rewrite lookup_singleton_ne).
Ltac act :=
  cbn [safe lock unlock load store emit index time_Now is_expired read_meta tell prange pdraw pbind pret]; held;
  match goal with
  | |- forall _, _ => intros ?
  | |- may_take _ ∅ => apply take_none
  | |- may_take Main {[Shard _ _ := _]} => apply take_main
  | |- is_Some (Some _) => eexists; reflexivity
  | |- _ = _ => reflexivity
  | |- _ /\ _ => split
  | |- safe _ (match ?x with _ => _ end) _ _ => destruct x
  | |- safe _ (pbind (match ?x with _ => _ end) _) _ _ => destruct x
  end.
Ltac acts := repeat act.

Lemma safe_deleteExpiredKey key n : safe n (t_deleteExpiredKey mask key) ∅ (fun _ _ H => H = ∅).
Proof. apply safe_find. intros. acts. Qed.

Lemma safe_Get key n : safe n (t_Get mask key) ∅ (fun _ _ H => H = ∅).
Proof.
  apply safe_find. intros. acts. eapply safe_then; [apply safe_deleteExpiredKey|]. intros n2 [] H' _ ->. acts.
Qed.

Lemma safe_Expire key expiry n : safe n (t_Expire mask key expiry) ∅ (fun _ _ H => H = ∅).
Proof. apply safe_find. intros. acts. Qed.

Lemma safe_remaining unit key n : safe n (t_remaining mask unit key) ∅ (fun _ _ H => H = ∅).
Proof. apply safe_find. intros. acts. Qed.

Lemma safe_Type key n : safe n (t_Type mask key) ∅ (fun _ _ H => H = ∅).
Proof. apply safe_find. intros. acts. Qed.

(** ** Methods of all shards *)

Lemma in_shards i : i ∈ all_shards ns -> 0 <= i < ns.
Proof. intros Hi%elem_of_seqZ. lia. Qed.

(** A loop over the shards of one database. *)
Lemma safe_shards {B} a n0 (f : B -> Z -> nat -> Prog B) (Q : nat -> B -> Held -> Prop) n b : (a < n0)%nat -> (n0 <= n)%nat ->
  (forall n b i, (n0 <= n)%nat -> 0 <= i < ns -> safe n (f b i a) ∅ (fun _ _ H => H = ∅)) ->
  (forall n b, (n0 <= n)%nat -> Q n b ∅) ->
  safe n (pfold (fun b i => let* a := index (Some a) i in f b i a) (all_shards ns) b) ∅ Q.
Proof.
  intros Ha Hn Hf HQ. apply (safe_fold _ _ n0); [|done..]. intros n' b' i Hn' Hi%in_shards. cbn.
  exists a. split; [done|]. split; [lia|]. split; [done|]. by apply Hf.
Qed.

(** The databases there are, one after the other. *)
Lemma safe_databases {B} (f : B -> nat -> Prog B) n b :
  (forall n b a, (a < n)%nat -> safe n (f b a) ∅ (fun _ _ H => H = ∅)) ->
  safe n (let* dbs := (lock Main Rd ;;* let* m := GetMeta pret in let* dbs := prange (m_databases m) in
    unlock Main Rd ;;* pret dbs) in pfold (fun b '(_, a) => f b a) dbs b) ∅ (fun _ _ H => H = ∅).
Proof.
  intros Hf. cbn [safe lock prange unlock pbind pret]. split; [apply take_none|].
  rewrite insert_empty, lookup_singleton_eq. split; [eauto|]. intros n' m Hn Hm t. split; [done|].
  rewrite delete_singleton_eq. apply (safe_fold _ _ n'); [|done..].
  intros n2 b2 [db a] Hn2 Hin. apply Hf. destruct Hm as (_ & Ha & _). rewrite (map_iter_perm t) in Hin.
  apply elem_of_map_to_list in Hin. apply Ha in Hin. lia.
Qed.

Lemma safe_MemoryUsage n : safe n (t_MemoryUsage ns) ∅ (fun _ _ H => H = ∅).
Proof.
  apply (safe_databases (fun usage a => pfold (fun usage i => let* a := index (Some a) i in
      lock (Shard a i) Rd ;;* let* sh := load a i in let* entries := prange sh in unlock (Shard a i) Rd ;;*
      pret (foldl (fun usage '(key, value) => usage + Z.of_nat (length key) + calculateValueSize value) usage entries))
      (all_shards ns) usage)).
  intros n' usage a Ha. apply (safe_shards a n' (fun usage i a => lock (Shard a i) Rd ;;* let* sh := load a i in
      let* entries := prange sh in unlock (Shard a i) Rd ;;*
      pret (foldl (fun usage '(key, value) => usage + Z.of_nat (length key) + calculateValueSize value) usage entries)));
    [done..| |done]. intros. acts.
Qed.

(** A loop over the shards of the database selected. *)
Lemma safe_selected {B} (f : B -> Z -> nat -> Prog B) n b :
  (forall n b i a, 0 <= i < ns -> safe n (f b i a) ∅ (fun _ _ H => H = ∅)) ->
  safe n (let* db := read_meta current_db in pfold (fun b i => let* a := index db i in f b i a) (all_shards ns) b) ∅
    (fun _ _ H => H = ∅).
Proof.
  intros Hf. apply (safe_then _ _ n ∅ _ (fun n' db H' => H' = ∅ /\ exists a, db = Some a /\ (a < n')%nat)).
  { apply safe_read_meta; [apply take_none|]. intros n' m Hn ([a Ha] & Hm & _). split; [done|]. exists a.
    split; [done|]. by eapply Hm. }
  intros n' db H' Hn (-> & a & -> & Ha). apply (safe_shards a n'); auto.
Qed.

Lemma safe_KeyCount n : safe n (t_KeyCount ns) ∅ (fun _ _ H => H = ∅).
Proof.
  apply (safe_selected (fun count i a => lock (Shard a i) Rd ;;* let* sh := load a i in
    unlock (Shard a i) Rd ;;* pret (count + Z.of_nat (size sh)))). intros. acts.
Qed.

Lemma safe_Keys strategy pattern n : safe n (t_Keys ns strategy pattern) ∅ (fun _ _ H => H = ∅).
Proof.
  apply (safe_selected (fun keys i a => lock (Shard a i) Rd ;;* let* sh := load a i in let* entries := prange sh in
    let* keys := pfold (fun keys '(key, value) =>
      let* expired := is_expired value in
      pret (if expired then keys
            else if bool_decide (pattern = []) || bool_decide (pattern = [star]) || matchPattern strategy key pattern
              then keys ++ [key] else keys)) entries keys in
    unlock (Shard a i) Rd ;;* pret keys)).
  intros n' keys i a Hi. acts. eapply safe_then.
  - apply (safe_fold _ _ n' _ (fun _ _ H => H = {[Shard a i := Rd]})); [|done..]. intros ? ? [] ? ?. acts.
  - cbn beta. intros ? ? ? ? ->. acts.
Qed.

(** ** Scan and statistics *)

Lemma safe_scan_entries strategy cursor match_ count entries : forall i keys n H,
  safe n (t_scan_entries strategy cursor match_ count entries i keys) H (fun _ _ H' => H' = H).
Proof.
  induction entries as [|[key v] entries IH]; intros i keys n H; cbn [t_scan_entries]; [done|].
  destruct (i <? cursor); [apply IH|]. cbn. intros t. destruct (IsExpired t v); [apply IH|].
  destruct (_ && _); [apply IH|]. destruct (_ <=? _); [done|apply IH].
Qed.

Lemma safe_scan_shards strategy cursor match_ count a idx : Forall (fun i => 0 <= i < ns) idx -> forall i keys n, (a < n)%nat ->
  safe n (t_scan_shards strategy cursor match_ count (Some a) idx i keys) ∅ (fun _ _ H => H = ∅).
Proof.
  induction 1 as [|x idx Hx _ IH]; intros i keys n Ha; cbn [t_scan_shards]; [done|]. cbn [safe index pbind pret].
  exists a. do 3 (split; [done|]). acts. eapply safe_then; [apply safe_scan_entries|].
  intros n' r H' Hn ->. acts. apply IH. lia.
Qed.

Lemma safe_Scan strategy cursor match_ count n : 0 <= count -> 16 * count <= maxAlloc ->
  safe n (t_Scan ns strategy cursor match_ count) ∅ (fun _ _ H => H = ∅).
Proof.
  intros Hc Hm. unfold t_Scan. apply (safe_then _ _ n ∅ _ (fun n' db H' => H' = ∅ /\ exists a, db = Some a /\ (a < n')%nat)).
  { apply safe_read_meta; [apply take_none|]. intros n' m Hn ([a Ha] & Hdb & _). split; [done|]. exists a.
    split; [done|]. by eapply Hdb. }
  intros n' db H' Hn (-> & a & -> & Ha). destruct (Z.ltb_spec count 0), (Z.ltb_spec maxAlloc (16 * count)); try lia.
  apply safe_scan_shards; [|done]. apply Forall_forall. apply in_shards.
Qed.

Lemma safe_Info go_memory n : safe n (t_Info ns go_memory) ∅ (fun _ _ H => H = ∅).
Proof.
  unfold t_Info. eapply safe_then; [apply (safe_read_meta _ _ _ (fun _ _ H => H = ∅)); [apply take_none|done]|].
  intros n1 m H1 _ ->. eapply safe_then; [apply safe_KeyCount|]. intros n2 k H2 _ ->.
  eapply safe_then; [apply safe_MemoryUsage|]. by intros n3 u H3 _ ->.
Qed.

Lemma safe_count_expired entries n H : safe n (t_count_expired entries) H (fun _ _ H' => H' = H).
Proof. apply (safe_fold _ _ n); [|done..]. intros ? ? [] ? ?. acts. Qed.

Lemma safe_shard_expired sh n H : safe n (t_shard_expired sh) H (fun _ _ H' => H' = H).
Proof.
  unfold t_shard_expired. cbn [safe prange pbind pret]. intros t. cbn zeta. destruct (100 <? _); [|apply safe_count_expired].
  eapply safe_then; [apply safe_count_expired|]. intros n' e H' _ ->. by destruct (0 <? _).
Qed.

Lemma safe_DatabaseInfo n : safe n (t_DatabaseInfo ns) ∅ (fun _ _ H => H = ∅).
Proof.
  unfold t_DatabaseInfo.
  eapply (safe_then _ _ _ _ _ (fun n' dbs H => H = ∅ /\ forall db a, dbs !! db = Some a -> (a < n')%nat)).
  { apply safe_read_meta; [apply take_none|]. intros n' m _ (_ & Ha & _). done. }
  intros n' dbs H' _ [-> Ha] t. apply (safe_fold _ _ n'); [|done..]. intros n2 info [db a] Hn2 Hin.
  rewrite (map_iter_perm t) in Hin. apply elem_of_map_to_list, Ha in Hin.
  eapply (safe_then _ _ _ _ _ (fun _ _ H => H = ∅)); [|by intros ? [] ? _ ->].
  apply (safe_fold _ _ n2); [|done..]. intros n3 [k e] i Hn3 Hi%in_shards. cbn [safe index pbind pret].
  exists a. split; [done|]. split; [lia|]. split; [done|]. acts. eapply safe_then; [apply safe_shard_expired|].
  intros n4 e' H4 _ ->. acts.
Qed.

(** ** Methods of many keys *)

Lemma keys_in_range keys i g : t_keysByShard mask keys !! i = Some g -> 0 <= i < ns.
Proof.
  unfold t_keysByShard.
  assert (H : forall m : gmap Z (list bytes), (forall j g, m !! j = Some g -> 0 <= j < ns) ->
    foldl (fun m key => <[hash mask key := default [] (m !! hash mask key) ++ [key]]> m) m keys !! i = Some g -> 0 <= i < ns).
  { induction keys as [|key keys IH]; intros m Hm; cbn; [apply Hm|]. apply IH.
    intros j g' [[<- _]|[_ Hj]]%lookup_insert_Some; [apply fits|by eapply Hm]. }
  apply H. intros j g'. by rewrite lookup_empty.
Qed.

Lemma safe_groups {B} keys md (f : nat -> Z -> B -> bytes -> Prog B) b n :
  (forall n a i b key, safe n (f a i b key) {[Shard a i := md]} (fun _ _ H => H = {[Shard a i := md]})) ->
  safe n (let* db := read_meta current_db in let* groups := prange (t_keysByShard mask keys) in
      pfold (fun b '(i, ks) => let* a := index db i in
        lock (Shard a i) md ;;* let* b := pfold (f a i) ks b in unlock (Shard a i) md ;;* pret b) groups b) ∅ (fun _ _ H => H = ∅).
Proof.
  intros Hf. apply (safe_then _ _ n ∅ _ (fun n' db H' => H' = ∅ /\ exists a, db = Some a /\ (a < n')%nat)).
  { apply safe_read_meta; [apply take_none|]. intros n' m Hn ([a Ha] & Hm & _). split; [done|]. exists a.
    split; [done|]. by eapply Hm. }
  intros n' db H' Hn (-> & a & -> & Ha). cbn [safe prange pbind pret]. intros t.
  apply (safe_fold _ _ n'); [|done..]. intros n2 b2 [i ks] Hn2 Hin. rewrite (map_iter_perm t) in Hin.
  apply elem_of_map_to_list, keys_in_range in Hin. cbn. exists a. split; [done|]. split; [lia|]. split; [done|].
  apply (safe_shard a i md (pfold (f a i) ks b2)). apply (safe_fold _ _ n2); [|done..]. intros. apply Hf.
Qed.

Lemma safe_Del keys n : safe n (t_Del mask keys) ∅ (fun _ _ H => H = ∅).
Proof.
  apply (safe_groups keys Wr (fun a i deleted key => let* sh := load a i in
      match sh !! key with
      | Some _ => store a i (delete key sh) ;;* tell (OnKeyDeleted key) ;;* pret (deleted + 1)
      | None => pret deleted
      end)). intros. acts.
Qed.

Lemma safe_Exists keys n : safe n (t_Exists mask keys) ∅ (fun _ _ H => H = ∅).
Proof.
  apply (safe_groups keys Rd (fun a i count key => let* sh := load a i in
      match sh !! key with
      | Some value => let* expired := is_expired value in pret (if expired then count else count + 1)
      | None => pret count
      end)). intros. acts.
Qed.

(** ** Eviction and writes *)

Lemma take_shard_out a i : ordered = false -> may_take (Shard a i) {[Main := Wr]}.
Proof. intros E. split; [by rewrite lookup_singleton_ne|]. by rewrite E. Qed.

Lemma safe_evict_round a os count idx n0 : ordered = false -> (a < n0)%nat -> forall n evicted this, (n0 <= n)%nat ->
  (forall i, i ∈ idx -> 0 <= i < ns) ->
  safe n (t_evict_round (Some a) os count idx evicted this) {[Main := Wr]}
    (fun _ '(evicted', this', _) H => H = {[Main := Wr]} /\ evicted' - evicted = this' - this /\ this <= this').
Proof.
  intros Eo Ha. induction idx as [|i idx IH]; intros n evicted this Hn Hidx; cbn [t_evict_round]; [cbn; split_and!; done || lia|].
  destruct (evicted <? count); [|cbn; split_and!; done || lia].
  assert (Hrel : forall m, delete (Shard a i) (<[Shard a i := m]> {[Main := Wr]}) = ({[Main := Wr]} : Held)).
  { intros m. apply leave. by rewrite lookup_singleton_ne. }
  cbn [safe index pbind pret lock load prange]. exists a. split; [done|]. split; [lia|]. split; [apply Hidx; left|].
  split; [by apply take_shard_out|]. rewrite lookup_insert_eq. split; [eauto|]. intros sh t.
  assert (Hidx' : forall j, j ∈ idx -> 0 <= j < ns) by (intros; apply Hidx; by right).
  destruct (map_iter t sh) as [|[key v] entries]; cbn [safe store emit unlock pbind pret]; rewrite lookup_insert_eq.
  - split; [done|]. rewrite Hrel. by apply IH.
  - split; [done|]. split; [done|]. rewrite Hrel.
    destruct (count <=? evicted + 1); [cbn; split_and!; done || lia|].
    eapply safe_mono; [|by apply IH]. intros n' [[e' t'] r] H' _ (-> & ? & ?). split_and!; [done|lia..].
Qed.

Lemma safe_evict_rounds a os count n0 fuel : ordered = false -> (a < n0)%nat -> forall n evicted, (n0 <= n)%nat ->
  count - evicted < Z.of_nat fuel ->
  safe n (t_evict_rounds ns fuel (Some a) os count evicted) {[Main := Wr]} (fun _ _ H => H = {[Main := Wr]}).
Proof.
  intros Eo Ha. induction fuel as [|fuel IH]; intros n evicted Hn Hfuel; cbn [t_evict_rounds];
    (destruct (Z.ltb_spec evicted count); [|done]); [lia|].
  eapply safe_then; [apply (safe_evict_round a os count (all_shards ns) n0); [done..|apply in_shards]|].
  cbn beta. intros n' [[e t] r] H' Hn' (-> & He & Ht). destruct r; [done|]. destruct (Z.eqb_spec t 0); [done|].
  apply IH; lia.
Qed.

Lemma safe_EvictLRU count n : ordered = false -> safe n (t_EvictLRU ns count) ∅ (fun _ _ H => H = ∅).
Proof.
  intros Eo. unfold t_EvictLRU, t_evictLRU. cbn [safe lock pbind pret]. split; [apply take_none|].
  rewrite insert_empty, lookup_singleton_eq. split; [eauto|]. intros n' m Hn ([a Ha] & Hm & _). rewrite Ha.
  eapply safe_then; [apply (safe_evict_rounds a _ count n'); [done|by eapply Hm|done|lia]|].
  cbn beta. intros n2 e H' _ ->. acts.
Qed.

Lemma safe_Set key value expiry n : safe n (t_Set ns mask key value expiry) ∅ (fun _ _ H => H = ∅).
Proof.
  unfold t_Set. apply (safe_then _ _ n ∅ _ (fun n' '(db, limit) H' => H' = ∅ /\ (exists a, db = Some a /\ (a < n')%nat) /\
    (ordered = true -> limit <= 0))).
  { apply safe_read_meta; [apply take_none|]. intros n' m Hn ([a Ha] & Hm & _ & Hl). split_and!; [done| |done]. exists a.
    split; [done|]. by eapply Hm. }
  intros n' [db limit] H' Hn (-> & (a & -> & Ha) & Hl). cbn [safe index pbind pret]. exists a. split; [done|]. split; [done|].
  split; [apply fits|]. cbn [safe time_Now lock load store unlock pbind pret]. intros now. split; [apply take_none|]. held.
  split; [eauto|]. intros sh. split; [done|]. split; [done|]. held. eapply safe_then.
  { apply (safe_tell _ n' ∅ (fun _ _ H => H = ∅)); [apply take_none|done]. }
  cbn beta. intros n2 _ H' _ ->. destruct (Z.ltb_spec 0 limit); [|done].
  eapply safe_then; [apply safe_MemoryUsage|]. cbn beta. intros n3 usage H' _ ->. destruct (limit <? usage); [|done].
  eapply safe_then; [apply safe_EvictLRU|].
  - destruct ordered; [|done]. specialize (Hl eq_refl). lia.
  - by cbn.
Qed.

(** ** Settings *)

Lemma safe_write (f : Meta -> Meta) n : (forall n m, meta_ok n m -> meta_ok n (f m)) ->
  safe n (write_meta f) ∅ (fun _ _ H => H = ∅).
Proof.
  intros Hf. cbn. split; [apply take_none|]. rewrite insert_empty, lookup_singleton_eq. split; [eauto|].
  intros n' m Hn Hm. split_and!; [done|by apply Hf|done|]. by rewrite delete_singleton_eq.
Qed.

Lemma meta_new db a n m : meta_ok n m -> (a < n)%nat ->
  meta_ok n (mkMeta (<[db := a]> (m_databases m)) (m_currentDB m) (m_memoryLimit m) (m_observers m) (m_cleanupConfig m)).
Proof.
  intros ([c Hc] & Hm & Hcfg & Hl) Hn. unfold meta_ok, current_db in *. cbn. split_and!; try done.
  - destruct (decide (db = m_currentDB m)) as [->|]; [rewrite lookup_insert_eq; eauto|].
    rewrite lookup_insert_ne by done. eauto.
  - intros db' a' [[_ <-]|[_ Ha]]%lookup_insert_Some; [lia|eauto].
Qed.

(** A new database for a number, under [s.mu]. *)
Lemma safe_renew db n : safe n (let* fresh := NewDB pret in let* m := GetMeta pret in
    SetMeta (mkMeta (<[db := fresh]> (m_databases m)) (m_currentDB m) (m_memoryLimit m) (m_observers m)
      (m_cleanupConfig m)) (pret tt)) {[Main := Wr]} (fun _ _ H => H = {[Main := Wr]}).
Proof.
  cbn. intros a n' Hn. rewrite lookup_singleton_eq. split; [eauto|]. intros n2 m Hn2 Hm. split; [done|]. split; [|done].
  apply meta_new; [done|lia].
Qed.

Lemma safe_FlushAll n : safe n t_FlushAll ∅ (fun _ _ H => H = ∅).
Proof.
  unfold t_FlushAll. cbn [safe lock prange pbind pret]. split; [apply take_none|].
  rewrite insert_empty, lookup_singleton_eq. split; [eauto|]. intros n' m Hn Hm t. eapply safe_then.
  - apply (safe_fold _ _ n' _ (fun _ _ H => H = {[Main := Wr]})); [|done..]. intros n2 _ [db a] _ _. apply safe_renew.
  - cbn beta. intros ? ? ? ? ->. acts.
Qed.

Lemma safe_SelectDB db n : safe n (t_SelectDB db) ∅ (fun _ _ H => H = ∅).
Proof.
  unfold t_SelectDB. cbn [safe lock pbind pret]. split; [apply take_none|]. rewrite insert_empty.
  destruct (_ || _); [by acts|]. cbn [safe pbind pret]. rewrite lookup_singleton_eq. split; [eauto|].
  intros n' m Hn Hm. apply (safe_then _ _ n' _ _ (fun n2 m2 H => H = {[Main := Wr]} /\ meta_ok n2 m2 /\ is_Some (m_databases m2 !! db))).
  - destruct (m_databases m !! db) eqn:Edb; cbn; [rewrite Edb; eauto|]. intros a n2 Hn2. rewrite lookup_singleton_eq.
    assert (Hm2 : meta_ok n2 (mkMeta (<[db := a]> (m_databases m)) (m_currentDB m) (m_memoryLimit m) (m_observers m)
      (m_cleanupConfig m))) by (apply meta_new; [apply (meta_grow n'); [lia|done]|lia]).
    split; [done|]. split; [done|]. split; [done|]. split; [done|]. rewrite lookup_insert_eq. eauto.
  - intros n2 m2 H' Hn2 (-> & (_ & Ha & Hcfg & Hl) & Hdb). cbn. rewrite lookup_singleton_eq. split; [done|].
    split; [by split_and!|]. split; [done|]. by rewrite delete_singleton_eq.
Qed.

(** ** Cleanup *)

Lemma safe_reservoir actual entries : forall n i sampled (H : Held),
  safe n (t_reservoir actual entries i sampled) H (fun _ _ H' => H' = H).
Proof.
  induction entries as [|[key v] entries IH]; intros n i sampled H; cbn [t_reservoir]; [done|].
  destruct (i <? actual); [apply IH|]. cbn. intros t. apply IH.
Qed.

Lemma safe_sample a i sampleSize n : 0 <= sampleSize -> safe n (t_sample a i sampleSize) ∅ (fun _ _ H => H = ∅).
Proof.
  intros Hsize. unfold t_sample. cbn [safe lock load pbind pret]. split; [apply take_none|].
  rewrite insert_empty, lookup_singleton_eq. split; [eauto|]. intros sh. case_bool_decide; [acts|].
  set (actual := if Z.of_nat (size sh) <? sampleSize then Z.of_nat (size sh) else sampleSize).
  assert (Hactual : 0 <= actual) by (unfold actual; destruct (_ <? _); lia).
  destruct (Z.ltb_spec actual 0); [lia|]. cbn [safe prange pbind pret]. intros t.
  apply (safe_then _ _ n _ _ (fun _ _ H => H = {[Shard a i := Rd]})).
  { destruct (_ <=? _); [done|apply safe_reservoir]. }
  intros n' sampled H' Hn ->. eapply safe_then.
  - apply (safe_fold _ _ n' _ (fun _ _ H => H = {[Shard a i := Rd]})); [|done..]. intros. acts.
  - cbn beta. intros ? ? ? ? ->. acts.
Qed.

Lemma safe_deleteKeyBatch a i keys n : safe n (t_deleteKeyBatch a i keys) ∅ (fun _ _ H => H = ∅).
Proof.
  unfold t_deleteKeyBatch. cbn [safe lock pbind pret]. split; [apply take_none|]. rewrite insert_empty. eapply safe_then.
  - apply (safe_fold _ _ n _ (fun _ _ H => H = {[Shard a i := Wr]})); [|done..]. intros. acts.
  - cbn beta. intros ? ? ? ? ->. acts.
Qed.

Lemma safe_delete_batches a i keys batch fuel : 0 < batch -> forall n k, 0 <= k ->
  Z.of_nat (length keys) - k <= Z.of_nat fuel -> safe n (t_delete_batches fuel a i keys batch k) ∅ (fun _ _ H => H = ∅).
Proof.
  intros Hb. induction fuel as [|fuel IH]; intros n k Hk Hfuel; cbn [t_delete_batches];
    (destruct (Z.ltb_spec k (Z.of_nat (length keys))); [|done]); [lia|].
  destruct (Z.ltb_spec (Z.of_nat (length keys)) (k + batch)).
  - destruct (Z.ltb_spec (Z.of_nat (length keys)) k), (Z.ltb_spec k 0); cbn [orb]; try lia.
    eapply safe_then; [apply safe_deleteKeyBatch|]. cbn beta. intros ? ? ? ? ->. apply IH; lia.
  - destruct (Z.ltb_spec (k + batch) k), (Z.ltb_spec k 0); cbn [orb]; try lia.
    eapply safe_then; [apply safe_deleteKeyBatch|]. cbn beta. intros ? ? ? ? ->. apply IH; lia.
Qed.

Lemma safe_cleanup_rounds a i config rounds : valid_config config -> forall n,
  safe n (t_cleanup_rounds rounds a i config) ∅ (fun _ _ H => H = ∅).
Proof.
  intros [Hs Hb]. induction rounds as [|rounds IH]; intros n; cbn [t_cleanup_rounds]; [done|].
  eapply safe_then; [by apply safe_sample|]. cbn beta. intros n' keys ? Hn ->. case_bool_decide; [done|].
  eapply safe_then; [by apply safe_delete_batches; [|lia..]|]. cbn beta. intros ? ? ? ? ->.
  destruct (float_ltb _ _); [done|apply IH].
Qed.

Lemma safe_performCleanup n : safe n (t_performCleanup ns) ∅ (fun _ _ H => H = ∅).
Proof.
  unfold t_performCleanup. apply (safe_then _ _ n ∅ _ (fun _ config H => H = ∅ /\ valid_config config)).
  { apply safe_read_meta; [apply take_none|]. intros n' m Hn (_ & _ & ? & _). done. }
  intros n' config H' Hn [-> Hcfg].
  apply (safe_databases (fun _ a => pfold (fun _ i => t_cleanupShard i a config) (all_shards ns) tt)).
  intros n2 _ a Ha. apply (safe_shards a n2 (fun _ i a => t_cleanup_rounds (Z.to_nat (MaxRounds config)) a i config));
    [done..| |done]. intros. by apply safe_cleanup_rounds.
Qed.

(** ** Calls *)

(** The calls the theorems are about: a cleanup configuration that can be used, a page
    that can be allocated; and, in order, nothing that evicts. *)
Definition call_ok (op : Op) : Prop :=
  op_ok op /\ (ordered = true -> match op with OpEvictLRU _ => False | OpSetMemoryLimit limit => limit <= 0 | _ => True end).

Lemma safe_program op n : call_ok op -> safe n (program ns mask op) ∅ (fun _ _ H => H = ∅).
Proof.
  intros [Hop Ho]. destruct op; apply safe_ok; try by auto using safe_Get, safe_Set, safe_Del, safe_Exists, safe_Expire,
    safe_remaining, safe_Type, safe_Keys, safe_KeyCount, safe_MemoryUsage, safe_performCleanup, safe_FlushAll, safe_SelectDB,
    safe_Info, safe_DatabaseInfo.
  - apply safe_remaining.
  - apply safe_remaining.
  - apply safe_read_meta; [apply take_none|done].
  - apply safe_write. intros n' m (? & ? & ? & ?). by split_and!.
  - apply safe_read_meta; [apply take_none|done].
  - apply safe_EvictLRU. destruct ordered; [by destruct Ho|done].
  - apply safe_write. intros n' m (? & ? & ? & ?). by split_and!.
  - apply safe_write. intros n' m (? & ? & ? & ?). by split_and!.
  - destruct Hop. by apply safe_Scan.
Qed.

End Locks.
