(* ===== verification/StorageGuard.v ===== *)
(** * Goroutines that follow the locking discipline

    The invariant that ties what each goroutine holds to the state of the locks,
    and what follows from it: exclusion, no panic, and progress. *)

From Stdlib Require Import ZArith Lia String.
From stdpp Require Import base list list_numbers functions gmap fin_maps fin_map_dom sets.
From S2P Require Import Prelude GoLib StorageTypes Matching Memory MemoryInv StoreSpec Threads StorageThreads StorageLocks.

Section Guard.
  Context `{Hash : XXHash} `{Runtime : GoRuntime}.
  Context (ordered : bool) (ns mask : Z).
  Context (small : 32 * ns <= maxAlloc).

Abbreviation Held := (gmap Lock Mode).

(** A writer that has announced itself still has to take the lock. *)
Definition plain {R} (p : Prog R) : Prog R := match p with AcqW l k => Acq l Wr k | p => p end.

Definition at_end : nat -> Reply -> Held -> Prop := fun _ _ H => H = ∅.

Definition follows (n : nat) (p : Prog Reply) (H : Held) : Prop := safe ordered ns n (plain p) H at_end.

(** The memory of a storage with [ns] shards. *)
Record sound (w : World) : Prop := {
  s_meta : meta_ok ordered (length (w_heap w)) (w_meta w);
  s_len : forall a shs, w_heap w !! a = Some shs -> length shs = Z.to_nat ns;
  s_shards : w_shards w = ns;
  s_mask : w_mask w = mask
}.

(** [h]: the locks each goroutine holds. *)
Record guarded (s : System Reply) (h : nat -> Held) : Prop := {
  g_safe : forall i p, threads s !! i = Some p -> follows (length (w_heap (world s))) p (h i);
  g_none : forall i, threads s !! i = None -> h i = ∅;
  g_read : forall l i, i ∈ readers (mutex s l) <-> h i !! l = Some Rd;
  g_write : forall l i, writer (mutex s l) = Some i <-> h i !! l = Some Wr;
  g_excl : forall l i, writer (mutex s l) = Some i -> readers (mutex s l) = ∅ /\ waiting (mutex s l) = None;
  g_wait : forall l i, waiting (mutex s l) = Some i <-> exists k, threads s !! i = Some (AcqW l k);
  g_sound : sound (world s)
}.

Lemma follows_plain n p H : safe ordered ns n p H at_end -> follows n p H /\ forall l k, p <> AcqW l k.
Proof. intros Hp. split; [|by intros l k ->]. unfold follows. by destruct p. Qed.

Lemma follows_grow n n' p H : (n <= n')%nat -> follows n p H -> follows n' p H.
Proof. intros Hn. apply (safe_grow ordered ns (plain p) n n' H (fun _ H => H = ∅) Hn). Qed.

(** ** Locks *)

Lemma mutex_same {R} l m (s : System R) : mutex (with_lock l m s) l = m.
Proof. unfold mutex. cbn. by rewrite lookup_insert_eq. Qed.
Lemma mutex_other {R} l l' m (s : System R) : l' <> l -> mutex (with_lock l m s) l' = mutex s l'.
Proof. intros. unfold mutex. cbn. by rewrite lookup_insert_ne. Qed.

(** A step that takes and leaves no lock. *)
Lemma guarded_goes s h i p p' w : guarded s h -> threads s !! i = Some p -> (forall l k, p <> AcqW l k) ->
  (length (w_heap (world s)) <= length (w_heap w))%nat -> sound w ->
  safe ordered ns (length (w_heap w)) p' (h i) at_end -> guarded (goes_on i p' (with_world w s)) h.
Proof.
  intros [] Hi Hp Hlen Hw Hp'. apply follows_plain in Hp' as [Hp' Hn].
  split; cbn [threads world goes_on with_world]; try done.
  - intros j q [[<- <-]|[Hj Hq]]%lookup_insert_Some; [done|]. eapply follows_grow; [done|]. by apply g_safe0.
  - intros j [? ?]%lookup_insert_None. by apply g_none0.
  - intros l j. change (mutex (goes_on i p' (with_world w s)) l) with (mutex s l).
    rewrite g_wait0. destruct (decide (j = i)) as [->|Hj].
    + rewrite lookup_insert_eq. split; intros [k Hk]; naive_solver.
    + by rewrite lookup_insert_ne by done.
Qed.

(** A step that changes the lock [l], for goroutine [i] only. *)
Lemma guarded_lock s h i p p' l m H' : guarded s h -> threads s !! i = Some p ->
  follows (length (w_heap (world s))) p' H' ->
  (forall l', l' <> l -> H' !! l' = h i !! l') ->
  (forall l', l' <> l -> (exists k, p = AcqW l' k) <-> exists k, p' = AcqW l' k) ->
  (forall j, j ∈ readers m <-> (if decide (j = i) then H' !! l = Some Rd else j ∈ readers (mutex s l))) ->
  (forall j, writer m = Some j <-> (if decide (j = i) then H' !! l = Some Wr else writer (mutex s l) = Some j)) ->
  (forall j, writer m = Some j -> readers m = ∅ /\ waiting m = None) ->
  (forall j, waiting m = Some j <-> (if decide (j = i) then exists k, p' = AcqW l k else waiting (mutex s l) = Some j)) ->
  guarded (goes_on i p' (with_lock l m s)) (<[i := H']> h).
Proof.
  intros [] Hi Hp' Hother Hwait' Hread Hwrite Hexcl Hwait. split; cbn [threads world goes_on with_lock]; try done.
  - intros j q [[<- <-]|[Hj Hq]]%lookup_insert_Some; [by rewrite fn_lookup_insert|].
    rewrite fn_lookup_insert_ne by done. by apply g_safe0.
  - intros j [? ?]%lookup_insert_None. rewrite fn_lookup_insert_ne by done. by apply g_none0.
  - intros l' j. change (mutex (goes_on i p' (with_lock l m s)) l') with (mutex (with_lock l m s) l').
    destruct (decide (l' = l)) as [->|Hl]; [rewrite mutex_same, Hread|rewrite mutex_other by done];
      (destruct (decide (j = i)) as [->|Hj]; [rewrite fn_lookup_insert|rewrite fn_lookup_insert_ne by done]); try done.
    by rewrite g_read0, Hother.
  - intros l' j. change (mutex (goes_on i p' (with_lock l m s)) l') with (mutex (with_lock l m s) l').
    destruct (decide (l' = l)) as [->|Hl]; [rewrite mutex_same, Hwrite|rewrite mutex_other by done];
      (destruct (decide (j = i)) as [->|Hj]; [rewrite fn_lookup_insert|rewrite fn_lookup_insert_ne by done]); try done.
    by rewrite g_write0, Hother.
  - intros l' j. change (mutex (goes_on i p' (with_lock l m s)) l') with (mutex (with_lock l m s) l').
    destruct (decide (l' = l)) as [->|Hl]; [rewrite mutex_same; apply Hexcl|rewrite mutex_other by done; apply g_excl0].
  - intros l' j. change (mutex (goes_on i p' (with_lock l m s)) l') with (mutex (with_lock l m s) l').
    destruct (decide (j = i)) as [->|Hj]; [rewrite lookup_insert_eq|rewrite lookup_insert_ne by done];
      (destruct (decide (l' = l)) as [->|Hl]; [rewrite mutex_same, Hwait|rewrite mutex_other by done]).
    + rewrite decide_True by done. naive_solver.
    + rewrite g_wait0, Hi. transitivity (exists k, p = AcqW l' k); [naive_solver|]. rewrite Hwait' by done. naive_solver.
    + by rewrite decide_False, g_wait0.
    + apply g_wait0.
Qed.

(** ** Memory *)

Lemma alloc_ok w : 0 <= ns -> sound w -> exists w', alloc w = (Ok (length (w_heap w)), w') /\ sound w' /\
  length (w_heap w') = S (length (w_heap w)).
Proof.
  intros Hns [Hm Hl Hs Hk]. unfold alloc, newShardedDatabase. change (shards (flat w)) with (w_shards w). rewrite Hs.
  destruct (Z.ltb_spec ns 0), (Z.ltb_spec maxAlloc (32 * ns)); cbn [orb]; try lia.
  eexists. split; [done|]. cbn. rewrite length_app. cbn. split; [|lia]. split; cbn; try done.
  - eapply meta_grow; [|done]. rewrite length_app. lia.
  - intros a shs [Ha|[_ Ha]]%lookup_app_Some; [by eapply Hl|].
    apply list_lookup_singleton_Some in Ha as [_ <-]. by rewrite length_replicate.
Qed.

Lemma indexed_ok w a i : sound w -> (a < length (w_heap w))%nat -> 0 <= i < ns -> indexed w (Some a) i = Ok a.
Proof.
  intros [_ Hl _ _] Ha Hi. unfold indexed, shard_at. destruct (lookup_lt_is_Some_2 (w_heap w) a Ha) as [shs Hshs].
  rewrite Hshs. cbn. destruct (Z.ltb_spec i 0); [lia|]. apply Hl in Hshs.
  by destruct (lookup_lt_is_Some_2 shs (Z.to_nat i) ltac:(lia)) as [sh ->].
Qed.

Lemma sound_write w a i sh : sound w -> sound (write_shard a i sh w).
Proof.
  intros [Hm Hl Hs Hk]. split; cbn; try done; [by rewrite length_alter|]. intros b shs.
  destruct (decide (b = a)) as [->|Hb]; [|rewrite list_lookup_alter_ne by done; by apply Hl].
  rewrite list_lookup_alter_eq. destruct (w_heap w !! a) eqn:E; [|done]. intros [= <-]. rewrite length_insert. by eapply Hl.
Qed.

(** ** Steps *)

Lemma guarded_same s h i p p' : guarded s h -> threads s !! i = Some p -> (forall l k, p <> AcqW l k) ->
  safe ordered ns (length (w_heap (world s))) p' (h i) at_end -> guarded (goes_on i p' s) h.
Proof.
  intros Hg Hi Hp Hp'. assert (guarded (goes_on i p' (with_world (world s) s)) h) as Hg'.
  { eapply guarded_goes; try done. apply Hg. }
  by destruct s.
Qed.

Lemma guarded_rlock s h i l k m : guarded s h -> threads s !! i = Some (Acq l Rd k) -> RLock i (mutex s l) = Some m ->
  guarded (goes_on i k (with_lock l m s)) (<[i := <[l := Rd]> (h i)]> h).
Proof.
  intros Hg Hi Hm. pose proof (g_safe _ _ Hg _ _ Hi) as [[Hl _] [Hk Hn]%follows_plain].
  unfold RLock in Hm. destruct (writer (mutex s l)) eqn:Ew, (waiting (mutex s l)) eqn:Ea; try done. injection Hm as <-.
  eapply guarded_lock; cbn; try done.
  - intros l' Hl'. by rewrite lookup_insert_ne.
  - intros l' _. split; intros [? ?]; [done|naive_solver].
  - intros j. rewrite lookup_insert_eq. case_decide; set_solver.
  - intros j. rewrite lookup_insert_eq. case_decide; split; intros; congruence.
  - intros j. case_decide; split; intros; naive_solver congruence.
Qed.

Lemma guarded_announce s h i l k m : guarded s h -> threads s !! i = Some (Acq l Wr k) -> announce i (mutex s l) = Some m ->
  guarded (goes_on i (AcqW l k) (with_lock l m s)) (<[i := h i]> h).
Proof.
  intros Hg Hi Hm. pose proof (g_safe _ _ Hg _ _ Hi) as Hp.
  unfold announce in Hm. destruct (writer (mutex s l)) eqn:Ew, (waiting (mutex s l)) eqn:Ea; try done. injection Hm as <-.
  eapply guarded_lock; cbn; try done.
  - intros l' Hl'. split; intros [? ?]; simplify_eq.
  - intros j. case_decide; subst; [apply (g_read _ _ Hg)|done].
  - intros j. case_decide; subst; [|by rewrite Ew]. by rewrite <- (g_write _ _ Hg), Ew.
  - intros j. case_decide; subst; [split; eauto|]. split; intros; congruence.
Qed.

Lemma guarded_enter s h i l k m : guarded s h -> threads s !! i = Some (AcqW l k) -> enter i (mutex s l) = Some m ->
  guarded (goes_on i k (with_lock l m s)) (<[i := <[l := Wr]> (h i)]> h).
Proof.
  intros Hg Hi Hm. pose proof (g_safe _ _ Hg _ _ Hi) as [[Hl _] [Hk Hn]%follows_plain].
  unfold enter in Hm. case_bool_decide as Er; [|done]. injection Hm as <-.
  assert (Hw : waiting (mutex s l) = Some i) by (apply (g_wait _ _ Hg); eauto).
  eapply guarded_lock; cbn; try done.
  - intros l' Hl'. by rewrite lookup_insert_ne.
  - intros l' Hl'. split; intros [? ?]; naive_solver.
  - intros j. rewrite lookup_insert_eq, Er. case_decide; set_solver.
  - intros j. rewrite lookup_insert_eq. case_decide; subst; [done|]. split; [congruence|].
    intros [_ ?]%(g_excl _ _ Hg). congruence.
  - intros j. case_decide; subst; split; intros; naive_solver congruence.
Qed.

Lemma guarded_runlock s h i l k : guarded s h -> threads s !! i = Some (Rel l Rd k) ->
  guarded (goes_on i k (with_lock l (RUnlock i (mutex s l)) s)) (<[i := delete l (h i)]> h).
Proof.
  intros Hg Hi. pose proof (g_safe _ _ Hg _ _ Hi) as [Hl [Hk Hn]%follows_plain].
  assert (Hr : i ∈ readers (mutex s l)) by by apply (g_read _ _ Hg).
  eapply guarded_lock; cbn; try done.
  - intros l' Hl'. by rewrite lookup_delete_ne.
  - intros l' _. split; intros [? ?]; [done|naive_solver].
  - intros j. rewrite lookup_delete_eq. case_decide; set_solver.
  - intros j. rewrite lookup_delete_eq. case_decide; subst; [|done]. split; [|done].
    intros [Hj _]%(g_excl _ _ Hg). set_solver.
  - intros j Hj%(g_excl _ _ Hg). set_solver.
  - intros j. case_decide; subst; [|done]. split; [|naive_solver]. intros [k' Hk']%(g_wait _ _ Hg). congruence.
Qed.

Lemma guarded_unlock s h i l k : guarded s h -> threads s !! i = Some (Rel l Wr k) ->
  guarded (goes_on i k (with_lock l (Unlock (mutex s l)) s)) (<[i := delete l (h i)]> h).
Proof.
  intros Hg Hi. pose proof (g_safe _ _ Hg _ _ Hi) as [Hl [Hk Hn]%follows_plain].
  assert (Hw : writer (mutex s l) = Some i) by by apply (g_write _ _ Hg).
  destruct (g_excl _ _ Hg _ _ Hw) as [Hr Ha]. eapply guarded_lock; cbn; try done.
  - intros l' Hl'. by rewrite lookup_delete_ne.
  - intros l' _. split; intros [? ?]; [done|naive_solver].
  - intros j. rewrite lookup_delete_eq, Hr. case_decide; set_solver.
  - intros j. rewrite lookup_delete_eq. case_decide; subst; [done|]. rewrite Hw. split; congruence.
  - intros j. rewrite Ha. case_decide; subst; [|done]. naive_solver.
Qed.

(** What goroutine [i] holds after its step. *)
Definition holds_next (p : Prog Reply) (H : Held) : Held :=
  match p with
  | Acq l Rd _ => <[l := Rd]> H
  | AcqW l _ => <[l := Wr]> H
  | Rel l _ _ => delete l H
  | _ => H
  end.

Lemma guarded_ext s h h' : (forall i, h i = h' i) -> guarded s h -> guarded s h'.
Proof. intros Hh []. split; intros *; rewrite <- ?Hh; eauto. Qed.

Lemma guarded_step s h i p s' : 0 <= ns -> guarded s h -> threads s !! i = Some p -> thread_step i s = Some s' ->
  guarded s' (<[i := holds_next p (h i)]> h).
Proof.
  intros Hns Hg Hi. unfold thread_step. rewrite Hi. pose proof (g_safe _ _ Hg _ _ Hi) as Hp. pose proof (g_sound _ _ Hg) as Hw.
  assert (Hsame : forall s2, guarded s2 h -> guarded s2 (<[i := h i]> h)).
  { intros s2. apply guarded_ext. intros j. destruct (decide (j = i)) as [->|]; by rewrite ?fn_lookup_insert, ?fn_lookup_insert_ne. }
  destruct p as [o|l [] k|l k|l [] k|k|m k|k|db j k|a j k|a j sh k|os ev k|k|k]; cbn in Hp |- *; try done.
  - intros (m & Hm & [= <-])%bind_Some. by apply guarded_rlock.
  - intros (m & Hm & [= <-])%bind_Some. by apply guarded_announce.
  - intros (m & Hm & [= <-])%bind_Some. by apply guarded_enter.
  - intros [= <-]. by apply guarded_runlock.
  - intros [= <-]. by apply guarded_unlock.
  - intros [= <-]. apply Hsame. destruct Hp as [_ Hp]. eapply guarded_same; try done. apply Hp; [done|]. apply Hw.
  - intros [= <-]. apply Hsame. destruct Hp as (_ & Hm & Hp). eapply guarded_goes; try done. by destruct Hw.
  - destruct (alloc_ok (world s) Hns Hw) as (w' & -> & Hw' & Hlen). intros [= <-]. apply Hsame.
    eapply guarded_goes; try done; [lia|]. apply Hp. lia.
  - intros [= <-]. destruct Hp as (a & -> & Ha & Hj & Hp). rewrite indexed_ok by done. apply Hsame. by eapply guarded_same.
  - intros [= <-]. apply Hsame. destruct Hp as [_ Hp]. eapply guarded_same; try done.
  - intros [= <-]. apply Hsame. destruct Hp as [_ Hp]. eapply guarded_goes; try done; [|by apply sound_write|];
      cbn; by rewrite length_alter.
  - intros [= <-]. apply Hsame. eapply guarded_goes; try done. by destruct Hw.
  - intros [= <-]. apply Hsame. eapply guarded_goes; try done. by destruct Hw.
  - intros [= <-]. apply Hsame. eapply guarded_same; try done.
Qed.

End Guard.
