(* ===== verification/StorageThreadsAlone.v ===== *)
(** * A method run alone is the method of Memory

    The programs of StorageThreads against the definitions of Memory: without
    interference a program returns what the method returns and leaves the storage
    the method leaves. *)

From Stdlib Require Import ZArith Lia String.
From stdpp Require Import base list list_numbers gmap fin_maps.
From S2P Require Import Prelude GoLib StorageTypes Matching Memory MemoryInv StoreSpec Threads StorageThreads.

Local Open Scope prog_scope.

Section Alone.
  Context `{Hash : XXHash} `{Runtime : GoRuntime}.
  (** The order in which a map is visited does not depend on the values in it. *)
  Context (iter_fmap : forall (A B : Type) (f : A -> B) (t : nat) (m : gmap Z A),
    map_iter t (f <$> m) = (fun '(k, a) => (k, f a)) <$> map_iter t m).
  Context (now : Z).

(** Databases have addresses on the heap, each its own, and all their shards; one is
    selected, and a hash is the number of a shard. *)
Record good (w : World) : Prop := {
  good_addr : forall db a, m_databases (w_meta w) !! db = Some a -> (a < length (w_heap w))%nat;
  good_inj : forall db db' a, m_databases (w_meta w) !! db = Some a -> m_databases (w_meta w) !! db' = Some a -> db = db';
  good_len : forall a shs, w_heap w !! a = Some shs -> length shs = Z.to_nat (w_shards w);
  good_cur : is_Some (current_db (w_meta w));
  good_hash : forall key, 0 <= hash (w_mask w) key < w_shards w
}.

(** The fields under [s.mu], the constants and the shards that exist are as before. *)
Definition steady (w w' : World) : Prop :=
  good w' /\ w_meta w' = w_meta w /\ w_shards w' = w_shards w /\ w_mask w' = w_mask w /\
  forall a i, is_Some (shard_at w a i) -> is_Some (shard_at w' a i).

(** From [w] the program does what the method does, and sets no field. *)
Definition agrees {A} (w : World) (x : outcome A * World) (y : outcome A * MemoryStorage) : Prop :=
  x.1 = y.1 /\ flat x.2 = y.2 /\ steady w x.2.
Definition simulates {A} (w : World) (p : Prog A) (m : Mem A) : Prop := agrees w (exec now p w) (m (flat w)).

Lemma steady_refl w : good w -> steady w w.
Proof. done. Qed.
Lemma steady_trans w1 w2 w3 : steady w1 w2 -> steady w2 w3 -> steady w1 w3.
Proof. intros (? & ? & ? & ? & ?) (? & ? & ? & ? & ?). split_and!; try congruence; eauto. Qed.

Lemma exec_bind {A B} (p : Prog A) (k : A -> Prog B) w :
  exec now (pbind p k) w = gbind (exec now p) (fun a => exec now (k a)) w.
Proof.
  unfold gbind. revert w. induction p as [[]| | | | | | | | | | | |]; intros w; cbn [exec pbind]; auto.
  - destruct (alloc w) as [[x|e|s|] w']; [apply H|reflexivity..].
  - destruct (indexed w db i) as [x|e|s|]; [apply H|reflexivity..].
Qed.

Lemma exec_catch {A B} (f : A -> B) h (p : Prog A) w :
  exec now (pcatch f h p) w = gtry (exec now p) (fun a => gret (f a)) (fun e => gret (h e)) w.
Proof.
  unfold gtry. revert w. induction p as [[]| | | | | | | | | | | |]; intros w; cbn [exec pcatch]; auto.
  - unfold alloc, newShardedDatabase. destruct (_ || _); [done|apply H].
  - unfold indexed. destruct db as [a|]; [|done]. destruct (shard_at w a i); [apply H|done].
Qed.

Lemma sim_bind {A B} (w : World) (p : Prog A) (m : Mem A) (k : A -> Prog B) (k' : A -> Mem B) : simulates w p m ->
  (forall a w', steady w w' -> simulates w' (k a) (k' a)) -> simulates w (pbind p k) (gbind m k').
Proof.
  unfold simulates, agrees. rewrite exec_bind. intros (E1 & E2 & Hg) Hk. unfold gbind.
  destruct (exec now p w) as [o w'] eqn:E, (m (flat w)) as [o' s']. cbn in *. subst.
  destruct o' as [a|e|s|]; try done. destruct (Hk a w' Hg) as (? & ? & ?). split; [done|split; [done|by eapply steady_trans]].
Qed.

Lemma sim_same {A} w (o : outcome A) : good w -> agrees w (o, w) (o, flat w).
Proof. by split. Qed.

Lemma sim_ret {A} w (a : A) : good w -> simulates w (pret a) (gret a).
Proof. apply sim_same. Qed.

(** Another program that does the same here. *)
Lemma sim_silent {A} (w : World) (q p : Prog A) m : exec now p w = exec now q w -> simulates w q m -> simulates w p m.
Proof. unfold simulates. by intros ->. Qed.

Lemma sim_fold {A A' B} (Rel : A -> A' -> Prop) (f : B -> A -> Prog B) (f' : B -> A' -> Mem B) l l' : forall w b,
  good w -> Forall2 Rel l l' ->
  (forall w' b a a', steady w w' -> Rel a a' -> simulates w' (f b a) (f' b a')) ->
  simulates w (pfold f l b) (gfold f' l' b).
Proof.
  intros w b Hg Hl. revert w b Hg. induction Hl as [|a a' l l' Ha _ IH]; intros w b Hg Hf; [by apply sim_ret|].
  cbn [pfold gfold]. apply sim_bind; [by apply Hf|]. intros b' w' Hs. apply IH; [apply Hs|].
  intros w'' b'' x x' Hs' Hx. apply Hf; [by eapply steady_trans|done].
Qed.

Lemma sim_fold_same {A B} (f : B -> A -> Prog B) (f' : B -> A -> Mem B) l w b : good w ->
  (forall w' b a, a ∈ l -> steady w w' -> simulates w' (f b a) (f' b a)) -> simulates w (pfold f l b) (gfold f' l b).
Proof.
  intros Hg Hf. apply (sim_fold (fun a a' => a = a' /\ a ∈ l)); [done| |].
  - apply Forall2_same_length_lookup_2; [done|]. intros i a a' E1 E2. rewrite E1 in E2. injection E2 as ->.
    split; [done|]. by eapply list_elem_of_lookup_2.
  - intros w' b' a _ Hs [<- Ha]. by apply Hf.
Qed.

Lemma sim_range {K A : Type} `{Countable K} (w : World) (m : gmap K A) : good w -> simulates w (prange m) (range_map m).
Proof. intros []. by split. Qed.

(** ** Shards *)

Lemma flat_lookup w db : databases (flat w) !! db = (fun a => default [] (w_heap w !! a)) <$> (m_databases (w_meta w) !! db).
Proof. cbn. apply lookup_fmap. Qed.

Lemma get_shard_flat w db a i : good w -> m_databases (w_meta w) !! db = Some a ->
  get_shard db i (flat w) =
  (match shard_at w a i with Some sh => Ok sh | None => Panic (bs "index out of range") end, flat w).
Proof.
  intros Hg Ha. unfold get_shard. rewrite flat_lookup, Ha. cbn [fmap option_fmap option_map].
  destruct (lookup_lt_is_Some_2 (w_heap w) a (good_addr w Hg db a Ha)) as [shs E].
  unfold shard_at. rewrite E. cbn. by destruct (if i <? 0 then None else shs !! Z.to_nat i).
Qed.

Lemma write_good w a i sh : good w -> good (write_shard a i sh w).
Proof.
  intros []. split; cbn; try done; [intros; rewrite length_alter; eauto|]. intros a' shs.
  destruct (decide (a' = a)) as [->|]; [|rewrite list_lookup_alter_ne by done; eauto].
  rewrite list_lookup_alter_eq. destruct (w_heap w !! a) as [shs'|] eqn:E; [|done]. intros [= <-].
  rewrite length_insert. eauto.
Qed.

Lemma shard_exists w db a i : good w -> m_databases (w_meta w) !! db = Some a -> 0 <= i < w_shards w ->
  is_Some (shard_at w a i).
Proof.
  intros Hg Ha Hi. destruct (lookup_lt_is_Some_2 (w_heap w) a (good_addr w Hg db a Ha)) as [shs E].
  unfold shard_at. rewrite E. cbn. destruct (Z.ltb_spec i 0); [lia|]. apply lookup_lt_is_Some.
  rewrite (good_len w Hg a shs E). lia.
Qed.

Lemma put_shard_flat w db a i sh : good w -> m_databases (w_meta w) !! db = Some a ->
  put_shard db i sh (flat w) = (Ok tt, flat (write_shard a i sh w)).
Proof.
  intros Hg Ha. unfold put_shard, flat, write_shard, set_databases. cbn. do 2 f_equal.
  apply map_eq. intros db'. destruct (decide (db' = db)) as [->|Hne].
  - rewrite lookup_alter_eq, !lookup_fmap, Ha. cbn.
    destruct (lookup_lt_is_Some_2 (w_heap w) a (good_addr w Hg db a Ha)) as [shs E].
    by rewrite list_lookup_alter_eq, E.
  - rewrite lookup_alter_ne, !lookup_fmap by done. destruct (m_databases (w_meta w) !! db') as [a'|] eqn:E; [|done]. cbn.
    rewrite list_lookup_alter_ne; [done|]. intros <-. by apply Hne, (good_inj w Hg _ _ a).
Qed.

(** ** One action *)

Lemma shard_at_write w a i sh a' i' :
  is_Some (shard_at w a' i') -> is_Some (shard_at (write_shard a i sh w) a' i').
Proof.
  unfold shard_at, write_shard. cbn. destruct (decide (a' = a)) as [->|Hne].
  - rewrite list_lookup_alter_eq. destruct (w_heap w !! a) as [shs|]; [|done]. cbn. destruct (i' <? 0); [done|].
    rewrite !lookup_lt_is_Some, length_insert. done.
  - by rewrite list_lookup_alter_ne by done.
Qed.

Lemma write_steady w a i sh : good w -> steady w (write_shard a i sh w).
Proof. intros Hg. split; [by apply write_good|]. split_and!; try done. intros. by apply shard_at_write. Qed.

(** [db := s.databases\[s.currentDB\]; sh := &db.shards\[s.keyHash(key)\]] *)
Lemma sim_key {A : Type} (w : World) (key : bytes) (k : nat -> Prog A) (k' : Z * Z * shard -> Mem A) : good w ->
  (forall a sh, current_db (w_meta w) = Some a -> shard_at w a (hash (w_mask w) key) = Some sh ->
     simulates w (k a) (k' (m_currentDB (w_meta w), hash (w_mask w) key, sh))) ->
  simulates w (let* db := read_meta current_db in let* a := index db (hash (w_mask w) key) in k a)%prog
    (gbind (key_shard key) k').
Proof.
  intros Hg Hk. unfold simulates. cbn. unfold key_shard, gbind, gget.
  change (keyHash (flat w) key) with (hash (w_mask w) key). change (currentDB (flat w)) with (m_currentDB (w_meta w)).
  unfold current_db in *. destruct (m_databases (w_meta w) !! m_currentDB (w_meta w)) as [a|] eqn:Ha.
  - cbn [indexed]. rewrite (get_shard_flat w _ a _ Hg Ha).
    destruct (shard_at w a (hash (w_mask w) key)) as [sh|] eqn:Es; [by apply Hk|by apply sim_same].
  - cbn [indexed]. unfold get_shard. rewrite flat_lookup, Ha. by apply sim_same.
Qed.

Lemma sim_tell w ev : good w -> simulates w (tell ev) (notify ev).
Proof. intros []. by split. Qed.

Lemma sim_index {A : Type} (w : World) (db : Z) (o : option nat) (i : Z) (k : nat -> Prog A) (k' : shard -> Mem A) :
  good w -> o = m_databases (w_meta w) !! db ->
  (forall a sh, m_databases (w_meta w) !! db = Some a -> shard_at w a i = Some sh -> simulates w (k a) (k' sh)) ->
  simulates w (pbind (index o i) k) (gbind (get_shard db i) k').
Proof.
  intros Hg -> Hk. unfold simulates. cbn [exec index pbind pret]. unfold gbind.
  destruct (m_databases (w_meta w) !! db) as [a|] eqn:Ha; cbn [indexed].
  - rewrite (get_shard_flat w db a i Hg Ha). destruct (shard_at w a i) as [sh|] eqn:Es; [by apply Hk|by apply sim_same].
  - unfold get_shard. rewrite flat_lookup, Ha. by apply sim_same.
Qed.

(** The databases a range visits, by address and by contents. *)
Definition same_db (w : World) (x : Z * nat) (y : Z * shardedDatabase) : Prop :=
  x.1 = y.1 /\ m_databases (w_meta w) !! x.1 = Some x.2.

Lemma range_databases w : Forall2 (same_db w) (map_iter (w_entropy w) (m_databases (w_meta w)))
  (map_iter (w_entropy w) (databases (flat w))).
Proof.
  change (databases (flat w)) with ((fun a => default [] (w_heap w !! a)) <$> m_databases (w_meta w)).
  rewrite iter_fmap. apply Forall2_fmap_r, Forall2_same_length_lookup_2; [done|].
  intros i x y E1 E2. rewrite E1 in E2. injection E2 as <-. destruct x as [db a]. split; [done|]. cbn.
  apply elem_of_map_to_list. rewrite <- (map_iter_perm (w_entropy w)). by eapply list_elem_of_lookup_2.
Qed.

Lemma sim_range_dbs {A : Type} (w : World) (k : list (Z * nat) -> Prog A) (k' : list (Z * shardedDatabase) -> Mem A) :
  good w -> (forall l l' w', steady w w' -> Forall2 (same_db w) l l' -> simulates w' (k l) (k' l')) ->
  simulates w (pbind (prange (m_databases (w_meta w))) k) (gbind (range_map (databases (flat w))) k').
Proof.
  intros Hg Hk. unfold simulates. cbn [exec pbind prange pret]. unfold gbind, range_map.
  assert (Hs : steady w (set_toss (S (w_entropy w)) w)) by (destruct Hg; by split).
  destruct (Hk _ _ _ Hs (range_databases w)) as (E1 & E2 & Hs2).
  split; [exact E1|split; [exact E2|exact (steady_trans _ _ _ Hs Hs2)]].
Qed.

(** Writing a shard, and what follows. *)
Lemma sim_store {A : Type} (w : World) (db : Z) (a : nat) (i : Z) (sh : shard) (k : Prog A) (k' : Mem A) :
  good w -> m_databases (w_meta w) !! db = Some a ->
  (forall w', steady w w' -> simulates w' k k') ->
  simulates w (let* _ := store a i sh in k)%prog (gbind (put_shard db i sh) (fun _ => k')).
Proof.
  intros Hg Ha Hk. unfold simulates. cbn [exec store pbind pret]. unfold gbind. rewrite (put_shard_flat w db a i sh Hg Ha).
  pose proof (write_steady w a i sh Hg) as Hs. destruct (Hk _ Hs) as (E1 & E2 & Hs2).
  split; [exact E1|split; [exact E2|exact (steady_trans _ _ _ Hs Hs2)]].
Qed.

Lemma sim_deleteExpiredKey w key : good w -> simulates w (t_deleteExpiredKey (w_mask w) key) (deleteExpiredKey now key).
Proof.
  intros Hg. apply sim_key; [done|]. intros a sh Ha Es. unfold is_expired, simulates. cbn [exec pbind lock load pret].
  rewrite Es. cbn [default id]. destruct (sh !! key) as [v|]; [|by apply sim_same]. cbn [exec pbind time_Now pret].
  destruct (IsExpired now v); [|by apply sim_same].
  apply (sim_store w _ a); [done..|]. intros w' Hs. apply sim_tell, Hs.
Qed.

Lemma sim_Get w key : good w -> simulates w (t_Get (w_mask w) key) (Get now key).
Proof.
  intros Hg. apply sim_key; [done|]. intros a sh Ha Es. unfold is_expired, simulates. cbn [exec pbind lock load pret].
  rewrite Es. cbn [default id]. destruct (sh !! key) as [v|]; [|by apply sim_same]. cbn [exec pbind time_Now pret].
  destruct (IsExpired now v).
  - cbn [exec pbind unlock pret]. apply (sim_bind w); [by apply sim_deleteExpiredKey|]. intros [] w' Hs. apply sim_ret, Hs.
  - unfold read_meta. cbn [exec pbind unlock lock emit pret]. destruct Hg; by split.
Qed.

Lemma sim_shard_usage w db a i usage : good w -> m_databases (w_meta w) !! db = Some a ->
  simulates w (let* a := index (Some a) i in
      lock (Shard a i) Rd ;;* let* sh := load a i in let* entries := prange sh in unlock (Shard a i) Rd ;;*
      pret (foldl (fun usage '(key, value) => usage + Z.of_nat (length key) + calculateValueSize value) usage entries))
    (let! sh := get_shard db i in let! entries := range_map sh in
      gfold (fun usage '(key, value) => gret (usage + Z.of_nat (length key) + calculateValueSize value)) entries usage).
Proof.
  intros Hg Ha. apply sim_index; [done|by rewrite Ha|]. intros a' sh Ha' Es. rewrite Ha in Ha'. injection Ha' as <-.
  apply (sim_silent w (let* entries := prange sh in
    pret (foldl (fun usage '(key, value) => usage + Z.of_nat (length key) + calculateValueSize value) usage entries))).
  { cbn [exec pbind lock load unlock pret prange]. by rewrite Es. }
  apply sim_bind; [by apply sim_range|]. intros entries w' Hs.
  unfold simulates. rewrite (gfold_pure _ (fun usage '(key, value) => usage + Z.of_nat (length key) + calculateValueSize value)).
  - apply sim_same, Hs.
  - by intros ? [].
Qed.

Lemma sim_MemoryUsage w : good w -> simulates w (t_MemoryUsage (w_shards w)) MemoryUsage.
Proof.
  intros Hg. unfold t_MemoryUsage, MemoryUsage.
  apply (sim_silent w (let* dbs := prange (m_databases (w_meta w)) in
    pfold (fun usage '(_, db) => pfold (fun usage i => let* a := index (Some db) i in
      lock (Shard a i) Rd ;;* let* sh := load a i in let* entries := prange sh in unlock (Shard a i) Rd ;;*
      pret (foldl (fun usage '(key, value) => usage + Z.of_nat (length key) + calculateValueSize value) usage entries))
      (all_shards (w_shards w)) usage) dbs 0)); [done|].
  unfold simulates. rewrite (gbind_ok _ _ (flat w) (flat w) (flat w)) by done.
  apply sim_range_dbs; [done|]. intros l l' w1 Hs1 Hl.
  apply (sim_fold (same_db w)); [apply Hs1|done|]. intros w2 usage [db a] [db' shs] Hs2 [E Ha]. cbn in E, Ha. subst db'.
  apply sim_fold_same; [apply Hs2|]. intros w3 u i _ Hs3. apply sim_shard_usage; [apply Hs3|].
  assert (Hs : steady w w3) by (eapply steady_trans; [done|by eapply steady_trans]). by destruct Hs as (_ & -> & _).
Qed.

(** ** Eviction *)

Lemma sim_emit w ev : good w -> simulates w (emit (m_observers (w_meta w)) ev) (notify ev).
Proof. intros []. by split. Qed.

(** A shard is read and what is read is visited. *)
Lemma sim_section {A : Type} (w : World) (db : Z) (o : option nat) (i : Z) (md : Mode) (k : nat -> shard -> list (bytes * StoredValue) -> Prog A)
  (k' : shard -> list (bytes * StoredValue) -> Mem A) : good w -> o = m_databases (w_meta w) !! db ->
  (forall a sh entries w', steady w w' -> m_databases (w_meta w') !! db = Some a -> is_Some (shard_at w' a i) ->
     simulates w' (k a sh entries) (k' sh entries)) ->
  simulates w (let* a := index o i in lock (Shard a i) md ;;* let* sh := load a i in let* entries := prange sh in k a sh entries)
    (let! sh := get_shard db i in let! entries := range_map sh in k' sh entries).
Proof.
  intros Hg -> Hk. apply sim_index; [done..|]. intros a sh Ha Es.
  apply (sim_silent w (let* entries := prange sh in k a sh entries)).
  { cbn [exec pbind lock load pret prange]. by rewrite Es. }
  apply sim_bind; [by apply sim_range|]. intros entries w' Hs. apply Hk; [done| |].
  - by destruct Hs as (_ & -> & _).
  - apply Hs. by rewrite Es.
Qed.

Lemma sim_unlock {A : Type} (w : World) l md (k : Prog A) m : simulates w k m -> simulates w (unlock l md ;;* k) m.
Proof. done. Qed.

Lemma sim_evict_round w0 count idx : forall w evicted this, steady w0 w ->
  simulates w (t_evict_round (current_db (w_meta w0)) (m_observers (w_meta w0)) count idx evicted this)
    (evict_round (m_currentDB (w_meta w0)) count idx evicted this).
Proof.
  induction idx as [|i idx IH]; intros w evicted this Hs; cbn [t_evict_round evict_round]; [by apply sim_ret, Hs|].
  destruct (evicted <? count); [|by apply sim_ret, Hs].
  destruct Hs as (Hg & Em & Hs). apply sim_section; [done|by rewrite Em|].
  intros a sh [|[key v] entries] w' Hs' Ha Hi.
  { apply sim_unlock, IH. eapply steady_trans; [|done]. by split. }
  apply (sim_store w' (m_currentDB (w_meta w0)) a); [apply Hs'|done|]. intros w2 Hs2.
  apply sim_bind.
  { assert (w_meta w2 = w_meta w0) as <- by (destruct Hs2 as (_ & -> & _), Hs' as (_ & -> & _); done). apply sim_emit, Hs2. }
  intros [] w3 Hs3. apply sim_unlock. assert (Hs03 : steady w0 w3).
  { eapply steady_trans; [by split|]. eapply steady_trans; [done|]. by eapply steady_trans. }
  destruct (count <=? evicted + 1); [by apply sim_ret, Hs03|by apply IH].
Qed.

Lemma sim_evict_rounds w0 fuel count : forall w evicted, steady w0 w ->
  simulates w (t_evict_rounds (w_shards w0) fuel (current_db (w_meta w0)) (m_observers (w_meta w0)) count evicted)
    (evict_rounds fuel count evicted).
Proof.
  induction fuel as [|fuel IH]; intros w evicted Hs; cbn [t_evict_rounds evict_rounds];
    (destruct (evicted <? count); [|by apply sim_ret, Hs]); [by apply sim_same, Hs|].
  unfold simulates. rewrite (gbind_ok _ _ (flat w) (flat w) (flat w)) by done.
  assert (E : currentDB (flat w) = m_currentDB (w_meta w0) /\ shard_indices (flat w) = all_shards (w_shards w0)).
  { destruct Hs as (_ & Em & En & _). unfold shard_indices, all_shards. cbn. by rewrite Em, En. }
  destruct E as [-> ->]. apply sim_bind; [by apply sim_evict_round|]. intros [[e t] r] w' Hs'.
  assert (steady w0 w') by by eapply steady_trans. destruct (_ || _); [by apply sim_ret, Hs'|by apply IH].
Qed.

Lemma sim_EvictLRU w count : good w -> simulates w (t_EvictLRU (w_shards w) count) (EvictLRU count).
Proof.
  intros Hg. unfold t_EvictLRU, EvictLRU.
  apply (sim_silent w (t_evict_rounds (w_shards w) (S (Z.to_nat count)) (current_db (w_meta w)) (m_observers (w_meta w)) count 0)).
  - cbn [pbind lock pret exec t_evictLRU]. unfold t_evictLRU. rewrite exec_bind. cbn [pbind exec pret].
    unfold gbind. by destruct (exec _ _ w) as [[] ?].
  - by apply sim_evict_rounds.
Qed.

(** ** Writes *)

Lemma sim_Set w key value expiry : good w ->
  simulates w (t_Set (w_shards w) (w_mask w) key value expiry) (Set_ now key value expiry).
Proof.
  intros Hg. unfold t_Set, Set_. unfold simulates. rewrite (gbind_ok _ _ (flat w) (flat w) (flat w)) by done.
  apply (sim_silent w (let* db := read_meta current_db in let* a := index db (hash (w_mask w) key) in
    let* sh := load a (hash (w_mask w) key) in
    store a (hash (w_mask w) key) (<[key := mkStored ValueTypeString (StringValue value) expiry now]> sh) ;;*
    tell (OnKeySet key value) ;;*
    if 0 <? m_memoryLimit (w_meta w) then
      let* memUsage := t_MemoryUsage (w_shards w) in
      if m_memoryLimit (w_meta w) <? memUsage then t_EvictLRU (w_shards w) 1 ;;* pret tt else pret tt
    else pret tt)); [done|].
  apply sim_key; [done|]. intros a sh Ha Es. unfold simulates. cbn [exec pbind load pret]. rewrite Es.
  apply (sim_store w _ a); [done..|]. intros w1 Hs1.
  apply sim_bind; [apply sim_tell, Hs1|]. intros [] w2 Hs2. destruct (steady_trans _ _ _ Hs1 Hs2) as (Hg2 & Em & En & _).
  change (memoryLimit (flat w)) with (m_memoryLimit (w_meta w)). destruct (0 <? _); [|by apply sim_ret].
  rewrite <- En. apply sim_bind; [by apply sim_MemoryUsage|]. intros usage w3 Hs3. destruct (_ <? usage); [|by apply sim_ret, Hs3].
  destruct Hs3 as (Hg3 & _ & <- & _). apply sim_bind; [by apply sim_EvictLRU|]. intros ? w4 Hs4. apply sim_ret, Hs4.
Qed.

Lemma sim_Expire w key expiry : good w -> simulates w (t_Expire (w_mask w) key expiry) (Expire now key expiry).
Proof.
  intros Hg. apply sim_key; [done|]. intros a sh Ha Es. unfold is_expired, simulates. cbn [exec pbind lock load pret].
  rewrite Es. cbn [default id]. destruct (sh !! key) as [v|]; [|by apply sim_same]. cbn [exec pbind time_Now pret].
  destruct (IsExpired now v); [by apply sim_same|].
  apply (sim_store w _ a); [done..|]. intros w' Hs. apply sim_ret, Hs.
Qed.

(** ** Reads of one key *)

Lemma sim_TTL w key : good w -> simulates w (t_TTL (w_mask w) key) (TTL now key).
Proof.
  intros Hg. apply sim_key; [done|]. intros a sh Ha Es. unfold is_expired, simulates. cbn [exec pbind lock load pret].
  rewrite Es. cbn [default id]. destruct (sh !! key) as [v|]; [|by apply sim_same]. cbn [exec pbind time_Now pret].
  destruct (IsExpired now v); [by apply sim_same|]. destruct (Expiry v); by apply sim_same.
Qed.

Lemma sim_PTTL w key : good w -> simulates w (t_PTTL (w_mask w) key) (PTTL now key).
Proof.
  intros Hg. apply sim_key; [done|]. intros a sh Ha Es. unfold is_expired, simulates. cbn [exec pbind lock load pret].
  rewrite Es. cbn [default id]. destruct (sh !! key) as [v|]; [|by apply sim_same]. cbn [exec pbind time_Now pret].
  destruct (IsExpired now v); [by apply sim_same|]. destruct (Expiry v); by apply sim_same.
Qed.

Lemma sim_Type w key : good w -> simulates w (t_Type (w_mask w) key) (Type_ now key).
Proof.
  intros Hg. apply sim_key; [done|]. intros a sh Ha Es. unfold is_expired, simulates. cbn [exec pbind lock load pret].
  rewrite Es. cbn [default id]. destruct (sh !! key) as [v|]; [|by apply sim_same]. cbn [exec pbind time_Now unlock pret].
  destruct (IsExpired now v); by apply sim_same.
Qed.

(** ** Many keys *)

(** A group of keys of one shard, under its lock. *)
Lemma sim_group {B : Type} w db a i md (f : B -> bytes -> Prog B) (f' : B -> bytes -> Mem B) keys b : good w ->
  m_databases (w_meta w) !! db = Some a -> is_Some (shard_at w a i) ->
  (forall w' b key sh, steady w w' -> m_databases (w_meta w') !! db = Some a -> shard_at w' a i = Some sh ->
     simulates w' (f b key) (f' b key)) ->
  simulates w (lock (Shard a i) md ;;* let* b := pfold f keys b in unlock (Shard a i) md ;;* pret b) (gfold f' keys b).
Proof.
  intros Hg Ha Hi Hf. apply (sim_silent w (pfold f keys b)).
  { cbn [pbind lock pret exec]. rewrite exec_bind. unfold gbind. by destruct (exec now _ w) as [[] ?]. }
  apply sim_fold_same; [done|]. intros w' b' key _ Hs. pose proof Hs as (_ & Em & _ & _ & Hi').
  destruct (Hi' a i Hi) as [sh Es]. apply (Hf w' b' key sh); [done|by rewrite Em|done].
Qed.

Lemma keysByShard_range w keys i g : good w -> t_keysByShard (w_mask w) keys !! i = Some g -> 0 <= i < w_shards w.
Proof.
  intros Hg. unfold t_keysByShard.
  assert (H : forall m : gmap Z (list bytes), (forall j g, m !! j = Some g -> 0 <= j < w_shards w) ->
    foldl (fun m key => <[hash (w_mask w) key := default [] (m !! hash (w_mask w) key) ++ [key]]> m) m keys !! i = Some g ->
    0 <= i < w_shards w).
  { induction keys as [|key keys IH]; intros m Hm; cbn; [apply Hm|]. apply IH.
    intros j g' [[<- _]|[_ Hj]]%lookup_insert_Some; [apply (good_hash w Hg)|by eapply Hm]. }
  apply H. intros j g'. by rewrite lookup_empty.
Qed.

(** The keys of a command, shard by shard. *)
Lemma sim_groups {B : Type} w keys md (f : nat -> Z -> B -> bytes -> Prog B) (f' : Z -> Z -> B -> bytes -> Mem B) b : good w ->
  (forall w' db a i b key sh, steady w w' -> m_databases (w_meta w') !! db = Some a -> shard_at w' a i = Some sh ->
     simulates w' (f a i b key) (f' db i b key)) ->
  simulates w (let* db := read_meta current_db in let* groups := prange (t_keysByShard (w_mask w) keys) in
      pfold (fun b '(i, ks) => let* a := index db i in
        lock (Shard a i) md ;;* let* b := pfold (f a i) ks b in unlock (Shard a i) md ;;* pret b) groups b)
    (let! s := gget in let! groups := range_map (keysByShard s keys) in
      gfold (fun b '(i, ks) => gfold (f' (currentDB s) i) ks b) groups b).
Proof.
  intros Hg Hf. unfold simulates. rewrite (gbind_ok _ _ (flat w) (flat w) (flat w)) by done.
  assert (Hs : steady w (set_toss (S (w_entropy w)) w)) by (destruct Hg; by split).
  cbn [exec read_meta lock unlock pbind pret prange]. unfold range_map, gbind at 1.
  change (keysByShard (flat w) keys) with (t_keysByShard (w_mask w) keys). change (entropy (flat w)) with (w_entropy w).
  change (set_entropy (S (w_entropy w)) (flat w)) with (flat (set_toss (S (w_entropy w)) w)).
  set (groups := map_iter _ _).
  assert (H : simulates (set_toss (S (w_entropy w)) w) (pfold (fun b '(i, ks) => let* a := index (current_db (w_meta w)) i in
        lock (Shard a i) md ;;* let* b := pfold (f a i) ks b in unlock (Shard a i) md ;;* pret b) groups b)
      (gfold (fun b '(i, ks) => gfold (f' (currentDB (flat w)) i) ks b) groups b)).
  { apply sim_fold_same; [apply Hs|]. intros w' b' [i ks] Hin Hs'.
    assert (Hi : 0 <= i < w_shards w).
    { apply (keysByShard_range w keys i ks Hg). apply elem_of_map_to_list. by rewrite <- (map_iter_perm (w_entropy w)). }
    destruct (steady_trans _ _ _ Hs Hs') as (Hg' & Em & En & _). destruct (good_cur w Hg) as [a Ha].
    assert (Ha' : m_databases (w_meta w') !! m_currentDB (w_meta w) = Some a) by by rewrite Em.
    destruct (shard_exists w' _ a i Hg' Ha' ltac:(by rewrite En)) as [sh Es].
    apply (sim_silent w' (lock (Shard a i) md ;;* let* b := pfold (f a i) ks b' in unlock (Shard a i) md ;;* pret b)).
    { cbn [exec index pbind pret]. rewrite Ha. cbn [indexed]. by rewrite Es. }
    apply (sim_group w' (m_currentDB (w_meta w)) a i md (f a i) (f' (m_currentDB (w_meta w)) i) ks b' Hg' Ha'); [by rewrite Es|].
    intros w2 b2 key sh2 Hs2 Ha2 Es2. apply (Hf w2 _ a i b2 key sh2); [|done..].
    eapply steady_trans; [|done]. by eapply steady_trans. }
  destruct H as (E1 & E2 & Hs2). split; [exact E1|split; [exact E2|exact (steady_trans _ _ _ Hs Hs2)]].
Qed.

Lemma sim_Del w keys : good w -> simulates w (t_Del (w_mask w) keys) (Del keys).
Proof.
  intros Hg. apply (sim_groups w keys Wr (fun a i deleted key =>
      let* sh := load a i in
      match sh !! key with
      | Some _ => store a i (delete key sh) ;;* tell (OnKeyDeleted key) ;;* pret (deleted + 1)
      | None => pret deleted
      end) (fun db i deleted key =>
      let! sh := get_shard db i in
      match sh !! key with
      | Some _ => put_shard db i (delete key sh) ;;! notify (OnKeyDeleted key) ;;! gret (deleted + 1)
      | None => gret deleted
      end) 0); [done|].
  intros w' db a i deleted key sh Hs Ha Es. unfold simulates, gbind at 1.
  rewrite (get_shard_flat w' db a i (proj1 Hs) Ha), Es. cbn [exec pbind load pret]. rewrite Es. cbn [default id].
  destruct (sh !! key); [|by apply sim_same, Hs].
  apply (sim_store w' db a); [apply Hs|done|]. intros w2 Hs2. apply sim_bind; [apply sim_tell, Hs2|].
  intros [] w3 Hs3. apply sim_ret, Hs3.
Qed.

Lemma sim_Exists w keys : good w -> simulates w (t_Exists (w_mask w) keys) (Exists now keys).
Proof.
  intros Hg. apply (sim_groups w keys Rd (fun a i count key =>
      let* sh := load a i in
      match sh !! key with
      | Some value => let* expired := is_expired value in pret (if expired then count else count + 1)
      | None => pret count
      end) (fun db i count key =>
      let! sh := get_shard db i in
      match sh !! key with
      | Some value => if IsExpired now value then gret count else gret (count + 1)
      | None => gret count
      end) 0); [done|].
  intros w' db a i count key sh Hs Ha Es. unfold simulates, gbind at 1.
  rewrite (get_shard_flat w' db a i (proj1 Hs) Ha), Es. cbn [exec pbind load pret]. rewrite Es. cbn [default id].
  destruct (sh !! key) as [v|]; [|by apply sim_same, Hs]. cbn [exec is_expired time_Now pbind pret].
  destruct (IsExpired now v); apply sim_same, Hs.
Qed.

(** ** All keys *)

Lemma exec_pure_fold {A B} (f : B -> A -> Prog B) (g : B -> A -> B) l : (forall b a w, exec now (f b a) w = (Ok (g b a), w)) ->
  forall b w, exec now (pfold f l b) w = (Ok (foldl g b l), w).
Proof.
  intros Hf. induction l as [|a l IH]; intros b w; [done|]. cbn [pfold]. rewrite exec_bind. unfold gbind.
  rewrite Hf. apply IH.
Qed.

(** A loop over the shards of the database selected. *)
Lemma sim_shards {B : Type} w (f : nat -> Z -> B -> Prog B) (f' : Z -> B -> Z -> Mem B) b : good w ->
  (forall w' db a i b, steady w w' -> m_databases (w_meta w') !! db = Some a -> 0 <= i < w_shards w' ->
     simulates w' (f a i b) (f' db b i)) ->
  simulates w (let* db := read_meta current_db in pfold (fun b i => let* a := index db i in f a i b) (all_shards (w_shards w)) b)
    (let! s := gget in gfold (f' (currentDB s)) (shard_indices s) b).
Proof.
  intros Hg Hf. unfold simulates. rewrite (gbind_ok _ _ (flat w) (flat w) (flat w)) by done.
  apply (sim_silent w (pfold (fun b i => let* a := index (current_db (w_meta w)) i in f a i b) (all_shards (w_shards w)) b)); [done|].
  apply sim_fold_same; [done|]. intros w' b' i Hi Hs. change (shard_indices (flat w)) with (all_shards (w_shards w)) in *.
  apply elem_of_seqZ in Hi. pose proof Hs as (Hg' & Em & En & _). destruct (good_cur w' Hg') as [a Ha].
  assert (Hi' : 0 <= i < w_shards w') by (rewrite En; lia).
  destruct (shard_exists w' _ a i Hg' Ha Hi') as [sh Es].
  apply (sim_silent w' (f a i b')).
  { cbn [exec index pbind pret]. rewrite <- Em, Ha. cbn [indexed]. by rewrite Es. }
  apply Hf; [done| |done]. change (currentDB (flat w)) with (m_currentDB (w_meta w)). by rewrite <- Em.
Qed.

Lemma sim_Keys w strategy pattern : good w -> simulates w (t_Keys (w_shards w) strategy pattern) (Keys strategy now pattern).
Proof.
  intros Hg. set (g := fun keys '(key, value) => if IsExpired now value then keys
    else if bool_decide (pattern = []) || bool_decide (pattern = [star]) || matchPattern strategy key pattern
      then keys ++ [key] else keys).
  apply (sim_shards w (fun a i keys =>
    lock (Shard a i) Rd ;;* let* sh := load a i in let* entries := prange sh in
    let* keys := pfold (fun keys '(key, value) =>
      let* expired := is_expired value in
      pret (if expired then keys
            else if bool_decide (pattern = []) || bool_decide (pattern = [star]) || matchPattern strategy key pattern
              then keys ++ [key] else keys)) entries keys in
    unlock (Shard a i) Rd ;;* pret keys)
    (fun db keys i => let! sh := get_shard db i in let! entries := range_map sh in
      if bool_decide (pattern = []) || bool_decide (pattern = [star]) then
        gfold (fun keys '(key, value) => if IsExpired now value then gret keys else gret (keys ++ [key])) entries keys
      else
        gfold (fun keys '(key, value) => if IsExpired now value then gret keys
          else if matchPattern strategy key pattern then gret (keys ++ [key]) else gret keys) entries keys)); [done|].
  intros w' db a i keys Hs Ha Hi. destruct (shard_exists w' db a i (proj1 Hs) Ha Hi) as [sh Es].
  unfold simulates. rewrite (gbind_ok (get_shard db i) _ _ sh (flat w')) by (by rewrite (get_shard_flat w' db a i (proj1 Hs) Ha), Es).
  apply (sim_silent w' (let* entries := prange sh in pret (foldl g keys entries))).
  { cbn [exec lock load prange pbind pret]. rewrite Es. cbn [default id]. rewrite exec_bind. unfold gbind.
    by rewrite (exec_pure_fold _ g) by (by intros ? []). }
  apply sim_bind; [apply sim_range, Hs|]. intros entries w2 Hs2. unfold simulates.
  assert (E : forall h, (forall keys kv s, h keys kv s = (Ok (g keys kv), s)) ->
    agrees w2 (exec now (pret (foldl g keys entries)) w2) (gfold h entries keys (flat w2))).
  { intros h Hh. rewrite (gfold_pure _ g) by done. apply sim_same, Hs2. }
  destruct (bool_decide (pattern = []) || bool_decide (pattern = [star])) eqn:Ep; apply E; intros ks [k v] s; unfold g;
    repeat case_match; simplify_eq; try done; congruence.
Qed.

Lemma sim_KeyCount w : good w -> simulates w (t_KeyCount (w_shards w)) KeyCount.
Proof.
  intros Hg. apply (sim_shards w (fun a i count => lock (Shard a i) Rd ;;* let* sh := load a i in
      unlock (Shard a i) Rd ;;* pret (count + Z.of_nat (size sh)))
    (fun db count i => let! sh := get_shard db i in gret (count + Z.of_nat (size sh)))); [done|].
  intros w' db a i count Hs Ha Hi. destruct (shard_exists w' db a i (proj1 Hs) Ha Hi) as [sh Es].
  unfold simulates, gbind. rewrite (get_shard_flat w' db a i (proj1 Hs) Ha), Es. cbn [exec lock load unlock pbind pret].
  rewrite Es. apply sim_same, Hs.
Qed.

(** ** Scan and statistics *)

Lemma exec_scan_entries strategy cursor match_ count entries w : forall i keys,
  exec now (t_scan_entries strategy cursor match_ count entries i keys) w =
  (Ok (scan_entries strategy now cursor match_ count entries i keys), w).
Proof.
  induction entries as [|[key v] entries IH]; intros i keys; cbn [t_scan_entries scan_entries]; [done|].
  destruct (i <? cursor); [apply IH|]. cbn [exec is_expired time_Now pbind pret]. destruct (IsExpired now v); [apply IH|].
  destruct (_ && _); [apply IH|]. cbn zeta. destruct (_ <=? _); [done|apply IH].
Qed.

Lemma sim_scan_shards w0 strategy cursor match_ count idx : forall w i keys, steady w0 w ->
  simulates w (t_scan_shards strategy cursor match_ count (current_db (w_meta w0)) idx i keys)
    (scan_shards strategy now (m_currentDB (w_meta w0)) cursor match_ count idx i keys).
Proof.
  induction idx as [|x idx IH]; intros w i keys Hs; cbn [t_scan_shards scan_shards]; [by apply sim_ret, Hs|].
  destruct Hs as (Hg & Em & Hs). apply sim_section; [done|by rewrite Em|]. intros a sh entries w' Hs' Ha Hi.
  apply (sim_silent w' (match scan_entries strategy now cursor match_ count entries i keys with
    | inl page => pret page
    | inr (i', keys') => t_scan_shards strategy cursor match_ count (current_db (w_meta w0)) idx i' keys' end)).
  { rewrite exec_bind. unfold gbind. by rewrite exec_scan_entries. }
  destruct (scan_entries _ _ _ _ _ _ _ _) as [page|[i' keys']]; [by apply sim_ret, Hs'|]. apply IH.
  eapply steady_trans; [|done]. by split.
Qed.

Lemma sim_Scan w strategy cursor match_ count : good w ->
  simulates w (t_Scan (w_shards w) strategy cursor match_ count) (Scan strategy now cursor match_ count).
Proof.
  intros Hg. unfold Scan. apply (sim_silent w (if (count <? 0) || (maxAlloc <? 16 * count)
    then Halt (Panic (bs "makeslice: cap out of range"))
    else t_scan_shards strategy cursor match_ count (current_db (w_meta w)) (all_shards (w_shards w)) 0 [])); [done|].
  destruct (_ || _); [by apply sim_same|]. by apply sim_scan_shards.
Qed.

Lemma sim_Info w go_memory : good w -> simulates w (t_Info (w_shards w) go_memory) (Info go_memory).
Proof.
  intros Hg. apply (sim_silent w (let* keys := t_KeyCount (w_shards w) in let* usage := t_MemoryUsage (w_shards w) in
    pret (mkStorageInfo keys usage (m_memoryLimit (w_meta w)) (m_currentDB (w_meta w))
      (Z.of_nat (size (m_databases (w_meta w)))) go_memory (w_shards w)))); [done|].
  unfold Info, simulates. rewrite (gbind_ok gget _ (flat w) (flat w) (flat w)) by done.
  apply sim_bind; [by apply sim_KeyCount|]. intros k w1 Hs1. pose proof Hs1 as (Hg1 & _ & En & _). rewrite <- En at 1.
  apply sim_bind; [by apply sim_MemoryUsage|]. intros u w2 Hs2.
  assert (E : size (databases (flat w)) = size (m_databases (w_meta w))) by (cbn; apply map_size_fmap).
  rewrite E. apply sim_ret, Hs2.
Qed.

Lemma exec_count_expired entries w : exec now (t_count_expired entries) w = (Ok (count_expired now entries), w).
Proof.
  unfold t_count_expired. rewrite (exec_pure_fold _ (fun count '(_, value) => if IsExpired now value then count + 1 else count)).
  - do 2 f_equal. unfold count_expired. rewrite <- (Z.add_0_l (Z.of_nat _)). generalize 0.
    induction entries as [|[k v] entries IH]; intros z; [cbn; lia|]. cbn [foldl]. rewrite IH, filter_cons. cbn [snd].
    destruct (IsExpired now v); [rewrite decide_True by done; cbn [length]; lia|by rewrite decide_False by done].
  - by intros b [k v] w'.
Qed.

Lemma sim_shard_expired w sh : good w -> simulates w (t_shard_expired sh) (shard_expired now sh).
Proof.
  intros Hg. unfold t_shard_expired, shard_expired. apply sim_bind; [by apply sim_range|]. intros entries w' Hs. cbn zeta.
  unfold simulates. destruct (100 <? _); [|rewrite exec_count_expired; apply sim_same, Hs].
  rewrite exec_bind. unfold gbind. rewrite exec_count_expired. destruct (0 <? _); apply sim_same, Hs.
Qed.

Lemma sim_DatabaseInfo w : good w -> simulates w (t_DatabaseInfo (w_shards w)) (DatabaseInfo now).
Proof.
  intros Hg. unfold t_DatabaseInfo, DatabaseInfo.
  apply (sim_silent w (let* dbs := prange (m_databases (w_meta w)) in
    pfold (fun info '(dbNum, db) =>
    let* (keyCount, expiredCount) := pfold (fun '(keyCount, expiredCount) i =>
      let* a := index (Some db) i in
      lock (Shard a i) Rd ;;*
      let* sh := load a i in
      let* e := t_shard_expired sh in
      unlock (Shard a i) Rd ;;*
      pret (keyCount + Z.of_nat (size sh), expiredCount + e)) (all_shards (w_shards w)) (0, 0) in
    pret (if keyCount =? 0 then info else <[dbNum := (keyCount, expiredCount)]> info)) dbs ∅)); [done|].
  unfold simulates. rewrite (gbind_ok gget _ (flat w) (flat w) (flat w)) by done.
  apply sim_range_dbs; [done|]. intros l l' w1 Hs1 Hl.
  apply (sim_fold (same_db w)); [apply Hs1|done|]. intros w2 info [db a] [db' shs] Hs2 [E Ha]. cbn in E, Ha. subst db'.
  apply sim_bind; [|intros [k e] w3 Hs3; destruct (k =? 0); apply sim_ret, Hs3].
  apply sim_fold_same; [apply Hs2|]. intros w3 [k e] i _ Hs3.
  assert (Hs : steady w w3) by (eapply steady_trans; [done|by eapply steady_trans]). pose proof Hs as (Hg3 & Em & _).
  apply sim_index; [done|by rewrite Em|]. intros a' sh Ha' Es.
  apply (sim_silent w3 (let* e' := t_shard_expired sh in pret (k + Z.of_nat (size sh), e + e'))).
  { cbn [exec pbind lock load pret]. rewrite Es. cbn [default id]. rewrite !exec_bind. reflexivity. }
  apply sim_bind; [by apply sim_shard_expired|]. intros e' w4 Hs4. apply sim_ret, Hs4.
Qed.

(** ** Cleanup *)

Lemma sim_draw w n : good w -> simulates w (pdraw n) (rng_draw n).
Proof. intros []. by split. Qed.

Lemma sim_reservoir actual entries : forall w i sampled, good w ->
  simulates w (t_reservoir actual entries i sampled) (reservoir actual entries i sampled).
Proof.
  induction entries as [|[key v] entries IH]; intros w i sampled Hg; cbn [t_reservoir reservoir]; [by apply sim_ret|].
  destruct (i <? actual); [by apply IH|]. apply sim_bind; [by apply sim_draw|]. intros j w' Hs.
  destruct (j <? actual); apply IH, Hs.
Qed.

Lemma foldl_filter {A} (P : A -> bool) l : forall acc, foldl (fun acc x => if P x then acc ++ [x] else acc) acc l =
  acc ++ filter (fun x => P x = true) l.
Proof.
  induction l as [|x l IH]; intros acc; cbn [foldl]; [by rewrite app_nil_r|]. rewrite IH, filter_cons.
  destruct (P x); [rewrite decide_True by done; by rewrite <- app_assoc|by rewrite decide_False].
Qed.

Lemma sim_sample w db a i sampleSize : good w -> m_databases (w_meta w) !! db = Some a -> is_Some (shard_at w a i) ->
  simulates w (t_sample a i sampleSize) (sampleAndFindExpiredInShard now db i sampleSize).
Proof.
  intros Hg Ha [sh Es]. unfold t_sample, sampleAndFindExpiredInShard.
  unfold simulates. rewrite (gbind_ok (get_shard db i) _ _ sh (flat w)) by (by rewrite (get_shard_flat w db a i Hg Ha), Es).
  cbn [exec lock load pbind pret]. rewrite Es. cbn [default id]. case_bool_decide; [by apply sim_same|].
  destruct (_ <? 0); [by apply sim_same|]. apply sim_bind; [by apply sim_range|]. intros entries w1 Hs1.
  apply sim_bind. { destruct (_ <=? _); [by apply sim_ret, Hs1|by apply sim_reservoir, Hs1]. }
  intros sampled w2 Hs2. apply (sim_silent w2 (pret (filter (fun key => expired_in now sh key = true) sampled))).
  { rewrite exec_bind. unfold gbind.
    rewrite (exec_pure_fold _ (fun acc key => if expired_in now sh key then acc ++ [key] else acc)).
    - cbn [exec unlock pbind pret]. by rewrite foldl_filter.
    - intros acc key w'. unfold expired_in, is_expired. by destruct (sh !! key). }
  apply sim_ret, Hs2.
Qed.

Lemma sim_deleteKeyBatch w db a i keys : good w -> m_databases (w_meta w) !! db = Some a -> is_Some (shard_at w a i) ->
  simulates w (t_deleteKeyBatch a i keys) (deleteKeyBatchInShard now db i keys).
Proof.
  intros Hg Ha Hi. unfold t_deleteKeyBatch, deleteKeyBatchInShard, gfor.
  apply (sim_silent w (lock (Shard a i) Wr ;;* let* b := pfold (fun _ key =>
    let* sh := load a i in
    match sh !! key with
    | Some value =>
        let* expired := is_expired value in
        if expired then store a i (delete key sh) ;;* tell (OnKeyExpired key) else pret tt
    | None => pret tt
    end) keys tt in unlock (Shard a i) Wr ;;* pret b)).
  { cbn [exec lock pbind pret]. rewrite !exec_bind. unfold gbind. by destruct (exec now _ w) as [[[]| | |] ?]. }
  apply (sim_group w db); [done..|]. intros w' [] key sh Hs Ha' Es. unfold simulates.
  rewrite (gbind_ok (get_shard db i) _ _ sh (flat w')) by (by rewrite (get_shard_flat w' db a i (proj1 Hs) Ha'), Es).
  cbn [exec load pbind pret]. rewrite Es. cbn [default id]. destruct (sh !! key) as [v|]; [|by apply sim_same, Hs].
  cbn [exec is_expired time_Now pbind pret]. destruct (IsExpired now v); [|by apply sim_same, Hs].
  apply (sim_store w' db a); [apply Hs|done|]. intros w2 Hs2. apply sim_tell, Hs2.
Qed.

Lemma sim_delete_batches db a i keys size fuel : forall w k, good w -> m_databases (w_meta w) !! db = Some a ->
  is_Some (shard_at w a i) -> simulates w (t_delete_batches fuel a i keys size k) (delete_batches fuel now db i keys size k).
Proof.
  induction fuel as [|fuel IH]; intros w k Hg Ha Hi; cbn [t_delete_batches delete_batches];
    (destruct (k <? _); [|by apply sim_ret]); [by apply sim_same|].
  destruct (_ || _); [by apply sim_same|]. apply sim_bind; [by apply sim_deleteKeyBatch|].
  intros [] w' (Hg' & Em & _ & _ & Hi'). apply IH; [done|by rewrite Em|by apply Hi'].
Qed.

Lemma sim_cleanup_rounds db a i config rounds : forall w, good w -> m_databases (w_meta w) !! db = Some a ->
  is_Some (shard_at w a i) -> simulates w (t_cleanup_rounds rounds a i config) (cleanup_rounds rounds now db i config).
Proof.
  induction rounds as [|rounds IH]; intros w Hg Ha Hi; cbn [t_cleanup_rounds cleanup_rounds]; [by apply sim_ret|].
  apply sim_bind; [by apply sim_sample|]. intros keys w1 (Hg1 & Em1 & _ & _ & Hi1).
  assert (Ha1 : m_databases (w_meta w1) !! db = Some a) by by rewrite Em1.
  case_bool_decide; [by apply sim_ret|]. apply sim_bind; [by apply sim_delete_batches; auto|].
  intros [] w2 (Hg2 & Em2 & _ & _ & Hi2). destruct (float_ltb _ _); [by apply sim_ret|].
  apply IH; [done|by rewrite Em2|auto].
Qed.

Lemma sim_performCleanup w : good w -> simulates w (t_performCleanup (w_shards w)) (performCleanup now).
Proof.
  intros Hg. unfold t_performCleanup, performCleanup.
  apply (sim_silent w (let* dbs := prange (m_databases (w_meta w)) in
    pfold (fun _ '(_, db) => pfold (fun _ i => t_cleanupShard i db (m_cleanupConfig (w_meta w))) (all_shards (w_shards w)) tt)
      dbs tt)); [done|].
  unfold simulates. rewrite (gbind_ok GetCleanupConfig _ (flat w) (m_cleanupConfig (w_meta w)) (flat w)) by done.
  rewrite (gbind_ok gget _ (flat w) (flat w) (flat w)) by done.
  apply sim_range_dbs; [done|]. intros l l' w1 Hs1 Hl. unfold gfor.
  apply (sim_fold (same_db w)); [apply Hs1|done|]. intros w2 [] [db a] [db' shs] Hs2 [E Ha]. cbn in E, Ha. subst db'.
  destruct (steady_trans _ _ _ Hs1 Hs2) as (Hg2 & Em2 & En2 & _).
  unfold cleanupDatabase, simulates. rewrite (gbind_ok gget _ (flat w2) (flat w2) (flat w2)) by done.
  change (shard_indices (flat w2)) with (all_shards (w_shards w2)). rewrite En2. apply sim_fold_same; [done|].
  intros w3 [] i Hi Hs3. apply elem_of_seqZ in Hi. destruct Hs3 as (Hg3 & Em3 & En3 & _).
  assert (Ha3 : m_databases (w_meta w3) !! db = Some a) by by rewrite Em3, Em2.
  destruct (shard_exists w3 db a i Hg3 Ha3 ltac:(rewrite En3, En2; lia)) as [sh Es].
  apply (sim_silent w3 (t_cleanup_rounds (Z.to_nat (MaxRounds (m_cleanupConfig (w_meta w)))) a i (m_cleanupConfig (w_meta w)))).
  { cbn [exec t_cleanupShard index pbind pret indexed]. unfold t_cleanupShard. cbn [exec index pbind pret indexed]. by rewrite Es. }
  by apply sim_cleanup_rounds; [| |rewrite Es].
Qed.

(** ** Settings and new databases *)

(** As [agrees], for a program that sets fields. *)
Definition finishes {A} (w : World) (x : outcome A * World) (y : outcome A * MemoryStorage) : Prop :=
  x.1 = y.1 /\ flat x.2 = y.2 /\ good x.2 /\ w_shards x.2 = w_shards w /\ w_mask x.2 = w_mask w.
Definition does {A} (w : World) (p : Prog A) (m : Mem A) : Prop := finishes w (exec now p w) (m (flat w)).

Lemma does_steady {A} w (p : Prog A) m : simulates w p m -> does w p m.
Proof. intros (? & ? & ? & ? & ? & ? & ?). by split_and!. Qed.

Lemma does_same {A} w (o : outcome A) : good w -> finishes w (o, w) (o, flat w).
Proof. by split. Qed.

Lemma does_trans {A} w w' (x : outcome A * World) y : w_shards w' = w_shards w -> w_mask w' = w_mask w ->
  finishes w' x y -> finishes w x y.
Proof. unfold finishes. intros -> ->. done. Qed.

(** A fresh database for number [db]. *)
Definition renew (db : Z) : Prog unit :=
  let* fresh := NewDB pret in let* m := GetMeta pret in
  SetMeta (mkMeta (<[db := fresh]> (m_databases m)) (m_currentDB m) (m_memoryLimit m) (m_observers m)
    (m_cleanupConfig m)) (pret tt).

Lemma does_renew w db : good w ->
  does w (renew db) (let! fresh := new_database in gmodify (fun s => set_databases (<[db := fresh]> (databases s)) s)) /\
  forall w', exec now (renew db) w = (Ok tt, w') -> is_Some (m_databases (w_meta w') !! db).
Proof.
  intros Hg. unfold does, renew. cbn [exec pbind pret]. unfold new_database, gbind, alloc, gmodify.
  destruct (newShardedDatabase (flat w)) as [shs|e|p|] eqn:E; try (split; [by apply does_same|done]).
  cbn [exec set_heap w_meta]. set (a := length (w_heap w)). set (w' := set_meta _ _).
  assert (Hw' : good w').
  { destruct Hg. split; cbn; try done.
    - intros db' a' [[_ <-]|[_ Ha]]%lookup_insert_Some; rewrite length_app; cbn; [subst a; lia|].
      apply good_addr0 in Ha. lia.
    - intros db1 db2 a' [[<- <-]|[? H1]]%lookup_insert_Some [[<- E2]|[? H2]]%lookup_insert_Some; try done; eauto.
      + apply good_addr0 in H2. subst a. lia.
      + apply good_addr0 in H1. subst a. lia.
    - intros a' shs' [Ha|[_ Ha]]%lookup_app_Some; [eauto|]. apply list_lookup_singleton_Some in Ha as [_ <-].
      unfold newShardedDatabase in E. cbn in E. destruct (_ || _); [done|]. injection E as <-. by rewrite length_replicate.
    - unfold current_db. cbn. destruct (decide (db = m_currentDB (w_meta w))) as [->|];
        [by rewrite lookup_insert_eq|by rewrite lookup_insert_ne]. }
  assert (Ef : flat w' = set_databases (<[db := shs]> (databases (flat w))) (flat w)).
  { unfold flat, set_databases. cbn. f_equal. apply map_eq. intros db'.
    destruct (decide (db' = db)) as [->|Hne].
    - rewrite lookup_fmap, !lookup_insert_eq. cbn. subst a. by rewrite lookup_app_r, Nat.sub_diag by done.
    - rewrite lookup_fmap, !lookup_insert_ne, lookup_fmap by done. destruct (m_databases (w_meta w) !! db') as [a'|] eqn:Ea; [|done].
      cbn. pose proof (good_addr w Hg _ _ Ea). by rewrite lookup_app_l by done. }
  split; [by split|]. intros ? [= <-]. cbn. rewrite lookup_insert_eq. eauto.
Qed.

Lemma does_bind {A B} (w : World) (p : Prog A) (m : Mem A) (k : A -> Prog B) (k' : A -> Mem B) : does w p m ->
  (forall a w', good w' -> exec now p w = (Ok a, w') -> does w' (k a) (k' a)) -> does w (pbind p k) (gbind m k').
Proof.
  unfold does, finishes. rewrite exec_bind. intros (E1 & E2 & Hg & En & Ek) Hk. unfold gbind.
  destruct (exec now p w) as [o w'] eqn:E, (m (flat w)) as [o' s']. cbn in *. subst.
  destruct o' as [a|e|s|]; try done. destruct (Hk a w' Hg eq_refl) as (? & ? & ? & ? & ?). split_and!; try done; congruence.
Qed.

Lemma does_silent {A} w (q p : Prog A) m : exec now p w = exec now q w -> does w q m -> does w p m.
Proof. unfold does. by intros ->. Qed.

Lemma does_flush l l' : Forall2 (fun (x : Z * nat) (y : Z * shardedDatabase) => x.1 = y.1) l l' -> forall w, good w ->
  does w (pfold (fun _ '(db, _) => renew db) l tt)
    (gfold (fun _ '(db, _) => let! fresh := new_database in
      gmodify (fun s => set_databases (<[db := fresh]> (databases s)) s)) l' tt).
Proof.
  induction 1 as [|[db a] [db' shs] l l' E _ IH]; intros w Hg; [by apply does_same|]. cbn in E. subst db'.
  cbn [pfold gfold]. apply does_bind; [by apply does_renew|]. intros [] w' Hg' _. by apply IH.
Qed.

Lemma does_FlushAll w : good w -> does w t_FlushAll FlushAll.
Proof.
  intros Hg. unfold t_FlushAll, FlushAll, gfor.
  apply (does_silent w (let* dbs := prange (m_databases (w_meta w)) in pfold (fun _ '(db, _) => renew db) dbs tt)).
  { cbn [exec lock unlock pbind pret prange]. rewrite exec_bind. unfold gbind. by destruct (exec now _ _) as [[[]| | |] ?]. }
  unfold does. rewrite (gbind_ok gget _ (flat w) (flat w) (flat w)) by done.
  cbn [exec prange pbind pret]. unfold gbind, range_map. change (entropy (flat w)) with (w_entropy w).
  change (set_entropy (S (w_entropy w)) (flat w)) with (flat (set_toss (S (w_entropy w)) w)).
  apply (does_trans w (set_toss (S (w_entropy w)) w)); [done..|]. apply does_flush; [|by destruct Hg].
  eapply Forall2_impl; [apply range_databases|]. by intros ? ? [].
Qed.

Lemma does_write w (f : Meta -> Meta) (g : MemoryStorage -> MemoryStorage) :
  good (set_meta (f (w_meta w)) w) -> flat (set_meta (f (w_meta w)) w) = g (flat w) -> does w (write_meta f) (gmodify g).
Proof. intros Hg E. unfold does, gmodify. cbn [exec write_meta lock unlock pbind pret]. rewrite <- E. by split. Qed.

Lemma does_SelectDB w db : good w -> does w (t_SelectDB db) (SelectDB db).
Proof.
  intros Hg. unfold t_SelectDB, SelectDB. apply (does_silent w (
    if (db <? 0) || (15 <? db) then Halt (Err (Errorf (bs "invalid database number: " ++ FormatInt db)))
    else (match m_databases (w_meta w) !! db with Some _ => pret tt | None => renew db end) ;;*
      write_meta (fun m => mkMeta (m_databases m) db (m_memoryLimit m) (m_observers m) (m_cleanupConfig m)))).
  { cbn [exec lock pbind pret]. destruct (_ || _); [done|]. cbn [exec pbind pret].
    destruct (m_databases (w_meta w) !! db); [done|]. unfold renew. cbn [exec pbind pret]. unfold alloc. by destruct (newShardedDatabase (flat w)). }
  destruct (_ || _); [by apply does_same|]. unfold does. rewrite (gbind_ok gget _ (flat w) (flat w) (flat w)) by done.
  rewrite flat_lookup. apply does_bind.
  { destruct (m_databases (w_meta w) !! db); [by apply does_same|by apply does_renew]. }
  intros [] w' Hg' E. assert (Hdb : is_Some (m_databases (w_meta w') !! db)).
  { destruct (m_databases (w_meta w) !! db) as [a|] eqn:Ea; [injection E as <-; by rewrite Ea|].
    by apply (proj2 (does_renew w db Hg)). }
  destruct Hg'. apply does_write; [by split|done].
Qed.

(** ** Every operation *)

Lemma does_ok {A} w (f : A -> Reply) (p : Prog A) m : does w p m -> does w (ok f p) (reply f m).
Proof.
  unfold does, ok, reply, finishes. rewrite exec_catch. unfold gtry. intros (E1 & E2 & H).
  destruct (exec now p w) as [o w'], (m (flat w)) as [o' s']. cbn in *. subst. by destruct o'.
Qed.

Lemma does_read {A} w (f : Meta -> A) (m : Mem A) : good w -> m (flat w) = (Ok (f (w_meta w)), flat w) ->
  does w (read_meta f) m.
Proof. intros Hg E. unfold does. rewrite E. by apply does_same. Qed.

Lemma program_alone w op : good w -> does w (program (w_shards w) (w_mask w) op) (run_op now op).
Proof.
  intros Hg. pose proof Hg as []. destruct op; cbn [program run_op]; apply does_ok;
    try (apply does_steady; by auto using sim_Get, sim_Set, sim_Del, sim_Exists, sim_Expire, sim_TTL, sim_PTTL, sim_Type,
      sim_Keys, sim_KeyCount, sim_MemoryUsage, sim_EvictLRU, sim_performCleanup,
      sim_Scan, sim_Info, sim_DatabaseInfo);
    try (by apply does_FlushAll); try (by apply does_SelectDB); try (by apply does_read);
    (apply does_write; [by split|done]).
Qed.

End Alone.
