(* ===== verification/StorageProgress.v ===== *)
(** * Runs of the storage: exclusion, progress, and the deadlock of eviction

    The invariant of StorageGuard holds along every run. Without eviction some
    goroutine can always go on, and programs end, so every call returns; with
    eviction two goroutines can wait for each other, and no call returns any more. *)

From Stdlib Require Import ZArith Lia String.
From stdpp Require Import base list list_numbers functions gmap fin_maps fin_map_dom sets.
From S2P Require Import Prelude GoLib StorageTypes Matching Memory MemoryInv StoreSpec Threads StorageThreads.
From S2P Require Import MemoryScan StorageThreadsAlone StorageLocks StorageGuard.

(** ** The storage created *)

Section Create.
  Context `{Hash : XXHash} `{Runtime : GoRuntime}.

(** [NewMemory], with its one database at address 0. *)
Definition t_NewMemory (opts : list (MemoryStorage -> MemoryStorage)) : outcome World :=
  let s := foldl (fun s opt => opt s) NewMemory_base opts in
  match newShardedDatabase s with
  | Ok db => Ok (mkWorld [db] (mkMeta {[0 := 0%nat]} (currentDB s) (memoryLimit s) (observers s) (cleanupConfig s))
      (shards s) (shardMask s) (cleanupStop s, cleanupDone s) (events s) (entropy s))
  | Err e => Err e
  | Panic p => Panic p
  | OutOfFuel => OutOfFuel
  end.

(** A storage in order: its contents, and its databases on the heap. *)
Record wf_world (w : World) : Prop := {
  ww_wf : wf (flat w);
  ww_good : good w
}.

Lemma new_world count : 0 < count <= 2 ^ 43 -> exists w s, t_NewMemory [WithShardCount count] = Ok w /\
  NewMemory [WithShardCount count] = Ok s /\ flat w = s /\ wf_world w /\ w_shards w = 2 ^ Z.log2_up count /\
  m_memoryLimit (w_meta w) = 0.
Proof.
  intros Hc. destruct (NewMemory_sharded count Hc) as (s & E & Hwf & _ & Hs & _).
  unfold t_NewMemory. pose proof E as E'. unfold NewMemory in E'. cbn [foldl] in *.
  destruct (newShardedDatabase _) as [db| | |] eqn:Edb; try done. injection E' as E'.
  eexists _, s. do 2 (split; [done|]).
  match goal with |- ?x = _ /\ _ => assert (Hflat : x = s) end.
  { rewrite <- E'. unfold flat, WithShardCount. cbn. rewrite map_fmap_singleton. by destruct (0 <? count). }
  rewrite <- Hs. split; [done|]. rewrite <- Hflat in Hwf. split; [split; [done|]|split].
  - unfold newShardedDatabase in Edb. destruct (_ || _); [done|]. injection Edb as <-. split; cbn.
    + intros db a [_ <-]%lookup_singleton_Some. lia.
    + intros db db' a [<- _]%lookup_singleton_Some [<- _]%lookup_singleton_Some. done.
    + intros a shs Ha. apply list_lookup_singleton_Some in Ha as [_ <-]. apply length_replicate.
    + exists 0%nat. unfold current_db, WithShardCount. cbn. by destruct (0 <? count).
    + intros key. apply (mask_range _ key Hwf).
  - by rewrite <- Hflat.
  - cbn. unfold WithShardCount. by destruct (0 <? count).
Qed.


Lemma sound_world ordered w : wf_world w -> (ordered = true -> m_memoryLimit (w_meta w) <= 0) ->
  sound ordered (w_shards w) (w_mask w) w.
Proof.
  intros [Hwf Hg] Hl. split; [|apply Hg|done..]. split_and!; [apply Hg|apply Hg|apply Hwf|done].
Qed.

End Create.

Section Progress.
  Context `{Hash : XXHash} `{Runtime : GoRuntime}.

(** ** What a step leaves *)

(** [q] is what may be left of [p] after its next action. *)
Inductive next {R} : Prog R -> Prog R -> Prop :=
| next_acq l m k : next k (Acq l m k)
| next_acqw l k : next k (AcqW l k)
| next_rel l m k : next k (Rel l m k)
| next_get k m : next (k m) (GetMeta k)
| next_set m k : next k (SetMeta m k)
| next_new k a : next (k a) (NewDB k)
| next_index db i k a : next (k a) (Index db i k)
| next_load a i k sh : next (k sh) (GetShard a i k)
| next_store a i sh k : next k (PutShard a i sh k)
| next_emit os ev k : next k (Emit os ev k)
| next_toss k t : next (k t) (Toss k)
| next_clock k t : next (k t) (Clock k).

(** Also a panic, and a writer that announces itself. *)
Definition after {R} (q p : Prog R) : Prop :=
  next q p \/ (exists o, q = Halt o /\ ~ exists o', p = Halt o') \/
  exists l k, q = AcqW l k /\ p = Acq l Wr k.

Lemma after_wf {R} : well_founded (@after R).
Proof.
  assert (Hhalt : forall o, Acc (@after R) (Halt o)).
  { intros o. constructor. intros q [Hq|[(o' & -> & Hn)|(l & k & _ & ?)]]; [inversion Hq|naive_solver|done]. }
  assert (Hsub : forall p, (forall q, next q p -> Acc (@after R) q) -> (forall l k, p = Acq l Wr k -> Acc after (AcqW l k)) ->
    Acc (@after R) p).
  { intros p Hp Hw. constructor. intros q [Hq|[(o & -> & _)|(l & k & -> & ->)]]; auto. }
  intros p. induction p; (apply Hsub; [intros q Hq|intros ? ? Hp]).
  all: try discriminate Hp.
  all: try (inversion Hq; subst; trivial; fail).
  injection Hp as <- _ <-. apply Hsub; [|discriminate]. intros q Hq. by inversion Hq; subst.
Qed.

Lemma step_after {R} i (s s' : System R) : thread_step i s = Some s' ->
  exists p q, threads s !! i = Some p /\ threads s' = <[i := q]> (threads s) /\ after q p.
Proof.
  unfold thread_step. destruct (threads s !! i) as [p|]; [|done]. intros Hs. exists p.
  destruct p as [o|l [] k|l k|l [] k|k|m k|k|db j k|a j k|a j sh k|os ev k|k|k]; try done;
    try (apply bind_Some in Hs as (m & _ & Hs));
    try (injection Hs as <-; eexists; split; [done|split; [done|left; by constructor]]).
  - injection Hs as <-. eexists. split; [done|split; [done|right; right; eauto]].
  - destruct (alloc (world s)) as [o w]. injection Hs as <-. eexists. split; [done|split; [done|]].
    destruct o; [left; constructor|right; left..]; eexists; split; try done; by intros [? ?].
  - injection Hs as <-. eexists. split; [done|split; [done|]].
    destruct (indexed _ _ _); [left; constructor|right; left..]; eexists; split; try done; by intros [? ?].
Qed.

(** ** Runs *)

(** The calls made are in order, and, if [ordered], evict nothing. *)
Definition may_happen (ordered : bool) (l : Label) : Prop :=
  match l with LCall _ op => call_ok ordered op | _ => True end.

(** A state of the storage [w] after some run. *)
Definition reached (ordered : bool) (w : World) (s : System Reply) : Prop :=
  exists t ls, Forall (may_happen ordered) ls /\ sys_run ls (start w t) = Some s.

Lemma sys_run_app ls1 ls2 s : sys_run (ls1 ++ ls2) s = sys_run ls1 s ≫= sys_run ls2.
Proof. revert s. induction ls1 as [|l ls1 IH]; intros s; [done|]. cbn. destruct (sys_next l s); [apply IH|done]. Qed.

Section Guarded.
Context (ordered : bool) (ns mask : Z).
Context (fits : forall key, 0 <= hash mask key < ns) (small : 32 * ns <= maxAlloc).

Abbreviation guarded := (guarded ordered ns mask).

(** A call, a return and the clock take and leave no lock. *)
Lemma guarded_quiet l s s' h : (forall i, l <> LStep i) -> may_happen ordered l -> guarded s h -> sys_next l s = Some s' -> guarded s' h.
Proof.
  intros Hstep Hl Hg. destruct l as [i op|i|i|t]; cbn; [|by specialize (Hstep i)|..].
  - destruct (threads s !! i) eqn:Hi; [done|]. intros [= <-]. pose proof (g_sound _ _ _ _ _ Hg) as Hw.
    rewrite (s_shards _ _ _ _ Hw), (s_mask _ _ _ _ Hw).
    pose proof (safe_program ordered ns mask fits op (length (w_heap (world s))) Hl) as Hp.
    apply follows_plain in Hp as [Hp Hn]. pose proof Hg as []. split; cbn [threads world goes_on]; try done.
    + intros j q [[<- <-]|[Hj Hq]]%lookup_insert_Some; [by rewrite g_none|auto].
    + intros j [? ?]%lookup_insert_None. auto.
    + intros lk j. change (mutex (goes_on i (program ns mask op) s) lk) with (mutex s lk). rewrite g_wait.
      destruct (decide (j = i)) as [->|Hj]; [rewrite lookup_insert_eq, Hi|by rewrite lookup_insert_ne].
      split; intros [k Hk]; naive_solver.
  - destruct (threads s !! i) as [[o| | | | | | | | | | | |]|] eqn:Hi; try done. intros [= <-].
    pose proof Hg as []. split; cbn [threads world]; try done.
    + intros j q [? Hq]%lookup_delete_Some. auto.
    + intros j [->|Hj]%lookup_delete_None; [|auto]. specialize (g_safe _ _ Hi). cbn in g_safe. by destruct o.
    + intros lk j. change (mutex (mkSystem _ (delete i (threads s)) (mutexes s) (world s) (clock s)) lk) with (mutex s lk).
      rewrite g_wait. destruct (decide (j = i)) as [->|Hj]; [rewrite lookup_delete_eq, Hi|by rewrite lookup_delete_ne].
      split; intros [k Hk]; naive_solver.
  - destruct (_ <=? _); [|done]. intros [= <-]. by destruct Hg.
Qed.

Lemma guarded_next l s s' h : may_happen ordered l -> guarded s h -> sys_next l s = Some s' -> exists h', guarded s' h'.
Proof.
  intros Hl Hg E. pose proof (guarded_quiet l s s' h) as Hq. destruct l as [i op|i|i|t]; try (exists h; by apply Hq).
  destruct (step_after _ _ _ E) as (p & q & Hi & _). pose proof (fits []). eexists.
  eapply guarded_step; [exact small|lia|exact Hg|exact Hi|exact E].
Qed.

Lemma guarded_run ls : forall s s' h, Forall (may_happen ordered) ls -> guarded s h -> sys_run ls s = Some s' ->
  exists h', guarded s' h'.
Proof.
  induction ls as [|l ls IH]; intros s s' h; [intros _ Hg [= <-]; eauto|].
  intros [Hl Hls]%Forall_cons_1 Hg (s1 & E & Hrun)%bind_Some.
  destruct (guarded_next l s s1 h Hl Hg E) as [h1 Hg1]. by eapply IH.
Qed.

Lemma guarded_start w t : sound ordered ns mask w -> guarded (start w t) (fun _ => ∅).
Proof.
  intros Hw. unfold start. split; cbn; try done.
  intros l i. unfold mutex. cbn. split; [done|intros [k Hk]; by rewrite lookup_empty in Hk].
Qed.

End Guarded.

Lemma reached_guarded ordered w s : wf_world w -> (ordered = true -> m_memoryLimit (w_meta w) <= 0) -> reached ordered w s ->
  exists h, guarded ordered (w_shards w) (w_mask w) s h.
Proof.
  intros Hw Hl (t & ls & Hls & Hrun). pose proof Hw as [Hwf Hg]. eapply guarded_run; [apply Hg|apply Hwf|exact Hls| |exact Hrun].
  apply guarded_start. by apply sound_world.
Qed.

(** ** Exclusion *)

(** The memory the next action reads or writes, by the lock that protects it. *)
Definition touches (p : Prog Reply) : option (Lock * Mode) :=
  match p with
  | GetMeta _ => Some (Main, Rd)
  | SetMeta _ _ => Some (Main, Wr)
  | GetShard a i _ => Some (Shard a i, Rd)
  | PutShard a i _ _ => Some (Shard a i, Wr)
  | _ => None
  end.

(** Two goroutines about to touch the same memory, one of them to write it. *)
Definition race (s : System Reply) (i j : nat) (l : Lock) : Prop :=
  i <> j /\ exists p q m, threads s !! i = Some p /\ threads s !! j = Some q /\
    touches p = Some (l, Wr) /\ touches q = Some (l, m).

Lemma touch_held ordered ns mask s h i p l m : guarded ordered ns mask s h -> threads s !! i = Some p ->
  touches p = Some (l, m) -> exists m', h i !! l = Some m' /\ (m = Wr -> m' = Wr).
Proof.
  intros Hg Hi. pose proof (g_safe _ _ _ _ _ Hg _ _ Hi) as Hp. unfold follows in Hp.
  destruct p; cbn in *; try done; intros [= <- <-]; destruct Hp as [Hp _];
    [destruct Hp as [m Hm]; by exists m|by exists Wr|destruct Hp as [m Hm]; by exists m|by exists Wr].
Qed.

Lemma guarded_exclusive ordered ns mask s h l i j m : guarded ordered ns mask s h ->
  h i !! l = Some Wr -> h j !! l = Some m -> i = j.
Proof.
  intros Hg Hi Hj. apply (g_write _ _ _ _ _ Hg) in Hi. destruct m.
  - apply (g_read _ _ _ _ _ Hg) in Hj. apply (g_excl _ _ _ _ _ Hg) in Hi as [Hi _]. set_solver.
  - apply (g_write _ _ _ _ _ Hg) in Hj. congruence.
Qed.

(** ** Progress *)

(** The method has returned, with a reply or an error. *)
Definition finished (p : Prog Reply) : Prop :=
  match p with Halt (Ok _) | Halt (Err _) => True | _ => False end.

(** Every goroutine that cannot go on waits for one that holds a lock later in the order. *)
Lemma blocked_holder ordered ns mask s h i p : guarded ordered ns mask s h -> (forall j, thread_step j s = None) ->
  threads s !! i = Some p -> ~ finished p ->
  exists l j m, h j !! l = Some m /\ may_take ordered l (h i).
Proof.
  intros Hg Hstuck Hi Hp. pose proof (g_safe _ _ _ _ _ Hg _ _ Hi) as Hs. unfold follows in Hs.
  assert (Hw : forall l, waiting (mutex s l) <> None \/ writer (mutex s l) <> None ->
    exists j m, h j !! l = Some m).
  { intros l Hl. destruct (writer (mutex s l)) as [j|] eqn:Ew; [exists j, Wr; by apply (g_write _ _ _ _ _ Hg)|].
    destruct Hl as [Hl|Hl]; [|done]. destruct (waiting (mutex s l)) as [j|] eqn:Ea; [|done].
    apply (g_wait _ _ _ _ _ Hg) in Ea as [k Hj]. specialize (Hstuck j). unfold thread_step, enter in Hstuck.
    rewrite Hj in Hstuck. case_bool_decide as Er; [done|]. apply set_choose_L in Er as [j' Hj'].
    exists j', Rd. by apply (g_read _ _ _ _ _ Hg). }
  pose proof (Hstuck i) as Hstep. unfold thread_step in Hstep. rewrite Hi in Hstep.
  destruct p as [o|l m k|l k|l [] k|k|m k|k|db j k|a j k|a j sh k|os ev k|k|k]; try done.
  - by destruct o.
  - destruct Hs as [Ht _]. exists l. destruct (Hw l) as (j & m' & Hj); [|by eauto].
    destruct m; unfold RLock, announce in Hstep; destruct (writer _), (waiting _); naive_solver.
  - destruct Hs as [Ht _]. exists l. destruct (Hw l) as (j & m' & Hj); [|by eauto].
    left. assert (waiting (mutex s l) = Some i) by (apply (g_wait _ _ _ _ _ Hg); eauto). congruence.
  - by destruct (alloc _).
Qed.

#[global] Instance finished_dec p : Decision (finished p).
Proof. unfold finished. destruct p as [[]| | | | | | | | | | | |]; apply _. Defined.

Lemma held_running ordered ns mask s h i l m : guarded ordered ns mask s h -> h i !! l = Some m ->
  exists p, threads s !! i = Some p /\ ~ finished p.
Proof.
  intros Hg Hl. destruct (threads s !! i) as [p|] eqn:Hi.
  - exists p. split; [done|]. intros Hp. pose proof (g_safe _ _ _ _ _ Hg _ _ Hi) as Hs. unfold follows in Hs.
    destruct p as [[]| | | | | | | | | | | |]; try done; cbn in Hs; unfold at_end in Hs; by rewrite Hs in Hl.
  - by rewrite (g_none _ _ _ _ _ Hg _ Hi) in Hl.
Qed.

Lemma rank_le l : (rank l <= 1)%nat.
Proof. destruct l; cbn; lia. Qed.

(** In order, goroutines wait only for goroutines that can go on. *)
Lemma stuck_finished ns mask s h : guarded true ns mask s h -> (forall j, thread_step j s = None) ->
  forall i p, threads s !! i = Some p -> finished p.
Proof.
  intros Hg Hstuck i p Hi. destruct (decide (finished p)) as [|Hp]; [done|]. exfalso.
  destruct (blocked_holder _ _ _ _ _ _ _ Hg Hstuck Hi Hp) as (l & j & m & Hl & _).
  destruct (held_running _ _ _ _ _ _ _ _ Hg Hl) as (q & Hj & Hq).
  destruct (blocked_holder _ _ _ _ _ _ _ Hg Hstuck Hj Hq) as (l2 & j2 & m2 & Hl2 & [_ Ht2]).
  destruct (held_running _ _ _ _ _ _ _ _ Hg Hl2) as (q2 & Hj2 & Hq2).
  destruct (blocked_holder _ _ _ _ _ _ _ Hg Hstuck Hj2 Hq2) as (l3 & _ & _ & _ & [_ Ht3]).
  specialize (Ht2 eq_refl l ltac:(eauto)). specialize (Ht3 eq_refl l2 ltac:(eauto)). pose proof (rank_le l3). lia.
Qed.

(** ** Termination *)

(** One of finitely many programs makes a step. *)
Definition pool_step {R} (m' m : gmap nat (Prog R)) : Prop :=
  exists i p q, m !! i = Some p /\ m' = <[i := q]> m /\ after q p.

Lemma pool_wf {R} : well_founded (@pool_step R).
Proof.
  intros m. induction m as [|i p m Hi IH] using map_ind.
  { constructor. intros m' (i & p & q & Hi & _). by rewrite lookup_empty in Hi. }
  revert i p Hi. induction IH as [m _ IHm]. intros i p Hi. induction (after_wf p) as [p _ IHp].
  constructor. intros m' (j & p' & q & Hj & -> & Hq). apply lookup_insert_Some in Hj as [[<- ->]|[Hne Hj]].
  - rewrite insert_insert_eq. by apply IHp.
  - rewrite insert_insert_ne by done. apply IHm; [by exists j, p', q|]. by rewrite lookup_insert_ne.
Qed.

(** However the goroutines are scheduled, and whatever the clock shows, they all
    come to their end: the state reached has none that has not returned, or a step
    leads to one from which they do. *)
Inductive all_return (s : System Reply) : Prop :=
| all_return_intro :
    (forall t i s', clock s <= t -> thread_step i (mkSystem _ (threads s) (mutexes s) (world s) t) = Some s' -> all_return s') ->
    ((forall i, thread_step i s = None) -> forall i p, threads s !! i = Some p -> finished p) ->
    all_return s.

Lemma guarded_returns ns mask : 0 <= ns -> 32 * ns <= maxAlloc -> forall s h, guarded true ns mask s h -> all_return s.
Proof.
  intros Hns Hsmall s. remember (threads s) as m eqn:Hm. revert s Hm. induction (pool_wf m) as [m _ IH].
  intros s -> h Hg. constructor; [|by eapply stuck_finished].
  intros t i s' _ Hs. assert (Hg' : guarded true ns mask (mkSystem _ (threads s) (mutexes s) (world s) t) h) by by destruct Hg.
  destruct (step_after _ _ _ Hs) as (p & q & Hi & Hq & Ha). cbn in Hi, Hq.
  eapply IH; [by exists i, p, q|done|]. by eapply (guarded_step _ _ _ Hsmall).
Qed.

(** ** Deadlock *)

(** Goroutine [i] has [l] to read and waits for [s.mu], which [j] has to write while
    it waits for [l]; whoever else runs waits for [s.mu]. *)
Record deadlock (i j : nat) (l : Lock) (s : System Reply) : Prop := {
  d_left : exists m k, threads s !! i = Some (Acq Main m k);
  d_read : i ∈ readers (mutex s l);
  d_right : exists k, threads s !! j = Some (AcqW l k);
  d_write : writer (mutex s Main) = Some j;
  d_rest : forall x, x <> i -> x <> j -> threads s !! x = None \/ exists m k, threads s !! x = Some (Acq Main m k)
}.

(** Every method begins with [s.mu]. *)
Lemma program_begins ns mask op : exists m k, program ns mask op = Acq Main m k.
Proof. destruct op; cbn; eauto. Qed.

Lemma deadlock_next i j l lb s s' : deadlock i j l s -> sys_next lb s = Some s' -> deadlock i j l s' /\ forall x o, Returned x o ∉ seen lb s.
Proof.
  intros [(mi & ki & Hi) Hr [kj Hj] Hw Hrest].
  assert (Hmain : forall x m k, threads s !! x = Some (Acq Main m k) -> thread_step x s = None).
  { intros x m k Hx. unfold thread_step, RLock, announce. rewrite Hx, Hw. by destruct m. }
  assert (Hall : forall x, threads s !! x = None \/ thread_step x s = None /\ forall o, threads s !! x <> Some (Halt o)).
  { intros x. destruct (decide (x = i)) as [->|Hxi]; [right; split; [eauto|by rewrite Hi]|].
    destruct (decide (x = j)) as [->|Hxj]; [right; split; [|by rewrite Hj]|].
    - unfold thread_step, enter. rewrite Hj, bool_decide_eq_false_2; [done|]. set_solver.
    - destruct (Hrest x Hxi Hxj) as [Hx|(m & k & Hx)]; [by left|]. right. split; [eauto|by rewrite Hx]. }
  destruct lb as [x op|x|x|t]; cbn.
  - destruct (threads s !! x) eqn:Hx; [done|]. intros [= <-]. split; [|set_solver].
    assert (x <> i /\ x <> j) as [Hxi Hxj] by (split; congruence). split; cbn [threads goes_on]; try done.
    + rewrite lookup_insert_ne by done. eauto.
    + rewrite lookup_insert_ne by done. eauto.
    + intros y Hyi Hyj. destruct (decide (y = x)) as [->|]; [rewrite lookup_insert_eq|rewrite lookup_insert_ne by done; auto].
      right. destruct (program_begins (w_shards (world s)) (w_mask (world s)) op) as (m & k & ->). eauto.
  - destruct (Hall x) as [Hx|[Hx _]]; [unfold thread_step; by rewrite Hx|by rewrite Hx].
  - destruct (Hall x) as [Hx|[_ Hx]]; [by rewrite Hx|]. destruct (threads s !! x) as [[]|]; try done. naive_solver.
  - destruct (_ <=? _); [|done]. intros [= <-]. split; [|set_solver]. split; cbn; eauto.
Qed.

Lemma deadlock_forever i j l ls : forall s s', deadlock i j l s -> sys_run ls s = Some s' -> forall x o, Returned x o ∉ history ls s.
Proof.
  induction ls as [|lb ls IH]; intros s s' Hd; cbn; [set_solver|]. intros (s1 & E & Hrun)%bind_Some x o.
  destruct (deadlock_next i j l lb s s1 Hd E) as [Hd1 Hn]. rewrite E. rewrite elem_of_app. intros [H|H]; [by eapply Hn|by eapply IH].
Qed.

(** Steps of a run, with the state of the locks written out. *)
Definition state (T : gmap nat (Prog Reply)) (M : gmap Lock RWMutex) (w : World) : System Reply := mkSystem _ T M w 0.
Definition lock_at (M : gmap Lock RWMutex) (l : Lock) : RWMutex := default unlocked (M !! l).

Lemma mutex_state T M w l : mutex (state T M w) l = lock_at M l.
Proof. done. Qed.

Ltac by_step := eapply eq_trans; [|done]; cbn [sys_run sys_next]; unfold thread_step, goes_on, with_lock, with_world, proceed;
  cbn [threads mutexes world clock state]; rewrite lookup_insert_eq; cbn [threads mutexes world clock state];
  rewrite ?mutex_state;
  cbn [mbind option_bind threads mutexes world clock]; rewrite ?insert_insert_eq.

Lemma run_rlock i l k m M' T M w ls r : RLock i (lock_at M l) = Some m -> <[l := m]> M = M' ->
  sys_run ls (state (<[i := k]> T) M' w) = r -> sys_run (LStep i :: ls) (state (<[i := Acq l Rd k]> T) M w) = r.
Proof. intros Hm <- <-. by_step. by rewrite Hm. Qed.
Lemma run_announce i l k m M' T M w ls r : announce i (lock_at M l) = Some m -> <[l := m]> M = M' ->
  sys_run ls (state (<[i := AcqW l k]> T) M' w) = r -> sys_run (LStep i :: ls) (state (<[i := Acq l Wr k]> T) M w) = r.
Proof. intros Hm <- <-. by_step. by rewrite Hm. Qed.
Lemma run_enter i l k m M' T M w ls r : enter i (lock_at M l) = Some m -> <[l := m]> M = M' ->
  sys_run ls (state (<[i := k]> T) M' w) = r -> sys_run (LStep i :: ls) (state (<[i := AcqW l k]> T) M w) = r.
Proof. intros Hm <- <-. by_step. by rewrite Hm. Qed.
Lemma run_runlock i l k M' T M w ls r : <[l := RUnlock i (lock_at M l)]> M = M' ->
  sys_run ls (state (<[i := k]> T) M' w) = r -> sys_run (LStep i :: ls) (state (<[i := Rel l Rd k]> T) M w) = r.
Proof. intros <- <-. by_step. done. Qed.
Lemma run_unlock i l k M' T M w ls r : <[l := Unlock (lock_at M l)]> M = M' ->
  sys_run ls (state (<[i := k]> T) M' w) = r -> sys_run (LStep i :: ls) (state (<[i := Rel l Wr k]> T) M w) = r.
Proof. intros <- <-. by_step. done. Qed.
Lemma run_meta i k T M w ls r :
  sys_run ls (state (<[i := k (w_meta w)]> T) M w) = r -> sys_run (LStep i :: ls) (state (<[i := GetMeta k]> T) M w) = r.
Proof. intros <-. by_step. done. Qed.
Lemma run_index i db j k a T M w ls r : indexed w db j = Ok a ->
  sys_run ls (state (<[i := k a]> T) M w) = r -> sys_run (LStep i :: ls) (state (<[i := Index db j k]> T) M w) = r.
Proof. intros Ha <-. by_step. rewrite Ha. unfold goes_on. cbn. by rewrite insert_insert_eq. Qed.
Lemma run_load i a j k sh T M w ls r : shard_at w a j = Some sh ->
  sys_run ls (state (<[i := k sh]> T) M w) = r -> sys_run (LStep i :: ls) (state (<[i := GetShard a j k]> T) M w) = r.
Proof. intros Ha <-. by_step. by rewrite Ha. Qed.
Lemma run_store i a j k sh w' T M w ls r : write_shard a j sh w = w' ->
  sys_run ls (state (<[i := k]> T) M w') = r -> sys_run (LStep i :: ls) (state (<[i := PutShard a j sh k]> T) M w) = r.
Proof. intros <- <-. by_step. done. Qed.
Lemma run_emit i os ev k w' T M w ls r : log_events os ev w = w' ->
  sys_run ls (state (<[i := k]> T) M w') = r -> sys_run (LStep i :: ls) (state (<[i := Emit os ev k]> T) M w) = r.
Proof. intros <- <-. by_step. done. Qed.
Lemma run_clock i k T M w ls r :
  sys_run ls (state (<[i := k 0]> T) M w) = r -> sys_run (LStep i :: ls) (state (<[i := Clock k]> T) M w) = r.
Proof. intros <-. by_step. done. Qed.
Lemma run_call i op p T M w ls r : T !! i = None -> program (w_shards w) (w_mask w) op = p ->
  sys_run ls (state (<[i := p]> T) M w) = r -> sys_run (LCall i op :: ls) (state T M w) = r.
Proof. intros Hi <- <-. cbn [sys_run sys_next threads state]. by rewrite Hi. Qed.
Lemma run_return i o T M w ls r : T !! i = None ->
  sys_run ls (state T M w) = r -> sys_run (LReturn i :: ls) (state (<[i := Halt o]> T) M w) = r.
Proof.
  intros Hi <-. cbn [sys_run sys_next threads state]. rewrite lookup_insert_eq. cbn. by rewrite delete_insert_id.
Qed.

(** [Set] by goroutine 0, then [Get] of that key up to the call of the observers and
    [EvictLRU] by goroutine 1 up to the shard. *)
Definition deadlock_run (key value : bytes) : list Label :=
  [LCall 0 (OpSet key value None)] ++ replicate 14 (LStep 0) ++ [LReturn 0] ++
  [LCall 0 (OpGet key)] ++ replicate 7 (LStep 0) ++
  [LCall 1 (OpEvictLRU 1)] ++ replicate 5 (LStep 1).

Lemma hash_one key : hash 0 key = 0.
Proof. apply Z.land_0_r. Qed.

(** The storage of one shard with these contents. *)
Definition one_shard (sh : shard) : World :=
  mkWorld [[sh]] (mkMeta {[0 := 0%nat]} 0 0 [] CleanupConfigDefault) 1 0 (false, false) [] 0.

Ltac by_vm := vm_compute; reflexivity.
Ltac step :=
  lazymatch goal with |- sys_run ?ls (state (<[?i := ?p]> ?T) ?M ?w) = ?r =>
    let p := eval hnf in p in
    change (sys_run ls (state (<[i := p]> T) M w) = r);
    lazymatch p with
    | Acq _ Rd _ => eapply run_rlock; [by_vm|by_vm|]
    | Acq _ Wr _ => eapply run_announce; [by_vm|by_vm|]
    | AcqW _ _ => eapply run_enter; [by_vm|by_vm|]
    | Rel _ Rd _ => eapply run_runlock; [by_vm|]
    | Rel _ Wr _ => eapply run_unlock; [by_vm|]
    | GetMeta _ => apply run_meta
    | Clock _ => apply run_clock
    | Index _ _ _ => eapply run_index; [by_vm|]
    | Emit _ _ _ => eapply run_emit; [reflexivity|]
    end
  end.

Lemma deadlock_reached key value w : t_NewMemory [WithShardCount 1] = Ok w ->
  exists s, sys_run (deadlock_run key value) (start w 0) = Some s /\ deadlock 0 1 (Shard 0 0) s.
Proof.
  intros [= <-]. set (v := mkStored ValueTypeString (StringValue value) None 0).
  change (start _ _) with (state ∅ ∅ (one_shard ∅)). unfold deadlock_run. cbn [replicate app]. eexists. split.
  - eapply run_call; [reflexivity|cbn; rewrite hash_one; reflexivity|]. cbn [w_mask one_shard].
    do 7 step. eapply run_load; [reflexivity|]. eapply (run_store _ _ _ _ _ (one_shard (<[key := v]> ∅))); [reflexivity|].
    do 5 step. eapply run_return; [reflexivity|].
    eapply run_call; [reflexivity|cbn; rewrite hash_one; reflexivity|].
    do 5 step. eapply (run_load _ _ _ _ (<[key := v]> ∅)); [reflexivity|]. rewrite lookup_insert_eq. step.
    eapply run_call; [reflexivity|reflexivity|]. do 5 step. reflexivity.
  - split; cbn [threads state]; rewrite ?lookup_insert_eq; rewrite ?lookup_insert_ne, ?lookup_insert_eq by done; eauto.
    + match goal with |- _ ∈ ?X => assert (E : X = {[0%nat]}) by by_vm; rewrite E end. set_solver.
    + intros x H0 H1. rewrite !lookup_insert_ne by congruence. by left.
Qed.

End Progress.
