(* ===== verification/StorageAtomic.v ===== *)
(** * The storage as a register per key

    What concurrent clients of one database may rely on: every operation takes effect
    on each of its keys at one moment between its call and its return, on the value the
    key has then. [atomic] is that specification, a transition system over one map;
    [lwp] is the proof rule that follows a method's program, the contents of the shard
    it has locked and what its operation has done so far. *)

From Stdlib Require Import ZArith Lia String.
From stdpp Require Import base list list_numbers gmap fin_maps.
From S2P Require Import Prelude GoLib StorageTypes Matching Memory MemoryInv StoreSpec MemoryOps MemoryBulk.
From S2P Require Import Threads StorageThreads.

Local Open Scope prog_scope.

(** ** The specification *)

(** The keys an operation is about. *)
Definition keys_of (op : Op) : list bytes :=
  match op with
  | OpGet k | OpSet k _ _ | OpExpire k _ | OpTTL k | OpPTTL k | OpType k => [k]
  | OpDel ks | OpExists ks => ks
  | _ => []
  end.

(** The part of an operation of many keys that is about one of them. *)
Definition part_of (op : Op) (k : bytes) : option Op :=
  match op with OpDel _ => Some (OpDel [k]) | OpExists _ => Some (OpExists [k]) | _ => None end.

Definition live_value (now : Z) (o : option StoredValue) : option StoredValue :=
  v ← o; if IsExpired now v then None else Some v.

(** The remaining time of a key at [t]; of a key that has expired, the sentinel or the
    negative rest. *)
Definition ttl_at (unit t : Z) (o : option StoredValue) (n : Z) : Prop :=
  match o with
  | None => n = -2 * unit
  | Some v => match Expiry v with
              | None => n = -1 * unit
              | Some e => n = Until t e \/ (IsExpired t v = true /\ n = -2 * unit)
              end
  end.

(** An operation at [t] on a key with the value [o]: its reply and the value after. *)
Definition effect (t : Z) (op : Op) (o : option StoredValue) (r : Reply) (o' : option StoredValue) : Prop :=
  match op with
  | OpGet _ => r = RVal (live_value t o ≫= string_of) /\ o' = o
  | OpSet _ x e => r = RUnit /\ exists t0, t0 <= t /\ o' = Some (mkStored ValueTypeString (StringValue x) e t0)
  | OpDel _ => r = RInt (if o is Some _ then 1 else 0) /\ o' = None
  | OpExists _ => r = RInt (if live_value t o is Some _ then 1 else 0) /\ o' = o
  | OpExpire _ e =>
      match live_value t o with
      | None => r = RBool false /\ o' = o
      | Some v => r = RBool true /\ o' = Some (mkStored (SType v) (SData v) (Some e) (Version v))
      end
  | OpTTL _ => o' = o /\ exists n, r = RInt n /\ ttl_at Second t o n
  | OpPTTL _ => o' = o /\ exists n, r = RInt n /\ ttl_at Millisecond t o n
  | OpType _ => r = RInt (match live_value t o with Some v => SType v | None => ValueTypeString end) /\ o' = o
  | _ => False
  end.

Lemma selected_with a m : selected (with_selected a m) = m.
Proof. unfold selected. cbn. by rewrite lookup_insert_eq. Qed.

Lemma only_key (k : bytes) (m : gmap bytes StoredValue) :
  size (filter (fun kv : bytes * StoredValue => kv.1 ∈ [k]) m) = if m !! k is Some _ then 1%nat else 0%nat.
Proof.
  assert (E : filter (fun kv : bytes * StoredValue => kv.1 ∈ [k]) m = partial_alter (fun _ => m !! k) k ∅).
  { apply map_eq. intros k'. apply option_eq. intros v. rewrite map_lookup_filter_Some. cbn. rewrite list_elem_of_singleton.
    destruct (decide (k' = k)) as [->|]; [rewrite lookup_partial_alter_eq; naive_solver|].
    rewrite lookup_partial_alter_ne, lookup_empty by done. naive_solver. }
  rewrite E. destruct (m !! k) as [v|].
  - change (size (<[k := v]> (∅ : gmap bytes StoredValue)) = 1%nat). by rewrite insert_empty, map_size_singleton.
  - change (size (delete k (∅ : gmap bytes StoredValue)) = 0%nat). by rewrite delete_empty, map_size_empty.
Qed.

Lemma ttl_reply_at unit now m k : ttl_at unit now (m !! k) (ttl_reply unit now m k).
Proof.
  unfold ttl_at, ttl_reply, live. destruct (m !! k) as [v|]; [|done]. unfold IsExpired.
  destruct (Expiry v) as [e|] eqn:Ee; cbn; [destruct (_ <? _)|]; rewrite ?Ee; auto.
Qed.

(** An operation of the abstract store on one key is such an effect; an expired key
    that was read may be gone. *)
Lemma astep_effect now a op r a' k : alimit a <= 0 -> keys_of op = [k] -> astep now a op r a' ->
  exists o, effect now op (selected a !! k) r o /\
    (selected a' !! k = o \/ (selected a' !! k = None /\ exists v, o = Some v /\ IsExpired now v = true)) /\
    forall k', k' <> k -> selected a' !! k' = selected a !! k'.
Proof.
  intros Hlim Hk. assert (Hlive : forall key, live now (selected a) key = live_value now (selected a !! key)) by done.
  destruct op as [key|key v e|ks|ks|key e|key|key|key|st p| | | |db| |l| |c|o|c| |st cu p c|g|]; cbn in Hk; try done;
    first [injection Hk as ->|subst ks]; cbn [astep effect]; rewrite ?Hlive.
  - intros [-> ->]. eexists. split; [done|]. case_bool_decide as Hl; [auto|]. rewrite selected_with. split.
    + rewrite lookup_delete_eq. destruct (selected a !! k) as [v|]; [right|by left]. split; [done|]. exists v. split; [done|].
      cbn in Hl. destruct (IsExpired now v); [done|]. by destruct Hl.
    + intros k' Hk'. by rewrite lookup_delete_ne.
  - destruct (Z.ltb_spec 0 (alimit a)); [lia|]. cbn. intros [-> ->]. eexists.
    split; [split; [done|]; exists now; split; [lia|reflexivity]|]. rewrite selected_with, lookup_insert_eq.
    split; [by left|]. intros k' Hk'. by rewrite lookup_insert_ne.
  - intros [-> ->]. rewrite selected_with, only_key. exists None. split; [split; [by destruct (selected a !! k)|done]|].
    split; [left; rewrite without_lookup; by rewrite decide_True by set_solver|].
    intros k' Hk'. rewrite without_lookup. by rewrite decide_False by set_solver.
  - intros [-> ->]. eexists. split; [split; [|done]|by auto]. cbn. case_decide as Hd; rewrite Hlive in Hd.
    + by destruct Hd as [v ->].
    + destruct (live_value now (selected a !! k)); [by destruct Hd|done].
  - destruct (live_value now (selected a !! k)) as [v|]; intros [-> ->]; (eexists; split; [done|]); [|auto].
    rewrite selected_with, lookup_insert_eq. split; [by left|]. intros k' Hk'. by rewrite lookup_insert_ne.
  - intros [-> ->]. eexists. split; [split; [done|eexists; split; [done|apply ttl_reply_at]]|by auto].
  - intros [-> ->]. eexists. split; [split; [done|eexists; split; [done|apply ttl_reply_at]]|by auto].
  - intros [-> ->]. eexists. split; [done|]. by auto.
Qed.

(** How far a call is: the keys it has not come to and the number it will reply so far,
    or its reply. *)
Inductive Stage : Type :=
| Left (ks : list bytes) (n : Z)
| Done (r : Reply).

(** It takes effect on one of its keys. *)
Definition progress (t : Z) (op : Op) (k : bytes) (o : option StoredValue) (st : Stage) (o' : option StoredValue)
    (st' : Stage) : Prop :=
  exists ks ks' n, st = Left ks n /\ ks ≡ₚ k :: ks' /\
    match part_of op k with
    | Some op1 => exists d, effect t op1 o (RInt d) o' /\ st' = Left ks' (n + d)
    | None => exists r, effect t op o r o' /\ st' = Done r
    end.

(** What it may reply. An operation on no key in particular may reply anything. *)
Definition answer (op : Op) (st : Stage) (r : Reply) : Prop :=
  match st with
  | Done r' => r = r'
  | Left [] n => match op with OpDel _ | OpExists _ => r = RInt n | _ => True end
  | Left _ _ => False
  end.

(** The keys and their values, the calls in progress, and the time. *)
Record Atomic : Type := mkAtomic {
  cells : gmap bytes StoredValue;
  calls : gmap nat (Op * Stage);
  time : Z
}.

(** A call takes effect on each of its keys at one moment; a key that has expired may
    be forgotten at any moment. *)
Inductive atomic : Atomic -> list Seen -> Atomic -> Prop :=
| at_call m cs t i op : cs !! i = None ->
    atomic (mkAtomic m cs t) [Called i op] (mkAtomic m (<[i := (op, Left (keys_of op) 0)]> cs) t)
| at_effect m cs t i op k st o st' : cs !! i = Some (op, st) -> progress t op k (m !! k) st o st' ->
    atomic (mkAtomic m cs t) [] (mkAtomic (partial_alter (fun _ => o) k m) (<[i := (op, st')]> cs) t)
| at_return m cs t i op st r : cs !! i = Some (op, st) -> answer op st r ->
    atomic (mkAtomic m cs t) [Returned i (Ok r)] (mkAtomic m (delete i cs) t)
| at_forget m cs t k v : m !! k = Some v -> IsExpired t v = true ->
    atomic (mkAtomic m cs t) [] (mkAtomic (delete k m) cs t)
| at_tick m cs t t' : t <= t' -> atomic (mkAtomic m cs t) [] (mkAtomic m cs t').

Inductive atomic_run : Atomic -> list Seen -> Atomic -> Prop :=
| run_nil a : atomic_run a [] a
| run_cons a e a' es a'' : atomic a e a' -> atomic_run a' es a'' -> atomic_run a (e ++ es) a''.

Lemma atomic_one a e a' : atomic a e a' -> atomic_run a e a'.
Proof. intros H. rewrite <- (app_nil_r e). eapply run_cons; [done|constructor]. Qed.

Lemma atomic_app a1 e1 a2 e2 a3 : atomic_run a1 e1 a2 -> atomic_run a2 e2 a3 -> atomic_run a1 (e1 ++ e2) a3.
Proof. induction 1; [done|]. intros Hrun. rewrite <- app_assoc. eapply run_cons; eauto. Qed.

(** ** The proof rule *)

(** A shard that is locked: as it is, and as the specification has it. *)
Record Known : Type := mkKnown {
  k_addr : nat;
  k_idx : Z;
  k_mode : Mode;
  k_real : shard;
  k_spec : shard
}.

Section Rule.
  Context `{Hash : XXHash} `{Runtime : GoRuntime}.
  Context (ns mask : Z) (len a0 : nat) (op : Op).

(** The database selected stays at [a0], the heap has [len] databases, nothing evicts. *)
Definition lin_meta (m : Meta) : Prop :=
  current_db m = Some a0 /\ (forall db a, m_databases m !! db = Some a -> (a < len)%nat) /\ m_memoryLimit m <= 0.

(** What the specification may do along with an action: nothing, take effect on the
    shard locked, or forget an expired key of it. *)
Inductive commit (t : Z) : option Known -> Stage -> option Known -> Stage -> Prop :=
| commit_none K st : commit t K st K st
| commit_effect key md real spec st o st' : progress t op key (spec !! key) st o st' ->
    (md = Rd -> o = spec !! key) ->
    commit t (Some (mkKnown a0 (hash mask key) md real spec)) st
      (Some (mkKnown a0 (hash mask key) md real (partial_alter (fun _ => o) key spec))) st'
| commit_forget a i real spec key v st : spec !! key = Some v -> IsExpired t v = true ->
    commit t (Some (mkKnown a i Wr real spec)) st (Some (mkKnown a i Wr real (delete key spec))) st.

(** At [t], with [K] known and the call at [st], the rest of the method does
    what the specification allows, up to [Q]. *)
Fixpoint lwp {A} (t : Z) (p : Prog A) (K : option Known) (st : Stage)
    (Q : Z -> A -> option Known -> Stage -> Prop) : Prop :=
  match p with
  | Halt (Ok a) => Q t a K st
  | Halt (Err _) => False
  | Halt _ => True
  | Acq Main _ k | Rel Main _ k => lwp t k K st Q
  | Acq (Shard a i) m k => K = None /\ (a < len)%nat /\ 0 <= i < ns /\
      forall sh, lwp t k (Some (mkKnown a i m sh sh)) st Q
  | Rel (Shard a i) m k => exists sh, K = Some (mkKnown a i m sh sh) /\ lwp t k None st Q
  | AcqW _ _ | NewDB _ => False
  | GetMeta k => forall m, lin_meta m -> lwp t (k m) K st Q
  | SetMeta m k => lin_meta m /\ lwp t k K st Q
  | Index db i k => forall a, db = Some a -> (a < len)%nat -> 0 <= i < ns -> lwp t (k a) K st Q
  | GetShard a i k => exists md real spec, K = Some (mkKnown a i md real spec) /\
      forall t', t <= t' -> exists K' st', commit t' K st K' st' /\ lwp t' (k real) K' st' Q
  | PutShard a i sh k => exists real spec, K = Some (mkKnown a i Wr real spec) /\
      forall t', t <= t' -> exists K' st', commit t' (Some (mkKnown a i Wr sh spec)) st K' st' /\ lwp t' k K' st' Q
  | Emit _ _ k => lwp t k K st Q
  | Toss k => forall x, lwp t (k x) K st Q
  | Clock k => forall t', t <= t' -> exists K' st', commit t' K st K' st' /\ lwp t' (k t') K' st' Q
  end.

(** Under the binders of an action that may go with one of the specification. *)
Ltac under := intros ?t ?Ht;
  match goal with Hk : forall t', _ <= t' -> _, Ht : _ <= ?t |- _ =>
    destruct (Hk t ltac:(lia)) as (?K & ?st & ?Hc & ?Hl); eexists _, _; split; [eassumption|] end.

Lemma lwp_mono {A} (p : Prog A) : forall t K st (Q Q' : Z -> A -> option Known -> Stage -> Prop),
  (forall t' a K' st', t <= t' -> Q t' a K' st' -> Q' t' a K' st') -> lwp t p K st Q -> lwp t p K st Q'.
Proof.
  induction p as [[]|[]| |[]| | | | | | | | | ]; intros t K st Q Q' HQ; cbn [lwp]; try done; eauto 3.
  - intros Hk. by apply HQ.
  - intros (? & ? & ? & ?). eauto 6.
  - intros (sh & -> & ?). eauto.
  - intros [? ?]. eauto.
  - intros (md & real & spec & -> & Hk). exists md, real, spec. split; [done|]. under.
    eapply H; [|exact Hl]. intros. apply HQ; [lia|done].
  - intros (real & spec & -> & Hk). exists real, spec. split; [done|]. under.
    eapply IHp; [|exact Hl]. intros. apply HQ; [lia|done].
  - intros Hk. under. eapply H; [|exact Hl]. intros. apply HQ; [lia|done].
Qed.

Lemma lwp_bind {A B} (p : Prog A) (k : A -> Prog B) : forall t K st Q,
  lwp t p K st (fun t' a K' st' => lwp t' (k a) K' st' Q) -> lwp t (pbind p k) K st Q.
Proof.
  induction p as [[]|[]| |[]| | | | | | | | | ]; intros t K st Q; cbn [lwp pbind]; try done; auto.
  - intros (? & ? & ? & ?). auto.
  - intros (? & ? & ?). eauto.
  - intros [? ?]. auto.
  - intros (md & real & spec & -> & Hk). exists md, real, spec. split; [done|]. under. auto.
  - intros (real & spec & -> & Hk). exists real, spec. split; [done|]. under. auto.
  - intros Hk. under. auto.
Qed.

Lemma lwp_then {A B} (p : Prog A) (k : A -> Prog B) t K st Q P : lwp t p K st P ->
  (forall t' a K' st', t <= t' -> P t' a K' st' -> lwp t' (k a) K' st' Q) -> lwp t (pbind p k) K st Q.
Proof. intros Hp Hk. apply lwp_bind. eapply lwp_mono; [|exact Hp]. auto. Qed.

Lemma lwp_ok {A} (f : A -> Reply) (p : Prog A) : forall t K st Q,
  lwp t p K st (fun t' a => Q t' (f a)) -> lwp t (ok f p) K st Q.
Proof.
  unfold ok. induction p as [[]|[]| |[]| | | | | | | | | ]; intros t K st Q; cbn [lwp pcatch]; try done; auto.
  - intros (? & ? & ? & ?). auto.
  - intros (? & ? & ?). eauto.
  - intros [? ?]. auto.
  - intros (md & real & spec & -> & Hk). exists md, real, spec. split; [done|]. under. auto.
  - intros (real & spec & -> & Hk). exists real, spec. split; [done|]. under. auto.
  - intros Hk. under. auto.
Qed.

End Rule.
