(* ===== verification/StorageAtomicOps.v ===== *)
(** * Every method follows the specification

    The proof rule of StorageAtomic for the program of every operation, but for
    [FlushAll], [SelectDB] and the eviction. *)

From Stdlib Require Import ZArith Lia String.
From stdpp Require Import base list list_numbers gmap fin_maps.
From S2P Require Import Prelude GoLib StorageTypes Matching Memory MemoryInv StoreSpec MemoryOps MemoryBulk Threads StorageThreads.
From S2P Require Import StorageLocks StorageAtomic.

Local Open Scope prog_scope.

Section Ops.
  Context `{Hash : XXHash} `{Runtime : GoRuntime}.
  Context (ns mask : Z) (len a0 : nat).

Abbreviation lwp := (lwp ns mask len a0).
Abbreviation commit := (commit mask a0).
Abbreviation lin_meta := (lin_meta len a0).

(** ** Rules *)

(** An operation of one key. *)
Lemma commit_one op t key md real spec r o : part_of op key = None -> effect t op (spec !! key) r o -> (md = Rd -> o = spec !! key) ->
  commit op t (Some (mkKnown a0 (hash mask key) md real spec)) (Left [key] 0)
    (Some (mkKnown a0 (hash mask key) md real (partial_alter (fun _ => o) key spec))) (Done r).
Proof. intros Hk He. apply commit_effect. exists [key], [], 0. rewrite Hk. eauto. Qed.

(** One of the keys of an operation of many. *)
Lemma progress_part op op1 t key ks ks' n o o' d : part_of op key = Some op1 -> ks ≡ₚ key :: ks' ->
  effect t op1 o (RInt d) o' -> progress t op key o (Left ks n) o' (Left ks' (n + d)).
Proof. intros Hk Hp He. exists ks, ks', n. rewrite Hk. eauto. Qed.

(** An operation that only reads, under either lock. *)
Lemma commit_look op t key md sh st st' : progress t op key (sh !! key) st (sh !! key) st' ->
  commit op t (Some (mkKnown a0 (hash mask key) md sh sh)) st (Some (mkKnown a0 (hash mask key) md sh sh)) st'.
Proof.
  intros He. pose proof (commit_effect mask a0 op t key md sh sh st _ st' He ltac:(done)) as H.
  by rewrite partial_alter_self in H.
Qed.

Lemma commit_read op t key md sh r : part_of op key = None -> effect t op (sh !! key) r (sh !! key) ->
  commit op t (Some (mkKnown a0 (hash mask key) md sh sh)) (Left [key] 0) (Some (mkKnown a0 (hash mask key) md sh sh)) (Done r).
Proof. intros Hk He. apply commit_look. exists [key], [], 0. rewrite Hk. eauto. Qed.

Lemma lwp_read_meta op {A} (f : Meta -> A) t K st Q : (forall m, lin_meta m -> Q t (f m) K st) -> lwp op t (read_meta f) K st Q.
Proof. intros HQ. exact HQ. Qed.

Lemma lwp_tell op ev t K st Q : Q t tt K st -> lwp op t (tell ev) K st Q.
Proof. intros HQ m _. exact HQ. Qed.

Lemma lwp_find op {A} key (k : nat -> Prog A) t K st Q : lwp op t (k a0) K st Q ->
  lwp op t (let* db := read_meta current_db in let* a := index db (hash mask key) in k a) K st Q.
Proof. intros Hk. cbn. intros m [-> _] a [= <-] _ _. done. Qed.

(** A loop that keeps [I] of what is known, and leaves the reply alone. *)
Lemma lwp_fold op {A B} (f : B -> A -> Prog B) l (I : option Known -> Prop) st Q :
  (forall t b x K, x ∈ l -> I K -> lwp op t (f b x) K st (fun _ _ K' st' => I K' /\ st' = st)) ->
  (forall t b K, I K -> Q t b K st) -> forall t b K, I K -> lwp op t (pfold f l b) K st Q.
Proof.
  intros Hf HQ. induction l as [|x l IH]; intros t b K HK; cbn [pfold]; [by apply HQ|].
  eapply lwp_then; [apply Hf; [left|done]|]. cbn. intros t' b' K' st' _ [HK' ->]. apply IH; [|done].
  intros t2 b2 x2 K2 Hx. apply Hf. by right.
Qed.

Ltac go := cbn [StorageAtomic.lwp pbind pret load store lock unlock emit index time_Now is_expired read_meta tell].
(** A load, a write and the release of a shard that is known. *)
Ltac loads := go; eexists _, _, _; split; [reflexivity|].
Ltac stores := go; eexists _, _; split; [reflexivity|].
Ltac leaves := go; eexists; split; [reflexivity|].
(** Nothing of the specification happens here, or this. *)
Ltac stay := go; eexists _, _; split; [apply commit_none|].
Ltac here := go; eexists _, _; split.

(** The shard of a key, locked. *)
Lemma lwp_shard op {A} key md (k : Prog A) t st Q : 0 <= hash mask key < ns -> (a0 < len)%nat ->
  (forall sh, lwp op t k (Some (mkKnown a0 (hash mask key) md sh sh)) st Q) ->
  lwp op t (Acq (Shard a0 (hash mask key)) md k) None st Q.
Proof. intros ?? Hk. cbn. do 3 (split; [done|]). exact Hk. Qed.

(** ** One key *)

Context (fits : forall key, 0 <= hash mask key < ns) (here : (a0 < len)%nat).

Lemma lwp_deleteExpiredKey op key t st : lwp op t (t_deleteExpiredKey mask key) None st (fun _ _ K st' => K = None /\ st' = st).
Proof.
  apply lwp_find, lwp_shard; [auto..|]. intros sh. loads. intros t1 Ht1. stay.
  destruct (sh !! key) as [v|] eqn:Ev; [|by leaves]. intros t2 Ht2. stay.
  destruct (IsExpired t2 v) eqn:Ee; [|by leaves]. stores. intros t3 Ht3.
  here; [|by leaves]. eapply commit_forget; [done|]. by eapply IsExpired_mono.
Qed.

Lemma live_some t v : IsExpired t v = false -> live_value t (Some v) = Some v.
Proof. cbn. by intros ->. Qed.
Lemma live_gone t v : IsExpired t v = true -> live_value t (Some v) = None.
Proof. cbn. by intros ->. Qed.

Abbreviation replied f := (fun (_ : Z) x (K : option Known) (st : Stage) => K = None /\ st = Done (f x)).

Lemma lwp_Get key t : lwp (OpGet key) t (t_Get mask key) None (Left [key] 0) (replied RVal).
Proof.
  apply lwp_find, lwp_shard; [auto..|]. intros sh. loads. intros t1 Ht1.
  destruct (sh !! key) as [v|] eqn:Ev.
  - stay. intros t2 Ht2. here.
    { apply commit_read; [done|]. cbn. rewrite Ev. eauto. }
    destruct (IsExpired t2 v) eqn:Ee.
    + rewrite live_gone by done. leaves. apply (lwp_then _ _ _ _ _ _ _ _ _ _ _ _ (lwp_deleteExpiredKey _ _ _ _)).
      intros t3 [] K st _ [-> ->]. done.
    + rewrite live_some by done. intros m Hm. by leaves.
  - here; [apply commit_read; [done|]; cbn; rewrite Ev; eauto|]. by leaves.
Qed.

Lemma lwp_Set key value expiry t : lwp (OpSet key value expiry) t (t_Set ns mask key value expiry) None (Left [key] 0) (replied (fun _ => RUnit)).
Proof.
  unfold t_Set. apply lwp_bind, lwp_read_meta. intros m (Ea & _ & Hl). rewrite Ea. go. intros a [= <-] _ _ now Hnow. stay.
  split; [done|]. split; [done|]. split; [auto|]. intros sh. loads. intros t1 Ht1. stay.
  stores. intros t2 Ht2. here.
  { apply (commit_one _ _ key); [done|split; [done|]; exists now; split; [lia|reflexivity]|done]. }
  leaves. intros m2 Hm2. cbn. destruct (Z.ltb_spec 0 (m_memoryLimit m)); [lia|]. done.
Qed.

Lemma lwp_Expire key expiry t : lwp (OpExpire key expiry) t (t_Expire mask key expiry) None (Left [key] 0) (replied RBool).
Proof.
  apply lwp_find, lwp_shard; [auto..|]. intros sh. loads. intros t1 Ht1.
  destruct (sh !! key) as [v|] eqn:Ev.
  - stay. intros t2 Ht2. destruct (IsExpired t2 v) eqn:Ee.
    + here; [|by leaves]. apply commit_read; [done|]. cbn. by rewrite Ev, live_gone.
    + here.
      { apply (commit_one _ _ key); [done|cbn; rewrite Ev, live_some by done; by split|done]. }
      stores. intros t3 Ht3. stay. by leaves.
  - here; [|by leaves]. apply commit_read; [done|]. cbn. by rewrite Ev.
Qed.

(** [TTL] and [PTTL], whose effect is [ttl_at]. *)
Lemma lwp_remaining op unit key t : part_of op key = None ->
  (forall t o n, ttl_at unit t o n -> effect t op o (RInt n) o) ->
  lwp op t (t_remaining mask unit key) None (Left [key] 0) (replied RInt).
Proof.
  intros Hop Heff. apply lwp_find, lwp_shard; [auto..|]. intros sh. loads. intros t1 Ht1.
  destruct (sh !! key) as [v|] eqn:Ev.
  - stay. intros t2 Ht2. destruct (IsExpired t2 v) eqn:Ee.
    + here; [|by leaves]. apply commit_read; [done|]. rewrite Ev. apply Heff. cbn.
      unfold IsExpired in *. destruct (Expiry v); [auto|done].
    + destruct (Expiry v) as [e|] eqn:Ex.
      * stay. intros t3 Ht3. here; [|by leaves]. apply commit_read; [done|]. rewrite Ev. apply Heff. cbn.
        rewrite Ex. by left.
      * here; [|by leaves]. apply commit_read; [done|]. rewrite Ev. apply Heff. cbn. by rewrite Ex.
  - here; [|by leaves]. apply commit_read; [done|]. rewrite Ev. by apply Heff.
Qed.

Lemma lwp_Type key t : lwp (OpType key) t (t_Type mask key) None (Left [key] 0) (replied RInt).
Proof.
  apply lwp_find, lwp_shard; [auto..|]. intros sh. loads. intros t1 Ht1.
  destruct (sh !! key) as [v|] eqn:Ev.
  - stay. intros t2 Ht2. here; [apply commit_read; [done|]; cbn; rewrite Ev; eauto|].
    leaves. split; [done|]. by destruct (IsExpired t2 v) eqn:Ee; [rewrite live_gone|rewrite live_some].
  - here; [|by leaves]. apply commit_read; [done|]. cbn. by rewrite Ev.
Qed.

(** ** Operations on no key in particular *)

Abbreviation quiet st := (fun (_ : Z) _ (K : option Known) (st' : Stage) => K = None /\ st' = st).

(** A loop over the shards of a database, or over the databases. *)
Lemma lwp_loop op {A B} (f : B -> A -> Prog B) l st t b :
  (forall t b x, x ∈ l -> lwp op t (f b x) None st (quiet st)) -> lwp op t (pfold f l b) None st (quiet st).
Proof.
  intros Hf. apply (lwp_fold _ _ _ (fun K => K = None)); [|done..]. intros t' b' x K Hx ->. by apply Hf.
Qed.

(** A loop inside a shard that only looks at the clock. *)
Lemma lwp_look op {A B} (f : B -> A -> Prog B) l K st t b :
  (forall t b x, lwp op t (f b x) K st (fun _ _ K' st' => K' = K /\ st' = st)) ->
  lwp op t (pfold f l b) K st (fun _ _ K' st' => K' = K /\ st' = st).
Proof. intros Hf. apply (lwp_fold _ _ _ (fun K' => K' = K)); [|done..]. intros t' b' x K' _ ->. apply Hf. Qed.

Lemma lwp_databases op {B} (f : B -> nat -> Prog B) st b t :
  (forall t b a, (a < len)%nat -> lwp op t (f b a) None st (quiet st)) ->
  lwp op t (let* dbs := (lock Main Rd ;;* let* m := GetMeta pret in let* dbs := prange (m_databases m) in
    unlock Main Rd ;;* pret dbs) in pfold (fun b '(_, a) => f b a) dbs b) None st (quiet st).
Proof.
  intros Hf m (_ & Ha & _) x. apply lwp_loop. intros t' b' [db a] Hin. apply Hf.
  rewrite (map_iter_perm x) in Hin. apply elem_of_map_to_list in Hin. by eapply Ha.
Qed.

Lemma lwp_MemoryUsage op st t : lwp op t (t_MemoryUsage ns) None st (quiet st).
Proof.
  apply (lwp_databases op (fun usage a => pfold (fun usage i => let* a := index (Some a) i in
      lock (Shard a i) Rd ;;* let* sh := load a i in let* entries := prange sh in unlock (Shard a i) Rd ;;*
      pret (foldl (fun usage '(key, value) => usage + Z.of_nat (length key) + calculateValueSize value) usage entries))
      (all_shards ns) usage)).
  intros t1 b a Ha. apply lwp_loop. intros t2 b2 i _. go. intros ? [= <-] _ Hi. do 3 (split; [done|]). intros sh.
  loads. intros t3 _. stay. intros x. by leaves.
Qed.

Lemma lwp_selected op {B} (f : B -> Z -> nat -> Prog B) st b t :
  (forall t b i a, 0 <= i < ns -> (a < len)%nat -> lwp op t (f b i a) None st (quiet st)) ->
  lwp op t (let* db := read_meta current_db in pfold (fun b i => let* a := index db i in f b i a) (all_shards ns) b) None st (quiet st).
Proof.
  intros Hf. apply lwp_bind, lwp_read_meta. intros m (-> & _ & _). apply lwp_loop. intros t' b' i _. go.
  intros a [= <-] Ha Hi. by apply Hf.
Qed.

Lemma lwp_KeyCount op st t : lwp op t (t_KeyCount ns) None st (quiet st).
Proof.
  apply (lwp_selected op (fun count i a => lock (Shard a i) Rd ;;* let* sh := load a i in
    unlock (Shard a i) Rd ;;* pret (count + Z.of_nat (size sh)))).
  intros t1 b i a Hi Ha. go. do 3 (split; [done|]). intros sh. loads. intros t2 _. stay. by leaves.
Qed.

Lemma lwp_Keys op strategy pattern st t : lwp op t (t_Keys ns strategy pattern) None st (quiet st).
Proof.
  apply (lwp_selected op (fun keys i a => lock (Shard a i) Rd ;;* let* sh := load a i in let* entries := prange sh in
    let* keys := pfold (fun keys '(key, value) =>
      let* expired := is_expired value in
      pret (if expired then keys
            else if bool_decide (pattern = []) || bool_decide (pattern = [star]) || matchPattern strategy key pattern
              then keys ++ [key] else keys)) entries keys in
    unlock (Shard a i) Rd ;;* pret keys)).
  intros t1 b i a Hi Ha. go. do 3 (split; [done|]). intros sh. loads. intros t2 _. stay. intros x.
  go. eapply lwp_then; [apply lwp_look|].
  - intros t3 b3 [key v]. go. intros t4 _. by stay.
  - intros t3 b3 K' st' _ [-> ->]. by leaves.
Qed.

Lemma lwp_scan_entries op strategy cursor match_ count entries : forall t i keys K st,
  lwp op t (t_scan_entries strategy cursor match_ count entries i keys) K st (fun _ _ K' st' => K' = K /\ st' = st).
Proof.
  induction entries as [|[key v] entries IH]; intros t i keys K st; cbn [t_scan_entries]; [done|].
  destruct (i <? cursor); [apply IH|]. go. intros t1 _. stay. destruct (IsExpired t1 v); [apply IH|].
  destruct (_ && _); [apply IH|]. destruct (_ <=? _); [done|apply IH].
Qed.

Lemma lwp_scan_shards op strategy cursor match_ count st idx : forall t i keys,
  lwp op t (t_scan_shards strategy cursor match_ count (Some a0) idx i keys) None st (quiet st).
Proof.
  induction idx as [|x idx IH]; intros t i keys; cbn [t_scan_shards]; [done|]. go. intros a [= <-] Ha Hx.
  do 3 (split; [done|]). intros sh. loads. intros t1 _. stay. intros toss. go. eapply lwp_then; [apply lwp_scan_entries|].
  intros t2 r K' st' _ [-> ->]. leaves. destruct r as [page|[i' keys']]; [done|apply IH].
Qed.

Lemma lwp_Scan op strategy cursor match_ count st t : lwp op t (t_Scan ns strategy cursor match_ count) None st (quiet st).
Proof.
  unfold t_Scan. apply lwp_bind, lwp_read_meta. intros m (-> & _ & _). destruct (_ || _); [done|]. apply lwp_scan_shards.
Qed.

Lemma lwp_Info op go_memory st t : lwp op t (t_Info ns go_memory) None st (quiet st).
Proof.
  unfold t_Info. apply lwp_bind, lwp_read_meta. intros m _. eapply lwp_then; [apply lwp_KeyCount|].
  intros t1 k K st1 _ [-> ->]. eapply lwp_then; [apply lwp_MemoryUsage|]. by intros t2 u K st2 _ [-> ->].
Qed.

Lemma lwp_count_expired op entries K st t : lwp op t (t_count_expired entries) K st (fun _ _ K' st' => K' = K /\ st' = st).
Proof. apply lwp_look. intros t1 b [key v]. go. intros t2 _. by stay. Qed.

Lemma lwp_shard_expired op sh K st t : lwp op t (t_shard_expired sh) K st (fun _ _ K' st' => K' = K /\ st' = st).
Proof.
  unfold t_shard_expired. intros toss. cbn [pbind pret]. cbn zeta. destruct (100 <? _); [|apply lwp_count_expired].
  eapply lwp_then; [apply lwp_count_expired|]. intros t1 e K' st' _ [-> ->]. by destruct (0 <? _).
Qed.

Lemma lwp_DatabaseInfo op st t : lwp op t (t_DatabaseInfo ns) None st (quiet st).
Proof.
  unfold t_DatabaseInfo. apply lwp_bind, lwp_read_meta. intros m (_ & Ha & _) toss. cbn [pbind pret].
  apply lwp_loop. intros t1 info [db a] Hin. rewrite (map_iter_perm toss) in Hin. apply elem_of_map_to_list, Ha in Hin.
  eapply lwp_then; [apply lwp_loop|].
  - intros t2 [k e] i _. go. intros ? [= <-] _ Hi. do 3 (split; [done|]). intros sh. loads. intros t3 _. stay.
    eapply lwp_then; [apply lwp_shard_expired|]. intros t4 e' K' st' _ [-> ->]. by leaves.
  - by intros t2 [k e] K' st' _ [-> ->].
Qed.

Lemma groups_in_range keys i g : t_keysByShard mask keys !! i = Some g -> 0 <= i < ns.
Proof. by apply (keys_in_range ns mask fits). Qed.

(** ** Many keys *)

(** What is left of a list of groups. *)
Definition left_keys (groups : list (Z * list bytes)) : list bytes := groups ≫= snd.

Lemma groups_pairs keys x :
  (map_iter x (t_keysByShard mask keys) ≫= fun '(i, ks) => pair i <$> ks) ≡ₚ (fun k => (hash mask k, k)) <$> keys.
Proof. rewrite (map_iter_perm x). apply (grouped_flat (hash mask)). Qed.

Lemma left_pairs (groups : list (Z * list bytes)) : left_keys groups = snd <$> (groups ≫= fun '(i, ks) => pair i <$> ks).
Proof.
  unfold left_keys. induction groups as [|[i ks] groups IH]; [done|]. cbn. rewrite fmap_app, <- list_fmap_compose, IH.
  f_equal. clear. induction ks; [done|]. cbn. by f_equal.
Qed.

Lemma groups_keys keys x : left_keys (map_iter x (t_keysByShard mask keys)) ≡ₚ keys.
Proof. rewrite left_pairs, groups_pairs, <- list_fmap_compose. cbn. by rewrite list_fmap_id. Qed.

Lemma groups_home keys x i ks k : (i, ks) ∈ map_iter x (t_keysByShard mask keys) -> k ∈ ks -> i = hash mask k.
Proof.
  intros Hi Hk. assert (H : (i, k) ∈ (fun k => (hash mask k, k)) <$> keys).
  { rewrite <- (groups_pairs keys x). apply list_elem_of_bind. exists (i, ks). split; [|done]. apply list_elem_of_fmap. eauto. }
  apply list_elem_of_fmap in H as (k' & [= -> ->] & _). done.
Qed.

(** A loop over what is left, [I] of it kept. *)
Lemma lwp_through op {A B} (f : B -> A -> Prog B) (I : list A -> B -> option Known -> Stage -> Prop) l :
  (forall t b x l' K st, x ∈ l -> I (x :: l') b K st -> lwp op t (f b x) K st (fun _ => I l')) ->
  forall t b K st, I l b K st -> lwp op t (pfold f l b) K st (fun _ => I []).
Proof.
  induction l as [|x l IH]; intros Hf t b K st HI; cbn [pfold]; [done|].
  eapply lwp_then; [by apply Hf; [left|]|]. cbn. intros t' b' K' st' _ HI'. apply IH; [|done].
  intros t2 b2 x2 l2 K2 st2 Hx. apply Hf. by right.
Qed.
(** An operation of many keys takes effect on each of them once, on its shard. *)
Lemma lwp_groups op md (f : nat -> Z -> Z -> bytes -> Prog Z) keys t :
  (forall t key n ks ks' sh, ks ≡ₚ key :: ks' ->
    lwp op t (f a0 (hash mask key) n key) (Some (mkKnown a0 (hash mask key) md sh sh)) (Left ks n)
      (fun _ n' K st => (exists sh', K = Some (mkKnown a0 (hash mask key) md sh' sh')) /\ st = Left ks' n')) ->
  lwp op t (let* db := read_meta current_db in let* groups := prange (t_keysByShard mask keys) in
      pfold (fun b '(i, ks) => let* a := index db i in
        lock (Shard a i) md ;;* let* b := pfold (f a i) ks b in unlock (Shard a i) md ;;* pret b) groups 0)
    None (Left keys 0) (fun _ n K st => K = None /\ st = Left [] n).
Proof.
  intros Hf. apply lwp_bind, lwp_read_meta. intros m (-> & _ & _) x. cbn [pbind pret].
  set (groups := map_iter x _). eapply lwp_mono; [|apply (lwp_through op _
    (fun gs n K st => K = None /\ exists ks, st = Left ks n /\ ks ≡ₚ left_keys gs) groups)].
  - intros t' n K st _ (-> & ks & -> & Hks). split; [done|]. apply Permutation_nil_r in Hks as ->. done.
  - intros t1 n [i g] gs K st Hin (-> & ks & -> & Hks). go. intros a [= <-] Ha Hi. do 3 (split; [done|]). intros sh.
    eapply lwp_then; [apply (lwp_through op _ (fun rest n K st => (exists sh, K = Some (mkKnown a0 i md sh sh)) /\
      exists ks, st = Left ks n /\ ks ≡ₚ rest ++ left_keys gs) g)|].
    + intros t2 n2 key rest K st Hkey ([sh2 ->] & ks2 & -> & Hks2). pose proof (groups_home _ _ _ _ _ Hin Hkey) as ->.
      eapply lwp_mono; [|by apply (Hf _ _ _ _ (rest ++ left_keys gs))]. cbn. intros t3 n3 K3 st3 _ [HK ->]. eauto.
    + eauto.
    + intros t2 n2 K st _ ([sh2 ->] & ks2 & -> & Hks2). leaves. eauto.
  - split; [done|]. exists keys. split; [done|]. symmetry. apply groups_keys.
Qed.

Lemma lwp_Del keys t : lwp (OpDel keys) t (t_Del mask keys) None (Left keys 0) (fun _ n K st => K = None /\ st = Left [] n).
Proof.
  apply (lwp_groups _ Wr (fun a i deleted key => let* sh := load a i in
      match sh !! key with
      | Some _ => store a i (delete key sh) ;;* tell (OnKeyDeleted key) ;;* pret (deleted + 1)
      | None => pret deleted
      end)).
  intros t0 key n ks ks' sh Hks. loads. intros t1 Ht1. destruct (sh !! key) as [v|] eqn:Ev.
  - stay. stores. intros t2 Ht2. here.
    { apply commit_effect; [eapply progress_part; [done|exact Hks|rewrite Ev; split; reflexivity]|done]. }
    go. intros m2 _. split; [by eexists|done].
  - here.
    { apply commit_look. eapply progress_part; [done|exact Hks|]. rewrite Ev. split; reflexivity. }
    rewrite Z.add_0_r. split; [by eexists|done].
Qed.

Lemma lwp_Exists keys t : lwp (OpExists keys) t (t_Exists mask keys) None (Left keys 0) (fun _ n K st => K = None /\ st = Left [] n).
Proof.
  apply (lwp_groups _ Rd (fun a i count key => let* sh := load a i in
      match sh !! key with
      | Some value => let* expired := is_expired value in pret (if expired then count else count + 1)
      | None => pret count
      end)).
  intros t0 key n ks ks' sh Hks. loads. intros t1 Ht1. destruct (sh !! key) as [v|] eqn:Ev.
  - stay. intros t2 Ht2. here.
    { apply commit_look. eapply progress_part; [done|exact Hks|]. rewrite Ev. split; reflexivity. }
    destruct (IsExpired t2 v) eqn:Ee; [rewrite live_gone by done|rewrite live_some by done]; rewrite ?Z.add_0_r; (split; [by eexists|done]).
  - here.
    { apply commit_look. eapply progress_part; [done|exact Hks|]. rewrite Ev. split; reflexivity. }
    rewrite Z.add_0_r. split; [by eexists|done].
Qed.
(** ** Cleanup *)

Lemma lwp_reservoir op actual entries : forall t i sampled K st,
  lwp op t (t_reservoir actual entries i sampled) K st (fun _ _ K' st' => K' = K /\ st' = st).
Proof.
  induction entries as [|[key v] entries IH]; intros t i sampled K st; cbn [t_reservoir]; [done|].
  destruct (i <? actual); [apply IH|]. cbn. intros x. apply IH.
Qed.

Lemma lwp_sample op a i sampleSize st t : (a < len)%nat -> 0 <= i < ns ->
  lwp op t (t_sample a i sampleSize) None st (quiet st).
Proof.
  intros Ha Hi. unfold t_sample. go. do 3 (split; [done|]). intros sh. loads. intros t1 _. stay.
  case_bool_decide; [by leaves|]. set (actual := if Z.of_nat (size sh) <? sampleSize then _ else _).
  destruct (actual <? 0); [done|]. intros x. go. eapply lwp_then.
  - instantiate (1 := fun _ _ K st' => K = Some (mkKnown a i Rd sh sh) /\ st' = st).
    destruct (_ <=? _); [done|apply lwp_reservoir].
  - intros t2 sampled K st' _ [-> ->]. eapply lwp_then; [apply lwp_look|].
    + intros t3 b key. destruct (sh !! key); [|done]. go. intros t4 _. by stay.
    + intros t3 b K' st' _ [-> ->]. by leaves.
Qed.

Lemma lwp_deleteKeyBatch op a i keys st t : (a < len)%nat -> 0 <= i < ns ->
  lwp op t (t_deleteKeyBatch a i keys) None st (quiet st).
Proof.
  intros Ha Hi. unfold t_deleteKeyBatch. go. do 3 (split; [done|]). intros sh0. eapply lwp_then.
  - apply (lwp_fold _ _ _ (fun K => exists sh, K = Some (mkKnown a i Wr sh sh)) _
      (fun _ _ K st' => (exists sh, K = Some (mkKnown a i Wr sh sh)) /\ st' = st)); [|done|by eexists].
    intros t1 _ key K _ [sh ->]. loads. intros t2 _. stay. destruct (sh !! key) as [v|] eqn:Ev; [|by split; [eexists|]].
    go. intros t3 _. stay. destruct (IsExpired t3 v) eqn:Ee; [|by split; [eexists|]].
    stores. intros t4 Ht4. here; [eapply commit_forget; [done|by eapply IsExpired_mono]|]. go. intros m _. split; [by eexists|done].
  - intros t1 [] K st' _ [[sh ->] ->]. by leaves.
Qed.

Lemma lwp_delete_batches op a i keys batch st fuel : (a < len)%nat -> 0 <= i < ns -> forall t k,
  lwp op t (t_delete_batches fuel a i keys batch k) None st (quiet st).
Proof.
  intros Ha Hi. induction fuel as [|fuel IH]; intros t k; cbn [t_delete_batches]; (destruct (_ <? Z.of_nat _); [|done]); [done|].
  destruct (_ || _); [done|]. eapply lwp_then; [by apply lwp_deleteKeyBatch|]. intros t1 [] K st' _ [-> ->]. apply IH.
Qed.

Lemma lwp_cleanup_rounds op a i config st rounds : (a < len)%nat -> 0 <= i < ns -> forall t,
  lwp op t (t_cleanup_rounds rounds a i config) None st (quiet st).
Proof.
  intros Ha Hi. induction rounds as [|rounds IH]; intros t; cbn [t_cleanup_rounds]; [done|].
  eapply lwp_then; [by apply lwp_sample|]. intros t1 keys K st' _ [-> ->]. case_bool_decide; [done|].
  eapply lwp_then; [by apply lwp_delete_batches|]. intros t2 [] K st' _ [-> ->].
  destruct (float_ltb _ _); [done|apply IH].
Qed.

Lemma lwp_performCleanup op st t : lwp op t (t_performCleanup ns) None st (quiet st).
Proof.
  unfold t_performCleanup. apply lwp_bind, lwp_read_meta. intros m _.
  apply (lwp_databases op (fun _ a => pfold (fun _ i => t_cleanupShard i a (m_cleanupConfig m)) (all_shards ns) tt)).
  intros t1 _ a Ha. apply lwp_loop. intros t2 _ i _. unfold t_cleanupShard. go. intros ? [= <-] _ Hi.
  by apply lwp_cleanup_rounds.
Qed.

(** ** Calls *)

(** The operations covered. *)
Definition lin_op (op : Op) : Prop :=
  match op with
  | OpFlushAll | OpSelectDB _ | OpEvictLRU _ => False
  | OpSetMemoryLimit limit => limit <= 0
  | OpSetCleanupConfig c => valid_config c
  | OpScan _ _ _ count => 0 <= count /\ 16 * count <= maxAlloc
  | _ => True
  end.

(** The method is done, with a reply the call may have. *)
Definition settled (op : Op) : Z -> Reply -> option Known -> Stage -> Prop := fun _ r K st => K = None /\ answer op st r.

Lemma settle op {A} (f : A -> Reply) (p : Prog A) t st : lwp op t p None st (replied f) -> lwp op t (ok f p) None st (settled op).
Proof. intros Hp. apply lwp_ok. eapply lwp_mono; [|exact Hp]. unfold settled. naive_solver. Qed.

Lemma settle_free op {A} (f : A -> Reply) (p : Prog A) t : (forall r, answer op (Left [] 0) r) ->
  lwp op t p None (Left [] 0) (quiet (Left [] 0)) -> lwp op t (ok f p) None (Left [] 0) (settled op).
Proof. intros Hop Hp. apply lwp_ok. eapply lwp_mono; [|exact Hp]. unfold settled. naive_solver. Qed.

Lemma lwp_write op f t st : (forall m, lin_meta m -> lin_meta (f m)) -> lwp op t (write_meta f) None st (quiet st).
Proof. intros Hf m Hm. split; [by apply Hf|done]. Qed.

Lemma lwp_program op t : lin_op op -> lwp op t (program ns mask op) None (Left (keys_of op) 0) (settled op).
Proof.
  destruct op as [k|k v e|ks|ks|k e|k|k|k|st p| | | |db| |l| |c|o|c| |st cu p c|g|]; cbn [lin_op program keys_of]; intros Hop; try done;
    try (apply settle; by auto using lwp_Get, lwp_Set, lwp_Expire, lwp_Type);
    try (apply settle_free; [done|]; by auto using lwp_Keys, lwp_KeyCount, lwp_MemoryUsage, lwp_performCleanup, lwp_Scan,
      lwp_Info, lwp_DatabaseInfo);
    try (apply settle_free; [done|apply lwp_write; intros m (? & ? & ?); by split_and!]).
  - apply lwp_ok. eapply lwp_mono; [|apply lwp_Del]. intros t' n K st _ [-> ->]. done.
  - apply lwp_ok. eapply lwp_mono; [|apply lwp_Exists]. intros t' n K st _ [-> ->]. done.
  - apply settle, lwp_remaining; [done|]. intros t' o n Hn. cbn. eauto.
  - apply settle, lwp_remaining; [done|]. intros t' o n Hn. cbn. eauto.
Qed.

End Ops.
