(* ===== verification/StorageLinear.v ===== *)
(** * Runs of the storage are runs of the specification

    The simulation behind linearizability: what each goroutine knows of the shard it
    has locked, with the state of [atomic] beside the state of the storage. *)

From Stdlib Require Import ZArith Lia String.
From stdpp Require Import base list list_numbers functions gmap fin_maps sets.
From S2P Require Import Prelude GoLib StorageTypes Matching Memory MemoryInv StoreSpec Threads StorageThreads.
From S2P Require Import StorageLocks StorageGuard StorageProgress StorageAtomic StorageAtomicOps.

Section Linear.
  Context `{Hash : XXHash} `{Runtime : GoRuntime}.
  Context (ns mask : Z) (len a0 : nat).
  Context (fits : forall key, 0 <= hash mask key < ns) (small : 32 * ns <= maxAlloc) (here : (a0 < len)%nat).

Abbreviation lwp := (lwp ns mask len a0).
Abbreviation commit := (commit mask a0).
Abbreviation guarded := (guarded true ns mask).

(** The shards, the locks and what is known, and the specification's map. *)
Record frame (s : System Reply) (h : nat -> gmap Lock Mode) (k : nat -> option Known) (a : Atomic) : Prop := {
  f_held : forall i b j md, h i !! Shard b j = Some md <-> exists real spec, k i = Some (mkKnown b j md real spec);
  f_real : forall i b j md real spec, k i = Some (mkKnown b j md real spec) -> shard_at (world s) b j = Some real;
  f_spec : forall i j md real spec key, k i = Some (mkKnown a0 j md real spec) -> hash mask key = j ->
    spec !! key = cells a !! key;
  f_free : forall key sh, (forall i, h i !! Shard a0 (hash mask key) <> Some Wr) ->
    shard_at (world s) a0 (hash mask key) = Some sh -> sh !! key = cells a !! key;
  f_time : time a = clock s
}.

(** Goroutine [i] and its call. *)
Definition tied (s : System Reply) (k : nat -> option Known) (a : Atomic) (i : nat) : Prop :=
  match threads s !! i with
  | None => calls a !! i = None
  | Some p => exists op st t, calls a !! i = Some (op, st) /\ t <= clock s /\
      lwp op t (plain p) (k i) st (settled op)
  end.

Record linked (s : System Reply) (h : nat -> gmap Lock Mode) (k : nat -> option Known) (a : Atomic) : Prop := {
  l_guard : guarded s h;
  l_frame : frame s h k a;
  l_tied : forall i, tied s k a i;
  l_meta : lin_meta len a0 (w_meta (world s));
  l_len : length (w_heap (world s)) = len
}.

(** Only the shards, their locks and the clock matter. *)
Lemma frame_ext s s' h h' k k' a : (forall b j, shard_at (world s) b j = shard_at (world s') b j) -> clock s = clock s' ->
  (forall i b j, h i !! Shard b j = h' i !! Shard b j) -> (forall i, k i = k' i) -> frame s h k a -> frame s' h' k' a.
Proof.
  intros Hw Hc Hh Hk []. split.
  - intros i b j md. by rewrite <- Hh, <- Hk.
  - intros i b j md real spec. rewrite <- Hk, <- Hw. apply f_real0.
  - intros i j md real spec key. rewrite <- Hk. apply f_spec0.
  - intros key sh Hno. rewrite <- Hw. apply f_free0. intros i. rewrite Hh. apply Hno.
  - by rewrite <- Hc.
Qed.

(** ** The specification moves *)

(** Goroutine [i] changes what the specification has in the shard it has locked. *)
Lemma frame_move s h k a i b j md real spec spec' m cs : guarded s h -> frame s h k a ->
  k i = Some (mkKnown b j md real spec) ->
  (forall key, b = a0 -> hash mask key = j -> spec' !! key = m !! key) ->
  (forall key, ~ (b = a0 /\ hash mask key = j /\ md = Wr) -> m !! key = cells a !! key) ->
  frame s h (<[i := Some (mkKnown b j md real spec')]> k) (mkAtomic m cs (time a)).
Proof.
  intros Hg Hf Hi Hspec Hm. assert (Hown : h i !! Shard b j = Some md) by (apply (f_held _ _ _ _ Hf); eauto). split.
  - intros x c y md2. destruct (decide (x = i)) as [->|]; [|rewrite fn_lookup_insert_ne by done; apply Hf].
    rewrite fn_lookup_insert, (f_held _ _ _ _ Hf), Hi. split; intros (? & ? & [= <- <- <- <- <-]); eauto.
  - intros x c y md2 re sp. destruct (decide (x = i)) as [->|]; [|rewrite fn_lookup_insert_ne by done; apply Hf].
    rewrite fn_lookup_insert. intros [= <- <- <- <- <-]. by eapply f_real.
  - intros x y md2 re sp key. destruct (decide (x = i)) as [->|Hx].
    + rewrite fn_lookup_insert. intros [= <- <- <- <- <-] Hj. by apply Hspec.
    + rewrite fn_lookup_insert_ne by done. intros Hk Hj. cbn. rewrite Hm; [by eapply f_spec|].
      intros (-> & Hj2 & ->). apply Hx. symmetry. eapply (guarded_exclusive true ns mask s h (Shard a0 j)); [done|done|].
      apply (f_held _ _ _ _ Hf). rewrite Hj2 in Hj. subst. eauto.
  - intros key sh Hw Hsh. cbn. rewrite Hm; [by eapply f_free|]. intros (-> & Hj & ->). apply (Hw i). by rewrite Hj.
  - apply Hf.
Qed.

Lemma commit_step s h k a i op st K' st' : guarded s h -> frame s h k a -> calls a !! i = Some (op, st) ->
  commit op (clock s) (k i) st K' st' ->
  exists a', atomic_run a [] a' /\ frame s h (<[i := K']> k) a' /\ calls a' = <[i := (op, st')]> (calls a).
Proof.
  intros Hg Hf Hi Hc. destruct a as [m cs t]. pose proof (f_time _ _ _ _ Hf) as Ht. cbn in *. subst t.
  inversion Hc as [K st0|key md real spec st0 o st1 Heff Hrd EK|b j real spec key v st0 Hv He EK]; subst.
  - exists (mkAtomic m cs (clock s)). split; [constructor|]. split; [|cbn; by rewrite insert_id].
    eapply frame_ext; [done..| |exact Hf]. intros x. destruct (decide (x = i)) as [->|].
    + by rewrite fn_lookup_insert.
    + by rewrite fn_lookup_insert_ne.
  - symmetry in EK. pose proof (f_spec _ _ _ _ Hf _ _ _ _ _ _ EK eq_refl) as Hcell. cbn in Hcell.
    eexists. split; [apply atomic_one; eapply at_effect; [done|by rewrite <- Hcell]|]. split; [|done].
    eapply (frame_move _ _ _ (mkAtomic m cs (clock s)) _ _ _ _ _ spec); [done|exact Hf|exact EK|..].
    + intros key' _ Hkey'. destruct (decide (key' = key)) as [->|].
      * by rewrite !lookup_partial_alter_eq.
      * rewrite !lookup_partial_alter_ne by done. by apply (f_spec _ _ _ _ Hf _ _ _ _ _ _ EK).
    + intros key' Hn. destruct (decide (key' = key)) as [->|]; [|by rewrite lookup_partial_alter_ne].
      rewrite lookup_partial_alter_eq. cbn. rewrite <- Hcell. apply Hrd. destruct md; [done|]. by destruct Hn.
  - symmetry in EK. destruct (decide (b = a0 /\ hash mask key = j)) as [[-> Hj]|Hn].
    + pose proof (f_spec _ _ _ _ Hf _ _ _ _ _ _ EK Hj) as Hcell. cbn in Hcell.
      eexists. split; [apply atomic_one; eapply at_forget; [by rewrite <- Hcell|done]|]. split; [|cbn; by rewrite insert_id].
      eapply (frame_move _ _ _ (mkAtomic m cs (clock s)) _ _ _ _ _ spec); [done|exact Hf|exact EK|..].
      * intros key' _ Hkey'. destruct (decide (key' = key)) as [->|]; [by rewrite !lookup_delete_eq|].
        rewrite !lookup_delete_ne by done. by apply (f_spec _ _ _ _ Hf _ _ _ _ _ _ EK).
      * intros key' Hn. destruct (decide (key' = key)) as [->|]; [by destruct Hn|by rewrite lookup_delete_ne].
    + eexists. split; [constructor|]. split; [|cbn; by rewrite insert_id].
      eapply (frame_move _ _ _ (mkAtomic m cs (clock s)) _ _ _ _ _ spec); [done|exact Hf|exact EK| |done].
      intros key' -> Hkey'. rewrite lookup_delete_ne by (intros ->; by apply Hn).
      by apply (f_spec _ _ _ _ Hf _ _ _ _ _ _ EK).
Qed.

(** ** Locks and memory *)

Lemma frame_take s h k a i b j md sh : frame s h k a -> k i = None -> shard_at (world s) b j = Some sh ->
  (forall x, h x !! Shard b j <> Some Wr) ->
  frame s (<[i := <[Shard b j := md]> (h i)]> h) (<[i := Some (mkKnown b j md sh sh)]> k) a.
Proof.
  intros Hf Hi Hsh Hw. split.
  - intros x c y md2. destruct (decide (x = i)) as [->|]; [|rewrite !fn_lookup_insert_ne by done; apply Hf].
    rewrite !fn_lookup_insert. split.
    + intros [[[= <- <-] <-]|[Hne Hx]]%lookup_insert_Some; [eauto|]. apply (f_held _ _ _ _ Hf) in Hx as (? & ? & ?). congruence.
    + intros (? & ? & [= <- <- <- <- <-]). by rewrite lookup_insert_eq.
  - intros x c y md2 re sp. destruct (decide (x = i)) as [->|]; [|rewrite fn_lookup_insert_ne by done; apply Hf].
    rewrite fn_lookup_insert. by intros [= <- <- <- <- <-].
  - intros x y md2 re sp key. destruct (decide (x = i)) as [->|]; [|rewrite fn_lookup_insert_ne by done; apply Hf].
    rewrite fn_lookup_insert. intros [= -> -> <- <- <-] <-. by apply (f_free _ _ _ _ Hf).
  - intros key sh' Hw' Hsh'. apply (f_free _ _ _ _ Hf); [|done]. intros x Hx. destruct (decide (x = i)) as [->|].
    + apply (f_held _ _ _ _ Hf) in Hx as (? & ? & ?). congruence.
    + apply (Hw' x). by rewrite fn_lookup_insert_ne.
  - apply Hf.
Qed.

Lemma frame_leave s h k a i b j md sh : frame s h k a -> k i = Some (mkKnown b j md sh sh) ->
  frame s (<[i := delete (Shard b j) (h i)]> h) (<[i := None]> k) a.
Proof.
  intros Hf Hi. split.
  - intros x c y md2. destruct (decide (x = i)) as [->|]; [|rewrite !fn_lookup_insert_ne by done; apply Hf].
    rewrite !fn_lookup_insert. split; [|by intros (? & ? & ?)].
    intros [Hne Hx]%lookup_delete_Some. apply (f_held _ _ _ _ Hf) in Hx as (? & ? & ?). congruence.
  - intros x c y md2 re sp. destruct (decide (x = i)) as [->|]; [by rewrite fn_lookup_insert|].
    rewrite fn_lookup_insert_ne by done. apply Hf.
  - intros x y md2 re sp key. destruct (decide (x = i)) as [->|]; [by rewrite fn_lookup_insert|].
    rewrite fn_lookup_insert_ne by done. apply Hf.
  - intros key sh' Hw Hsh'. destruct (decide (Shard b j = Shard a0 (hash mask key))) as [[= -> ->]|Hne].
    + rewrite (f_real _ _ _ _ Hf _ _ _ _ _ _ Hi) in Hsh'. injection Hsh' as <-. by eapply f_spec.
    + apply (f_free _ _ _ _ Hf); [|done]. intros x Hx. destruct (decide (x = i)) as [->|].
      * apply (Hw i). by rewrite fn_lookup_insert, lookup_delete_ne.
      * apply (Hw x). by rewrite fn_lookup_insert_ne.
  - apply Hf.
Qed.

Lemma shard_at_put w b j sh real c y : shard_at w b j = Some real ->
  shard_at (write_shard b j sh w) c y = if decide (Shard c y = Shard b j) then Some sh else shard_at w c y.
Proof.
  unfold shard_at. cbn. destruct (w_heap w !! b) as [shs|] eqn:Eb; [|done]. cbn. intros Hj.
  destruct (Z.ltb_spec j 0) as [|Hj0]; [done|]. destruct (decide (c = b)) as [->|Hc].
  - rewrite list_lookup_alter_eq, Eb. cbn. destruct (Z.ltb_spec y 0) as [|Hy]; [by rewrite decide_False by (intros [=]; lia)|].
    destruct (decide (y = j)) as [->|Hyj].
    + rewrite decide_True by done. rewrite list_lookup_insert_eq; [done|]. by eapply lookup_lt_Some.
    + rewrite decide_False by congruence. rewrite list_lookup_insert_ne; [done|]. lia.
  - rewrite list_lookup_alter_ne by done. by rewrite decide_False by congruence.
Qed.

Lemma frame_put s h k a i b j sh real spec : guarded s h -> frame s h k a -> k i = Some (mkKnown b j Wr real spec) ->
  frame (with_world (write_shard b j sh (world s)) s) h (<[i := Some (mkKnown b j Wr sh spec)]> k) a.
Proof.
  intros Hg Hf Hi. pose proof (f_real _ _ _ _ Hf _ _ _ _ _ _ Hi) as Hreal.
  assert (Hown : h i !! Shard b j = Some Wr) by (apply (f_held _ _ _ _ Hf); eauto). split; cbn [world with_world clock].
  - intros x c y md2. destruct (decide (x = i)) as [->|]; [|rewrite fn_lookup_insert_ne by done; apply Hf].
    rewrite fn_lookup_insert, (f_held _ _ _ _ Hf), Hi. split; intros (? & ? & [= <- <- <- <- <-]); eauto.
  - intros x c y md2 re sp. rewrite (shard_at_put _ _ _ _ _ _ _ Hreal). destruct (decide (x = i)) as [->|Hx].
    + rewrite fn_lookup_insert. intros [= <- <- <- <- <-]. by rewrite decide_True.
    + rewrite fn_lookup_insert_ne by done. intros Hk. rewrite decide_False; [by eapply f_real|].
      intros [= -> ->]. apply Hx. symmetry. eapply (guarded_exclusive true ns mask s h (Shard b j)); [done..|].
      apply (f_held _ _ _ _ Hf). eauto.
  - intros x y md2 re sp key. destruct (decide (x = i)) as [->|]; [|rewrite fn_lookup_insert_ne by done; apply Hf].
    rewrite fn_lookup_insert. intros [= -> -> <- <- <-]. by eapply f_spec.
  - intros key sh' Hw. rewrite (shard_at_put _ _ _ _ _ _ _ Hreal). case_decide as Hd.
    + destruct (Hw i). by rewrite Hd.
    + by apply (f_free _ _ _ _ Hf).
  - apply Hf.
Qed.

(** ** Steps *)

Lemma lwp_plain op t (p : Prog Reply) K st Q : lwp op t p K st Q -> lwp op t (plain p) K st Q.
Proof. by destruct p. Qed.

Lemma linked_after s s' h h' k k' a a' i p' op st' t' : linked s h k a -> guarded s' h' -> frame s' h' k' a' ->
  threads s' = <[i := p']> (threads s) -> clock s' = clock s -> (forall j, j <> i -> k' j = k j) ->
  calls a' = <[i := (op, st')]> (calls a) -> t' <= clock s -> lwp op t' (plain p') (k' i) st' (settled op) ->
  lin_meta len a0 (w_meta (world s')) -> length (w_heap (world s')) = len -> linked s' h' k' a'.
Proof.
  intros [_ _ Ht _ _] Hg Hf Hth Hclock Hk Hcalls Ht' Hp Hm Hl. split; try done. intros j. unfold tied. rewrite Hth, Hcalls, Hclock.
  destruct (decide (j = i)) as [->|Hj].
  - rewrite !lookup_insert_eq. eauto 10.
  - rewrite !lookup_insert_ne by done. specialize (Ht j). unfold tied in Ht. by rewrite Hk.
Qed.

Lemma same_holder (h : nat -> gmap Lock Mode) i x : h x = <[i := h i]> h x.
Proof. destruct (decide (x = i)) as [->|]; by rewrite ?fn_lookup_insert, ?fn_lookup_insert_ne. Qed.

Lemma shard_there w b j : sound true ns mask w -> (b < length (w_heap w))%nat -> 0 <= j < ns -> exists sh, shard_at w b j = Some sh.
Proof.
  intros Hw Hb Hj. pose proof (indexed_ok _ _ _ w b j Hw Hb Hj) as H. cbn in H. destruct (shard_at w b j); [eauto|done].
Qed.

(** A step that takes or leaves [s.mu], or waits. *)
Lemma linked_main s s' h k a i op st t p p' : linked s h k a -> guarded s' (<[i := holds_next p (h i)]> h) ->
  threads s' = <[i := p']> (threads s) -> clock s' = clock s -> calls a !! i = Some (op, st) -> t <= clock s ->
  lwp op t (plain p') (k i) st (settled op) -> lin_meta len a0 (w_meta (world s')) -> w_heap (world s') = w_heap (world s) ->
  (forall b j, holds_next p (h i) !! Shard b j = h i !! Shard b j) -> exists h' k' a', atomic_run a [] a' /\ linked s' h' k' a'.
Proof.
  intros Hl Hg Hth Hc Hi Ht Hp Hm Hheap Hh. eexists _, k, a. split; [constructor|]. eapply linked_after; try done.
  - eapply frame_ext; [| | | |exact (l_frame _ _ _ _ Hl)]; [|done| |done].
    + intros b j. unfold shard_at. by rewrite Hheap.
    + intros x b j. destruct (decide (x = i)) as [->|]; [by rewrite fn_lookup_insert, Hh|by rewrite fn_lookup_insert_ne].
  - by rewrite insert_id.
  - rewrite Hheap. apply Hl.
Qed.

(** A step that locks a shard. *)
Lemma linked_take s s' h k a i op st t b j md p' : linked s h k a -> guarded s' (<[i := <[Shard b j := md]> (h i)]> h) ->
  threads s' = <[i := p']> (threads s) -> clock s' = clock s -> world s' = world s -> calls a !! i = Some (op, st) -> t <= clock s ->
  k i = None -> (b < len)%nat -> 0 <= j < ns -> (forall sh, lwp op t p' (Some (mkKnown b j md sh sh)) st (settled op)) ->
  writer (mutex s (Shard b j)) = None -> exists h' k' a', atomic_run a [] a' /\ linked s' h' k' a'.
Proof.
  intros Hl Hg Hth Hc Hw Hi Ht Hk Hb Hj Hp Hno. pose proof Hl as [Hg0 Hf _ Hm Hlen].
  destruct (shard_there (world s) b j) as [sh Hsh]; [apply Hg0|lia|done|].
  eexists _, (<[i := Some (mkKnown b j md sh sh)]> k), a. split; [constructor|]. eapply linked_after; try done.
  - eapply (frame_ext s); [by rewrite Hw|symmetry; exact Hc|done..|]. eapply frame_take; [exact Hf|exact Hk|exact Hsh|].
    intros x Hx. apply (g_write _ _ _ _ _ Hg0) in Hx. congruence.
  - intros x Hx. by rewrite fn_lookup_insert_ne.
  - by rewrite insert_id.
  - apply lwp_plain. rewrite fn_lookup_insert. apply Hp.
  - by rewrite Hw.
  - by rewrite Hw.
Qed.

(** A step that unlocks a shard. *)
Lemma linked_leave s s' h k a i op st t b j md sh p' : linked s h k a -> guarded s' (<[i := delete (Shard b j) (h i)]> h) ->
  threads s' = <[i := p']> (threads s) -> clock s' = clock s -> world s' = world s -> calls a !! i = Some (op, st) -> t <= clock s ->
  k i = Some (mkKnown b j md sh sh) -> lwp op t p' None st (settled op) ->
  exists h' k' a', atomic_run a [] a' /\ linked s' h' k' a'.
Proof.
  intros Hl Hg Hth Hc Hw Hi Ht Hk Hp. pose proof Hl as [Hg0 Hf _ Hm Hlen].
  eexists _, (<[i := None]> k), a. split; [constructor|]. eapply linked_after; try done.
  - eapply (frame_ext s); [by rewrite Hw|symmetry; exact Hc|done..|]. by eapply frame_leave.
  - intros x Hx. by rewrite fn_lookup_insert_ne.
  - by rewrite insert_id.
  - apply lwp_plain. by rewrite fn_lookup_insert.
  - by rewrite Hw.
  - by rewrite Hw.
Qed.

(** A step that goes with one of the specification. *)
Lemma linked_commit s s' h k k1 a i op st p' K' st' : linked s h k a -> guarded s' h -> frame s' h k1 a ->
  (forall x, x <> i -> k1 x = k x) ->
  threads s' = <[i := p']> (threads s) -> clock s' = clock s -> calls a !! i = Some (op, st) ->
  commit op (clock s) (k1 i) st K' st' -> lwp op (clock s) p' K' st' (settled op) ->
  lin_meta len a0 (w_meta (world s')) -> length (w_heap (world s')) = len -> exists h' k' a', atomic_run a [] a' /\ linked s' h' k' a'.
Proof.
  intros Hl Hg Hf Hk1 Hth Hc Hi Hcm Hp Hm Hlen. rewrite <- Hc in Hcm.
  destruct (commit_step _ _ _ _ _ _ _ _ _ Hg Hf Hi Hcm) as (a' & Ha & Hf' & Hcalls).
  exists h, (<[i := K']> k1), a'. split; [done|]. eapply linked_after; try done.
  - intros x Hx. rewrite fn_lookup_insert_ne by done. by apply Hk1.
  - apply lwp_plain. by rewrite fn_lookup_insert.
Qed.

(** A step that touches neither the shards nor the locks. *)
Lemma linked_quiet s s' h k a i op st t p' : linked s h k a -> guarded s' h ->
  threads s' = <[i := p']> (threads s) -> clock s' = clock s -> calls a !! i = Some (op, st) -> t <= clock s ->
  lwp op t p' (k i) st (settled op) -> lin_meta len a0 (w_meta (world s')) -> w_heap (world s') = w_heap (world s) ->
  exists h' k' a', atomic_run a [] a' /\ linked s' h' k' a'.
Proof.
  intros Hl Hg Hth Hc Hi Ht Hp Hm Hheap. exists h, k, a. split; [constructor|]. eapply linked_after; try done.
  - eapply (frame_ext s); [|done..|apply Hl]. intros b j. unfold shard_at. by rewrite Hheap.
  - by rewrite insert_id.
  - by apply lwp_plain.
  - rewrite Hheap. apply Hl.
Qed.

Lemma linked_step s h k a i s' : linked s h k a -> thread_step i s = Some s' ->
  exists h' k' a', atomic_run a [] a' /\ linked s' h' k' a'.
Proof.
  intros Hl Hs. destruct (step_after _ _ _ Hs) as (p & _ & Hi & _ & _).
  pose proof (fits []) as Hns. pose proof Hl as [Hg Hf Ht Hm Hlen].
  pose proof (guarded_step _ _ _ small _ _ _ _ _ ltac:(lia) Hg Hi Hs) as Hg'.
  assert (Hsame : holds_next p (h i) = h i -> guarded s' h).
  { intros E. eapply guarded_ext; [|exact Hg']. intros x. rewrite E. symmetry. apply same_holder. }
  specialize (Ht i). unfold tied in Ht. rewrite Hi in Ht. destruct Ht as (op & st & t & Hcall & Ht & Hp).
  pose proof (g_safe _ _ _ _ _ Hg _ _ Hi) as Hsafe. unfold thread_step in Hs. rewrite Hi in Hs.
  destruct p as [o|l [] q|l q|l [] q|q|m q|q|db j q|b j q|b j sh q|os ev q|q|q]; cbn [plain StorageAtomic.lwp holds_next] in *; try done.
  - (* a lock to read *)
    apply bind_Some in Hs as (m & Hlock & [= <-]). unfold RLock in Hlock.
    destruct (writer (mutex s l)) eqn:Ew, (waiting (mutex s l)); try done. destruct l as [|b j].
    + eapply (linked_main s _ _ _ _ i _ _ t (Acq Main Rd q) q); try done; [by apply lwp_plain|]. intros b j. cbn. by rewrite lookup_insert_ne.
    + destruct Hp as (Hk & Hb & Hj & Hp). by eapply (linked_take s).
  - (* a lock to write, announced *)
    apply bind_Some in Hs as (m & _ & [= <-]). by eapply (linked_main s _ _ _ _ i _ _ t (Acq l Wr q) (AcqW l q)).
  - (* a lock to write, taken *)
    apply bind_Some in Hs as (m & Hlock & [= <-]).
    assert (Ew : writer (mutex s l) = None).
    { destruct (writer (mutex s l)) as [x|] eqn:Ew; [|done]. apply (g_excl _ _ _ _ _ Hg) in Ew as [_ Ew].
      assert (waiting (mutex s l) = Some i) by (apply (g_wait _ _ _ _ _ Hg); eauto). congruence. }
    destruct l as [|b j].
    + eapply (linked_main s _ _ _ _ i _ _ t (AcqW Main q) q); try done; [by apply lwp_plain|]. intros b j. cbn. by rewrite lookup_insert_ne.
    + destruct Hp as (Hk & Hb & Hj & Hp). by eapply (linked_take s).
  - (* a lock to read, left *)
    injection Hs as <-. destruct l as [|b j].
    + eapply (linked_main s _ _ _ _ i _ _ t (Rel Main Rd q) q); try done; [by apply lwp_plain|]. intros b j. cbn. by rewrite lookup_delete_ne.
    + destruct Hp as (sh & Hk & Hp). by eapply (linked_leave s).
  - injection Hs as <-. destruct l as [|b j].
    + eapply (linked_main s _ _ _ _ i _ _ t (Rel Main Wr q) q); try done; [by apply lwp_plain|]. intros b j. cbn. by rewrite lookup_delete_ne.
    + destruct Hp as (sh & Hk & Hp). by eapply (linked_leave s).
  - injection Hs as <-. eapply (linked_quiet s); try done; [by apply Hsame|by apply Hp].
  - injection Hs as <-. destruct Hp as [Hm' Hp]. eapply (linked_quiet s); try done. by apply Hsame.
  - injection Hs as <-. destruct Hsafe as (b & -> & Hb & Hj & _). rewrite Hlen in Hb.
    rewrite (indexed_ok true ns mask) in * by first [apply Hg|lia|done].
    eapply (linked_quiet s); try done; [by apply Hsame|by apply Hp].
  - injection Hs as <-. destruct Hp as (md & real & spec & Hk & Hp). rewrite (f_real _ _ _ _ Hf _ _ _ _ _ _ Hk) in *.
    destruct (Hp (clock s) Ht) as (K' & st' & Hc & Hq). eapply (linked_commit s _ h k k); try done;
      [by apply Hsame|by eapply (frame_ext s)].
  - injection Hs as <-. destruct Hp as (real & spec & Hk & Hp). destruct (Hp (clock s) Ht) as (K' & st' & Hc & Hq).
    eapply (linked_commit s _ h k (<[i := Some (mkKnown b j Wr sh spec)]> k)); try done.
    + by apply Hsame.
    + eapply (frame_ext (with_world (write_shard b j sh (world s)) s)); [done..|]. by eapply frame_put.
    + intros x Hx. by rewrite fn_lookup_insert_ne.
    + by rewrite fn_lookup_insert.
    + cbn. by rewrite length_alter.
  - injection Hs as <-. eapply (linked_quiet s); try done. by apply Hsame.
  - injection Hs as <-. eapply (linked_quiet s); try done. by apply Hsame.
  - injection Hs as <-. destruct (Hp (clock s) Ht) as (K' & st' & Hc & Hq). eapply (linked_commit s _ h k k); try done.
    + by apply Hsame.
    + by eapply (frame_ext s).
Qed.

(** ** Runs *)

(** The calls made are ones covered. *)
Definition lin_label (l : Label) : Prop := match l with LCall _ op => lin_op op | _ => True end.

Lemma lin_op_ok op : lin_op op -> call_ok true op.
Proof. destruct op; cbn; try done. Qed.

Lemma linked_next s h k a l s' : linked s h k a -> lin_label l -> sys_next l s = Some s' ->
  exists h' k' a', atomic_run a (seen l s) a' /\ linked s' h' k' a'.
Proof.
  intros Hl Hlab Hs. pose proof Hl as [Hg Hf Ht Hm Hlen].
  destruct a as [m cs now]. pose proof (f_time _ _ _ _ Hf) as Hnow. cbn in Hnow. subst now.
  assert (Hg' : (forall i, l <> LStep i) -> guarded s' h).
  { intros Hn. apply (guarded_quiet true ns mask fits l s); try done. destruct l; [by apply lin_op_ok|done..]. }
  destruct l as [i op|i|i|t]; cbn [sys_next seen lin_label] in *; [|by eapply linked_step|..].
  - specialize (Ht i) as Hti. unfold tied in Hti. destruct (threads s !! i) eqn:Hi; [done|]. injection Hs as <-.
    exists h, k, (mkAtomic m (<[i := (op, Left (keys_of op) 0)]> cs) (clock s)). split; [apply atomic_one; by constructor|].
    assert (Hk : k i = None).
    { destruct (k i) as [[b j md real spec]|] eqn:Ek; [|done].
      assert (h i !! Shard b j = Some md) by (apply (f_held _ _ _ _ Hf); eauto).
      by rewrite (g_none _ _ _ _ _ Hg _ Hi) in *. }
    split; [by apply Hg'|by eapply (frame_ext s); try done; destruct Hf| |done..]. intros x. unfold tied. cbn.
    destruct (decide (x = i)) as [->|Hx].
    + rewrite !lookup_insert_eq. exists op, (Left (keys_of op) 0), (clock s). split; [done|]. split; [lia|]. rewrite Hk. apply lwp_plain.
      pose proof (g_sound _ _ _ _ _ Hg) as Hw. rewrite (s_shards _ _ _ _ Hw), (s_mask _ _ _ _ Hw). by apply lwp_program.
    + rewrite !lookup_insert_ne by done. apply Ht.
  - specialize (Ht i) as Hti. unfold tied in Hti. destruct (threads s !! i) as [[o| | | | | | | | | | | |]|] eqn:Hi; try done.
    injection Hs as <-. destruct Hti as (op & st & t & Hcall & _ & Hp).
    pose proof (g_safe _ _ _ _ _ Hg _ _ Hi) as Hsafe. destruct o as [r| | |]; try done. destruct Hp as [Hk Hr]. cbn in Hcall.
    exists h, k, (mkAtomic m (delete i cs) (clock s)). split.
    + apply atomic_one. by econstructor.
    + split; [by apply Hg'|by eapply (frame_ext s); try done; destruct Hf| |done..]. intros x. unfold tied. cbn.
      destruct (decide (x = i)) as [->|Hx]; [by rewrite !lookup_delete_eq|]. rewrite !lookup_delete_ne by done. apply Ht.
  - destruct (Z.leb_spec (clock s) t); [|done]. injection Hs as <-. exists h, k, (mkAtomic m cs t).
    split; [apply atomic_one; by constructor|]. split; [by apply Hg'| | |done..].
    + by destruct Hf; split.
    + intros x. specialize (Ht x). unfold tied in *. cbn. destruct (threads s !! x); [|done].
      destruct Ht as (op & st & t' & ? & ? & ?). exists op, st, t'. split; [done|]. split; [lia|done].
Qed.

Lemma linked_run ls : forall s h k a s', linked s h k a -> Forall lin_label ls -> sys_run ls s = Some s' ->
  exists a', atomic_run a (history ls s) a'.
Proof.
  induction ls as [|l ls IH]; intros s h k a s' Hl Hls Hrun; [eexists; constructor|]. apply Forall_cons_1 in Hls as [Hlab Hls].
  cbn in Hrun |- *. apply bind_Some in Hrun as (s1 & Hs & Hrun). rewrite Hs.
  destruct (linked_next _ _ _ _ _ _ Hl Hlab Hs) as (h1 & k1 & a1 & Ha & Hl1).
  destruct (IH _ _ _ _ _ Hl1 Hls Hrun) as [a' Ha']. exists a'. by eapply atomic_app.
Qed.

End Linear.

(** ** From a storage in order *)

Section Start.
  Context `{Hash : XXHash} `{Runtime : GoRuntime}.

Lemma linked_start w t a0 : wf_world w -> m_memoryLimit (w_meta w) <= 0 -> current_db (w_meta w) = Some a0 ->
  linked (w_shards w) (w_mask w) (length (w_heap w)) a0 (start w t) (fun _ => ∅) (fun _ => None)
    (mkAtomic (current (flat w)) ∅ t).
Proof.
  intros Hw Hlim Ha. pose proof Hw as [Hwf Hgood]. split.
  - apply guarded_start. by apply sound_world.
  - split; try done.
    + intros i b j md. rewrite lookup_empty. naive_solver.
    + intros key sh _ Hsh. unfold shard_at in Hsh. apply bind_Some in Hsh as (shs & Eshs & Hsh).
      cbn [world start] in Eshs. destruct (_ <? 0); [done|].
      assert (Hdb : databases (flat w) !! currentDB (flat w) = Some shs).
      { cbn. rewrite lookup_fmap. unfold current_db in Ha. rewrite Ha. cbn. by rewrite Eshs. }
      destruct (wf_dbs _ Hwf _ _ Hdb) as [_ Hshs]. cbn [cells]. unfold current, absDB. rewrite lookup_fmap, Hdb.
      change (sh !! key = contents shs !! key).
      rewrite (contents_lookup _ _ _ key Hshs). change (hash_index (shardMask (flat w)) key) with (Z.to_nat (hash (w_mask w) key)).
      by rewrite Hsh.
  - intros i. done.
  - split; [done|]. split; [apply Hgood|done].
  - done.
Qed.

End Start.
