(* ===== verification/StorageSpec.v ===== *)
(** * What the storage engine guarantees *)

From Stdlib Require Import ZArith Lia String.
From stdpp Require Import base list list_numbers gmap fin_maps relations.
From S2P Require Import Prelude GoLib StorageTypes Matching Memory MemoryInv StoreSpec MemoryOps.
From S2P Require Import MemoryBulk MemoryEvict MemoryCleanup MemoryScan MemorySpec Interleaving.

(** ** A concrete hash and runtime, and a storage with some keys *)

#[local] Instance sample_hash : XXHash := fun key => foldr (fun b n => bz b + 3 * n) 0 key.

#[local] Program Instance sample_runtime : GoRuntime := {|
  map_iter _ _ _ _ _ m := map_to_list m;
  rng_IntN t n := Z.of_nat t mod n
|}.
Next Obligation. done. Qed.
Next Obligation. intros t n Hn. by apply Z.mod_pos_bound. Qed.

Definition sample_ops : list (Z * Op) := [
  (1, OpSet (bs "user:1") (bs "ann") None);
  (2, OpSet (bs "user:2") (bs "bob") (Some 50));
  (3, OpSet (bs "job:7") (bs "x") (Some 10))].

Definition sample_storage : MemoryStorage :=
  match NewMemory [WithShardCount 3] with
  | Ok s => (run_ops sample_ops s).2
  | _ => NewMemory_base
  end.

Lemma sample_storage_wf : wf sample_storage.
Proof.
  destruct (NewMemory_sharded 3) as (s & E & Hwf & _); [lia|].
  unfold sample_storage. rewrite E.
  destruct (run_ops_implements sample_ops s Hwf) as (rs & s' & -> & Hwf' & _); [by repeat constructor|done].
Qed.

Section Claims.
  Context `{Hash : XXHash} `{Runtime : GoRuntime}.

(** C1: every run of storage operations on a well-formed storage returns, keeps
    the invariant and is a run of the abstract store with the same replies; the cleanup
    configurations set on the way can be used and the pages of its scans allocated
    ([op_ok]). *)
Theorem storage_refines_store s ops : wf s -> Forall (fun '(_, op) => op_ok op) ops ->
  exists rs s', run_ops ops s = (Ok rs, s') /\ wf s' /\ asteps (abstract s) ops rs (abstract s').
Proof. intros Hwf Hok. by apply run_ops_implements. Qed.

(** A new storage with any shard count up to 2^43 is well formed, has the
    least power of two not below the count as its shards and stands for one
    empty database, number 0. *)
Theorem new_storage count : 0 < count <= 2 ^ 43 -> exists s,
  NewMemory [WithShardCount count] = Ok s /\ wf s /\ abstract s = mkAStore {[0 := ∅]} 0 0 /\
  count <= shards s /\ exists n, 0 <= n /\ shards s = 2 ^ n /\
    forall j, 0 <= j -> count <= 2 ^ j -> 2 ^ n <= 2 ^ j.
Proof.
  intros Hc. destruct (NewMemory_sharded count Hc) as (s & E & Hwf & Ha & Hs & _).
  exists s. do 3 (split; [done|]). rewrite Hs. split; [apply Z.log2_log2_up_spec; lia|].
  exists (Z.log2_up count). split; [apply Z.log2_up_nonneg|]. split; [done|].
  intros j Hj Hle. apply Z.pow_le_mono_r; [lia|]. by apply Z.log2_up_le_pow2; [lia|].
Qed.

(** A shard count above 2^62 wraps to a negative number and creating the
    storage panics. *)
Theorem huge_shard_count_panics count : 2 ^ 62 < count <= maxInt64 ->
  nextPowerOf2 count = minInt64 /\ exists p, NewMemory [WithShardCount count] = Panic p.
Proof.
  intros Hc. pose proof (nextPowerOf2_overflow count Hc) as E. split; [done|].
  unfold NewMemory. cbn [foldl]. unfold WithShardCount. destruct (Z.ltb_spec 0 count); [|lia].
  rewrite E. by eexists.
Qed.

(** Without a memory limit a stored string is read back until it expires,
    after which the read deletes it; other keys are untouched. *)
Theorem set_then_get s t0 t1 k v e : wf s -> memoryLimit s <= 0 ->
  exists s1 s2, Set_ t0 k v e s = (Ok tt, s1) /\
    let expired := match e with Some t => t <? t1 | None => false end in
    Get t1 k s1 = (Ok (if expired then None else Some v), s2) /\ wf s2 /\
    (expired = true -> current s2 !! k = None) /\
    (forall k', k' <> k -> current s2 !! k' = current s !! k').
Proof.
  intros Hwf Hl. pose proof (Set_ok t0 s k v e Hwf) as H. cbn zeta in H.
  destruct H as (s1 & E1 & Hev). destruct (Z.ltb_spec 0 (memoryLimit s)); [lia|]. cbn [andb] in Hev.
  set (new := mkStored ValueTypeString (StringValue v) e t0) in Hev.
  destruct (config_fields _ _ (ev_config _ _ _ _ Hev)) as (Hcd & _).
  assert (Hcur : current s1 = <[k := new]> (current s)).
  { unfold current at 1. by rewrite (ev_data _ _ _ _ Hev), Hcd, lookup_insert_eq. }
  destruct (Get_ok t1 s1 k (ev_wf _ _ _ _ Hev)) as (s2 & E2 & H2).
  exists s1, s2. split; [done|]. cbn zeta. unfold live in E2.
  rewrite Hcur, lookup_insert_eq in E2, H2. change (IsExpired t1 new) with
    (match e with Some t => t <? t1 | None => false end) in E2, H2.
  destruct (match e with Some t => t <? t1 | None => false end).
  - destruct (config_fields _ _ (ev_config _ _ _ _ H2)) as (Hcd2 & _).
    assert (Hcur2 : current s2 = delete k (<[k := new]> (current s))).
    { unfold current at 1. by rewrite (ev_data _ _ _ _ H2), Hcd2, lookup_insert_eq. }
    split; [done|]. split; [apply H2|]. rewrite Hcur2. split; [intros _; apply lookup_delete_eq|].
    intros k' Hk. by rewrite lookup_delete_ne, lookup_insert_ne.
  - destruct (config_fields _ _ (ev_config _ _ _ _ H2)) as (Hcd2 & _).
    assert (Hcur2 : current s2 = <[k := new]> (current s)).
    { rewrite <- Hcur. unfold current. by rewrite (ev_data _ _ _ _ H2), Hcd2. }
    split; [done|]. split; [apply H2|]. split; [done|]. intros k' Hk.
    by rewrite Hcur2, lookup_insert_ne.
Qed.

(** C24: whatever clients do in between, the expiry paths (a read that found an
    expired key, a cleanup batch sampled earlier) only ever remove keys that are
    expired when the removal runs: a key stored anew in the meantime stays. *)
Theorem expiry_is_safe x y z : inv x -> rtc system_step x y -> rtc expiry_step y z ->
  inv z /\ clock y <= clock z /\ shrinks (clock z) (absDB (store y)) (absDB (store z)).
Proof.
  intros Hinv Hxy. assert (Hy : inv y).
  { induction Hxy as [|a b c [He|Hcl] _ IH]; [done| |].
    - apply IH, (expiry_step_ok _ _ He Hinv).
    - by apply IH, (client_step_ok _ _ Hcl). }
  clear Hinv Hxy. intros Hyz. induction Hyz as [a|a b c Hab _ IH].
  - split; [done|]. split; [done|]. apply shrinks_refl.
  - destruct (expiry_step_ok _ _ Hab Hy) as (Hb & Hle & Hsh).
    destruct (IH Hb) as (Hc & Hle2 & Hsh2). split; [done|]. split; [lia|].
    by eapply shrinks_trans.
Qed.

(** A pending deletion can always be finished: it neither panics nor blocks
    on any reachable state. *)
Theorem pending_deletions_finish x y p : inv x -> rtc system_step x y -> p ∈ pending y ->
  exists s', finish (clock y) p (store y) = (Ok tt, s').
Proof.
  intros Hinv Hxy Hp. assert (Hy : inv y).
  { induction Hxy as [|a b c [He|Hcl] _ IH]; [done| |].
    - apply IH; [|done]. apply (expiry_step_ok _ _ He Hinv).
    - apply IH; [|done]. by apply (client_step_ok _ _ Hcl). }
  destruct Hy as [Hwf Hps]. rewrite Forall_forall in Hps.
  destruct (finish_ok (clock y) p (store y) Hwf (Hps p Hp)) as (s' & E & _). by exists s'.
Qed.

(** C27: a cleanup cycle with at least one round removes every expired key, and
    only those, from all databases when no shard is larger than the sample. *)
Theorem cleanup_is_complete now s : wf s -> 1 <= MaxRounds (cleanupConfig s) ->
  (forall db m, absDB s !! db = Some m -> small_shards s m (SampleSize (cleanupConfig s))) ->
  exists s', performCleanup now s = (Ok tt, s') /\ wf s' /\ absDB s' = live_part now <$> absDB s.
Proof.
  intros Hwf Hr Hsm. destruct (performCleanup_ok now s Hwf) as (s' & gone & E & Hev & _ & Hall).
  exists s'. split; [done|]. split; [apply Hev|]. by apply Hall.
Qed.

(** With a batch size of 0 the deletion loop of the cleanup never ends. *)
Theorem zero_batch_size_hangs fuel now db i keys s : keys <> [] ->
  (delete_batches fuel now db i keys 0 0 s).1 = OutOfFuel.
Proof.
  intros Hk. assert (Hl : (0 < length keys)%nat) by (destruct keys; [done|cbn; lia]).
  induction fuel as [|fuel IH]; cbn [delete_batches];
    destruct (Z.ltb_spec 0 (Z.of_nat (length keys))); try lia; [done|].
  rewrite Z.add_0_r. destruct (Z.ltb_spec (Z.of_nat (length keys)) 0); [lia|]. cbn. exact IH.
Qed.

(** [Del] calls every observer once for every key it deletes, and for no
    other key. *)
Theorem del_notifies_once s keys : wf s -> exists deleted s',
  Del keys s = (Ok (Z.of_nat (length deleted)), s') /\ NoDup deleted /\
  (forall k, k ∈ deleted <-> k ∈ keys /\ is_Some (current s !! k)) /\
  events s' = events s ++ notified s (OnKeyDeleted <$> deleted).
Proof.
  intros Hwf. destruct (Del_ok s keys Hwf) as (dl & s' & E & Hnd & Hdl & Hr).
  exists dl, s'. do 3 (split; [done|]). apply Hr.
Qed.

(** If a map is visited in the same order by every [range], a client that
    scans from cursor 0 until the cursor is 0 again stops and has seen exactly
    the live keys that match. *)
Theorem scan_lists_everything strategy now match_ count s :
  (forall t t' (m : shard), map_iter t m = map_iter t' m) -> wf s ->
  0 <= count -> 16 * count <= maxAlloc ->
  exists ks s', scan_all strategy now match_ count (S (size (current s))) 0 s = (Ok ks, s') /\
    forall k, k ∈ ks <-> exists v, current s !! k = Some v /\ scanned strategy now match_ (k, v).
Proof.
  intros Hst Hwf Hc Hm. destruct (current_shards s Hwf) as (shs & Hdb & _ & Hp).
  assert (HL : concat (map_iter 0 <$> shs) ≡ₚ map_to_list (current s)).
  { rewrite Hp. apply orders_perm, Forall2_fmap_l, Forall_Forall2_diag, Forall_forall. by eexists. }
  destruct (scan_all_ok strategy now match_ count s shs Hst Hwf Hdb Hc Hm (S (size (current s))) s 0
    (quiet_refl s)) as (ks & s' & E & _ & H1 & H2).
  { rewrite HL, length_map_to_list. lia. }
  exists ks, s'. split; [done|]. intros k. split.
  - intros (v & Hv & Hs)%H2. rewrite HL in Hv. exists v. by apply elem_of_map_to_list in Hv.
  - intros (v & Hv & Hs). apply H1. rewrite drop_0. apply list_elem_of_fmap. exists (k, v).
    split; [done|]. apply list_elem_of_filter. split; [done|]. rewrite HL.
    by apply elem_of_map_to_list.
Qed.

End Claims.

(** ** Witnesses *)

Lemma storage_refines_store_witness : exists rs s',
  run_ops [(5, OpGet (bs "user:1")); (20, OpGet (bs "job:7")); (21, OpDel [bs "user:1"; bs "nope"]);
           (60, OpCleanup); (61, OpKeyCount)] sample_storage = (Ok rs, s') /\
  wf s' /\ asteps (abstract sample_storage)
  [(5, OpGet (bs "user:1")); (20, OpGet (bs "job:7")); (21, OpDel [bs "user:1"; bs "nope"]);
   (60, OpCleanup); (61, OpKeyCount)] rs (abstract s').
Proof. apply storage_refines_store; [apply sample_storage_wf|by repeat constructor]. Defined.

Lemma new_storage_witness : exists s,
  NewMemory [WithShardCount 100] = Ok s /\ wf s /\ abstract s = mkAStore {[0 := ∅]} 0 0 /\
  100 <= shards s /\ exists n, 0 <= n /\ shards s = 2 ^ n /\
    forall j, 0 <= j -> 100 <= 2 ^ j -> 2 ^ n <= 2 ^ j.
Proof. apply new_storage. lia. Defined.

Lemma set_then_get_witness : exists s1 s2,
  Set_ 5 (bs "k") (bs "v") (Some 9) sample_storage = (Ok tt, s1) /\
  let expired := 9 <? 10 in
  Get 10 (bs "k") s1 = (Ok (if expired then None else Some (bs "v")), s2) /\ wf s2 /\
  (expired = true -> current s2 !! bs "k" = None) /\
  (forall k', k' <> bs "k" -> current s2 !! k' = current sample_storage !! k').
Proof.
  apply (set_then_get sample_storage 5 10 (bs "k") (bs "v") (Some 9)); [apply sample_storage_wf|].
  vm_compute. discriminate.
Defined.

Definition sample_system : System := mkSystem sample_storage 12 [PGet (bs "job:7"); PBatch 0 1 [bs "job:7"]].

Lemma sample_system_inv : inv sample_system.
Proof.
  split; [apply sample_storage_wf|]. repeat apply Forall_cons_2; [done| |constructor].
  split; [|vm_compute; split; congruence].
  apply (bool_decide_unpack _). vm_compute. exact I.
Qed.

(** A read and a cleanup batch both find the job expired; a client stores it anew; then
    both deletions run, and the new job stays. *)
Definition decided_storage : MemoryStorage := (sampleAndFindExpiredInShard 12 0 2 10 sample_storage).2.
Definition renewed_storage : MemoryStorage := (run_op 12 (OpSet (bs "job:7") (bs "y") None) decided_storage).2.
Definition batched_storage : MemoryStorage := (finish 15 (PBatch 0 2 [bs "job:7"]) renewed_storage).2.
Definition finished_storage : MemoryStorage := (finish 15 (PGet (bs "job:7")) batched_storage).2.

Definition renewed_system : System := mkSystem renewed_storage 12 [PBatch 0 2 [bs "job:7"]; PGet (bs "job:7")].

Lemma computed {A} (m : Mem A) s o : (m s).1 = o -> m s = (o, (m s).2).
Proof. intros <-. apply surjective_pairing. Qed.

Lemma renewed_reached : rtc system_step (mkSystem sample_storage 12 []) renewed_system.
Proof.
  destruct (key_shard_ok sample_storage (bs "job:7") sample_storage_wf) as (sh & E & Hk & _).
  eapply rtc_l; [left; eapply (step_get _ 12 [] (bs "job:7") _ _ E)|].
  { unfold expired_in. cbn [snd]. rewrite Hk. by vm_compute. }
  eapply rtc_l; [left; apply (step_sample _ 12 [PGet (bs "job:7")] 0 2 10 [bs "job:7"] decided_storage)|].
  - destruct (current_shards sample_storage sample_storage_wf) as (shs & Hdb & _).
    change (currentDB sample_storage) with 0 in Hdb. by exists shs.
  - replace (shards sample_storage) with 4 by (by vm_compute). lia.
  - apply computed. by vm_compute.
  - apply rtc_once. right. apply (step_client _ _ _ (OpSet (bs "job:7") (bs "y") None) RUnit); [done|].
    apply computed. by vm_compute.
Qed.

Lemma renewed_finishes : rtc expiry_step renewed_system (mkSystem finished_storage 15 []).
Proof.
  eapply rtc_l; [by apply (step_tick _ 12 15)|].
  eapply rtc_l; [apply (step_finish _ _ [] (PBatch 0 2 [bs "job:7"]) [PGet (bs "job:7")] batched_storage)|].
  { apply computed. by vm_compute. }
  apply rtc_once, (step_finish _ _ [] (PGet (bs "job:7")) [] finished_storage). apply computed. by vm_compute.
Qed.

Lemma expiry_is_safe_witness :
  (inv (mkSystem finished_storage 15 []) /\ 12 <= 15 /\ shrinks 15 (absDB renewed_storage) (absDB finished_storage)) /\
  expired_in 12 (current sample_storage) (bs "job:7") = true /\
  current finished_storage !! bs "job:7" = Some (mkStored ValueTypeString (StringValue (bs "y")) None 12).
Proof.
  split; [|by split; vm_compute].
  apply (expiry_is_safe (mkSystem sample_storage 12 []) renewed_system (mkSystem finished_storage 15 []));
    [split; [apply sample_storage_wf|constructor]|apply renewed_reached|apply renewed_finishes].
Defined.

Lemma pending_deletions_finish_witness : exists s',
  finish 12 (PBatch 0 1 [bs "job:7"]) sample_storage = (Ok tt, s').
Proof.
  apply (pending_deletions_finish sample_system sample_system (PBatch 0 1 [bs "job:7"]) sample_system_inv);
    [constructor|]. right. left.
Defined.

Lemma cleanup_is_complete_witness : exists s',
  performCleanup 20 sample_storage = (Ok tt, s') /\ wf s' /\
  absDB s' = live_part 20 <$> absDB sample_storage.
Proof.
  apply cleanup_is_complete; [apply sample_storage_wf|vm_compute; congruence|].
  intros db m Hm i. assert (Hsz : (size m <= 3)%nat).
  { assert (Hall : map_Forall (fun _ (m : gmap bytes StoredValue) => (size m <= 3)%nat) (absDB sample_storage))
      by (apply (bool_decide_unpack _); vm_compute; exact I).
    exact (Hall db m Hm). }
  assert (Hle : (size (shard_part sample_storage i m) <= size m)%nat).
  { apply map_subseteq_size, map_filter_subseteq. }
  change (SampleSize (cleanupConfig sample_storage)) with 20. lia.
Defined.

Lemma zero_batch_size_hangs_witness :
  (delete_batches 1000 20 0 0 [bs "job:7"] 0 0 sample_storage).1 = OutOfFuel.
Proof. apply zero_batch_size_hangs. done. Defined.

Lemma del_notifies_once_witness : exists deleted s',
  Del [bs "user:1"; bs "nope"; bs "user:1"] sample_storage = (Ok (Z.of_nat (length deleted)), s') /\
  NoDup deleted /\
  (forall k, k ∈ deleted <-> k ∈ [bs "user:1"; bs "nope"; bs "user:1"] /\
     is_Some (current sample_storage !! k)) /\
  events s' = events sample_storage ++ notified sample_storage (OnKeyDeleted <$> deleted).
Proof. apply del_notifies_once, sample_storage_wf. Defined.

Lemma scan_lists_everything_witness : exists ks s',
  scan_all 3 20 (bs "user:*") 1 (S (size (current sample_storage))) 0 sample_storage = (Ok ks, s') /\
  forall k, k ∈ ks <-> exists v, current sample_storage !! k = Some v /\ scanned 3 20 (bs "user:*") (k, v).
Proof.
  apply scan_lists_everything; [done|apply sample_storage_wf|lia|vm_compute; congruence].
Defined.

(** A runtime that visits maps forwards and backwards in turn, as Go's random
    start may. *)
Program Definition flip_runtime : GoRuntime := {|
  map_iter _ _ _ _ t m := if Nat.even t then map_to_list m else reverse (map_to_list m);
  rng_IntN t n := Z.of_nat t mod n
|}.
Next Obligation. intros K A ? ? t m. cbn. destruct (Nat.even t); [done|]. apply reverse_Permutation. Qed.
Next Obligation. intros t n Hn. by apply Z.mod_pos_bound. Qed.

Definition two_keys : MemoryStorage :=
  match NewMemory [WithShardCount 1] with
  | Ok s => (@run_ops sample_hash flip_runtime
      [(1, OpSet (bs "a") (bs "1") None); (1, OpSet (bs "b") (bs "2") None)] s).2
  | _ => NewMemory_base
  end.

(** Without a stable order the cursor is not enough: a key that is live
    during the whole scan can be missed. *)
Theorem scan_can_miss_keys : exists ks s' k,
  @scan_all flip_runtime 3 5 [] 1 10 0 two_keys = (Ok ks, s') /\
  is_Some (current two_keys !! k) /\ k ∉ ks.
Proof.
  destruct (@scan_all flip_runtime 3 5 [] 1 10 0 two_keys) as [o s'] eqn:E.
  assert (Eo : o = Ok [bs "b"; bs "b"]) by (apply (f_equal fst) in E; cbn [fst] in E; rewrite <- E; by vm_compute).
  exists [bs "b"; bs "b"], s', (bs "a"). split; [by rewrite Eo|]. split.
  - apply (bool_decide_unpack _). vm_compute. exact I.
  - apply (bool_decide_unpack _). vm_compute. exact I.
Qed.
