(* ===== verification/StorageThreadsSpec.v ===== *)
(** * What goroutines on one storage may rely on

    The claims about the storage under concurrent calls, at the level of its locks:
    linearizability, exclusion, progress without eviction and the deadlock with it,
    and the agreement of the programs with the methods of Memory. *)

From Stdlib Require Import ZArith Lia String.
From stdpp Require Import base list list_numbers functions gmap fin_maps sets.
From S2P Require Import Prelude GoLib StorageTypes Matching Memory MemoryInv StoreSpec MemorySpec Threads StorageThreads.
From S2P Require Import StorageThreadsAlone StorageLocks StorageGuard StorageProgress StorageAtomic StorageAtomicOps StorageLinear.
From S2P Require Import StorageSpec.

Section Claims.
  Context `{Hash : XXHash} `{Runtime : GoRuntime}.

(** C2: without a memory limit the storage is linearizable: however goroutines
    interleave between their locks, what they see of Get, Set, Expire, TTL, PTTL and Type
    is what a map would show them on which each call takes effect at one moment between
    its call and its return, and from which only expired keys vanish; Del and Exists take
    effect like this on each of their keys, not on all at once, and reply the sum; the
    cleanup, listings, scans and counts may run at the same time. The calls that change
    many keys or the database at once are not made meanwhile ([lin_op]): FlushAll,
    SelectDB, EvictLRU and setting a memory limit, under which Set evicts live keys. *)
Theorem storage_is_linearizable w t ls s : wf_world w -> m_memoryLimit (w_meta w) <= 0 -> Forall lin_label ls ->
  sys_run ls (start w t) = Some s ->
  exists a, atomic_run (mkAtomic (current (flat w)) ∅ t) (history ls (start w t)) a.
Proof.
  intros Hw Hlim Hls Hrun. destruct (good_cur w (ww_good w Hw)) as [a0 Ha].
  eapply (linked_run _ _ _ a0); [apply (ww_good w Hw)|apply (ww_wf w Hw)|by eapply (good_addr w (ww_good w Hw))| |done..].
  by apply linked_start.
Qed.

(** C6: no two goroutines are ever about to touch the same fields or the same shard with
    one of them writing, and no call panics or runs out of fuel, whatever is called,
    evictions included, with a cleanup configuration that can be used and pages of a
    scan that can be allocated. *)
Theorem storage_has_no_races w s : wf_world w -> reached false w s ->
  (forall i j l, ~ race s i j l) /\
  (forall i o, threads s !! i = Some (Halt o) -> finished (Halt o)).
Proof.
  intros Hw Hr. destruct (reached_guarded false w s Hw ltac:(done) Hr) as [h Hg]. split.
  - intros i j l (Hij & p & q & m & Hi & Hj & Hp & Hq). apply Hij.
    destruct (touch_held _ _ _ _ _ _ _ _ _ Hg Hi Hp) as (m1 & H1 & E1). rewrite E1 in H1 by done.
    destruct (touch_held _ _ _ _ _ _ _ _ _ Hg Hj Hq) as (m2 & H2 & _). by eapply guarded_exclusive.
  - intros i o Hi. pose proof (g_safe _ _ _ _ _ Hg _ _ Hi) as Hs. by destruct o.
Qed.

(** C10: every call returns as long as nothing evicts: without a memory limit and without
    [EvictLRU], the goroutines cannot deadlock and their programs are finite, so under
    every schedule all calls made come to their end. *)
Theorem calls_return_without_eviction w s : wf_world w -> m_memoryLimit (w_meta w) <= 0 -> reached true w s -> all_return s.
Proof.
  intros Hw Hlim Hr. destruct (reached_guarded true w s Hw ltac:(done) Hr) as [h Hg].
  pose proof (good_hash w (ww_good w Hw) []) as Hh. eapply (guarded_returns (w_shards w)); [lia|apply (ww_wf w Hw)|exact Hg].
Qed.

(** C11: an eviction can stop the storage for ever. On a new storage with one key, a [Get]
    of the key and an [EvictLRU] can each hold the lock the other waits for; from then
    on no call returns, neither these two nor any made later. *)
Theorem eviction_deadlocks key value : exists w s, t_NewMemory [WithShardCount 1] = Ok w /\
  sys_run (deadlock_run key value) (start w 0) = Some s /\
  forall ls s', sys_run ls s = Some s' -> forall i o, Returned i o ∉ history ls s.
Proof.
  destruct (new_world 1) as (w & _ & E & _); [lia|]. exists w.
  destruct (deadlock_reached key value w E) as (s & Hrun & Hd). exists s. split; [done|]. split; [done|].
  intros ls s' Hls. by eapply deadlock_forever.
Qed.

(** C25: a method that no other goroutine disturbs does what Memory says: its program
    returns the same and leaves the same storage, if the order in which a map is
    visited does not depend on its values. *)
Theorem methods_run_alone now w op : wf_world w ->
  (forall (A B : Type) (f : A -> B) (t : nat) (m : gmap Z A),
    map_iter t (f <$> m) = (fun '(k, a) => (k, f a)) <$> map_iter t m) ->
  let x := exec now (program (w_shards w) (w_mask w) op) w in
  let y := run_op now op (flat w) in
  x.1 = y.1 /\ flat x.2 = y.2.
Proof. intros Hw Hiter. destruct (program_alone Hiter now w op (ww_good w Hw)) as (H1 & H2 & _). done. Qed.

End Claims.

(** ** A storage and runs of it *)

#[local] Existing Instance sample_hash.
#[local] Existing Instance sample_runtime.

Definition sample_world : World :=
  match t_NewMemory [WithShardCount 4] with
  | Ok w => w
  | _ => mkWorld [] (mkMeta ∅ 0 0 [] CleanupConfigDefault) 0 0 (false, false) [] 0
  end.

Lemma sample_world_wf : wf_world sample_world /\ m_memoryLimit (w_meta sample_world) = 0.
Proof. unfold sample_world. destruct (new_world 4) as (w & s & -> & _ & _ & Hw & _ & Hl); [lia|]. done. Qed.

(** A Set that has locked its shard, a Get of the same key up to that shard, the rest
    of both; a Del of this key and another one. *)
Definition sample_run : list Label :=
  [LCall 0 (OpSet (bs "k") (bs "v") None)] ++ replicate 8 (LStep 0) ++
  [LCall 1 (OpGet (bs "k"))] ++ replicate 4 (LStep 1) ++
  replicate 2 (LStep 0) ++ replicate 8 (LStep 1) ++ [LReturn 1] ++ replicate 4 (LStep 0) ++ [LReturn 0] ++
  [LCall 2 (OpDel [bs "j"; bs "k"])] ++ replicate 19 (LStep 2) ++ [LReturn 2].

Definition runs (ls : list Label) (s : System Reply) : bool := match sys_run ls s with Some _ => true | None => false end.

Lemma runs_run ls s : runs ls s = true -> exists s', sys_run ls s = Some s'.
Proof. unfold runs. destruct (sys_run ls s); [eauto|done]. Qed.

Lemma sample_run_runs : runs sample_run (start sample_world 0) = true.
Proof. vm_compute. reflexivity. Qed.

Lemma storage_is_linearizable_witness :
  history sample_run (start sample_world 0) =
    [Called 0 (OpSet (bs "k") (bs "v") None); Called 1 (OpGet (bs "k")); Returned 1 (Ok (RVal (Some (bs "v"))));
     Returned 0 (Ok RUnit); Called 2 (OpDel [bs "j"; bs "k"]); Returned 2 (Ok (RInt 1))] /\
  exists a, atomic_run (mkAtomic (current (flat sample_world)) ∅ 0) (history sample_run (start sample_world 0)) a.
Proof.
  split; [vm_compute; reflexivity|].
  destruct (runs_run sample_run (start sample_world 0)) as [s Hs]; [vm_compute; reflexivity|].
  apply (storage_is_linearizable sample_world 0 sample_run s); [apply sample_world_wf|by rewrite (proj2 sample_world_wf)| |done].
  unfold sample_run. repeat constructor.
Defined.

(** The same two calls and an eviction, before any step. *)
Definition sample_calls : list Label :=
  [LCall 0 (OpSet (bs "k") (bs "v") None); LCall 1 (OpGet (bs "k")); LStep 0; LStep 1].

Lemma sample_reached ordered : exists s, reached ordered sample_world s /\ sys_run sample_calls (start sample_world 0) = Some s.
Proof.
  destruct (runs_run sample_calls (start sample_world 0)) as [s Hs]; [vm_compute; reflexivity|].
  exists s. split; [|done]. exists 0, sample_calls. split; [|done]. repeat constructor.
Qed.

Lemma storage_has_no_races_witness : exists s, sys_run sample_calls (start sample_world 0) = Some s /\
  (forall i j l, ~ race s i j l) /\ (forall i o, threads s !! i = Some (Halt o) -> finished (Halt o)).
Proof.
  destruct (sample_reached false) as (s & Hr & Hs). exists s. split; [done|].
  apply (storage_has_no_races sample_world s); [apply sample_world_wf|done].
Defined.

Lemma calls_return_without_eviction_witness : exists s, sys_run sample_calls (start sample_world 0) = Some s /\ all_return s.
Proof.
  destruct (sample_reached true) as (s & Hr & Hs). exists s. split; [done|].
  apply (calls_return_without_eviction sample_world s); [apply sample_world_wf|by rewrite (proj2 sample_world_wf)|done].
Defined.

Lemma methods_run_alone_witness :
  (exec 5 (program (w_shards sample_world) (w_mask sample_world) (OpSet (bs "k") (bs "v") None)) sample_world).1 = Ok RUnit /\
  (exec 5 (program (w_shards sample_world) (w_mask sample_world) (OpSet (bs "k") (bs "v") None)) sample_world).1 =
    (run_op 5 (OpSet (bs "k") (bs "v") None) (flat sample_world)).1.
Proof.
  split; [vm_compute; reflexivity|].
  apply (methods_run_alone 5 sample_world (OpSet (bs "k") (bs "v") None)); [apply sample_world_wf|].
  intros A B f t m. change (map_to_list (f <$> m) = (fun '(k, a) => (k, f a)) <$> map_to_list m).
  rewrite map_to_list_fmap. apply list_fmap_ext. by intros ? [] ?.
Defined.
