(* ===== verification/Lzf.v ===== *)
(** * LZF decompression (replication/lzf.go)

    The output buffer is modelled by its written prefix [result[:resultPos]]:
    every back reference reads below [resultPos], and the buffer is only
    returned when it is full. *)

From Stdlib Require Import ZArith Lia String.
From stdpp Require Import base list list_numbers.
From S2P Require Import Prelude GoLib.

Definition lzf_error (msg : string) : error := Errorf (bs "LZF decompression error: " ++ bs msg).

(** The byte-by-byte copy of a back reference: byte [n] of it is read at
    [backRefPos], which may already be one of the bytes it wrote. *)
Fixpoint copy_back (n : nat) (offset : Z) (result : bytes) : outcome bytes :=
  match n with
  | O => Ok result
  | S n' =>
      match (if Z.of_nat (length result) <? offset then None
             else result !! Z.to_nat (Z.of_nat (length result) - offset)) with
      | Some b => copy_back n' offset (result ++ [b])
      | None => Panic (bs "index out of range")
      end
  end.

(** The loop; [input] is what is left of the compressed data. Every iteration
    consumes its control byte, so the length of the input is fuel enough. *)
Fixpoint lzf_loop (fuel : nat) (input : bytes) (uncompressedLen : Z) (result : bytes)
  : outcome bytes :=
  match input with
  | [] => Ok result
  | ctrl :: input1 =>
      if Z.of_nat (length result) <? uncompressedLen then
        match fuel with
        | O => OutOfFuel
        | S fuel' =>
            if bz ctrl <? 32 then
              let literalLen := bz ctrl + 1 in
              if Z.of_nat (length input1) <? literalLen then
                Err (lzf_error "not enough literal data")
              else if uncompressedLen <? Z.of_nat (length result) + literalLen then
                Err (lzf_error "output buffer overflow")
              else
                lzf_loop fuel' (drop (Z.to_nat literalLen) input1) uncompressedLen
                  (result ++ take (Z.to_nat literalLen) input1)
            else
              let length0 := Z.shiftr (bz ctrl) 5 in
              match (if length0 =? 7 then
                       match input1 with
                       | [] => None
                       | e :: input2 => Some (length0 + bz e, input2)
                       end
                     else Some (length0, input1)) with
              | None => Err (lzf_error "missing extended length")
              | Some (length1, input2) =>
                  let len := length1 + 2 in
                  match input2 with
                  | [] => Err (lzf_error "missing offset")
                  | lo :: input3 =>
                      let offset := Z.shiftl (Z.land (bz ctrl) 31) 8 + bz lo + 1 in
                      if Z.of_nat (length result) <? offset then Err (lzf_error "invalid offset")
                      else if uncompressedLen <? Z.of_nat (length result) + len then
                        Err (lzf_error "output buffer overflow")
                      else
                        match copy_back (Z.to_nat len) offset result with
                        | Ok result' => lzf_loop fuel' input3 uncompressedLen result'
                        | Err e => Err e
                        | Panic p => Panic p
                        | OutOfFuel => OutOfFuel
                        end
                  end
              end
        end
      else Ok result
  end.

Definition lzfDecompress (compressed : bytes) (uncompressedLen : Z) : outcome bytes :=
  if bool_decide (compressed = []) then Ok []
  else if uncompressedLen <? 0 then Panic (bs "makeslice: len out of range")
  else
    match lzf_loop (length compressed) compressed uncompressedLen [] with
    | Ok result =>
        if Z.of_nat (length result) =? uncompressedLen then Ok result
        else Err (Errorf (bs "LZF decompression error: decompressed size mismatch: expected " ++
                          FormatInt uncompressedLen ++ bs ", got " ++
                          FormatInt (Z.of_nat (length result))))
    | o => o
    end.

(** ** The format

    A compressed string is a sequence of literal runs and back references. *)

Inductive token : Type :=
| Literal (data : bytes)
| BackRef (len offset : Z).

Definition wf_token (t : token) : Prop :=
  match t with
  | Literal data => 1 <= Z.of_nat (length data) <= 32
  | BackRef len offset => 3 <= len <= 264 /\ 1 <= offset <= 8192
  end.

#[global] Instance wf_token_dec t : Decision (wf_token t).
Proof. destruct t; cbn; apply _. Defined.

Definition encode_token (t : token) : bytes :=
  match t with
  | Literal data => zb (Z.of_nat (length data) - 1) :: data
  | BackRef len offset =>
      let hi := (offset - 1) / 256 in
      let lo := zb ((offset - 1) mod 256) in
      if len <=? 8 then [zb (32 * (len - 2) + hi); lo]
      else [zb (224 + hi); zb (len - 9); lo]
  end.

Definition encode_tokens (ts : list token) : bytes := ts ≫= encode_token.

(** What a token appends to the output: the bytes of a literal; for a back
    reference bytes that each repeat the byte [offset] before it. *)
Inductive expands : bytes -> list token -> bytes -> Prop :=
| expands_nil out : expands out [] out
| expands_literal out data ts res :
    expands (out ++ data) ts res -> expands out (Literal data :: ts) res
| expands_backref out len offset new ts res :
    offset <= Z.of_nat (length out) -> Z.of_nat (length new) = len ->
    (forall i, (i < length new)%nat ->
       (out ++ new) !! (length out + i)%nat = (out ++ new) !! (length out + i - Z.to_nat offset)%nat) ->
    expands (out ++ new) ts res -> expands out (BackRef len offset :: ts) res.

(** ** Proofs *)

Lemma copy_back_ok n offset result : 1 <= offset <= Z.of_nat (length result) ->
  exists new, copy_back n offset result = Ok (result ++ new) /\ length new = n.
Proof.
  revert result. induction n as [|n IH]; intros result Ho; cbn [copy_back].
  - exists []. by rewrite app_nil_r.
  - destruct (Z.ltb_spec (Z.of_nat (length result)) offset); [lia|].
    destruct (lookup_lt_is_Some_2 result (Z.to_nat (Z.of_nat (length result) - offset))) as [b ->]; [lia|].
    destruct (IH (result ++ [b])) as (new & E & Hl); [rewrite length_app; cbn; lia|].
    exists (b :: new). rewrite E, <- app_assoc. cbn. by rewrite Hl.
Qed.

(** The copy is determined by the repetition property. *)
Lemma copy_back_repeats offset out new : 1 <= offset <= Z.of_nat (length out) ->
  (forall i, (i < length new)%nat ->
     (out ++ new) !! (length out + i)%nat = (out ++ new) !! (length out + i - Z.to_nat offset)%nat) ->
  copy_back (length new) offset out = Ok (out ++ new).
Proof.
  revert out. induction new as [|b new IH]; intros out Ho Hr; cbn [length copy_back].
  - by rewrite app_nil_r.
  - destruct (Z.ltb_spec (Z.of_nat (length out)) offset); [lia|].
    pose proof (Hr 0%nat ltac:(cbn; lia)) as H0. rewrite Nat.add_0_r in H0.
    rewrite lookup_app_r, Nat.sub_diag in H0 by lia. rewrite lookup_app_l in H0 by lia. cbn in H0.
    replace (Z.to_nat (Z.of_nat (length out) - offset)) with (length out - Z.to_nat offset)%nat by lia.
    rewrite <- H0. rewrite IH.
    + by rewrite <- app_assoc.
    + rewrite length_app. cbn. lia.
    + intros i Hi. rewrite <- app_assoc. cbn [app]. rewrite length_app. cbn [length].
      specialize (Hr (S i) ltac:(cbn; lia)).
      replace (length out + 1 + i)%nat with (length out + S i)%nat by lia. done.
Qed.

Lemma lzf_loop_safe fuel input n result : (length input <= fuel)%nat -> Z.of_nat (length result) <= n ->
  returns (lzf_loop fuel input n result) /\
  forall out, lzf_loop fuel input n result = Ok out -> Z.of_nat (length out) <= n.
Proof.
  revert input result. induction fuel as [|fuel IH]; intros input result Hf Hl.
  { destruct input; [|cbn in Hf; lia]. split; [done|]. by intros out [= <-]. }
  destruct input as [|ctrl input1]; [split; [done|]; by intros out [= <-]|].
  cbn [lzf_loop]. cbn in Hf.
  destruct (Z.ltb_spec (Z.of_nat (length result)) n); [|split; [done|]; by intros out [= <-]].
  pose proof (bz_range ctrl) as Hc. destruct (Z.ltb_spec (bz ctrl) 32).
  - destruct (Z.ltb_spec (Z.of_nat (length input1)) (bz ctrl + 1)); [done|].
    destruct (Z.ltb_spec n (Z.of_nat (length result) + (bz ctrl + 1))); [done|].
    apply IH; [rewrite length_drop; lia|]. rewrite length_app, length_take. lia.
  - assert (Hs : 0 <= Z.shiftr (bz ctrl) 5) by (apply Z.shiftr_nonneg; lia).
    assert (Ho : 0 <= Z.shiftl (Z.land (bz ctrl) 31) 8).
    { apply Z.shiftl_nonneg, Z.land_nonneg. lia. }
    set (oin := if _ =? 7 then _ else _). destruct oin as [[l1 input2]|] eqn:E; [|done].
    assert (Hin : (length input2 <= length input1)%nat /\ 0 <= l1).
    { subst oin. destruct (_ =? 7); [|injection E as <- <-; lia].
      destruct input1 as [|e i2]; [done|]. injection E as <- <-. pose proof (bz_range e). cbn. lia. }
    destruct input2 as [|lo input3]; [done|]. cbn in Hin. pose proof (bz_range lo).
    destruct (Z.ltb_spec (Z.of_nat (length result)) (Z.shiftl (Z.land (bz ctrl) 31) 8 + bz lo + 1)); [done|].
    destruct (Z.ltb_spec n (Z.of_nat (length result) + (l1 + 2))); [done|].
    destruct (copy_back_ok (Z.to_nat (l1 + 2)) (Z.shiftl (Z.land (bz ctrl) 31) 8 + bz lo + 1) result)
      as (new & -> & Hn); [lia|].
    apply IH; [lia|]. rewrite length_app. lia.
Qed.

Lemma expands_length out ts res : expands out ts res -> (length out <= length res)%nat.
Proof.
  induction 1 as [|out data ts res _ IH|out len offset new ts res _ _ _ _ IH];
    [done|rewrite length_app in IH; lia..].
Qed.

Lemma encode_token_nonempty t : encode_token t <> [].
Proof. destruct t; cbn; [done|]. by destruct (_ <=? 8). Qed.

(** One literal run. *)
Lemma lzf_loop_literal fuel data rest n result : wf_token (Literal data) ->
  Z.of_nat (length result + length data) <= n ->
  lzf_loop (S fuel) (encode_token (Literal data) ++ rest) n result =
  lzf_loop fuel rest n (result ++ data).
Proof.
  cbn [wf_token encode_token app lzf_loop]. intros Hd Hn. rewrite bz_zb, Z.mod_small by lia.
  destruct (Z.ltb_spec (Z.of_nat (length result)) n); [|lia].
  destruct (Z.ltb_spec (Z.of_nat (length data) - 1) 32); [|lia].
  rewrite length_app. destruct (Z.ltb_spec (Z.of_nat (length data + length rest)) (Z.of_nat (length data) - 1 + 1)); [lia|].
  destruct (Z.ltb_spec n (Z.of_nat (length result) + (Z.of_nat (length data) - 1 + 1))); [lia|].
  replace (Z.to_nat (Z.of_nat (length data) - 1 + 1)) with (length data) by lia.
  by rewrite drop_app_length, take_app_length.
Qed.

(** The fields of the control byte of a back reference. *)
Lemma ctrl_fields a hi : 1 <= a <= 7 -> 0 <= hi < 32 ->
  Z.shiftr (32 * a + hi) 5 = a /\ Z.land (32 * a + hi) 31 = hi.
Proof.
  intros Ha Hh. rewrite Z.shiftr_div_pow2 by lia. change 31 with (Z.ones 5).
  rewrite Z.land_ones by lia. change (2 ^ 5) with 32. split.
  - rewrite Z.mul_comm, Z.div_add_l by lia. rewrite Z.div_small by lia. lia.
  - rewrite Z.add_comm, Z.mul_comm, Z.mod_add by lia. by apply Z.mod_small.
Qed.

Lemma lzf_loop_backref fuel len offset new rest n result : wf_token (BackRef len offset) ->
  offset <= Z.of_nat (length result) -> Z.of_nat (length new) = len ->
  Z.of_nat (length result) + len <= n ->
  copy_back (length new) offset result = Ok (result ++ new) ->
  lzf_loop (S fuel) (encode_token (BackRef len offset) ++ rest) n result =
  lzf_loop fuel rest n (result ++ new).
Proof.
  cbn [wf_token encode_token]. intros [Hlen Ho] Hr Hnew Hn Hcopy.
  assert (Hhi : 0 <= (offset - 1) / 256 < 32).
  { split; [apply Z.div_pos; lia|]. apply Z.div_lt_upper_bound; lia. }
  pose proof (Z.mod_pos_bound (offset - 1) 256 ltac:(lia)) as Hlo.
  assert (Hoff : Z.shiftl ((offset - 1) / 256) 8 + (offset - 1) mod 256 + 1 = offset).
  { rewrite Z.shiftl_mul_pow2 by lia. pose proof (Z.div_mod (offset - 1) 256 ltac:(lia)).
    change (2 ^ 8) with 256. lia. }
  destruct (Z.leb_spec len 8) as [Hs|Hs]; cbn [app lzf_loop];
    (destruct (Z.ltb_spec (Z.of_nat (length result)) n); [|lia]).
  - rewrite (bz_zb (32 * (len - 2) + _)), Z.mod_small by lia.
    destruct (Z.ltb_spec (32 * (len - 2) + (offset - 1) / 256) 32); [lia|].
    destruct (ctrl_fields (len - 2) ((offset - 1) / 256)) as [-> ->]; [lia..|].
    destruct (Z.eqb_spec (len - 2) 7); [lia|].
    rewrite bz_zb, (Z.mod_small ((offset - 1) mod 256)), Hoff by lia.
    replace (len - 2 + 2) with len by lia.
    destruct (Z.ltb_spec (Z.of_nat (length result)) offset); [lia|].
    destruct (Z.ltb_spec n (Z.of_nat (length result) + len)); [lia|].
    rewrite <- Hnew, Nat2Z.id, Hcopy. done.
  - rewrite (bz_zb (224 + _)), (Z.mod_small (224 + _)) by lia.
    destruct (Z.ltb_spec (224 + (offset - 1) / 256) 32); [lia|].
    destruct (ctrl_fields 7 ((offset - 1) / 256)) as [E1 E2]; [lia..|].
    change (32 * 7) with 224 in E1, E2. rewrite E1, E2, Z.eqb_refl.
    rewrite (bz_zb (len - 9)), (Z.mod_small (len - 9)) by lia.
    rewrite bz_zb, (Z.mod_small ((offset - 1) mod 256)), Hoff by lia.
    replace (7 + (len - 9) + 2) with len by lia.
    destruct (Z.ltb_spec (Z.of_nat (length result)) offset); [lia|].
    destruct (Z.ltb_spec n (Z.of_nat (length result) + len)); [lia|].
    rewrite <- Hnew, Nat2Z.id, Hcopy. done.
Qed.

Lemma lzf_loop_tokens out ts res : expands out ts res -> Forall wf_token ts ->
  forall fuel, (length (encode_tokens ts) <= fuel)%nat ->
  lzf_loop fuel (encode_tokens ts) (Z.of_nat (length res)) out = Ok res.
Proof.
  induction 1 as [out|out data ts res Hex IH|out len offset new ts res Ho Hl Hr Hex IH]; intros Hwf fuel Hf.
  - by destruct fuel.
  - apply Forall_cons in Hwf as [Ht Hts]. pose proof (expands_length _ _ _ Hex) as Hle.
    rewrite length_app in Hle. change (encode_tokens (Literal data :: ts)) with
      (encode_token (Literal data) ++ encode_tokens ts) in *.
    rewrite length_app in Hf. destruct fuel as [|fuel]; [cbn in Hf; lia|].
    rewrite lzf_loop_literal by (done || lia). apply IH; [done|]. cbn in Hf. lia.
  - apply Forall_cons in Hwf as [Ht Hts]. pose proof (expands_length _ _ _ Hex) as Hle.
    rewrite length_app in Hle. change (encode_tokens (BackRef len offset :: ts)) with
      (encode_token (BackRef len offset) ++ encode_tokens ts) in *.
    rewrite length_app in Hf. pose proof (encode_token_nonempty (BackRef len offset)) as Hne.
    destruct (encode_token (BackRef len offset)) as [|b e] eqn:Ee; [done|].
    destruct fuel as [|fuel]; [cbn in Hf; lia|].
    rewrite <- Ee, (lzf_loop_backref fuel len offset new); [|done|lia|done|lia|].
    + apply IH; [done|]. cbn in Hf. lia.
    + cbn in Ht. apply copy_back_repeats; [lia|done].
Qed.
