(* ===== verification/Rdb.v ===== *)
(** * The RDB parser (replication/rdb.go)

    A parser reads from a [bufio.Reader] (the [Reader] of RespReader.v) and
    drives a handler with a state of its own. Integers read from the stream are
    unsigned and below 2^64, so no arithmetic here leaves the range of the code's
    types; the loops over an encoded length are bounded by fuel computed from
    what is left to read and the errors that may still be skipped. *)

From Stdlib Require Import ZArith Lia String.
From stdpp Require Import base list list_numbers gmap.
From S2P Require Import Prelude GoLib RespTypes RespReader Lzf.

(** ** Constants *)

Definition MaxSupportedRDBVersion : Z := 12.
Definition RDBOpcodeEOF : Z := 255.
Definition RDBOpcodeDB : Z := 254.
Definition RDBOpcodeExpiry : Z := 253.
Definition RDBOpcodeExpiryMs : Z := 252.
Definition RDBOpcodeResizeDB : Z := 251.
Definition RDBOpcodeAux : Z := 250.

Definition RDBTypeString : Z := 0.
Definition RDBTypeList : Z := 1.
Definition RDBTypeSet : Z := 2.
Definition RDBTypeHash : Z := 4.
Definition RDBTypeListQuicklist : Z := 14.
Definition RDBTypeStreamListpacks : Z := 15.
Definition RDBTypeStreamListpacks2 : Z := 19.
Definition RDBTypeStreamListpacks3 : Z := 20.

(** ** Version strategies *)

Record VersionStrategy : Type := mkStrategy {
  version : Z;
  supportsBinaryAux : bool;
  requiresStrictParsing : bool;
  maxSkippableErrors : Z
}.

Definition versionStrategies : gmap Z VersionStrategy := {[
  9 := mkStrategy 9 false true 0;
  10 := mkStrategy 10 true true 1;
  11 := mkStrategy 11 true false 2;
  12 := mkStrategy 12 true false 3
]}.

(** The strategy of a version, with the permissive one for unlisted versions. *)
Definition strategy_of (v : Z) : VersionStrategy :=
  match versionStrategies !! v with
  | Some s => s
  | None => mkStrategy v true false 5
  end.

(** ** Values and handlers *)

(** The dynamic types of the [value interface{}] a handler receives. *)
Inductive RDBValue : Type :=
| RDBString (data : bytes)
| RDBList (elements : list bytes)
| RDBSet (members : gset bytes)
| RDBHash (fields : gmap bytes bytes).

(** [type RDBHandler interface]; [OnResizeDB] is the optional method of
    [RDBResizeHandler]. An expiry is in nanoseconds since the epoch. *)
Record RDBHandler (St : Type) : Type := mkHandler {
  OnDatabase : Z -> M St unit;
  OnKey : bytes -> RDBValue -> option Z -> M St unit;
  OnAux : bytes -> bytes -> M St unit;
  OnEnd : M St unit;
  OnResizeDB : option (Z -> Z -> M St unit)
}.
Arguments mkHandler {St}.
Arguments OnDatabase {St} r _.
Arguments OnKey {St} r _ _ _.
Arguments OnAux {St} r _ _.
Arguments OnEnd {St} r.
Arguments OnResizeDB {St} r.

(** [type RDBParser struct]; [hst] is the state behind the handler. *)
Record RDBParser (St : Type) : Type := mkParser {
  br : Reader;
  hst : St;
  strategy : VersionStrategy;
  errors : Z
}.
Arguments mkParser {St}.
Arguments br {St} r.
Arguments hst {St} r.
Arguments strategy {St} r.
Arguments errors {St} r.

Section Parser.
  Context {St : Type} (handler : RDBHandler St).

Abbreviation P A := (M (RDBParser St) A).

(** Runs an action of the buffered reader, and one of the handler. *)
Definition read {A} (m : M Reader A) : P A := fun p =>
  let '(o, r) := m (br p) in (o, mkParser r (hst p) (strategy p) (errors p)).

Definition call {A} (m : M St A) : P A := fun p =>
  let '(o, h) := m (hst p) in (o, mkParser (br p) h (strategy p) (errors p)).

Definition get_strategy : P VersionStrategy := fun p => (Ok (strategy p), p).

Definition set_strategy (s : VersionStrategy) : P unit := fun p =>
  (Ok tt, mkParser (br p) (hst p) s (errors p)).

Definition out_of_fuel {A} : P A := fun p => (OutOfFuel, p).

(** Enough iterations for any loop that reads or skips an error each time. *)
Definition loop_fuel : P nat := fun p =>
  (Ok (S (length (rd_buf (br p)) + Z.to_nat (maxSkippableErrors (strategy p) - errors p))), p).

(** [binary.Read] of an unsigned integer of [n] bytes. *)
Definition le_value (l : bytes) : Z := foldr (fun b z => bz b + 256 * z) 0 l.
Definition be_value (l : bytes) : Z := foldl (fun z b => 256 * z + bz b) 0 l.
Definition binary_ReadLE (n : Z) : P Z := let! l := read (ReadFull n) in gret (le_value l).
Definition binary_ReadBE (n : Z) : P Z := let! l := read (ReadFull n) in gret (be_value l).

Definition canSkipError : P bool := fun p =>
  let p' := mkParser (br p) (hst p) (strategy p) (errors p + 1) in
  (Ok (errors p' <=? maxSkippableErrors (strategy p')), p').

(** ** Lengths *)

Definition readLength : P Z :=
  let! b0 := read ReadByte in
  let b := bz b0 in
  let kind := Z.shiftr (Z.land b 192) 6 in
  if kind =? 0 then gret (Z.land b 63)
  else if kind =? 1 then
    let! b2 := read ReadByte in
    gret (Z.lor (Z.shiftl (Z.land b 63) 8) (bz b2))
  else if kind =? 2 then binary_ReadBE 4
  else if kind =? 3 then
    let enc := Z.land b 63 in
    if enc =? 0 then let! v := read ReadByte in gret (bz v)
    else if enc =? 1 then binary_ReadLE 2
    else if enc =? 2 then binary_ReadLE 4
    else gfail (Errorf (bs "invalid special length encoding: " ++ FormatInt enc))
  else gfail (Errorf (bs "invalid length encoding: " ++ FormatInt kind)).

(** ** Strings *)

Definition readStringData (length : Z) : P bytes :=
  if length =? 0 then gret []
  else if 100000 <? length then
    gfail (Errorf (bs "string length too large: " ++ FormatInt length))
  else gwrap (bs "failed to read string data: ") (read (ReadFull length)).

(** The result of [lzfDecompress] as an action. *)
Definition lift {A} (o : outcome A) : P A := fun p => (o, p).

Definition readLZFString : P bytes :=
  let! compressedLen := gwrap (bs "failed to read LZF compressed length: ") readLength in
  let! uncompressedLen := gwrap (bs "failed to read LZF uncompressed length: ") readLength in
  let! compressedData :=
    gwrap (bs "failed to read LZF compressed data: ") (read (ReadFull compressedLen)) in
  gtry (lift (lzfDecompress compressedData uncompressedLen)) gret (fun err =>
    let! skip := canSkipError in
    if (skip : bool) then
      gret (bs "LZF_DECOMPRESSION_FAILED_" ++ FormatInt uncompressedLen ++ bs "_BYTES")
    else gfail (Errorf (bs "LZF decompression failed: " ++ Error err))).

(** The signed reading of a 32-bit value. *)
Definition int32 (v : Z) : Z := wrap32 v.

Definition readString : P bytes :=
  let! b0 := read ReadByte in
  let b := bz b0 in
  let kind := Z.shiftr (Z.land b 192) 6 in
  if kind =? 0 then readStringData (Z.land b 63)
  else if kind =? 1 then
    let! b2 := read ReadByte in
    readStringData (Z.lor (Z.shiftl (Z.land b 63) 8) (bz b2))
  else if kind =? 2 then
    let! length := binary_ReadBE 4 in readStringData length
  else if kind =? 3 then
    let encoding := Z.land b 63 in
    if encoding =? 0 then let! v := read ReadByte in gret (FormatInt (bz v))
    else if encoding =? 1 then let! v := binary_ReadLE 2 in gret (FormatInt v)
    else if encoding =? 2 then let! v := binary_ReadLE 4 in gret (FormatInt (int32 v))
    else if encoding =? 3 then readLZFString
    else
      let! skip := canSkipError in
      if (skip : bool) then gret []
      else gfail (Errorf (bs "unsupported special string encoding: " ++ FormatInt encoding ++
                          bs " (Redis 7.x compatibility needed)"))
  else gfail (Errorf (bs "invalid string encoding: " ++ FormatInt kind)).

Definition readBinaryString : P bytes := readString.

(** ** Values *)

(** [for i := 0; i < length; i++] with an element read per iteration. *)
Fixpoint read_items {A} (item : A -> P A) (fuel : nat) (length i : Z) (acc : A) : P A :=
  if i <? length then
    match fuel with
    | O => out_of_fuel
    | S fuel' => let! acc' := item acc in read_items item fuel' length (i + 1) acc'
    end
  else gret acc.

Definition readQuicklist : P (list bytes) :=
  let! length := readLength in
  let! fuel := loop_fuel in
  read_items (fun allElements =>
    gtry readString (fun ziplistData => gret (allElements ++ [ziplistData])) (fun err =>
      let! skip := canSkipError in
      if (skip : bool) then gret allElements else gfail err)) fuel length 0 [].

Definition skipStreamData : P (option RDBValue) :=
  let! length := readLength in
  let! fuel := loop_fuel in
  let! _ := read_items (fun u : unit =>
    gtry readString (fun _ => gret u) (fun err =>
      let! skip := canSkipError in
      if (skip : bool) then gret u else gfail err)) fuel length 0 tt in
  gret None.

Definition skipUnsupportedType (valueType : Z) : P (option RDBValue) :=
  if valueType <? 16 then
    gtry readString (fun _ => gret None) (fun err =>
      let! skip := canSkipError in
      if (skip : bool) then gret None
      else gfail (Errorf (bs "failed to skip unsupported RDB type " ++ FormatInt valueType ++
                          bs ": " ++ Error err)))
  else if valueType <? 32 then
    gtry readLength
      (fun length =>
         gtry (read (ReadFull length)) (fun _ => gret None) (fun err =>
           let! skip := canSkipError in
           if (skip : bool) then gret None
           else gfail (Errorf (bs "failed to skip data for type " ++ FormatInt valueType ++
                               bs ": " ++ Error err))))
      (fun err =>
         let! skip := canSkipError in
         if (skip : bool) then gret None
         else gfail (Errorf (bs "failed to read length for unsupported type " ++
                             FormatInt valueType ++ bs ": " ++ Error err)))
  else
    let! skip := canSkipError in
    if (skip : bool) then gret None
    else
      let! strat := get_strategy in
      if requiresStrictParsing strat then
        gfail (Errorf (bs "unsupported RDB type: " ++ FormatInt valueType))
      else gret None.

Definition readValue (valueType : Z) : P (option RDBValue) :=
  if valueType =? RDBTypeString then let! d := readString in gret (Some (RDBString d))
  else if valueType =? RDBTypeList then
    let! length := readLength in
    let! fuel := loop_fuel in
    let! l := read_items (fun list =>
      let! element := readString in gret (list ++ [element])) fuel length 0 [] in
    gret (Some (RDBList l))
  else if valueType =? RDBTypeSet then
    let! length := readLength in
    let! fuel := loop_fuel in
    let! s := read_items (fun set : gset bytes =>
      let! member := readString in gret ({[member]} ∪ set)) fuel length 0 ∅ in
    gret (Some (RDBSet s))
  else if valueType =? RDBTypeHash then
    let! length := readLength in
    let! fuel := loop_fuel in
    let! h := read_items (fun hash : gmap bytes bytes =>
      let! field := readString in
      let! value := readString in
      gret (<[field := value]> hash)) fuel length 0 ∅ in
    gret (Some (RDBHash h))
  else if valueType =? RDBTypeListQuicklist then
    let! l := readQuicklist in gret (Some (RDBList l))
  else if (valueType =? RDBTypeStreamListpacks) || (valueType =? RDBTypeStreamListpacks2) ||
          (valueType =? RDBTypeStreamListpacks3) then skipStreamData
  else skipUnsupportedType valueType.

(** ** Entries *)

Definition readAuxField : P unit :=
  let! key := gwrap (bs "failed to read aux key: ") readString in
  let! strat := get_strategy in
  let! value := gwrap (bs "failed to read aux value for key " ++ key ++ bs ": ")
    (if supportsBinaryAux strat then readBinaryString else readString) in
  call (OnAux handler key value).

Definition readKeyValue (valueType : Z) (expiry : option Z) : P unit :=
  let! key := gwrap (bs "failed to read key: ") readString in
  let! value := gwrap (bs "failed to read value for key " ++ key ++ bs ": ") (readValue valueType) in
  match value with
  | Some v => call (OnKey handler key v expiry)
  | None => gret tt
  end.

(** [if err != nil { if p.canSkipError() { skip }; return wrapped }] *)
Definition skip_or_fail {A} (skipped : A) (wrap : error -> error) (err : error) : P A :=
  let! skip := canSkipError in
  if (skip : bool) then gret skipped else gfail (wrap err).

Definition wrapped (pre : bytes) (e : error) : error := Errorf (pre ++ Error e).

(** One opcode: [None] ends the loop, [Some expiry] continues it. *)
Definition parse_opcode (opcode : Z) (expiry : option Z) : P (option (option Z)) :=
  if opcode =? RDBOpcodeEOF then gret None
  else if opcode =? RDBOpcodeDB then
    gtry readLength
      (fun db => call (OnDatabase handler db) ;;! gret (Some expiry))
      (skip_or_fail (Some expiry) (wrapped (bs "failed to read database number: ")))
  else if opcode =? RDBOpcodeExpiry then
    gtry (binary_ReadLE 4)
      (fun timestamp => gret (Some (Some (timestamp * 1000000000))))
      (skip_or_fail (Some None) (wrapped (bs "failed to read expiry timestamp: ")))
  else if opcode =? RDBOpcodeExpiryMs then
    gtry (binary_ReadLE 8)
      (fun timestamp =>
         gret (Some (Some (timestamp / 1000 * 1000000000 + timestamp mod 1000 * 1000000))))
      (skip_or_fail (Some None) (wrapped (bs "failed to read expiry timestamp: ")))
  else if opcode =? RDBOpcodeResizeDB then
    let! dbSize := gtry readLength gret (skip_or_fail 0 id) in
    let! expiresSize := gtry readLength gret (skip_or_fail 0 id) in
    match OnResizeDB handler with
    | Some f => call (f dbSize expiresSize)
    | None => gret tt
    end ;;! gret (Some expiry)
  else if opcode =? RDBOpcodeAux then
    gtry readAuxField gret (skip_or_fail tt (wrapped (bs "failed to read aux field: "))) ;;!
    gret (Some expiry)
  else
    gtry (readKeyValue opcode expiry) gret (skip_or_fail tt id) ;;!
    gret (Some None).

Fixpoint parse_loop (fuel : nat) (expiry : option Z) : P unit :=
  match fuel with
  | O => out_of_fuel
  | S fuel' =>
      gtry (read ReadByte)
        (fun opcode =>
           let! next := parse_opcode (bz opcode) expiry in
           match next with
           | None => call (OnEnd handler)
           | Some expiry' => parse_loop fuel' expiry'
           end)
        (fun err =>
           if bool_decide (err = EOF) then call (OnEnd handler)
           else
             skip_or_fail tt (wrapped (bs "failed to read opcode: ")) err ;;!
             parse_loop fuel' expiry)
  end.

(** ** The whole file *)

Definition Parse : P unit :=
  let! header := gwrap (bs "failed to read RDB header: ") (read (ReadFull 9)) in
  if negb (bool_decide (take 5 header = bs "REDIS")) then
    gfail (Errorf (bs "invalid RDB magic: " ++ take 5 header))
  else
    match ParseInt (drop 5 header) with
    | None => gfail (Errorf (bs "invalid RDB version: " ++ drop 5 header))
    | Some version =>
        if MaxSupportedRDBVersion <? version then
          gfail (Errorf (bs "unsupported RDB version: " ++ FormatInt version ++
                         bs " (max supported: " ++ FormatInt MaxSupportedRDBVersion ++ bs ")"))
        else
          set_strategy (strategy_of version) ;;!
          let! fuel := loop_fuel in
          parse_loop fuel None
    end.

Definition NewRDBParser (r : Reader) (h : St) : RDBParser St :=
  mkParser r h (mkStrategy 0 false false 0) 0.

(** [ParseRDB]: the outcome and the state of the handler afterwards. *)
Definition ParseRDB (r : Reader) (h : St) : outcome unit * St :=
  let '(o, p) := Parse (NewRDBParser r h) in (o, hst p).

End Parser.
