(* ===== verification/RdbFormat.v ===== *)
(** * The RDB format and the parser

    An encoder of RDB files as Redis writes them, what the parser can read of the
    format, and the handler calls a file stands for. The lemmas say that each reading
    function of the parser inverts its part of the encoder. *)

From Stdlib Require Import ZArith Lia String.
From stdpp Require Import base list list_numbers gmap.
From S2P Require Import Prelude GoLib RespTypes RespReader Lzf Rdb.

(** ** Encoding *)

Fixpoint encode_le (n : nat) (z : Z) : bytes :=
  match n with O => [] | S n' => zb z :: encode_le n' (z / 256) end.
Definition encode_be (n : nat) (z : Z) : bytes := reverse (encode_le n z).

(** In one byte, in two, in 32 bits or in 64. *)
Definition encode_length (n : Z) : bytes :=
  if n <? 64 then [zb n]
  else if n <? 16384 then [zb (64 + n / 256); zb (n mod 256)]
  else if n <? 2 ^ 32 then zb 128 :: encode_be 4 n
  else zb 129 :: encode_be 8 n.

(** A string as Redis writes it: plain, as a signed integer of 8, 16 or 32 bits, or
    compressed. *)
Inductive rstring : Type :=
| SRaw (data : bytes)
| SInt8 (n : Z)
| SInt16 (n : Z)
| SInt32 (n : Z)
| SLzf (tokens : list token) (data : bytes).

Definition wf_rstring (s : rstring) : Prop :=
  match s with
  | SRaw data => Z.of_nat (length data) < 2 ^ 64
  | SInt8 n => - 2 ^ 7 <= n < 2 ^ 7
  | SInt16 n => - 2 ^ 15 <= n < 2 ^ 15
  | SInt32 n => - 2 ^ 31 <= n < 2 ^ 31
  | SLzf ts data => ts <> [] /\ Forall wf_token ts /\ expands [] ts data /\
      Z.of_nat (length (encode_tokens ts)) < 2 ^ 64 /\ Z.of_nat (length data) < 2 ^ 64
  end.

(** The string the master holds. *)
Definition rstring_value (s : rstring) : bytes :=
  match s with
  | SRaw data => data
  | SInt8 n | SInt16 n | SInt32 n => FormatInt n
  | SLzf _ data => data
  end.

Definition encode_rstring (s : rstring) : bytes :=
  match s with
  | SRaw data => encode_length (Z.of_nat (length data)) ++ data
  | SInt8 n => zb 192 :: encode_le 1 (n mod 2 ^ 8)
  | SInt16 n => zb 193 :: encode_le 2 (n mod 2 ^ 16)
  | SInt32 n => zb 194 :: encode_le 4 (n mod 2 ^ 32)
  | SLzf ts data =>
      zb 195 :: encode_length (Z.of_nat (length (encode_tokens ts))) ++
      encode_length (Z.of_nat (length data)) ++ encode_tokens ts
  end.

(** The values of Redis but for streams and modules: strings, lists, sets, sorted sets
    (with the scores as text and as the 8 bytes of a double) and hashes element by
    element; the compact forms of hashes, lists, sets and sorted sets that are one
    string, under their type number; lists of such strings, in the second form with a
    number that says what each one is. *)
Inductive rvalue : Type :=
| VString (s : rstring)
| VList (l : list rstring)
| VSet (l : list rstring)
| VZSet (l : list (rstring * bytes))
| VHash (l : list (rstring * rstring))
| VZSet2 (l : list (rstring * bytes))
| VBlob (type : Z) (s : rstring)
| VQuicklist (nodes : list rstring)
| VQuicklist2 (nodes : list (Z * rstring)).

Definition blob_types : list Z := [9; 10; 11; 12; 13; 16; 17; 20].

Definition wf_rvalue (v : rvalue) : Prop :=
  match v with
  | VString s => wf_rstring s
  | VList l | VSet l | VQuicklist l => Forall wf_rstring l /\ Z.of_nat (length l) < 2 ^ 64
  | VZSet l => Forall (fun '(m, score) => wf_rstring m /\ (length score < 253)%nat) l /\ Z.of_nat (length l) < 2 ^ 64
  | VZSet2 l => Forall (fun '(m, score) => wf_rstring m /\ length score = 8%nat) l /\ Z.of_nat (length l) < 2 ^ 64
  | VHash l => Forall (fun '(f, v) => wf_rstring f /\ wf_rstring v) l /\ Z.of_nat (length l) < 2 ^ 64
  | VBlob t s => (t ∈ blob_types) /\ wf_rstring s
  | VQuicklist2 l => Forall (fun '(n, s) => 1 <= n <= 2 /\ wf_rstring s) l /\ Z.of_nat (length l) < 2 ^ 64
  end.

Definition rvalue_type (v : rvalue) : Z :=
  match v with
  | VString _ => 0 | VList _ => 1 | VSet _ => 2 | VZSet _ => 3 | VHash _ => 4 | VZSet2 _ => 5
  | VBlob t _ => t | VQuicklist _ => 14 | VQuicklist2 _ => 18
  end.

Definition encode_rvalue (v : rvalue) : bytes :=
  match v with
  | VString s | VBlob _ s => encode_rstring s
  | VList l | VSet l | VQuicklist l => encode_length (Z.of_nat (length l)) ++ (l ≫= encode_rstring)
  | VZSet l => encode_length (Z.of_nat (length l)) ++
      (l ≫= fun '(m, score) => encode_rstring m ++ zb (Z.of_nat (length score)) :: score)
  | VZSet2 l => encode_length (Z.of_nat (length l)) ++ (l ≫= fun '(m, score) => encode_rstring m ++ score)
  | VHash l => encode_length (Z.of_nat (length l)) ++
      (l ≫= fun '(f, v) => encode_rstring f ++ encode_rstring v)
  | VQuicklist2 l => encode_length (Z.of_nat (length l)) ++ (l ≫= fun '(n, s) => encode_length n ++ encode_rstring s)
  end.

(** ** What the parser makes of it *)

(** The limits of the parser: plain strings of at most 100000 bytes, other lengths of
    at most 32 bits; no sorted set element by element, no quicklist of the second form,
    no set as a listpack; a hash or a sorted set as a listpack only if it is not
    compressed. *)
Definition readable_rstring (s : rstring) : Prop :=
  wf_rstring s /\
  match s with
  | SRaw data => Z.of_nat (length data) <= 100000
  | SLzf ts data => Z.of_nat (length (encode_tokens ts)) < 2 ^ 32 /\ Z.of_nat (length data) < 2 ^ 32
  | _ => True
  end.

Definition readable_rvalue (v : rvalue) : Prop :=
  wf_rvalue v /\
  match v with
  | VString s => readable_rstring s
  | VList l | VSet l | VQuicklist l => Forall readable_rstring l /\ Z.of_nat (length l) < 2 ^ 32
  | VHash l => Forall (fun '(f, v) => readable_rstring f /\ readable_rstring v) l /\ Z.of_nat (length l) < 2 ^ 32
  | VBlob t s =>
      if t <? 16 then readable_rstring s
      else t <> 20 /\ match s with SRaw data => Z.of_nat (length data) < 2 ^ 32 | _ => False end
  | VZSet _ | VZSet2 _ | VQuicklist2 _ => False
  end.

(** The string the parser delivers: the master's, except that a negative integer of 8
    or 16 bits is taken for an unsigned one. *)
Definition rstring_read (s : rstring) : bytes :=
  match s with
  | SInt8 n => FormatInt (n mod 2 ^ 8)
  | SInt16 n => FormatInt (n mod 2 ^ 16)
  | _ => rstring_value s
  end.

Lemma rstring_read_value s : wf_rstring s -> match s with SInt8 n | SInt16 n => 0 <= n | _ => True end ->
  rstring_read s = rstring_value s.
Proof. destruct s; cbn; intros Hwf Hs; try done; by rewrite Z.mod_small by lia. Qed.

(** The value the handler receives; [None]: none, the entry is skipped. A quicklist is
    delivered node by node, its elements still packed. *)
Definition rvalue_read (v : rvalue) : option RDBValue :=
  match v with
  | VString s => Some (RDBString (rstring_read s))
  | VList l | VQuicklist l => Some (RDBList (rstring_read <$> l))
  | VSet l => Some (RDBSet (foldl (fun set m => {[rstring_read m]} ∪ set) ∅ l))
  | VHash l => Some (RDBHash (foldl (fun h '(f, v) => <[rstring_read f := rstring_read v]> h) ∅ l))
  | _ => None
  end.

(** An expiry in seconds or in milliseconds. *)
Inductive rexpiry : Type := NoExpiry | ExpirySec (t : Z) | ExpiryMs (t : Z).

#[global] Instance rexpiry_eq_dec : EqDecision rexpiry.
Proof. solve_decision. Defined.

Definition wf_rexpiry (e : rexpiry) : Prop :=
  match e with NoExpiry => True | ExpirySec t => 0 <= t < 2 ^ 32 | ExpiryMs t => 0 <= t < 2 ^ 64 end.

Definition encode_rexpiry (e : rexpiry) : bytes :=
  match e with
  | NoExpiry => []
  | ExpirySec t => zb RDBOpcodeExpiry :: encode_le 4 t
  | ExpiryMs t => zb RDBOpcodeExpiryMs :: encode_le 8 t
  end.

(** Nanoseconds since the epoch. *)
Definition rexpiry_value (e : rexpiry) : option Z :=
  match e with
  | NoExpiry => None
  | ExpirySec t => Some (t * 10 ^ 9)
  | ExpiryMs t => Some (t * 10 ^ 6)
  end.

Inductive ritem : Type :=
| ItemDB (n : Z)
| ItemAux (key value : rstring)
| ItemResize (dbSize expiresSize : Z)
| ItemKey (expiry : rexpiry) (key : rstring) (value : rvalue).

Definition wf_ritem (i : ritem) : Prop :=
  match i with
  | ItemDB n => 0 <= n < 2 ^ 64
  | ItemAux k v => wf_rstring k /\ wf_rstring v
  | ItemResize a b => 0 <= a < 2 ^ 64 /\ 0 <= b < 2 ^ 64
  | ItemKey e k v => wf_rexpiry e /\ wf_rstring k /\ wf_rvalue v
  end.

(** The entries within the limits of the parser. *)
Definition readable_ritem (i : ritem) : Prop :=
  wf_ritem i /\
  match i with
  | ItemDB n => n < 2 ^ 32
  | ItemAux k v => readable_rstring k /\ readable_rstring v
  | ItemResize a b => a < 2 ^ 32 /\ b < 2 ^ 32
  | ItemKey e k v => readable_rstring k /\ readable_rvalue v
  end.

Definition encode_ritem (i : ritem) : bytes :=
  match i with
  | ItemDB n => zb RDBOpcodeDB :: encode_length n
  | ItemAux k v => zb RDBOpcodeAux :: encode_rstring k ++ encode_rstring v
  | ItemResize a b => zb RDBOpcodeResizeDB :: encode_length a ++ encode_length b
  | ItemKey e k v => encode_rexpiry e ++ zb (rvalue_type v) :: encode_rstring k ++ encode_rvalue v
  end.

(** A file of a version, ending in the EOF opcode and whatever follows it. *)
Definition encode_file (version : Z) (items : list ritem) (trailer : bytes) : bytes :=
  bs "REDIS" ++ [zb 48; zb 48; zb (48 + version / 10); zb (48 + version mod 10)] ++
  (items ≫= encode_ritem) ++ zb RDBOpcodeEOF :: trailer.

(** The handler calls of an item, and of a file. *)
Definition run_item {St} (handler : RDBHandler St) (i : ritem) : M St unit :=
  match i with
  | ItemDB n => OnDatabase handler n
  | ItemAux k v => OnAux handler (rstring_read k) (rstring_read v)
  | ItemResize a b => match OnResizeDB handler with Some f => f a b | None => gret tt end
  | ItemKey e k v =>
      match rvalue_read v with
      | Some x => OnKey handler (rstring_read k) x (rexpiry_value e)
      | None => gret tt
      end
  end.

Fixpoint run_items {St} (handler : RDBHandler St) (items : list ritem) : M St unit :=
  match items with
  | [] => OnEnd handler
  | i :: items' => run_item handler i ;;! run_items handler items'
  end.

(** ** Reading functions as inverses *)

Section Inverse.
  Context {St : Type}.

(** [m] reads exactly the bytes [enc] and returns [v]. *)
Definition parses {A} (m : M (RDBParser St) A) (enc : bytes) (v : A) : Prop :=
  forall rest e h st er, m (mkParser (mkReader (enc ++ rest) e) h st er) =
    (Ok v, mkParser (mkReader rest e) h st er).

Lemma parses_ret {A} (a : A) : parses (gret a) [] a.
Proof. done. Qed.

Lemma parses_bind {A B} (m : M (RDBParser St) A) (k : A -> M (RDBParser St) B) e1 e2 a b :
  parses m e1 a -> parses (k a) e2 b -> parses (gbind m k) (e1 ++ e2) b.
Proof.
  intros Hm Hk rest e h st er. rewrite <- app_assoc. erewrite gbind_ok by apply Hm. apply Hk.
Qed.

Lemma parses_bind_nil {A B} (m : M (RDBParser St) A) (k : A -> M (RDBParser St) B) e1 a b :
  parses m e1 a -> parses (k a) [] b -> parses (gbind m k) e1 b.
Proof. intros Hm Hk. rewrite <- (app_nil_r e1). by eapply parses_bind. Qed.

Lemma parses_try {A B} (m : M (RDBParser St) A) (k : A -> M (RDBParser St) B) h e1 e2 a b :
  parses m e1 a -> parses (k a) e2 b -> parses (gtry m k h) (e1 ++ e2) b.
Proof.
  intros Hm Hk rest e h0 st er. rewrite <- app_assoc. erewrite gtry_ok by apply Hm. apply Hk.
Qed.

Lemma parses_wrap {A} pre (m : M (RDBParser St) A) e a : parses m e a -> parses (gwrap pre m) e a.
Proof. intros Hm rest er h st n. unfold gwrap. erewrite gtry_ok by apply Hm. done. Qed.

Lemma parses_byte b : parses (read ReadByte) [b] b.
Proof. done. Qed.

Lemma parses_full l : parses (read (ReadFull (Z.of_nat (length l)))) l l.
Proof.
  intros rest e h st er. unfold read, ReadFull. cbn [rd_buf br]. rewrite length_app.
  destruct (Z.leb_spec (Z.of_nat (length l)) (Z.of_nat (length l + length rest))); [|lia].
  by rewrite Nat2Z.id, take_app_length, drop_app_length.
Qed.

Lemma encode_le_length n z : length (encode_le n z) = n.
Proof. revert z. induction n as [|n IH]; intros z; cbn; [done|]. by rewrite IH. Qed.

Lemma le_value_encode n z : 0 <= z < 256 ^ Z.of_nat n -> le_value (encode_le n z) = z.
Proof.
  revert z. induction n as [|n IH]; intros z Hz; cbn [encode_le le_value foldr].
  - cbn in Hz. lia.
  - change (foldr _ 0 (encode_le n (z / 256))) with (le_value (encode_le n (z / 256))).
    rewrite Nat2Z.inj_succ, Z.pow_succ_r in Hz by lia. rewrite IH.
    + rewrite bz_zb. pose proof (Z.div_mod z 256 ltac:(lia)). lia.
    + split; [apply Z.div_pos; lia|]. apply Z.div_lt_upper_bound; lia.
Qed.

Lemma be_value_reverse l : be_value (reverse l) = le_value l.
Proof.
  unfold be_value, le_value. induction l as [|b l IH]; [done|].
  rewrite reverse_cons, foldl_snoc, IH. cbn. lia.
Qed.

Lemma parses_le n z : 0 <= z < 256 ^ Z.of_nat n ->
  parses (binary_ReadLE (Z.of_nat n)) (encode_le n z) z.
Proof.
  intros Hz. unfold binary_ReadLE. eapply parses_bind_nil.
  - rewrite <- (encode_le_length n z) at 1. apply parses_full.
  - rewrite le_value_encode by done. apply parses_ret.
Qed.

Lemma parses_be n z : 0 <= z < 256 ^ Z.of_nat n ->
  parses (binary_ReadBE (Z.of_nat n)) (encode_be n z) z.
Proof.
  intros Hz. unfold binary_ReadBE, encode_be. eapply parses_bind_nil.
  - rewrite <- (encode_le_length n z) at 1. rewrite <- length_reverse. apply parses_full.
  - rewrite be_value_reverse, le_value_encode by done. apply parses_ret.
Qed.

(** The kind and the low bits of a first byte. *)
Lemma first_byte k lo : 0 <= k < 4 -> 0 <= lo < 64 ->
  Z.shiftr (Z.land (bz (zb (64 * k + lo))) 192) 6 = k /\ Z.land (bz (zb (64 * k + lo))) 63 = lo.
Proof.
  intros Hk Hlo. rewrite bz_zb, Z.mod_small by lia. split.
  - rewrite Z.shiftr_land. change (Z.shiftr 192 6) with (Z.ones 2). rewrite Z.land_ones by lia.
    rewrite Z.shiftr_div_pow2 by lia. change (2 ^ 6) with 64. change (2 ^ 2) with 4.
    rewrite Z.mul_comm, Z.div_add_l, Z.div_small, Z.add_0_r by lia. by apply Z.mod_small.
  - change 63 with (Z.ones 6). rewrite Z.land_ones by lia. change (2 ^ 6) with 64.
    rewrite Z.add_comm, Z.mul_comm, Z.mod_add by lia. by apply Z.mod_small.
Qed.

Lemma lor_low hi lo : 0 <= lo < 256 -> 0 <= hi -> Z.lor (Z.shiftl hi 8) lo = 256 * hi + lo.
Proof.
  intros Hlo Hhi. rewrite Z.shiftl_mul_pow2 by lia. change (2 ^ 8) with 256.
  assert (Hand : Z.land (hi * 256) lo = 0).
  { apply Z.bits_inj'. intros i Hi. rewrite Z.land_spec, Z.bits_0. destruct (Z.lt_ge_cases i 8).
    - change 256 with (2 ^ 8). by rewrite Z.mul_pow2_bits_low by lia.
    - rewrite (Z.bits_above_log2 lo), andb_false_r; [done|lia|].
      destruct (Z.eq_dec lo 0) as [->|]; [cbn; lia|].
      apply Z.lt_le_trans with 8; [|lia]. apply Z.log2_lt_pow2; lia. }
  rewrite <- Z.lxor_lor, <- Z.add_nocarry_lxor by done. lia.
Qed.

(** The shared dispatch of [readLength] and [readString] on the three plain
    length forms: whatever is done with the length. *)
Lemma parses_length n : 0 <= n < 2 ^ 32 -> parses readLength (encode_length n) n.
Proof.
  intros Hn. unfold encode_length, readLength. destruct (Z.ltb_spec n 64).
  - eapply parses_bind_nil; [apply parses_byte|]. cbn zeta.
    destruct (first_byte 0 n) as [E1 E2]; [lia..|]. change (64 * 0 + n) with n in E1, E2.
    rewrite E1, E2. apply parses_ret.
  - destruct (Z.ltb_spec n 16384).
    + change [zb (64 + n / 256); zb (n mod 256)] with ([zb (64 + n / 256)] ++ [zb (n mod 256)]).
      eapply parses_bind; [apply parses_byte|]. cbn zeta.
      assert (Hd1 : 0 <= n / 256 < 64).
      { split; [apply Z.div_pos; lia|]. apply Z.div_lt_upper_bound; lia. }
      destruct (first_byte 1 (n / 256)) as [E1 E2]; [lia..|].
      change (64 * 1 + n / 256) with (64 + n / 256) in E1, E2. rewrite E1, E2. cbn [Z.eqb].
      eapply parses_bind_nil; [apply parses_byte|].
      rewrite bz_zb, Z.mod_mod, lor_low by (lia || apply (Z.mod_pos_bound n 256); lia).
      pose proof (Z.div_mod n 256 ltac:(lia)) as E. rewrite <- E. apply parses_ret.
    + destruct (Z.ltb_spec n (2 ^ 32)); [|lia]. change (zb 128 :: encode_be 4 n) with ([zb 128] ++ encode_be 4 n).
      eapply parses_bind; [apply parses_byte|]. apply (parses_be 4 n). cbn. lia.
Qed.

Lemma parses_string_data data : Z.of_nat (length data) <= 100000 ->
  parses (readStringData (Z.of_nat (length data))) data data.
Proof.
  intros Hl. unfold readStringData. destruct (Z.eqb_spec (Z.of_nat (length data)) 0) as [E|E].
  - destruct data; [|cbn in E; lia]. apply parses_ret.
  - destruct (Z.ltb_spec 100000 (Z.of_nat (length data))); [lia|]. apply parses_wrap, parses_full.
Qed.

Lemma parses_raw data : Z.of_nat (length data) <= 100000 ->
  parses readString (encode_rstring (SRaw data)) data.
Proof.
  intros Hl. cbn [encode_rstring]. pose proof (parses_string_data data Hl) as Hd.
  set (n := Z.of_nat (length data)) in *. unfold encode_length, readString.
  destruct (Z.ltb_spec n 64).
  - eapply parses_bind; [apply parses_byte|]. cbn zeta.
    destruct (first_byte 0 n) as [E1 E2]; [lia..|]. change (64 * 0 + n) with n in E1, E2.
    rewrite E1, E2. exact Hd.
  - destruct (Z.ltb_spec n 16384).
    + change ([zb (64 + n / 256); zb (n mod 256)] ++ data) with
        ([zb (64 + n / 256)] ++ [zb (n mod 256)] ++ data).
      eapply parses_bind; [apply parses_byte|]. cbn zeta.
      assert (Hd1 : 0 <= n / 256 < 64).
      { split; [apply Z.div_pos; lia|]. apply Z.div_lt_upper_bound; lia. }
      destruct (first_byte 1 (n / 256)) as [E1 E2]; [lia..|].
      change (64 * 1 + n / 256) with (64 + n / 256) in E1, E2. rewrite E1, E2. cbn [Z.eqb].
      eapply parses_bind; [apply parses_byte|].
      rewrite bz_zb, Z.mod_mod, lor_low by (lia || apply (Z.mod_pos_bound n 256); lia).
      pose proof (Z.div_mod n 256 ltac:(lia)) as E. by rewrite <- E.
    + destruct (Z.ltb_spec n (2 ^ 32)); [|lia]. change ((zb 128 :: encode_be 4 n) ++ data) with ([zb 128] ++ encode_be 4 n ++ data).
      eapply parses_bind; [apply parses_byte|]. cbn zeta.
      change (parses (let! length := binary_ReadBE 4 in readStringData length) (encode_be 4 n ++ data) data).
      eapply parses_bind; [apply (parses_be 4 n); cbn; lia|done].
Qed.

Lemma lzfDecompress_tokens ts data : ts <> [] -> Forall wf_token ts -> expands [] ts data ->
  lzfDecompress (encode_tokens ts) (Z.of_nat (length data)) = Ok data.
Proof.
  intros Hne Hwf Hex. unfold lzfDecompress. rewrite bool_decide_false.
  2: { destruct ts as [|t ts]; [done|]. change (encode_tokens (t :: ts)) with (encode_token t ++ encode_tokens ts).
       intros [Ht _]%app_nil. by apply (encode_token_nonempty t). }
  destruct (Z.ltb_spec (Z.of_nat (length data)) 0); [lia|].
  rewrite (lzf_loop_tokens [] ts data) by done. by rewrite Z.eqb_refl.
Qed.

Lemma parses_rstring s : readable_rstring s -> parses readString (encode_rstring s) (rstring_read s).
Proof.
  intros [Hwf Hr]. destruct s as [data|n|n|n|ts data]; cbn [wf_rstring rstring_read rstring_value] in *.
  - by apply parses_raw.
  - change (encode_rstring (SInt8 n)) with ([zb 192] ++ [zb (n mod 2 ^ 8)]). unfold readString.
    pose proof (Z.mod_pos_bound n (2 ^ 8) ltac:(lia)).
    eapply parses_bind; [apply parses_byte|].
    change (parses (let! v := read ReadByte in gret (FormatInt (bz v)) : M (RDBParser St) bytes) [zb (n mod 2 ^ 8)] (FormatInt (n mod 2 ^ 8))).
    eapply parses_bind_nil; [apply parses_byte|]. rewrite bz_zb. rewrite (Z.mod_small (n mod _)) by lia. apply parses_ret.
  - change (encode_rstring (SInt16 n)) with ([zb 193] ++ encode_le 2 (n mod 2 ^ 16)). unfold readString.
    pose proof (Z.mod_pos_bound n (2 ^ 16) ltac:(lia)).
    eapply parses_bind; [apply parses_byte|].
    change (parses (let! v := binary_ReadLE 2 in gret (FormatInt v) : M (RDBParser St) bytes)
      (encode_le 2 (n mod 2 ^ 16)) (FormatInt (n mod 2 ^ 16))).
    eapply parses_bind_nil; [apply (parses_le 2 (n mod 2 ^ 16)); cbn in *; lia|]. apply parses_ret.
  - change (encode_rstring (SInt32 n)) with ([zb 194] ++ encode_le 4 (n mod 2 ^ 32)). unfold readString.
    eapply parses_bind; [apply parses_byte|].
    change (parses (let! v := binary_ReadLE 4 in gret (FormatInt (int32 v)) : M (RDBParser St) bytes)
      (encode_le 4 (n mod 2 ^ 32)) (FormatInt n)).
    eapply parses_bind_nil; [apply (parses_le 4)|].
    { pose proof (Z.mod_pos_bound n (2 ^ 32) ltac:(lia)). cbn. lia. }
    unfold int32, wrap32. rewrite Zplus_mod_idemp_l, Z.mod_small by lia.
    replace (n + 2 ^ 31 - 2 ^ 31) with n by lia. apply parses_ret.
  - destruct Hwf as (Hne & Hts & Hex & _), Hr as [Hl1 Hl2].
    change (encode_rstring (SLzf ts data)) with ([zb 195] ++
      encode_length (Z.of_nat (length (encode_tokens ts))) ++
      encode_length (Z.of_nat (length data)) ++ encode_tokens ts). unfold readString.
    eapply parses_bind; [apply parses_byte|].
    change (parses (readLZFString : M (RDBParser St) bytes)
      (encode_length (Z.of_nat (length (encode_tokens ts))) ++
       encode_length (Z.of_nat (length data)) ++ encode_tokens ts) data).
    unfold readLZFString. eapply parses_bind; [apply parses_wrap, parses_length; lia|].
    eapply parses_bind; [apply parses_wrap, parses_length; lia|].
    eapply parses_bind_nil; [apply parses_wrap, parses_full|].
    rewrite lzfDecompress_tokens by done. apply parses_ret.
Qed.

End Inverse.
