(* ===== verification/RdbProofs.v ===== *)
(** * Proofs about the RDB parser

    Values, entries and files are parsed back to the handler calls they encode;
    the parser is total on every input and swallows no more errors than a strict
    version allows. *)

From Stdlib Require Import ZArith Lia String.
From stdpp Require Import base list list_numbers gmap.
From S2P Require Import Prelude GoLib RespTypes RespReader Lzf Rdb RdbFormat.

Section Values.
  Context {St : Type}.

(** ** Loops over elements *)

Lemma encode_rstring_nonempty s : (1 <= length (encode_rstring s))%nat.
Proof.
  destruct s as [d| | | |]; cbn [encode_rstring]; try (cbn; lia). unfold encode_length.
  rewrite length_app. repeat case_match; cbn; lia.
Qed.

Lemma read_items_parses {A E} (item : A -> M (RDBParser St) A) (enc : E -> bytes) (f : A -> E -> A) es :
  Forall (fun e => forall acc, parses (item acc) (enc e) (f acc e)) es ->
  forall fuel i n acc, n = i + Z.of_nat (length es) -> (length es <= fuel)%nat ->
  parses (read_items item fuel n i acc) (es ≫= enc) (foldl f acc es).
Proof.
  induction 1 as [|e es He _ IH]; intros fuel i n acc -> Hf.
  - destruct fuel; cbn [read_items length]; destruct (Z.ltb_spec i (i + Z.of_nat 0)); try lia; apply parses_ret.
  - cbn in Hf. destruct fuel as [|fuel]; [lia|]. cbn [read_items length].
    destruct (Z.ltb_spec i (i + Z.of_nat (S (length es)))); [|lia].
    change ((e :: es) ≫= enc) with (enc e ++ (es ≫= enc)). eapply parses_bind; [apply He|].
    apply IH; lia.
Qed.

(** The same, with the fuel computed where the loop starts. *)
Lemma loop_parses {A E} (item : A -> M (RDBParser St) A) (enc : E -> bytes) (f : A -> E -> A) es acc :
  Forall (fun e => forall acc, parses (item acc) (enc e) (f acc e)) es ->
  (forall e, (1 <= length (enc e))%nat) ->
  parses (gbind loop_fuel (fun fuel => read_items item fuel (Z.of_nat (length es)) 0 acc))
    (es ≫= enc) (foldl f acc es).
Proof.
  intros Hes Hne rest e h st er. unfold loop_fuel, gbind. cbn [br rd_buf].
  apply (read_items_parses item enc f es Hes); [done|].
  assert (length es <= length (es ≫= enc))%nat; [|rewrite length_app; lia].
  clear Hes. induction es as [|x es IH]; [cbn; lia|].
  change ((x :: es) ≫= enc) with (enc x ++ (es ≫= enc)). rewrite length_app. cbn [length].
  specialize (Hne x). lia.
Qed.

Lemma parses_loop_bind {A E B} (item : A -> M (RDBParser St) A) (enc : E -> bytes) (f : A -> E -> A) es acc
  (k : A -> M (RDBParser St) B) b :
  Forall (fun e => forall acc, parses (item acc) (enc e) (f acc e)) es ->
  (forall e, (1 <= length (enc e))%nat) -> k (foldl f acc es) = gret b ->
  parses (gbind loop_fuel (fun fuel =>
    gbind (read_items item fuel (Z.of_nat (length es)) 0 acc) k)) (es ≫= enc) b.
Proof.
  intros Hes Hne Hk rest e h st er.
  pose proof (loop_parses item enc f es acc Hes Hne rest e h st er) as E1.
  unfold gbind in *. unfold loop_fuel in *. cbn [br rd_buf] in *. rewrite E1, Hk. done.
Qed.

Lemma foldl_snoc_map {A B} (f : A -> B) l acc :
  foldl (fun acc a => acc ++ [f a]) acc l = acc ++ (f <$> l).
Proof.
  revert acc. induction l as [|a l IH]; intros acc; cbn; [by rewrite app_nil_r|].
  by rewrite IH, <- app_assoc.
Qed.

Lemma parses_strings_loop l : Forall readable_rstring l ->
  parses (let! fuel := loop_fuel in
      let! l := read_items (fun list =>
        let! element := readString in gret (list ++ [element])) fuel (Z.of_nat (length l)) 0 [] in
      gret (Some (RDBList l)) : M (RDBParser St) _) (l ≫= encode_rstring) (Some (RDBList (rstring_read <$> l))).
Proof.
  intros Hl. apply (parses_loop_bind _ _ (fun acc s => acc ++ [rstring_read s]));
    [|apply encode_rstring_nonempty|by rewrite foldl_snoc_map].
  eapply Forall_impl; [done|]. intros s Hs acc.
  eapply parses_bind_nil; [by apply parses_rstring|apply parses_ret].
Qed.

Lemma parses_quicklist l : Forall readable_rstring l -> Z.of_nat (length l) < 2 ^ 32 ->
  parses (readQuicklist : M (RDBParser St) _) (encode_length (Z.of_nat (length l)) ++ (l ≫= encode_rstring)) (rstring_read <$> l).
Proof.
  intros Hl Hn. unfold readQuicklist. eapply parses_bind; [apply parses_length; lia|].
  change (rstring_read <$> l) with ([] ++ (rstring_read <$> l)). rewrite <- foldl_snoc_map.
  apply (loop_parses _ _ (fun acc s => acc ++ [rstring_read s])); [|apply encode_rstring_nonempty].
  eapply Forall_impl; [done|]. intros s Hs acc. rewrite <- (app_nil_r (encode_rstring s)).
  eapply parses_try; [by apply parses_rstring|apply parses_ret].
Qed.

(** A value in one string is skipped: as a string, or by its length alone. *)
Lemma blob_type_cases t : (t ∈ blob_types) ->
  t = 9 \/ t = 10 \/ t = 11 \/ t = 12 \/ t = 13 \/ t = 16 \/ t = 17 \/ t = 20.
Proof. unfold blob_types. rewrite !elem_of_cons, elem_of_nil. tauto. Qed.

Lemma parses_blob t s : (t ∈ blob_types) -> readable_rvalue (VBlob t s) ->
  parses (readValue t : M (RDBParser St) (option RDBValue)) (encode_rstring s) None.
Proof.
  intros Ht [_ Hr]. cbn [readable_rvalue] in Hr.
  assert (E : readValue t = (skipUnsupportedType t : M (RDBParser St) _) \/ t = 20).
  { by destruct (blob_type_cases t Ht) as [->|[->|[->|[->|[->|[->|[->| ->]]]]]]]; auto. }
  destruct E as [E| ->]; [|by destruct Hr]. rewrite E. unfold skipUnsupportedType. destruct (Z.ltb_spec t 16).
  - rewrite <- (app_nil_r (encode_rstring s)). eapply parses_try; [by apply parses_rstring|apply parses_ret].
  - destruct Hr as [_ Hr]. destruct s as [data| | | |]; try done.
    assert ((t <? 32) = true) as -> by (by destruct (blob_type_cases t Ht) as [->|[->|[->|[->|[->|[->|[->| ->]]]]]]]).
    cbn [encode_rstring]. eapply parses_try; [apply parses_length; lia|].
    rewrite <- (app_nil_r data) at 2. eapply parses_try; [apply parses_full|apply parses_ret].
Qed.

Lemma parses_rvalue v : readable_rvalue v ->
  parses (readValue (rvalue_type v) : M (RDBParser St) (option RDBValue)) (encode_rvalue v) (rvalue_read v).
Proof.
  intros Hr. pose proof Hr as [Hwf Hv].
  destruct v as [s|l|l|l|l|l|t s|l|l]; cbn [wf_rvalue rvalue_type encode_rvalue rvalue_read] in *; try done.
  - change (readValue 0) with (let! d := readString in gret (Some (RDBString d)) : M (RDBParser St) _).
    eapply parses_bind_nil; [by apply parses_rstring|apply parses_ret].
  - destruct Hv as [Hl Hn].
    change (readValue 1) with (let! length := readLength in
      let! fuel := loop_fuel in
      let! l := read_items (fun list =>
        let! element := readString in gret (list ++ [element])) fuel length 0 [] in
      gret (Some (RDBList l)) : M (RDBParser St) _).
    eapply parses_bind; [apply parses_length; lia|]. by apply parses_strings_loop.
  - destruct Hv as [Hl Hn].
    change (readValue 2) with (let! length := readLength in
      let! fuel := loop_fuel in
      let! s := read_items (fun set : gset bytes =>
        let! member := readString in gret ({[member]} ∪ set)) fuel length 0 ∅ in
      gret (Some (RDBSet s)) : M (RDBParser St) _).
    eapply parses_bind; [apply parses_length; lia|].
    apply (parses_loop_bind _ _ (fun (set : gset bytes) s => {[rstring_read s]} ∪ set));
      [|apply encode_rstring_nonempty|done].
    eapply Forall_impl; [done|]. intros s Hs acc.
    eapply parses_bind_nil; [by apply parses_rstring|apply parses_ret].
  - destruct Hv as [Hl Hn].
    change (readValue 4) with (let! length := readLength in
      let! fuel := loop_fuel in
      let! h := read_items (fun hash : gmap bytes bytes =>
        let! field := readString in
        let! value := readString in
        gret (<[field := value]> hash)) fuel length 0 ∅ in
      gret (Some (RDBHash h)) : M (RDBParser St) _).
    eapply parses_bind; [apply parses_length; lia|].
    apply (parses_loop_bind _ _ (fun (h : gmap bytes bytes) '(f, v) =>
      <[rstring_read f := rstring_read v]> h)); [| |done].
    + eapply Forall_impl; [done|]. intros [f v] [Hf Hv] acc.
      eapply parses_bind; [by apply parses_rstring|].
      eapply parses_bind_nil; [by apply parses_rstring|apply parses_ret].
    + intros [f v]. rewrite length_app. pose proof (encode_rstring_nonempty f). lia.
  - apply parses_blob; [apply Hwf|exact Hr].
  - destruct Hv as [Hl Hn].
    change (readValue 14) with (let! l := readQuicklist in gret (Some (RDBList l)) : M (RDBParser St) _).
    eapply parses_bind_nil; [by apply parses_quicklist|apply parses_ret].
Qed.

End Values.

(** ** Entries and files *)

Section Files.
  Context {St : Type} (handler : RDBHandler St).

(** From [p], the parser reads [enc] and the handler does [m]. *)
Definition parses_calls {A} (act : M (RDBParser St) A) (enc : bytes) (m : M St unit) (a : A) : Prop :=
  forall rest e h st er h', m h = (Ok tt, h') ->
  act (mkParser (mkReader (enc ++ rest) e) h st er) = (Ok a, mkParser (mkReader rest e) h' st er).

Lemma parses_then_calls {A B} (m : M (RDBParser St) A) (k : A -> M (RDBParser St) B) e1 e2 a b c :
  parses m e1 a -> parses_calls (k a) e2 c b -> parses_calls (gbind m k) (e1 ++ e2) c b.
Proof.
  intros Hm Hk rest e h st er h' Hc. rewrite <- app_assoc. erewrite gbind_ok by apply Hm. by apply Hk.
Qed.

Lemma calls_call c : parses_calls (call c) [] c tt.
Proof. intros rest e h st er h' Hc. unfold call. cbn. by rewrite Hc. Qed.

Lemma calls_try {A B} (act : M (RDBParser St) A) (k : A -> M (RDBParser St) B) hd enc c a b :
  parses_calls act enc c a -> k a = gret b -> parses_calls (gtry act k hd) enc c b.
Proof.
  intros Ha Hk rest e h st er h' Hc. erewrite gtry_ok by (by apply Ha). by rewrite Hk.
Qed.

Lemma calls_bind_ret {A B} (act : M (RDBParser St) A) (k : A -> M (RDBParser St) B) enc c a b :
  parses_calls act enc c a -> k a = gret b -> parses_calls (gbind act k) enc c b.
Proof.
  intros Ha Hk rest e h st er h' Hc. erewrite gbind_ok by (by apply Ha). by rewrite Hk.
Qed.

Lemma readAuxField_calls k v : readable_rstring k -> readable_rstring v ->
  parses_calls (readAuxField handler) (encode_rstring k ++ encode_rstring v)
    (OnAux handler (rstring_read k) (rstring_read v)) tt.
Proof.
  intros Hk Hv. unfold readAuxField.
  eapply parses_then_calls; [by apply parses_wrap, parses_rstring|].
  intros rest e h st er h' Hc. erewrite gbind_ok by done.
  assert (Hs : forall pre (b : bool), parses (gwrap pre (if b then readBinaryString else readString))
    (encode_rstring v) (rstring_read v) (St := St)).
  { intros pre b. apply parses_wrap. destruct b; by apply parses_rstring. }
  erewrite gbind_ok by apply Hs.
  by apply (calls_call (OnAux handler (rstring_read k) (rstring_read v)) rest e h st er h').
Qed.

Lemma readKeyValue_calls e k v : readable_rstring k -> readable_rvalue v ->
  parses_calls (readKeyValue handler (rvalue_type v) (rexpiry_value e)) (encode_rstring k ++ encode_rvalue v)
    (run_item handler (ItemKey e k v)) tt.
Proof.
  intros Hk Hv. unfold readKeyValue.
  eapply parses_then_calls; [by apply parses_wrap, parses_rstring|].
  rewrite <- (app_nil_r (encode_rvalue v)).
  eapply parses_then_calls; [by apply parses_wrap, parses_rvalue|]. cbn [run_item].
  destruct (rvalue_read v); [apply calls_call|]. by intros rest e0 h st er h' [= <-].
Qed.

(** Everything after the opcode byte of an item. *)
Definition item_opcode (i : ritem) : Z :=
  match i with
  | ItemDB _ => RDBOpcodeDB
  | ItemAux _ _ => RDBOpcodeAux
  | ItemResize _ _ => RDBOpcodeResizeDB
  | ItemKey _ _ v => rvalue_type v
  end.

Definition item_body (i : ritem) : bytes :=
  match i with
  | ItemDB n => encode_length n
  | ItemAux k v => encode_rstring k ++ encode_rstring v
  | ItemResize a b => encode_length a ++ encode_length b
  | ItemKey _ k v => encode_rstring k ++ encode_rvalue v
  end.

Definition item_expiry (i : ritem) : rexpiry :=
  match i with ItemKey e _ _ => e | _ => NoExpiry end.

Lemma encode_ritem_split i :
  encode_ritem i = encode_rexpiry (item_expiry i) ++ zb (item_opcode i) :: item_body i.
Proof. by destruct i. Qed.

Lemma item_opcode_byte i : readable_ritem i -> bz (zb (item_opcode i)) = item_opcode i.
Proof.
  intros [_ Hr]. destruct i as [| | |e k [| | | | | |t s| |]]; try done. destruct Hr as [_ [[Ht _] _]].
  by destruct (blob_type_cases t Ht) as [->|[->|[->|[->|[->|[->|[->| ->]]]]]]].
Qed.

Lemma parse_opcode_item i : readable_ritem i ->
  parses_calls (parse_opcode handler (item_opcode i) (rexpiry_value (item_expiry i))) (item_body i)
    (run_item handler i) (Some None).
Proof.
  intros [Hwf Hr].
  destruct i as [n|k v|a b|e k v]; cbn [wf_ritem item_opcode item_expiry item_body rexpiry_value] in *; cbn [run_item].
  - intros rest e h st er h' Hc. unfold parse_opcode. cbn [Z.eqb Pos.eqb RDBOpcodeEOF RDBOpcodeDB].
    erewrite gtry_ok by (apply parses_length; lia).
    erewrite gbind_ok by (by apply (calls_call _ rest e h st er h')). done.
  - change (parse_opcode handler RDBOpcodeAux None) with
      (gtry (readAuxField handler) gret (skip_or_fail tt (wrapped (bs "failed to read aux field: "))) ;;!
       gret (Some (@None Z))).
    destruct Hr as [Hk Hv]. eapply calls_bind_ret; [|done]. eapply calls_try; [|done].
    by apply readAuxField_calls.
  - intros rest e h st er h' Hc.
    change (parse_opcode handler RDBOpcodeResizeDB None) with
      (let! dbSize := gtry readLength gret (skip_or_fail 0 id) in
       let! expiresSize := gtry readLength gret (skip_or_fail 0 id) in
       match OnResizeDB handler with
       | Some f => call (f dbSize expiresSize)
       | None => gret tt
       end ;;! gret (Some (@None Z)) : M (RDBParser St) _).
    rewrite <- app_assoc.
    erewrite gbind_ok by (erewrite gtry_ok by (apply parses_length; lia); done).
    erewrite gbind_ok by (erewrite gtry_ok by (apply parses_length; lia); done).
    destruct (OnResizeDB handler) as [f|].
    + erewrite gbind_ok by (by apply (calls_call _ rest e h st er h')). done.
    + injection Hc as <-. done.
  - destruct Hr as [Hk Hv].
    assert (E : parse_opcode handler (rvalue_type v) (rexpiry_value e) =
      (gtry (readKeyValue handler (rvalue_type v) (rexpiry_value e)) gret (skip_or_fail tt id) ;;!
       gret (Some (@None Z)))) by (destruct v as [| | | | | |t s| |]; try done;
      by destruct (blob_type_cases t (proj1 (proj1 Hv))) as [->|[->|[->|[->|[->|[->|[->| ->]]]]]]]).
    rewrite E. eapply calls_bind_ret; [|done]. eapply calls_try; [|done]. by apply readKeyValue_calls.
Qed.

Lemma parse_expiry e : wf_rexpiry e -> e <> NoExpiry -> exists op body,
  encode_rexpiry e = op :: body /\ op <> zb RDBOpcodeEOF /\
  parses (parse_opcode handler (bz op) None) body (Some (rexpiry_value e)).
Proof.
  destruct e as [|t|t]; cbn [wf_rexpiry encode_rexpiry rexpiry_value]; intros Hwf Hne; [done| |].
  - do 2 eexists. split; [done|]. split; [done|].
    change (bz (zb RDBOpcodeExpiry)) with RDBOpcodeExpiry.
    change (parse_opcode handler RDBOpcodeExpiry None) with
      (gtry (binary_ReadLE 4) (fun timestamp => gret (Some (Some (timestamp * 1000000000))))
        (skip_or_fail (Some None) (wrapped (bs "failed to read expiry timestamp: "))) : M (RDBParser St) _).
    rewrite <- (app_nil_r (encode_le 4 t)). eapply parses_try; [apply (parses_le 4); cbn; lia|apply parses_ret].
  - do 2 eexists. split; [done|]. split; [done|].
    change (bz (zb RDBOpcodeExpiryMs)) with RDBOpcodeExpiryMs.
    change (parse_opcode handler RDBOpcodeExpiryMs None) with
      (gtry (binary_ReadLE 8) (fun timestamp =>
         gret (Some (Some (timestamp / 1000 * 1000000000 + timestamp mod 1000 * 1000000))))
        (skip_or_fail (Some None) (wrapped (bs "failed to read expiry timestamp: "))) : M (RDBParser St) _).
    rewrite <- (app_nil_r (encode_le 8 t)). eapply parses_try; [apply (parses_le 8); cbn; lia|].
    replace (t / 1000 * 1000000000 + t mod 1000 * 1000000) with (t * 10 ^ 6); [apply parses_ret|].
    pose proof (Z.div_mod t 1000 ltac:(lia)). lia.
Qed.

(** One opcode of the loop. *)
Lemma parse_loop_opcode fuel expiry op next rest e h st er h' :
  parse_opcode handler (bz op) expiry (mkParser (mkReader rest e) h st er) =
    (Ok (Some next), h') ->
  parse_loop handler (S fuel) expiry (mkParser (mkReader (op :: rest) e) h st er) =
  parse_loop handler fuel next h'.
Proof. intros E. cbn [parse_loop]. erewrite gtry_ok by done. by erewrite gbind_ok by exact E. Qed.

Lemma parse_loop_item i fuel rest e h st er h' : readable_ritem i -> run_item handler i h = (Ok tt, h') ->
  (length (encode_ritem i) <= fuel)%nat -> exists fuel', (fuel <= fuel' + length (encode_ritem i))%nat /\
  parse_loop handler fuel None (mkParser (mkReader (encode_ritem i ++ rest) e) h st er) =
  parse_loop handler fuel' None (mkParser (mkReader rest e) h' st er).
Proof.
  intros Hwf Hrun Hf. rewrite encode_ritem_split in *.
  assert (Hop : bz (zb (item_opcode i)) = item_opcode i) by (by apply item_opcode_byte).
  assert (Hbody : forall fuel, parse_loop handler (S fuel) (rexpiry_value (item_expiry i))
      (mkParser (mkReader (zb (item_opcode i) :: item_body i ++ rest) e) h st er) =
    parse_loop handler fuel None (mkParser (mkReader rest e) h' st er)).
  { intros fuel0. eapply parse_loop_opcode. rewrite Hop. by apply parse_opcode_item. }
  destruct (decide (item_expiry i = NoExpiry)) as [Ee|Ee].
  { rewrite Ee in *. destruct fuel as [|fuel]; [cbn in Hf; lia|]. exists fuel.
    split; [cbn; lia|]. apply Hbody. }
  assert (He : wf_rexpiry (item_expiry i)) by (destruct Hwf as [Hwf _], i; cbn in *; tauto).
  destruct (parse_expiry _ He Ee) as (op & body & E & _ & Hp). rewrite E in *.
  cbn [app length] in Hf. rewrite length_app in Hf. cbn [length] in Hf.
  destruct fuel as [|[|fuel]]; [lia..|]. exists fuel.
  split; [cbn [app length]; rewrite length_app; cbn [length]; lia|].
  cbn [app]. rewrite <- app_assoc. cbn [app].
  erewrite parse_loop_opcode by apply Hp. apply Hbody.
Qed.

Lemma parse_loop_items items : Forall readable_ritem items ->
  forall fuel trailer e h st er h',
  (length (items ≫= encode_ritem) < fuel)%nat -> run_items handler items h = (Ok tt, h') ->
  exists r, parse_loop handler fuel None
    (mkParser (mkReader ((items ≫= encode_ritem) ++ zb RDBOpcodeEOF :: trailer) e) h st er) =
    (Ok tt, mkParser r h' st er).
Proof.
  induction 1 as [|i items Hi _ IH]; intros fuel trailer e h st er h' Hf Hrun.
  - destruct fuel as [|fuel]; [cbn in Hf; lia|]. cbn [mbind list_bind app parse_loop].
    erewrite gtry_ok by done. erewrite gbind_ok by done. cbn [run_items] in Hrun.
    unfold call. cbn [hst]. rewrite Hrun. by eexists.
  - change ((i :: items) ≫= encode_ritem) with (encode_ritem i ++ (items ≫= encode_ritem)) in *.
    rewrite length_app in Hf. cbn [run_items] in Hrun. unfold gbind in Hrun.
    destruct (run_item handler i h) as [[[]|?|?|] h1] eqn:E1; try done.
    rewrite <- app_assoc.
    destruct (parse_loop_item i fuel ((items ≫= encode_ritem) ++ zb RDBOpcodeEOF :: trailer) e h st er h1 Hi E1)
      as (fuel' & Hf' & ->); [lia|].
    eapply IH; [lia|done].
Qed.

Lemma Parse_file version items trailer e h h' : 0 <= version <= 12 -> Forall readable_ritem items ->
  run_items handler items h = (Ok tt, h') ->
  ParseRDB handler (mkReader (encode_file version items trailer) e) h = (Ok tt, h').
Proof.
  intros Hv Hi Hrun. unfold ParseRDB, Parse, NewRDBParser, encode_file.
  set (ver := [zb 48; zb 48; zb (48 + version / 10); zb (48 + version mod 10)]).
  assert (Hh : length (bs "REDIS" ++ ver) = 9%nat) by done.
  assert (Hfull : parses (gwrap (bs "failed to read RDB header: ") (read (ReadFull 9)))
    (bs "REDIS" ++ ver) (bs "REDIS" ++ ver) (St := St)).
  { change 9 with (Z.of_nat 9). rewrite <- Hh. apply parses_wrap, parses_full. }
  rewrite (app_assoc (bs "REDIS") ver). erewrite gbind_ok by apply Hfull.
  change (take 5 (bs "REDIS" ++ ver)) with (bs "REDIS"). rewrite bool_decide_true by done. cbn [negb].
  change (drop 5 (bs "REDIS" ++ ver)) with ver.
  assert (Ever : ParseInt ver = Some version).
  { subst ver. clear -Hv. assert (H : version = 0 \/ version = 1 \/ version = 2 \/ version = 3 \/ version = 4 \/
      version = 5 \/ version = 6 \/ version = 7 \/ version = 8 \/ version = 9 \/ version = 10 \/
      version = 11 \/ version = 12) by lia.
    by repeat destruct H as [->|H]; subst; vm_compute. }
  rewrite Ever. unfold MaxSupportedRDBVersion. destruct (Z.ltb_spec 12 version); [lia|].
  erewrite gbind_ok by done. unfold loop_fuel, gbind. cbn [br rd_buf].
  destruct (parse_loop_items items Hi (S (length ((items ≫= encode_ritem) ++ zb RDBOpcodeEOF :: trailer) +
    Z.to_nat (maxSkippableErrors (strategy_of version) - 0))) trailer e h (strategy_of version) 0 h')
    as (r & Er); [rewrite length_app; lia|done|].
  cbn [strategy errors hst] in *. by rewrite Er.
Qed.

End Files.
