(* ===== verification/RdbTotal.v ===== *)
(** * Totality and error budget of the RDB parser

    [tame] is what every function of the parser has: it returns, never moves
    backwards in the input, never forgets an error, keeps the invariant of the
    handler's state, and, when it succeeds under a strict strategy, has not skipped
    more errors than the strategy allows. *)

From Stdlib Require Import ZArith Lia String.
From stdpp Require Import base list list_numbers gmap.
From S2P Require Import Prelude GoLib RespTypes RespReader Lzf Rdb.

(** A call that returns, with or without an error, and keeps an invariant. *)
Definition keeps {St A} (Inv : St -> Prop) (m : M St A) : Prop :=
  forall h, Inv h -> returns (m h).1 /\ Inv (m h).2.

(** A handler all of whose methods do. *)
Record total_handler {St} (Inv : St -> Prop) (handler : RDBHandler St) : Prop := {
  total_OnDatabase n : keeps Inv (OnDatabase handler n);
  total_OnKey k v e : keeps Inv (OnKey handler k v e);
  total_OnAux k v : keeps Inv (OnAux handler k v);
  total_OnEnd : keeps Inv (OnEnd handler);
  total_OnResizeDB f a b : OnResizeDB handler = Some f -> keeps Inv (f a b)
}.

Create HintDb tame.

Section Total.
  Context {St : Type} (Inv : St -> Prop).

Definition max_skip (p : RDBParser St) : Z := maxSkippableErrors (strategy p).

(** Every iteration of a loop makes this smaller. *)
Definition fuel_left (p : RDBParser St) : nat :=
  (length (rd_buf (br p)) + Z.to_nat (max_skip p - errors p))%nat.

Record after (p p' : RDBParser St) : Prop := {
  after_strategy : strategy p' = strategy p;
  after_input : (length (rd_buf (br p')) <= length (rd_buf (br p)))%nat;
  after_errors : errors p <= errors p'
}.

Lemma after_refl p : after p p.
Proof. by split. Qed.

Lemma after_trans p1 p2 p3 : after p1 p2 -> after p2 p3 -> after p1 p3.
Proof. intros [A1 B1 C1] [A2 B2 C2]. split; [congruence|lia..]. Qed.

Lemma after_fuel p p' : after p p' -> (fuel_left p' <= fuel_left p)%nat.
Proof. intros [A B C]. unfold fuel_left, max_skip. rewrite A. lia. Qed.

(** What holds of one run. *)
Definition tame_at {A} (p : RDBParser St) (o : outcome A) (p' : RDBParser St) : Prop :=
  returns o /\ after p p' /\
  (match o with Ok _ => True | _ => False end -> requiresStrictParsing (strategy p) = true ->
   errors p' <= Z.max (errors p) (max_skip p)) /\ Inv (hst p').

Definition tame {A} (m : M (RDBParser St) A) : Prop :=
  forall p, Inv (hst p) -> tame_at p (m p).1 (m p).2.

Lemma tame_at_trans {A B} p1 p2 p3 (a : A) (o : outcome B) :
  tame_at p1 (Ok a) p2 -> tame_at p2 o p3 -> tame_at p1 o p3.
Proof.
  intros (_ & A1 & E1 & _) (R2 & A2 & E2 & I2). split; [done|]. split; [by eapply after_trans|].
  split; [|done]. intros Ho Hs. specialize (E1 I Hs). destruct A1 as [As _ _]. unfold max_skip in *. rewrite As in E2.
  specialize (E2 Ho Hs). lia.
Qed.

Lemma tame_ret {A} (a : A) : tame (gret a).
Proof. intros p Hp. split; [done|]. split; [apply after_refl|]. split; [cbn; lia|done]. Qed.

Lemma tame_fail {A} e : tame (gfail e : M (RDBParser St) A).
Proof. intros p Hp. split; [done|]. split; [apply after_refl|done]. Qed.

Lemma tame_bind {A B} (m : M (RDBParser St) A) (k : A -> M (RDBParser St) B) :
  tame m -> (forall a, tame (k a)) -> tame (gbind m k).
Proof.
  intros Hm Hk p Hp. unfold gbind. pose proof (Hm p Hp) as H. destruct (m p) as [[a|e|q|] p']; try done.
  eapply tame_at_trans; [exact H|]. apply Hk, H.
Qed.

(** The same when the continuation is tame on the values [m] returns. *)
Lemma tame_bind_val {A B} (m : M (RDBParser St) A) (k : A -> M (RDBParser St) B) :
  tame m -> (forall a p p', m p = (Ok a, p') -> tame (k a)) -> tame (gbind m k).
Proof.
  intros Hm Hk p Hp. unfold gbind. pose proof (Hm p Hp) as H.
  destruct (m p) as [[a|e|q|] p'] eqn:E; try done.
  eapply tame_at_trans; [exact H|]. eapply Hk; [exact E|apply H].
Qed.

(** An error handed to a handler: only its progress counts. *)
Lemma tame_try {A B} (m : M (RDBParser St) A) (k : A -> M (RDBParser St) B) h :
  tame m -> (forall a, tame (k a)) -> (forall e, tame (h e)) ->
  (forall e p, match (h e p).1 with Ok _ => errors (h e p).2 <= max_skip p | _ => True end) ->
  tame (gtry m k h).
Proof.
  intros Hm Hk Hh Hb p Hp. unfold gtry. pose proof (Hm p Hp) as H.
  destruct (m p) as [[a|e|q|] p']; try done.
  - eapply tame_at_trans; [exact H|]. apply Hk, H.
  - destruct H as (_ & A1 & _ & I1). specialize (Hh e p' I1). specialize (Hb e p').
    destruct Hh as (R2 & A2 & _ & I2). split; [done|]. split; [by eapply after_trans|].
    split; [|done]. intros Ho _. destruct (h e p') as [[b|?|?|] p2]; try done. cbn in *.
    destruct A1 as [As _ _]. unfold max_skip in *. rewrite As in Hb. lia.
Qed.

Lemma tame_wrap {A} pre (m : M (RDBParser St) A) : tame m -> tame (gwrap pre m).
Proof.
  intros Hm. unfold gwrap. apply tame_try; [done|apply tame_ret|intros; apply tame_fail|done].
Qed.

Lemma tame_byte : tame (read ReadByte : M (RDBParser St) byte).
Proof.
  intros p Hp. unfold read, ReadByte. destruct (rd_buf (br p)) as [|b l] eqn:E; cbn;
    (split; [done|]; split; [split; cbn; rewrite ?E; done || cbn; lia|split; [cbn; lia|done]]).
Qed.

Lemma tame_full n : tame (read (ReadFull n) : M (RDBParser St) bytes).
Proof.
  intros p Hp. unfold read, ReadFull. destruct (_ <=? _); cbn;
    (split; [done|]; split; [split; cbn; rewrite ?length_drop; done || lia|split; [cbn; lia|done]]).
Qed.

Lemma tame_call {A} (m : M St A) : keeps Inv m -> tame (call m).
Proof.
  intros Hm p Hp. unfold call. specialize (Hm (hst p) Hp). destruct (m (hst p)) as [o h].
  split; [apply Hm|]. split; [by split|]. split; [cbn; lia|apply Hm].
Qed.

Lemma tame_lift {A} (o : outcome A) : returns o -> tame (lift o : M (RDBParser St) A).
Proof. intros Ho p Hp. split; [done|]. split; [apply after_refl|]. split; [cbn; lia|done]. Qed.

Lemma tame_strategy : tame (get_strategy : M (RDBParser St) VersionStrategy).
Proof. intros p Hp. split; [done|]. split; [apply after_refl|]. split; [cbn; lia|done]. Qed.

(** [if p.canSkipError() { skip } else { fail }] *)
Definition skips {A} (a : A) (e : error) : M (RDBParser St) A :=
  let! skip := canSkipError in if (skip : bool) then gret a else gfail e.

Lemma skips_run {A} (a : A) e p : exists o p', skips a e p = (o, p') /\ returns o /\ after p p' /\
  errors p' = errors p + 1 /\ hst p' = hst p /\
  match o with Ok _ => errors p' <= max_skip p | _ => True end.
Proof.
  unfold skips, canSkipError, gbind. cbn zeta. cbn [errors strategy].
  destruct (Z.leb_spec (errors p + 1) (maxSkippableErrors (strategy p))); do 2 eexists;
    (split; [done|]); (split; [done|]); (split; [split; cbn; done || lia|]); (split; [done|]); (split; [done|]); done.
Qed.

Lemma tame_skips {A} (a : A) e : tame (skips a e).
Proof.
  intros p Hp. destruct (skips_run a e p) as (o & p' & -> & Hr & Ha & _ & Hh & Hb). split; [done|].
  split; [done|]. cbn in *. split; [|by rewrite Hh]. intros Ho _. destruct o; try done. unfold max_skip in *. lia.
Qed.

Lemma skips_budget {A} (a : A) e p :
  match (skips a e p).1 with Ok _ => errors (skips a e p).2 <= max_skip p | _ => True end.
Proof. by destruct (skips_run a e p) as (o & p' & -> & _ & _ & _ & _ & Hb). Qed.

Hint Resolve tame_ret tame_fail tame_byte tame_full tame_strategy tame_skips : tame.

Lemma tame_skip_try {A B} (m : M (RDBParser St) A) (k : A -> M (RDBParser St) B) (b : error -> B)
  (w : error -> error) : tame m -> (forall a, tame (k a)) ->
  tame (gtry m k (fun err => skips (b err) (w err))).
Proof.
  intros Hm Hk. apply tame_try; [done|done|auto with tame|]. intros e p. apply skips_budget.
Qed.

Lemma tame_LE n : tame (binary_ReadLE n : M (RDBParser St) Z).
Proof. apply tame_bind; auto with tame. Qed.
Lemma tame_BE n : tame (binary_ReadBE n : M (RDBParser St) Z).
Proof. apply tame_bind; auto with tame. Qed.
Hint Resolve tame_LE tame_BE : tame.

Lemma tame_readLength : tame (readLength : M (RDBParser St) Z).
Proof.
  apply tame_bind; [auto with tame|]. intros b0. cbn zeta.
  repeat case_match; auto with tame; apply tame_bind; auto with tame.
Qed.
Hint Resolve tame_readLength : tame.

Lemma tame_readStringData n : tame (readStringData n : M (RDBParser St) bytes).
Proof. unfold readStringData. repeat case_match; auto with tame. apply tame_wrap. auto with tame. Qed.
Hint Resolve tame_readStringData : tame.

Lemma lzfDecompress_returns l n : 0 <= n -> returns (lzfDecompress l n).
Proof.
  intros Hn. unfold lzfDecompress. case_bool_decide; [done|]. destruct (Z.ltb_spec n 0); [lia|].
  destruct (lzf_loop_safe (length l) l n []) as [Hr _]; [lia|cbn; lia|].
  destruct (lzf_loop (length l) l n []); try done. by destruct (_ =? _).
Qed.

(** A length that was read is not negative. *)
Lemma be_value_nonneg l : 0 <= be_value l.
Proof.
  unfold be_value. assert (H : forall z, 0 <= z -> 0 <= foldl (fun z b => 256 * z + bz b) z l); [|by apply H].
  induction l as [|b l IH]; intros z Hz; [done|]. cbn. apply IH. pose proof (bz_range b). lia.
Qed.

Lemma le_value_nonneg l : 0 <= le_value l.
Proof. unfold le_value. induction l as [|b l IH]; cbn; [done|]. pose proof (bz_range b). lia. Qed.

Lemma readLength_nonneg (p p' : RDBParser St) n : readLength p = (Ok n, p') -> 0 <= n.
Proof.
  unfold readLength, binary_ReadBE, binary_ReadLE, gbind. intros H.
  repeat (case_match; simplify_eq; cbn zeta in *);
    try apply be_value_nonneg; try apply le_value_nonneg;
    try (match goal with |- 0 <= bz ?b => pose proof (bz_range b); lia end);
    try (apply Z.land_nonneg; right; lia); try done.
  all: unfold gret, gfail in *; simplify_eq;
    try apply be_value_nonneg; try apply le_value_nonneg;
    try (match goal with |- 0 <= bz ?b => pose proof (bz_range b); lia end);
    try (apply Z.land_nonneg; right; lia).
  apply Z.lor_nonneg. split; [apply Z.shiftl_nonneg, Z.land_nonneg; right; lia|].
  match goal with |- 0 <= bz ?b => pose proof (bz_range b); lia end.
Qed.

Lemma tame_readLZFString : tame (readLZFString : M (RDBParser St) bytes).
Proof.
  unfold readLZFString. apply tame_bind; [apply tame_wrap; auto with tame|]. intros compressedLen.
  apply tame_bind_val; [apply tame_wrap; auto with tame|]. intros n p p' En.
  assert (Hn : 0 <= n).
  { unfold gwrap, gtry in En. destruct (readLength p) as [[v|?|?|] ?] eqn:El; try done.
    injection En as <- _. by eapply readLength_nonneg. }
  apply tame_bind; [apply tame_wrap; auto with tame|]. intros data.
  apply (tame_skip_try _ _ (fun _ => _) (fun err => Errorf _)); [|auto with tame].
  by apply tame_lift, lzfDecompress_returns.
Qed.
Hint Resolve tame_readLZFString : tame.

Lemma tame_readString : tame (readString : M (RDBParser St) bytes).
Proof.
  apply tame_bind; [auto with tame|]. intros b0. cbn zeta.
  repeat case_match; auto with tame; try (apply tame_bind; auto with tame; fail); apply tame_skips.
Qed.
Hint Resolve tame_readString : tame.

End Total.

#[export] Hint Resolve tame_ret tame_fail tame_byte tame_full tame_strategy tame_skips tame_LE tame_BE
  tame_readLength tame_readStringData tame_readLZFString tame_readString : tame.

(** ** Progress *)

Section Progress.
  Context {St : Type}.

(** Every parser state, for what holds whatever the handler does. *)
Abbreviation anyone := (fun _ : St => True).

(** A successful [readString] consumed its first byte. *)
Lemma readString_eats (p p' : RDBParser St) s : readString p = (Ok s, p') ->
  (length (rd_buf (br p')) < length (rd_buf (br p)))%nat.
Proof.
  unfold readString. unfold gbind at 1. destruct (read ReadByte p) as [[b0|?|?|] p1] eqn:E; try done.
  assert (Hlt : (length (rd_buf (br p1)) < length (rd_buf (br p)))%nat).
  { unfold read, ReadByte in E. destruct (rd_buf (br p)) as [|b l] eqn:Eb; [done|].
    injection E as <- <-. cbn. lia. }
  intros H.
  match type of H with ?m p1 = _ => assert (Ht : tame anyone m) end.
  { cbn zeta. repeat case_match; auto with tame; try (apply tame_bind; auto with tame; fail); apply tame_skips. }
  specialize (Ht p1 I). rewrite H in Ht. destruct Ht as (_ & [_ Hle _] & _). cbn in Hle. lia.
Qed.

Lemma eats_fuel (p p' : RDBParser St) : after p p' ->
  (length (rd_buf (br p')) < length (rd_buf (br p)))%nat -> (fuel_left p' < fuel_left p)%nat.
Proof. intros [A _ C] B. unfold fuel_left, max_skip. rewrite A. lia. Qed.

Lemma tame_after {A} (m : M (RDBParser St) A) p o p' : tame anyone m -> m p = (o, p') -> after p p'.
Proof. intros Hm E. specialize (Hm p I). rewrite E in Hm. apply Hm. Qed.

(** A string read and a pure or tame continuation. *)
Lemma readString_progress {B} (k : bytes -> M (RDBParser St) B) p b p' : (forall a, tame anyone (k a)) ->
  gbind readString k p = (Ok b, p') -> (fuel_left p' < fuel_left p)%nat.
Proof.
  intros Hk. unfold gbind. destruct (readString p) as [[s|?|?|] p1] eqn:E; try done. intros E2.
  pose proof (eats_fuel p p1 (tame_after _ _ _ _ (tame_readString anyone) E) (readString_eats _ _ _ E)).
  pose proof (after_fuel _ _ (tame_after _ _ _ _ (Hk s) E2)). lia.
Qed.

Lemma skip_progress {B} (k : bytes -> B) (b0 : B) (w : error -> error) (p p' : RDBParser St) b :
  gtry readString (fun s => gret (k s)) (fun err => skips b0 (w err)) p = (Ok b, p') ->
  (fuel_left p' < fuel_left p)%nat.
Proof.
  unfold gtry. destruct (readString p) as [[s|e|?|] p1] eqn:E; try done.
  - injection 1 as _ <-.
    by apply eats_fuel; [by eapply tame_after; [apply (tame_readString anyone)|]|by eapply readString_eats].
  - intros E2. pose proof (after_fuel _ _ (tame_after _ _ _ _ (tame_readString anyone) E)) as H1.
    destruct (skips_run b0 (w e) p1) as (o & p2 & E3 & _ & [A2 B2 _] & He & _ & Hb). rewrite E2 in E3.
    injection E3 as <- <-. unfold fuel_left, max_skip in *. rewrite A2 in *. lia.
Qed.

End Progress.

(** ** Loops *)

Section Loops.
  Context {St : Type} (Inv : St -> Prop).

Lemma read_items_tame {A} (item : A -> M (RDBParser St) A) n :
  (forall acc, tame Inv (item acc)) ->
  (forall acc p a p', item acc p = (Ok a, p') -> (fuel_left p' < fuel_left p)%nat) ->
  forall fuel i acc p, Inv (hst p) -> (fuel_left p < fuel)%nat ->
  tame_at Inv p (read_items item fuel n i acc p).1 (read_items item fuel n i acc p).2.
Proof.
  intros Ht Hp. induction fuel as [|fuel IH]; intros i acc p HI Hf; [lia|]. cbn [read_items].
  destruct (i <? n); [|by apply tame_ret]. unfold gbind.
  pose proof (Ht acc p HI) as H. destruct (item acc p) as [[a|?|?|] p'] eqn:E; try done.
  eapply tame_at_trans; [exact H|]. apply IH; [apply H|]. specialize (Hp _ _ _ _ E). lia.
Qed.

Lemma tame_loop {A B} (item : A -> M (RDBParser St) A) n acc (k : A -> M (RDBParser St) B) :
  (forall acc, tame Inv (item acc)) ->
  (forall acc p a p', item acc p = (Ok a, p') -> (fuel_left p' < fuel_left p)%nat) ->
  (forall a, tame Inv (k a)) ->
  tame Inv (gbind loop_fuel (fun fuel => gbind (read_items item fuel n 0 acc) k)).
Proof.
  intros Ht Hp Hk p HI.
  assert (E : gbind loop_fuel (fun fuel => gbind (read_items item fuel n 0 acc) k) p =
    gbind (read_items item (S (fuel_left p)) n 0 acc) k p) by done.
  rewrite E. unfold gbind.
  pose proof (read_items_tame item n Ht Hp (S (fuel_left p)) 0 acc p HI ltac:(lia)) as H.
  destruct (read_items item (S (fuel_left p)) n 0 acc p) as [[a|?|?|] p']; try done.
  eapply tame_at_trans; [exact H|apply Hk, H].
Qed.

Lemma tame_loop_end {A} (item : A -> M (RDBParser St) A) n acc :
  (forall acc, tame Inv (item acc)) ->
  (forall acc p a p', item acc p = (Ok a, p') -> (fuel_left p' < fuel_left p)%nat) ->
  tame Inv (gbind loop_fuel (fun fuel => read_items item fuel n 0 acc)).
Proof. intros Ht Hp p HI. apply (read_items_tame item n Ht Hp); [done|]. unfold fuel_left, max_skip. lia. Qed.

(** ** Values and entries *)

Lemma tame_readQuicklist : tame Inv (readQuicklist : M (RDBParser St) (list bytes)).
Proof.
  apply tame_bind; [auto with tame|]. intros n.
  apply (tame_loop_end (fun allElements =>
    gtry readString (fun ziplistData => gret (allElements ++ [ziplistData]))
      (fun err => skips allElements err)) n []).
  - intros acc. apply (tame_skip_try Inv _ _ (fun _ => acc) id); auto with tame.
  - intros acc p a p' E. by eapply (skip_progress (fun s => acc ++ [s]) acc id).
Qed.
Hint Resolve tame_readQuicklist : tame.

Lemma tame_skipStreamData : tame Inv (skipStreamData : M (RDBParser St) (option RDBValue)).
Proof.
  apply tame_bind; [auto with tame|]. intros n.
  apply (tame_loop (fun u : unit => gtry readString (fun _ => gret u) (fun err => skips u err)) n tt).
  - intros u. apply (tame_skip_try Inv _ _ (fun _ => u) id); auto with tame.
  - intros u p a p' E. by eapply (skip_progress (fun _ => u) u id).
  - auto with tame.
Qed.
Hint Resolve tame_skipStreamData : tame.

Lemma tame_skipUnsupportedType t : tame Inv (skipUnsupportedType t : M (RDBParser St) (option RDBValue)).
Proof.
  unfold skipUnsupportedType. destruct (t <? 16); [|destruct (t <? 32)].
  - apply (tame_skip_try Inv readString _ (fun _ => None) (fun err => Errorf _)); auto with tame.
  - apply (tame_skip_try Inv readLength _ (fun _ => None) (fun err => Errorf _)); [auto with tame|]. intros n.
    apply (tame_skip_try Inv (read (ReadFull n)) _ (fun _ => None) (fun err => Errorf _)); auto with tame.
  - intros p HI. unfold canSkipError, get_strategy, gbind. cbn zeta. cbn [errors strategy].
    destruct (Z.leb_spec (errors p + 1) (maxSkippableErrors (strategy p))) as [Hle|Hgt].
    + split; [done|]. split; [split; cbn; done || lia|]. split; [|done]. cbn. unfold max_skip. lia.
    + cbn [strategy]. destruct (requiresStrictParsing (strategy p)) eqn:Es.
      * split; [done|]. split; [split; cbn; done || lia|done].
      * split; [done|]. split; [split; cbn; done || lia|]. split; [|done]. rewrite Es. done.
Qed.
Hint Resolve tame_skipUnsupportedType : tame.

Lemma tame_readValue t : tame Inv (readValue t : M (RDBParser St) (option RDBValue)).
Proof.
  unfold readValue. repeat case_match; auto with tame; apply tame_bind; auto with tame;
    intros n; apply tame_loop; auto with tame.
  1, 3: intros acc; apply tame_bind; auto with tame.
  3: intros acc; apply tame_bind; [auto with tame|]; intros f; apply tame_bind; auto with tame.
  all: intros acc p a p'; apply readString_progress; auto with tame.
  intros f. apply tame_bind; auto with tame.
Qed.
Hint Resolve tame_readValue : tame.

Context (handler : RDBHandler St) (Hh : total_handler Inv handler).

Lemma tame_readAuxField : tame Inv (readAuxField handler).
Proof.
  apply tame_bind; [apply tame_wrap; auto with tame|]. intros k.
  apply tame_bind; [auto with tame|]. intros s. apply tame_bind.
  - apply tame_wrap. destruct (supportsBinaryAux s); apply tame_readString.
  - intros v. apply tame_call, Hh.
Qed.

Lemma tame_readKeyValue t e : tame Inv (readKeyValue handler t e).
Proof.
  apply tame_bind; [apply tame_wrap; auto with tame|]. intros k.
  apply tame_bind; [apply tame_wrap; auto with tame|]. intros [v|]; [|auto with tame].
  apply tame_call, Hh.
Qed.

Lemma tame_parse_opcode op e : tame Inv (parse_opcode handler op e).
Proof.
  unfold parse_opcode. repeat match goal with |- tame Inv (if ?b then _ else _) => destruct b end.
  - auto with tame.
  - apply (tame_skip_try Inv readLength _ (fun _ => Some e) (wrapped _)); [auto with tame|]. intros n.
    apply tame_bind; [apply tame_call, Hh|auto with tame].
  - apply (tame_skip_try Inv (binary_ReadLE 4) _ (fun _ => Some None) (wrapped _)); auto with tame.
  - apply (tame_skip_try Inv (binary_ReadLE 8) _ (fun _ => Some None) (wrapped _)); auto with tame.
  - apply tame_bind; [apply (tame_skip_try Inv readLength _ (fun _ => 0) id); auto with tame|]. intros a.
    apply tame_bind; [apply (tame_skip_try Inv readLength _ (fun _ => 0) id); auto with tame|]. intros b.
    apply tame_bind; [|auto with tame]. destruct (OnResizeDB handler) as [f|] eqn:Ef; [|auto with tame].
    apply tame_call. by eapply total_OnResizeDB.
  - apply tame_bind; [|auto with tame].
    apply (tame_skip_try Inv _ _ (fun _ => tt) (wrapped _)); [apply tame_readAuxField|auto with tame].
  - apply tame_bind; [|auto with tame].
    apply (tame_skip_try Inv _ _ (fun _ => tt) id); [apply tame_readKeyValue|auto with tame].
Qed.

Lemma parse_loop_tame fuel : forall e p, Inv (hst p) -> (fuel_left p < fuel)%nat ->
  tame_at Inv p (parse_loop handler fuel e p).1 (parse_loop handler fuel e p).2.
Proof.
  induction fuel as [|fuel IH]; intros e p HI Hf; [lia|]. cbn [parse_loop].
  unfold gtry. pose proof (tame_byte Inv p HI) as Hb.
  destruct (read ReadByte p) as [[b|err|?|] p1] eqn:E; try done.
  - eapply tame_at_trans; [exact Hb|]. unfold gbind.
    pose proof (tame_parse_opcode (bz b) e p1 ltac:(apply Hb)) as Ho.
    destruct (parse_opcode handler (bz b) e p1) as [[next|?|?|] p2]; try done.
    eapply tame_at_trans; [exact Ho|]. destruct next as [e'|].
    + apply IH; [apply Ho|]. destruct Ho as (_ & Ha & _). pose proof (after_fuel _ _ Ha).
      assert ((fuel_left p1 < fuel_left p)%nat); [|cbn in *; lia].
      apply eats_fuel; [apply Hb|]. unfold read, ReadByte in E.
      destruct (rd_buf (br p)); [done|]. injection E as _ <-. cbn. lia.
    + apply tame_call; [apply Hh|apply Ho].
  - case_bool_decide.
    + assert (Hc : tame Inv (call (OnEnd handler))) by (apply tame_call, Hh).
      specialize (Hc p1 ltac:(apply Hb)). destruct Hb as (_ & Hb & _), Hc as (Hr & Ha & He & Hi).
      split; [done|]. split; [by eapply after_trans|]. split; [|done]. intros Ho Hs.
      assert (p1 = p) as -> by (unfold read, ReadByte in E; destruct p as [[[|] ?] ? ? ?]; cbn in E; congruence).
      by apply He.
    + unfold gbind.
      destruct (skips_run tt (wrapped (bs "failed to read opcode: ") err) p1) as (o & p2 & E2 & Hr & Ha & He & Hst & Hm).
      unfold skips in E2. unfold skip_or_fail. rewrite E2.
      assert (p1 = p) as -> by (unfold read, ReadByte in E; destruct p as [[[|] ?] ? ? ?]; cbn in E; congruence).
      destruct o as [[]|?|?|]; try done;
        [|split; [done|]; split; [done|]; split; [done|cbn; by rewrite Hst]].
      eapply (tame_at_trans Inv _ p2 _ tt).
      * split; [done|]. split; [done|]. split; [|by rewrite Hst]. intros _ _. unfold max_skip in *. lia.
      * apply IH; [by rewrite Hst|]. destruct Ha as [As Ai _]. unfold fuel_left, max_skip in *. rewrite As in *. lia.
Qed.

(** The whole parse: it returns, keeps the invariant, and a success under a strict version has
    skipped no more errors than the version allows. *)
Lemma Parse_tame p o p' : Inv (hst p) -> Parse handler p = (o, p') -> returns o /\ Inv (hst p') /\
  (o = Ok tt -> requiresStrictParsing (strategy p') = true -> errors p' <= Z.max (errors p) (max_skip p')).
Proof.
  intros HI. unfold Parse. unfold gbind at 1.
  pose proof (tame_wrap Inv (bs "failed to read RDB header: ") _ (tame_full Inv 9) p HI) as Hd.
  destruct (gwrap _ (read (ReadFull 9)) p) as [[header|?|?|] p1] eqn:Eh;
    try (destruct Hd as (Hd & _ & _ & Hi); intros [= <- <-]; by split).
  destruct Hd as (_ & _ & _ & Hi).
  assert (Herr : errors p1 = errors p).
  { unfold gwrap, gtry, read in Eh. destruct (ReadFull 9 (br p)) as [[?|?|?|] ?]; cbn in Eh;
      unfold gret, gfail in Eh; by injection Eh as _ <-. }
  destruct (negb _); [intros [= <- <-]; by split|].
  destruct (ParseInt (drop 5 header)) as [v|]; [|intros [= <- <-]; by split].
  destruct (_ <? v); [intros [= <- <-]; by split|].
  set (p2 := mkParser (br p1) (hst p1) (strategy_of v) (errors p1)).
  intros E. change (parse_loop handler (S (fuel_left p2)) None p2 = (o, p')) in E.
  pose proof (parse_loop_tame (S (fuel_left p2)) None p2 Hi ltac:(lia)) as (Hr & [As _ _] & He & Hp).
  rewrite E in Hr, As, He, Hp. cbn [fst snd] in *. split; [done|]. split; [done|]. intros -> Hs. rewrite As in Hs.
  specialize (He I Hs). unfold max_skip in *. rewrite As. cbn in He. by rewrite Herr in He.
Qed.

Lemma ParseRDB_total r h : Inv h -> returns (ParseRDB handler r h).1 /\ Inv (ParseRDB handler r h).2.
Proof.
  intros Hi. unfold ParseRDB. destruct (Parse handler (NewRDBParser r h)) as [o p] eqn:E. cbn.
  by destruct (Parse_tame (NewRDBParser r h) _ _ Hi E) as (H1 & H2 & _).
Qed.

End Loops.
