(* ===== verification/RdbSpec.v ===== *)
(** * What the RDB parser guarantees *)

From Stdlib Require Import ZArith Lia String.
From stdpp Require Import base list list_numbers gmap.
From S2P Require Import Prelude GoLib RespTypes RespReader Lzf Rdb RdbFormat RdbProofs RdbTotal.

(** ** A handler that records the calls it gets *)

Inductive Call : Type :=
| CallDB (n : Z)
| CallKey (key : bytes) (value : RDBValue) (expiry : option Z)
| CallAux (key value : bytes)
| CallEnd.

Definition record_call (c : Call) : M (list Call) unit := fun l => (Ok tt, l ++ [c]).

Definition recorder : RDBHandler (list Call) :=
  mkHandler (fun n => record_call (CallDB n)) (fun k v e => record_call (CallKey k v e))
    (fun k v => record_call (CallAux k v)) (record_call CallEnd) None.

Lemma recorder_total : total_handler (fun _ => True) recorder.
Proof. by split. Qed.

(** A compressed string: "abcabcabc" as a literal and an overlapping copy. *)
Definition sample_lzf : rstring := SLzf [Literal (bs "abc"); BackRef 6 3] (bs "abcabcabc").

Lemma sample_expands : expands [] [Literal (bs "abc"); BackRef 6 3] (bs "abcabcabc").
Proof.
  apply expands_literal. apply (expands_backref (bs "abc") 6 3 (bs "abcabc")); [done..| |constructor].
  intros i Hi. do 6 (destruct i as [|i]; [done|]). change (length (bs "abcabc")) with 6%nat in Hi. lia.
Qed.

Lemma sample_lzf_readable : readable_rstring sample_lzf.
Proof.
  split; [|split; vm_compute; congruence]. split; [done|]. split; [by repeat constructor|]. split; [apply sample_expands|].
  split; vm_compute; congruence.
Qed.

(** The last entries: a sorted set as a listpack, a list as a quicklist, the number -1. *)
Definition sample_file : list ritem := [
  ItemAux (SRaw (bs "redis-ver")) (SRaw (bs "7.2.0"));
  ItemDB 0;
  ItemResize 5 1;
  ItemKey (ExpiryMs 1700000000123) (SRaw (bs "k")) (VString sample_lzf);
  ItemKey NoExpiry (SRaw (bs "l")) (VList [SRaw (bs "x"); SInt32 (-5)]);
  ItemKey NoExpiry (SRaw (bs "z")) (VBlob 17 (SRaw (bs "listpack")));
  ItemKey NoExpiry (SRaw (bs "q")) (VQuicklist [SRaw (bs "ziplist")]);
  ItemKey NoExpiry (SRaw (bs "n")) (VString (SInt8 (-1)))].

Lemma raw_readable d : (length d <=? 100)%nat = true -> readable_rstring (SRaw d).
Proof. intros Hd%Nat.leb_le. split; cbn; lia. Qed.

Lemma key_readable e k v : wf_rexpiry e -> readable_rstring (SRaw k) -> readable_rvalue v ->
  readable_ritem (ItemKey e (SRaw k) v).
Proof. intros He Hk Hv. split; [|done]. split; [done|]. split; [apply Hk|apply Hv]. Qed.

Lemma strings_readable l : (length l <=? 100)%nat = true -> Forall readable_rstring l ->
  Forall wf_rstring l /\ Z.of_nat (length l) < 2 ^ 64.
Proof. intros Hl%Nat.leb_le Hr. split; [eapply Forall_impl; [done|]; by intros s []|lia]. Qed.

Lemma sample_file_readable : Forall readable_ritem sample_file.
Proof.
  pose proof sample_lzf_readable as Hl. pose proof raw_readable as Hraw.
  assert (H5 : readable_rstring (SInt32 (-5))) by (split; [cbn; lia|done]).
  assert (H1 : readable_rstring (SInt8 (-1))) by (split; [cbn; lia|done]).
  unfold sample_file. repeat apply Forall_cons_2; [..|apply Forall_nil_2].
  - split; [split|split]; by apply Hraw.
  - by split.
  - by split; split.
  - apply key_readable; [done|by apply Hraw|]. split; [apply Hl|done].
  - apply key_readable; [done|by apply Hraw|].
    assert (Forall readable_rstring [SRaw (bs "x"); SInt32 (-5)])
      by (apply Forall_cons_2; [by apply Hraw|by apply Forall_singleton]).
    split; [by apply strings_readable|]. by split.
  - apply key_readable; [done|by apply Hraw|]. split; [split; [unfold blob_types; set_solver|by apply Hraw]|]. by split.
  - apply key_readable; [done|by apply Hraw|].
    assert (Forall readable_rstring [SRaw (bs "ziplist")]) by (by apply Forall_singleton, Hraw).
    split; [by apply strings_readable|]. by split.
  - apply key_readable; [done|by apply Hraw|]. split; [apply H1|done].
Qed.

(** ** Claims *)

(** C28: decompression inverts the LZF format: a sequence of well-formed literal
    runs and back references (also overlapping ones) that stands for some data
    is decompressed to that data. *)
Theorem lzf_decompresses ts data : ts <> [] -> Forall wf_token ts -> expands [] ts data ->
  lzfDecompress (encode_tokens ts) (Z.of_nat (length data)) = Ok data.
Proof. apply lzfDecompress_tokens. Qed.

Lemma lzf_decompresses_witness :
  lzfDecompress (encode_tokens [Literal (bs "abc"); BackRef 6 3]) 9 = Ok (bs "abcabcabc").
Proof.
  apply (lzf_decompresses [Literal (bs "abc"); BackRef 6 3] (bs "abcabcabc"));
    [done|by repeat constructor|apply sample_expands].
Defined.

(** Decompression of any bytes returns, never reads or writes outside the
    buffer, and a success has exactly the announced length, except that empty
    input is accepted as empty output whatever length was announced. *)
Theorem lzf_total compressed n : 0 <= n ->
  match lzfDecompress compressed n with
  | Ok out => if bool_decide (compressed = []) then out = [] else Z.of_nat (length out) = n
  | Err _ => compressed <> []
  | Panic _ | OutOfFuel => False
  end.
Proof.
  intros Hn. unfold lzfDecompress. case_bool_decide as Hc; [done|]. destruct (Z.ltb_spec n 0); [lia|].
  destruct (lzf_loop_safe (length compressed) compressed n []) as [Hr _]; [lia|cbn; lia|].
  destruct (lzf_loop (length compressed) compressed n []) as [out|e|p|]; try done.
  by destruct (Z.eqb_spec (Z.of_nat (length out)) n).
Qed.

Lemma lzf_total_witness :
  match lzfDecompress [zb 255; zb 1; zb 2] 40 with
  | Ok out => if bool_decide ([zb 255; zb 1; zb 2] = []) then out = [] else Z.of_nat (length out) = 40
  | Err _ => [zb 255; zb 1; zb 2] <> []
  | Panic _ | OutOfFuel => False
  end.
Proof. apply lzf_total. lia. Defined.

(** C21: parsing an RDB file of any supported version whose entries the parser can read
    ([readable_ritem]) calls the handler for exactly these entries, in order, with the
    decoded keys, values and expiries, and then once for the end; whatever follows the
    end is ignored. The format is the one Redis writes, and readable are the auxiliary
    fields, the databases, the sizes and the keys whose plain strings have at most
    100000 bytes and whose other lengths fit in 32 bits: strings, lists, sets and
    hashes; quicklists of ziplists, delivered node by node; and the compact encodings
    of types 9 to 13, 16 and 17, the last two not compressed, which are skipped. Not
    readable are larger strings and the types 3, 5, 18 and 20. Every string is
    delivered as the master holds it, except that a negative integer of 8 or 16 bits
    comes out as unsigned ([rstring_read]). *)
Theorem rdb_file_parsed {St} (handler : RDBHandler St) version items trailer e h h' :
  0 <= version <= 12 -> Forall readable_ritem items -> run_items handler items h = (Ok tt, h') ->
  ParseRDB handler (mkReader (encode_file version items trailer) e) h = (Ok tt, h').
Proof. apply Parse_file. Qed.

Lemma rdb_file_parsed_witness :
  ParseRDB recorder (mkReader (encode_file 11 sample_file (bs "checksum")) EOF) [] =
  (Ok tt, [CallAux (bs "redis-ver") (bs "7.2.0"); CallDB 0;
           CallKey (bs "k") (RDBString (bs "abcabcabc")) (Some 1700000000123000000);
           CallKey (bs "l") (RDBList [bs "x"; bs "-5"]) None; CallKey (bs "q") (RDBList [bs "ziplist"]) None;
           CallKey (bs "n") (RDBString (bs "255")) None; CallEnd]).
Proof. apply rdb_file_parsed; [lia|apply sample_file_readable|reflexivity]. Defined.

(** C30: with a handler whose methods return and keep an invariant of the
    handler's state, parsing returns on every input stream and keeps it too: no
    panic, no endless loop, whatever lengths the stream announces. *)
Theorem rdb_parse_total {St} (Inv : St -> Prop) (handler : RDBHandler St) r h :
  total_handler Inv handler -> Inv h ->
  returns (ParseRDB handler r h).1 /\ Inv (ParseRDB handler r h).2.
Proof. intros Hh. by apply ParseRDB_total. Qed.

Lemma rdb_parse_total_witness :
  returns (ParseRDB recorder (mkReader (bs "REDIS0012" ++ [zb 1; zb 1; zb 65; zb 128; zb 255]) EOF) []).1 /\ True.
Proof. apply (rdb_parse_total (fun _ => True)); [apply recorder_total|done]. Defined.

(** A success on a file of version 9 skipped no error, one on version 10 at
    most one: the strict strategies keep their error budget. *)
Theorem rdb_strict_budget {St} (Inv : St -> Prop) (handler : RDBHandler St) r h p :
  total_handler Inv handler -> Inv h -> Parse handler (NewRDBParser r h) = (Ok tt, p) -> requiresStrictParsing (strategy p) = true ->
  0 <= maxSkippableErrors (strategy p) -> errors p <= maxSkippableErrors (strategy p).
Proof.
  intros Hh Hi E Hs Hm. destruct (Parse_tame Inv handler Hh (NewRDBParser r h) _ _ Hi E) as (_ & _ & H). specialize (H eq_refl Hs).
  unfold max_skip in H. cbn in H. lia.
Qed.

Lemma rdb_strict_budget_witness : errors
  (Parse recorder (NewRDBParser (mkReader (encode_file 10 sample_file [zb 250]) EOF) [])).2 <= 1.
Proof.
  apply (rdb_strict_budget (fun _ => True) recorder (mkReader (encode_file 10 sample_file [zb 250]) EOF) []);
    [apply recorder_total|done|by vm_compute|by vm_compute|vm_compute; congruence].
Defined.

(** A negative integer in 8 bits comes out 256 too large. *)
Theorem rdb_int8_read_unsigned {St} n rest e (h : St) st er : -128 <= n < 0 ->
  readString (mkParser (mkReader (encode_rstring (SInt8 n) ++ rest) e) h st er) =
    (Ok (FormatInt (n + 256)), mkParser (mkReader rest e) h st er).
Proof.
  intros Hn. assert (Hr : readable_rstring (SInt8 n)) by (split; [cbn; lia|done]).
  rewrite (parses_rstring _ Hr). cbn [rstring_read]. do 3 f_equal.
  symmetry. apply (Z.mod_unique _ _ (-1)); lia.
Qed.

Lemma rdb_int8_read_unsigned_witness :
  readString (mkParser (mkReader ([zb 192; zb (-1)] ++ []) EOF) tt (strategy_of 11) 0) =
    (Ok (bs "255"), mkParser (mkReader [] EOF) tt (strategy_of 11) 0).
Proof. apply (rdb_int8_read_unsigned (-1) []). lia. Defined.

(** A plain string of more than 100000 bytes, as Redis writes it, is not read. *)
Theorem rdb_large_string_fails {St} data rest e (h : St) st er :
  100000 < Z.of_nat (length data) < 2 ^ 32 ->
  exists err p, readString (mkParser (mkReader (encode_rstring (SRaw data) ++ rest) e) h st er) = (Err err, p).
Proof.
  intros Hn. cbn [encode_rstring]. set (n := Z.of_nat (length data)) in *. unfold encode_length.
  destruct (Z.ltb_spec n 64); [lia|]. destruct (Z.ltb_spec n 16384); [lia|]. destruct (Z.ltb_spec n (2 ^ 32)); [|lia].
  rewrite <- app_assoc. cbn [app]. do 2 eexists.
  change (readString (mkParser (mkReader (zb 128 :: encode_be 4 n ++ data ++ rest) e) h st er)) with
    ((let! length := binary_ReadBE 4 in readStringData length)
       (mkParser (mkReader (encode_be 4 n ++ data ++ rest) e) h st er)).
  erewrite gbind_ok by (apply (parses_be 4 n); cbn; lia). unfold readStringData.
  destruct (Z.eqb_spec n 0); [lia|]. destruct (Z.ltb_spec 100000 n); [|lia]. reflexivity.
Qed.

Lemma rdb_large_string_fails_witness : exists err p,
  readString (mkParser (mkReader (encode_rstring (SRaw (replicate (Z.to_nat 100001) (zb 65))) ++ []) EOF) tt (strategy_of 11) 0) = (Err err, p).
Proof. apply rdb_large_string_fails. rewrite length_replicate. lia. Defined.
