(* ===== verification/StorageIface.v ===== *)
(** * The storage interface of the replication client (storage/storage.go)

    The client keeps a [storage.Storage] value and uses four of its methods.
    [StorageOps] is that part of the interface, [StorageLaws] what the client may
    rely on, stated on the abstract store; [MemoryStorage] implements it. *)

From Stdlib Require Import ZArith Lia String.
From stdpp Require Import base list list_numbers gmap fin_maps.
From S2P Require Import Prelude GoLib StorageTypes Matching Memory MemoryInv StoreSpec MemoryOps.
From S2P Require Import MemoryBulk MemoryEvict MemoryCleanup MemoryScan MemorySpec.

(** The methods the client calls; [Set] takes the time of the call. *)
Class StorageOps (St : Type) : Type := {
  storage_Set : Z -> bytes -> bytes -> option Z -> M St unit;
  storage_Del : list bytes -> M St Z;
  storage_SelectDB : Z -> M St unit;
  storage_CurrentDB : M St Z
}.

Class StorageLaws (St : Type) `{StorageOps St} : Type := {
  st_wf : St -> Prop;
  st_abs : St -> AStore;
  law_Set s now k v e : st_wf s -> exists s', storage_Set now k v e s = (Ok tt, s') /\ st_wf s' /\
    astep now (st_abs s) (OpSet k v e) RUnit (st_abs s');
  law_Del s ks : st_wf s -> exists n s', storage_Del ks s = (Ok n, s') /\ st_wf s' /\
    astep 0 (st_abs s) (OpDel ks) (RInt n) (st_abs s');
  law_SelectDB s db : st_wf s -> exists o s', storage_SelectDB db s = (o, s') /\ st_wf s' /\
    match o with
    | Ok _ => astep 0 (st_abs s) (OpSelectDB db) RUnit (st_abs s')
    | Err e => astep 0 (st_abs s) (OpSelectDB db) (RErr e) (st_abs s')
    | _ => False
    end;
  law_CurrentDB s : st_wf s -> storage_CurrentDB s = (Ok (acur (st_abs s)), s)
}.

Section MemoryInstance.
  Context `{Hash : XXHash} `{Runtime : GoRuntime}.

#[global] Instance memory_ops : StorageOps MemoryStorage := {|
  storage_Set := Set_;
  storage_Del := Del;
  storage_SelectDB := SelectDB;
  storage_CurrentDB := CurrentDB
|}.

Lemma implements_unit now op s (m : Mem unit) : run_op now op = reply (fun _ => RUnit) m ->
  implements now op s -> exists o s', m s = (o, s') /\ wf s' /\
    match o with
    | Ok _ => astep now (abstract s) op RUnit (abstract s')
    | Err e => astep now (abstract s) op (RErr e) (abstract s')
    | _ => False
    end.
Proof.
  intros E (r & s' & Er & [Hwf _] & Hstep). rewrite E in Er. unfold reply, gtry in Er.
  destruct (m s) as [[[]|e|p|] s1]; try done; injection Er as <- <-; eauto.
Qed.

#[global] Program Instance memory_laws : StorageLaws MemoryStorage := {|
  st_wf := wf;
  st_abs := abstract
|}.
Next Obligation.
  intros s now k v e Hwf. destruct (Set_implements now s k v e Hwf) as (r & s' & E & [Hwf' _] & Hstep).
  destruct (Set_ok now s k v e Hwf) as (s1 & E1 & _). cbn [run_op] in E. unfold reply in E.
  rewrite (gtry_ok _ _ _ _ _ _ E1) in E. injection E as <- <-. eauto.
Qed.
Next Obligation.
  intros s ks Hwf. destruct (Del_implements 0 s ks Hwf) as (r & s' & E & [Hwf' _] & Hstep).
  destruct (Del_ok s ks Hwf) as (dl & s1 & E1 & _). cbn [run_op] in E. unfold reply in E.
  rewrite (gtry_ok _ _ _ _ _ _ E1) in E. injection E as <- <-. eauto.
Qed.
Next Obligation.
  intros s db Hwf. by apply (implements_unit 0 (OpSelectDB db)), SelectDB_implements.
Qed.
Next Obligation. done. Qed.

End MemoryInstance.

(** ** Deterministic steps

    Without a memory limit [Set] evicts nothing. *)

Definition unlimited (a : AStore) : Prop := alimit a <= 0.

Definition aset (now : Z) (a : AStore) (k v : bytes) (e : option Z) : AStore :=
  with_selected a (<[k := mkStored ValueTypeString (StringValue v) e now]> (selected a)).

Definition adel (a : AStore) (ks : list bytes) : AStore := with_selected a (without ks (selected a)).

Definition aselect (a : AStore) (db : Z) : AStore :=
  mkAStore (partial_alter (fun o => Some (default ∅ o)) db (adbs a)) db (alimit a).

Lemma astep_set now a k v e r a' : unlimited a -> astep now a (OpSet k v e) r a' -> a' = aset now a k v e.
Proof.
  intros Hu [_ H]. unfold unlimited in Hu. destruct (Z.ltb_spec 0 (alimit a)); [lia|]. done.
Qed.

Lemma aset_unlimited now a k v e : unlimited a -> unlimited (aset now a k v e).
Proof. done. Qed.

Lemma astep_select a db : 0 <= db <= 15 -> forall r a', astep 0 a (OpSelectDB db) r a' ->
  r = RUnit /\ a' = aselect a db.
Proof.
  intros Hdb r a' H. cbn [astep] in H.
  destruct (Z.ltb_spec db 0), (Z.ltb_spec 15 db); try lia. done.
Qed.
