(* ===== verification/RdbLoad.v ===== *)
(** * Loading an RDB file into a storage (replication/client.go)

    The load statistics, the batching handler [rdbStorageHandler], the chunk
    aggregator and the reader over collected chunks. Calls to the logger only
    write log lines and are left out; what decides them is kept. *)

From Stdlib Require Import ZArith Lia String.
From stdpp Require Import base list list_numbers gmap.
From S2P Require Import Prelude GoLib RespTypes RespReader StorageTypes Lzf Rdb StoreSpec StorageIface.

(** ** Load statistics *)

(** [type DatabaseStats struct] and [type RDBLoadStats struct]. *)
Record DatabaseStats : Type := mkDBStats { ds_Keys : Z; TypeCounts : gmap bytes Z; ds_ErrorCount : Z }.

Record RDBLoadStats : Type := mkLoadStats {
  StartTime : Z;
  TotalKeys : Z;
  ProcessedKeys : Z;
  ErrorCount : Z;
  DBStats : gmap Z DatabaseStats;
  LogBatchSize : Z;
  LastLogTime : Z;
  LogInterval : Z
}.

Definition NewRDBLoadStats (now : Z) : RDBLoadStats :=
  mkLoadStats now 0 0 0 ∅ 100 now (2 * Second).

Definition RecordKey (now db : Z) (keyType : bytes) (s : RDBLoadStats) : RDBLoadStats :=
  let processed := ProcessedKeys s + 1 in
  let d := default (mkDBStats 0 ∅ 0) (DBStats s !! db) in
  let d' := mkDBStats (ds_Keys d + 1)
              (<[keyType := default 0 (TypeCounts d !! keyType) + 1]> (TypeCounts d)) (ds_ErrorCount d) in
  let shouldLog := (Z.rem processed (LogBatchSize s) =? 0) || (LogInterval s <=? now - LastLogTime s) in
  mkLoadStats (StartTime s) (TotalKeys s) processed (ErrorCount s) (<[db := d']> (DBStats s))
    (LogBatchSize s) (if shouldLog then now else LastLogTime s) (LogInterval s).

Definition RecordError (db : Z) (s : RDBLoadStats) : RDBLoadStats :=
  mkLoadStats (StartTime s) (TotalKeys s) (ProcessedKeys s) (ErrorCount s + 1)
    (alter (fun d => mkDBStats (ds_Keys d) (TypeCounts d) (ds_ErrorCount d + 1)) db (DBStats s))
    (LogBatchSize s) (LastLogTime s) (LogInterval s).

(** ** The storage handler *)

(** [type rdbStorageHandler struct]; [h_cap] is the capacity of the batch slices. *)
Record rdbStorageHandler (St : Type) : Type := mkStorageHandler {
  h_storage : St;
  h_databases : gset Z;
  h_currentDB : Z;
  h_stats : RDBLoadStats;
  batchSize : Z;
  keyBatch : list bytes;
  valueBatch : list bytes;
  expiryBatch : list (option Z);
  h_cap : Z
}.
Arguments mkStorageHandler {St}.
Arguments h_storage {St} r.
Arguments h_databases {St} r.
Arguments h_currentDB {St} r.
Arguments h_stats {St} r.
Arguments batchSize {St} r.
Arguments keyBatch {St} r.
Arguments valueBatch {St} r.
Arguments expiryBatch {St} r.
Arguments h_cap {St} r.

(** [len(databases) > 0] and the lookup: whether a database is replicated. *)
Definition db_allowed (databases : gset Z) (db : Z) : bool :=
  bool_decide (databases = ∅) || bool_decide (db ∈ databases).

Definition key_type (v : RDBValue) : bytes :=
  match v with
  | RDBString _ => bs "string"
  | RDBHash _ => bs "hash"
  | RDBList _ => bs "list"
  | RDBSet _ => bs "set"
  end.

Section Handler.
  Context {St : Type} `{StorageOps St} (now : Z).

Abbreviation RH := (rdbStorageHandler St).

Definition newRDBStorageHandler (storage : St) (databases : gset Z) (stats : RDBLoadStats) : RH :=
  mkStorageHandler storage databases 0 stats 100 [] [] [] 100.

Definition on_storage {A} (m : M St A) : M RH A := fun h =>
  let '(o, s) := m (h_storage h) in
  (o, mkStorageHandler s (h_databases h) (h_currentDB h) (h_stats h) (batchSize h) (keyBatch h)
        (valueBatch h) (expiryBatch h) (h_cap h)).

Definition set_current (db : Z) : M RH unit := gmodify (fun h =>
  mkStorageHandler (h_storage h) (h_databases h) db (h_stats h) (batchSize h) (keyBatch h)
    (valueBatch h) (expiryBatch h) (h_cap h)).

Definition set_stats (f : RDBLoadStats -> RDBLoadStats) : M RH unit := gmodify (fun h =>
  mkStorageHandler (h_storage h) (h_databases h) (h_currentDB h) (f (h_stats h)) (batchSize h)
    (keyBatch h) (valueBatch h) (expiryBatch h) (h_cap h)).

(** The three slices; [append] keeps or grows the capacity. *)
Definition set_batch (ks vs : list bytes) (es : list (option Z)) (cap : Z) : M RH unit := gmodify (fun h =>
  mkStorageHandler (h_storage h) (h_databases h) (h_currentDB h) (h_stats h) (batchSize h)
    ks vs es cap).

Definition flush_one (i : nat) : M RH unit :=
  let! h := gget in
  match keyBatch h !! i, valueBatch h !! i, expiryBatch h !! i with
  | Some k, Some v, Some e =>
      gtry (on_storage (storage_Set now k v e)) gret
        (fun err => set_stats (RecordError (h_currentDB h)))
  | _, _, _ => fun h => (Panic (bs "index out of range"), h)
  end.

Definition flushBatch : M RH unit :=
  let! h := gget in
  if bool_decide (length (keyBatch h) = 0%nat) then gret tt
  else
    gfor flush_one (seq 0 (length (keyBatch h))) ;;!
    set_batch [] [] [] (h_cap h).

Definition handler_OnDatabase (index : Z) : M RH unit :=
  flushBatch ;;!
  set_current index ;;!
  let! h := gget in
  if db_allowed (h_databases h) index then on_storage (storage_SelectDB index) else gret tt.

Definition handler_OnKey (key : bytes) (value : RDBValue) (expiry : option Z) : M RH unit :=
  let! h := gget in
  if negb (db_allowed (h_databases h) (h_currentDB h)) then gret tt
  else
    set_stats (RecordKey now (h_currentDB h) (key_type value)) ;;!
    match value with
    | RDBString v =>
        let ks := keyBatch h ++ [key] in
        set_batch ks (valueBatch h ++ [v]) (expiryBatch h ++ [expiry])
          (Z.max (h_cap h) (Z.of_nat (length ks))) ;;!
        if batchSize h <=? Z.of_nat (length ks) then flushBatch else gret tt
    | _ => gret tt
    end.

Definition handler_OnAux (key value : bytes) : M RH unit := gret tt.

Definition handler_OnResizeDB (dbSize expiresSize : Z) : M RH unit :=
  let! h := gget in
  let capacity := if batchSize h <? dbSize then batchSize h else dbSize in
  if h_cap h <? capacity then set_batch [] [] [] capacity else gret tt.

Definition handler_OnEnd : M RH unit := flushBatch.

Definition storage_handler : RDBHandler RH :=
  mkHandler handler_OnDatabase handler_OnKey handler_OnAux handler_OnEnd (Some handler_OnResizeDB).

End Handler.

(** ** Chunks *)

(** [type rdbChunkAggregator struct] *)
Record rdbChunkAggregator : Type := mkAggregator {
  chunkCount : Z; agg_totalSize : Z; logThreshold : Z; sizeThreshold : Z
}.

Definition newRDBChunkAggregator : rdbChunkAggregator := mkAggregator 0 0 10 50000.

(** The new aggregator and whether progress is logged. *)
Definition addChunk (size : Z) (a : rdbChunkAggregator) : rdbChunkAggregator * bool :=
  let a' := mkAggregator (chunkCount a + 1) (agg_totalSize a + size) (logThreshold a) (sizeThreshold a) in
  (a', (Z.rem (chunkCount a') (logThreshold a') =? 0) || (Z.rem (agg_totalSize a') (sizeThreshold a') =? 0)).

(** [type rdbStreamBuffer struct] *)
Record rdbStreamBuffer : Type := mkStreamBuffer {
  chunks : list bytes; totalSize : Z; pos : Z; chunkIdx : nat; chunkPos : nat
}.

(** The copy loop of [Read]: [want] is what is left of the buffer, [got] what was
    copied. Every iteration finishes the buffer or leaves a chunk, or steps over
    a finished one. *)
Fixpoint read_loop (fuel : nat) (want : nat) (got : bytes) (r : rdbStreamBuffer)
  : outcome bytes * rdbStreamBuffer :=
  match want with
  | O => (Ok got, r)
  | _ =>
      match chunks r !! chunkIdx r with
      | None => (Ok got, r)
      | Some currentChunk =>
          match fuel with
          | O => (OutOfFuel, r)
          | S fuel' =>
              if decide (length currentChunk <= chunkPos r)%nat then
                read_loop fuel' want got
                  (mkStreamBuffer (chunks r) (totalSize r) (pos r) (S (chunkIdx r)) 0)
              else
                let remaining := (length currentChunk - chunkPos r)%nat in
                let toCopy := if decide (remaining < want)%nat then remaining else want in
                read_loop fuel' (want - toCopy) (got ++ take toCopy (drop (chunkPos r) currentChunk))
                  (mkStreamBuffer (chunks r) (totalSize r) (pos r + Z.of_nat toCopy) (chunkIdx r)
                     (chunkPos r + toCopy))
          end
      end
  end.

(** [Read(p)] with a buffer of [n] bytes. *)
Definition StreamRead (n : nat) : M rdbStreamBuffer bytes := fun r =>
  if decide (length (chunks r) <= chunkIdx r)%nat then (Err EOF, r)
  else
    match read_loop (2 * (length (chunks r) - chunkIdx r) + 1) n [] r with
    | (Ok [], r') => (Err EOF, r')
    | x => x
    end.

(** The callback of [performFullSync] on a chunk, with the aggregator. *)
Definition collect_chunk (chunk : option bytes) : M (rdbStreamBuffer * rdbChunkAggregator) unit :=
  fun '(b, agg) =>
  match chunk with
  | None => (Ok tt, (b, agg))
  | Some c =>
      (Ok tt, (mkStreamBuffer (chunks b ++ [c]) (totalSize b + Z.of_nat (length c)) (pos b)
                 (chunkIdx b) (chunkPos b),
               (addChunk (Z.of_nat (length c)) agg).1))
  end.
