(* ===== verification/RdbLoadSpec.v ===== *)
(** * What loading an RDB file guarantees *)

From Stdlib Require Import ZArith Lia String.
From stdpp Require Import base list list_numbers gmap.
From S2P Require Import Prelude GoLib RespTypes RespReader StorageTypes Memory MemoryInv Lzf Rdb.
From S2P Require Import RdbFormat RdbProofs RdbTotal RdbSpec StoreSpec StorageIface RdbLoad StorageSpec.

(** ** The effect of a file, without batches *)

(** The store and the database the file is in, after one entry: a string of a
    replicated database is set in the selected database, as the parser reads it, a
    replicated database is selected; everything else changes nothing. *)
Definition load_item (now : Z) (filt : gset Z) (x : AStore * Z) (i : ritem) : AStore * Z :=
  let '(a, cur) := x in
  match i with
  | ItemDB n => (if db_allowed filt n then aselect a n else a, n)
  | ItemKey e k v =>
      match rvalue_read v with
      | Some (RDBString d) =>
          (if db_allowed filt cur then aset now a (rstring_read k) d (rexpiry_value e) else a, cur)
      | _ => (a, cur)
      end
  | _ => (a, cur)
  end.

(** A replicated database number is one the storage accepts. *)
Definition loadable (filt : gset Z) (i : ritem) : Prop :=
  match i with ItemDB n => db_allowed filt n = true -> 0 <= n <= 15 | _ => True end.

Section Loading.
  Context {St : Type} `{Laws : StorageLaws St} (now : Z).

(** The store once the pending batch is written. *)
Definition batch (h : rdbStorageHandler St) : list (bytes * bytes * option Z) :=
  zip (zip (keyBatch h) (valueBatch h)) (expiryBatch h).
Definition pending_store (h : rdbStorageHandler St) : AStore :=
  foldl (fun a '(k, v, e) => aset now a k v e) (st_abs (h_storage h)) (batch h).

(** What every call keeps, with or without a memory limit. *)
Record handler_inv (h : rdbStorageHandler St) : Prop := {
  hi_wf : st_wf (h_storage h);
  hi_values : length (valueBatch h) = length (keyBatch h);
  hi_expiries : length (expiryBatch h) = length (keyBatch h)
}.

Record handler_ok (h : rdbStorageHandler St) : Prop := {
  ho_wf : st_wf (h_storage h);
  ho_unlimited : unlimited (st_abs (h_storage h));
  ho_values : length (valueBatch h) = length (keyBatch h);
  ho_expiries : length (expiryBatch h) = length (keyBatch h);
  ho_batch : batchSize h = 100;
  ho_cap : 100 <= h_cap h
}.

(** The handler state [h] stands for the store [a] in database [cur]. *)
Record stands_for (filt : gset Z) (h : rdbStorageHandler St) (a : AStore) (cur : Z) : Prop := {
  sf_ok : handler_ok h;
  sf_store : pending_store h = a;
  sf_cur : h_currentDB h = cur;
  sf_filter : h_databases h = filt
}.

Lemma foldl_aset_unlimited l a : unlimited a ->
  unlimited (foldl (fun a '(k, v, e) => aset now a k v e) a l).
Proof. revert a. induction l as [|[[k v] e] l IH]; intros a Ha; [done|]. by apply IH. Qed.

Lemma handler_ok_inv h : handler_ok h -> handler_inv h.
Proof. by intros []. Qed.

Lemma batch_lookup h i : handler_inv h -> (i < length (keyBatch h))%nat -> exists k v e,
  keyBatch h !! i = Some k /\ valueBatch h !! i = Some v /\ expiryBatch h !! i = Some e /\
  batch h !! i = Some (k, v, e).
Proof.
  intros [_ Hv He] Hi.
  destruct (lookup_lt_is_Some_2 (keyBatch h) i) as [k Ek]; [done|].
  destruct (lookup_lt_is_Some_2 (valueBatch h) i) as [v Ev]; [lia|].
  destruct (lookup_lt_is_Some_2 (expiryBatch h) i) as [e Ee]; [lia|].
  exists k, v, e. do 3 (split; [done|]). unfold batch. rewrite !lookup_zip_with, Ek, Ev, Ee. done.
Qed.

Lemma batch_length h : handler_ok h -> length (batch h) = length (keyBatch h).
Proof. intros [_ _ Hv He _ _]. unfold batch. rewrite !length_zip_with. lia. Qed.

Definition with_storage (h : rdbStorageHandler St) (s : St) : rdbStorageHandler St :=
  mkStorageHandler s (h_databases h) (h_currentDB h) (h_stats h) (batchSize h) (keyBatch h)
    (valueBatch h) (expiryBatch h) (h_cap h).

Lemma flush_one_ok h i s : handler_inv h -> (i < length (keyBatch h))%nat -> st_wf s ->
  exists k v e s', batch h !! i = Some (k, v, e) /\
    flush_one now i (with_storage h s) = (Ok tt, with_storage h s') /\ st_wf s' /\
    (unlimited (st_abs s) -> st_abs s' = aset now (st_abs s) k v e).
Proof.
  intros Hok Hi Hs. destruct (batch_lookup h i Hok Hi) as (k & v & e & Ek & Ev & Ee & Eb).
  destruct (law_Set s now k v e Hs) as (s' & E & Hs' & Hstep).
  exists k, v, e, s'. split; [done|]. split; [|split; [done|intros Hu; by eapply astep_set]].
  unfold flush_one, gget, gbind. cbn [keyBatch valueBatch expiryBatch with_storage].
  rewrite Ek, Ev, Ee. unfold gtry, on_storage. cbn [h_storage with_storage]. by rewrite E.
Qed.

Lemma flushBatch_ok filt h a cur : stands_for filt h a cur -> exists h',
  flushBatch now h = (Ok tt, h') /\ stands_for filt h' a cur /\ keyBatch h' = [] /\ h_cap h' = h_cap h.
Proof.
  intros [Hok Ha Hc Hf]. unfold flushBatch, gget, gbind at 1. case_bool_decide as Hz.
  { exists h. split; [done|]. split; [by split|]. by destruct (keyBatch h). }
  unfold gfor.
  destruct (gfold_ok (fun (pre : list nat) (_ : unit) h1 => exists s, h1 = with_storage h s /\
    st_wf s /\ st_abs s = foldl (fun a '(k, v, e) => aset now a k v e) (st_abs (h_storage h))
      (take (length pre) (batch h)))
    (fun _ i => flush_one now i) (seq 0 (length (keyBatch h))) tt h)
    as ([] & h1 & E & s & -> & Hs & Habs).
  - exists (h_storage h). split; [by destruct h|]. split; [apply Hok|done].
  - intros pre i post [] h1 El (s & -> & Hs & Habs).
    assert (Hi : seq 0 (length (keyBatch h)) !! length pre = Some i).
    { rewrite El, lookup_app_r, Nat.sub_diag by lia. done. }
    apply lookup_seq in Hi as [-> Hi]. cbn [Nat.add] in *.
    destruct (flush_one_ok h (length pre) s (handler_ok_inv h Hok) Hi Hs)
      as (k & v & e & s' & Eb & E & Hs' & Ha').
    specialize (Ha' ltac:(rewrite Habs; apply foldl_aset_unlimited, Hok)).
    exists tt. eexists. split; [exact E|]. exists s'. split; [done|]. split; [done|].
    rewrite length_app, Nat.add_1_r, (take_S_r _ _ _ Eb), foldl_snoc, <- Habs. done.
  - erewrite gbind_ok by exact E. eexists. split; [done|]. cbn in Habs.
    rewrite length_seq, firstn_all2 in Habs by (by rewrite batch_length).
    split; [|done]. split; [|cbn; by rewrite Habs|done|done].
    split; cbn; try done; [|apply Hok..]. rewrite Habs. by apply foldl_aset_unlimited, Hok.
Qed.

(** Without a bound on memory a flush still returns and keeps the invariant. *)
Lemma flushBatch_keeps h : handler_inv h ->
  exists h', flushBatch now h = (Ok tt, h') /\ handler_inv h'.
Proof.
  intros Hok. unfold flushBatch, gget, gbind at 1. case_bool_decide as Hz; [by exists h|].
  unfold gfor.
  destruct (gfold_ok (fun (pre : list nat) (_ : unit) h1 => exists s, h1 = with_storage h s /\ st_wf s)
    (fun _ i => flush_one now i) (seq 0 (length (keyBatch h))) tt h) as ([] & h1 & E & s & -> & Hs).
  - exists (h_storage h). split; [by destruct h|apply Hok].
  - intros pre i post [] h1 El (s & -> & Hs).
    assert (Hi : seq 0 (length (keyBatch h)) !! length pre = Some i).
    { rewrite El, lookup_app_r, Nat.sub_diag by lia. done. }
    apply lookup_seq in Hi as [-> Hi]. cbn [Nat.add] in *.
    destruct (flush_one_ok h (length pre) s Hok Hi Hs) as (k & v & e & s' & _ & E & Hs' & _).
    exists tt. eexists. split; [exact E|]. by exists s'.
  - erewrite gbind_ok by exact E. by eexists.
Qed.

Lemma foldl_alimit a l : alimit (foldl (fun a '(k, v, e) => aset now a k v e) a l) = alimit a.
Proof. revert a. induction l as [|[[k v] e] l IH]; intros a; [done|]. cbn. by rewrite IH. Qed.

Lemma OnDatabase_ok filt h a cur n : stands_for filt h a cur -> loadable filt (ItemDB n) ->
  exists h', handler_OnDatabase now n h = (Ok tt, h') /\
    stands_for filt h' (if db_allowed filt n then aselect a n else a) n.
Proof.
  intros Hsf Hl. destruct (flushBatch_ok filt h a cur Hsf) as (h1 & E1 & [Hok Ha Hc Hf] & Hk & _).
  unfold handler_OnDatabase. erewrite gbind_ok by exact E1.
  unfold set_current, gget. erewrite gbind_ok by done. unfold gbind at 1. cbn [h_databases]. rewrite Hf.
  assert (Hb : batch h1 = []) by (unfold batch; by rewrite Hk).
  unfold pending_store in Ha. rewrite Hb in Ha. cbn in Ha. cbn in Hl.
  destruct (db_allowed filt n).
  - destruct (law_SelectDB (h_storage h1) n (ho_wf _ Hok)) as (o & s' & E & Hs' & Hstep).
    unfold on_storage. cbn [h_storage]. rewrite E.
    destruct o as [[]|err|p|]; try done.
    + destruct (astep_select _ n (Hl eq_refl) _ _ Hstep) as [_ Ea].
      eexists. split; [done|]. split; [|cbn|done|done].
      * split; cbn; try apply Hok; try done. rewrite Ea. apply Hok.
      * unfold pending_store, batch. cbn. rewrite Hk. cbn. by rewrite Ea, Ha.
    + destruct (astep_select _ n (Hl eq_refl) _ _ Hstep) as [? _]. done.
  - eexists. split; [done|]. split; [by split; apply Hok| |done|done].
    unfold pending_store, batch. cbn. by rewrite Hk.
Qed.

Lemma zip_snoc {A B} (l : list A) (l' : list B) a b : length l = length l' ->
  zip (l ++ [a]) (l' ++ [b]) = zip l l' ++ [(a, b)].
Proof. intros Hl. by rewrite zip_with_app. Qed.

Lemma OnKey_ok filt h a cur k v e : stands_for filt h a cur ->
  exists h', handler_OnKey now k v e h = (Ok tt, h') /\
    stands_for filt h' (match v with
      | RDBString d => if db_allowed filt cur then aset now a k d e else a
      | _ => a end) cur.
Proof.
  intros Hsf. pose proof Hsf as [Hok Ha Hc Hf]. unfold handler_OnKey, gget, gbind at 1.
  rewrite Hf, Hc. destruct (db_allowed filt cur) eqn:Ed; cbn [negb].
  2: { exists h. split; [done|]. by destruct v. }
  erewrite gbind_ok by done. destruct v as [d| | |];
    try (eexists; split; [done|]; split; [by split; apply Hok| |done|done]; done).
  cbn zeta. erewrite gbind_ok by done.
  set (h2 := mkStorageHandler _ _ _ _ _ (keyBatch h ++ [k]) _ _ _).
  assert (Hsf2 : stands_for filt h2 (aset now a k d e) cur).
  { split; [|subst h2|done|done].
    - split; cbn; try apply Hok; rewrite ?length_app; cbn; [| |pose proof (ho_cap _ Hok); lia].
      + by rewrite (ho_values _ Hok).
      + by rewrite (ho_expiries _ Hok).
    - unfold pending_store, batch. cbn. rewrite !zip_snoc.
      + rewrite foldl_snoc. unfold pending_store, batch in Ha. by rewrite Ha.
      + rewrite length_zip_with, (ho_values _ Hok), (ho_expiries _ Hok). lia.
      + symmetry. apply Hok. }
  destruct (batchSize h <=? _).
  - destruct (flushBatch_ok filt h2 _ _ Hsf2) as (h3 & E3 & Hsf3 & _). by exists h3.
  - by exists h2.
Qed.

Lemma OnResizeDB_ok filt h a cur m n : stands_for filt h a cur -> handler_OnResizeDB m n h = (Ok tt, h).
Proof.
  intros [Hok _ _ _]. unfold handler_OnResizeDB, gget, gbind. rewrite (ho_batch _ Hok).
  pose proof (ho_cap _ Hok). destruct (Z.ltb_spec 100 m).
  - by destruct (Z.ltb_spec (h_cap h) 100); [lia|].
  - by destruct (Z.ltb_spec (h_cap h) m); [lia|].
Qed.

Lemma run_items_loads filt items : forall h a cur, stands_for filt h a cur ->
  Forall (loadable filt) items -> exists h', run_items (storage_handler now) items h = (Ok tt, h') /\
    stands_for filt h' (foldl (load_item now filt) (a, cur) items).1 (foldl (load_item now filt) (a, cur) items).2 /\
    keyBatch h' = [].
Proof.
  induction items as [|i items IH]; intros h a cur Hsf Hl.
  - destruct (flushBatch_ok filt h a cur Hsf) as (h' & E & Hsf' & Hk & _). by exists h'.
  - apply Forall_cons in Hl as [Hi Hl].
    assert (Hstep : exists h1, run_item (storage_handler now) i h = (Ok tt, h1) /\
      stands_for filt h1 (load_item now filt (a, cur) i).1 (load_item now filt (a, cur) i).2).
    { destruct i as [n|k v|m n|e k v]; cbn [run_item storage_handler OnDatabase OnAux OnResizeDB OnKey load_item].
      - by apply (OnDatabase_ok filt h a cur).
      - by exists h.
      - exists h. split; [by eapply OnResizeDB_ok|done].
      - destruct (rvalue_read v) as [x|]; [|by exists h].
        destruct (OnKey_ok filt h a cur (rstring_read k) x (rexpiry_value e) Hsf) as (h1 & E1 & H1).
        exists h1. split; [done|]. by destruct x. }
    destruct Hstep as (h1 & E1 & Hsf1). cbn [run_items]. erewrite gbind_ok by exact E1.
    cbn [foldl]. destruct (load_item now filt (a, cur) i) as [a1 cur1]. by apply IH.
Qed.

(** ** Every call returns *)

Lemma keeps_intro {S A} (Inv : S -> Prop) (m : M S A) :
  (forall h, Inv h -> exists o h', m h = (o, h') /\ returns o /\ Inv h') -> keeps Inv m.
Proof. intros Hm h Hh. by destruct (Hm h Hh) as (o & h' & -> & Hr & Hi). Qed.

Lemma storage_handler_total : total_handler handler_inv (storage_handler now).
Proof.
  split; cbn [storage_handler OnDatabase OnKey OnAux OnEnd OnResizeDB].
  - intros n. apply keeps_intro. intros h Hok. destruct (flushBatch_keeps h Hok) as (h1 & E1 & [Hw Hv He]).
    unfold handler_OnDatabase. rewrite (gbind_ok _ _ _ _ _ E1).
    unfold set_current, gget, gbind, gmodify. cbn [h_databases].
    destruct (db_allowed (h_databases h1) n); [|by do 2 eexists].
    destruct (law_SelectDB (h_storage h1) n Hw) as (o & s' & E & Hs' & Hstep).
    unfold on_storage. cbn [h_storage]. rewrite E. do 2 eexists. split; [done|]. by destruct o.
  - intros k v e. apply keeps_intro. intros h Hok. unfold handler_OnKey, gget, gbind at 1.
    destruct (negb _); [by do 2 eexists|]. pose proof Hok as [Hw Hv He].
    destruct v as [d| | |]; try (by do 2 eexists). erewrite gbind_ok by done. cbn zeta.
    erewrite gbind_ok by done. set (h2 := mkStorageHandler _ _ _ _ _ (keyBatch h ++ [k]) _ _ _).
    assert (Hok2 : handler_inv h2) by (split; cbn; rewrite ?length_app; cbn; [done|lia..]).
    destruct (_ <=? _); [|by do 2 eexists].
    destruct (flushBatch_keeps h2 Hok2) as (h3 & -> & H3). by do 2 eexists.
  - intros k v h Hok. by split.
  - apply keeps_intro. intros h Hok. unfold handler_OnEnd.
    destruct (flushBatch_keeps h Hok) as (h' & -> & H'). by do 2 eexists.
  - intros f a b [= <-]. apply keeps_intro. intros h Hok. unfold handler_OnResizeDB, gget, gbind.
    destruct (h_cap h <? _); [|by do 2 eexists]. do 2 eexists. split; [reflexivity|]. split; [done|].
    by split; [apply Hok|..].
Qed.

End Loading.

(** ** Reading the collected chunks *)

(** The bytes the buffer still has to deliver. *)
Definition unread (r : rdbStreamBuffer) : bytes :=
  match chunks r !! chunkIdx r with
  | Some c => drop (chunkPos r) c ++ concat (drop (S (chunkIdx r)) (chunks r))
  | None => []
  end.

Definition fresh_buffer (l : list bytes) : rdbStreamBuffer :=
  mkStreamBuffer l (Z.of_nat (length (concat l))) 0 0 0.

Lemma unread_concat (l : list bytes) : concat l = match l !! 0%nat with
  | Some c => drop 0 c ++ concat (drop 1 l) | None => [] end.
Proof. destruct l as [|c l]; [done|]. cbn. by rewrite drop_0. Qed.

Lemma unread_next (l : list bytes) k : concat (drop k l) = match l !! k with
  | Some c => drop 0 c ++ concat (drop (S k) l) | None => [] end.
Proof. rewrite (unread_concat (drop k l)), lookup_drop, drop_drop, Nat.add_0_r, Nat.add_1_r. done. Qed.

Lemma unread_fresh l : unread (fresh_buffer l) = concat l.
Proof. symmetry. apply unread_concat. Qed.

(** The rounds the copy loop still needs at most. *)
Definition rounds (r : rdbStreamBuffer) : nat :=
  match chunks r !! chunkIdx r with
  | Some c => 2 * (length (chunks r) - chunkIdx r) - (if decide (length c <= chunkPos r)%nat then 1 else 0)
  | None => 0
  end.

Lemma rounds_bound r : (rounds r <= 2 * (length (chunks r) - chunkIdx r))%nat.
Proof. unfold rounds. destruct (_ !! _); [|lia]. lia. Qed.

Lemma read_loop_ok fuel : forall want got r, (rounds r <= fuel)%nat -> exists r',
  read_loop fuel want got r = (Ok (got ++ take want (unread r)), r') /\
  unread r' = drop want (unread r) /\ chunks r' = chunks r /\ totalSize r' = totalSize r /\
  pos r' = pos r + Z.of_nat (length (take want (unread r))).
Proof.
  induction fuel as [|fuel IH]; intros want got r Hf;
    (destruct want as [|want]; [exists r; cbn; rewrite app_nil_r, drop_0, Z.add_0_r; done|]);
    (destruct (chunks r !! chunkIdx r) as [c|] eqn:Ec;
     [|exists r; cbn [read_loop]; unfold unread; rewrite Ec; cbn; rewrite app_nil_r, Z.add_0_r; done]);
    pose proof (lookup_lt_Some _ _ _ Ec) as Hlt; unfold rounds in Hf; rewrite Ec in Hf;
    assert (Hu0 : unread r = drop (chunkPos r) c ++ concat (drop (S (chunkIdx r)) (chunks r)))
      by (unfold unread; by rewrite Ec); rewrite Hu0; cbn [read_loop]; rewrite ?Ec.
  { exfalso. destruct (decide (length c <= chunkPos r)%nat); lia. }
  destruct (decide (length c <= chunkPos r)%nat) as [Hd|Hd].
  - set (r1 := mkStreamBuffer _ _ _ _ _). pose proof (rounds_bound r1) as Hb. cbn in Hb.
    destruct (IH (S want) got r1) as (r' & E & Hu & H1 & H2 & H3); [lia|].
    assert (Eu : unread r1 = drop (chunkPos r) c ++ concat (drop (S (chunkIdx r)) (chunks r))).
    { rewrite (drop_ge c) by done. by rewrite unread_next. }
    exists r'. rewrite E, Eu in *. done.
  - set (toCopy := if decide (length c - chunkPos r < S want)%nat then _ else _).
    set (r1 := mkStreamBuffer (chunks r) (totalSize r) (pos r + Z.of_nat toCopy) (chunkIdx r) (chunkPos r + toCopy)).
    assert (Ht : (toCopy <= length c - chunkPos r /\ toCopy <= S want /\
      (toCopy = S want \/ toCopy = length c - chunkPos r))%nat).
    { subst toCopy. destruct (decide (length c - chunkPos r < S want)%nat); lia. }
    destruct Ht as (Hc1 & Hc2 & Hc3).
    assert (Eu : unread r1 = drop toCopy (drop (chunkPos r) c ++ concat (drop (S (chunkIdx r)) (chunks r)))).
    { unfold unread. cbn. rewrite Ec. rewrite drop_app_le by (rewrite length_drop; lia).
      by rewrite drop_drop. }
    destruct (decide (toCopy = S want)) as [Hall|Hall].
    + exists r1. rewrite Hall, Nat.sub_diag. rewrite <- Hall.
      assert (El : take toCopy (drop (chunkPos r) c ++ concat (drop (S (chunkIdx r)) (chunks r)))
        = take toCopy (drop (chunkPos r) c)) by (rewrite take_app_le; [done|rewrite length_drop; lia]).
      split; [by destruct fuel; cbn; rewrite El|]. split; [done|]. do 2 (split; [done|]).
      rewrite El, length_take, length_drop. cbn. lia.
    + destruct (IH (S want - toCopy)%nat (got ++ take toCopy (drop (chunkPos r) c)) r1)
        as (r' & E & Hu & H1 & H2 & H3).
      { unfold rounds, r1. cbn [chunks chunkIdx chunkPos]. rewrite Ec.
        rewrite decide_True by lia. destruct (decide (length c <= chunkPos r)%nat); lia. }
      exists r'. rewrite E, Eu in *. rewrite <- app_assoc.
      assert (Esplit : forall u : bytes, take toCopy u ++ take (S want - toCopy) (drop toCopy u) = take (S want) u).
      { intros u. rewrite take_take_drop. f_equal. lia. }
      set (u := drop (chunkPos r) c ++ _) in *.
      assert (El : take toCopy (drop (chunkPos r) c) = take toCopy u).
      { subst u. rewrite take_app_le; [done|rewrite length_drop; lia]. }
      rewrite El, Esplit. split; [done|]. rewrite Hu, drop_drop. split; [f_equal; lia|].
      do 2 (split; [done|]). rewrite H3. cbn [pos r1]. rewrite <- (Esplit u), length_app.
      rewrite (length_take u toCopy). assert (toCopy <= length u)%nat; [|lia].
      subst u. rewrite length_app, length_drop. lia.
Qed.

(** One read fills the buffer as far as there is data, and reports the end only
    when nothing is left. *)
Lemma StreamRead_ok n r : (0 < n)%nat -> exists r',
  StreamRead n r = (if bool_decide (unread r = []) then Err EOF else Ok (take n (unread r)), r') /\
  unread r' = drop n (unread r) /\ chunks r' = chunks r.
Proof.
  intros Hn. unfold StreamRead. destruct (decide _) as [Hd|Hd].
  - exists r. unfold unread. rewrite lookup_ge_None_2 by done. cbn. by rewrite drop_nil.
  - destruct (read_loop_ok (2 * (length (chunks r) - chunkIdx r) + 1) n [] r)
      as (r' & E & Hu & Hc & _). { pose proof (rounds_bound r). lia. }
    exists r'. rewrite E. cbn [app]. destruct n as [|n]; [lia|].
    by destruct (unread r) as [|b u].
Qed.

(** Successive reads with buffers of the given sizes, until the end. *)
Fixpoint read_many (ns : list nat) : M rdbStreamBuffer bytes :=
  match ns with
  | [] => gret []
  | n :: ns' =>
      gtry (StreamRead n)
        (fun d => let! ds := read_many ns' in gret (d ++ ds))
        (fun e => if bool_decide (e = EOF) then gret [] else gfail e)
  end.

Lemma read_many_ok ns : Forall (fun n => 0 < n)%nat ns -> forall r, exists r',
  read_many ns r = (Ok (take (sum_list ns) (unread r)), r') /\ unread r' = drop (sum_list ns) (unread r).
Proof.
  induction 1 as [|n ns Hn _ IH]; intros r; cbn [read_many sum_list].
  - exists r. by rewrite drop_0.
  - destruct (StreamRead_ok n r Hn) as (r1 & E1 & Hu1 & _). case_bool_decide as Hz.
    + exists r1. by rewrite (gtry_err _ _ _ _ _ _ E1), Hu1, Hz, take_nil, !drop_nil.
    + rewrite (gtry_ok _ _ _ _ _ _ E1). destruct (IH r1) as (r2 & E2 & Hu2).
      exists r2. erewrite gbind_ok by exact E2. rewrite Hu2, Hu1, drop_drop. split; [|done].
      unfold gret. do 2 f_equal. apply take_take_drop.
Qed.

Lemma collect_chunk_ok (l : list bytes) : forall b agg, exists agg',
  foldl (fun c d => (collect_chunk (Some d) c).2) (b, agg) l =
  (mkStreamBuffer (chunks b ++ l) (totalSize b + Z.of_nat (length (concat l))) (pos b) (chunkIdx b)
     (chunkPos b), agg').
Proof.
  induction l as [|d l IH]; intros b agg; cbn [foldl].
  - exists agg. rewrite app_nil_r, Z.add_0_r. by destruct b.
  - cbn [collect_chunk snd]. edestruct IH as (agg' & ->). exists agg'. cbn.
    rewrite length_app, <- app_assoc. do 2 f_equal. lia.
Qed.

(** ** Claims *)

Section Claims.
  Context {St : Type} `{Laws : StorageLaws St}.

Lemma fresh_handler_stands_for now s filt stats : st_wf s -> unlimited (st_abs s) ->
  stands_for now filt (newRDBStorageHandler s filt stats) (st_abs s) 0.
Proof. intros Hs Hu. by split; [split|..]. Qed.

Lemma load_file now s filt stats version items trailer e : st_wf s -> unlimited (st_abs s) ->
  0 <= version <= 12 -> Forall readable_ritem items -> Forall (loadable filt) items ->
  exists h', ParseRDB (storage_handler now) (mkReader (encode_file version items trailer) e)
    (newRDBStorageHandler s filt stats) = (Ok tt, h') /\
  st_wf (h_storage h') /\
  st_abs (h_storage h') = (foldl (load_item now filt) (st_abs s, 0) items).1.
Proof.
  intros Hs Hu Hv Hwf Hl.
  destruct (run_items_loads now filt items _ _ _ (fresh_handler_stands_for now s filt stats Hs Hu) Hl)
    as (h' & E & [Hok Ha _ _] & Hk). exists h'.
  split; [by apply Parse_file|]. split; [apply Hok|]. rewrite <- Ha. unfold pending_store, batch.
  by rewrite Hk.
Qed.

(** C20: loading an RDB file whose entries the parser can read ([readable_ritem], see
    [rdb_file_parsed]) through the batching handler, into a storage without a memory
    limit, leaves the storage as if every entry had been applied one at a time, in the
    order of the file: the string keys of the replicated databases, which are numbered
    0 to 15, are set with the value the parser reads and with their expiry, no entry is
    lost at a batch boundary, none written twice, and the entries of the other readable
    types and of other databases are skipped. *)
Theorem rdb_file_loads now s filt stats version items trailer e : st_wf s -> unlimited (st_abs s) ->
  0 <= version <= 12 -> Forall readable_ritem items -> Forall (loadable filt) items ->
  exists h', ParseRDB (storage_handler now) (mkReader (encode_file version items trailer) e)
    (newRDBStorageHandler s filt stats) = (Ok tt, h') /\
  st_wf (h_storage h') /\
  st_abs (h_storage h') = (foldl (load_item now filt) (st_abs s, 0) items).1.
Proof. apply load_file. Qed.

End Claims.

(** Reading the collected chunks with buffers of any positive sizes gives
    the payload from where the reader stands, byte for byte: reads may end
    inside a chunk or cross several, and the end is reported only when nothing
    is left. *)
Theorem stream_reads_payload ns r : Forall (fun n => 0 < n)%nat ns -> exists r',
  read_many ns r = (Ok (take (sum_list ns) (unread r)), r') /\
  unread r' = drop (sum_list ns) (unread r) /\
  (forall l, r = fresh_buffer l -> unread r = concat l).
Proof.
  intros Hns. destruct (read_many_ok ns Hns r) as (r' & E & Hu).
  exists r'. split; [done|]. split; [done|]. intros l ->. apply unread_fresh.
Qed.

Lemma stream_reads_payload_witness : exists r',
  read_many [2; 3; 9]%nat (fresh_buffer [bs "RED"; []; bs "IS00"; bs "11"]) = (Ok (bs "REDIS0011"), r') /\
  unread r' = [] /\
  (forall l, fresh_buffer [bs "RED"; []; bs "IS00"; bs "11"] = fresh_buffer l ->
     unread (fresh_buffer [bs "RED"; []; bs "IS00"; bs "11"]) = concat l).
Proof. apply (stream_reads_payload [2; 3; 9]%nat). repeat constructor; lia. Defined.

#[local] Existing Instance sample_hash.
#[local] Existing Instance sample_runtime.

Lemma sample_storage_unlimited : unlimited (abstract sample_storage).
Proof. vm_compute. discriminate. Qed.

Lemma sample_file_loadable : Forall (loadable {[0]}) sample_file.
Proof. repeat constructor; lia. Qed.

Lemma rdb_file_loads_witness : exists h',
  ParseRDB (storage_handler 7) (mkReader (encode_file 11 sample_file (bs "checksum")) EOF)
    (newRDBStorageHandler sample_storage {[0]} (NewRDBLoadStats 7)) = (Ok tt, h') /\
  wf (h_storage h') /\
  abstract (h_storage h') = (foldl (load_item 7 {[0]}) (abstract sample_storage, 0) sample_file).1.
Proof.
  apply (rdb_file_loads (Laws := memory_laws) 7 sample_storage {[0]} (NewRDBLoadStats 7) 11 sample_file); [apply sample_storage_wf|apply sample_storage_unlimited|
    lia|apply sample_file_readable|apply sample_file_loadable].
Defined.
