(* ===== verification/GoList.v ===== *)
(** * Doubly linked lists (container/list)

    The ring of the Go standard library, with its pointers: what a list does to an
    element that another list, or [Init], has let go is part of what the Lua engine
    relies on. The theorems read a ring in order as a list. *)

From Stdlib Require Import ZArith Lia String.
From stdpp Require Import base list list_numbers gmap sets.
From S2P Require Import Prelude.

(** A step and what follows it, where nothing catches an error. *)
Definition obind {A B} (o : outcome A) (k : A -> outcome B) : outcome B :=
  match o with Ok a => k a | Err e => Err e | Panic m => Panic m | OutOfFuel => OutOfFuel end.

(** The elements made for one [List], by number; 0 is its [root]. [r_owned]: those whose
    field [list] points to it. A missing pointer is nil. *)
Record Ring : Type := mkRing {
  r_next : gmap nat nat;
  r_prev : gmap nat nat;
  r_owned : gset nat;
  r_value : gmap nat bytes;
  r_len : Z;
  r_made : nat
}.

Definition set_links (next prev : gmap nat nat) (r : Ring) : Ring :=
  mkRing next prev (r_owned r) (r_value r) (r_len r) (r_made r).

Definition nil_pointer : bytes := bs "invalid memory address or nil pointer dereference".

(** [func (l *List) Init() *List]. The elements keep their pointers. *)
Definition ring_Init (r : Ring) : Ring :=
  mkRing (<[0%nat := 0%nat]> (r_next r)) (<[0%nat := 0%nat]> (r_prev r)) (r_owned r) (r_value r) 0 (r_made r).

(** [list.New()] *)
Definition ring_New : Ring := ring_Init (mkRing ∅ ∅ ∅ ∅ 0 0).

(** [e.prev.next = e.next; e.next.prev = e.prev] *)
Definition unlink (e : nat) (r : Ring) : outcome Ring :=
  match r_prev r !! e, r_next r !! e with
  | Some p, Some n => Ok (set_links (<[p := n]> (r_next r)) (<[n := p]> (r_prev r)) r)
  | _, _ => Panic nil_pointer
  end.

(** [e.prev = at; e.next = at.next; e.prev.next = e; e.next.prev = e], [at] the root *)
Definition link_front (e : nat) (r : Ring) : outcome Ring :=
  match r_next r !! 0%nat with
  | Some n => Ok (set_links (<[0%nat := e]> (<[e := n]> (r_next r))) (<[n := e]> (<[e := 0%nat]> (r_prev r))) r)
  | None => Panic nil_pointer
  end.

Definition ring_PushFront (v : bytes) (r : Ring) : outcome (nat * Ring) :=
  let e := S (r_made r) in
  obind (link_front e (mkRing (r_next r) (r_prev r) ({[e]} ∪ r_owned r) (<[e := v]> (r_value r)) (r_len r + 1) e))
    (fun r' => Ok (e, r')).

Definition ring_MoveToFront (e : nat) (r : Ring) : outcome Ring :=
  if bool_decide (e ∉ r_owned r) || bool_decide (r_next r !! 0%nat = Some e) then Ok r
  else obind (unlink e r) (link_front e).

Definition ring_Remove (e : nat) (r : Ring) : outcome Ring :=
  if bool_decide (e ∈ r_owned r) then
    obind (unlink e r) (fun r' =>
      Ok (mkRing (delete e (r_next r')) (delete e (r_prev r')) (r_owned r' ∖ {[e]}) (r_value r') (r_len r' - 1) (r_made r')))
  else Ok r.

(** [l.Back()], nil for an empty list. *)
Definition ring_Back (r : Ring) : option nat := if r_len r =? 0 then None else r_prev r !! 0%nat.

(** ** A ring in order *)

Fixpoint chain (next prev : gmap nat nat) (c : list nat) : Prop :=
  match c with
  | a :: (b :: _) as c' => next !! a = Some b /\ prev !! b = Some a /\ chain next prev c'
  | _ => True
  end.

(** [l]: the elements from the front to the back. *)
Record ring_is (r : Ring) (l : list nat) : Prop := {
  ri_chain : chain (r_next r) (r_prev r) (0%nat :: l ++ [0%nat]);
  ri_nodup : NoDup l;
  ri_owned e : e ∈ l -> e ∈ r_owned r;
  ri_made e : e ∈ l \/ e ∈ r_owned r -> (0 < e <= r_made r)%nat;
  ri_value e : e ∈ l -> is_Some (r_value r !! e);
  ri_len : r_len r = Z.of_nat (length l)
}.

Lemma chain_cons next prev a b c :
  chain next prev (a :: b :: c) <-> next !! a = Some b /\ prev !! b = Some a /\ chain next prev (b :: c).
Proof. done. Qed.

Lemma chain_app next prev c a c' : chain next prev (c ++ a :: c') <-> chain next prev (c ++ [a]) /\ chain next prev (a :: c').
Proof.
  induction c as [|b c IH]; [cbn; tauto|]. destruct c as [|b' c]; cbn in IH |- *; [tauto|]. rewrite IH. tauto.
Qed.

#[global] Arguments chain : simpl never.

Lemma chain_set next prev a x b y c : chain next prev c -> a ∉ removelast c -> b ∉ tail c ->
  chain (<[a := x]> next) (<[b := y]> prev) c.
Proof.
  induction c as [|h c IH]; [done|]. destruct c as [|h' c]; [done|]. rewrite !chain_cons. intros (Hn & Hp & Hc) Ha Hb.
  change (removelast (h :: h' :: c)) with (h :: removelast (h' :: c)) in Ha. cbn [tail] in Hb, IH.
  split_and!.
  - rewrite lookup_insert_ne by set_solver. done.
  - rewrite lookup_insert_ne by set_solver. done.
  - apply IH; [done|set_solver|set_solver].
Qed.

Lemma chain_delete next prev e c : chain next prev c -> e ∉ c -> chain (delete e next) (delete e prev) c.
Proof.
  induction c as [|a c IH]; [done|]. destruct c as [|b c]; [done|]. rewrite !chain_cons. intros (Hn & Hp & Hc) He.
  rewrite !lookup_delete_ne by set_solver. split_and!; [done|done|]. apply IH; [done|set_solver].
Qed.

(** ** The operations on the list *)

(** Between the root and the first element. *)
Lemma link_front_chain r l e : chain (r_next r) (r_prev r) (0%nat :: l ++ [0%nat]) -> NoDup l -> 0%nat ∉ l -> e ∉ l ->
  e <> 0%nat -> exists next prev, link_front e r = Ok (set_links next prev r) /\ chain next prev (0%nat :: e :: l ++ [0%nat]).
Proof.
  intros Hc Hl H0 He He0. unfold link_front. destruct (l ++ [0%nat]) as [|n c] eqn:El; [by destruct l|].
  apply chain_cons in Hc as (-> & Hp & Hc). do 2 eexists. split; [done|].
  assert (Hn : (n ∉ c) /\ e <> n /\ forall x, x ∉ l -> x <> 0%nat -> x ∉ (n :: c)).
  { destruct l as [|a l]; cbn in El; injection El as <- <-; [split_and!; [set_solver|done|set_solver]|].
    apply NoDup_cons in Hl as [Ha Hl]. split_and!; [|set_solver|set_solver].
    intros [? | ->%list_elem_of_singleton]%elem_of_app; [done|]. apply H0. by left. }
  destruct Hn as (Hn & Hen & Hx). pose proof (Hx e He He0) as Hec.
  assert (Hr : removelast (n :: c) = l) by (by rewrite <- El, removelast_last).
  rewrite !chain_cons. split_and!.
  - apply lookup_insert_eq.
  - rewrite lookup_insert_ne by done. apply lookup_insert_eq.
  - rewrite lookup_insert_ne by done. apply lookup_insert_eq.
  - apply lookup_insert_eq.
  - apply chain_set; [apply chain_set; [done| |]| |]; rewrite ?Hr; cbn [tail]; set_solver.
Qed.

(** Out of the ring, which closes over the gap. *)
Lemma unlink_chain r l1 e l2 : chain (r_next r) (r_prev r) (0%nat :: (l1 ++ e :: l2) ++ [0%nat]) -> NoDup (l1 ++ e :: l2) ->
  0%nat ∉ l1 ++ e :: l2 -> exists next prev, unlink e r = Ok (set_links next prev r) /\
  chain next prev (0%nat :: (l1 ++ l2) ++ [0%nat]) /\ is_Some (next !! 0%nat).
Proof.
  intros Hc Hl H0. destruct (exists_last (l := 0%nat :: l1)) as (c1 & p & E1); [done|].
  destruct (l2 ++ [0%nat]) as [|n c2] eqn:E2; [by destruct l2|].
  rewrite <- app_assoc in Hc. change (0%nat :: l1 ++ (e :: l2) ++ [0%nat]) with ((0%nat :: l1) ++ e :: l2 ++ [0%nat]) in Hc.
  rewrite E1, E2, <- app_assoc in Hc. cbn [app] in Hc. apply chain_app in Hc as (Hc1 & Hc). rewrite !chain_cons in Hc.
  destruct Hc as (Hpe & Hep & Hen & Hne & Hc2).
  unfold unlink. rewrite Hep, Hen. do 2 eexists. split; [done|].
  apply NoDup_app in Hl as (Hl1 & Hd & Hl2). apply NoDup_cons in Hl2 as [He Hl2].
  assert (Hn1 : NoDup (0%nat :: l1)) by (constructor; set_solver).
  assert (Hn2 : NoDup (n :: c2)).
  { rewrite <- E2. apply NoDup_app. split_and!; [done|set_solver|apply NoDup_singleton]. }
  assert (Hnp : (n ∉ l1) /\ (p ∉ l2)).
  { assert (Hn : n ∈ l2 ++ [0%nat]) by (rewrite E2; by left). assert (Hp : p ∈ 0%nat :: l1) by (rewrite E1; set_solver).
    split; set_solver. }
  rewrite E1 in Hn1. apply NoDup_app in Hn1 as (_ & Hp1 & _). apply NoDup_cons in Hn2 as [Hn2 _].
  assert (Hch : chain (<[p:=n]> (r_next r)) (<[n:=p]> (r_prev r)) (c1 ++ p :: n :: c2)).
  { apply chain_app. split; [|rewrite chain_cons; split_and!; try apply lookup_insert_eq].
    - apply chain_set; [done|rewrite removelast_last; intros Hp; apply (Hp1 p Hp); by left|].
      rewrite <- E1. apply Hnp.
    - apply chain_set; [done|rewrite <- E2, removelast_last; apply Hnp|done]. }
  replace (c1 ++ p :: n :: c2) with (0%nat :: (l1 ++ l2) ++ [0%nat]) in Hch.
  - split; [done|]. destruct ((l1 ++ l2) ++ [0%nat]) as [|x c] eqn:E; [by destruct (l1 ++ l2)|].
    apply chain_cons in Hch as [-> _]. done.
  - rewrite <- app_assoc, E2. change (0%nat :: l1 ++ n :: c2) with ((0%nat :: l1) ++ n :: c2). by rewrite E1, <- app_assoc.
Qed.

Lemma ring_is_root r l : ring_is r l -> 0%nat ∉ l.
Proof. intros Hr H. destruct (ri_made r l Hr 0%nat); [by left|lia]. Qed.

Lemma New_is : ring_is ring_New [].
Proof.
  split; cbn; [rewrite chain_cons, !lookup_insert_eq; done|constructor|set_solver..|done].
Qed.

Lemma Init_is r l : ring_is r l -> ring_is (ring_Init r) [].
Proof.
  intros [_ _ _ Hm _ _]. split; cbn; [rewrite chain_cons, !lookup_insert_eq; done|constructor|set_solver| |set_solver|done].
  intros e [He|He]; [by apply not_elem_of_nil in He|auto].
Qed.

Lemma PushFront_is v r l : ring_is r l -> exists r', ring_PushFront v r = Ok (S (r_made r), r') /\
  ring_is r' (S (r_made r) :: l) /\ r_value r' = <[S (r_made r) := v]> (r_value r) /\
  r_owned r' = {[S (r_made r)]} ∪ r_owned r /\ r_made r' = S (r_made r).
Proof.
  intros Hr. pose proof (ring_is_root r l Hr) as H0. destruct Hr as [Hc Hl Ho Hm Hv Hn].
  assert (He : S (r_made r) ∉ l) by (intros H; destruct (Hm _ (or_introl H)); lia).
  unfold ring_PushFront. match goal with |- context [link_front _ ?r0] => set (r1 := r0) end.
  destruct (link_front_chain r1 l (S (r_made r)) Hc Hl H0 He) as (next & prev & -> & Hc'); [done|].
  eexists. split; [done|]. split; [|done]. split; cbn.
  - exact Hc'.
  - by constructor.
  - set_solver.
  - intros e H. assert (e = S (r_made r) \/ e ∈ l \/ e ∈ r_owned r) as [->|He'] by set_solver; [lia|].
    specialize (Hm e He'). lia.
  - intros e [->|Hel]%elem_of_cons; [by rewrite lookup_insert_eq|]. rewrite lookup_insert_ne by set_solver. by apply Hv.
  - lia.
Qed.

(** An element of another list, or of none, stays where it is. *)
Lemma MoveToFront_stale e r : e ∉ r_owned r -> ring_MoveToFront e r = Ok r.
Proof. intros He. unfold ring_MoveToFront. by rewrite (bool_decide_true (e ∉ _)). Qed.

Lemma MoveToFront_is r l1 e l2 : ring_is r (l1 ++ e :: l2) -> exists r', ring_MoveToFront e r = Ok r' /\
  ring_is r' (e :: l1 ++ l2) /\ r_value r' = r_value r /\ r_owned r' = r_owned r /\ r_made r' = r_made r.
Proof.
  intros Hr. pose proof (ring_is_root r _ Hr) as H0. pose proof Hr as [Hc Hl Ho Hm Hv Hn].
  unfold ring_MoveToFront. rewrite bool_decide_false by (intros H; apply H, Ho; set_solver). cbn [orb].
  case_bool_decide as Hf.
  - exists r. split; [done|]. destruct l1 as [|a l1]; [done|]. cbn [app] in Hc. apply chain_cons in Hc as [Hn0 _].
    assert (a = e) as -> by congruence. cbn [app] in Hl. apply NoDup_cons in Hl as [Hl _]. set_solver.
  - destruct (unlink_chain r l1 e l2 Hc Hl H0) as (next & prev & -> & Hc' & _). cbn [obind].
    apply NoDup_app in Hl as (Hl1 & Hd & Hl2). apply NoDup_cons in Hl2 as [He Hl2].
    assert (Hl' : NoDup (l1 ++ l2)) by (apply NoDup_app; split_and!; [done|set_solver|done]).
    assert (He' : e ∉ l1 ++ l2) by set_solver.
    destruct (link_front_chain (set_links next prev r) (l1 ++ l2) e Hc' Hl') as (next' & prev' & -> & Hc''); [set_solver..|].
    eexists. split; [done|]. split; [|done]. split; cbn.
    + exact Hc''.
    + by constructor.
    + intros x Hx. apply Ho. set_solver.
    + intros x Hx. apply Hm. set_solver.
    + intros x Hx. apply Hv. set_solver.
    + rewrite Hn, !length_app. cbn. lia.
Qed.

Lemma Remove_is r l1 e l2 : ring_is r (l1 ++ e :: l2) -> exists r', ring_Remove e r = Ok r' /\ ring_is r' (l1 ++ l2) /\
  r_value r' = r_value r /\ r_owned r' = r_owned r ∖ {[e]} /\ r_made r' = r_made r.
Proof.
  intros Hr. pose proof (ring_is_root r _ Hr) as H0. destruct Hr as [Hc Hl Ho Hm Hv Hn].
  unfold ring_Remove. rewrite bool_decide_true by (apply Ho; set_solver).
  destruct (unlink_chain r l1 e l2 Hc Hl H0) as (next & prev & -> & Hc' & _).
  apply NoDup_app in Hl as (Hl1 & Hd & Hl2). apply NoDup_cons in Hl2 as [He Hl2].
  eexists. split; [done|]. split; [|done]. split; cbn.
  - apply (chain_delete next prev e); [done|set_solver].
  - apply NoDup_app; split_and!; [done|set_solver|done].
  - intros x Hx. assert (x <> e) by set_solver. assert (x ∈ r_owned r) by (apply Ho; set_solver). set_solver.
  - intros x Hx. apply Hm. set_solver.
  - intros x Hx. apply Hv. set_solver.
  - rewrite Hn, !length_app. cbn. lia.
Qed.

Lemma Back_is r l e : ring_is r (l ++ [e]) -> ring_Back r = Some e.
Proof.
  intros [Hc _ _ _ _ Hn]. unfold ring_Back. rewrite Hn, length_app. cbn [length].
  replace (_ =? 0) with false by (symmetry; apply Z.eqb_neq; lia).
  rewrite <- app_assoc in Hc. change (0%nat :: l ++ [e] ++ [0%nat]) with ((0%nat :: l) ++ e :: [0%nat]) in Hc.
  apply chain_app in Hc as [_ Hc]. apply chain_cons in Hc. apply Hc.
Qed.
