(* ===== verification/Sha1.v ===== *)
(** * SHA-1 (crypto/sha1)

    The digest of the script cache. Words are 32-bit [Z] values; a message is
    padded to blocks of 64 bytes. *)

From Stdlib Require Import ZArith Lia String.
From stdpp Require Import base list list_numbers.
From S2P Require Import Prelude GoLib.

Definition w32 (n : Z) : Z := n mod 2 ^ 32.
Definition rotl (n : Z) (x : Z) : Z := w32 (Z.lor (Z.shiftl x n) (Z.shiftr x (32 - n))).

(** [n] bytes of [v], the most significant first. *)
Fixpoint big_endian (n : nat) (v : Z) : bytes :=
  match n with
  | O => []
  | S n' => zb (Z.shiftr v (8 * Z.of_nat n') mod 256) :: big_endian n' v
  end.

Definition word_of (l : bytes) : Z := foldl (fun acc b => 256 * acc + bz b) 0 l.

Definition pad (msg : bytes) : bytes :=
  let len := Z.of_nat (length msg) in
  msg ++ [zb 128] ++ replicate (Z.to_nat ((55 - len) mod 64)) (zb 0) ++ big_endian 8 (8 * len).

Fixpoint chunks_of (fuel n : nat) (l : bytes) : list bytes :=
  match fuel, l with
  | O, _ | _, [] => []
  | S fuel', _ => take n l :: chunks_of fuel' n (drop n l)
  end.

(** The message schedule, the latest word first. *)
Fixpoint schedule (n : nat) (w : list Z) : list Z :=
  match n with
  | O => w
  | S n' =>
      let x := rotl 1 (Z.lxor (Z.lxor (nth 2 w 0) (nth 7 w 0)) (Z.lxor (nth 13 w 0) (nth 15 w 0))) in
      schedule n' (x :: w)
  end.

Definition digest : Type := Z * Z * Z * Z * Z.

Definition round (st : digest) (tw : Z * Z) : digest :=
  let '(a, b, c, d, e) := st in
  let '(t, w) := tw in
  let '(f, k) :=
    if t <? 20 then (Z.lor (Z.land b c) (Z.land (Z.lxor b (2 ^ 32 - 1)) d), 1518500249)
    else if t <? 40 then (Z.lxor (Z.lxor b c) d, 1859775393)
    else if t <? 60 then (Z.lor (Z.lor (Z.land b c) (Z.land b d)) (Z.land c d), 2400959708)
    else (Z.lxor (Z.lxor b c) d, 3395469782) in
  (w32 (rotl 5 a + f + e + k + w), a, rotl 30 b, c, d).

Definition block (st : digest) (blk : bytes) : digest :=
  let w0 := word_of <$> chunks_of 16 4 blk in
  let w := reverse (schedule 64 (reverse w0)) in
  let '(a, b, c, d, e) := st in
  let '(a', b', c', d', e') := foldl round st (zip (seqZ 0 80) w) in
  (w32 (a + a'), w32 (b + b'), w32 (c + c'), w32 (d + d'), w32 (e + e')).

(** [sha1.Sum(msg)] *)
Definition sha1_Sum (msg : bytes) : bytes :=
  let padded := pad msg in
  let '(a, b, c, d, e) :=
    foldl block (1732584193, 4023233417, 2562383102, 271733878, 3285377520)
      (chunks_of (length padded) 64 padded) in
  concat (big_endian 4 <$> [a; b; c; d; e]).

(** [fmt.Sprintf("%x", sum)] *)
Definition hex_text (l : bytes) : bytes := concat (fmt_02x <$> l).

Example sha1_abc : hex_text (sha1_Sum (bs "abc")) = bs "a9993e364706816aba3e25717850c26c9cd0d89d".
Proof. vm_compute. reflexivity. Qed.

Example sha1_two_blocks :
  hex_text (sha1_Sum (bs "abcdbcdecdefdefgefghfghighijhijkijkljklmklmnlmnomnopnopq")) =
  bs "84983e441c3bd26ebaae4aa1f95129e5e54670f1".
Proof. vm_compute. reflexivity. Qed.

(** The digest has twenty bytes, its text forty characters, none a line feed. *)
Lemma big_endian_length n v : length (big_endian n v) = n.
Proof. induction n; cbn; congruence. Qed.

Lemma sha1_Sum_length msg : length (sha1_Sum msg) = 20%nat.
Proof.
  unfold sha1_Sum. destruct (foldl _ _ _) as [[[[a b] c] d] e]. cbn [fmap list_fmap concat].
  by rewrite !length_app, !big_endian_length.
Qed.

Lemma hex_text_length l : length (hex_text l) = (2 * length l)%nat.
Proof. unfold hex_text. induction l as [|b l IH]; [done|]. cbn in *. lia. Qed.

Lemma hex_text_no_lf l : Forall (fun c => c <> Byte.x0a) (hex_text l).
Proof.
  unfold hex_text. induction l as [|b l IH]; [constructor|]. cbn.
  assert (Hd : forall d, 0 <= d < 16 -> hex_digit d <> Byte.x0a).
  { intros d Hd E. apply (f_equal bz) in E. unfold hex_digit in E.
    destruct (Z.ltb_spec d 10); rewrite bz_zb, Z.mod_small in E by lia; change (bz Byte.x0a) with 10 in E; lia. }
  pose proof (bz_range b). repeat constructor; [apply Hd|apply Hd|exact IH].
  - split; [apply Z.div_pos; lia|apply Z.div_lt_upper_bound; lia].
  - apply Z.mod_pos_bound. lia.
Qed.
