(* ===== verification/Lua.v ===== *)
(** * The Lua engine (lua/engine.go)

    The script cache, the pool of interpreter states, the conversions between Go
    and Lua values and the commands a script can call. The interpreter itself,
    gopher-lua, is the parameter [LuaVM]: a machine that runs a script step by step,
    for ever if the script does, and stops at every call of [redis.call] and
    [redis.pcall] for the answer. *)

From Stdlib Require Import ZArith Lia String.
From stdpp Require Import base list list_numbers gmap.
From S2P Require Import Prelude GoLib StorageTypes Memory Sha1.

(** ** Values *)

(** [interface{}]: what the engine and the server pass around. A map is given by
    the assignments that built it, in order. *)
Inductive GoValue : Type :=
| GNil
| GBool (b : bool)
| GString (s : bytes)
| GInt (n : Z)
| GFloat (f : float64)
| GBytes (d : bytes)
| GSlice (l : list GoValue)
| GStrings (l : list bytes)
| GMap (l : list (bytes * GoValue)).

(** [lua.LValue]: a table is a reference, so that it can contain itself; of the types
    the code does not look into, their text. *)
Inductive LValue : Type :=
| LNil
| LBool (b : bool)
| LNumber (f : float64)
| LString (s : bytes)
| LTable (t : nat)
| LOther (text : bytes).

(** What the code reads of a table: its [Len] and what [ForEach] visits, in that order;
    and the tables of an interpreter. *)
Definition Table : Type := Z * list (LValue * LValue).
Definition Heap : Type := gmap nat Table.

(** What a script is told of a call: the error that is raised in it, a value, or a new
    table with the error in its field [err]. *)
Inductive Answer : Type :=
| Raised (msg : bytes)
| Answered (v : LValue)
| ErrorTable (msg : bytes).

(** What a run does next: it returns a value, or fails, and leaves an interpreter
    state; it calls [redis.call], or [redis.pcall] if [protected], and goes on with the
    answer; it takes a step of its own; it ends the process with [os.exit]. *)
Inductive LuaEvent (LState LRun : Type) : Type :=
| LReturn (top : LValue) (heap : Heap) (L : LState)
| LRaise (msg : bytes) (L : LState)
| LCall (protected : bool) (argv : list LValue) (resume : Answer -> LRun)
| LTau (next : LRun)
| LExit (code : Z).
Arguments LReturn {LState LRun}.
Arguments LRaise {LState LRun}.
Arguments LCall {LState LRun}.
Arguments LTau {LState LRun}.
Arguments LExit {LState LRun}.

(** gopher-lua: its states, the runs of scripts; the choice [sync.Pool] makes at its
    n-th [Get]; and how many steps of a run, and levels of nested tables, the model
    follows before it answers [OutOfFuel]. *)
Class LuaVM : Type := {
  LState : Type;
  NewState : LState;
  ClearGlobals : LState -> LState;
  LRun : Type;
  DoString : LState -> bytes -> list bytes -> list bytes -> LRun;
  vm_step : LRun -> LuaEvent LState LRun;
  LV_AsString : LValue -> bytes;
  LV_String : LValue -> bytes;
  pool_pick : nat -> nat -> option nat;
  lua_fuel : nat
}.

(** ** Conversions *)

(** [int64(f)]: out of the range an amd64 gives the least integer. *)
Definition int64_of_float (f : float64) : Z :=
  match f with
  | SpecFloat.S754_finite _ _ _ =>
      let n := int_of_float f in if (minInt64 <=? n) && (n <=? maxInt64) then n else minInt64
  | SpecFloat.S754_zero _ => 0
  | _ => minInt64
  end.

(** [table.RawGetInt(i)], and whether it is nil. *)
Definition raw_get_int (entries : list (LValue * LValue)) (i : Z) : LValue :=
  match find (fun kv => match kv.1 with
                        | LNumber f => SpecFloat.SFeqb f (float_of_int i)
                        | _ => false
                        end) entries with
  | Some kv => kv.2
  | None => LNil
  end.

Definition is_nil (v : LValue) : bool := match v with LNil => true | _ => false end.

(** [isArrayLikeTable]; the last loop's key test. *)
Definition array_key (len : Z) (k : LValue) : bool :=
  match k with
  | LNumber num =>
      let idx := int64_of_float num in
      SpecFloat.SFeqb (float_of_int idx) num && (1 <=? idx) && (idx <=? len)
  | _ => false
  end.

Definition isArrayLikeTable (len : Z) (entries : list (LValue * LValue)) : bool :=
  if len =? 0 then true
  else
    negb (existsb (fun i => is_nil (raw_get_int entries i)) (seqZ 1 len)) &&
    forallb (fun kv => array_key len kv.1) entries.

Section Lua.
  Context `{Hash : XXHash} `{Runtime : GoRuntime} {VM : LuaVM}.

(** Go's recursion, level by level; it has no end on a table that contains itself. *)
Fixpoint convertLuaValue (fuel : nat) (heap : Heap) (lv : LValue) : option GoValue :=
  match fuel with
  | O => None
  | S fuel' =>
      match lv with
      | LBool b => Some (GBool b)
      | LString s => Some (GString s)
      | LNumber f =>
          Some (if SpecFloat.SFeqb f (float_of_int (int64_of_float f)) then GInt (int64_of_float f) else GFloat f)
      | LNil => Some GNil
      | LTable t =>
          let '(len, entries) := default (0, []) (heap !! t) in
          converted ← mapM (fun kv => (fun v => (LV_String kv.1, v)) <$> convertLuaValue fuel' heap kv.2) entries;
          Some (if isArrayLikeTable len entries then GSlice (map snd converted) else GMap converted)
      | LOther _ => Some (GString (LV_String lv))
      end
  end.

(** The cases [executeCommand]'s results can reach. *)
Definition convertToLuaValue (value : GoValue) : LValue :=
  match value with
  | GNil => LBool false
  | GString s => LString s
  | GInt n => LNumber (float_of_int n)
  | GFloat f => LNumber f
  | GBool b => LBool b
  | _ => LNil
  end.

(** ** The commands of a script *)

Definition wrong_number (name : bytes) : error :=
  Errorf (bs "wrong number of arguments for '" ++ name ++ bs "' command").

Definition executeCommand (now : Z) (cmd : bytes) (args : list bytes) : Mem GoValue :=
  if bool_decide (cmd = bs "GET") then
    match args with
    | [key] =>
        let! value := Get now key in
        gret (match value with None => GNil | Some v => GString v end)
    | _ => gfail (wrong_number (bs "get"))
    end
  else if bool_decide (cmd = bs "SET") then
    match args with
    | key :: value :: _ => Set_ now key value None ;;! gret (GString (bs "OK"))
    | _ => gfail (wrong_number (bs "set"))
    end
  else if bool_decide (cmd = bs "DEL") then
    match args with
    | [] => gfail (wrong_number (bs "del"))
    | _ => let! deleted := Del args in gret (GInt deleted)
    end
  else if bool_decide (cmd = bs "EXISTS") then
    match args with
    | [] => gfail (wrong_number (bs "exists"))
    | _ => let! count := Exists now args in gret (GInt count)
    end
  else if bool_decide (cmd = bs "TYPE") then
    match args with
    | [key] => let! valueType := Type_ now key in gret (GString (ValueType_String valueType))
    | _ => gfail (wrong_number (bs "type"))
    end
  else gfail (Errorf (bs "unknown or unsupported command: " ++ cmd)).

(** The error of an unprotected call is raised in the interpreter. *)
Definition executeRedisCommand (now : Z) (argv : list LValue) : Mem GoValue :=
  match argv with
  | [] => gfail (Errorf (bs "wrong number of arguments for redis command"))
  | name :: rest =>
      let cmdName := LV_AsString name in
      if bool_decide (cmdName = []) then gfail (Errorf (bs "command name must be a string"))
      else executeCommand now cmdName (LV_AsString <$> rest)
  end.

Definition redisCall (now : Z) (argv : list LValue) : Mem Answer :=
  gtry (executeRedisCommand now argv) (fun result => gret (Answered (convertToLuaValue result)))
    (fun err => gret (Raised (Error err))).

Definition redisPCall (now : Z) (argv : list LValue) : Mem Answer :=
  gtry (executeRedisCommand now argv) (fun result => gret (Answered (convertToLuaValue result)))
    (fun err => gret (ErrorTable (Error err))).

(** How a run comes back: with its error, or with a value and the tables it refers to;
    and the state it leaves. *)
Definition RunResult : Type := (bytes + LValue * Heap) * LState.

(** [os.exit] ends the process as a panic does. *)
Definition exit_panic (code : Z) : bytes := bs "exit status " ++ FormatInt code.

(** A run, its calls made on the storage. *)
Fixpoint run_script (fuel : nat) (now : Z) (r : LRun) : Mem RunResult :=
  match fuel with
  | O => fun s => (OutOfFuel, s)
  | S fuel' =>
      match vm_step r with
      | LReturn top heap L => gret (inr (top, heap), L)
      | LRaise msg L => gret (inl msg, L)
      | LCall protected argv resume =>
          let! answer := if (protected : bool) then redisPCall now argv else redisCall now argv in
          run_script fuel' now (resume answer)
      | LTau next => run_script fuel' now next
      | LExit code => fun s => (Panic (exit_panic code), s)
      end
  end.

(** ** The engine *)

(** [type Engine struct]: the cache as a map from digests to scripts and the list
    of digests in order of use, and the pool. *)
Record Engine : Type := mkEngine {
  scripts : gmap bytes bytes;
  lruList : list bytes;
  maxScripts : Z;
  cacheHits : Z;
  cacheMisses : Z;
  statePool : list LState;
  pool_gets : nat
}.

Definition set_cache (m : gmap bytes bytes) (l : list bytes) (e : Engine) : Engine :=
  mkEngine m l (maxScripts e) (cacheHits e) (cacheMisses e) (statePool e) (pool_gets e).
Definition set_counters (hits misses : Z) (e : Engine) : Engine :=
  mkEngine (scripts e) (lruList e) (maxScripts e) hits misses (statePool e) (pool_gets e).
Definition set_pool (pool : list LState) (gets : nat) (e : Engine) : Engine :=
  mkEngine (scripts e) (lruList e) (maxScripts e) (cacheHits e) (cacheMisses e) pool gets.
Definition WithMaxScripts (max : Z) (e : Engine) : Engine :=
  mkEngine (scripts e) (lruList e) max (cacheHits e) (cacheMisses e) (statePool e) (pool_gets e).

Definition NewEngine (opts : list (Engine -> Engine)) : Engine :=
  foldl (fun e opt => opt e) (mkEngine ∅ [] 1000 0 0 [] 0) opts.

(** The engine and the storage it was built on. *)
Definition ES : Type := Engine * MemoryStorage.

Definition on_engine (f : Engine -> Engine) : M ES unit := gmodify (fun es => (f es.1, es.2)).

Definition getLuaState : M ES LState := fun es =>
  let e := es.1 in
  match pool_pick (pool_gets e) (length (statePool e)) with
  | Some i =>
      match statePool e !! i with
      | Some L => (Ok L, (set_pool (delete i (statePool e)) (S (pool_gets e)) e, es.2))
      | None => (Ok NewState, (set_pool (statePool e) (S (pool_gets e)) e, es.2))
      end
  | None => (Ok NewState, (set_pool (statePool e) (S (pool_gets e)) e, es.2))
  end.

Definition putLuaState (L : LState) : M ES unit :=
  on_engine (fun e => set_pool (statePool e ++ [ClearGlobals L]) (pool_gets e) e).

Definition Eval_fuel (fuel : nat) (now : Z) (script : bytes) (keys args : list bytes) : M ES GoValue :=
  let! L := getLuaState in
  let! (result, L') := (fun es : ES =>
    let '(o, s) := run_script fuel now (DoString L script keys args) es.2 in (o, (es.1, s))) in
  putLuaState L' ;;!
  match result with
  | inl msg => gfail (Errorf (bs "script execution error: " ++ msg))
  | inr (v, heap) =>
      match convertLuaValue fuel heap v with
      | Some value => gret value
      | None => fun es => (OutOfFuel, es)
      end
  end.

Definition Eval : Z -> bytes -> list bytes -> list bytes -> M ES GoValue := Eval_fuel lua_fuel.

Definition move_to_front (h : bytes) (l : list bytes) : list bytes :=
  h :: filter (fun h' => h' <> h) l.

Definition EvalSHA (now : Z) (sha1 : bytes) (keys args : list bytes) : M ES GoValue :=
  let! es := gget in
  match scripts es.1 !! sha1 with
  | None =>
      on_engine (fun e => set_counters (cacheHits e) (wrapU64 (cacheMisses e + 1)) e) ;;!
      gfail (Errorf (bs "NOSCRIPT No matching script. Please use EVAL"))
  | Some script =>
      on_engine (fun e => set_counters (wrapU64 (cacheHits e + 1)) (cacheMisses e) e) ;;!
      on_engine (fun e => set_cache (scripts e) (move_to_front sha1 (lruList e)) e) ;;!
      Eval now script keys args
  end.

Definition script_hash (script : bytes) : bytes := hex_text (sha1_Sum script).

Definition LoadScript (script : bytes) (e : Engine) : bytes * Engine :=
  let hash := script_hash script in
  match scripts e !! hash with
  | Some _ => (hash, set_cache (scripts e) (move_to_front hash (lruList e)) e)
  | None =>
      let m := <[hash := script]> (scripts e) in
      let l := hash :: lruList e in
      if maxScripts e <? Z.of_nat (length l) then
        match last l with
        | Some oldHash => (hash, set_cache (delete oldHash m) (removelast l) e)
        | None => (hash, set_cache m l e)
        end
      else (hash, set_cache m l e)
  end.

Definition ScriptExists (hashes : list bytes) (e : Engine) : list bool :=
  (fun h => bool_decide (is_Some (scripts e !! h))) <$> hashes.

Definition ScriptFlush (e : Engine) : Engine := set_counters 0 0 (set_cache ∅ [] e).

Definition CacheStats (e : Engine) : Z * Z := (cacheHits e, cacheMisses e).

End Lua.
