(* ===== verification/LuaSpec.v ===== *)
(** * What the Lua engine guarantees *)

From Stdlib Require Import ZArith Lia String.
From stdpp Require Import base list list_numbers gmap.
From S2P Require Import Prelude GoLib StorageTypes Memory MemoryInv StoreSpec MemoryOps MemoryBulk MemoryEvict.
From S2P Require Import MemoryCleanup MemoryScan MemorySpec StorageSpec Sha1 Lua.

Section LuaSpec.
  Context `{Hash : XXHash} `{Runtime : GoRuntime} {VM : LuaVM}.

Implicit Types (e : Engine) (h : bytes).

(** ** The script cache *)

Record cache_wf e : Prop := {
  cw_nodup : NoDup (lruList e);
  cw_keys h : h ∈ lruList e <-> is_Some (scripts e !! h);
  cw_hash h s : scripts e !! h = Some s -> script_hash s = h;
  cw_bound : 0 <= maxScripts e -> Z.of_nat (length (lruList e)) <= maxScripts e
}.

Lemma move_to_front_elem h l k : k ∈ move_to_front h l <-> k = h \/ k ∈ l.
Proof.
  unfold move_to_front. rewrite elem_of_cons, list_elem_of_filter.
  destruct (decide (k = h)); naive_solver.
Qed.

Lemma move_to_front_nodup h l : NoDup l -> NoDup (move_to_front h l).
Proof.
  intros Hl. unfold move_to_front. constructor; [rewrite list_elem_of_filter; naive_solver|]. by apply NoDup_filter.
Qed.

Lemma filter_fresh h (l : list bytes) : h ∉ l -> filter (fun h' => h' <> h) l = l.
Proof.
  induction l as [|x l IH]; intros Hl; [done|]. rewrite filter_cons, decide_True by set_solver.
  f_equal. apply IH. set_solver.
Qed.

Lemma move_to_front_length h l : NoDup l -> h ∈ l -> length (move_to_front h l) = length l.
Proof.
  unfold move_to_front. induction l as [|x l IH]; intros Hl Hin; [by apply not_elem_of_nil in Hin|].
  apply NoDup_cons in Hl as [Hx Hl]. rewrite filter_cons. destruct (decide (x <> h)) as [Hne|He].
  - cbn [length] in *. f_equal. apply IH; [done|set_solver].
  - assert (x = h) as -> by (destruct (decide (x = h)); [done|by destruct He]). by rewrite filter_fresh.
Qed.

Lemma cache_wf_touch e h : cache_wf e -> is_Some (scripts e !! h) ->
  cache_wf (set_cache (scripts e) (move_to_front h (lruList e)) e).
Proof.
  intros [Hn Hk Hh Hb] Hs. split; cbn -[move_to_front].
  - by apply move_to_front_nodup.
  - intros k. rewrite move_to_front_elem, Hk. naive_solver.
  - done.
  - rewrite move_to_front_length; [done|done|by apply Hk].
Qed.

Lemma load_fresh e script : cache_wf e -> scripts e !! script_hash script = None ->
  cache_wf (LoadScript script e).2.
Proof.
  intros [Hn Hk Hh Hb] Hs. unfold LoadScript. rewrite Hs. set (h := script_hash script) in *.
  assert (Hin : h ∉ lruList e) by (rewrite Hk, Hs; apply is_Some_None).
  assert (Hn' : NoDup (h :: lruList e)) by (by constructor).
  assert (Hk' : forall k, k ∈ h :: lruList e <-> is_Some (<[h := script]> (scripts e) !! k)).
  { intros k. rewrite elem_of_cons, Hk. destruct (decide (k = h)) as [->|Hne].
    - rewrite lookup_insert_eq. naive_solver.
    - rewrite lookup_insert_ne by done. naive_solver. }
  assert (Hh' : forall k s, <[h := script]> (scripts e) !! k = Some s -> script_hash s = k).
  { intros k s. rewrite lookup_insert_Some. naive_solver. }
  destruct (Z.ltb_spec (maxScripts e) (Z.of_nat (length (h :: lruList e)))) as [Hlt|Hge]; [|by split].
  destruct (last (h :: lruList e)) as [old|] eqn:Hl; [|by rewrite last_None in Hl].
  apply last_Some in Hl as [l' El]. rewrite El in *. rewrite removelast_last.
  apply NoDup_app in Hn' as (Hnl & Hd & _). split; cbn.
  - done.
  - intros k. destruct (decide (k = old)) as [->|Hne].
    + rewrite lookup_delete_eq. split; [intros Hin'; exfalso; apply (Hd old Hin'); set_solver|by intros []].
    + rewrite lookup_delete_ne, <- Hk' by done. set_solver.
  - intros k s. rewrite lookup_delete_Some. naive_solver.
  - intros H0. specialize (Hb H0). apply (f_equal length) in El. rewrite length_app in El. cbn in El. lia.
Qed.

Lemma cache_wf_load e script : cache_wf e -> cache_wf (LoadScript script e).2.
Proof.
  intros He. destruct (scripts e !! script_hash script) eqn:Hs; [|by apply load_fresh].
  unfold LoadScript. rewrite Hs. apply cache_wf_touch; [done|by rewrite Hs].
Qed.

Lemma cache_wf_pool e pool n : cache_wf e -> cache_wf (set_pool pool n e).
Proof. by intros []. Qed.
Lemma cache_wf_counters e n m : cache_wf e -> cache_wf (set_counters n m e).
Proof. by intros []. Qed.

(** ** The order of eviction *)

(** The digests of the scripts loaded, the latest load of each first. *)
Definition recency (l : list bytes) : list bytes :=
  foldl (fun r script => move_to_front (script_hash script) r) [] l.

Lemma take_filter_in h (l : list bytes) n : NoDup l -> h ∈ take n l ->
  filter (fun h' => h' <> h) (take n l) = take (n - 1) (filter (fun h' => h' <> h) l).
Proof.
  revert n. induction l as [|x l IH]; intros n Hl Hin; [by rewrite take_nil in Hin; apply not_elem_of_nil in Hin|].
  apply NoDup_cons in Hl as [Hx Hl]. destruct n as [|n]; [by apply not_elem_of_nil in Hin|].
  cbn [take] in *. rewrite !filter_cons. cbn [Nat.sub]. rewrite Nat.sub_0_r.
  destruct (decide (x <> h)) as [Hne|He].
  - assert (Hin' : h ∈ take n l) by set_solver. rewrite (IH n Hl Hin').
    destruct n; [by apply not_elem_of_nil in Hin'|]. cbn. by rewrite Nat.sub_0_r.
  - assert (x = h) as -> by (destruct (decide (x = h)); [done|by destruct He]).
    rewrite !filter_fresh; [done|done|]. intros H'. apply Hx. rewrite <- (take_drop n l). set_solver.
Qed.

Lemma take_filter_notin h (l : list bytes) n m : (m <= n)%nat -> h ∉ take n l ->
  take m (filter (fun h' => h' <> h) l) = take m l.
Proof.
  revert n m. induction l as [|x l IH]; intros n m Hm Hin; [done|].
  destruct n as [|n]; [assert (m = 0)%nat as -> by lia; by rewrite !take_0|].
  cbn [take] in Hin. rewrite filter_cons, decide_True by set_solver.
  destruct m as [|m]; [done|]. cbn. f_equal. apply (IH n); [lia|set_solver].
Qed.

Lemma move_to_front_take h l n : NoDup l -> h ∈ take n l -> move_to_front h (take n l) = take n (move_to_front h l).
Proof.
  intros Hl Hin. unfold move_to_front. rewrite take_filter_in by done.
  destruct n; [by apply not_elem_of_nil in Hin|]. cbn. by rewrite Nat.sub_0_r.
Qed.

Lemma load_order e script R n : cache_wf e -> maxScripts e = Z.of_nat n -> NoDup R -> lruList e = take n R ->
  lruList (LoadScript script e).2 = take n (move_to_front (script_hash script) R).
Proof.
  intros He Hmax HR Hl. unfold LoadScript. set (h := script_hash script).
  assert (Hin : h ∈ take n R <-> is_Some (scripts e !! h)) by (rewrite <- Hl; apply He).
  destruct (scripts e !! h) eqn:Hs.
  { cbn -[move_to_front]. rewrite Hl, move_to_front_take; [done|done|by apply Hin]. }
  assert (Hin' : h ∉ take n R) by (rewrite Hin; apply is_Some_None). clear Hin.
  rewrite Hl, Hmax. cbn [length]. rewrite length_take. unfold move_to_front.
  destruct (Z.ltb_spec (Z.of_nat n) (Z.of_nat (S (n `min` length R)))) as [Hlt|Hge].
  - destruct (last (h :: take n R)) as [old|] eqn:Elast; [|by rewrite last_None in Elast].
    cbn [lruList set_cache snd]. rewrite removelast_firstn_len. cbn [length Nat.pred]. rewrite length_take.
    replace (n `min` length R)%nat with n by lia. destruct n as [|n]; [done|]. cbn [take firstn]. f_equal.
    rewrite (take_filter_notin h R (S n)) by (done || lia). change (firstn n (take (S n) R)) with (take n (take (S n) R)).
    rewrite take_take. f_equal. lia.
  - cbn [lruList set_cache snd]. rewrite (take_ge R) in * by lia. rewrite filter_fresh by done.
    rewrite take_ge by (cbn; lia). done.
Qed.

Lemma load_max e script : maxScripts (LoadScript script e).2 = maxScripts e.
Proof. unfold LoadScript. by repeat case_match. Qed.

Lemma new_engine_wf n : cache_wf (NewEngine [WithMaxScripts (Z.of_nat n)]).
Proof.
  split; cbn; [constructor| |by intros h s; rewrite lookup_empty|lia].
  intros h. rewrite lookup_empty. split; [by intros H%not_elem_of_nil|by intros []].
Qed.

Lemma loads_order n l : let e := foldl (fun e script => (LoadScript script e).2) (NewEngine [WithMaxScripts (Z.of_nat n)]) l in
  cache_wf e /\ maxScripts e = Z.of_nat n /\ NoDup (recency l) /\ lruList e = take n (recency l).
Proof.
  induction l as [|script l IH] using rev_ind; intros e.
  - split; [apply new_engine_wf|]. split; [done|]. split; [apply NoDup_nil_2|by destruct n].
  - subst e. unfold recency. rewrite !foldl_app. cbn [foldl].
    destruct IH as (He & Hm & HR & Hl). split; [by apply cache_wf_load|]. split; [by rewrite load_max|].
    split; [by apply move_to_front_nodup|]. by apply load_order.
Qed.

(** ** The effects of a script *)

(** An operation of the storage, at every outcome. *)
Lemma op_ok_outcome {A} now op (f : A -> Reply) (m : Mem A) s : run_op now op = reply f m -> op_ok op -> wf s ->
  exists o s', m s = (o, s') /\ returns o /\ wf s' /\
    astep now (abstract s) op (match o with Ok a => f a | Err e => RErr e | _ => RUnit end) (abstract s').
Proof.
  intros E Hop Hwf. destruct (run_op_implements now op s Hwf Hop) as (r & s' & Er & [Hwf' _] & Hstep).
  rewrite E in Er. unfold reply, gtry in Er. destruct (m s) as [[a|e|p|] s1]; try done; injection Er as <- <-;
    by do 2 eexists.
Qed.

(** What a script may ask for. *)
Definition script_op (now : Z) (x : Z * Op) : Prop := x.1 = now /\
  match x.2 with OpGet _ | OpSet _ _ None | OpDel _ | OpExists _ | OpType _ => True | _ => False end.

(** A computation whose effect is a sequence of such operations, however it ends. *)
Definition scripted {A} (now : Z) (m : Mem A) : Prop := forall s, wf s -> exists o s' ops rs,
  m s = (o, s') /\ wf s' /\ asteps (abstract s) ops rs (abstract s') /\ Forall (script_op now) ops.

Lemma asteps_app a1 ops1 rs1 a2 ops2 rs2 a3 : asteps a1 ops1 rs1 a2 -> asteps a2 ops2 rs2 a3 ->
  asteps a1 (ops1 ++ ops2) (rs1 ++ rs2) a3.
Proof. induction 1; cbn; [done|]. intros. econstructor; eauto. Qed.

Lemma scripted_pure {A} now (o : outcome A) : scripted now (fun s => (o, s)).
Proof. intros s Hs. exists o, s, [], []. split_and!; first [done|apply asteps_nil|apply Forall_nil_2]. Qed.

Lemma scripted_op {A} now op (f : A -> Reply) (m : Mem A) : run_op now op = reply f m -> op_ok op ->
  script_op now (now, op) -> scripted now m.
Proof.
  intros E Hop Hs s Hwf. destruct (op_ok_outcome now op f m s E Hop Hwf) as (o & s' & Em & _ & Hwf' & Hstep).
  eexists o, s', [(now, op)], [_]. split_and!; try done; [|apply Forall_cons_2; [done|apply Forall_nil_2]].
  econstructor; [exact Hstep|constructor].
Qed.

Lemma scripted_try {A B} now (m : Mem A) (k : A -> Mem B) (f : error -> Mem B) : scripted now m -> (forall a, scripted now (k a)) ->
  (forall err, scripted now (f err)) -> scripted now (gtry m k f).
Proof.
  intros Hm Hk Hf s Hs. destruct (Hm s Hs) as (o & s1 & ops & rs & E & Hs1 & H1 & F1). unfold gtry. rewrite E.
  assert (Hgo : forall m' : Mem B, scripted now m' -> exists o' s' ops' rs', m' s1 = (o', s') /\ wf s' /\
    asteps (abstract s) ops' rs' (abstract s') /\ Forall (script_op now) ops').
  { intros m' Hm'. destruct (Hm' s1 Hs1) as (o' & s2 & ops2 & rs2 & E2 & Hs2 & H2 & F2).
    exists o', s2, (ops ++ ops2), (rs ++ rs2). split_and!; auto; [by eapply asteps_app|by apply Forall_app]. }
  destruct o as [a|e|p|]; auto; by eexists _, s1, ops, rs.
Qed.

Lemma scripted_bind {A B} now (m : Mem A) (k : A -> Mem B) : scripted now m -> (forall a, scripted now (k a)) ->
  scripted now (gbind m k).
Proof.
  intros Hm Hk. assert (E : forall s, gbind m k s = gtry m k gfail s).
  { intros s. unfold gbind, gtry. by destruct (m s) as [[]]. }
  intros s Hs. rewrite E. revert s Hs. apply scripted_try; [done|done|]. intros e. by apply scripted_pure.
Qed.

Lemma scripted_executeCommand now cmd args : scripted now (executeCommand now cmd args).
Proof.
  assert (Hbind : forall A op (f : A -> Reply) (m : Mem A) (g : A -> GoValue), run_op now op = reply f m -> op_ok op ->
    script_op now (now, op) -> scripted now (gbind m (fun a => gret (g a)))).
  { intros A op f m g E Hop Hs. apply scripted_bind; [by eapply scripted_op|]. intros. by apply scripted_pure. }
  unfold executeCommand. repeat case_bool_decide; try by apply scripted_pure.
  - destruct args as [|key [|? ?]]; try by apply scripted_pure. by apply (Hbind _ (OpGet key) RVal).
  - destruct args as [|key [|value ?]]; try by apply scripted_pure.
    by apply (Hbind _ (OpSet key value None) (fun _ => RUnit) _ (fun _ => GString (bs "OK"))).
  - destruct args as [|key rest]; try by apply scripted_pure. by apply (Hbind _ (OpDel (key :: rest)) RInt).
  - destruct args as [|key rest]; try by apply scripted_pure. by apply (Hbind _ (OpExists (key :: rest)) RInt).
  - destruct args as [|key [|? ?]]; try by apply scripted_pure. by apply (Hbind _ (OpType key) RInt).
Qed.

(** A call of a script, as it is made. *)
Definition redis_call (now : Z) (protected : bool) (argv : list LValue) : Mem Answer :=
  if protected then redisPCall now argv else redisCall now argv.

Lemma scripted_call now protected argv : scripted now (redis_call now protected argv).
Proof.
  assert (H : scripted now (executeRedisCommand now argv)).
  { unfold executeRedisCommand. destruct argv as [|name rest]; [by apply scripted_pure|].
    case_bool_decide; [by apply scripted_pure|apply scripted_executeCommand]. }
  destruct protected; apply scripted_try; try done; intros; by apply scripted_pure.
Qed.

(** Every call is answered. *)
Lemma executeCommand_returns now cmd args s : wf s -> returns (executeCommand now cmd args s).1.
Proof.
  intros Hs. assert (Hbind : forall A op (f : A -> Reply) (m : Mem A) (g : A -> GoValue), run_op now op = reply f m -> op_ok op ->
    returns (gbind m (fun a => gret (g a)) s).1).
  { intros A op f m g E Hop. destruct (op_ok_outcome now op f m s E Hop Hs) as (o & s' & Em & Ho & _).
    unfold gbind. rewrite Em. by destruct o. }
  unfold executeCommand. repeat case_bool_decide; try done.
  - destruct args as [|key [|? ?]]; try done. by apply (Hbind _ (OpGet key) RVal).
  - destruct args as [|key [|value ?]]; try done. by apply (Hbind _ (OpSet key value None) (fun _ => RUnit) _ (fun _ => GString (bs "OK"))).
  - destruct args as [|key rest]; try done. by apply (Hbind _ (OpDel (key :: rest)) RInt).
  - destruct args as [|key rest]; try done. by apply (Hbind _ (OpExists (key :: rest)) RInt).
  - destruct args as [|key [|? ?]]; try done. by apply (Hbind _ (OpType key) RInt).
Qed.

Lemma call_answers now protected argv s : wf s -> exists a s', redis_call now protected argv s = (Ok a, s') /\ wf s'.
Proof.
  intros Hs. destruct (scripted_call now protected argv s Hs) as (o & s' & _ & _ & E & Hs' & _).
  assert (Hr : returns (executeRedisCommand now argv s).1).
  { unfold executeRedisCommand. destruct argv as [|name rest]; [done|]. case_bool_decide; [done|by apply executeCommand_returns]. }
  unfold redis_call, redisCall, redisPCall, gtry in E |- *.
  destruct protected, (executeRedisCommand now argv s) as [[] s1]; try done; (eexists _, _; split; [reflexivity|]); by injection E as _ <-.
Qed.

Lemma run_script_S fuel now r : run_script (S fuel) now r =
  match vm_step r with
  | LReturn top heap L => gret (inr (top, heap), L)
  | LRaise msg L => gret (inl msg, L)
  | LCall protected argv resume =>
      let! answer := redis_call now protected argv in run_script fuel now (resume answer)
  | LTau next => run_script fuel now next
  | LExit code => fun s => (Panic (exit_panic code), s)
  end.
Proof. done. Qed.

Lemma scripted_run fuel now : forall r, scripted now (run_script fuel now r).
Proof.
  induction fuel as [|fuel IH]; intros r; [by apply scripted_pure|]. rewrite run_script_S.
  destruct (vm_step r) as [top heap L|msg L|protected argv resume|next|code]; try (by apply scripted_pure); [|apply IH].
  apply scripted_bind; [apply scripted_call|]. intros a. apply IH.
Qed.

(** A run ends with an outcome of its own, never with an error of the storage. *)
Lemma run_not_err fuel now : forall r s err s', run_script fuel now r s <> (Err err, s').
Proof.
  induction fuel as [|fuel IH]; intros r s err s'; [done|]. rewrite run_script_S.
  destruct (vm_step r) as [top heap L|msg L|protected argv resume|next|code]; try done; try apply IH.
  unfold gbind. destruct (redis_call now protected argv s) as [[a|err'| |] s1] eqn:Ea; try done; try apply IH.
  exfalso. unfold redis_call, redisCall, redisPCall, gtry in Ea.
  by destruct protected, (executeRedisCommand now argv s) as [[] ?].
Qed.

(** ** Runs that end *)

(** The run ends by itself: every call is answered and the script returns or fails. *)
Inductive run_ends (now : Z) : LRun -> MemoryStorage -> RunResult -> MemoryStorage -> Prop :=
| ends_return r top heap L s : vm_step r = LReturn top heap L -> run_ends now r s (inr (top, heap), L) s
| ends_raise r msg L s : vm_step r = LRaise msg L -> run_ends now r s (inl msg, L) s
| ends_tau r next s x s' : vm_step r = LTau next -> run_ends now next s x s' -> run_ends now r s x s'
| ends_call r protected argv resume s a s1 x s' : vm_step r = LCall protected argv resume ->
    redis_call now protected argv s = (Ok a, s1) -> run_ends now (resume a) s1 x s' -> run_ends now r s x s'.

Lemma run_ends_enough now r s x s' : run_ends now r s x s' ->
  exists n, forall fuel, (n <= fuel)%nat -> run_script fuel now r s = (Ok x, s').
Proof.
  induction 1 as [r top heap L s E|r msg L s E|r next s x s' E _ (n & IH)|r protected argv resume s a s1 x s' E Ea _ (n & IH)].
  - exists 1%nat. intros [|fuel] Hf; [lia|]. by rewrite run_script_S, E.
  - exists 1%nat. intros [|fuel] Hf; [lia|]. by rewrite run_script_S, E.
  - exists (S n). intros [|fuel] Hf; [lia|]. rewrite run_script_S, E. apply IH. lia.
  - exists (S n). intros [|fuel] Hf; [lia|]. rewrite run_script_S, E, (gbind_ok _ _ _ _ _ Ea). apply IH. lia.
Qed.

Lemma run_ends_only now fuel : forall r s x s', run_script fuel now r s = (Ok x, s') -> run_ends now r s x s'.
Proof.
  induction fuel as [|fuel IH]; intros r s x s' H; [done|]. rewrite run_script_S in H.
  destruct (vm_step r) as [top heap L|msg L|protected argv resume|next|code] eqn:E; try done.
  - injection H as <- <-. by apply ends_return.
  - injection H as <- <-. by apply ends_raise.
  - unfold gbind in H. destruct (redis_call now protected argv s) as [[a| | |] s1] eqn:Ea; try done.
    eapply ends_call; eauto.
  - eapply ends_tau; eauto.
Qed.

(** ** Values that contain themselves *)

(** A table holds another as a value. *)
Definition holds (heap : Heap) (t u : nat) : Prop := exists k, (k, LTable u) ∈ (default (0, []) (heap !! t)).2.

(** The tables in a value are nested to some depth. *)
Inductive nested (heap : Heap) : LValue -> Prop :=
| nested_leaf v : (forall t, v <> LTable t) -> nested heap v
| nested_table t : (forall kv, kv ∈ (default (0, []) (heap !! t)).2 -> nested heap kv.2) -> nested heap (LTable t).

Lemma convert_S fuel heap t : convertLuaValue (S fuel) heap (LTable t) =
  (converted ← mapM (fun kv => (fun v => (LV_String kv.1, v)) <$> convertLuaValue fuel heap kv.2) (default (0, []) (heap !! t)).2;
   Some (if isArrayLikeTable (default (0, []) (heap !! t)).1 (default (0, []) (heap !! t)).2 then GSlice (map snd converted)
         else GMap converted)).
Proof. cbn [convertLuaValue]. by destruct (default (0, []) (heap !! t)) as [len entries]. Qed.

(** The depths that are enough for a list of values. *)
Lemma depths (f : nat -> LValue * LValue -> option (bytes * GoValue)) l :
  (forall kv, kv ∈ l -> exists n y, forall fuel, (n <= fuel)%nat -> f fuel kv = Some y) ->
  exists n ys, forall fuel, (n <= fuel)%nat -> mapM (f fuel) l = Some ys.
Proof.
  induction l as [|kv l IH]; intros H; [by exists 0%nat, []|].
  destruct (H kv) as (n & y & Hy); [left|]. destruct IH as (m & ys & Hys); [intros kv' Hin; apply H; by right|].
  exists (n + m)%nat, (y :: ys). intros fuel Hf. apply mapM_Some. constructor; [apply Hy; lia|].
  apply mapM_Some, Hys. lia.
Qed.

Lemma nested_converts heap v : nested heap v -> exists n g, forall fuel, (n <= fuel)%nat -> convertLuaValue fuel heap v = Some g.
Proof.
  induction 1 as [v Hv|t _ IH].
  - exists 1%nat. destruct v as [|b|f|d|t|t]; try (by destruct (Hv t)); eexists; intros [|fuel] Hf; try lia; reflexivity.
  - destruct (depths (fun fuel kv => (fun v => (LV_String kv.1, v)) <$> convertLuaValue fuel heap kv.2)
      (default (0, []) (heap !! t)).2) as (n & ys & Hys).
    { intros kv Hin. destruct (IH kv Hin) as (n & g & Hg). exists n, (LV_String kv.1, g). intros fuel Hf. by rewrite Hg. }
    exists (S n). eexists. intros [|fuel] Hf; [lia|]. rewrite convert_S, Hys by lia. reflexivity.
Qed.

Lemma endless_converts heap (C : nat -> Prop) : (forall t, C t -> exists u, holds heap t u /\ C u) ->
  forall fuel t, C t -> convertLuaValue fuel heap (LTable t) = None.
Proof.
  intros Hstep. induction fuel as [|fuel IH]; intros t Ht; [done|]. rewrite convert_S.
  destruct (Hstep t Ht) as (u & (k & Hin) & Hu). specialize (IH u Hu).
  destruct (mapM _ _) as [ys|] eqn:E; [|done]. apply mapM_Some in E.
  apply list_elem_of_lookup in Hin as [i Hi].
  destruct (Forall2_lookup_l _ _ _ _ _ E Hi) as (y & _ & Hy). cbn in Hy. by rewrite IH in Hy.
Qed.

Lemma cyclic_converts heap t fuel : tc (holds heap) t t -> convertLuaValue fuel heap (LTable t) = None.
Proof.
  intros Ht. apply (endless_converts heap (fun u => tc (holds heap) u t)); [|done].
  intros u Hu. destruct Hu as [u v Hv|u v w Hv Hw]; [by exists v|by exists v].
Qed.

Lemma run_ends_fuel now r s x s' : run_ends now r s x s' ->
  forall fuel, run_script fuel now r s = (Ok x, s') \/ (run_script fuel now r s).1 = OutOfFuel.
Proof.
  induction 1 as [r top heap L s E|r msg L s E|r next s x s' E _ IH|r protected argv resume s a s1 x s' E Ea _ IH];
    intros [|fuel]; try (by right); rewrite run_script_S, E; [by left|by left|apply IH|].
  rewrite (gbind_ok _ _ _ _ _ Ea). apply IH.
Qed.

(** ** Running a script *)

Lemma getLuaState_ok e s : exists L e1, getLuaState (e, s) = (Ok L, (e1, s)) /\
  scripts e1 = scripts e /\ lruList e1 = lruList e.
Proof. unfold getLuaState. cbn [fst snd]. repeat case_match; eexists _, _; done. Qed.

(** What the engine makes of the end of a run. *)
Definition given_back (fuel : nat) (x : RunResult) : outcome GoValue :=
  match x.1 with
  | inl msg => Err (Errorf (bs "script execution error: " ++ msg))
  | inr (v, heap) => match convertLuaValue fuel heap v with Some g => Ok g | None => OutOfFuel end
  end.

Lemma Eval_fuel_run fuel now script keys args e s L e1 : getLuaState (e, s) = (Ok L, (e1, s)) ->
  exists pool n, Eval_fuel fuel now script keys args (e, s) =
  match run_script fuel now (DoString L script keys args) s with
  | (Ok x, s') => (given_back fuel x, (set_pool pool n e1, s'))
  | (Err err, s') => (Err err, (e1, s'))
  | (Panic p, s') => (Panic p, (e1, s'))
  | (OutOfFuel, s') => (OutOfFuel, (e1, s'))
  end.
Proof.
  intros Eg. unfold Eval_fuel. rewrite (gbind_ok _ _ _ _ _ Eg). unfold gbind, given_back. cbn [fst snd].
  destruct (run_script fuel now _ s) as [[[[msg|[v heap]] L']|err|p|] s']; try (by exists [], 0%nat); cbn.
  - by eexists _, _.
  - eexists _, _. by destruct (convertLuaValue fuel heap v).
Qed.

(** A whole run: the engine's cache stays, the storage sees such operations. *)
Lemma Eval_effects fuel now script keys args e s : wf s -> exists o e' s' ops rs,
  Eval_fuel fuel now script keys args (e, s) = (o, (e', s')) /\ wf s' /\
  asteps (abstract s) ops rs (abstract s') /\ Forall (script_op now) ops /\
  scripts e' = scripts e /\ lruList e' = lruList e.
Proof.
  intros Hs. destruct (getLuaState_ok e s) as (L & e1 & Eg & E1 & E2).
  destruct (Eval_fuel_run fuel now script keys args e s L e1 Eg) as (pool & n & ->).
  destruct (scripted_run fuel now (DoString L script keys args) s Hs) as (o & s' & ops & rs & -> & Hs' & Ha & Hf).
  destruct o; eexists _, _, s', ops, rs; (split; [reflexivity|]); done.
Qed.

(** Whatever the state it is given and the keys, the arguments and the storage, a run of
    the script comes back within the fuel, with a value that can be converted in it. *)
Definition halting (script : bytes) : Prop := forall now L keys args s, wf s ->
  exists x s', run_script lua_fuel now (DoString L script keys args) s = (Ok x, s') /\
    match x.1 with inr (v, heap) => is_Some (convertLuaValue lua_fuel heap v) | inl _ => True end.

Lemma Eval_halting now script keys args e s : wf s -> halting script -> exists o e' s',
  Eval now script keys args (e, s) = (o, (e', s')) /\ returns o /\ wf s' /\ scripts e' = scripts e.
Proof.
  intros Hs Hh. destruct (Eval_effects lua_fuel now script keys args e s Hs) as (o & e' & s' & _ & _ & E & Hs' & _ & _ & He & _).
  exists o, e', s'. split; [exact E|]. split_and!; try done.
  destruct (getLuaState_ok e s) as (L & e1 & Eg & _). destruct (Eval_fuel_run lua_fuel now script keys args e s L e1 Eg) as (pool & n & Er).
  rewrite Er in E. destruct (Hh now L keys args s Hs) as (x & s2 & Ex & Hx). rewrite Ex in E. injection E as <- _ _.
  unfold given_back. destruct x.1 as [msg|[v heap]]; [done|]. by destruct Hx as [g ->].
Qed.

(** ** Claims *)

(** C36: the script cache is a least-recently-used cache: after any sequence of
    loads it holds the latest distinct digests, as many as it may, the latest
    first, each with a script of that digest. *)
Theorem script_cache_is_lru n l :
  let e := foldl (fun e script => (LoadScript script e).2) (NewEngine [WithMaxScripts (Z.of_nat n)]) l in
  lruList e = take n (recency l) /\ (forall h, is_Some (scripts e !! h) <-> h ∈ take n (recency l)) /\
  (forall h s, scripts e !! h = Some s -> script_hash s = h).
Proof.
  destruct (loads_order n l) as (He & _ & _ & Hl). intros e. split; [exact Hl|]. split; [|apply He].
  intros h. rewrite <- Hl. symmetry. apply He.
Qed.

(** A script that was just loaded can be run by its digest, and the run is an
    [EVAL] of a cached script with that digest. *)
Theorem loaded_script_runs now e script keys args st : cache_wf e -> 0 < maxScripts e ->
  let '(h, e') := LoadScript script e in
  ScriptExists [h] e' = [true] /\ exists script' e1, script_hash script' = h /\
    EvalSHA now h keys args (e', st) = Eval now script' keys args (e1, st) /\
    scripts e1 = scripts e' /\ lruList e1 = move_to_front h (lruList e') /\
    cacheHits e1 = wrapU64 (cacheHits e' + 1).
Proof.
  intros He Hmax. pose proof (cache_wf_load e script He) as He'.
  assert (Hin : script_hash script ∈ lruList (LoadScript script e).2).
  { unfold LoadScript. destruct (scripts e !! script_hash script) eqn:Hs; [by apply move_to_front_elem; left|].
    destruct (_ <? _) eqn:Hlt; [|by left]. destruct (last _) as [old|] eqn:Hold; [|by left]. cbn [lruList set_cache snd].
    pose proof (cw_bound e He). apply Z.ltb_lt in Hlt. destruct (lruList e) as [|x l]; [cbn in Hlt; lia|].
    cbn [removelast]. left. }
  assert (Eh : (LoadScript script e).1 = script_hash script) by (unfold LoadScript; by repeat case_match).
  destruct (LoadScript script e) as [h e']. cbn in *. subst h. apply He' in Hin as [s Hs].
  split; [by rewrite bool_decide_true|]. eexists s, _. split; [by eapply cw_hash|].
  split; [unfold EvalSHA, gget, gbind at 1; cbn [fst]; rewrite Hs; reflexivity|].
  done.
Qed.

(** C33: what running a script does. Whatever the script is, and whether it comes back,
    fails, runs for ever or ends the process, all it has done to the storage after any
    number of steps is a sequence of GET, SET, DEL, EXISTS and TYPE, and the cache is
    not touched. The engine comes back only from a script whose run ends: with the error
    when the script fails, with a value when the script returns one whose tables are
    nested to some depth. On a table that contains itself, directly or through others,
    the conversion of the value never ends, however long it goes on (in Go the stack
    overflows, which ends the process). *)
Theorem script_effects now script keys args e s : wf s ->
  let run fuel := Eval_fuel fuel now script keys args (e, s) in
  (forall fuel, exists o e' s' ops rs, run fuel = (o, (e', s')) /\ wf s' /\
     asteps (abstract s) ops rs (abstract s') /\ Forall (script_op now) ops /\
     scripts e' = scripts e /\ lruList e' = lruList e) /\
  forall L es1, getLuaState (e, s) = (Ok L, es1) ->
    let ends := run_ends now (DoString L script keys args) s in
    (forall fuel, returns (run fuel).1 -> exists x s', ends x s') /\
    (forall msg L' s', ends (inl msg, L') s' -> exists n, forall fuel, (n <= fuel)%nat ->
       (run fuel).1 = Err (Errorf (bs "script execution error: " ++ msg))) /\
    (forall v heap L' s', ends (inr (v, heap), L') s' -> nested heap v ->
       exists n value, forall fuel, (n <= fuel)%nat -> (run fuel).1 = Ok value) /\
    (forall t heap L' s', ends (inr (LTable t, heap), L') s' -> tc (holds heap) t t ->
       forall fuel, (run fuel).1 = OutOfFuel).
Proof.
  intros Hs run. split; [intros fuel; by apply Eval_effects|]. intros L es1 Eg ends.
  assert (exists e1, es1 = (e1, s)) as [e1 ->].
  { destruct (getLuaState_ok e s) as (L1 & e1 & Eg1 & _). rewrite Eg in Eg1. exists e1. congruence. }
  assert (Hrun : forall fuel, exists pool n, run fuel = _) by (intros fuel; apply (Eval_fuel_run fuel now script keys args e s L e1 Eg)).
  split_and!.
  - intros fuel Ho. destruct (Hrun fuel) as (pool & n & E). rewrite E in Ho.
    destruct (run_script fuel now _ s) as [[x|err|p|] s'] eqn:Er; try done; [|by destruct (run_not_err _ _ _ _ _ _ Er)].
    exists x, s'. by eapply run_ends_only.
  - intros msg L' s' H. destruct (run_ends_enough _ _ _ _ _ H) as (n & Hn). exists n. intros fuel Hf.
    destruct (Hrun fuel) as (pool & m & ->). by rewrite (Hn fuel Hf).
  - intros v heap L' s' H Hv. destruct (run_ends_enough _ _ _ _ _ H) as (n & Hn).
    destruct (nested_converts heap v Hv) as (m & g & Hg). exists (n + m)%nat, g. intros fuel Hf.
    destruct (Hrun fuel) as (pool & k & ->). rewrite Hn by lia. unfold given_back. cbn. by rewrite Hg by lia.
  - intros t heap L' s' H Ht fuel. destruct (Hrun fuel) as (pool & m & E). rewrite E.
    destruct (run_ends_fuel _ _ _ _ _ H fuel) as [Er|Er].
    + rewrite Er. unfold given_back. cbn. by rewrite cyclic_converts.
    + by destruct (run_script fuel now _ s) as [[] ?].
Qed.

End LuaSpec.

(** ** Witnesses *)

#[local] Existing Instance sample_hash.
#[local] Existing Instance sample_runtime.

(** An interpreter: one script returns a table that holds itself, one loops, one ends
    the process, one fails, one sets its key and returns the answer; every other one
    does so and then returns the answer of an unknown command, made protected. *)
Definition self_script : bytes := bs "local t = {} t[1] = t return t".
Definition loop_script : bytes := bs "while true do end".
Definition exit_script : bytes := bs "os.exit(3)".
Definition fail_script : bytes := bs "error('no')".
Definition put_script : bytes := bs "return redis.call('SET', KEYS[1], ARGV[1])".

Inductive SampleRun : Type :=
| AtSet (argv : list bytes) (more : bool) (L : nat)
| AtNope (L : nat)
| AtReturn (v : LValue) (heap : Heap) (L : nat)
| AtRaise (msg : bytes) (L : nat)
| AtLoop
| AtExit.

Definition self_heap : Heap := {[0%nat := (1, [(LNumber (float_of_int 1), LTable 0)])]}.

Definition sample_start (L : nat) (script : bytes) (keys args : list bytes) : SampleRun :=
  if bool_decide (script = self_script) then AtReturn (LTable 0) self_heap L
  else if bool_decide (script = loop_script) then AtLoop
  else if bool_decide (script = exit_script) then AtExit
  else if bool_decide (script = fail_script) then AtRaise (bs "no") L
  else AtSet (take 1 keys ++ take 1 args) (negb (bool_decide (script = put_script))) L.

Definition sample_step (r : SampleRun) : LuaEvent nat SampleRun :=
  match r with
  | AtSet argv more L => LCall false (LString <$> bs "SET" :: argv) (fun a =>
      match a with
      | Answered v => if (more : bool) then AtNope L else AtReturn v ∅ L
      | Raised msg | ErrorTable msg => AtRaise msg L
      end)
  | AtNope L => LCall true [LString (bs "NOPE")] (fun a =>
      match a with
      | ErrorTable msg => AtReturn (LTable 0) {[0%nat := (0, [(LString (bs "err"), LString msg)])]} (S L)
      | Answered v => AtReturn v ∅ (S L)
      | Raised msg => AtRaise msg L
      end)
  | AtReturn v heap L => LReturn v heap L
  | AtRaise msg L => LRaise msg L
  | AtLoop => LTau AtLoop
  | AtExit => LExit 3
  end.

Definition sample_vm : LuaVM :=
  {| LState := nat; NewState := 0%nat; ClearGlobals := fun L => L; LRun := SampleRun;
     DoString := sample_start; vm_step := sample_step;
     LV_AsString := fun v => match v with LString s => s | _ => [] end;
     LV_String := fun v => match v with LString s => s | LOther t => t | _ => [] end;
     pool_pick := fun _ n => match n with O => None | S i => Some i end; lua_fuel := 10 |}.

Definition set_script : bytes := bs "redis.call('SET', KEYS[1], ARGV[1]) return redis.pcall('NOPE')".

Lemma loaded_script_runs_witness :
  let e := @NewEngine sample_vm [WithMaxScripts (Z.of_nat 2)] in
  let '(h, e') := LoadScript (VM := sample_vm) set_script e in
  ScriptExists (VM := sample_vm) [h] e' = [true] /\ exists script' e1, script_hash script' = h /\
    EvalSHA (VM := sample_vm) 7 h [bs "k"] [bs "v"] (e', sample_storage) =
      Eval (VM := sample_vm) 7 script' [bs "k"] [bs "v"] (e1, sample_storage) /\
    scripts (VM := sample_vm) e1 = scripts (VM := sample_vm) e' /\
    lruList (VM := sample_vm) e1 = move_to_front h (lruList (VM := sample_vm) e') /\
    cacheHits (VM := sample_vm) e1 = wrapU64 (cacheHits (VM := sample_vm) e' + 1).
Proof.
  apply (loaded_script_runs (VM := sample_vm) 7 (@NewEngine sample_vm [WithMaxScripts (Z.of_nat 2)]) set_script
    [bs "k"] [bs "v"] sample_storage); [apply new_engine_wf|done].
Defined.

#[local] Existing Instance sample_vm.

Lemma put_halting : halting put_script.
Proof.
  intros now L keys args s Hs. cbn [lua_fuel sample_vm]. rewrite run_script_S.
  change (vm_step _) with (LCall (LState := nat) (LRun := SampleRun) false (LString <$> bs "SET" :: take 1 keys ++ take 1 args) (fun a =>
    match a with Answered v => AtReturn v ∅ L | Raised msg | ErrorTable msg => AtRaise msg L end)).
  cbv iota beta. destruct (call_answers now false (LString <$> bs "SET" :: take 1 keys ++ take 1 args) s Hs) as (a & s1 & E & _).
  erewrite gbind_ok by exact E. rewrite run_script_S. destruct a as [msg|v|msg]; eexists _, _; (split; [reflexivity|]); try done.
  cbn. destruct v; cbn; try by eexists.
Qed.

(** The script that sets its key comes back with a value; the one whose table holds
    itself never does, and neither does the loop. *)
Lemma script_effects_witness :
  (exists n value, forall fuel, (n <= fuel)%nat ->
     (Eval_fuel fuel 7 set_script [bs "k"] [bs "v"] (NewEngine [], sample_storage)).1 = Ok value) /\
  (exists n, forall fuel, (n <= fuel)%nat -> (Eval_fuel fuel 7 fail_script [] [] (NewEngine [], sample_storage)).1 =
     Err (Errorf (bs "script execution error: " ++ bs "no"))) /\
  (forall fuel, (Eval_fuel fuel 7 self_script [] [] (NewEngine [], sample_storage)).1 = OutOfFuel) /\
  (forall fuel, returns (Eval_fuel fuel 7 exit_script [] [] (NewEngine [], sample_storage)).1 ->
     exists x s', run_ends 7 (DoString 0%nat exit_script [] []) sample_storage x s').
Proof.
  split_and!.
  - destruct (script_effects 7 set_script [bs "k"] [bs "v"] (NewEngine []) sample_storage sample_storage_wf) as [_ H].
    destruct (H 0%nat _ eq_refl) as (_ & _ & Hv & _). eapply Hv; [eapply (run_ends_only 7 10); vm_compute; reflexivity|].
    apply nested_table. intros kv Hin. vm_compute in Hin. apply list_elem_of_singleton in Hin as ->. by apply nested_leaf.
  - destruct (script_effects 7 fail_script [] [] (NewEngine []) sample_storage sample_storage_wf) as [_ H].
    destruct (H 0%nat _ eq_refl) as (_ & He & _). eapply He. by apply ends_raise.
  - destruct (script_effects 7 self_script [] [] (NewEngine []) sample_storage sample_storage_wf) as [_ H].
    destruct (H 0%nat _ eq_refl) as (_ & _ & _ & Hc). eapply (Hc 0%nat self_heap 0%nat sample_storage); [by apply ends_return|].
    apply tc_once. exists (LNumber (float_of_int 1)). vm_compute. left.
  - destruct (script_effects 7 exit_script [] [] (NewEngine []) sample_storage sample_storage_wf) as [_ H].
    destruct (H 0%nat _ eq_refl) as (Hr & _). exact Hr.
Defined.
