(* ===== verification/LuaCache.v ===== *)
(** * The script cache under concurrency (lua/engine.go)

    Lua runs a method of the engine as one action and keeps the cache as a map and a
    list of digests. Here the cache is the map of pointers and the ring of
    container/list that the code has, and the critical sections of goroutines that
    share the engine interleave: [EvalSHA] finds its script in one, counts, and
    moves the element it found in another. *)

From Stdlib Require Import ZArith Lia String.
From stdpp Require Import base list list_numbers gmap sets.
From S2P Require Import Prelude GoLib GoList Sha1 Lua.

(** [type scriptCacheEntry struct] *)
Record scriptCacheEntry : Type := mkEntry { en_script : bytes; en_key : nat }.

(** The fields of [Engine] that are the cache. *)
Record Cache : Type := mkCache {
  c_scripts : gmap bytes scriptCacheEntry;
  c_ring : Ring;
  c_max : Z;
  c_hits : Z;
  c_misses : Z
}.

Definition new_cache (max : Z) : Cache := mkCache ∅ ring_New max 0 0.

Definition set_ring (r : Ring) (c : Cache) : Cache := mkCache (c_scripts c) r (c_max c) (c_hits c) (c_misses c).

(** [LoadScript], under the lock from the digest on. *)
Definition cache_LoadScript (script : bytes) (c : Cache) : outcome (bytes * Cache) :=
  let hash := script_hash script in
  match c_scripts c !! hash with
  | Some entry => obind (ring_MoveToFront (en_key entry) (c_ring c)) (fun r => Ok (hash, set_ring r c))
  | None =>
      obind (ring_PushFront hash (c_ring c)) (fun '(key, r) =>
        let m := <[hash := mkEntry script key]> (c_scripts c) in
        let full := mkCache m r (c_max c) (c_hits c) (c_misses c) in
        if c_max c <? r_len r then
          match ring_Back r with
          | Some oldest =>
              match r_value r !! oldest with
              | Some oldHash =>
                  obind (ring_Remove oldest r) (fun r' =>
                    Ok (hash, mkCache (delete oldHash m) r' (c_max c) (c_hits c) (c_misses c)))
              | None => Panic nil_pointer
              end
          | None => Ok (hash, full)
          end
        else Ok (hash, full))
  end.

Definition cache_ScriptExists (hashes : list bytes) (c : Cache) : list bool :=
  (fun h => bool_decide (is_Some (c_scripts c !! h))) <$> hashes.

Definition cache_ScriptFlush (c : Cache) : Cache := mkCache ∅ (ring_Init (c_ring c)) (c_max c) 0 0.

(** ** Goroutines *)

(** A call of [EvalSHA] that has read the map: it found nothing, or an entry that it
    has yet to count, or to move to the front. *)
Inductive Call : Type :=
| Missed (sha : bytes)
| Found (sha : bytes) (entry : scriptCacheEntry)
| Counted (sha : bytes) (entry : scriptCacheEntry).

(** The critical sections: those of [EvalSHA], of a new call or of the call at a place
    of the list, and those of the other methods. *)
Inductive Critical : Type :=
| Lookup (sha : bytes)
| Count (k : nat)
| Touch (k : nat)
| Load (script : bytes)
| Query (hashes : list bytes)
| Flush.

(** What a section ends with for its caller. [Run]: [EvalSHA] goes on to [Eval] this
    script. *)
Inductive Answer : Type :=
| Nothing
| NoScript (sha : bytes)
| Run (sha script : bytes)
| Digest (hash : bytes)
| Known (l : list bool).

Record Shared : Type := mkShared { cache : Cache; calls : list Call }.

(** One section. A number that no call in its state has changes nothing. *)
Definition section_step (ev : Critical) (x : Shared) : outcome (Answer * Shared) :=
  let c := cache x in
  match ev with
  | Lookup sha =>
      let call := match c_scripts c !! sha with Some entry => Found sha entry | None => Missed sha end in
      Ok (Nothing, mkShared c (calls x ++ [call]))
  | Count k =>
      match calls x !! k with
      | Some (Missed sha) =>
          Ok (NoScript sha, mkShared (mkCache (c_scripts c) (c_ring c) (c_max c) (c_hits c) (wrapU64 (c_misses c + 1)))
                (delete k (calls x)))
      | Some (Found sha entry) =>
          Ok (Nothing, mkShared (mkCache (c_scripts c) (c_ring c) (c_max c) (wrapU64 (c_hits c + 1)) (c_misses c))
                (<[k := Counted sha entry]> (calls x)))
      | _ => Ok (Nothing, x)
      end
  | Touch k =>
      match calls x !! k with
      | Some (Counted sha entry) =>
          obind (ring_MoveToFront (en_key entry) (c_ring c)) (fun r =>
            Ok (Run sha (en_script entry), mkShared (set_ring r c) (delete k (calls x))))
      | _ => Ok (Nothing, x)
      end
  | Load script =>
      obind (cache_LoadScript script c) (fun '(hash, c') => Ok (Digest hash, mkShared c' (calls x)))
  | Query hashes => Ok (Known (cache_ScriptExists hashes c), x)
  | Flush => Ok (Nothing, mkShared (cache_ScriptFlush c) (calls x))
  end.

Fixpoint sections_run (evs : list Critical) (x : Shared) : outcome (list Answer * Shared) :=
  match evs with
  | [] => Ok ([], x)
  | ev :: evs =>
      obind (section_step ev x) (fun '(a, x1) =>
        obind (sections_run evs x1) (fun '(l, x2) => Ok (a :: l, x2)))
  end.
