(* ===== verification/LuaCacheSpec.v ===== *)
(** * What the script cache guarantees under concurrency

    As long as no [ScriptFlush] falls between the two sections of an [EvalSHA], the
    ring and its pointers are the least-recently-used cache of Lua; when one does, a
    load can lose the script it has just stored. *)

From Stdlib Require Import ZArith Lia String.
From stdpp Require Import base list list_numbers gmap sets.
From S2P Require Import Prelude GoLib GoList Sha1 Lua LuaSpec LuaCache.

Section LuaCacheSpec.
  Context {VM : LuaVM}.

Implicit Types (c : Cache) (e : Engine) (r : Ring) (h sha : bytes).

(** ** The specification: the engine of Lua and its calls *)

(** A call under way; [alive]: its script has not been evicted since it was found. *)
Inductive ACall : Type :=
| AMissed (sha : bytes)
| AFound (sha script : bytes) (alive : bool)
| ACounted (sha script : bytes) (alive : bool).

Definition still (e : Engine) (a : ACall) : ACall :=
  let is_in sha := bool_decide (is_Some (scripts e !! sha)) in
  match a with
  | AMissed sha => AMissed sha
  | AFound sha script alive => AFound sha script (alive && is_in sha)
  | ACounted sha script alive => ACounted sha script (alive && is_in sha)
  end.

Definition engine_step (ev : Critical) (x : Engine * list ACall) : Answer * (Engine * list ACall) :=
  let '(e, l) := x in
  match ev with
  | Lookup sha => (Nothing, (e, l ++ [match scripts e !! sha with Some script => AFound sha script true | None => AMissed sha end]))
  | Count k =>
      match l !! k with
      | Some (AMissed sha) => (NoScript sha, (set_counters (cacheHits e) (wrapU64 (cacheMisses e + 1)) e, delete k l))
      | Some (AFound sha script alive) =>
          (Nothing, (set_counters (wrapU64 (cacheHits e + 1)) (cacheMisses e) e, <[k := ACounted sha script alive]> l))
      | _ => (Nothing, x)
      end
  | Touch k =>
      match l !! k with
      | Some (ACounted sha script alive) =>
          (Run sha script,
           ((if alive then set_cache (scripts e) (move_to_front sha (lruList e)) e else e), delete k l))
      | _ => (Nothing, x)
      end
  | Load script => let '(hash, e') := LoadScript script e in (Digest hash, (e', still e' <$> l))
  | Query hashes => (Known (ScriptExists hashes e), x)
  | Flush => (Nothing, (ScriptFlush e, still (ScriptFlush e) <$> l))
  end.

Fixpoint engine_run (evs : list Critical) (x : Engine * list ACall) : list Answer * (Engine * list ACall) :=
  match evs with
  | [] => ([], x)
  | ev :: evs => let '(a, x1) := engine_step ev x in let '(l, x2) := engine_run evs x1 in (a :: l, x2)
  end.

(** No flush while a call holds an entry. *)
Definition holds_entry (a : ACall) : bool := match a with AMissed _ => false | _ => true end.

Fixpoint flushes_apart (evs : list Critical) (x : Engine * list ACall) : bool :=
  match evs with
  | [] => true
  | ev :: evs =>
      (match ev with Flush => negb (existsb holds_entry x.2) | _ => true end) && flushes_apart evs (engine_step ev x).2
  end.

(** ** The relation *)

(** [l]: the elements of the ring, in order. *)
Record represents (l : list nat) (c : Cache) (e : Engine) : Prop := {
  rp_ring : ring_is (c_ring c) l;
  rp_order : (fun x => r_value (c_ring c) !! x) <$> l = Some <$> lruList e;
  rp_entry h entry : c_scripts c !! h = Some entry -> en_key entry ∈ l /\ r_value (c_ring c) !! en_key entry = Some h;
  rp_scripts : scripts e = en_script <$> c_scripts c;
  rp_max : maxScripts e = c_max c;
  rp_hits : cacheHits e = c_hits c;
  rp_misses : cacheMisses e = c_misses c;
  rp_nodup : NoDup (lruList e);
  rp_keys h : h ∈ lruList e <-> is_Some (scripts e !! h)
}.

(** An element still in the ring is the one its call found. *)
Definition elem_rel (l : list nat) (r : Ring) (x : nat) (sha : bytes) (alive : bool) : Prop :=
  (x <= r_made r)%nat /\ if alive then x ∈ l /\ r_value r !! x = Some sha else x ∉ r_owned r.

Definition call_rel (l : list nat) (r : Ring) (k : Call) (a : ACall) : Prop :=
  match k, a with
  | Missed sha, AMissed sha' => sha = sha'
  | Found sha (mkEntry s x), AFound sha' s' alive => sha = sha' /\ s = s' /\ elem_rel l r x sha alive
  | Counted sha (mkEntry s x), ACounted sha' s' alive => sha = sha' /\ s = s' /\ elem_rel l r x sha alive
  | _, _ => False
  end.

Definition simulates (x : Shared) (y : Engine * list ACall) : Prop :=
  cache_wf y.1 /\ exists l, represents l (cache x) y.1 /\ Forall2 (call_rel l (c_ring (cache x))) (calls x) y.2.

(** ** Lists *)

Lemma order_split (v : nat -> option bytes) (l : list nat) (L : list bytes) x : v <$> l = Some <$> L -> x ∈ l ->
  exists l1 l2 h L1 L2, l = l1 ++ x :: l2 /\ L = L1 ++ h :: L2 /\ v x = Some h /\
    v <$> l1 = Some <$> L1 /\ v <$> l2 = Some <$> L2.
Proof.
  intros E (l1 & l2 & ->)%list_elem_of_split. rewrite fmap_app, fmap_cons in E. symmetry in E.
  apply fmap_app_inv in E as (L1 & L' & E1 & E2 & ->). destruct L' as [|h L2]; [done|].
  rewrite fmap_cons in E2. injection E2 as E2 E3. by exists l1, l2, h, L1, L2.
Qed.

Lemma move_to_front_split h (L1 L2 : list bytes) : NoDup (L1 ++ h :: L2) -> move_to_front h (L1 ++ h :: L2) = h :: L1 ++ L2.
Proof.
  intros (_ & Hd & Hn)%NoDup_app. apply NoDup_cons in Hn as [Hh _]. unfold move_to_front.
  rewrite filter_app, filter_cons. rewrite (decide_False (P := h <> h)) by (intros H; by apply H).
  rewrite !filter_fresh; [done|done|]. intros H. apply (Hd h H). by left.
Qed.

Lemma order_inj r (l : list nat) (L : list bytes) x y h : (fun x => r_value r !! x) <$> l = Some <$> L -> NoDup L ->
  x ∈ l -> y ∈ l -> r_value r !! x = Some h -> r_value r !! y = Some h -> x = y.
Proof.
  intros E Hn Hx Hy Ex Ey. destruct (order_split _ _ _ x E Hx) as (l1 & l2 & h' & L1 & L2 & -> & -> & Eh & E1 & E2).
  assert (h' = h) as -> by congruence. clear E. destruct (decide (x = y)) as [|Hne]; [done|exfalso].
  apply NoDup_app in Hn as (_ & Hd & Hn). apply NoDup_cons in Hn as [Hn _].
  assert (Hin : forall (l' : list nat) (L' : list bytes), (fun x => r_value r !! x) <$> l' = Some <$> L' -> y ∈ l' -> h ∈ L').
  { intros l' L' E Hy'. assert (H : Some h ∈ Some <$> L') by (rewrite <- E, <- Ey; by apply (list_elem_of_fmap_2 (fun x => r_value r !! x))).
    apply list_elem_of_fmap in H as (? & [= <-] & H). done. }
  apply elem_of_app in Hy as [Hy|[Hy|Hy]%elem_of_cons]; [|done|].
  - apply (Hd h); [by eapply Hin|by left].
  - by apply Hn, (Hin l2).
Qed.

(** ** The operations *)

Lemma call_rel_still l l' r r' e' k a :
  (forall x sha alive, elem_rel l r x sha alive -> elem_rel l' r' x sha (alive && bool_decide (is_Some (scripts e' !! sha)))) ->
  call_rel l r k a -> call_rel l' r' k (still e' a).
Proof. intros H. destruct k as [|? []|? []], a; cbn; try done; intros (-> & -> & Hx); split_and!; auto. Qed.

Lemma call_rel_same l l' r r' k a : (forall x sha alive, elem_rel l r x sha alive -> elem_rel l' r' x sha alive) ->
  call_rel l r k a -> call_rel l' r' k a.
Proof. intros H. destruct k as [|? []|? []], a; cbn; try done; intros (-> & -> & Hx); split_and!; auto. Qed.

(** What moving elements of the ring leaves as it was. *)
Definition same_elems (l l' : list nat) (r r' : Ring) : Prop :=
  (forall x, x ∈ l <-> x ∈ l') /\ r_value r' = r_value r /\ r_owned r' = r_owned r /\ r_made r' = r_made r.

Lemma elem_rel_same l l' r r' x sha alive : same_elems l l' r r' -> elem_rel l r x sha alive -> elem_rel l' r' x sha alive.
Proof. intros (H1 & H2 & H3 & H4). unfold elem_rel. rewrite H2, H3, H4. destruct alive; [rewrite H1|]; done. Qed.

Lemma value_cached l c e x sha : represents l c e -> x ∈ l -> r_value (c_ring c) !! x = Some sha -> is_Some (scripts e !! sha).
Proof.
  intros Hc Hx Ex. apply (rp_keys l c e Hc).
  destruct (order_split _ _ _ x (rp_order l c e Hc) Hx) as (l1 & l2 & h & L1 & L2 & _ & -> & Eh & _).
  assert (h = sha) as -> by congruence. set_solver.
Qed.

(** Moving an element of the ring to its front. *)
Lemma touch_live l c e x sha : represents l c e -> x ∈ l -> r_value (c_ring c) !! x = Some sha ->
  exists r l', ring_MoveToFront x (c_ring c) = Ok r /\ same_elems l l' (c_ring c) r /\
    represents l' (set_ring r c) (set_cache (scripts e) (move_to_front sha (lruList e)) e).
Proof.
  intros Hc Hx Ex. pose proof (value_cached l c e x sha Hc Hx Ex) as Hs. pose proof Hc as [Hr Ho He Hsc Hm Hh Hi Hn Hk].
  destruct (order_split _ _ _ x Ho Hx) as (l1 & l2 & h & L1 & L2 & -> & EL & Eh & E1 & E2).
  assert (h = sha) as -> by congruence.
  destruct (MoveToFront_is _ l1 x l2 Hr) as (r & Er & Hr' & Hv & How & Hma).
  exists r, (x :: l1 ++ l2). split; [done|].
  assert (Hel : forall y, y ∈ l1 ++ x :: l2 <-> y ∈ x :: l1 ++ l2) by set_solver. split; [done|].
  split; cbn [set_ring set_cache c_ring c_scripts c_max c_hits c_misses scripts lruList maxScripts cacheHits cacheMisses]; try done.
  - rewrite Hv, EL, move_to_front_split by (by rewrite <- EL).
    rewrite !fmap_cons, !fmap_app, E1, E2. by rewrite Ex.
  - intros h entry Hy. rewrite <- Hel, Hv. by apply He.
  - by apply move_to_front_nodup.
  - intros h. rewrite move_to_front_elem, Hk. naive_solver.
Qed.

Lemma load_cached l c e script entry : represents l c e -> c_scripts c !! script_hash script = Some entry ->
  exists c' l', cache_LoadScript script c = Ok ((LoadScript script e).1, c') /\ represents l' c' (LoadScript script e).2 /\
    same_elems l l' (c_ring c) (c_ring c') /\ scripts (LoadScript script e).2 = scripts e.
Proof.
  intros Hc Es. destruct entry as [s x]. destruct (rp_entry l c e Hc _ _ Es) as [Hx Ex].
  destruct (touch_live l c e x _ Hc Hx Ex) as (r & l' & Er & Hl & Hc').
  assert (Ese : scripts e !! script_hash script = Some s) by (by rewrite (rp_scripts l c e Hc), lookup_fmap, Es).
  unfold cache_LoadScript, LoadScript. rewrite Es, Ese. cbn [fst snd en_key] in *. rewrite Er. by exists (set_ring r c), l'.
Qed.

(** The two halves of a load of a script not yet there. *)
Definition pushed (h script : bytes) (e : Engine) : Engine := set_cache (<[h := script]> (scripts e)) (h :: lruList e) e.
Definition evicted (old : bytes) (e : Engine) : Engine := set_cache (delete old (scripts e)) (removelast (lruList e)) e.

Lemma push_represents l c e script h : represents l c e -> c_scripts c !! h = None ->
  exists r, ring_PushFront h (c_ring c) = Ok (S (r_made (c_ring c)), r) /\
    represents (S (r_made (c_ring c)) :: l)
      (mkCache (<[h := mkEntry script (S (r_made (c_ring c)))]> (c_scripts c)) r (c_max c) (c_hits c) (c_misses c))
      (pushed h script e) /\
    (forall x sha alive, elem_rel l (c_ring c) x sha alive -> elem_rel (S (r_made (c_ring c)) :: l) r x sha alive).
Proof.
  intros Hc Eh. pose proof Hc as [Hr Ho He Hsc Hm Hh Hi Hn Hk].
  destruct (PushFront_is h _ l Hr) as (r & Er & Hr' & Hv & How & Hma). set (x0 := S (r_made (c_ring c))) in *.
  assert (Hx0 : x0 ∉ l) by (intros H; destruct (ri_made (c_ring c) l Hr x0); [by left|subst x0; lia]).
  exists r. split; [done|]. split.
  - split; cbn; try done.
    + rewrite Hv, lookup_insert_eq. f_equal. rewrite <- Ho. apply list_fmap_ext. intros i x Hx%list_elem_of_lookup_2.
      by rewrite lookup_insert_ne by set_solver.
    + intros h' entry. rewrite Hv. rewrite lookup_insert_Some. intros [[<- <-]|[Hne Hy]]; cbn.
      * split; [by left|apply lookup_insert_eq].
      * destruct (He _ _ Hy) as [Hi' Hv']. split; [by right|]. rewrite lookup_insert_ne; [done|].
        intros E. apply Hx0. by rewrite E.
    + by rewrite Hsc, fmap_insert.
    + constructor; [|done]. rewrite Hk, Hsc, lookup_fmap, Eh. apply is_Some_None.
    + intros h'. rewrite elem_of_cons, Hk, lookup_insert_is_Some. destruct (decide (h = h')); naive_solver.
  - intros x sha alive [Hx Ha]. assert (x <> x0) by (subst x0; lia). split; [rewrite Hma; lia|].
    destruct alive; rewrite ?Hv, ?How; [|set_solver]. rewrite lookup_insert_ne by done. split; [right|]; apply Ha.
Qed.

Lemma evict_represents l x c e old : represents (l ++ [x]) c e -> last (lruList e) = Some old ->
  ring_Back (c_ring c) = Some x /\ r_value (c_ring c) !! x = Some old /\ exists r, ring_Remove x (c_ring c) = Ok r /\
    represents l (mkCache (delete old (c_scripts c)) r (c_max c) (c_hits c) (c_misses c)) (evicted old e) /\
    (forall y sha alive, elem_rel (l ++ [x]) (c_ring c) y sha alive ->
       elem_rel l r y sha (alive && bool_decide (is_Some (scripts (evicted old e) !! sha)))).
Proof.
  intros Hc Hold. pose proof Hc as [Hr Ho He Hsc Hm Hh Hi Hn Hk]. apply last_Some in Hold as [L EL].
  assert (Ev : (fun y => r_value (c_ring c) !! y) <$> l = Some <$> L /\ r_value (c_ring c) !! x = Some old).
  { rewrite EL, !fmap_app in Ho. apply app_inj_tail in Ho as [? [=]]. done. }
  destruct Ev as [Ho' Ex]. split; [by apply (Back_is _ l)|]. split; [done|].
  destruct (Remove_is _ l x [] Hr) as (r & Er & Hr' & Hv & How & Hma). rewrite app_nil_r in Hr'.
  exists r. split; [done|].
  assert (Hx : x ∉ l) by (pose proof (ri_nodup _ _ Hr) as (_ & Hd & _)%NoDup_app; intros H; apply (Hd x H); by left).
  assert (Hold : old ∉ L) by (rewrite EL in Hn; apply NoDup_app in Hn as (_ & Hd & _); intros H; apply (Hd old H); by left).
  split.
  - split; cbn; try done.
    + by rewrite Hv, EL, removelast_last.
    + intros h entry. rewrite lookup_delete_Some, Hv. intros [Hne Hy]. destruct (He _ _ Hy) as [[|Hin]%elem_of_app Hy'].
      * done.
      * apply list_elem_of_singleton in Hin. rewrite Hin in Hy'. congruence.
    + by rewrite Hsc, fmap_delete.
    + rewrite EL, removelast_last. rewrite EL in Hn. by apply NoDup_app in Hn as [? _].
    + intros h. rewrite EL, removelast_last, lookup_delete_is_Some, <- Hk, EL. set_solver.
  - intros y sha alive [Hy Ha]. split; [by rewrite Hma|]. destruct alive; cbn [andb]; [|rewrite How; set_solver].
    destruct Ha as [Hin Hsha]. case_bool_decide as Hs; [|rewrite How].
    + rewrite Hv. split; [|done]. apply elem_of_app in Hin as [|Hin%list_elem_of_singleton]; [done|subst y].
      assert (sha = old) as -> by congruence. cbn in Hs. rewrite lookup_delete_eq in Hs. by destruct Hs.
    + pose proof (value_cached _ _ _ _ _ Hc Hin Hsha) as Hs'. cbn in Hs. rewrite lookup_delete_is_Some in Hs.
      assert (sha = old) as -> by (destruct (decide (old = sha)); [done|by destruct Hs]).
      assert (y = x) as ->; [|set_solver].
      eapply (order_inj (c_ring c) (l ++ [x]) (lruList e)); [done|done|done|set_solver|done|done].
Qed.

Lemma rel_alive l c e l0 r0 x sha alive : represents l c e -> (forall x sha alive, elem_rel l0 r0 x sha alive -> elem_rel l (c_ring c) x sha alive) ->
  elem_rel l0 r0 x sha alive -> elem_rel l (c_ring c) x sha (alive && bool_decide (is_Some (scripts e !! sha))).
Proof.
  intros Hc H Hx. apply H in Hx. destruct alive; [|done]. destruct Hx as [? [Hin Hv]].
  rewrite bool_decide_true by (by eapply value_cached). done.
Qed.

Lemma represents_length l c e : represents l c e -> length l = length (lruList e).
Proof. intros Hc. pose proof (f_equal length (rp_order l c e Hc)) as H. by rewrite !length_fmap in H. Qed.

Lemma load_represents l c e script : represents l c e ->
  exists c' l', cache_LoadScript script c = Ok ((LoadScript script e).1, c') /\ represents l' c' (LoadScript script e).2 /\
    (forall x sha alive, elem_rel l (c_ring c) x sha alive ->
       elem_rel l' (c_ring c') x sha (alive && bool_decide (is_Some (scripts (LoadScript script e).2 !! sha)))).
Proof.
  intros Hc. set (h := script_hash script). destruct (c_scripts c !! h) as [entry|] eqn:Es.
  { destruct (load_cached l c e script entry Hc Es) as (c' & l' & E & Hc' & Hl & _). exists c', l'. split_and!; [done..|].
    intros x sha alive. apply rel_alive; [done|]. intros ???. by apply elem_rel_same. }
  assert (Ese : scripts e !! h = None) by (by rewrite (rp_scripts l c e Hc), lookup_fmap, Es).
  destruct (push_represents l c e script h Hc Es) as (r & Er & Hp & Hx).
  unfold cache_LoadScript, LoadScript. fold h. rewrite Es, Ese, Er. cbn [obind].
  change (<[h := script]> (scripts e)) with (scripts (pushed h script e)). change (h :: lruList e) with (lruList (pushed h script e)).
  set (c1 := mkCache _ _ _ _ _) in *. rewrite (ri_len _ _ (rp_ring _ _ _ Hp) : r_len r = _).
  rewrite (represents_length _ _ _ Hp), (rp_max l c e Hc).
  destruct (_ <? _).
  - destruct (last (lruList (pushed h script e))) as [old|] eqn:Hold; [|by rewrite last_None in Hold].
    destruct (exists_last (l := S (r_made (c_ring c)) :: l)) as (l' & x & El); [done|]. rewrite El in Hp.
    destruct (evict_represents l' x c1 _ old Hp Hold) as (Eb & Ev & r' & Err & He & Hx').
    change (c_ring c1) with r in *. rewrite Eb, Ev, Err. cbn [obind]. eexists _, l'. split; [done|]. split; [exact He|].
    intros y sha alive Hy. apply Hx'. rewrite <- El. by apply Hx.
  - eexists c1, _. split; [done|]. split; [exact Hp|]. intros x sha alive. apply (rel_alive _ c1 (pushed h script e)); done.
Qed.

(** ** Steps and runs *)

Lemma empty_cache_wf e : scripts e = ∅ -> lruList e = [] -> cache_wf e.
Proof.
  intros E1 E2. split; rewrite ?E1, ?E2; [constructor| |by intros h s; rewrite lookup_empty|cbn; lia].
  intros h. rewrite lookup_empty. split; [by intros H%not_elem_of_nil|by intros []].
Qed.

(** A change of the engine other than of the cache. *)
Lemma represents_counters l c e hits misses : represents l c e ->
  represents l (mkCache (c_scripts c) (c_ring c) (c_max c) hits misses) (set_counters hits misses e).
Proof. by intros []. Qed.

Lemma section_simulates ev x y : simulates x y -> (ev = Flush -> existsb holds_entry y.2 = false) ->
  exists x', section_step ev x = Ok ((engine_step ev y).1, x') /\ simulates x' (engine_step ev y).2.
Proof.
  destruct x as [c ks], y as [e l]. intros (Hw & els & Hc & Hk) Hf. cbn [cache calls fst snd] in *.
  assert (Hl : forall k, option_Forall2 (call_rel els (c_ring c)) (ks !! k) (l !! k)) by (intros; by apply Forall2_lookup).
  destruct ev as [sha|k|k|script|hashes|]; cbn [section_step engine_step cache calls].
  - eexists. split; [done|]. split; [done|]. exists els. split; [done|]. cbn. apply Forall2_app; [done|].
    apply Forall2_cons_2; [|done]. rewrite (rp_scripts _ _ _ Hc), lookup_fmap.
    destruct (c_scripts c !! sha) as [[s x]|] eqn:E; cbn; [|done].
    destruct (rp_entry _ _ _ Hc _ _ E) as [Hx Hv]. split_and!; [done|done|]. split; [|by split].
    apply (ri_made _ _ (rp_ring _ _ _ Hc) x). by left.
  - specialize (Hl k). destruct (ks !! k) as [a|] eqn:Ek, (l !! k) as [a'|] eqn:El; inversion Hl as [? ? Ha|]; subst;
      [|by eexists; split; [done|]; split; [|exists els]].
    destruct a as [sha|sha [s x]|sha [s x]], a' as [sha'|sha' s' alive|sha' s' alive]; cbn in Ha; try done.
    + subst sha'. rewrite (rp_hits _ _ _ Hc), (rp_misses _ _ _ Hc). eexists. split; [done|]. split; [by apply cache_wf_counters|].
      exists els. split; [by apply represents_counters|]. by apply Forall2_delete.
    + destruct Ha as (-> & -> & Hx). rewrite (rp_hits _ _ _ Hc), (rp_misses _ _ _ Hc). eexists. split; [done|].
      split; [by apply cache_wf_counters|]. exists els. split; [by apply represents_counters|]. by apply Forall2_insert.
    + by eexists; split; [done|]; split; [|exists els].
  - specialize (Hl k). destruct (ks !! k) as [a|] eqn:Ek, (l !! k) as [a'|] eqn:El; inversion Hl as [? ? Ha|]; subst;
      [|by eexists; split; [done|]; split; [|exists els]].
    destruct a as [sha|sha [s x]|sha [s x]], a' as [sha'|sha' s' alive|sha' s' alive]; cbn in Ha; try done;
      try (by eexists; split; [done|]; split; [|exists els]).
    destruct Ha as (-> & -> & Hle & Hx). cbn [en_key en_script]. destruct alive.
    + destruct Hx as [Hin Hv]. destruct (touch_live _ _ _ _ _ Hc Hin Hv) as (r & els' & -> & Hs & Hc').
      cbn [obind]. eexists. split; [done|]. split; [apply cache_wf_touch; [done|by eapply value_cached]|].
      exists els'. split; [done|]. apply Forall2_delete. eapply Forall2_impl; [done|].
      intros ? ?. apply call_rel_same. intros ???. by apply elem_rel_same.
    + rewrite MoveToFront_stale by done. cbn [obind]. eexists. split; [done|]. split; [done|]. exists els.
      split; [|by apply Forall2_delete]. by destruct c.
  - destruct (load_represents els c e script Hc) as (c' & els' & -> & Hc' & Hx). cbn [obind].
    destruct (LoadScript script e) as [hash e'] eqn:E. cbn [fst snd] in *. eexists. split; [done|].
    split; [cbn; pose proof (cache_wf_load e script Hw) as Hw'; by rewrite E in Hw'|]. exists els'. split; [done|]. cbn.
    apply Forall2_fmap_r. eapply Forall2_impl; [done|]. intros a a' Ha. by eapply call_rel_still.
  - exists (mkShared c ks). split; [|by split; [|exists els]]. unfold cache_ScriptExists, ScriptExists. cbn [fst].
    do 3 f_equal. apply list_fmap_ext. intros _ h _. rewrite (rp_scripts _ _ _ Hc), lookup_fmap. apply bool_decide_ext. by rewrite fmap_is_Some.
  - eexists. split; [done|]. specialize (Hf eq_refl). split; [by apply empty_cache_wf|]. exists []. split.
    + split; cbn; try done; [apply (Init_is _ els), (rp_ring _ _ _ Hc)|apply (rp_max _ _ _ Hc)|constructor|].
      intros h. rewrite lookup_empty. split; [by intros ?%not_elem_of_nil|by intros []].
    + cbn. clear Hl. induction Hk as [|a a' ks l Ha _ IH]; [constructor|]. cbn [existsb] in Hf. rewrite fmap_cons.
      apply orb_false_iff in Hf as [Ha' Hf]. constructor; [|by apply IH]. destruct a as [|? []|? []], a'; try done.
Qed.

Lemma sections_simulate evs x y : simulates x y -> flushes_apart evs y = true ->
  exists x', sections_run evs x = Ok ((engine_run evs y).1, x') /\ simulates x' (engine_run evs y).2.
Proof.
  revert x y. induction evs as [|ev evs IH]; intros x y Hx Hf; [by exists x|].
  cbn [sections_run engine_run flushes_apart] in *. apply andb_true_iff in Hf as [Hev Hf].
  destruct (section_simulates ev x y Hx) as (x1 & -> & Hx1).
  { intros ->. by apply negb_true_iff in Hev. }
  destruct (engine_step ev y) as [a y1]. cbn [obind fst snd] in *. destruct (IH x1 y1 Hx1 Hf) as (x2 & -> & Hx2).
  destruct (engine_run evs y1) as [l y2]. by exists x2.
Qed.

Lemma new_simulates n : simulates (mkShared (new_cache n) []) (NewEngine [WithMaxScripts n], []).
Proof.
  split; [by apply empty_cache_wf|]. exists []. split; [|constructor]. split; cbn; try done; [apply New_is|constructor|].
  intros h. rewrite lookup_empty. split; [by intros ?%not_elem_of_nil|by intros []].
Qed.

(** A script comes with its digest, in the cache and with every call. *)
Definition call_digest (e : Engine) (a : ACall) : Prop :=
  match a with
  | AMissed _ => True
  | AFound sha script alive | ACounted sha script alive =>
      script_hash script = sha /\ (alive = true -> is_Some (scripts e !! sha))
  end.
Definition answer_digest (a : Answer) : Prop := match a with Run sha script => script_hash script = sha | _ => True end.

Lemma call_digest_still e e' a : call_digest e a -> call_digest e' (still e' a).
Proof.
  destruct a as [|sha script alive|sha script alive]; cbn; [done| |]; intros [H _]; (split; [done|]);
    intros [_ H']%andb_true_iff; by apply bool_decide_eq_true_1 in H'.
Qed.

Lemma engine_step_digest ev e l : cache_wf e -> Forall (call_digest e) l ->
  answer_digest (engine_step ev (e, l)).1 /\ cache_wf (engine_step ev (e, l)).2.1 /\
  Forall (call_digest (engine_step ev (e, l)).2.1) (engine_step ev (e, l)).2.2 /\
  maxScripts (engine_step ev (e, l)).2.1 = maxScripts e.
Proof.
  intros He Hl. assert (Hk : forall k a, l !! k = Some a -> call_digest e a) by (intros; by eapply Forall_lookup_1).
  assert (Hstill : forall e', Forall (call_digest e') (still e' <$> l)).
  { intros e'. apply Forall_fmap. eapply Forall_impl; [done|]. intros a. apply call_digest_still. }
  destruct ev as [sha|k|k|script|hashes|]; cbn [engine_step].
  - split_and!; [done|done| |done]. cbn. apply Forall_app_2; [done|]. apply Forall_singleton.
    destruct (scripts e !! sha) eqn:E; cbn; [split; [by eapply cw_hash|by rewrite E]|done].
  - destruct (l !! k) as [[]|] eqn:Ek; cbn; split_and!; try done; try (by apply cache_wf_counters).
    + by apply Forall_delete.
    + apply Forall_insert; [done|]. exact (Hk k _ Ek).
  - destruct (l !! k) as [[| |sha script []]|] eqn:Ek; cbn; split_and!; try done; try (by apply Forall_delete);
      try (by apply (Hk k) in Ek as [? _]).
    apply cache_wf_touch; [done|]. by apply (Hk k) in Ek as [_ H]; apply H.
  - pose proof (cache_wf_load e script He) as He'. pose proof (load_max e script) as Hm.
    destruct (LoadScript script e) as [hash e']. cbn in *. done.
  - done.
  - split_and!; [done|by apply empty_cache_wf|apply Hstill|done].
Qed.

Lemma engine_run_digest evs e l : cache_wf e -> Forall (call_digest e) l ->
  Forall answer_digest (engine_run evs (e, l)).1 /\ maxScripts (engine_run evs (e, l)).2.1 = maxScripts e.
Proof.
  revert e l. induction evs as [|ev evs IH]; intros e l He Hl; [by split|]. cbn [engine_run].
  destruct (engine_step_digest ev e l He Hl) as (Ha & He' & Hl' & Hm).
  destruct (engine_step ev (e, l)) as [a [e1 l1]]. cbn in *. destruct (IH e1 l1 He' Hl') as [Hrest Hm'].
  destruct (engine_run evs (e1, l1)) as [rest [e2 l2]]. cbn in *. split; [by constructor|congruence].
Qed.

Lemma represents_size l c e : represents l c e -> size (c_scripts c) = length (lruList e).
Proof.
  intros Hc. rewrite <- (size_list_to_set (C := gset bytes) (lruList e)) by apply Hc.
  rewrite <- (size_dom (D := gset bytes)). f_equal. apply set_eq. intros h. rewrite elem_of_dom, elem_of_list_to_set.
  rewrite (rp_keys _ _ _ Hc), (rp_scripts _ _ _ Hc), lookup_fmap. by rewrite fmap_is_Some.
Qed.

(** ** A flush in between *)

(** What becomes of the ring: the element moved after the flush is there without being
    counted, and is the next to be evicted. *)
Lemma flushed_ring (va vb : bytes) : exists r1 r2 r3 r4 r5 r6 r7,
  ring_PushFront va ring_New = Ok (1%nat, r1) /\ r_len r1 = 1 /\ ring_MoveToFront 1 (ring_Init r1) = Ok r2 /\
  ring_PushFront va r2 = Ok (2%nat, r3) /\ r_len r3 = 1 /\
  ring_PushFront vb r3 = Ok (3%nat, r4) /\ r_len r4 = 2 /\ ring_Back r4 = Some 1%nat /\ r_value r4 !! 1%nat = Some va /\
  ring_Remove 1 r4 = Ok r5 /\
  ring_PushFront va r5 = Ok (4%nat, r6) /\ r_len r6 = 2 /\ ring_Back r6 = Some 2%nat /\ r_value r6 !! 2%nat = Some va /\
  ring_Remove 2 r6 = Ok r7.
Proof. do 7 eexists. split_and!; vm_compute; reflexivity. Qed.

Lemma sections_cons ev evs x a x1 l x2 : section_step ev x = Ok (a, x1) -> sections_run evs x1 = Ok (l, x2) ->
  sections_run (ev :: evs) x = Ok (a :: l, x2).
Proof. intros E1 E2. cbn [sections_run]. by rewrite E1; cbn [obind]; rewrite E2. Qed.

(** The two ways a script that is not there is stored. *)
Lemma load_pushed script h m r0 max hits misses l k r : script_hash script = h -> m !! h = None ->
  ring_PushFront h r0 = Ok (k, r) -> (max <? r_len r) = false ->
  section_step (Load script) (mkShared (mkCache m r0 max hits misses) l) =
  Ok (Digest h, mkShared (mkCache (<[h := mkEntry script k]> m) r max hits misses) l).
Proof. intros E0 E1 E2 E3. cbn. unfold cache_LoadScript. rewrite E0. cbn. by rewrite E1, E2; cbn; rewrite E3. Qed.

Lemma load_evicting script h m r0 max hits misses l k r oldest old r' : script_hash script = h -> m !! h = None ->
  ring_PushFront h r0 = Ok (k, r) -> (max <? r_len r) = true -> ring_Back r = Some oldest ->
  r_value r !! oldest = Some old -> ring_Remove oldest r = Ok r' ->
  section_step (Load script) (mkShared (mkCache m r0 max hits misses) l) =
  Ok (Digest h, mkShared (mkCache (delete old (<[h := mkEntry script k]> m)) r' max hits misses) l).
Proof.
  intros E0 E1 E2 E3 E4 E5 E6. cbn. unfold cache_LoadScript. rewrite E0. cbn. by rewrite E1, E2; cbn; rewrite E3, E4, E5, E6.
Qed.

(** ** Claims *)

(** C34: goroutines share the script cache: whatever the order of their critical sections,
    as long as no [ScriptFlush] falls between the two of an [EvalSHA], the ring of
    container/list and the map of pointers never panic and answer as the
    least-recently-used cache of digests does. [EvalSHA] runs a script with the digest
    it was given, even when it has been evicted meanwhile, and the cache keeps its
    bound. *)
Theorem shared_cache_is_lru n evs : flushes_apart evs (NewEngine [WithMaxScripts n], []) = true ->
  let '(answers, y) := engine_run evs (NewEngine [WithMaxScripts n], []) in
  exists x, sections_run evs (mkShared (new_cache n) []) = Ok (answers, x) /\ simulates x y /\
    Forall answer_digest answers /\ (0 <= n -> Z.of_nat (size (c_scripts (cache x))) <= n).
Proof.
  intros Hf. destruct (sections_simulate evs _ _ (new_simulates n) Hf) as (x & E & Hx).
  destruct (engine_run_digest evs (NewEngine [WithMaxScripts n]) []) as [Ha Hm]; [by apply empty_cache_wf|constructor|].
  destruct (engine_run evs _) as [answers y]. exists x. split_and!; [done|done|done|]. intros H0.
  destruct Hx as (Hw & l & Hl & _). rewrite (represents_size _ _ _ Hl). pose proof (cw_bound _ Hw) as Hb.
  cbn [fst snd] in *. rewrite Hm in Hb. cbn in Hb. auto.
Qed.

(** C35: when a [ScriptFlush] falls between the two sections of an [EvalSHA], the move to
    the front puts the element the flush has dropped back into the ring without counting
    it, and its eviction later takes the script of the same digest out of the map. In a
    cache of one script, [LoadScript] then returns the digest of a script that is not
    there: it has evicted the script it has just stored. *)
Theorem flush_loses_scripts a b : script_hash a <> script_hash b -> exists x',
  sections_run [Load a; Lookup (script_hash a); Count 0; Flush; Touch 0; Load a; Load b; Load a; Query [script_hash a]]
    (mkShared (new_cache 1) []) =
  Ok ([Digest (script_hash a); Nothing; Nothing; Nothing; Run (script_hash a) a; Digest (script_hash a);
       Digest (script_hash b); Digest (script_hash a); Known [false]], x').
Proof.
  remember (script_hash a) as ha eqn:Ha. remember (script_hash b) as hb eqn:Hb. intros Hab. symmetry in Ha, Hb.
  destruct (flushed_ring ha hb) as (r1 & r2 & r3 & r4 & r5 & r6 & r7 & E1 & L1 & E2 & E3 & L3 & E4 & L4 & B4 & V4 & E5 & E6 & L6 & B6 & V6 & E7).
  unfold new_cache. eexists.
  eapply sections_cons; [apply (load_pushed _ _ _ _ _ _ _ _ _ _ Ha (lookup_empty ha) E1); by rewrite L1|].
  eapply sections_cons; [cbn; rewrite lookup_insert_eq; reflexivity|].
  eapply sections_cons; [reflexivity|]. eapply sections_cons; [reflexivity|].
  eapply sections_cons; [cbn; rewrite E2; reflexivity|].
  eapply sections_cons; [apply (load_pushed _ _ _ _ _ _ _ _ _ _ Ha (lookup_empty ha) E3); by rewrite L3|].
  eapply sections_cons; [eapply (load_evicting _ _ _ _ _ _ _ _ _ _ _ _ _ Hb); [by rewrite lookup_insert_ne|exact E4| |exact B4|exact V4|exact E5]; by rewrite L4|].
  eapply sections_cons; [eapply (load_evicting _ _ _ _ _ _ _ _ _ _ _ _ _ Ha); [apply lookup_delete_eq|exact E6| |exact B6|exact V6|exact E7]; by rewrite L6|].
  eapply sections_cons; [|reflexivity]. cbn. by rewrite lookup_delete_eq.
Qed.

End LuaCacheSpec.

(** ** Witnesses *)

(** Two goroutines: one looks its script up, the other loads a third script, which
    evicts it, and flushes when the first is done. *)
Definition crossing : list Critical :=
  [Load (bs "return 1"); Load (bs "return 2"); Lookup (script_hash (bs "return 1")); Count 0; Load (bs "return 3");
   Touch 0; Lookup (script_hash (bs "return 1")); Flush; Count 0].

Lemma shared_cache_is_lru_witness :
  let '(answers, y) := engine_run (VM := sample_vm) crossing (NewEngine (VM := sample_vm) [WithMaxScripts (VM := sample_vm) 2], []) in
  exists x, sections_run crossing (mkShared (new_cache 2) []) = Ok (answers, x) /\ simulates (VM := sample_vm) x y /\
    Forall answer_digest answers /\ (0 <= 2 -> Z.of_nat (size (c_scripts (cache x))) <= 2).
Proof. apply (shared_cache_is_lru (VM := sample_vm) 2 crossing). vm_compute. reflexivity. Defined.

Lemma flush_loses_scripts_witness : exists x',
  let '(ha, hb) := (script_hash (bs "return 1"), script_hash (bs "return 2")) in
  sections_run [Load (bs "return 1"); Lookup ha; Count 0; Flush; Touch 0; Load (bs "return 1"); Load (bs "return 2");
    Load (bs "return 1"); Query [ha]] (mkShared (new_cache 1) []) =
  Ok ([Digest ha; Nothing; Nothing; Nothing; Run ha (bs "return 1"); Digest ha; Digest hb; Digest ha; Known [false]], x').
Proof. apply (flush_loses_scripts (bs "return 1") (bs "return 2")). vm_compute. discriminate. Defined.
