(* ===== verification/Client.v ===== *)
(** * The replication client (replication/client.go)

    The state of a [Client] over a storage [St], its configuration, the handshake
    with the master, the full synchronisation and the command stream. The
    connection is the [Reader] of what the master still sends and the [Writer]
    to it. Log lines and metrics are output only and are left out. *)

From Stdlib Require Import ZArith Lia String.
From stdpp Require Import base list list_numbers gmap.
From S2P Require Import Prelude GoLib RespTypes RespWriter RespReader StorageTypes Lzf Rdb.
From S2P Require Import StoreSpec StorageIface RdbLoad.

(** ** State *)

(** [type ReplicationStats struct]; nothing sets [MasterRunID]. *)
Record ReplicationStats : Type := mkStats {
  st_MasterAddr : bytes;
  st_Connected : bool;
  ReplicationOffset : Z;
  LastSyncTime : Z;
  BytesReceived : Z;
  CommandsProcessed : Z;
  ReconnectCount : Z;
  InitialSyncCompleted : bool;
  InitialSyncProgress : float64
}.

(** [type Client struct]: the fields the modelled methods use. A callback is a
    handle, [fired] the log of the callbacks called; [heartbeatStop] is the
    channel of that name, [Some true] once it is closed; [checks] counts the looks
    at the stop channel, [runs] the goroutines started on [run]. *)
Record Client (St : Type) : Type := mkClient {
  masterAddr : bytes;
  masterPassword : bytes;
  c_storage : St;
  has_conn : bool;
  c_reader : Reader;
  c_writer : Writer;
  connected : bool;
  replID : bytes;
  replOffset : Z;
  stopped : bool;
  runEnded : bool;
  syncing : bool;
  stats : ReplicationStats;
  onSyncComplete : list nat;
  fired : list nat;
  commandFilters : gset bytes;
  databases : gset Z;
  heartbeatInterval : Z;
  heartbeatStop : option bool;
  heartbeatFailures : Z;
  maxHeartbeatFailures : Z;
  syncTimeout : Z;
  connectTimeout : Z;
  readTimeout : Z;
  writeTimeout : Z;
  checks : nat;
  runs : nat
}.
Arguments mkClient {St}.
Arguments masterAddr {St} c : rename.
Arguments masterPassword {St} c : rename.
Arguments c_storage {St} c : rename.
Arguments has_conn {St} c : rename.
Arguments c_reader {St} c : rename.
Arguments c_writer {St} c : rename.
Arguments connected {St} c : rename.
Arguments replID {St} c : rename.
Arguments replOffset {St} c : rename.
Arguments stopped {St} c : rename.
Arguments runEnded {St} c : rename.
Arguments syncing {St} c : rename.
Arguments stats {St} c : rename.
Arguments onSyncComplete {St} c : rename.
Arguments fired {St} c : rename.
Arguments commandFilters {St} c : rename.
Arguments databases {St} c : rename.
Arguments heartbeatInterval {St} c : rename.
Arguments heartbeatStop {St} c : rename.
Arguments heartbeatFailures {St} c : rename.
Arguments maxHeartbeatFailures {St} c : rename.
Arguments syncTimeout {St} c : rename.
Arguments connectTimeout {St} c : rename.
Arguments readTimeout {St} c : rename.
Arguments writeTimeout {St} c : rename.
Arguments checks {St} c : rename.
Arguments runs {St} c : rename.

(** What the client takes from the network and the other goroutines: how many
    bytes of the stream its [bufio.Reader] already holds, the errors of setting
    the deadlines, and whether the stop channel is closed at each look at it. *)
Class ClientEnv : Type := {
  buffered : Reader -> nat;
  read_deadline_error : option error;
  write_deadline_error : option error;
  stop_signal : nat -> bool
}.

Definition no_deadline_error `{ClientEnv} : Prop :=
  read_deadline_error = None /\ write_deadline_error = None.

Section Client.
  Context {St : Type} `{StorageOps St} `{GoUnicode} `{ClientEnv} (now : Z).

Abbreviation C A := (M (Client St) A).

(** ** Field updates *)

Definition set_storage (s : St) (c : Client St) : Client St :=
  mkClient (masterAddr c) (masterPassword c) s (has_conn c) (c_reader c) (c_writer c) (connected c)
    (replID c) (replOffset c) (stopped c) (runEnded c) (syncing c) (stats c) (onSyncComplete c)
    (fired c) (commandFilters c) (databases c) (heartbeatInterval c) (heartbeatStop c)
    (heartbeatFailures c) (maxHeartbeatFailures c) (syncTimeout c) (connectTimeout c) (readTimeout c)
    (writeTimeout c) (checks c) (runs c).
Definition set_connection (h : bool) (r : Reader) (w : Writer) (on : bool)
  (c : Client St) : Client St :=
  mkClient (masterAddr c) (masterPassword c) (c_storage c) h r w on (replID c) (replOffset c)
    (stopped c) (runEnded c) (syncing c) (stats c) (onSyncComplete c) (fired c) (commandFilters c)
    (databases c) (heartbeatInterval c) (heartbeatStop c) (heartbeatFailures c) (maxHeartbeatFailures c)
    (syncTimeout c) (connectTimeout c) (readTimeout c) (writeTimeout c) (checks c) (runs c).
Definition set_replication (id : bytes) (offset : Z) (c : Client St) : Client St :=
  mkClient (masterAddr c) (masterPassword c) (c_storage c) (has_conn c) (c_reader c) (c_writer c)
    (connected c) id offset (stopped c) (runEnded c) (syncing c) (stats c) (onSyncComplete c) (fired c)
    (commandFilters c) (databases c) (heartbeatInterval c) (heartbeatStop c) (heartbeatFailures c)
    (maxHeartbeatFailures c) (syncTimeout c) (connectTimeout c) (readTimeout c) (writeTimeout c)
    (checks c) (runs c).
Definition set_lifecycle (stop : bool) (ended : bool) (c : Client St) : Client St :=
  mkClient (masterAddr c) (masterPassword c) (c_storage c) (has_conn c) (c_reader c) (c_writer c)
    (connected c) (replID c) (replOffset c) stop ended (syncing c) (stats c) (onSyncComplete c)
    (fired c) (commandFilters c) (databases c) (heartbeatInterval c) (heartbeatStop c)
    (heartbeatFailures c) (maxHeartbeatFailures c) (syncTimeout c) (connectTimeout c) (readTimeout c)
    (writeTimeout c) (checks c) (runs c).
Definition set_syncing (b : bool) (c : Client St) : Client St :=
  mkClient (masterAddr c) (masterPassword c) (c_storage c) (has_conn c) (c_reader c) (c_writer c)
    (connected c) (replID c) (replOffset c) (stopped c) (runEnded c) b (stats c) (onSyncComplete c)
    (fired c) (commandFilters c) (databases c) (heartbeatInterval c) (heartbeatStop c)
    (heartbeatFailures c) (maxHeartbeatFailures c) (syncTimeout c) (connectTimeout c) (readTimeout c)
    (writeTimeout c) (checks c) (runs c).
Definition set_client_stats (s : ReplicationStats) (c : Client St) : Client St :=
  mkClient (masterAddr c) (masterPassword c) (c_storage c) (has_conn c) (c_reader c) (c_writer c)
    (connected c) (replID c) (replOffset c) (stopped c) (runEnded c) (syncing c) s (onSyncComplete c)
    (fired c) (commandFilters c) (databases c) (heartbeatInterval c) (heartbeatStop c)
    (heartbeatFailures c) (maxHeartbeatFailures c) (syncTimeout c) (connectTimeout c) (readTimeout c)
    (writeTimeout c) (checks c) (runs c).
Definition set_callbacks (l : list nat) (f : list nat) (c : Client St) : Client St :=
  mkClient (masterAddr c) (masterPassword c) (c_storage c) (has_conn c) (c_reader c) (c_writer c)
    (connected c) (replID c) (replOffset c) (stopped c) (runEnded c) (syncing c) (stats c) l f
    (commandFilters c) (databases c) (heartbeatInterval c) (heartbeatStop c) (heartbeatFailures c)
    (maxHeartbeatFailures c) (syncTimeout c) (connectTimeout c) (readTimeout c) (writeTimeout c)
    (checks c) (runs c).
Definition set_filters (cmds : gset bytes) (dbs : gset Z) (c : Client St) : Client St :=
  mkClient (masterAddr c) (masterPassword c) (c_storage c) (has_conn c) (c_reader c) (c_writer c)
    (connected c) (replID c) (replOffset c) (stopped c) (runEnded c) (syncing c) (stats c)
    (onSyncComplete c) (fired c) cmds dbs (heartbeatInterval c) (heartbeatStop c) (heartbeatFailures c)
    (maxHeartbeatFailures c) (syncTimeout c) (connectTimeout c) (readTimeout c) (writeTimeout c)
    (checks c) (runs c).
Definition set_heartbeat (interval : Z) (failures : Z) (c : Client St) : Client St :=
  mkClient (masterAddr c) (masterPassword c) (c_storage c) (has_conn c) (c_reader c) (c_writer c)
    (connected c) (replID c) (replOffset c) (stopped c) (runEnded c) (syncing c) (stats c)
    (onSyncComplete c) (fired c) (commandFilters c) (databases c) interval (heartbeatStop c) failures
    (maxHeartbeatFailures c) (syncTimeout c) (connectTimeout c) (readTimeout c) (writeTimeout c)
    (checks c) (runs c).
Definition set_heartbeatStop (ch : option bool) (c : Client St) : Client St :=
  mkClient (masterAddr c) (masterPassword c) (c_storage c) (has_conn c) (c_reader c) (c_writer c)
    (connected c) (replID c) (replOffset c) (stopped c) (runEnded c) (syncing c) (stats c)
    (onSyncComplete c) (fired c) (commandFilters c) (databases c) (heartbeatInterval c) ch
    (heartbeatFailures c) (maxHeartbeatFailures c) (syncTimeout c) (connectTimeout c) (readTimeout c)
    (writeTimeout c) (checks c) (runs c).
Definition set_checks (n : nat) (c : Client St) : Client St :=
  mkClient (masterAddr c) (masterPassword c) (c_storage c) (has_conn c) (c_reader c) (c_writer c)
    (connected c) (replID c) (replOffset c) (stopped c) (runEnded c) (syncing c) (stats c)
    (onSyncComplete c) (fired c) (commandFilters c) (databases c) (heartbeatInterval c)
    (heartbeatStop c) (heartbeatFailures c) (maxHeartbeatFailures c) (syncTimeout c) (connectTimeout c)
    (readTimeout c) (writeTimeout c) n (runs c).
Definition set_runs (n : nat) (c : Client St) : Client St :=
  mkClient (masterAddr c) (masterPassword c) (c_storage c) (has_conn c) (c_reader c) (c_writer c)
    (connected c) (replID c) (replOffset c) (stopped c) (runEnded c) (syncing c) (stats c)
    (onSyncComplete c) (fired c) (commandFilters c) (databases c) (heartbeatInterval c)
    (heartbeatStop c) (heartbeatFailures c) (maxHeartbeatFailures c) (syncTimeout c) (connectTimeout c)
    (readTimeout c) (writeTimeout c) (checks c) n.
Definition set_password (password : bytes) (c : Client St) : Client St :=
  mkClient (masterAddr c) password (c_storage c) (has_conn c) (c_reader c) (c_writer c) (connected c)
    (replID c) (replOffset c) (stopped c) (runEnded c) (syncing c) (stats c) (onSyncComplete c)
    (fired c) (commandFilters c) (databases c) (heartbeatInterval c) (heartbeatStop c)
    (heartbeatFailures c) (maxHeartbeatFailures c) (syncTimeout c) (connectTimeout c) (readTimeout c)
    (writeTimeout c) (checks c) (runs c).
Definition set_timeouts (sync : Z) (connect : Z) (read : Z) (write : Z) (c : Client St) : Client St :=
  mkClient (masterAddr c) (masterPassword c) (c_storage c) (has_conn c) (c_reader c) (c_writer c)
    (connected c) (replID c) (replOffset c) (stopped c) (runEnded c) (syncing c) (stats c)
    (onSyncComplete c) (fired c) (commandFilters c) (databases c) (heartbeatInterval c)
    (heartbeatStop c) (heartbeatFailures c) (maxHeartbeatFailures c) sync connect read write (checks c)
    (runs c).

Definition on_read {A} (m : M Reader A) : C A := fun c =>
  let '(o, r) := m (c_reader c) in (o, set_connection (has_conn c) r (c_writer c) (connected c) c).
Definition on_write {A} (m : M Writer A) : C A := fun c =>
  let '(o, w) := m (c_writer c) in (o, set_connection (has_conn c) (c_reader c) w (connected c) c).
Definition on_store {A} (m : M St A) : C A := fun c =>
  let '(o, s) := m (c_storage c) in (o, set_storage s c).

Definition updateStats (f : ReplicationStats -> ReplicationStats) : C unit :=
  gmodify (fun c => set_client_stats (f (stats c)) c).

(** [select { case <-c.stopChan: ... default: }] *)
Definition check_stop : C bool := fun c => (Ok (stop_signal (checks c)), set_checks (S (checks c)) c).

(** ** Configuration *)

Definition SetAuth (password : bytes) : C unit := gmodify (set_password password).

Definition SetSyncTimeout (timeout : Z) : C unit :=
  gmodify (fun c => set_timeouts timeout (connectTimeout c) (readTimeout c) (writeTimeout c) c).
Definition SetConnectTimeout (timeout : Z) : C unit :=
  gmodify (fun c => set_timeouts (syncTimeout c) timeout (readTimeout c) (writeTimeout c) c).
Definition SetReadTimeout (timeout : Z) : C unit :=
  gmodify (fun c => set_timeouts (syncTimeout c) (connectTimeout c) timeout (writeTimeout c) c).
Definition SetWriteTimeout (timeout : Z) : C unit :=
  gmodify (fun c => set_timeouts (syncTimeout c) (connectTimeout c) (readTimeout c) timeout c).

Definition SetCommandFilters (commands : list bytes) : C unit :=
  gmodify (fun c => set_filters (list_to_set (ToUpper <$> commands)) (databases c) c).

Definition SetDatabases (dbs : list Z) : C unit :=
  gmodify (fun c => set_filters (commandFilters c) (list_to_set dbs) c).

Definition SetHeartbeatInterval (interval : Z) : C unit :=
  gmodify (fun c => set_heartbeat
    (if 0 <? interval then interval else if interval =? 0 then 10 * Second else -1)
    (heartbeatFailures c) c).

Definition OnSyncComplete (fn : nat) : C unit :=
  gmodify (fun c => set_callbacks (onSyncComplete c ++ [fn]) (fired c) c).

(** [NewClient], before a connection exists. *)
Definition NewClient (addr : bytes) (stor : St) : Client St :=
  mkClient addr [] stor false (mkReader [] EOF) NewWriter false [] 0 false false false
    (mkStats addr false 0 zero_time 0 0 0 false (float_of_int 0)) [] [] ∅ ∅ (10 * Second) None 0 3
    (30 * Second) (5 * Second) (30 * Second) (10 * Second) 0 0.

Definition disconnect : C unit :=
  gmodify (fun c => set_connection false (c_reader c) (c_writer c) false c) ;;!
  updateStats (fun s => mkStats (st_MasterAddr s) false (ReplicationOffset s) (LastSyncTime s) (BytesReceived s)
    (CommandsProcessed s) (ReconnectCount s) (InitialSyncCompleted s) (InitialSyncProgress s)).

(** ** Handshake *)

Definition authenticate : C unit :=
  let! c := gget in
  on_write (WriteCommand (bs "AUTH") [masterPassword c]) ;;!
  on_write Flush ;;!
  let! response := on_read ReadNext in
  if IsError response then gfail (Errorf (bs "auth failed: " ++ Value_Error response)) else gret tt.

Definition sendPSYNC : C unit :=
  let! c := gget in
  (if negb (bool_decide (replID c = [])) && (0 <? replOffset c) then
     on_write (WriteCommand (bs "PSYNC") [replID c; FormatInt (replOffset c)])
   else on_write (WriteCommand (bs "PSYNC") [bs "?"; bs "-1"])) ;;!
  on_write Flush.

(** ** Full synchronisation *)

Definition performFullSync : C unit :=
  let! c := gget in
  let handler := newRDBStorageHandler (c_storage c) (databases c) (NewRDBLoadStats now) in
  let buffer0 := mkStreamBuffer [] 0 0 0 0 in
  let! (rdbBuffer, _) := (fun c : Client St =>
    let '(o, (r, acc)) :=
      ReadBulkStringForReplication collect_chunk (c_reader c, (buffer0, newRDBChunkAggregator)) in
    let c' := set_connection (has_conn c) r (c_writer c) (connected c) c in
    match o with
    | Ok _ => (Ok acc, c')
    | Err e => (Err (Errorf (bs "failed to read RDB data: " ++ Error e)), c')
    | Panic p => (Panic p, c')
    | OutOfFuel => (OutOfFuel, c')
    end) in
  fun c : Client St =>
  let '(o, h) := ParseRDB (storage_handler now) (mkReader (concat (chunks rdbBuffer)) EOF) handler in
  let c' := set_storage (h_storage h) c in
  match o with
  | Ok _ => (Ok tt, c')
  | Err e =>
      if totalSize rdbBuffer <? 500 then (Ok tt, c')
      else (Err (Errorf (bs "RDB parsing failed: " ++ Error e)), c')
  | Panic p => (Panic p, c')
  | OutOfFuel => (OutOfFuel, c')
  end.

(** The body of [performSync] between taking and releasing the syncing flag. *)
Definition sync_body : C unit :=
  gwrap (bs "PSYNC failed: ") sendPSYNC ;;!
  let! response := gtry (on_read ReadNext) gret (fun err =>
    if bool_decide (err = EOF) then
      gfail (Errorf (bs "PSYNC response failed: connection closed by server"))
    else gfail (Errorf (bs "PSYNC response failed: " ++ Error err))) in
  if IsError response then gfail (Errorf (bs "PSYNC error: " ++ Value_Error response))
  else
    let responseStr := Value_String response in
    match Fields responseStr with
    | [] => gfail (Errorf (bs "invalid PSYNC response: " ++ responseStr))
    | part0 :: parts =>
        (if bool_decide (part0 = bs "FULLRESYNC") then
           match parts with
           | id :: off :: _ =>
               gmodify (fun c => set_replication id (replOffset c) c) ;;!
               match ParseInt off with
               | None => gfail (Errorf (bs "invalid offset: " ++ off))
               | Some offset =>
                   gmodify (fun c => set_replication (replID c) offset c) ;;!
                   performFullSync
               end
           | _ => gfail (Errorf (bs "invalid FULLRESYNC response: " ++ responseStr))
           end
         else if bool_decide (part0 = bs "CONTINUE") then gret tt
         else gfail (Errorf (bs "unsupported PSYNC response: " ++ responseStr))) ;;!
        updateStats (fun s => mkStats (st_MasterAddr s) (st_Connected s) (ReplicationOffset s) now (BytesReceived s)
          (CommandsProcessed s) (ReconnectCount s) true (float_of_int 1)) ;;!
        gmodify (fun c => set_callbacks (onSyncComplete c) (fired c ++ onSyncComplete c) c)
    end.

Definition performSync : C unit := fun c =>
  if syncing c then (Ok tt, c)
  else
    let '(o, c') := sync_body (set_syncing true c) in
    (o, set_syncing false c').

(** ** Commands *)

Definition isDataCommand (cmd : bytes) : bool :=
  bool_decide (cmd ∈ bs <$> ["SET"; "DEL"; "EXPIRE"; "PERSIST"; "INCR"; "DECR"; "INCRBY"; "DECRBY";
    "APPEND"; "SETRANGE"; "GETSET"; "SETNX"; "SETEX"; "PSETEX"; "MSET"; "MSETNX";
    "LPUSH"; "RPUSH"; "LPOP"; "RPOP"; "LSET"; "LTRIM"; "LINSERT"; "LREM";
    "SADD"; "SREM"; "SPOP"; "SMOVE"; "SINTERSTORE"; "SUNIONSTORE"; "SDIFFSTORE";
    "ZADD"; "ZREM"; "ZINCRBY"; "ZREMRANGEBYRANK"; "ZREMRANGEBYSCORE"; "ZREMRANGEBYLEX";
    "ZINTERSTORE"; "ZUNIONSTORE"; "HSET"; "HDEL"; "HINCRBY"; "HINCRBYFLOAT"; "HMSET"]%string).

Definition isProtocolError (err : error) : bool :=
  let errStr := Error err in
  Contains errStr (bs "unknown RESP type") ||
  Contains errStr (bs "expected CRLF terminator") ||
  Contains errStr (bs "expected bulk string") ||
  Contains errStr (bs "empty byte") ||
  Contains errStr (bs "invalid length") ||
  Contains errStr (bs "protocol error").

Definition executeCommand (cmd : Command) : C unit :=
  if bool_decide (Name cmd = bs "SET") then
    match Args cmd with
    | key :: value :: _ => on_store (storage_Set now key value None)
    | _ => gfail (Errorf (bs "SET requires at least 2 arguments"))
    end
  else if bool_decide (Name cmd = bs "DEL") then
    let! _ := on_store (storage_Del (Args cmd)) in gret tt
  else if bool_decide (Name cmd = bs "SELECT") then
    match Args cmd with
    | [arg] =>
        match ParseInt arg with
        | None => gfail (Errorf (bs "invalid database number: " ++ arg))
        | Some db => on_store (storage_SelectDB db)
        end
    | _ => gfail (Errorf (bs "SELECT requires 1 argument"))
    end
  else gret tt.

(** Whether the database filter drops a SELECT. *)
Definition select_filtered (dbs : gset Z) (cmd : Command) : bool :=
  bool_decide (Name cmd = bs "SELECT") && negb (bool_decide (dbs = ∅)) &&
  match Args cmd with
  | [arg] => match ParseInt arg with Some db => negb (bool_decide (db ∈ dbs)) | None => false end
  | _ => false
  end.

Definition processCommand (value : Value) : C unit :=
  let! cmd := gwrap (bs "parse command failed: ") (fun c => (ParseCommand value, c)) in
  let! c := gget in
  if negb (bool_decide (commandFilters c = ∅)) && negb (bool_decide (Name cmd ∈ commandFilters c)) then
    gret tt
  else if select_filtered (databases c) cmd then gret tt
  else
    let! skip :=
      if negb (bool_decide (databases c = ∅)) && isDataCommand (Name cmd) then
        let! currentDB := on_store storage_CurrentDB in
        gret (negb (bool_decide (currentDB ∈ databases c)))
      else gret false in
    if (skip : bool) then gret tt
    else
      gwrap (bs "execute command failed: ") (executeCommand cmd) ;;!
      updateStats (fun s => mkStats (st_MasterAddr s) (st_Connected s) (ReplicationOffset s + 1) (LastSyncTime s)
        (BytesReceived s) (CommandsProcessed s + 1) (ReconnectCount s) (InitialSyncCompleted s)
        (InitialSyncProgress s)).

(** ** The command stream *)

(** The loop of [streamCommands]. Every three rounds read something or end it,
    so three rounds per byte are enough. *)
Fixpoint stream_loop (fuel : nat) (protocolErrorCount : Z) : C unit :=
  match fuel with
  | O => fun c => (OutOfFuel, c)
  | S fuel' =>
      let! stop := check_stop in
      if (stop : bool) then gret tt
      else
        gtry (on_read ReadNext)
          (fun value =>
             gtry (processCommand value) gret (fun _ => gret tt) ;;!
             stream_loop fuel' 0)
          (fun err =>
             let! stop := check_stop in
             if (stop : bool) then gret tt
             else if bool_decide (err = EOF) then gfail (Errorf (bs "connection closed"))
             else if Contains (Error err) (bs "use of closed network connection") then
               let! stop := check_stop in
               if (stop : bool) then gret tt
               else gfail (Errorf (bs "connection unexpectedly closed: " ++ Error err))
             else if isProtocolError err then
               let count := protocolErrorCount + 1 in
               if 3 <=? count then
                 gfail (Errorf (bs "protocol desynchronization detected after " ++ FormatInt count ++
                                bs " errors: " ++ Error err))
               else
                 let! stop := check_stop in
                 if (stop : bool) then gret tt else stream_loop fuel' count
             else gfail (Errorf (bs "read command failed: " ++ Error err)))
  end.

(** [startHeartbeat], up to the goroutine it starts. *)
Definition startHeartbeat : C unit :=
  gmodify (fun c =>
    if heartbeatInterval c <=? 0 then c
    else set_heartbeatStop (Some false) (set_heartbeat (heartbeatInterval c) 0 c)).

(** Closing a closed channel panics. *)
Definition stopHeartbeat : C unit := fun c =>
  match heartbeatStop c with
  | None => (Ok tt, c)
  | Some false => (Ok tt, set_heartbeatStop (Some true) c)
  | Some true => (Panic (bs "close of closed channel"), c)
  end.

(** A fresh reader, which misses what the old one had buffered, without deadlines. *)
Definition reset_reader : C unit :=
  let! c := gget in
  if has_conn c then
    let r := c_reader c in
    gmodify (fun c => set_connection (has_conn c) (mkReader (drop (buffered r) (rd_buf r)) (rd_err r))
                        (c_writer c) (connected c) c) ;;!
    match read_deadline_error, write_deadline_error with
    | Some e, _ => gfail (Errorf (bs "failed to remove read timeout for streaming: " ++ Error e))
    | None, Some e => gfail (Errorf (bs "failed to remove write timeout for streaming: " ++ Error e))
    | None, None => gret tt
    end
  else gret tt.

Definition stream_rounds : C unit := fun c => stream_loop (3 * S (length (rd_buf (c_reader c)))) 0 c.

Definition streamCommands : C unit :=
  reset_reader ;;! startHeartbeat ;;! gdefer stopHeartbeat stream_rounds.

(** ** Heartbeat *)

Definition sendReplconfACK : C unit :=
  let! c := gget in
  if negb (connected c) || negb (has_conn c) then gfail (Errorf (bs "not connected"))
  else
    (if 0 <? writeTimeout c then
       match write_deadline_error with
       | Some e => gfail (Errorf (bs "failed to set write deadline for REPLCONF ACK: " ++ Error e))
       | None => gret tt
       end
     else gret tt) ;;!
    gwrap (bs "failed to write REPLCONF ACK: ")
      (on_write (WriteCommand (bs "REPLCONF") [bs "ACK"; FormatInt (replOffset c)])) ;;!
    gwrap (bs "failed to flush REPLCONF ACK: ") (on_write Flush).

(** One tick of the heartbeat goroutine. *)
Definition heartbeat_tick : C unit :=
  gtry sendReplconfACK
    (fun _ => gmodify (fun c =>
       if 0 <? heartbeatFailures c then set_heartbeat (heartbeatInterval c) 0 c else c))
    (fun err => gmodify (fun c =>
       let errStr := Error err in
       let failures :=
         if Contains errStr (bs "not connected") then 0
         else if Contains errStr (bs "connection closed") || Contains errStr (bs "broken pipe") then 0
         else heartbeatFailures c + 1 in
       set_heartbeat (heartbeatInterval c) failures c)).

End Client.
