(* ===== verification/ClientProofs.v ===== *)
(** * Lemmas on the replication client

    Commands and the command stream on the abstract store, and the full
    synchronisation. The client is verified against [StorageLaws] only. *)

From Stdlib Require Import ZArith Lia String.
From stdpp Require Import base list list_numbers gmap.
From S2P Require Import Prelude GoLib RespTypes RespWriter RespReader RespProofs StorageTypes.
From S2P Require Import Memory MemoryInv Lzf Rdb RdbFormat RdbProofs RdbTotal StoreSpec StorageIface.
From S2P Require Import RdbLoad RdbLoadSpec Client.

(** ** What a replicated command means *)

(** The store after a command, and whether the command succeeded. *)
Definition acommand {U : GoUnicode} (now : Z) (a : AStore) (cmd : Command) : AStore * bool :=
  if bool_decide (Name cmd = bs "SET") then
    match Args cmd with
    | key :: value :: _ => (aset now a key value None, true)
    | _ => (a, false)
    end
  else if bool_decide (Name cmd = bs "DEL") then (adel a (Args cmd), true)
  else if bool_decide (Name cmd = bs "SELECT") then
    match Args cmd with
    | [arg] =>
        match ParseInt arg with
        | Some db => if bool_decide (0 <= db <= 15) then (aselect a db, true) else (a, false)
        | None => (a, false)
        end
    | _ => (a, false)
    end
  else (a, true).

(** The same behind the command and database filters; an empty filter lets
    everything through. *)
Definition areplicate {U : GoUnicode} (now : Z) (cmds : gset bytes) (dbs : gset Z) (a : AStore) (cmd : Command)
  : AStore * bool :=
  if bool_decide (cmds <> ∅ /\ Name cmd ∉ cmds) then (a, false)
  else if select_filtered dbs cmd then (a, false)
  else if bool_decide (dbs <> ∅ /\ isDataCommand (Name cmd) = true /\ acur a ∉ dbs) then (a, false)
  else acommand now a cmd.

(** A sequence of commands: the store and how many of them were counted. *)
Definition areplicates {U : GoUnicode} (now : Z) (cmds : gset bytes) (dbs : gset Z) (x : AStore * Z) (l : list Command)
  : AStore * Z :=
  foldl (fun '(a, n) cmd => let '(a', ok) := areplicate now cmds dbs a cmd in (a', if (ok : bool) then n + 1 else n))
    x l.

(** The statistics after [n] counted commands. *)
Definition count_commands (n : Z) (s : ReplicationStats) : ReplicationStats :=
  mkStats (st_MasterAddr s) (st_Connected s) (ReplicationOffset s + n) (LastSyncTime s) (BytesReceived s)
    (CommandsProcessed s + n) (ReconnectCount s) (InitialSyncCompleted s) (InitialSyncProgress s).

Lemma count_commands_0 s : count_commands 0 s = s.
Proof. destruct s. unfold count_commands. cbn. by rewrite !Z.add_0_r. Qed.

Lemma count_commands_add m n s : count_commands n (count_commands m s) = count_commands (m + n) s.
Proof. destruct s. unfold count_commands. cbn. by rewrite !Z.add_assoc. Qed.

Lemma astep_del a ks r a' : astep 0 a (OpDel ks) r a' -> a' = adel a ks.
Proof. by intros [_ ->]. Qed.

Lemma areplicate_limit {U : GoUnicode} now cmds dbs a cmd : alimit (areplicate now cmds dbs a cmd).1 = alimit a.
Proof.
  unfold areplicate, acommand.
  repeat match goal with |- context [match ?x with _ => _ end] => destruct x end; done.
Qed.

Lemma areplicates_cons {U : GoUnicode} now cmds dbs a m cmd l :
  areplicates now cmds dbs (a, m) (cmd :: l) =
  areplicates now cmds dbs ((areplicate now cmds dbs a cmd).1,
    if (areplicate now cmds dbs a cmd).2 then m + 1 else m) l.
Proof. unfold areplicates. cbn [foldl]. by destruct (areplicate now cmds dbs a cmd). Qed.

Lemma areplicates_shift {U : GoUnicode} now cmds dbs l : forall a m,
  areplicates now cmds dbs (a, m) l =
  ((areplicates now cmds dbs (a, 0) l).1, m + (areplicates now cmds dbs (a, 0) l).2).
Proof.
  induction l as [|cmd l IH]; intros a m; [cbn; by rewrite Z.add_0_r|].
  rewrite !areplicates_cons. destruct (areplicate now cmds dbs a cmd) as [a' [|]]; cbn [fst snd]; [|apply IH].
  rewrite (IH a' (m + 1)), (IH a' (0 + 1)). cbn. f_equal. lia.
Qed.

(** ** Words *)

(** A byte of an ASCII word: neither a space nor a line feed. *)
Definition word_byte (b : byte) : bool := (32 <? bz b) && (bz b <? 128).
Definition is_word (w : bytes) : Prop := w <> [] /\ forallb word_byte w = true.

Lemma fields_go_word w : forall cur rest, forallb word_byte w = true ->
  fields_go cur (w ++ rest) = fields_go (reverse w ++ cur) rest.
Proof.
  induction w as [|b w IH]; intros cur rest Hw; [done|].
  cbn [forallb] in Hw. apply andb_true_iff in Hw as [Hb Hw].
  assert (Hsp : asciiSpace b = false) by (unfold word_byte, asciiSpace in *; lia).
  cbn [app fields_go]. rewrite Hsp, IH by done. by rewrite reverse_cons, <- app_assoc.
Qed.

Lemma fields_go_full w rest : is_word w -> (rest = [] \/ exists rest', rest = Byte.x20 :: rest') ->
  fields_go [] (w ++ rest) = w :: fields_go [] (tail rest).
Proof.
  intros [Hne Hw] Hrest. rewrite fields_go_word, app_nil_r by done.
  destruct (reverse w) as [|b l] eqn:E; [by apply (f_equal reverse) in E; rewrite reverse_involutive in E|].
  assert (Er : reverse (b :: l) = w) by (by rewrite <- E, reverse_involutive).
  destruct Hrest as [-> |[rest' ->]]; cbn [fields_go tail]; rewrite ?Er; done.
Qed.

Lemma isASCII_app a b : isASCII (a ++ b) = isASCII a && isASCII b.
Proof. apply forallb_app. Qed.

Lemma word_ascii w : forallb word_byte w = true -> isASCII w = true.
Proof.
  unfold isASCII. rewrite !forallb_forall. intros Hw b Hb. specialize (Hw b Hb).
  unfold word_byte in Hw. lia.
Qed.

Lemma FormatInt_word n : is_word (FormatInt n).
Proof.
  assert (Hd : forall l, Forall (fun c => is_digit c = true) l -> forallb word_byte l = true).
  { intros l Hl. apply forallb_forall. intros b Hb. rewrite Forall_forall in Hl.
    apply list_elem_of_In, Hl, is_digit_spec in Hb. unfold word_byte. lia. }
  unfold FormatInt. destruct (Z.ltb_spec n 0).
  - split; [done|]. cbn [forallb]. rewrite Hd by (apply FormatUint_digits; lia). done.
  - split; [|apply Hd, FormatUint_digits; lia].
    destruct (FormatUint_cons n) as (b & l & -> & _); [lia|done].
Qed.

Lemma Fields_three {U : GoUnicode} a b d : is_word a -> is_word b -> is_word d ->
  Fields (a ++ bs " " ++ b ++ bs " " ++ d) = [a; b; d].
Proof.
  intros Ha Hb Hd. unfold Fields.
  rewrite !isASCII_app, (word_ascii a), (word_ascii b), (word_ascii d) by apply Ha || apply Hb || apply Hd.
  change (isASCII (bs " ")) with true. cbn [andb]. change (bs " ") with [Byte.x20].
  rewrite fields_go_full by eauto. cbn [tail app]. rewrite fields_go_full by eauto. cbn [tail app].
  rewrite <- (app_nil_r d) at 1. by rewrite fields_go_full by eauto.
Qed.

Lemma word_no_lf w : forallb word_byte w = true -> no_lf w.
Proof.
  rewrite forallb_forall. intros Hw. apply Forall_forall. intros b Hb ->.
  apply list_elem_of_In, Hw in Hb. done.
Qed.

(** The reply to PSYNC that announces a full synchronisation. *)
Definition fullresync_line (id : bytes) (offset : Z) : bytes :=
  bs "FULLRESYNC" ++ bs " " ++ id ++ bs " " ++ FormatInt offset.

Lemma fullresync_line_ok {U : GoUnicode} id offset : is_word id ->
  no_lf (fullresync_line id offset) /\
  Fields (fullresync_line id offset) = [bs "FULLRESYNC"; id; FormatInt offset].
Proof.
  intros Hid. split; [|apply Fields_three; [done|done|apply FormatInt_word]].
  unfold fullresync_line, no_lf. rewrite !Forall_app.
  repeat split; try (apply word_no_lf; apply Hid || apply (FormatInt_word offset)); by repeat constructor.
Qed.

Section Proofs.
  Context {St : Type} `{Laws : StorageLaws St} {U : GoUnicode} {Env : ClientEnv} (now : Z).

Implicit Types c : Client St.

(** What a command changes: the storage and the statistics. *)
Definition with_effect c (s : St) (n : Z) : Client St :=
  set_client_stats (count_commands n (stats c)) (set_storage s c).

Lemma with_effect_same c : with_effect c (c_storage c) 0 = c.
Proof. unfold with_effect. rewrite count_commands_0. by destruct c. Qed.

Lemma with_effect_twice c s1 n1 s2 n2 :
  with_effect (with_effect c s1 n1) s2 n2 = with_effect c s2 (n1 + n2).
Proof. unfold with_effect. cbn. by rewrite count_commands_add. Qed.

(** [o] is the outcome of a call that succeeded iff [ok]. *)
Definition outcome_is {A} (o : outcome A) (ok : bool) : Prop :=
  match o with Ok _ => ok = true | Err _ => ok = false | _ => False end.

Lemma executeCommand_ok cmd c : st_wf (c_storage c) ->
  exists o s', executeCommand now cmd c = (o, set_storage s' c) /\ st_wf s' /\ returns o /\
    (unlimited (st_abs (c_storage c)) ->
     st_abs s' = (acommand now (st_abs (c_storage c)) cmd).1 /\
     outcome_is o (acommand now (st_abs (c_storage c)) cmd).2).
Proof.
  intros Hs. assert (Hsame : set_storage (c_storage c) c = c) by by destruct c.
  unfold executeCommand, acommand. repeat case_bool_decide.
  - destruct (Args cmd) as [|key [|value l]]; try (eexists _, (c_storage c); rewrite Hsame; done).
    destruct (law_Set (c_storage c) now key value None Hs) as (s' & E & Hs' & Hstep).
    exists (Ok tt), s'. unfold on_store. rewrite E. repeat split; [done|]. by eapply astep_set.
  - destruct (law_Del (c_storage c) (Args cmd) Hs) as (n & s' & E & Hs' & Hstep).
    exists (Ok tt), s'. unfold on_store, gbind. rewrite E. repeat split; [done|]. by eapply astep_del.
  - destruct (Args cmd) as [|arg [|? l]]; try (eexists _, (c_storage c); rewrite Hsame; done).
    destruct (ParseInt arg) as [db|]; [|by eexists _, (c_storage c); rewrite Hsame].
    destruct (law_SelectDB (c_storage c) db Hs) as (o & s' & E & Hs' & Hstep).
    exists o, s'. unfold on_store. rewrite E. split; [done|]. split; [done|].
    case_bool_decide as Hdb.
    + destruct o as [[]|err|p|]; try done; destruct (astep_select _ db Hdb _ _ Hstep); done.
    + cbn [astep] in Hstep. assert (Hr : (db <? 0) || (15 <? db) = true) by lia. rewrite Hr in Hstep.
      destruct o as [[]|err|p|]; try done; by destruct Hstep.
  - exists (Ok tt), (c_storage c). by rewrite Hsame.
Qed.

Lemma processCommand_ok value cmd c : ParseCommand value = Ok cmd -> st_wf (c_storage c) ->
  exists o s' n, processCommand now value c = (o, with_effect c s' n) /\ st_wf s' /\ returns o /\
    (unlimited (st_abs (c_storage c)) ->
     let '(a', ok) := areplicate now (commandFilters c) (databases c) (st_abs (c_storage c)) cmd in
     st_abs s' = a' /\ n = if (ok : bool) then 1 else 0).
Proof.
  intros Hp Hs. unfold processCommand, gwrap at 1.
  erewrite gbind_ok by (erewrite gtry_ok by (by rewrite Hp); done).
  unfold gget, gbind at 1. unfold areplicate.
  assert (Hskip : exists o s' n, gret tt c = (o, with_effect c s' n) /\ st_wf s' /\ returns o /\
    (unlimited (st_abs (c_storage c)) -> st_abs s' = st_abs (c_storage c) /\ n = 0)).
  { exists (Ok tt), (c_storage c), 0. by rewrite with_effect_same. }
  replace (negb (bool_decide (commandFilters c = ∅)) && _) with
    (bool_decide (commandFilters c <> ∅ /\ Name cmd ∉ commandFilters c))
    by (repeat case_bool_decide; naive_solver).
  case_bool_decide; [done|]. destruct (select_filtered (databases c) cmd); [done|].
  set (skip := bool_decide (databases c <> ∅ /\ isDataCommand (Name cmd) = true /\
    acur (st_abs (c_storage c)) ∉ databases c)).
  erewrite (gbind_ok _ _ c skip c); [destruct skip; [done|]|].
  - destruct (executeCommand_ok cmd c Hs) as (o & s' & E & Hs' & Hr & Ha).
    destruct o as [[]|e|p|]; try done; destruct (acommand now _ cmd) as [a' ok].
    + exists (Ok tt), s', 1. split; [|split; [done|split; [done|]]].
      * erewrite gbind_ok by (by unfold gwrap; erewrite gtry_ok by exact E). done.
      * intros Hu. by destruct (Ha Hu) as [? ->].
    + eexists _, s', 0. split; [|split; [done|split; [|]]].
      * unfold gwrap. erewrite gbind_err by (by erewrite gtry_err by exact E). 
        unfold with_effect. rewrite count_commands_0. by destruct c.
      * done.
      * intros Hu. by destruct (Ha Hu) as [? ->].
  - subst skip. assert (Hcur : on_store storage_CurrentDB c = (Ok (acur (st_abs (c_storage c))), c)).
    { unfold on_store. rewrite law_CurrentDB by done. by destruct c. }
    destruct (isDataCommand (Name cmd)), (decide (databases c = ∅)) as [Hd|Hd];
      rewrite ?(bool_decide_true (databases c = ∅)), ?(bool_decide_false (databases c = ∅)) by done;
      cbn [negb andb]; rewrite ?(gbind_ok _ _ _ _ _ Hcur); unfold gret; do 2 f_equal;
      repeat case_bool_decide; naive_solver.
Qed.

Lemma processCommand_returns value c : st_wf (c_storage c) ->
  exists o s' n, processCommand now value c = (o, with_effect c s' n) /\ st_wf s' /\ returns o.
Proof.
  intros Hs. destruct (ParseCommand value) as [cmd|e|p|] eqn:Hp.
  - destruct (processCommand_ok value cmd c Hp Hs) as (o & s' & n & E & H1 & H2 & _). by exists o, s', n.
  - exists (Err (Errorf (bs "parse command failed: " ++ Error e))), (c_storage c), 0.
    rewrite with_effect_same. split; [|done]. unfold processCommand, gwrap at 1, gbind at 1, gtry.
    by rewrite Hp.
  - pose proof (ParseCommand_returns value) as Hr. by rewrite Hp in Hr.
  - pose proof (ParseCommand_returns value) as Hr. by rewrite Hp in Hr.
Qed.

(** ** The command stream *)

Definition command_value (cmd : bytes * list bytes) : Value :=
  ArrayValue (BulkStringValue <$> (cmd.1 :: cmd.2)).
Definition sendable (cmd : bytes * list bytes) : Prop := wf_value (command_value cmd).
Definition parsed (cmd : bytes * list bytes) : Command := mkCommand (ToUpper cmd.1) cmd.2.
Definition wire (cmds : list (bytes * list bytes)) : bytes := concat (encode ∘ command_value <$> cmds).

(** The stop channel stays open for [n] looks from [a]. *)
Definition open_for (a n : nat) : Prop := forall i, (a <= i < a + n)%nat -> stop_signal i = false.

Lemma open_always a n : (forall i, stop_signal i = false) -> open_for a n.
Proof. by intros Hstop i _. Qed.

(** The client after commands were processed and the stream read up to [r]. *)
Definition streamed c (s : St) (n : Z) (r : Reader) (k : nat) : Client St :=
  set_checks k (set_connection (has_conn c) r (c_writer c) (connected c) (with_effect c s n)).

Lemma streamed_same c : streamed c (c_storage c) 0 (c_reader c) (checks c) = c.
Proof. unfold streamed. rewrite with_effect_same. by destruct c. Qed.

Lemma streamed_twice c s1 n1 r1 k1 s2 n2 r2 k2 :
  streamed (streamed c s1 n1 r1 k1) s2 n2 r2 k2 = streamed c s2 (n1 + n2) r2 k2.
Proof. unfold streamed, with_effect. cbn. by rewrite count_commands_add. Qed.

Lemma stream_step fuel k c value r' : stop_signal (checks c) = false ->
  ReadNext (c_reader c) = (Ok value, r') -> forall o c',
  processCommand now value (set_checks (S (checks c)) (set_connection (has_conn c) r' (c_writer c) (connected c) c))
    = (o, c') -> returns o -> stream_loop now (S fuel) k c = stream_loop now fuel 0 c'.
Proof.
  intros Hstop Hread o c' Hp Ho. cbn [stream_loop]. unfold check_stop, gbind at 1. rewrite Hstop. cbv iota.
  erewrite gtry_ok by (unfold on_read; cbn [c_reader set_checks]; rewrite Hread; done).
  change (set_connection _ r' _ _ (set_checks _ c)) with
    (set_checks (S (checks c)) (set_connection (has_conn c) r' (c_writer c) (connected c) c)).
  destruct o as [[]|e|p|]; try done.
  - by erewrite gbind_ok by (by erewrite gtry_ok by exact Hp).
  - by erewrite gbind_ok by (by erewrite gtry_err by exact Hp).
Qed.

Lemma stream_commands_ok cmds : Forall sendable cmds ->
  forall fuel k c rest e, open_for (checks c) (length cmds) -> st_wf (c_storage c) -> unlimited (st_abs (c_storage c)) ->
  c_reader c = mkReader (wire cmds ++ rest) e -> exists s' n c',
  stream_loop now (length cmds + fuel) k c = stream_loop now fuel (if cmds is [] then k else 0) c' /\
  c' = streamed c s' n (mkReader rest e) (checks c + length cmds) /\ st_wf s' /\ unlimited (st_abs s') /\
  (st_abs s', n) = areplicates now (commandFilters c) (databases c) (st_abs (c_storage c), 0) (parsed <$> cmds).
Proof.
  intros Hc fuel. induction Hc as [|cmd cmds Hcmd _ IH]; intros k c rest e Hstop Hs Hu Hr.
  - exists (c_storage c), 0, c. split; [done|]. split; [|done]. cbn in *. rewrite <- Hr, Nat.add_0_r.
    by rewrite streamed_same.
  - set (c1 := set_checks (S (checks c))
      (set_connection (has_conn c) (mkReader (wire cmds ++ rest) e) (c_writer c) (connected c) c)).
    destruct cmd as [name args].
    destruct (processCommand_ok (command_value (name, args)) _ c1 (ParseCommand_bulk name args) Hs) as (o & s1 & n1 & Ep & Hs1 & Ho & Ha).
    specialize (Ha Hu). cbn [commandFilters databases c_storage c1 set_checks set_connection] in Ha.
    pose proof (areplicate_limit now (commandFilters c) (databases c) (st_abs (c_storage c))
      (mkCommand (ToUpper name) args)) as Hl.
    destruct (areplicate _ _ _ _ _) as [a1 ok] eqn:Ea. cbn in Hl. destruct Ha as [Ha1 ->].
    destruct (IH 0 (with_effect c1 s1 (if ok then 1 else 0)) rest e) as (s2 & n2 & c2 & E2 & Ec2 & Hs2 & Hu2 & Ha2).
    { intros i Hi. apply Hstop. cbn in *. lia. } { done. } { unfold unlimited in *. cbn. rewrite Ha1. lia. } { done. }
    exists s2, ((if ok then 1 else 0) + n2), c2. split; [|split; [|split; [done|split; [done|]]]].
    + cbn [length Nat.add]. erewrite (stream_step _ k c (command_value (name, args))).
      * etrans; [exact E2|]. by destruct cmds.
      * apply Hstop. cbn. lia.
      * rewrite Hr. unfold wire. cbn [fmap list_fmap concat compose]. rewrite <- app_assoc.
        by apply ReadNext_encode.
      * exact Ep.
      * done.
    + rewrite Ec2. cbn [checks with_effect c1 set_checks set_client_stats set_storage set_connection length].
      replace (checks c + S (length cmds))%nat with (S (checks c) + length cmds)%nat by lia.
      unfold streamed, with_effect. rewrite <- count_commands_add. reflexivity.
    + cbn [commandFilters databases with_effect c1 set_checks set_connection set_client_stats set_storage c_storage] in Ha2.
      cbn [fmap list_fmap]. rewrite areplicates_cons. change (parsed (name, args)) with (mkCommand (ToUpper name) args).
      rewrite Ea. rewrite Ha1 in Ha2. cbn [fst snd]. rewrite areplicates_shift.
      fold (fmap (M := list) parsed cmds). rewrite <- Ha2. by destruct ok.
Qed.

(** The master closes the connection. *)
Lemma stream_end fuel k c : open_for (checks c) 2 -> c_reader c = mkReader [] EOF ->
  stream_loop now (S fuel) k c = (Err (Errorf (bs "connection closed")), set_checks (S (S (checks c))) c).
Proof.
  intros Hstop Hr. cbn [stream_loop]. unfold check_stop at 1, gbind at 1.
  rewrite (Hstop (checks c)) by lia. cbv iota.
  assert (Hread : on_read ReadNext (set_checks (S (checks c)) c) = (Err EOF, set_checks (S (checks c)) c)).
  { unfold on_read. cbn [c_reader set_checks]. destruct c. cbn in Hr. by subst. }
  rewrite (gtry_err _ _ _ _ _ _ Hread). unfold check_stop, gbind. cbn [checks set_checks].
  rewrite (Hstop (S (checks c))) by lia. cbv iota.
  by rewrite bool_decide_true.
Qed.

(** A value takes at least its type byte from the stream. *)
Lemma ReadNext_consumes r v r' : ReadNext r = (Ok v, r') -> (length (rd_buf r') < length (rd_buf r))%nat.
Proof.
  destruct r as [[|b l] e]; [done|]. unfold ReadNext. cbn [rd_buf length ReadNext_fuel].
  set (body := fun typeByte : byte => _). intros E.
  assert (Hg : good (length l) (body b)).
  { subst body. cbn beta. repeat case_bool_decide; auto with resp.
    apply good_readArray, (good_ReadNext_fuel (length l)). }
  destruct (Hg (mkReader l e)) as (_ & Hsuf & _); [done|].
  change (gbind ReadByte body _) with (body b (mkReader l e)) in E. rewrite E in Hsuf.
  apply suffix_length in Hsuf. cbn in *. lia.
Qed.

(** Three errors in a row or the end of the stream stop the loop. *)
Lemma stream_loop_returns fuel : forall count c, st_wf (c_storage c) -> 0 <= count <= 2 ->
  3 * Z.of_nat (length (rd_buf (c_reader c))) + 3 - count <= Z.of_nat fuel ->
  exists o s n r k, stream_loop now fuel count c = (o, streamed c s n r k) /\ returns o /\ st_wf s /\
    (checks c <= k)%nat.
Proof.
  induction fuel as [|fuel IH]; intros count c Hs Hc Hf; [lia|].
  assert (Hdone : forall (o : outcome unit) r k, returns o -> (checks c <= k)%nat ->
    exists o' s n r' k', (o, streamed c (c_storage c) 0 r k) = (o', streamed c s n r' k') /\ returns o' /\
      st_wf s /\ (checks c <= k')%nat) by (intros o r k; by exists o, (c_storage c), 0, r, k).
  destruct (stop_signal (checks c)) eqn:Hstop.
  { destruct (Hdone (Ok tt) (c_reader c) (S (checks c))) as (o & s & n & r & k & E & H'); [done|lia|].
    exists o, s, n, r, k. rewrite <- E. split; [|done]. cbn [stream_loop]. unfold check_stop, gbind at 1.
    rewrite Hstop. unfold streamed. rewrite with_effect_same. by destruct c. }
  destruct (good_ReadNext_fuel (length (rd_buf (c_reader c))) (c_reader c)) as (Hr & Hsuf & _); [done|].
  apply suffix_length in Hsuf.
  change (ReadNext_fuel _ (c_reader c)) with (ReadNext (c_reader c)) in Hr, Hsuf.
  destruct (ReadNext (c_reader c)) as [[v|e|p|] r'] eqn:E; try done; cbn [fst snd] in *.
  - destruct (processCommand_returns v
      (set_checks (S (checks c)) (set_connection (has_conn c) r' (c_writer c) (connected c) c)) Hs)
      as (o & s' & n & Ep & Hs' & Ho).
    rewrite (stream_step _ _ _ _ _ Hstop E _ _ Ep Ho).
    change (with_effect _ s' n) with (streamed c s' n r' (S (checks c))).
    destruct (IH 0 (streamed c s' n r' (S (checks c)))) as (o2 & s2 & n2 & r2 & k2 & E2 & Ho2 & Hs2 & Hk);
      [done|lia|apply ReadNext_consumes in E; cbn; lia|].
    rewrite E2, streamed_twice. cbn in Hk. exists o2, s2, (n + n2), r2, k2. repeat split; auto. lia.
  - assert (Hc1 : forall k k', set_checks k (streamed c (c_storage c) 0 r' k') =
      streamed c (c_storage c) 0 r' k) by done.
    cbn [stream_loop]. unfold check_stop at 1, gbind at 1. rewrite Hstop. cbv iota.
    erewrite gtry_err by (unfold on_read; cbn [c_reader set_checks]; rewrite E; done).
    change (set_connection _ r' _ _ (set_checks (S (checks c)) c))
      with (set_checks (S (checks c)) (set_connection (has_conn c) r' (c_writer c) (connected c) c)).
    assert (Ec1 : set_checks (S (checks c)) (set_connection (has_conn c) r' (c_writer c) (connected c) c) =
      streamed c (c_storage c) 0 r' (S (checks c))).
    { unfold streamed. rewrite with_effect_same. done. }
    rewrite Ec1. clear Ec1. unfold check_stop, gbind.
    repeat match goal with |- context [if ?b then _ else _] => destruct b eqn:? end;
      rewrite ?Hc1; try (apply Hdone; [done|cbn; lia]).
    match goal with |- context [stream_loop _ _ (count + 1) (streamed _ _ _ _ ?k)] =>
      destruct (IH (count + 1) (streamed c (c_storage c) 0 r' k))
        as (o2 & s2 & n2 & r2 & k2 & E2 & Ho2 & Hs2 & Hk); [done|lia|cbn; lia|] end.
    rewrite E2, streamed_twice. cbn in Hk. exists o2, s2, (0 + n2), r2, k2. repeat split; auto. lia.
Qed.

(** ** Starting the command stream *)

Definition fresh_reader (r : Reader) : Reader := mkReader (drop (buffered r) (rd_buf r)) (rd_err r).

(** The heartbeat can be stopped: it is started by this stream, or its channel
    is not a closed one left by an earlier stream. *)
Definition can_beat c : Prop := 0 < heartbeatInterval c \/ heartbeatStop c <> Some true.

Definition beating c : Client St :=
  if heartbeatInterval c <=? 0 then c
  else set_heartbeatStop (Some false) (set_heartbeat (heartbeatInterval c) 0 c).

Definition beat_stopped c : Client St :=
  match heartbeatStop c with Some _ => set_heartbeatStop (Some true) c | None => c end.

Definition stream_ready c : Client St :=
  beating (set_connection (has_conn c) (fresh_reader (c_reader c)) (c_writer c) (connected c) c).

Lemma beating_open c : can_beat c -> heartbeatStop (beating c) <> Some true.
Proof. unfold beating. intros [Hb|Hb]; destruct (Z.leb_spec (heartbeatInterval c) 0); cbn; (done || lia). Qed.

Lemma stopHeartbeat_ok c : heartbeatStop c <> Some true -> stopHeartbeat c = (Ok tt, beat_stopped c).
Proof. unfold stopHeartbeat, beat_stopped. by destruct (heartbeatStop c) as [[]|]. Qed.

Lemma beating_same c : c_storage (beating c) = c_storage c /\ stats (beating c) = stats c /\
  checks (beating c) = checks c /\ commandFilters (beating c) = commandFilters c /\
  databases (beating c) = databases c /\ c_reader (beating c) = c_reader c.
Proof. unfold beating. by case_match. Qed.

Lemma stream_ready_same c : c_storage (stream_ready c) = c_storage c /\ stats (stream_ready c) = stats c /\
  checks (stream_ready c) = checks c /\ commandFilters (stream_ready c) = commandFilters c /\
  databases (stream_ready c) = databases c /\ c_reader (stream_ready c) = fresh_reader (c_reader c).
Proof.
  exact (beating_same
    (set_connection (has_conn c) (fresh_reader (c_reader c)) (c_writer c) (connected c) c)).
Qed.

Lemma beat_stopped_same c : c_storage (beat_stopped c) = c_storage c /\ stats (beat_stopped c) = stats c /\
  checks (beat_stopped c) = checks c.
Proof. unfold beat_stopped. by case_match. Qed.

Lemma stream_ready_open c : can_beat c -> heartbeatStop (stream_ready c) <> Some true.
Proof.
  exact (beating_open
    (set_connection (has_conn c) (fresh_reader (c_reader c)) (c_writer c) (connected c) c)).
Qed.

(** A stream that ends leaves the state of the loop with the heartbeat stopped. *)
Lemma gdefer_streamed (m : M (Client St) unit) c0 c o s n r k : can_beat c0 -> c = streamed (stream_ready c0) s n r k ->
  returns o -> m (stream_ready c0) = (o, c) ->
  gdefer stopHeartbeat m (stream_ready c0) = (o, beat_stopped c).
Proof.
  intros Hb -> Ho E. unfold gdefer. rewrite E.
  rewrite stopHeartbeat_ok; [by destruct o|]. exact (stream_ready_open c0 Hb).
Qed.

Lemma startHeartbeat_ok c : startHeartbeat c = (Ok tt, beating c).
Proof. done. Qed.

Definition with_fresh_reader c : Client St :=
  set_connection (has_conn c) (if has_conn c then fresh_reader (c_reader c) else c_reader c) (c_writer c)
    (connected c) c.

(** A deadline cannot be set, or the reader is fresh, if there is a connection. *)
Lemma reset_reader_cases c :
  (~ no_deadline_error /\ exists e, reset_reader c = (Err e, with_fresh_reader c)) \/
  reset_reader c = (Ok tt, with_fresh_reader c).
Proof.
  unfold reset_reader, with_fresh_reader, no_deadline_error, gget, gbind, gmodify, fresh_reader.
  destruct (has_conn c) eqn:Hconn.
  - rewrite Hconn. destruct read_deadline_error, write_deadline_error; [left..|by right];
      (split; [by intros []|]); by eexists.
  - right. rewrite <- Hconn. by destruct c.
Qed.

Lemma streamCommands_cases c :
  (~ no_deadline_error /\ exists e, streamCommands now c = (Err e, with_fresh_reader c)) \/
  streamCommands now c = gdefer stopHeartbeat (stream_rounds now) (beating (with_fresh_reader c)).
Proof.
  unfold streamCommands. destruct (reset_reader_cases c) as [(Hno & e & E)|E].
  - left. split; [done|]. exists e. by rewrite (gbind_err _ _ _ _ _ E).
  - right. rewrite (gbind_ok _ _ _ _ _ E). by rewrite (gbind_ok _ _ _ _ _ (startHeartbeat_ok _)).
Qed.

Lemma streamCommands_ready c : has_conn c = true -> no_deadline_error ->
  streamCommands now c = gdefer stopHeartbeat (stream_rounds now) (stream_ready c).
Proof.
  intros Hconn Hd. destruct (streamCommands_cases c) as [[Hno _]|E]; [done|].
  rewrite E. unfold with_fresh_reader, stream_ready. by rewrite Hconn.
Qed.

Lemma wire_length cmds : (length cmds <= length (wire cmds))%nat.
Proof.
  induction cmds as [|cmd cmds IH]; [done|]. unfold wire in *. cbn [fmap list_fmap concat compose length].
  rewrite length_app. assert (0 < length (encode (command_value cmd)))%nat; [|lia].
  unfold command_value. rewrite encode_array. cbn. lia.
Qed.

(** The stream up to its end: what the old reader has buffered is lost, the commands
    behind it are applied. *)
Lemma stream_all_ok lost cmds c : has_conn c = true -> no_deadline_error -> can_beat c ->
  open_for (checks c) (length cmds + 2) -> buffered (c_reader c) = length lost ->
  st_wf (c_storage c) -> unlimited (st_abs (c_storage c)) ->
  Forall sendable cmds -> c_reader c = mkReader (lost ++ wire cmds) EOF ->
  exists s' n, streamCommands now c = (Err (Errorf (bs "connection closed")),
      beat_stopped (streamed (stream_ready c) s' n (mkReader [] EOF) (checks c + length cmds + 2))) /\ st_wf s' /\
    (st_abs s', n) = areplicates now (commandFilters c) (databases c) (st_abs (c_storage c), 0) (parsed <$> cmds).
Proof.
  intros Hconn Hd Hbeat Hstop Hbuf Hs Hu Hc Hr. rewrite streamCommands_ready by done.
  assert (Efresh : fresh_reader (c_reader c) = mkReader (wire cmds) EOF).
  { unfold fresh_reader. rewrite Hbuf, Hr. cbn [rd_buf rd_err]. by rewrite drop_app_length. }
  destruct (stream_ready_same c) as (E1 & _ & E2 & E3 & E4 & E5).
  destruct (stream_commands_ok cmds Hc (S (3 * S (length (wire cmds)) - length cmds - 1)) 0
    (stream_ready c) [] EOF) as (s' & n & c' & E & Ec' & Hs' & _ & Ha).
  { rewrite E2. intros i Hi. apply Hstop. lia. } { by rewrite E1. } { by rewrite E1. }
  { rewrite E5, Efresh. by rewrite app_nil_r. }
  rewrite E1, E3, E4 in Ha. rewrite E2 in Ec'. exists s', n. split; [|done].
  erewrite (gdefer_streamed _ c); [reflexivity|done|reflexivity|done|].
  unfold stream_rounds. rewrite E5, Efresh. cbn [rd_buf].
  pose proof (wire_length cmds) as Hlen.
  replace (3 * S (length (wire cmds)))%nat
    with (length cmds + S (3 * S (length (wire cmds)) - length cmds - 1))%nat by lia.
  rewrite E, stream_end; rewrite Ec'; [|intros i Hi; apply Hstop; cbn in Hi; lia|done].
  by replace (checks c + length cmds + 2)%nat with (S (S (checks c + length cmds))) by lia.
Qed.

Definition steady c : Prop := 0 < heartbeatInterval c \/ heartbeatStop c = None.

Lemma steady_can_beat c : steady c -> can_beat c.
Proof. intros [Hb|Hb]; [by left|]. right. by rewrite Hb. Qed.

Lemma steady_beating c : steady c -> steady (beat_stopped (beating c)).
Proof.
  unfold steady, beat_stopped, beating.
  destruct (Z.leb_spec (heartbeatInterval c) 0); [|by left; cbn].
  intros [Hb|Hb]; [lia|]. rewrite Hb. by right.
Qed.

(** A stream always ends; a steady client stays one. *)
Lemma streamCommands_returns c : st_wf (c_storage c) -> can_beat c ->
  exists o c', streamCommands now c = (o, c') /\ returns o /\ st_wf (c_storage c') /\
    (checks c <= checks c')%nat /\ (steady c -> steady c').
Proof.
  intros Hs Hb. destruct (streamCommands_cases c) as [(_ & e & E)|E]; [by eexists _, _|].
  rewrite E. set (c1 := with_fresh_reader c).
  destruct (beating_same c1) as (E1 & _ & E2 & _ & _ & E3).
  destruct (stream_loop_returns (3 * S (length (rd_buf (c_reader c1)))) 0 (beating c1))
    as (o & s & n & r & k & E4 & Ho & Hs' & Hk); [by rewrite E1|lia|rewrite E3; lia|].
  exists o, (beat_stopped (streamed (beating c1) s n r k)). split.
  { unfold gdefer, stream_rounds. rewrite E3, E4, stopHeartbeat_ok; [by destruct o|].
    exact (beating_open c1 Hb). }
  split; [done|]. destruct (beat_stopped_same (streamed (beating c1) s n r k)) as (-> & _ & ->).
  split; [done|]. split; [rewrite E2 in Hk; exact Hk|]. intros Hst. pose proof (steady_beating c1 Hst) as H1.
  revert H1. unfold steady, beat_stopped. cbn [heartbeatStop streamed set_checks set_connection with_effect
    set_client_stats set_storage]. by destruct (heartbeatStop (beating c1)).
Qed.

(** Without a heartbeat to start, a closed channel is closed again. *)
Lemma streamCommands_panics c : st_wf (c_storage c) -> no_deadline_error ->
  heartbeatInterval c <= 0 -> heartbeatStop c = Some true ->
  (streamCommands now c).1 = Panic (bs "close of closed channel").
Proof.
  intros Hs Hd Hi Hstop. destruct (streamCommands_cases c) as [[Hno _]|E]; [done|].
  rewrite E. set (c1 := with_fresh_reader c).
  assert (Eb : beating c1 = c1).
  { unfold beating. rewrite (proj2 (Z.leb_le (heartbeatInterval c1) 0)); [done|exact Hi]. }
  rewrite Eb.
  destruct (stream_loop_returns (3 * S (length (rd_buf (c_reader c1)))) 0 c1)
    as (o & s & n & r & k & E4 & Ho & _); [done|lia|lia|].
  unfold gdefer, stream_rounds. rewrite E4. unfold stopHeartbeat.
  change (heartbeatStop (streamed c1 s n r k)) with (heartbeatStop c). rewrite Hstop. by destruct o.
Qed.

(** ** The full synchronisation *)

(** What the master sends for a full synchronisation: the payload without a
    final CRLF. *)
Definition rdb_transfer (payload : bytes) : bytes :=
  bs "$" ++ FormatInt (Z.of_nat (length payload)) ++ CRLF ++ payload.

(** The client that loaded a payload into [s] and read up to [r]. *)
Definition loaded c (s : St) (r : Reader) : Client St :=
  set_storage s (set_connection (has_conn c) r (c_writer c) (connected c) c).

Lemma performFullSync_ok version items trailer rest e c : st_wf (c_storage c) ->
  unlimited (st_abs (c_storage c)) -> 0 <= version <= 12 -> Forall readable_ritem items ->
  Forall (loadable (databases c)) items ->
  Z.of_nat (length (encode_file version items trailer)) <= maxBulkSize ->
  c_reader c = mkReader (rdb_transfer (encode_file version items trailer) ++ rest) e ->
  exists s', performFullSync now c = (Ok tt, loaded c s' (mkReader rest e)) /\ st_wf s' /\
    st_abs s' = (foldl (load_item now (databases c)) (st_abs (c_storage c), 0) items).1.
Proof.
  intros Hs Hu Hv Hwf Hl Hlen Hr. set (payload := encode_file version items trailer) in *.
  destruct (load_file now (c_storage c) (databases c) (NewRDBLoadStats now) version items trailer EOF
    Hs Hu Hv Hwf Hl) as (h' & E & Hs' & Ha). exists (h_storage h'). split; [|done].
  destruct (collect_chunk_ok (payload_chunks payload) (mkStreamBuffer [] 0 0 0 0) newRDBChunkAggregator)
    as (agg & Ec).
  unfold performFullSync, gget, gbind. rewrite Hr. unfold rdb_transfer, ReadBulkStringForReplication.
  rewrite <- !app_assoc.
  rewrite (read_bulk_stream_ok collect_chunk (fun x d => (collect_chunk (Some d) x).2)); [|by intros b []|done].
  rewrite Ec. cbn [gret chunks app]. rewrite payload_chunks_concat. fold payload in E. cbn [gret].
  change (databases (set_connection _ _ _ _ c)) with (databases c). by rewrite E.
Qed.

(** The request: to resume from a known position, or anew. *)
Definition psync_request c : bytes * list bytes :=
  (bs "PSYNC", if bool_decide (replID c <> [] /\ 0 < replOffset c) then [replID c; FormatInt (replOffset c)]
               else [bs "?"; bs "-1"]).

Lemma on_write_emits m out c b sent : emits m out -> c_writer c = mkWriter b sent None ->
  on_write m c = (Ok tt, set_connection (has_conn c) (c_reader c) (mkWriter (b ++ out) sent None) (connected c) c).
Proof. intros Hm Hw. unfold on_write. by rewrite Hw, Hm. Qed.

Lemma sendPSYNC_ok c b sent : c_writer c = mkWriter b sent None ->
  sendPSYNC c = (Ok tt, set_connection (has_conn c) (c_reader c)
    (mkWriter [] (sent ++ b ++ encode (command_value (psync_request c))) None) (connected c) c).
Proof.
  intros Hw. unfold sendPSYNC, gget, gbind at 1, psync_request, command_value.
  assert (Hif : negb (bool_decide (replID c = [])) && (0 <? replOffset c) =
    bool_decide (replID c <> [] /\ 0 < replOffset c)).
  { destruct (Z.ltb_spec 0 (replOffset c)); repeat case_bool_decide; naive_solver lia. }
  rewrite Hif. destruct (bool_decide (replID c <> [] /\ 0 < replOffset c));
    by erewrite gbind_ok by (apply on_write_emits; [apply WriteCommand_encode|exact Hw]).
Qed.

(** After a synchronisation: the statistics, the callbacks, the flag. *)
Definition sync_finished c : Client St :=
  set_syncing false (set_callbacks (onSyncComplete c) (fired c ++ onSyncComplete c)
    (set_client_stats (mkStats (st_MasterAddr (stats c)) (st_Connected (stats c)) (ReplicationOffset (stats c)) now
       (BytesReceived (stats c)) (CommandsProcessed (stats c)) (ReconnectCount (stats c)) true (float_of_int 1)) c)).

Lemma performSync_ok id offset version items trailer rest e b sent c : st_wf (c_storage c) ->
  unlimited (st_abs (c_storage c)) -> 0 <= version <= 12 -> Forall readable_ritem items ->
  Forall (loadable (databases c)) items ->
  Z.of_nat (length (encode_file version items trailer)) <= maxBulkSize ->
  is_word id -> in_int64 offset -> syncing c = false -> c_writer c = mkWriter b sent None ->
  c_reader c = mkReader (encode (SimpleStringValue (fullresync_line id offset)) ++
    rdb_transfer (encode_file version items trailer) ++ rest) e ->
  exists s', performSync now c = (Ok tt, sync_finished
      (set_replication id offset (loaded (set_connection (has_conn c) (c_reader c)
        (mkWriter [] (sent ++ b ++ encode (command_value (psync_request c))) None) (connected c) c)
        s' (mkReader rest e)))) /\
    st_wf s' /\
    st_abs s' = (foldl (load_item now (databases c)) (st_abs (c_storage c), 0) items).1.
Proof.
  intros Hs Hu Hv Hwf Hl Hlen Hid Hoff Hsync Hw Hr.
  destruct (fullresync_line_ok id offset Hid) as [Hlf Hfields].
  set (w := mkWriter [] (sent ++ b ++ encode (command_value (psync_request c))) None).
  set (c1 := set_replication id offset (set_connection (has_conn c)
    (mkReader (rdb_transfer (encode_file version items trailer) ++ rest) e) w (connected c) (set_syncing true c))).
  destruct (performFullSync_ok version items trailer rest e c1 Hs Hu Hv Hwf Hl Hlen eq_refl)
    as (s' & E & Hs' & Ha). exists s'. split; [|done].
  unfold performSync. rewrite Hsync. unfold sync_body.
  erewrite gbind_ok by (by unfold gwrap; erewrite gtry_ok by (by apply (sendPSYNC_ok (set_syncing true c) b sent))).
  erewrite gbind_ok by (erewrite gtry_ok by
    (unfold on_read; cbn [c_reader set_connection set_syncing]; rewrite Hr, ReadNext_encode by (by apply wf_simple);
     reflexivity); reflexivity).
  change (IsError _) with false. cbv iota zeta. cbn [Value_String SimpleStringValue].
  rewrite bool_decide_true, Hfields by done. rewrite bool_decide_true by done.
  erewrite (gbind_ok _ _ _ tt (loaded c1 s' (mkReader rest e))); [reflexivity|].
  erewrite gbind_ok by reflexivity. rewrite ParseInt_FormatInt by done. erewrite gbind_ok by reflexivity. exact E.
Qed.

(** ** A synchronisation ends on every input *)

(** [c'] differs from [c] in the connection, the replication position and the
    contents of the storage at most. *)
Definition beat c : Z * option bool * nat := (heartbeatInterval c, heartbeatStop c, checks c).

Record undisturbed c c' : Prop := {
  ud_wf : st_wf (c_storage c) -> st_wf (c_storage c');
  ud_syncing : syncing c' = syncing c;
  ud_stats : stats c' = stats c;
  ud_fired : fired c' = fired c;
  ud_beat : beat c' = beat c
}.

Definition quietly {A} (m : M (Client St) A) : Prop := forall c, st_wf (c_storage c) ->
  exists o c', m c = (o, c') /\ returns o /\ undisturbed c c'.

Lemma quietly_pure {A} (o : outcome A) : returns o -> quietly (fun c => (o, c)).
Proof. intros Ho c Hc. by exists o, c. Qed.

Lemma quietly_bind {A B} (m : M (Client St) A) (k : A -> M (Client St) B) :
  quietly m -> (forall a, quietly (k a)) -> quietly (gbind m k).
Proof.
  intros Hm Hk c Hc. destruct (Hm c Hc) as (o & c1 & E & Hr & [W1 S1 T1 F1 B1]). unfold gbind. rewrite E.
  destruct o as [a|e|p|]; try done; [|by do 2 eexists].
  destruct (Hk a c1 (W1 Hc)) as (o & c2 & E2 & Hr2 & [W2 S2 T2 F2 B2]). exists o, c2.
  repeat split; auto; congruence.
Qed.

Lemma quietly_try {A B} (m : M (Client St) A) (k : A -> M (Client St) B) h :
  quietly m -> (forall a, quietly (k a)) -> (forall e, quietly (h e)) -> quietly (gtry m k h).
Proof.
  intros Hm Hk Hh c Hc. destruct (Hm c Hc) as (o & c1 & E & Hr & [W1 S1 T1 F1 B1]). unfold gtry. rewrite E.
  destruct o as [a|e|p|]; try done.
  - destruct (Hk a c1 (W1 Hc)) as (o & c2 & E2 & Hr2 & [W2 S2 T2 F2 B2]). exists o, c2.
    repeat split; auto; congruence.
  - destruct (Hh e c1 (W1 Hc)) as (o & c2 & E2 & Hr2 & [W2 S2 T2 F2 B2]). exists o, c2.
    repeat split; auto; congruence.
Qed.

Lemma quietly_ret {A} (a : A) : quietly (gret a).
Proof. by apply quietly_pure. Qed.
Lemma quietly_fail {A} e : quietly (gfail e : M (Client St) A).
Proof. by apply quietly_pure. Qed.
Lemma quietly_modify f : (forall c, undisturbed c (f c)) -> quietly (gmodify f).
Proof. intros Hf c Hc. by exists (Ok tt), (f c). Qed.

Lemma quietly_read {A} (m : M Reader A) : (forall r, returns (m r).1) -> quietly (on_read m).
Proof.
  intros Hm c Hc. unfold on_read. specialize (Hm (c_reader c)). destruct (m (c_reader c)) as [o r].
  do 2 eexists. by split.
Qed.

Lemma quietly_write {A} (m : M Writer A) : (forall w, returns (m w).1) -> quietly (on_write m).
Proof.
  intros Hm c Hc. unfold on_write. specialize (Hm (c_writer c)). destruct (m (c_writer c)) as [o w].
  do 2 eexists. by split.
Qed.

Lemma WriteCommand_returns name args w : returns (WriteCommand name args w).1.
Proof. destruct w as [b sent [e|]]; [done|]. by rewrite WriteCommand_encode. Qed.

Lemma Flush_returns w : returns (Flush w).1.
Proof. by destruct w as [b sent [e|]]. Qed.

Lemma ReadNext_returns r : returns (ReadNext r).1.
Proof. by destruct (good_ReadNext_fuel (length (rd_buf r)) r) as (Hr & _); [done|]. Qed.

Lemma quietly_sendPSYNC : quietly sendPSYNC.
Proof.
  intros c Hc. unfold sendPSYNC, gget, gbind at 1.
  revert c Hc. change (quietly (fun c => ((if negb (bool_decide (replID c = [])) && (0 <? replOffset c)
    then on_write (WriteCommand (bs "PSYNC") [replID c; FormatInt (replOffset c)])
    else on_write (WriteCommand (bs "PSYNC") [bs "?"; bs "-1"])) ;;! on_write Flush) c)).
  intros c. assert (Hq : forall args, quietly (on_write (WriteCommand (bs "PSYNC") args) ;;! on_write Flush)).
  { intros args. apply quietly_bind; [apply quietly_write, WriteCommand_returns|].
    intros _. apply quietly_write, Flush_returns. }
  destruct (_ && _); apply Hq.
Qed.

Lemma quietly_fullSync : quietly (performFullSync now).
Proof.
  intros c Hc. unfold performFullSync, gget, gbind.
  pose proof (ends_read_bulk_stream collect_chunk ltac:(by intros [d|] []) (gret tt) ltac:(by intros ?)
    (c_reader c, (mkStreamBuffer [] 0 0 0 0, newRDBChunkAggregator))) as Hread.
  unfold ReadBulkStringForReplication. destruct (read_bulk_stream _ _ _) as [o [r [buf agg]]]. cbn in Hread.
  destruct o as [[]|e|p|]; try done; [|by do 2 eexists].
  set (h0 := newRDBStorageHandler _ _ _).
  assert (Hh0 : handler_inv h0) by (by split).
  destruct (ParseRDB_total handler_inv (storage_handler now) (storage_handler_total now)
    (mkReader (concat (chunks buf)) EOF) h0 Hh0) as [Hret [Hw _ _]].
  destruct (ParseRDB _ _ h0) as [o h]. cbn in Hret, Hw.
  destruct o as [[]|e|p|]; try done; [|destruct (_ <? 500)]; do 2 eexists; (split; [reflexivity|]); by split.
Qed.

(** A synchronisation that fails disturbs nothing else; the flag stays as it was. *)
Definition settles (m : M (Client St) unit) : Prop := forall c, st_wf (c_storage c) ->
  exists o c', m c = (o, c') /\ returns o /\ st_wf (c_storage c') /\ syncing c' = syncing c /\
    beat c' = beat c /\ match o with Ok _ => True | _ => stats c' = stats c /\ fired c' = fired c end.

Lemma quietly_settles m : quietly m -> settles m.
Proof.
  intros Hm c Hc. destruct (Hm c Hc) as (o & c' & E & Hr & [W S T F B]).
  exists o, c'. repeat split; auto. by destruct o.
Qed.

Lemma settles_bind {A} (m : M (Client St) A) k : quietly m -> (forall a, settles (k a)) -> settles (gbind m k).
Proof.
  intros Hm Hk c Hc. destruct (Hm c Hc) as (o & c1 & E & Hr & [W1 S1 T1 F1 B1]). unfold gbind. rewrite E.
  destruct o as [a|e|p|]; try done; [|by exists (Err e), c1; split_and!; auto].
  destruct (Hk a c1 (W1 Hc)) as (o & c2 & E2 & Hr2 & W2 & S2 & B2 & R2). exists o, c2.
  do 3 (split; [by auto|]). do 2 (split; [congruence|]). rewrite <- T1, <- F1. exact R2.
Qed.

Lemma settles_sync_body : settles (sync_body now).
Proof.
  unfold sync_body. apply settles_bind.
  { apply quietly_try; [apply quietly_sendPSYNC|apply quietly_ret|intros; apply quietly_fail]. }
  intros _. apply settles_bind.
  { apply quietly_try; [apply quietly_read, ReadNext_returns|apply quietly_ret|].
    intros e. case_bool_decide; apply quietly_fail. }
  intros response. destruct (IsError response); [apply quietly_settles, quietly_fail|]. cbn zeta.
  destruct (Fields (Value_String response)) as [|part0 parts]; [apply quietly_settles, quietly_fail|].
  apply settles_bind.
  - case_bool_decide; [|case_bool_decide; [apply quietly_ret|apply quietly_fail]].
    destruct parts as [|id [|off parts]]; try apply quietly_fail.
    apply quietly_bind; [by apply quietly_modify|]. intros _.
    destruct (ParseInt off) as [offset|]; [|apply quietly_fail].
    apply quietly_bind; [by apply quietly_modify|]. intros _. apply quietly_fullSync.
  - intros _ c Hc. do 2 eexists. by split.
Qed.

Lemma performSync_settles : settles (performSync now).
Proof.
  intros c Hc. unfold performSync. destruct (syncing c) eqn:Es; [by exists (Ok tt), c|].
  destruct (settles_sync_body (set_syncing true c) Hc) as (o & c' & E & Hr & W & S & B & R).
  rewrite E. by do 2 eexists.
Qed.

End Proofs.
