(* ===== verification/ClientSpec.v ===== *)
(** * What the replication client guarantees *)

From Stdlib Require Import ZArith Lia String.
From stdpp Require Import base list list_numbers gmap.
From S2P Require Import Prelude GoLib RespTypes RespWriter RespReader RespProofs RespSpec.
From S2P Require Import StorageTypes Memory MemoryInv Lzf Rdb RdbFormat RdbProofs RdbSpec.
From S2P Require Import StoreSpec StorageIface StorageSpec RdbLoad RdbLoadSpec Client.
From S2P Require Import ClientProofs.

(** ** Facts about the abstract effect *)

(** The value of a key in a database. *)
Definition value_in (a : AStore) (db : Z) (k : bytes) : option StoredValue := adbs a !! db ≫= lookup k.

Lemma value_in_aset now a k v e db k' : k' <> k -> value_in (aset now a k v e) db k' = value_in a db k'.
Proof.
  intros Hk. unfold value_in, aset, with_selected, selected. cbn.
  destruct (decide (db = acur a)) as [->|Hne]; [|by rewrite lookup_insert_ne].
  rewrite lookup_insert_eq. cbn. rewrite lookup_insert_ne by done.
  by destruct (adbs a !! acur a) as [m|]; cbn; rewrite ?lookup_empty.
Qed.

Lemma value_in_aselect a n db k : value_in (aselect a n) db k = value_in a db k.
Proof.
  unfold value_in, aselect. cbn. destruct (decide (db = n)) as [->|Hne].
  - rewrite lookup_partial_alter_eq. by destruct (adbs a !! n).
  - by rewrite lookup_partial_alter_ne.
Qed.

(** The keys of the string entries of a file. *)
Definition file_keys (items : list ritem) : list bytes :=
  omap (fun i => match i with ItemKey _ k (VString _) => Some (rstring_read k) | _ => None end) items.

Lemma load_item_other now filt a cur i db k : k ∉ file_keys [i] ->
  value_in ((load_item now filt (a, cur) i).1) db k = value_in a db k.
Proof.
  intros Hk. destruct i as [n|k' v|m n|e k' v]; cbn [load_item]; try done.
  - destruct (db_allowed filt n); [apply value_in_aselect|done].
  - destruct v; cbn in *; try done. destruct (db_allowed filt cur); [|done].
    apply value_in_aset. set_solver.
Qed.

Lemma load_items_other now filt items db k : forall x, k ∉ file_keys items ->
  value_in ((foldl (load_item now filt) x items).1) db k = value_in (x.1) db k.
Proof.
  induction items as [|i items IH]; intros [a cur] Hk; [done|]. cbn [foldl].
  assert (Hk1 : (k ∉ file_keys [i]) /\ k ∉ file_keys items).
  { unfold file_keys in *. change (i :: items) with ([i] ++ items) in Hk. rewrite omap_app in Hk. set_solver. }
  rewrite IH by apply Hk1. apply load_item_other, Hk1.
Qed.

Lemma areplicate_other {U : GoUnicode} now cmds dbs a cmd db : dbs <> ∅ -> db ∉ dbs ->
  adbs ((areplicate now cmds dbs a cmd).1) !! db = adbs a !! db.
Proof.
  intros Hne Hdb. unfold areplicate. case_bool_decide; [done|].
  destruct (select_filtered dbs cmd) eqn:Es; [done|]. case_bool_decide as Hcur; [done|].
  assert (Hin : isDataCommand (Name cmd) = true -> acur a <> db).
  { intros Hd E. apply Hcur. by rewrite E. }
  unfold acommand. case_bool_decide as HSET; [|case_bool_decide as HDEL; [|case_bool_decide as HSEL; [|done]]].
  - destruct (Args cmd) as [|key [|value l]]; try done. apply lookup_insert_ne, Hin. by rewrite HSET.
  - apply lookup_insert_ne, Hin. by rewrite HDEL.
  - unfold select_filtered in Es. rewrite bool_decide_true, bool_decide_false in Es by done.
    destruct (Args cmd) as [|arg [|? ?]]; try done. destruct (ParseInt arg) as [n|]; [|done].
    destruct (bool_decide (n ∈ dbs)) eqn:En; [|done]. apply bool_decide_eq_true in En.
    case_bool_decide; [|done]. apply lookup_partial_alter_ne. by intros ->.
Qed.

Lemma areplicates_other {U : GoUnicode} now cmds dbs l db : forall x, dbs <> ∅ -> db ∉ dbs ->
  adbs ((areplicates now cmds dbs x l).1) !! db = adbs (x.1) !! db.
Proof.
  induction l as [|cmd l IH]; intros [a n] Hne Hdb; [done|].
  rewrite areplicates_cons, IH by done. by apply areplicate_other.
Qed.

Section Claims.
  Context {St : Type} `{Laws : StorageLaws St} {U : GoUnicode} {Env : ClientEnv} (now : Z).

Implicit Types c : Client St.

(** ** Claims *)

(** C17: a full synchronisation with a master that answers FULLRESYNC and sends an RDB
    file whose entries the parser can read ([readable_ritem], see [rdb_file_parsed]),
    with replicated databases numbered 0 to 15, into a storage without a memory limit,
    leaves the storage as the file applied entry by entry, adopts the master's id and
    offset, records the time, calls every callback once in the order of registration,
    clears the syncing flag and stops exactly before the first byte of the command
    stream; what it asked for is a PSYNC command. *)
Theorem full_resync c id offset version items trailer rest e b sent : st_wf (c_storage c) ->
  unlimited (st_abs (c_storage c)) -> 0 <= version <= 12 -> Forall readable_ritem items ->
  Forall (loadable (databases c)) items ->
  Z.of_nat (length (encode_file version items trailer)) <= maxBulkSize ->
  is_word id -> in_int64 offset -> syncing c = false -> c_writer c = mkWriter b sent None ->
  c_reader c = mkReader (encode (SimpleStringValue (fullresync_line id offset)) ++
    rdb_transfer (encode_file version items trailer) ++ rest) e ->
  exists c', performSync now c = (Ok tt, c') /\
    st_wf (c_storage c') /\
    st_abs (c_storage c') = (foldl (load_item now (databases c)) (st_abs (c_storage c), 0) items).1 /\
    replID c' = id /\ replOffset c' = offset /\
    InitialSyncCompleted (stats c') = true /\ LastSyncTime (stats c') = now /\
    fired c' = fired c ++ onSyncComplete c /\ syncing c' = false /\
    c_reader c' = mkReader rest e /\
    w_sent (c_writer c') = sent ++ b ++ encode (command_value (psync_request c)).
Proof.
  intros Hs Hu Hv Hwf Hl Hlen Hid Hoff Hsync Hw Hr.
  destruct (performSync_ok now id offset version items trailer rest e b sent c Hs Hu Hv Hwf Hl Hlen Hid Hoff
    Hsync Hw Hr) as (s' & E & Hs' & Ha). eexists. split; [exact E|]. done.
Qed.

(** A synchronisation ends on everything a master can send: it returns
    without a panic, with the storage well formed and the syncing flag as before;
    when it fails, no callback was called and the statistics are untouched. *)
Theorem sync_always_ends c : st_wf (c_storage c) ->
  exists o c', performSync now c = (o, c') /\ returns o /\ st_wf (c_storage c') /\ syncing c' = syncing c /\
    match o with Ok _ => True | _ => stats c' = stats c /\ fired c' = fired c end.
Proof.
  intros Hs. destruct (performSync_settles now c Hs) as (o & c' & E & Ho & Hs' & Hc & _ & H').
  by exists o, c'.
Qed.

(** C18: the command stream applies every command it receives, in order: the storage
    ends as the fold of SET, DEL and SELECT over the abstract store behind the command
    and database filters, and the statistics count exactly the commands that went
    through. It receives what the master sends behind the bytes the old reader had
    buffered ([lost], any bytes), which are lost. The storage has no memory limit, the
    deadlines can be removed, and nobody stops the client before the master has closed
    the connection. *)
Theorem commands_replicate c lost cmds : has_conn c = true -> no_deadline_error -> can_beat c ->
  open_for (checks c) (length cmds + 2) -> buffered (c_reader c) = length lost ->
  st_wf (c_storage c) -> unlimited (st_abs (c_storage c)) ->
  Forall sendable cmds -> c_reader c = mkReader (lost ++ wire cmds) EOF ->
  exists c' n, streamCommands now c = (Err (Errorf (bs "connection closed")), c') /\ st_wf (c_storage c') /\
    (st_abs (c_storage c'), n) =
      areplicates now (commandFilters c) (databases c) (st_abs (c_storage c), 0) (parsed <$> cmds) /\
    CommandsProcessed (stats c') = CommandsProcessed (stats c) + n.
Proof.
  intros Hconn Hd Hbeat Hstop Hbuf Hs Hu Hc Hr.
  destruct (stream_all_ok now lost cmds c Hconn Hd Hbeat Hstop Hbuf Hs Hu Hc Hr) as (s' & n & E & Hs' & Ha).
  eexists _, n. split; [exact E|]. destruct (stream_ready_same c) as (_ & E2 & _).
  destruct (beat_stopped_same (streamed (stream_ready c) s' n (mkReader [] EOF) (checks c + length cmds + 2)))
    as (-> & -> & _). cbn. by rewrite E2.
Qed.

(** The command stream ends on every finite input, whatever bytes arrive
    and whenever the client is stopped: it returns without a panic, with the
    storage well formed, and three errors in a row are the most it skips. *)
Theorem stream_terminates c : st_wf (c_storage c) -> can_beat c ->
  exists o c', streamCommands now c = (o, c') /\ returns o /\ st_wf (c_storage c').
Proof.
  intros Hs Hb. destruct (streamCommands_returns now c Hs Hb) as (o & c' & E & Ho & Hs' & _).
  by exists o, c'.
Qed.

(** A client that has streamed with a heartbeat and then streams with the
    heartbeat disabled closes the channel of the first heartbeat again: the
    stream ends, and its end panics. *)
Theorem disabled_heartbeat_panics c : st_wf (c_storage c) -> no_deadline_error ->
  heartbeatInterval c <= 0 -> heartbeatStop c = Some true ->
  (streamCommands now c).1 = Panic (bs "close of closed channel").
Proof. apply streamCommands_panics. Qed.

(** With a database filter, no sequence of replicated commands changes a
    database that is not replicated. *)
Theorem filtered_databases_untouched c cmds db : has_conn c = true -> no_deadline_error -> can_beat c ->
  (forall n, stop_signal n = false) -> buffered (c_reader c) = 0%nat ->
  st_wf (c_storage c) -> unlimited (st_abs (c_storage c)) ->
  Forall sendable cmds -> c_reader c = mkReader (wire cmds) EOF ->
  databases c <> ∅ -> db ∉ databases c ->
  adbs (st_abs (c_storage (streamCommands now c).2)) !! db = adbs (st_abs (c_storage c)) !! db.
Proof.
  intros Hconn Hd Hbeat Hstop Hbuf Hs Hu Hc Hr Hne Hdb.
  destruct (stream_all_ok now [] cmds c Hconn Hd Hbeat (open_always _ _ Hstop) Hbuf Hs Hu Hc Hr) as (s' & n & E & Hs' & Ha).
  rewrite E. apply (f_equal fst) in Ha. cbn [fst snd] in *. rewrite (proj1 (beat_stopped_same _)).
  change (c_storage (streamed _ s' _ _ _)) with s'. rewrite Ha. by rewrite areplicates_other.
Qed.

(** A SELECT of a database that is not replicated is dropped, but the
    database selected before stays selected: the writes that follow, meant for
    the other database, are applied to a replicated one. *)
Theorem filtered_select_leaks c db k v : has_conn c = true -> no_deadline_error -> can_beat c ->
  (forall n, stop_signal n = false) -> buffered (c_reader c) = 0%nat ->
  st_wf (c_storage c) -> unlimited (st_abs (c_storage c)) -> commandFilters c = ∅ ->
  acur (st_abs (c_storage c)) ∈ databases c -> db ∉ databases c -> in_int64 db ->
  let cmds := [(bs "SELECT", [FormatInt db]); (bs "SET", [k; v])] in
  Forall sendable cmds -> c_reader c = mkReader (wire cmds) EOF ->
  st_abs (c_storage (streamCommands now c).2) = aset now (st_abs (c_storage c)) k v None.
Proof.
  intros Hconn Hd Hbeat Hstop Hbuf Hs Hu Hf Hcur Hdb Hint cmds Hc Hr.
  destruct (stream_all_ok now [] cmds c Hconn Hd Hbeat (open_always _ _ Hstop) Hbuf Hs Hu Hc Hr) as (s' & n & E & Hs' & Ha).
  rewrite E. apply (f_equal fst) in Ha. cbn [fst snd] in *. rewrite (proj1 (beat_stopped_same _)).
  change (c_storage (streamed _ s' _ _ _)) with s'. rewrite Ha. unfold cmds. cbn [fmap list_fmap]. rewrite !areplicates_cons. cbn [fst snd areplicates foldl].
  change (parsed (bs "SELECT", [FormatInt db])) with (mkCommand (bs "SELECT") [FormatInt db]).
  change (parsed (bs "SET", [k; v])) with (mkCommand (bs "SET") [k; v]). rewrite Hf.
  assert (Hne : databases c <> ∅) by set_solver.
  assert (E1 : areplicate now ∅ (databases c) (st_abs (c_storage c)) (mkCommand (bs "SELECT") [FormatInt db])
    = (st_abs (c_storage c), false)).
  { unfold areplicate, select_filtered. rewrite bool_decide_false by (by intros []). cbn [Name Args].
    rewrite ParseInt_FormatInt, bool_decide_true, !bool_decide_false by done. done. }
  rewrite E1. cbn [fst]. unfold areplicate, select_filtered. rewrite bool_decide_false by (by intros []).
  cbn [Name Args]. rewrite (bool_decide_false (bs "SET" = bs "SELECT")) by done. cbn [andb].
  rewrite bool_decide_false by naive_solver. reflexivity.
Qed.

(** A full synchronisation does not empty the storage first: a key that the
    master no longer has, that is one without an entry in the file, keeps the
    value it had in every database. *)
Theorem full_sync_keeps_stale_keys c version items trailer rest e k db : st_wf (c_storage c) ->
  unlimited (st_abs (c_storage c)) -> 0 <= version <= 12 -> Forall readable_ritem items ->
  Forall (loadable (databases c)) items ->
  Z.of_nat (length (encode_file version items trailer)) <= maxBulkSize ->
  c_reader c = mkReader (rdb_transfer (encode_file version items trailer) ++ rest) e ->
  k ∉ file_keys items ->
  value_in (st_abs (c_storage (performFullSync now c).2)) db k = value_in (st_abs (c_storage c)) db k.
Proof.
  intros Hs Hu Hv Hwf Hl Hlen Hr Hk.
  destruct (performFullSync_ok now version items trailer rest e c Hs Hu Hv Hwf Hl Hlen Hr) as (s' & E & _ & Ha).
  rewrite E. cbn [snd]. change (c_storage (loaded c s' _)) with s'. rewrite Ha. by apply load_items_other.
Qed.

(** The stream starts with a new reader on the connection, so the bytes the
    old one had already buffered behind the RDB payload are lost: if everything
    that was sent is there, no command is applied. *)
Theorem buffered_commands_lost c : has_conn c = true -> no_deadline_error -> can_beat c ->
  (forall n, stop_signal n = false) -> rd_err (c_reader c) = EOF ->
  buffered (c_reader c) = length (rd_buf (c_reader c)) ->
  exists c', streamCommands now c = (Err (Errorf (bs "connection closed")), c') /\
    c_storage c' = c_storage c /\ stats c' = stats c.
Proof.
  intros Hconn Hd Hbeat Hstop He Hbuf. rewrite streamCommands_ready by done.
  assert (Efresh : fresh_reader (c_reader c) = mkReader [] EOF).
  { unfold fresh_reader. by rewrite Hbuf, drop_all, He. }
  destruct (stream_ready_same c) as (E1 & E2 & E3 & _ & _ & E4).
  exists (beat_stopped (set_checks (S (S (checks c))) (stream_ready c))).
  destruct (beat_stopped_same (set_checks (S (S (checks c))) (stream_ready c))) as (-> & -> & _).
  split; [|by split].
  unfold gdefer, stream_rounds. rewrite E4, Efresh. change (3 * S _)%nat with 3%nat.
  rewrite stream_end; [|by apply open_always|by rewrite E4, Efresh].
  rewrite E3, stopHeartbeat_ok; [done|].
  exact (stream_ready_open c Hbeat).
Qed.

(** The offset the replica acknowledges never advances: after any stream of
    commands a REPLCONF ACK still carries the offset of the last full
    synchronisation. *)
Theorem ack_offset_is_stale c cmds b sent : has_conn c = true -> no_deadline_error -> can_beat c ->
  (forall n, stop_signal n = false) -> buffered (c_reader c) = 0%nat ->
  st_wf (c_storage c) -> unlimited (st_abs (c_storage c)) ->
  Forall sendable cmds -> c_reader c = mkReader (wire cmds) EOF ->
  connected c = true -> c_writer c = mkWriter b sent None ->
  exists c', sendReplconfACK (streamCommands now c).2 = (Ok tt, c') /\
    w_sent (c_writer c') =
      sent ++ b ++ encode (command_value (bs "REPLCONF", [bs "ACK"; FormatInt (replOffset c)])).
Proof.
  intros Hconn Hd Hbeat Hstop Hbuf Hs Hu Hc Hr Hon Hw.
  destruct (stream_all_ok now [] cmds c Hconn Hd Hbeat (open_always _ _ Hstop) Hbuf Hs Hu Hc Hr) as (s' & n & E & _ & _).
  rewrite E. cbn [snd]. set (c1 := beat_stopped _).
  assert (H1 : connected c1 = true /\ has_conn c1 = true /\ replOffset c1 = replOffset c /\
    c_writer c1 = mkWriter b sent None).
  { subst c1. unfold beat_stopped, stream_ready, beating. by repeat case_match. }
  clearbody c1. destruct H1 as (H1 & H2 & H3 & H4). unfold sendReplconfACK, gget, gbind at 1.
  rewrite H1, H2, H3, (proj2 Hd). cbn [negb orb].
  erewrite gbind_ok by (destruct (0 <? writeTimeout c1); reflexivity).
  erewrite gbind_ok by (unfold gwrap; erewrite gtry_ok by
    (apply on_write_emits; [apply WriteCommand_encode|exact H4]); reflexivity).
  eexists. split; [reflexivity|]. done.
Qed.

End Claims.

(** ** Witnesses *)

#[local] Existing Instance sample_hash.
#[local] Existing Instance sample_runtime.

(** A connection whose reader holds no surplus bytes, and one that has buffered
    everything; nobody stops the client. *)
Definition calm_env : ClientEnv :=
  {| buffered := fun _ => 0%nat; read_deadline_error := None; write_deadline_error := None;
      stop_signal := fun _ => false |}.
Definition eager_env : ClientEnv :=
  {| buffered := fun r => length (rd_buf r); read_deadline_error := None; write_deadline_error := None;
      stop_signal := fun _ => false |}.

Definition sample_client (filt : gset Z) (stream : bytes) : Client MemoryStorage :=
  set_connection true (mkReader stream EOF) NewWriter true
    (set_callbacks [4; 7]%nat [] (set_filters ∅ filt (NewClient (bs "master:6379") sample_storage))).

Lemma sample_beats filt stream : can_beat (sample_client filt stream).
Proof. by left. Qed.

Definition sample_cmds : list (bytes * list bytes) := [
  (bs "set", [bs "k"; bs "v"]); (bs "DEL", [bs "user:1"; bs "nope"]); (bs "INCR", [bs "n"]);
  (bs "SELECT", [bs "3"]); (bs "SET", [bs "only-key"]); (bs "SET", [bs "k"; bs "w"])].

Lemma sendable_small cmd : forallb (fun d => (length d <=? 100)%nat) (cmd.1 :: cmd.2) = true ->
  (length cmd.2 <=? 100)%nat = true -> sendable cmd.
Proof.
  rewrite forallb_forall. intros Hd Hl%Nat.leb_le. apply wf_array.
  - rewrite length_fmap. cbn [length]. unfold maxArraySize. lia.
  - apply Forall_fmap, Forall_forall. intros d Hin. apply wf_bulk.
    apply list_elem_of_In, Hd, Nat.leb_le in Hin. unfold maxBulkSize. lia.
Qed.

Lemma sample_cmds_sendable : Forall sendable sample_cmds.
Proof. unfold sample_cmds. repeat apply Forall_cons_2; try apply Forall_nil_2; by apply sendable_small. Qed.

Lemma sample_file_size version : 0 <= version <= 12 ->
  Z.of_nat (length (encode_file version sample_file (bs "checksum"))) <= maxBulkSize.
Proof. intros Hv. unfold encode_file. rewrite !length_app. vm_compute. congruence. Qed.

Definition sample_replica : Client MemoryStorage := sample_client {[0]}
  (encode (SimpleStringValue (fullresync_line (bs "8a3f") 1234)) ++
    rdb_transfer (encode_file 11 sample_file (bs "checksum")) ++ bs "*1").

Lemma full_resync_witness : exists c', performSync 7 sample_replica = (Ok tt, c') /\
  wf (c_storage c') /\
  abstract (c_storage c') = (foldl (load_item 7 {[0]}) (abstract sample_storage, 0) sample_file).1 /\
  replID c' = bs "8a3f" /\ replOffset c' = 1234 /\
  InitialSyncCompleted (stats c') = true /\ LastSyncTime (stats c') = 7 /\
  fired c' = [4; 7]%nat /\ syncing c' = false /\ c_reader c' = mkReader (bs "*1") EOF /\
  w_sent (c_writer c') = [] ++ [] ++ encode (command_value (psync_request sample_replica)).
Proof.
  apply (full_resync (Laws := memory_laws) 7 sample_replica (bs "8a3f") 1234 11 sample_file
    (bs "checksum") (bs "*1") EOF [] []); [apply sample_storage_wf|apply sample_storage_unlimited|lia|
    apply sample_file_readable|apply sample_file_loadable|apply sample_file_size; lia|done|
    by vm_compute|done|done|done].
Defined.

Definition sample_broken : Client MemoryStorage := sample_client ∅
  (bs "+FULLRESYNC x 1" ++ CRLF ++ bs "$12" ++ CRLF ++ bs "REDIS0011" ++ [zb 195; zb 255]).

Lemma sync_always_ends_witness : exists o c', performSync 7 sample_broken = (o, c') /\ returns o /\
  wf (c_storage c') /\ syncing c' = syncing sample_broken /\
  match o with Ok _ => True | _ => stats c' = stats sample_broken /\ fired c' = fired sample_broken end.
Proof. apply (sync_always_ends (Laws := memory_laws) 7 sample_broken), sample_storage_wf. Defined.

(** The old reader has the first command, the new one the others. *)
Definition greedy_env (n : nat) : ClientEnv :=
  {| buffered := fun _ => n; read_deadline_error := None; write_deadline_error := None;
      stop_signal := fun _ => false |}.
Definition lost_cmd : bytes := wire [(bs "SET", [bs "first"; bs "1"])].

Lemma commands_replicate_witness : exists c' n,
  @streamCommands _ _ _ (greedy_env (length lost_cmd)) 7 (sample_client {[0; 3]} (lost_cmd ++ wire sample_cmds)) =
    (Err (Errorf (bs "connection closed")), c') /\ wf (c_storage c') /\
  (abstract (c_storage c'), n) =
    areplicates 7 ∅ {[0; 3]} (abstract sample_storage, 0) (parsed <$> sample_cmds) /\
  CommandsProcessed (stats c') = 0 + n.
Proof.
  edestruct (commands_replicate (Laws := memory_laws) (Env := greedy_env (length lost_cmd)) 7
    (sample_client {[0; 3]} (lost_cmd ++ wire sample_cmds)) lost_cmd sample_cmds) as (c' & n & H1 & H2 & H3 & H4);
    [done|done|apply sample_beats|by apply open_always|done|apply sample_storage_wf|apply sample_storage_unlimited|apply sample_cmds_sendable|done|].
  exists c', n. split; [exact H1|]. split; [exact H2|]. split; [exact H3|exact H4].
Defined.

Lemma stream_terminates_witness : exists o c',
  @streamCommands _ _ _ calm_env 7 (sample_client ∅ (bs "*3" ++ CRLF ++ bs "?junk" ++ CRLF ++ [zb 0])) = (o, c') /\
  returns o /\ wf (c_storage c').
Proof.
  apply (stream_terminates (Laws := memory_laws) (Env := calm_env)); [apply sample_storage_wf|by left].
Defined.

Definition sample_disabled : Client MemoryStorage :=
  set_heartbeatStop (Some true) (set_heartbeat (-1) 0 (sample_client ∅ [])).

Lemma disabled_heartbeat_panics_witness :
  (@streamCommands _ _ _ calm_env 7 sample_disabled).1 = Panic (bs "close of closed channel").
Proof.
  apply (disabled_heartbeat_panics (Laws := memory_laws) (Env := calm_env) 7 sample_disabled);
    [apply sample_storage_wf|done|vm_compute; congruence|done].
Defined.

Lemma filtered_databases_untouched_witness :
  adbs (abstract (c_storage (@streamCommands _ _ _ calm_env 7 (sample_client {[3]} (wire sample_cmds))).2)) !! 0 =
  adbs (abstract sample_storage) !! 0.
Proof.
  apply (filtered_databases_untouched (Laws := memory_laws) (Env := calm_env) 7 (sample_client {[3]} (wire sample_cmds)) sample_cmds);
    [done|done|apply sample_beats|done|done|apply sample_storage_wf|apply sample_storage_unlimited|apply sample_cmds_sendable|done|..];
    apply (bool_decide_unpack _); vm_compute; exact I.
Defined.

Lemma filtered_select_leaks_witness :
  abstract (c_storage (@streamCommands _ _ _ calm_env 7 (sample_client {[0]}
    (wire [(bs "SELECT", [FormatInt 5]); (bs "SET", [bs "k"; bs "other"])]))).2) =
  aset 7 (abstract sample_storage) (bs "k") (bs "other") None.
Proof.
  apply (filtered_select_leaks (Laws := memory_laws) (Env := calm_env) 7 (sample_client {[0]}
    (wire [(bs "SELECT", [FormatInt 5]); (bs "SET", [bs "k"; bs "other"])])) 5);
    [done|done|apply sample_beats|done|done|apply sample_storage_wf|apply sample_storage_unlimited|done| | | | |done].
  - apply (bool_decide_unpack _). vm_compute. exact I.
  - apply (bool_decide_unpack _). vm_compute. exact I.
  - apply (bool_decide_unpack _). vm_compute. exact I.
  - repeat apply Forall_cons_2; try apply Forall_nil_2; by apply sendable_small.
Defined.

Lemma full_sync_keeps_stale_keys_witness :
  value_in (abstract (c_storage (performFullSync 7 (sample_client {[0]}
    (rdb_transfer (encode_file 11 sample_file (bs "checksum")) ++ []))).2)) 0 (bs "user:1") =
  value_in (abstract sample_storage) 0 (bs "user:1").
Proof.
  apply (full_sync_keeps_stale_keys (Laws := memory_laws) 7 (sample_client {[0]}
    (rdb_transfer (encode_file 11 sample_file (bs "checksum")) ++ [])) 11 sample_file
    (bs "checksum") [] EOF); [apply sample_storage_wf|apply sample_storage_unlimited|lia|apply sample_file_readable|
    apply sample_file_loadable|apply sample_file_size; lia|done|].
  apply (bool_decide_unpack _). vm_compute. exact I.
Defined.

Lemma buffered_commands_lost_witness : exists c',
  @streamCommands _ _ _ eager_env 7 (sample_client ∅ (wire sample_cmds)) =
    (Err (Errorf (bs "connection closed")), c') /\
  c_storage c' = sample_storage /\ stats c' = stats (NewClient (bs "master:6379") sample_storage).
Proof.
  apply (buffered_commands_lost (Env := eager_env) 7 (sample_client ∅ (wire sample_cmds)));
    [done|done|apply sample_beats|done..].
Defined.

Lemma ack_offset_is_stale_witness : exists c',
  @sendReplconfACK _ calm_env (@streamCommands _ _ _ calm_env 7 (sample_client ∅ (wire sample_cmds))).2 = (Ok tt, c') /\
  w_sent (c_writer c') = [] ++ [] ++ encode (command_value (bs "REPLCONF", [bs "ACK";
    FormatInt (replOffset (sample_client ∅ (wire sample_cmds)))])).
Proof.
  apply (ack_offset_is_stale (Laws := memory_laws) (Env := calm_env) 7 (sample_client ∅ (wire sample_cmds)) sample_cmds [] []);
    [done|done|apply sample_beats|done|done|apply sample_storage_wf|apply sample_storage_unlimited|apply sample_cmds_sendable|done..].
Defined.
