(* ===== verification/ClientRun.v ===== *)
(** * The life of a replication client (replication/client.go)

    Connecting to the master, the loop that reconnects, synchronises and streams
    until the client is stopped, and the calls that start and stop it. What a
    dial returns is a parameter; the time is read from a clock. *)

From Stdlib Require Import ZArith Lia String.
From stdpp Require Import base list list_numbers gmap.
From S2P Require Import Prelude GoLib RespTypes RespWriter RespReader StorageTypes.
From S2P Require Import StoreSpec StorageIface Client.

(** The network and the clock, both by the number of looks at the stop channel:
    the error of a dial, or what the connection will deliver. *)
Class Network : Type := {
  dial : nat -> error + Reader;
  clock : nat -> Z
}.

Section ClientRun.
  Context {St : Type} `{StorageOps St} `{GoUnicode} `{ClientEnv} `{Network}.

Abbreviation C A := (M (Client St) A).

(** ** Connecting *)

(** One of the two halves of [setConnectionTimeouts]. *)
Definition check_timeout (kind : bytes) (timeout : Z) (deadline_error : option error) : C unit :=
  if 0 <? timeout then
    if timeout <? Millisecond then
      gfail (Errorf (kind ++ bs " timeout too small: " ++ Duration_String timeout ++ bs " (minimum: 1ms)"))
    else if 24 * 3600 * Second <? timeout then
      gfail (Errorf (kind ++ bs " timeout too large: " ++ Duration_String timeout ++ bs " (maximum: 24h)"))
    else
      match deadline_error with
      | Some e => gfail (Errorf (bs "failed to set " ++ kind ++ bs " deadline: " ++ Error e))
      | None => gret tt
      end
  else gret tt.

Definition setConnectionTimeouts : C unit :=
  let! c := gget in
  check_timeout (bs "read") (readTimeout c) read_deadline_error ;;!
  check_timeout (bs "write") (writeTimeout c) write_deadline_error.

Definition connect : C unit :=
  let! c := gget in
  match dial (checks c) with
  | inl err => gfail (Errorf (bs "dial failed: " ++ Error err))
  | inr conn =>
      gwrap (bs "failed to set connection timeouts: ") setConnectionTimeouts ;;!
      gmodify (set_connection true conn NewWriter true) ;;!
      (if bool_decide (masterPassword c = []) then gret tt
       else gtry authenticate gret (fun err =>
              disconnect ;;! gfail (Errorf (bs "authentication failed: " ++ Error err)))) ;;!
      updateStats (fun s => mkStats (st_MasterAddr s) true (ReplicationOffset s) (LastSyncTime s)
        (BytesReceived s) (CommandsProcessed s) (ReconnectCount s + 1) (InitialSyncCompleted s)
        (InitialSyncProgress s))
  end.

(** ** The main loop *)

(** [run] looks at the stop channel at least once per round. *)
Fixpoint run_loop (fuel : nat) : C unit :=
  match fuel with
  | O => fun c => (OutOfFuel, c)
  | S fuel' =>
      let retry : C unit :=
        let! stop := check_stop in if (stop : bool) then gret tt else run_loop fuel' in
      let! stop := check_stop in
      if (stop : bool) then disconnect
      else
        gtry connect
          (fun _ =>
             gtry (fun c => performSync (clock (checks c)) c)
               (fun _ =>
                  gtry (fun c => streamCommands (clock (checks c)) c)
                    (fun _ => run_loop fuel')
                    (fun err =>
                       let! stop := check_stop in
                       if (stop : bool) then gret tt
                       else
                         let! stop :=
                           if Contains (Error err) (bs "use of closed network connection") then check_stop
                           else gret false in
                         if (stop : bool) then gret tt else disconnect ;;! run_loop fuel'))
               (fun _ => disconnect ;;! retry))
          (fun _ => retry)
  end.

Definition run (fuel : nat) : C unit :=
  gdefer (gmodify (fun c => set_lifecycle (stopped c) true c)) (run_loop fuel).

(** ** Starting and stopping *)

(** What [Start] sees while it waits: a tick, with the state of the connection and
    the time since the start, the end of its context, or the end of [run]. *)
Inductive StartEvent : Type :=
| Tick (on : bool) (elapsed : Z)
| CtxDone (err : error)
| RunDone.

(** [None]: still waiting. *)
Fixpoint start_wait (timeout : Z) (events : list StartEvent) : option (outcome unit) :=
  match events with
  | [] => None
  | Tick on elapsed :: events' =>
      if on then Some (Ok tt)
      else if timeout <? elapsed then
        Some (Err (Errorf (bs "connection timeout after " ++ Duration_String timeout)))
      else start_wait timeout events'
  | CtxDone err :: _ => Some (Err err)
  | RunDone :: _ => Some (Err (Errorf (bs "replication stopped unexpectedly")))
  end.

(** Starts a goroutine on [run], unless there is a connection, and waits. *)
Definition Start (events : list StartEvent) (c : Client St) : option (outcome unit) * Client St :=
  if connected c then (Some (Ok tt), c)
  else
    let timeout := if syncTimeout c =? 0 then 30 * Second else syncTimeout c in
    (start_wait timeout events, set_runs (S (runs c)) c).

(** [in_time]: whether [run] ends within five seconds. *)
Definition Stop (in_time : bool) : C unit :=
  let! c := gget in
  if stopped c then gret tt
  else
    gmodify (fun c => set_lifecycle true (runEnded c) c) ;;!
    disconnect ;;!
    if in_time then gret tt else gfail (Errorf (bs "stop timeout")).

Definition Stats (c : Client St) : ReplicationStats := stats c.

End ClientRun.
