(* ===== verification/ClientRunSpec.v ===== *)
(** * What a running replication client guarantees *)

From Stdlib Require Import ZArith Lia String.
From stdpp Require Import base list list_numbers gmap.
From S2P Require Import Prelude GoLib RespTypes RespWriter RespReader RespProofs.
From S2P Require Import StorageTypes Memory MemoryInv Lzf Rdb RdbFormat RdbProofs RdbSpec.
From S2P Require Import StoreSpec StorageIface StorageSpec RdbLoad RdbLoadSpec Client ClientProofs ClientSpec.
From S2P Require Import ClientRun.

(** ** Waiting for a connection *)

(** The ticks of [Start]'s ticker, 100 ms apart. *)
Definition ticking (events : list StartEvent) : Prop := forall i ev, events !! i = Some ev ->
  exists on elapsed, ev = Tick on elapsed /\ Z.of_nat (S i) * (100 * Millisecond) <= elapsed.

Lemma start_wait_skips timeout events n : ticking events -> start_wait timeout events = None ->
  events !! n <> None -> Z.of_nat (S n) * (100 * Millisecond) <= timeout.
Proof.
  revert events. assert (H : forall events k, (forall i ev, events !! i = Some ev -> exists on elapsed,
    ev = Tick on elapsed /\ Z.of_nat (S (k + i)) * (100 * Millisecond) <= elapsed) ->
    start_wait timeout events = None -> forall i, events !! i <> None ->
    Z.of_nat (S (k + i)) * (100 * Millisecond) <= timeout).
  { induction events as [|ev events IH]; intros k Hk E i Hi; [done|].
    destruct (Hk 0%nat ev eq_refl) as (on & elapsed & -> & He). cbn in E. destruct on; [done|].
    destruct (Z.ltb_spec timeout elapsed) as [|Hle]; [done|].
    destruct i as [|i]; [lia|]. replace (k + S i)%nat with (S k + i)%nat by lia. apply IH; [|done|done].
    intros i' ev' H'. destruct (Hk (S i') ev' H') as (on & e' & -> & He'). exists on, e'. split; [done|].
    by replace (S k + i')%nat with (k + S i')%nat by lia. }
  intros events Ht E Hi. exact (H events 0%nat Ht E n Hi).
Qed.

Section Proofs.
  Context {St : Type} `{Laws : StorageLaws St} {U : GoUnicode} {Env : ClientEnv} {Net : Network}.

Implicit Types c : Client St.

(** ** Calls that keep a client alive *)

Definition live c : Prop := st_wf (c_storage c) /\ steady c.

(** The call comes back, with a client that can go on, and time does not run
    backwards. *)
Definition alive {A} (m : M (Client St) A) : Prop := forall c, live c ->
  exists o c', m c = (o, c') /\ returns o /\ live c' /\ (checks c <= checks c')%nat.

Lemma beat_live c c' : beat c' = beat c -> steady c -> steady c' /\ (checks c <= checks c')%nat.
Proof. unfold beat, steady. intros [= -> -> ->]. auto. Qed.

Lemma alive_quietly {A} (m : M (Client St) A) : quietly m -> alive m.
Proof.
  intros Hm c [Hs Hb]. destruct (Hm c Hs) as (o & c' & E & Ho & [W _ _ _ B]).
  destruct (beat_live c c' B Hb) as [Hb' Hk]. exists o, c'. unfold live. split_and!; auto.
Qed.

Lemma alive_bind {A B} (m : M (Client St) A) (k : A -> M (Client St) B) :
  alive m -> (forall a, alive (k a)) -> alive (gbind m k).
Proof.
  intros Hm Hk c Hc. destruct (Hm c Hc) as (o & c1 & E & Ho & Hc1 & H1). unfold gbind. rewrite E.
  destruct o as [a|e|p|]; try done; [|by exists (Err e), c1].
  destruct (Hk a c1 Hc1) as (o & c2 & E2 & Ho2 & Hc2 & H2). exists o, c2. split_and!; auto. lia.
Qed.

Lemma alive_try {A B} (m : M (Client St) A) (k : A -> M (Client St) B) h :
  alive m -> (forall a, alive (k a)) -> (forall e, alive (h e)) -> alive (gtry m k h).
Proof.
  intros Hm Hk Hh c Hc. destruct (Hm c Hc) as (o & c1 & E & Ho & Hc1 & H1). unfold gtry. rewrite E.
  assert (Hgo : forall m' : M (Client St) B, alive m' -> exists o c', m' c1 = (o, c') /\ returns o /\ live c' /\
    (checks c <= checks c')%nat).
  { intros m' Hm'. destruct (Hm' c1 Hc1) as (o' & c2 & E2 & Ho2 & Hc2 & H2). exists o', c2. split_and!; auto. lia. }
  destruct o as [a|e|p|]; try done; auto.
Qed.

Lemma alive_modify f : (forall c, live c -> live (f c) /\ (checks c <= checks (f c))%nat) -> alive (gmodify f).
Proof. intros Hf c Hc. exists (Ok tt), (f c). by destruct (Hf c Hc). Qed.

Lemma alive_disconnect : alive disconnect.
Proof. by apply alive_bind; [|intros _]; apply alive_modify. Qed.

Lemma quietly_get {A} (k : Client St -> M (Client St) A) : (forall c, quietly (k c)) -> quietly (gbind gget k).
Proof. intros Hk. apply quietly_bind; [|done]. intros c Hc. by exists (Ok c), c. Qed.

Lemma quietly_authenticate : quietly authenticate.
Proof.
  apply quietly_get. intros c. apply quietly_bind; [apply quietly_write, WriteCommand_returns|]. intros _.
  apply quietly_bind; [apply quietly_write, Flush_returns|]. intros _.
  apply quietly_bind; [apply quietly_read, ReadNext_returns|]. intros v.
  destruct (IsError v); [apply quietly_fail|apply quietly_ret].
Qed.

Lemma quietly_timeouts : quietly setConnectionTimeouts.
Proof.
  apply quietly_get. intros c. unfold check_timeout.
  apply quietly_bind; [|intros _];
    (destruct (0 <? _); [|apply quietly_ret]; destruct (_ <? Millisecond); [apply quietly_fail|];
     destruct (24 * 3600 * Second <? _); [apply quietly_fail|]; case_match; [apply quietly_fail|apply quietly_ret]).
Qed.

Lemma alive_connect : alive connect.
Proof.
  apply alive_bind; [by apply alive_quietly; intros c Hc; exists (Ok c), c|]. intros c.
  destruct (dial (checks c)) as [err|conn]; [apply alive_quietly, quietly_fail|].
  apply alive_bind.
  { apply alive_try; [apply alive_quietly, quietly_timeouts|intros; apply alive_quietly, quietly_ret|].
    intros e. apply alive_quietly, quietly_fail. }
  intros _. apply alive_bind; [by apply alive_modify|]. intros _. apply alive_bind; [|by intros _; apply alive_modify].
  case_bool_decide; [apply alive_quietly, quietly_ret|].
  apply alive_try; [apply alive_quietly, quietly_authenticate|intros; apply alive_quietly, quietly_ret|].
  intros e. apply alive_bind; [apply alive_disconnect|]. intros _. apply alive_quietly, quietly_fail.
Qed.

Lemma alive_performSync (now : Client St -> Z) : alive (fun c => performSync (now c) c).
Proof.
  intros c [Hs Hb]. destruct (performSync_settles (now c) c Hs) as (o & c' & E & Ho & Hs' & _ & B & _).
  destruct (beat_live c c' B Hb) as [Hb' Hk]. exists o, c'. unfold live. split_and!; auto.
Qed.

Lemma alive_streamCommands (now : Client St -> Z) : alive (fun c => streamCommands (now c) c).
Proof.
  intros c [Hs Hb].
  destruct (streamCommands_returns (now c) c Hs (steady_can_beat c Hb)) as (o & c' & E & Ho & Hs' & Hk & Hb').
  exists o, c'. unfold live. split_and!; auto.
Qed.

(** ** The loop ends *)

Lemma gbind_check_stop {A} (k : bool -> M (Client St) A) c :
  gbind check_stop k c = k (stop_signal (checks c)) (set_checks (S (checks c)) c).
Proof. done. Qed.

(** From time [a] on the computation ends without an error. *)
Definition ends_after (a : nat) (m : M (Client St) unit) : Prop := forall c, live c -> (a <= checks c)%nat ->
  exists c', m c = (Ok tt, c') /\ live c'.

Lemma ends_try {A} a (m : M (Client St) A) k h :
  alive m -> (forall x, ends_after a (k x)) -> (forall e, ends_after a (h e)) -> ends_after a (gtry m k h).
Proof.
  intros Hm Hk Hh c Hc Ha. destruct (Hm c Hc) as (o & c1 & E & Ho & Hc1 & H1). unfold gtry. rewrite E.
  destruct o as [x|e|p|]; try done; [apply Hk|apply Hh]; auto; lia.
Qed.

Lemma ends_stop a (m : M (Client St) unit) :
  ends_after a m -> ends_after a (let! stop := check_stop in if (stop : bool) then gret tt else m).
Proof.
  intros Hm c Hc Ha. unfold check_stop, gbind. destruct (stop_signal (checks c)); [by eexists|].
  apply Hm; [exact Hc|cbn; lia].
Qed.

Lemma ends_disconnect a m : ends_after a m -> ends_after a (disconnect ;;! m).
Proof. intros Hm c Hc Ha. unfold disconnect, updateStats, gbind, gmodify. apply Hm; [exact Hc|exact Ha]. Qed.

Lemma run_loop_ends n : (forall i, (n <= i)%nat -> stop_signal i = true) -> forall fuel a,
  (n - a < fuel)%nat -> ends_after a (run_loop fuel).
Proof.
  intros Hn. induction fuel as [|fuel IH]; intros a Hf c Hc Ha; [lia|]. cbn [run_loop].
  cbv zeta. rewrite gbind_check_stop. destruct (stop_signal (checks c)) eqn:Hstop; [by eexists|].
  assert (Hlt : (checks c < n)%nat).
  { destruct (decide (n <= checks c)%nat) as [Hle|]; [|lia]. by rewrite Hn in Hstop. }
  assert (Hrun : ends_after (S a) (run_loop fuel)) by (apply IH; lia).
  assert (Hretry := ends_stop (S a) _ Hrun).
  match goal with |- exists c', ?m ?c1 = _ /\ _ => enough (Hm : ends_after (S a) m) by (apply Hm; [exact Hc|cbn; lia]) end.
  apply ends_try; [apply alive_connect|intros _|by intros _].
  apply ends_try; [apply alive_performSync|intros _|intros _; by apply ends_disconnect].
  apply ends_try; [apply alive_streamCommands|by intros _|intros err]. apply ends_stop.
  destruct (Contains _ _); [apply ends_stop|]; by apply ends_disconnect.
Qed.

(** ** One session with a master *)

Definition valid_timeout (t : Z) : Prop := t <= 0 \/ Millisecond <= t <= 24 * 3600 * Second.

Lemma check_timeout_ok kind t c : valid_timeout t -> check_timeout kind t None c = (Ok tt, c).
Proof.
  intros Ht. unfold check_timeout. destruct (Z.ltb_spec 0 t); [|done].
  destruct (Z.ltb_spec t Millisecond), (Z.ltb_spec (24 * 3600 * Second) t); destruct Ht; lia || done.
Qed.

(** What the master sends before the answer to PSYNC, and what the client does. *)
Definition auth_reply (password : bytes) : bytes :=
  if bool_decide (password = []) then [] else encode (SimpleStringValue (bs "OK")).
Definition auth_request (password : bytes) : bytes :=
  if bool_decide (password = []) then [] else encode (command_value (bs "AUTH", [password])).

Definition connected_to c (r : Reader) (w : Writer) : Client St :=
  let s := stats c in
  set_client_stats (mkStats (st_MasterAddr s) true (ReplicationOffset s) (LastSyncTime s)
    (BytesReceived s) (CommandsProcessed s) (ReconnectCount s + 1) (InitialSyncCompleted s)
    (InitialSyncProgress s)) (set_connection true r w true c).

Lemma ok_no_lf : no_lf (bs "OK").
Proof. by repeat constructor. Qed.

Lemma connect_ok c rest e : no_deadline_error -> valid_timeout (readTimeout c) -> valid_timeout (writeTimeout c) ->
  dial (checks c) = inr (mkReader (auth_reply (masterPassword c) ++ rest) e) ->
  connect c = (Ok tt, connected_to c (mkReader rest e) (mkWriter [] (auth_request (masterPassword c)) None)).
Proof.
  intros [Hd1 Hd2] Hr Hw Hdial. unfold connect, gget, gbind at 1. rewrite Hdial.
  erewrite gbind_ok.
  2: { unfold gwrap. erewrite gtry_ok; [reflexivity|]. unfold setConnectionTimeouts, gget, gbind at 1.
       rewrite Hd1, Hd2. erewrite gbind_ok by (by apply check_timeout_ok). by apply check_timeout_ok. }
  erewrite gbind_ok by reflexivity. unfold auth_reply, auth_request. case_bool_decide as Hp; [reflexivity|].
  rewrite (gbind_ok _ _ _ tt (set_connection true (mkReader rest e)
    (mkWriter [] (encode (command_value (bs "AUTH", [masterPassword c]))) None) true c)); [reflexivity|].
  erewrite gtry_ok; [reflexivity|]. unfold authenticate, gget, gbind at 1.
  erewrite gbind_ok by (apply on_write_emits; [apply WriteCommand_encode|reflexivity]).
  erewrite gbind_ok by reflexivity.
  erewrite gbind_ok by (unfold on_read; cbn [c_reader set_connection];
    rewrite ReadNext_encode by (by apply wf_simple, ok_no_lf); reflexivity).
  reflexivity.
Qed.

Lemma load_items_unlimited now filt items x : unlimited (x.1) ->
  unlimited (foldl (load_item now filt) x items).1.
Proof.
  revert x. induction items as [|i items IH]; intros [a cur] Hx; [done|]. cbn [foldl]. apply IH.
  destruct i; cbn; repeat case_match; done.
Qed.

(** The client when a session is over. *)
Record session_result c c' (id : bytes) (offset time n : Z) : Prop := {
  sr_replication : replID c' = id /\ replOffset c' = offset;
  sr_connection : connected c' = false /\ has_conn c' = false /\ runEnded c' = true;
  sr_sync : InitialSyncCompleted (stats c') = true /\ LastSyncTime (stats c') = time;
  sr_counters : CommandsProcessed (stats c') = CommandsProcessed (stats c) + n /\
    ReconnectCount (stats c') = ReconnectCount (stats c) + 1;
  sr_callbacks : fired c' = fired c ++ onSyncComplete c;
  sr_sent : w_sent (c_writer c') =
    auth_request (masterPassword c) ++ encode (command_value (psync_request c))
}.

Lemma beat_stopped_set c : exists h, beat_stopped c = set_heartbeatStop h c.
Proof.
  unfold beat_stopped. destruct (heartbeatStop c) eqn:E; [by eexists|].
  exists None. rewrite <- E. by destruct c.
Qed.

Lemma stream_ready_set c : exists h i, stream_ready c = set_heartbeatStop h (set_heartbeat (heartbeatInterval c) i
  (set_connection (has_conn c) (fresh_reader (c_reader c)) (c_writer c) (connected c) c)).
Proof.
  unfold stream_ready, beating. cbn [heartbeatInterval set_connection].
  destruct (_ <=? 0); [|by do 2 eexists]. by exists (heartbeatStop c), (heartbeatFailures c).
Qed.

Definition disconnected c : Client St := (disconnect c).2.

Lemma disconnect_eq c : disconnect c = (Ok tt, disconnected c).
Proof. done. Qed.

Lemma run_loop_stop fuel c : stop_signal (checks c) = true ->
  run_loop (S fuel) c = disconnect (set_checks (S (checks c)) c).
Proof. intros Hstop. cbn [run_loop]. cbv zeta. by rewrite gbind_check_stop, Hstop. Qed.

Lemma closed_is_not_shutdown :
  Contains (Error (Errorf (bs "connection closed"))) (bs "use of closed network connection") = false.
Proof. vm_compute. reflexivity. Qed.

(** A round that streams until the master closes the connection, and the stop. *)
Lemma run_one_session fuel c c2 c3 c4 : stop_signal (checks c) = false ->
  connect (set_checks (S (checks c)) c) = (Ok tt, c2) ->
  performSync (clock (checks c2)) c2 = (Ok tt, c3) ->
  streamCommands (clock (checks c3)) c3 = (Err (Errorf (bs "connection closed")), c4) ->
  stop_signal (checks c4) = false -> stop_signal (S (checks c4)) = true ->
  run (S (S fuel)) c = (Ok tt, set_lifecycle (stopped c4) true
    (disconnected (set_checks (S (S (checks c4))) (disconnected (set_checks (S (checks c4)) c4))))).
Proof.
  intros H1 Econn Esync Estream H2 H3.
  assert (Eloop : run_loop (S (S fuel)) c = (disconnect ;;! run_loop (S fuel)) (set_checks (S (checks c4)) c4)).
  { cbn [run_loop]. cbv zeta. rewrite gbind_check_stop, H1, (gtry_ok _ _ _ _ _ _ Econn).
    rewrite (gtry_ok (fun c => performSync (clock (checks c)) c) _ _ c2 tt c3 Esync).
    rewrite (gtry_err (fun c => streamCommands (clock (checks c)) c) _ _ c3 _ c4 Estream).
    rewrite gbind_check_stop, H2. cbv iota. rewrite closed_is_not_shutdown. reflexivity. }
  unfold run, gdefer. rewrite Eloop, (gbind_ok _ _ _ _ _ (disconnect_eq _)), run_loop_stop by exact H3.
  by rewrite disconnect_eq.
Qed.

(** A whole session: connect, synchronise, stream until the master closes the
    connection; the client is stopped after that. *)
Lemma run_session_ok c id offset version items trailer lost cmds fuel :
  live c -> unlimited (st_abs (c_storage c)) -> no_deadline_error ->
  valid_timeout (readTimeout c) -> valid_timeout (writeTimeout c) ->
  0 <= version <= 12 -> Forall readable_ritem items -> Forall (loadable (databases c)) items ->
  Z.of_nat (length (encode_file version items trailer)) <= maxBulkSize ->
  is_word id -> in_int64 offset -> syncing c = false -> Forall sendable cmds ->
  dial (S (checks c)) = inr (mkReader (auth_reply (masterPassword c) ++
    encode (SimpleStringValue (fullresync_line id offset)) ++
    rdb_transfer (encode_file version items trailer) ++ lost ++ wire cmds) EOF) ->
  buffered (mkReader (lost ++ wire cmds) EOF) = length lost ->
  let now := clock (S (checks c)) in
  let last := (checks c + length cmds + 4)%nat in
  open_for (checks c) (length cmds + 4) -> stop_signal last = true ->
  exists c' n, run (S (S fuel)) c = (Ok tt, c') /\ st_wf (c_storage c') /\ session_result c c' id offset now n /\
    (st_abs (c_storage c'), n) = areplicates now (commandFilters c) (databases c)
      ((foldl (load_item now (databases c)) (st_abs (c_storage c), 0) items).1, 0) (parsed <$> cmds).
Proof.
  intros [Hs Hst] Hu Hd Htr Htw Hv Hwf Hl Hlen Hid Hoff Hsync Hc Hdial Hbuf now last Hopen Hlast.
  set (c1 := set_checks (S (checks c)) c).
  pose proof (connect_ok c1 _ EOF Hd Htr Htw Hdial) as Econn. set (c2 := connected_to c1 _ _) in Econn.
  destruct (performSync_ok now id offset version items trailer (lost ++ wire cmds) EOF [] (auth_request (masterPassword c))
    c2 Hs Hu Hv Hwf Hl Hlen Hid Hoff Hsync eq_refl eq_refl) as (s3 & Esync & Hs3 & Ha3).
  set (c3 := sync_finished _ _) in Esync.
  assert (Hu3 : unlimited (st_abs (c_storage c3))).
  { change (c_storage c3) with s3. rewrite Ha3. by apply load_items_unlimited. }
  destruct (stream_all_ok now lost cmds c3 eq_refl Hd (steady_can_beat c Hst)) as (s4 & n & Estream & Hs4 & Ha4);
    [|done|done|done|done|done|].
  { intros i Hi. apply Hopen. cbn in Hi. lia. }
  set (c4 := beat_stopped _) in Estream.
  destruct (beat_stopped_set (streamed (stream_ready c3) s4 n (mkReader [] EOF) (checks c3 + length cmds + 2)))
    as (h & Eh).
  assert (Ek : checks c4 = (S (checks c) + length cmds + 2)%nat) by (unfold c4; by rewrite Eh).
  eexists _, n. split; [apply (run_one_session fuel c c2 c3 c4 (Hopen (checks c) ltac:(lia)) Econn Esync Estream)|].
  - rewrite Ek. apply Hopen. lia.
  - rewrite Ek, <- Hlast. f_equal. unfold last. lia.
  - clear Econn Esync Estream. unfold c4. rewrite Eh. destruct (stream_ready_set c3) as (h' & i & ->).
    split; [exact Hs4|]. split; [by split; split_and?|].
    change (c_storage c3) with s3 in Ha4. rewrite Ha3 in Ha4. exact Ha4.
Qed.

(** ** Claims *)

(** C3: a client that connects to a master, authenticates if it has a password,
    receives a full synchronisation and a stream of commands, and is stopped after the
    master has closed the connection, ends with the storage that loading the file and
    then applying the commands give behind the filters; it returns from its loop
    disconnected, with the position, the statistics, the callbacks and the bytes sent
    that the session calls for. The file is one whose entries the parser can read
    ([readable_ritem], see [rdb_file_parsed]), with replicated databases numbered 0 to
    15; the commands are those behind the bytes the first reader had buffered when the
    stream began ([lost], any bytes), which are lost. The storage has no memory limit,
    the deadlines can be set, and the stop comes when the commands are done. *)
Theorem run_session c id offset version items trailer lost cmds fuel :
  live c -> unlimited (st_abs (c_storage c)) -> no_deadline_error ->
  valid_timeout (readTimeout c) -> valid_timeout (writeTimeout c) ->
  0 <= version <= 12 -> Forall readable_ritem items -> Forall (loadable (databases c)) items ->
  Z.of_nat (length (encode_file version items trailer)) <= maxBulkSize ->
  is_word id -> in_int64 offset -> syncing c = false -> Forall sendable cmds ->
  dial (S (checks c)) = inr (mkReader (auth_reply (masterPassword c) ++
    encode (SimpleStringValue (fullresync_line id offset)) ++
    rdb_transfer (encode_file version items trailer) ++ lost ++ wire cmds) EOF) ->
  buffered (mkReader (lost ++ wire cmds) EOF) = length lost ->
  let now := clock (S (checks c)) in
  let last := (checks c + length cmds + 4)%nat in
  open_for (checks c) (length cmds + 4) -> stop_signal last = true ->
  exists c' n, run (S (S fuel)) c = (Ok tt, c') /\ st_wf (c_storage c') /\ session_result c c' id offset now n /\
    (st_abs (c_storage c'), n) = areplicates now (commandFilters c) (databases c)
      ((foldl (load_item now (databases c)) (st_abs (c_storage c), 0) items).1, 0) (parsed <$> cmds).
Proof. apply run_session_ok. Qed.

(** Whatever the network does, once the client is stopped its loop ends
    within one round per look at the stop channel still before the stop, without
    an error or a panic, with the storage well formed and the end announced. *)
Theorem run_ends_when_stopped c n fuel : st_wf (c_storage c) -> steady c ->
  (forall i, (n <= i)%nat -> stop_signal i = true) -> (n - checks c < fuel)%nat ->
  exists c', run fuel c = (Ok tt, c') /\ st_wf (c_storage c') /\ runEnded c' = true.
Proof.
  intros Hs Hb Hn Hf. destruct (run_loop_ends n Hn fuel (checks c) Hf c (conj Hs Hb)) as (c' & E & [Hs' _]); [done|].
  exists (set_lifecycle (stopped c') true c'). unfold run, gdefer. by rewrite E.
Qed.

(** [Start] does not wait for ever: with a tick every 100 ms it has returned
    when one tick more than the timeout holds has come. *)
Theorem start_gives_up c events : connected c = false -> ticking events ->
  Z.of_nat (length events) * (100 * Millisecond) >
    (if syncTimeout c =? 0 then 30 * Second else syncTimeout c) -> events <> [] ->
  exists o, (Start events c).1 = Some o /\ returns o.
Proof.
  intros Hc Ht Hl Hne. unfold Start. rewrite Hc. cbn [fst].
  set (timeout := if syncTimeout c =? 0 then _ else _) in *.
  destruct (start_wait timeout events) as [o|] eqn:E.
  - exists o. split; [done|]. clear -E. induction events as [|[[] e|e|] events IH]; cbn in E; simplify_eq; try done.
    destruct (timeout <? e); [by simplify_eq|auto].
  - assert (H1 : events !! (length events - 1)%nat <> None).
    { rewrite lookup_ge_None. destruct events; cbn; [done|lia]. }
    pose proof (start_wait_skips timeout events _ Ht E H1) as H2.
    destruct events; [done|]. cbn [length] in *. unfold Millisecond in *. lia.
Qed.

End Proofs.

(** ** Witnesses *)

#[local] Existing Instance sample_hash.
#[local] Existing Instance sample_runtime.

(** Nobody stops the client before its tenth look at the stop channel; the first reader
    takes a command with the file. *)
Definition session_env : ClientEnv :=
  {| buffered := fun _ => length lost_cmd; read_deadline_error := None; write_deadline_error := None;
      stop_signal := fun n => (10 <=? n)%nat |}.

Definition session_network : Network :=
  {| dial := fun _ => inr (mkReader (auth_reply (bs "secret") ++
       encode (SimpleStringValue (fullresync_line (bs "8a3f") 1234)) ++
       rdb_transfer (encode_file 11 sample_file (bs "checksum")) ++ lost_cmd ++ wire sample_cmds) EOF);
     clock := fun n => 7 + Z.of_nat n |}.

Definition sample_runner : Client MemoryStorage :=
  set_password (bs "secret") (set_filters ∅ {[0]} (set_callbacks [4]%nat [] (NewClient (bs "master:6379") sample_storage))).

Lemma sample_runner_live : live sample_runner.
Proof. split; [apply sample_storage_wf|by left]. Qed.

Lemma run_session_witness : exists c' n,
  @run _ _ _ session_env session_network 5 sample_runner = (Ok tt, c') /\ wf (c_storage c') /\
  session_result sample_runner c' (bs "8a3f") 1234 8 n /\
  (abstract (c_storage c'), n) = areplicates 8 ∅ {[0]}
    ((foldl (load_item 8 {[0]}) (abstract sample_storage, 0) sample_file).1, 0) (parsed <$> sample_cmds).
Proof.
  apply (run_session (Laws := memory_laws) (Env := session_env) (Net := session_network) sample_runner
    (bs "8a3f") 1234 11 sample_file (bs "checksum") lost_cmd sample_cmds 3);
    [apply sample_runner_live|apply sample_storage_unlimited|done|by vm_compute; right|by vm_compute; right|lia|
     apply sample_file_readable|apply sample_file_loadable|apply sample_file_size; lia|done|by vm_compute|done|
     apply sample_cmds_sendable|done|done|..|done].
  intros i Hi. apply Nat.leb_gt. exact (proj2 Hi).
Defined.

(** A master that answers nonsense, and a network without one. *)
Definition broken_network : Network :=
  {| dial := fun n => if Nat.even n then inl (Errorf (bs "connection refused"))
                      else inr (mkReader (bs "+OK" ++ CRLF ++ bs "*junk") EOF);
     clock := fun n => Z.of_nat n |}.

Lemma run_ends_when_stopped_witness : exists c',
  @run _ _ _ session_env broken_network 11 sample_runner = (Ok tt, c') /\ wf (c_storage c') /\ runEnded c' = true.
Proof.
  apply (run_ends_when_stopped (Laws := memory_laws) (Env := session_env) (Net := broken_network) sample_runner 10 11);
    [apply sample_storage_wf|by left|intros i Hi; by apply Nat.leb_le|cbn; lia].
Defined.

Lemma start_gives_up_witness : exists o,
  (Start (replicate 301 (Tick false (31 * Second))) sample_runner).1 = Some o /\ returns o.
Proof.
  apply (start_gives_up sample_runner (replicate 301 (Tick false (31 * Second)))); [done| |by vm_compute|done].
  intros i ev Hi. apply lookup_replicate in Hi. destruct Hi as [-> Hi]. exists false, (31 * Second). split; [done|].
  unfold Second, Millisecond. lia.
Defined.
