(* ===== verification/ClientLife.v ===== *)
(** * The goroutines of a replication client (replication/client.go)

    [run], the heartbeat and the callers of [Start] and [Stop] on one client, as an
    executable transition system: each step is an action on the fields they share,
    and what a dial, a synchronisation, a read or a timer gives is part of the event.
    What travels over the connection is in Client and ClientRun; here a
    synchronisation is one event and a command another. Nothing keeps [Start] from
    starting a second [run], so the loops are numbered. *)

From Stdlib Require Import ZArith Lia String.
From stdpp Require Import base list list_numbers gmap.
From S2P Require Import Prelude GoLib StorageTypes StorageIface Client.

(** ** State *)

(** Where a goroutine on [run] is. In [connect]: [PDial], [PStore], [PAuth] and, when
    the password is refused, [PUnauth]. In [performSync]: [PClaim], [PSync],
    [PRelease]. In [streamCommands]: [PReset], [PBeatStop], [PBeatDone] and [PBeatGo]
    in [startHeartbeat], [PRead] before the select, [PReading], [PReadErr] and
    [PDelay] after an error, [PUnbeat], [PUnbeaten] and [PWaitBeat] in the deferred
    [stopHeartbeat]. [n]: the protocol errors in a row; [res]: what the function will
    return. In [run]: [PSelect], [PBackoff], [PUnsync], [PAfter], [PAgain], [PDrop],
    [PQuit] and the deferred [PLeave]. *)
Inductive Pc : Type :=
| PSelect | PQuit | PDial | PStore (conn : nat) | PAuth | PUnauth | PBackoff
| PClaim | PSync | PRelease (res : option error) | PUnsync
| PReset | PBeatStop | PBeatDone | PBeatGo
| PRead (n : Z) | PReading (n : Z) (reader : option nat) | PReadErr (n : Z) (err : error) | PReadClosed (err : error) | PDelay (n : Z)
| PUnbeat (res : option error) | PUnbeaten (res : option error) | PWaitBeat (res : option error) (done : option nat)
| PAfter (res : option error) | PAgain | PDrop | PLeave.

(** The heartbeat goroutine: not yet begun, before its select, in it on the channel it
    has read, sending; at the end it closes the channel [done], which [defer] has
    read when it began. *)
Inductive Beat : Type :=
| BNew
| BTop (done : option nat)
| BWait (done stop : option nat)
| BSend (done : option nat).

(** A caller of [Stop]. *)
Inductive Stopper : Type :=
| SEnter | SAlready | SClose | SCut | SWait | SBack (res : option error).

(** [cl_opened]: the connections not closed yet; [cl_closed]: the heartbeat channels
    closed; [cl_stop] and [cl_done]: [stopChan] and [doneChan] are closed. The fields
    of the code in between keep their names. *)
Record ClientLife : Type := mkCL {
  cl_conn : option nat;
  cl_reader : option nat;
  cl_connected : bool;
  cl_syncing : bool;
  cl_stopped : bool;
  cl_stop : bool;
  cl_done : bool;
  cl_heartbeatStop : option nat;
  cl_heartbeatDone : option nat;
  cl_opened : gset nat;
  cl_closed : gset nat;
  cl_next : nat;
  cl_loops : gmap nat Pc;
  cl_beats : gmap nat Beat;
  cl_stops : gmap nat Stopper
}.

Definition new_client_life : ClientLife := mkCL None None false false false false false None None ∅ ∅ 0 ∅ ∅ ∅.

Definition set_conn (conn reader : option nat) (connected : bool) (opened : gset nat) (l : ClientLife) : ClientLife :=
  mkCL conn reader connected (cl_syncing l) (cl_stopped l) (cl_stop l) (cl_done l) (cl_heartbeatStop l)
    (cl_heartbeatDone l) opened (cl_closed l) (cl_next l) (cl_loops l) (cl_beats l) (cl_stops l).
Definition set_sync (b : bool) (l : ClientLife) : ClientLife :=
  mkCL (cl_conn l) (cl_reader l) (cl_connected l) b (cl_stopped l) (cl_stop l) (cl_done l) (cl_heartbeatStop l)
    (cl_heartbeatDone l) (cl_opened l) (cl_closed l) (cl_next l) (cl_loops l) (cl_beats l) (cl_stops l).
Definition set_flags (stopped stop done : bool) (l : ClientLife) : ClientLife :=
  mkCL (cl_conn l) (cl_reader l) (cl_connected l) (cl_syncing l) stopped stop done (cl_heartbeatStop l)
    (cl_heartbeatDone l) (cl_opened l) (cl_closed l) (cl_next l) (cl_loops l) (cl_beats l) (cl_stops l).
Definition set_channels (hs hd : option nat) (closed : gset nat) (l : ClientLife) : ClientLife :=
  mkCL (cl_conn l) (cl_reader l) (cl_connected l) (cl_syncing l) (cl_stopped l) (cl_stop l) (cl_done l) hs hd
    (cl_opened l) closed (cl_next l) (cl_loops l) (cl_beats l) (cl_stops l).
Definition set_goroutines loops beats stops (l : ClientLife) : ClientLife :=
  mkCL (cl_conn l) (cl_reader l) (cl_connected l) (cl_syncing l) (cl_stopped l) (cl_stop l) (cl_done l)
    (cl_heartbeatStop l) (cl_heartbeatDone l) (cl_opened l) (cl_closed l) (cl_next l) loops beats stops.
Definition bump (l : ClientLife) : ClientLife :=
  mkCL (cl_conn l) (cl_reader l) (cl_connected l) (cl_syncing l) (cl_stopped l) (cl_stop l) (cl_done l)
    (cl_heartbeatStop l) (cl_heartbeatDone l) (cl_opened l) (cl_closed l) (S (cl_next l)) (cl_loops l) (cl_beats l) (cl_stops l).

Definition at_loop (i : nat) (p : Pc) (l : ClientLife) : ClientLife := set_goroutines (<[i := p]> (cl_loops l)) (cl_beats l) (cl_stops l) l.
Definition at_beat (i : nat) (b : Beat) (l : ClientLife) : ClientLife := set_goroutines (cl_loops l) (<[i := b]> (cl_beats l)) (cl_stops l) l.
Definition at_stop (i : nat) (s : Stopper) (l : ClientLife) : ClientLife := set_goroutines (cl_loops l) (cl_beats l) (<[i := s]> (cl_stops l)) l.

(** ** Shared pieces *)

(** [disconnect], its critical section. *)
Definition drop_conn (l : ClientLife) : ClientLife :=
  set_conn None (cl_reader l) false (match cl_conn l with Some c => cl_opened l ∖ {[c]} | None => cl_opened l end) l.

Definition closed_panic : bytes := bs "close of closed channel".

(** [close(ch)] for a heartbeat channel. *)
Definition close_chan (ch : option nat) (l : ClientLife) : outcome ClientLife :=
  match ch with
  | None => Panic (bs "close of nil channel")
  | Some ch =>
      if bool_decide (ch ∈ cl_closed l) then Panic closed_panic
      else Ok (set_channels (cl_heartbeatStop l) (cl_heartbeatDone l) ({[ch]} ∪ cl_closed l) l)
  end.

Definition is_closed (ch : option nat) (l : ClientLife) : bool :=
  match ch with Some ch => bool_decide (ch ∈ cl_closed l) | None => false end.

Definition use_of_closed (err : error) : bool := Contains (Error err) (bs "use of closed network connection").

(** What a goroutine is given: nothing to wait for, an error, a success, a new
    connection, the timer, the closed channel of a select. *)
Inductive Given : Type := GGo | GErr (err : error) | GOk | GConn | GTimer | GStop.

Section ClientLife.
(** [masterPassword <> ""] and [heartbeatInterval > 0]. *)
  Context (auth beat : bool).

(** ** The main loop *)

(** The stream's reader and deadlines. A connection that is closed refuses them. *)
Definition stream_reset (g : Given) (i : nat) (l : ClientLife) : option ClientLife :=
  let on := at_loop i (if beat then PBeatStop else PRead 0) in
  match cl_conn l, g with
  | None, GGo => Some (on l)
  | Some c, GGo => if bool_decide (c ∈ cl_opened l) then Some (on (set_conn (Some c) (Some c) (cl_connected l) (cl_opened l) l)) else None
  | Some c, GErr err =>
      if bool_decide (c ∈ cl_opened l) then None
      else Some (at_loop i (PAfter (Some (Errorf (bs "failed to remove read timeout for streaming: " ++ Error err))))
                   (set_conn (Some c) (Some c) (cl_connected l) (cl_opened l) l))
  | _, _ => None
  end.

(** What [streamCommands] makes of a read that failed. *)
Definition read_error (n : Z) (err : error) (stop : bool) : Pc :=
  if stop then PUnbeat None
  else
    match err with
    | EOF => PUnbeat (Some (Errorf (bs "connection closed")))
    | _ =>
        if use_of_closed err then PReadClosed err
        else if isProtocolError err then
          if 3 <=? n + 1 then
            PUnbeat (Some (Errorf (bs "protocol desynchronization detected after " ++ FormatInt (n + 1) ++
                                   bs " errors: " ++ Error err)))
          else PDelay (n + 1)
        else PUnbeat (Some (Errorf (bs "read command failed: " ++ Error err)))
    end.

(** One step of goroutine [i] on [run]. *)
Definition loop_step (i : nat) (p : Pc) (g : Given) (l : ClientLife) : option (outcome ClientLife) :=
  let go q l := Some (Ok (at_loop i q l)) in
  let stop := cl_stop l in
  match p, g with
  | PSelect, GGo => go (if stop then PQuit else PDial) l
  | PQuit, GGo => go PLeave (drop_conn l)
  | PDial, GErr _ => go PBackoff l
  | PDial, GConn => go (PStore (cl_next l)) (bump (set_conn (cl_conn l) (cl_reader l) (cl_connected l) ({[cl_next l]} ∪ cl_opened l) l))
  | PStore c, GGo => go (if auth then PAuth else PClaim) (set_conn (Some c) (Some c) true (cl_opened l) l)
  | PAuth, GOk => go PClaim l
  | PAuth, GErr _ => go PUnauth l
  | PUnauth, GGo => go PBackoff (drop_conn l)
  | PBackoff, GTimer => go PSelect l
  | PBackoff, GStop => if stop then go PLeave l else None
  | PClaim, GGo => if cl_syncing l then go PReset l else go PSync (set_sync true l)
  | PSync, GOk => go (PRelease None) l
  | PSync, GErr err => go (PRelease (Some err)) l
  | PRelease res, GGo => go (match res with None => PReset | Some _ => PUnsync end) (set_sync false l)
  | PUnsync, GGo => go PBackoff (drop_conn l)
  | PReset, _ => Ok <$> stream_reset g i l
  | PBeatStop, GGo => go PBeatDone (bump (set_channels (Some (cl_next l)) (cl_heartbeatDone l) (cl_closed l) l))
  | PBeatDone, GGo => go PBeatGo (bump (set_channels (cl_heartbeatStop l) (Some (cl_next l)) (cl_closed l) l))
  | PBeatGo, GGo => go (PRead 0) (bump (at_beat (cl_next l) BNew l))
  | PRead n, GGo => go (if stop then PUnbeat None else PReading n (cl_reader l)) l
  | PReading _ _, GOk => go (PRead 0) l
  | PReading n _, GErr err => go (PReadErr n err) l
  | PReadErr n err, GGo => go (read_error n err stop) l
  | PReadClosed err, GGo =>
      go (PUnbeat (if stop then None else Some (Errorf (bs "connection unexpectedly closed: " ++ Error err)))) l
  | PDelay n, GTimer => go (PRead n) l
  | PDelay n, GStop => if stop then go (PUnbeat None) l else None
  | PUnbeat res, GGo =>
      match cl_heartbeatStop l with
      | None => go (PAfter res) l
      | ch => Some (match close_chan ch l with Ok l' => Ok (at_loop i (PUnbeaten res) l') | o => o end)
      end
  | PUnbeaten res, GGo => go (PWaitBeat res (cl_heartbeatDone l)) l
  | PWaitBeat res done, GGo => if is_closed done l then go (PAfter res) l else None
  | PAfter None, GGo => go PSelect l
  | PAfter (Some err), GGo => go (if stop then PLeave else if use_of_closed err then PAgain else PDrop) l
  | PAgain, GGo => go (if stop then PLeave else PDrop) l
  | PDrop, GGo => go PSelect (drop_conn l)
  | PLeave, GGo =>
      Some (Ok (set_flags (cl_stopped l) (cl_stop l) true (set_goroutines (delete i (cl_loops l)) (cl_beats l) (cl_stops l) l)))
  | _, _ => None
  end.

(** ** The heartbeat *)

Definition beat_step (j : nat) (b : Beat) (g : Given) (l : ClientLife) : option (outcome ClientLife) :=
  match b, g with
  | BNew, GGo => Some (Ok (at_beat j (BTop (cl_heartbeatDone l)) l))
  | BTop done, GGo => Some (Ok (at_beat j (BWait done (cl_heartbeatStop l)) l))
  | BWait done stop, GStop =>
      if is_closed stop l then
        Some (close_chan done (set_goroutines (cl_loops l) (delete j (cl_beats l)) (cl_stops l) l))
      else None
  | BWait done _, GTimer => Some (Ok (at_beat j (BSend done) l))
  | BSend done, GGo => Some (Ok (at_beat j (BTop done) l))
  | _, _ => None
  end.

(** ** Stopping *)

Definition stopper_step (j : nat) (s : Stopper) (g : Given) (l : ClientLife) : option (outcome ClientLife) :=
  match s, g with
  | SEnter, GGo =>
      Some (Ok (if cl_stopped l then at_stop j SAlready l
                else at_stop j SClose (set_flags true (cl_stop l) (cl_done l) l)))
  | SClose, GGo =>
      Some (if cl_stop l then Panic closed_panic else Ok (at_stop j SCut (set_flags (cl_stopped l) true (cl_done l) l)))
  | SCut, GGo => Some (Ok (at_stop j SWait (drop_conn l)))
  | SWait, GOk => if cl_done l then Some (Ok (at_stop j (SBack None) l)) else None
  | SWait, GTimer => Some (Ok (at_stop j (SBack (Some (Errorf (bs "stop timeout")))) l))
  | _, _ => None
  end.

(** ** Events *)

(** A call of [Start], which begins a loop unless there is a connection (its wait for
    that connection changes nothing), a call of [Stop], and a step of a goroutine. *)
Inductive LifeEvent : Type :=
| EvStart
| EvStop
| EvLoop (i : nat) (g : Given)
| EvBeat (j : nat) (g : Given)
| EvStopper (j : nat) (g : Given).

Definition begin_loop (l : ClientLife) : ClientLife := if cl_connected l then l else bump (at_loop (cl_next l) PSelect l).

Definition cl_step (e : LifeEvent) (l : ClientLife) : option (outcome ClientLife) :=
  match e with
  | EvStart => Some (Ok (begin_loop l))
  | EvStop => Some (Ok (bump (at_stop (cl_next l) SEnter l)))
  | EvLoop i g => p ← cl_loops l !! i; loop_step i p g l
  | EvBeat j g => b ← cl_beats l !! j; beat_step j b g l
  | EvStopper j g => s ← cl_stops l !! j; stopper_step j s g l
  end.

(** [Some (Panic _)]: the process has ended. *)
Fixpoint cl_run (es : list LifeEvent) (l : ClientLife) : option (outcome ClientLife) :=
  match es with
  | [] => Some (Ok l)
  | e :: es' =>
      match cl_step e l with
      | Some (Ok l') => cl_run es' l'
      | o => if bool_decide (es' = []) then o else None
      end
  end.

End ClientLife.
