(* ===== verification/ClientLifeSpec.v ===== *)
(** * What holds of a client's goroutines

    With one [run] at a time nothing panics, nothing leaks and [Stop] ends the loop;
    with two, which a retry of the manager begins, the process can end. *)

From Stdlib Require Import ZArith Lia String.
From stdpp Require Import base list list_numbers gmap fin_maps sets.
From S2P Require Import Prelude GoLib StorageTypes StorageIface Client ClientLife.

Section Inv.
  Context (auth beat : bool).

(** ** One loop at a time *)

(** A call of [Start] beside a loop that runs. *)
Definition second_start (e : LifeEvent) (l : ClientLife) : bool :=
  match e with EvStart => negb (bool_decide (cl_loops l = ∅)) | _ => false end.

Fixpoint run_alone (es : list LifeEvent) (l : ClientLife) : option (outcome ClientLife) :=
  match es with
  | [] => Some (Ok l)
  | e :: es' =>
      if second_start e l then None
      else match cl_step auth beat e l with
           | Some (Ok l') => run_alone es' l'
           | o => if bool_decide (es' = []) then o else None
           end
  end.

(** *** The heartbeat *)

Definition at_work (ch d : nat) (b : Beat) : Prop :=
  match b with BNew => True | BTop d' | BSend d' => d' = Some d | BWait d' ch' => d' = Some d /\ ch' = Some ch end.
Definition beating (ch d : nat) (l : ClientLife) : Prop :=
  (exists j b, cl_beats l = {[j := b]} /\ at_work ch d b) /\ (d ∉ cl_closed l).

Definition streaming (p : Pc) : bool :=
  match p with PRead _ | PReading _ _ | PReadErr _ _ | PReadClosed _ | PDelay _ | PUnbeat _ => true | _ => false end.

Definition beat_ok (p : option Pc) (l : ClientLife) : Prop :=
  match p with
  | Some PBeatStop => beat = true /\ cl_beats l = ∅
  | Some PBeatDone => beat = true /\ cl_beats l = ∅ /\
      exists ch, cl_heartbeatStop l = Some ch /\ (ch ∉ cl_closed l) /\ (ch < cl_next l)%nat
  | Some PBeatGo => beat = true /\ cl_beats l = ∅ /\
      exists ch d, cl_heartbeatStop l = Some ch /\ cl_heartbeatDone l = Some d /\ (ch ∉ cl_closed l) /\ (d ∉ cl_closed l) /\
        ch <> d /\ (ch < cl_next l)%nat /\ (d < cl_next l)%nat
  | Some (PUnbeaten _) => beat = true /\
      exists ch d, cl_heartbeatStop l = Some ch /\ cl_heartbeatDone l = Some d /\ (ch ∈ cl_closed l) /\ (d < cl_next l)%nat /\
        (beating ch d l \/ (cl_beats l = ∅ /\ (d ∈ cl_closed l)))
  | Some (PWaitBeat _ x) => beat = true /\
      exists ch d, cl_heartbeatStop l = Some ch /\ x = Some d /\ cl_heartbeatDone l = Some d /\ (ch ∈ cl_closed l) /\
        (d < cl_next l)%nat /\ (beating ch d l \/ (cl_beats l = ∅ /\ (d ∈ cl_closed l)))
  | Some p =>
      if streaming p && beat then
        exists ch d, cl_heartbeatStop l = Some ch /\ cl_heartbeatDone l = Some d /\ (ch ∉ cl_closed l) /\ ch <> d /\
          (ch < cl_next l)%nat /\ (d < cl_next l)%nat /\ beating ch d l
      else cl_beats l = ∅ /\ (beat = false -> cl_heartbeatStop l = None)
  | None => cl_beats l = ∅ /\ (beat = false -> cl_heartbeatStop l = None)
  end.

(** *** The connection *)

Definition conn_ok (p : option Pc) (l : ClientLife) : Prop :=
  match p with
  | Some (PStore c) => cl_conn l = None /\ cl_opened l = {[c]}
  | Some PDial | Some PBackoff => cl_conn l = None /\ cl_opened l = ∅
  | _ => cl_opened l = match cl_conn l with Some c => {[c]} | None => ∅ end
  end.

(** Where [run] is only without a connection, or after the stop. *)
Definition away (p : option Pc) (l : ClientLife) : Prop :=
  match p with
  | None | Some PSelect | Some PLeave => cl_conn l = None \/ cl_stop l = true
  | Some (PUnbeat None) | Some (PUnbeaten None) | Some (PWaitBeat None _) | Some (PAfter None) | Some PQuit => cl_stop l = true
  | _ => True
  end.

(** Some [Stop] has closed the connection it found. *)
Definition cut_stage (s : Stopper) : bool := match s with SWait | SBack _ => true | _ => false end.
Definition closed_stage (s : Stopper) : bool := match s with SCut | SWait | SBack _ => true | _ => false end.
Definition cut (l : ClientLife) : Prop := exists j s, cl_stops l !! j = Some s /\ cut_stage s = true.

(** Where a connection made after that may still be. *)
Definition late (p : option Pc) : bool :=
  match p with
  | Some (PAuth | PUnauth | PClaim | PSync | PRelease _ | PUnsync | PReset | PBeatStop | PBeatDone | PBeatGo | PRead _ |
      PUnbeat None | PUnbeaten None | PWaitBeat None _ | PAfter None | PSelect | PQuit) => true
  | _ => false
  end.

Record alone (p : option Pc) (l : ClientLife) : Prop := {
  a_loops : match p with Some p => exists i, cl_loops l = {[i := p]} | None => cl_loops l = ∅ end;
  a_beat : beat_ok p l;
  a_fresh : forall x, x ∈ cl_closed l -> (x < cl_next l)%nat;
  a_conn : conn_ok p l;
  a_connected : cl_connected l = bool_decide (is_Some (cl_conn l));
  a_away : away p l;
  a_late : cut l -> cl_conn l = None \/ late p = true;
  a_sync : cl_syncing l = match p with Some PSync | Some (PRelease _) => true | _ => false end;
  a_stopped : cl_stop l = true -> cl_stopped l = true;
  a_close : forall j, cl_stops l !! j = Some SClose -> cl_stopped l = true /\ cl_stop l = false /\
    forall j', cl_stops l !! j' = Some SClose -> j' = j;
  a_closed : forall j s, cl_stops l !! j = Some s -> closed_stage s = true -> cl_stop l = true;
  a_closer : cl_stop l = true -> exists j s, cl_stops l !! j = Some s /\ closed_stage s = true;
  a_stops : forall j, is_Some (cl_stops l !! j) -> (j < cl_next l)%nat;
  a_read : forall c, cl_conn l = Some c -> cl_reader l = Some c;
  a_reading : forall n r, p = Some (PReading n r) -> r = cl_reader l
}.

Lemma alone_start : alone None new_client_life.
Proof.
  split; cbn; try done; try (by left); try (intros j; rewrite lookup_empty; by try intros []); try (intros j s; by rewrite lookup_empty).
Qed.

Lemma one_loop (i : nat) (p q : Pc) : <[i := q]> ({[i := p]} : gmap nat Pc) = {[i := q]}.
Proof. apply insert_singleton_eq. Qed.

(** A step of the loop that leaves everybody else alone. *)
Lemma loop_goes i p q l l1 : alone (Some p) l -> cl_loops l = {[i := p]} ->
  cl_loops l1 = cl_loops l -> cl_stops l1 = cl_stops l -> cl_stopped l1 = cl_stopped l -> cl_stop l1 = cl_stop l ->
  (cl_next l <= cl_next l1)%nat ->
  beat_ok (Some q) l1 -> (forall x, x ∈ cl_closed l1 -> (x < cl_next l1)%nat) -> conn_ok (Some q) l1 ->
  cl_connected l1 = bool_decide (is_Some (cl_conn l1)) -> away (Some q) l1 ->
  (cut l -> cl_conn l1 = None \/ late (Some q) = true) ->
  cl_syncing l1 = match q with PSync | PRelease _ => true | _ => false end ->
  (forall c, cl_conn l1 = Some c -> cl_reader l1 = Some c) -> (forall n r, q = PReading n r -> r = cl_reader l1) ->
  alone (Some q) (at_loop i q l1).
Proof.
  intros [] Hi Hl Hst Hd Hs Hn Hb Hf Hc Hcd Ha Hlate Hsy Hr Hrd. split; cbn; rewrite ?Hst, ?Hd, ?Hs; try done.
  - exists i. by rewrite Hl, Hi, one_loop.
  - unfold away in Ha. by rewrite Hs in Ha.
  - intros Hcut. apply Hlate. unfold cut in *. cbn in Hcut. by rewrite Hst in Hcut.
  - intros j Hj. specialize (a_stops0 j Hj). lia.
  - intros n r [= ->]. by eapply Hrd.
Qed.

Lemma dropped l : cl_opened l = match cl_conn l with Some c => {[c]} | None => ∅ end -> cl_opened (drop_conn l) = ∅.
Proof. intros Ho. cbn. rewrite Ho. destruct (cl_conn l); set_solver. Qed.

Lemma cut_stop p l : alone p l -> cut l -> cl_stop l = true.
Proof. intros A (j & s & Hj & Hs). apply (a_closed _ _ A j s Hj). by destruct s. Qed.

(** What [loop_step] gives is [Ok], with the invariant at the new place. *)
Definition moves (o : option (outcome ClientLife)) : Prop :=
  match o with None => True | Some o => exists l' q, o = Ok l' /\ alone q l' end.

Lemma moves_on i p q l l1 : alone (Some p) l -> alone (Some q) (at_loop i q l1) -> moves (Some (Ok (at_loop i q l1))).
Proof. intros _ H. cbn. eauto. Qed.

(** The obligations of [loop_goes], but for those that need the state looked at. *)
Ltac goes A := eapply moves_on; [exact A|]; eapply loop_goes; [exact A|done|done|done|done|done|cbn; lia|..];
  pose proof (cut_stop _ _ A) as Hcut; pose proof (a_late _ _ A) as Hlate; pose proof A as []; cbn in *;
  try done; try (intros Hc; specialize (Hcut Hc); congruence); try (intros Hc; destruct (Hlate Hc); by auto); eauto.

Lemma connecting_alone i p g l : alone (Some p) l -> cl_loops l = {[i := p]} ->
  match p with PSelect | PQuit | PDial | PStore _ | PAuth | PUnauth | PBackoff => True | _ => False end ->
  moves (loop_step auth beat i p g l).
Proof.
  intros A Hi Hp. destruct p; try done; destruct g; cbn [loop_step]; try done.
  - destruct (cl_stop l) eqn:Es; goes A.
    destruct a_away0 as [Hn|]; [|congruence]. by rewrite Hn in *.
  - goes A. by apply (dropped l).
  - goes A.
  - goes A; [intros x Hx; specialize (a_fresh0 x Hx); lia|]. destruct a_conn0 as [-> ->]. split; [done|set_solver].
  - destruct auth; goes A; by destruct a_conn0 as [_ ->].
  - goes A.
  - goes A.
  - goes A. split; [done|by apply (dropped l)].
  - goes A; destruct a_conn0 as [Hn Ho]; [by rewrite Hn, Ho|by left].
  - destruct (cl_stop l) eqn:Es; [|done]. goes A. by destruct a_conn0 as [-> ->].
Qed.

Lemma syncing_alone i p g l : alone (Some p) l -> cl_loops l = {[i := p]} ->
  match p with PClaim | PSync | PRelease _ | PUnsync => True | _ => False end ->
  moves (loop_step auth beat i p g l).
Proof.
  intros A Hi Hp. destruct p; try done; destruct g; cbn [loop_step]; try done.
  - destruct (cl_syncing l) eqn:Es; [by rewrite (a_sync _ _ A) in Es|]. goes A.
  - goes A.
  - goes A.
  - destruct res; goes A.
  - goes A. split; [done|by apply (dropped l)].
Qed.

Lemma reset_alone i g l : alone (Some PReset) l -> cl_loops l = {[i := PReset]} -> moves (loop_step auth beat i PReset g l).
Proof.
  intros A Hi. cbn [loop_step]. unfold stream_reset.
  pose proof (a_conn _ _ A) as Ho. pose proof (a_connected _ _ A) as Hd. pose proof (a_beat _ _ A) as [Hb Hs].
  pose proof (a_late _ _ A) as Hl.
  destruct (cl_conn l) as [c|] eqn:Ec; cbn in Ho, Hd, Hl; destruct g; try done; cbn [fmap option_fmap option_map].
  - rewrite Ho. rewrite bool_decide_true by set_solver. cbn [fmap option_fmap option_map].
    destruct beat eqn:Eb; goes A; rewrite ?Eb, ?Ec in *; auto.
  - rewrite Ho. by rewrite bool_decide_true by set_solver.
  - destruct beat eqn:Eb; goes A; rewrite ?Eb, ?Ec in *; auto.
Qed.

Lemma beat_start_alone i p g l : alone (Some p) l -> cl_loops l = {[i := p]} ->
  match p with PBeatStop | PBeatDone | PBeatGo => True | _ => False end ->
  moves (loop_step auth beat i p g l).
Proof.
  intros A Hi Hp. pose proof (a_fresh _ _ A) as Hf. assert (cl_next l ∉ cl_closed l) by (intros Hx%Hf; lia).
  destruct p; try done; destruct g; cbn [loop_step]; try done.
  - goes A; [|intros x Hx; specialize (Hf x Hx); lia]. destruct a_beat0 as [-> ->]. eauto 10.
  - goes A; [|intros x Hx; specialize (Hf x Hx); lia].
    destruct a_beat0 as (-> & -> & ch & -> & Hc & Hlt). split_and!; try done. exists ch, (cl_next l). split_and!; eauto; lia.
  - goes A; [|intros x Hx; specialize (Hf x Hx); lia].
    destruct a_beat0 as (-> & Hb & ch & d & Hs & Hd & Hnc & Hnd & Hne & Hlt & Hld). exists ch, d. cbn.
    split_and!; eauto; try lia. split; [|done]. exists (cl_next l), BNew. cbn. by rewrite Hb.
Qed.

Lemma read_error_place n err stop :
  (stop = true /\ read_error n err stop = PUnbeat None) \/
  (stop = false /\ ((exists err', read_error n err stop = PUnbeat (Some err')) \/
    read_error n err stop = PReadClosed err \/ read_error n err stop = PDelay (n + 1))).
Proof.
  unfold read_error. destruct stop; [by left|right; split; [done|]].
  destruct err; repeat case_match; eauto.
Qed.

Lemma reading_alone i p g l : alone (Some p) l -> cl_loops l = {[i := p]} ->
  match p with PRead _ | PReading _ _ | PReadErr _ _ | PReadClosed _ | PDelay _ => True | _ => False end ->
  moves (loop_step auth beat i p g l).
Proof.
  intros A Hi Hp. destruct p; try done; destruct g; cbn [loop_step]; try done.
  - destruct (cl_stop l) eqn:Es; goes A. by intros ?? [= -> ->].
  - goes A.
  - goes A.
  - destruct (read_error_place n err (cl_stop l)) as [[Es ->]|[Es [[err' ->]|[->| ->]]]]; goes A.
  - destruct (cl_stop l) eqn:Es; goes A.
  - goes A.
  - destruct (cl_stop l) eqn:Es; [|done]. goes A.
Qed.

Lemma unbeat_alone i res g l : alone (Some (PUnbeat res)) l -> cl_loops l = {[i := PUnbeat res]} ->
  moves (loop_step auth beat i (PUnbeat res) g l).
Proof.
  intros A Hi. destruct g; cbn [loop_step]; try done. pose proof (a_beat _ _ A) as Hb. pose proof (a_fresh _ _ A) as Hf.
  cbn in Hb. destruct beat eqn:Eb.
  - destruct Hb as (ch & d & Hs & Hd & Hnc & Hne & Hlt & Hld & Hj & Hnd). rewrite Hs. unfold close_chan.
    rewrite bool_decide_false by done. destruct res; goes A.
    1, 3: rewrite Eb; split; [done|]; exists ch, d; split_and!; eauto; [set_solver|]; left; split; [done|cbn; set_solver].
    all: intros x [->%elem_of_singleton|Hx]%elem_of_union; [done|by apply Hf].
  - destruct Hb as [Hb Hs]. rewrite Hs by done. destruct res; goes A.
Qed.

Lemma ending_alone i p g l : alone (Some p) l -> cl_loops l = {[i := p]} ->
  match p with PUnbeaten _ | PWaitBeat _ _ | PAfter _ | PAgain | PDrop | PLeave => True | _ => False end ->
  moves (loop_step auth beat i p g l).
Proof.
  intros A Hi Hp. destruct p; try done; destruct g; cbn [loop_step]; try done; try (by destruct res).
  - destruct res; goes A.
    all: destruct a_beat0 as [-> (ch & d & Hs & Hd & Hc & Hld & Hb)]; split; [done|]; exists ch, d; split_and!; eauto.
  - destruct (is_closed done l) eqn:Ed; [|done]. destruct res; goes A.
    all: destruct a_beat0 as [-> (ch & d & Hs & -> & Hd & Hc & Hld & Hb)]; cbn in Ed; apply bool_decide_eq_true in Ed;
      destruct Hb as [[_ Hb]|[Hb _]]; done.
  - destruct res as [err|]; [|goes A].
    destruct (cl_stop l) eqn:Es; [|destruct (use_of_closed err)]; goes A.
  - destruct (cl_stop l) eqn:Es; goes A.
  - goes A. by apply (dropped l).
  - cbn. eexists _, None. split; [done|]. destruct A. split; cbn in *; try done.
    + by rewrite Hi, delete_singleton_eq.
Qed.

Lemma loop_alone i p g l : alone (Some p) l -> cl_loops l = {[i := p]} -> moves (loop_step auth beat i p g l).
Proof.
  intros A Hi. destruct p;
    first [by apply reset_alone|by apply unbeat_alone|by apply connecting_alone|by apply syncing_alone|by apply beat_start_alone
          |by apply reading_alone|by apply ending_alone].
Qed.

(** *** Everybody else *)

Definition unbeating (p : option Pc) : bool := match p with Some (PUnbeaten _ | PWaitBeat _ _) => true | _ => false end.

(** With a heartbeat goroutine, what [beat_ok] says whatever the place of the loop. *)
Lemma beat_busy p l j b : beat_ok p l -> cl_beats l !! j = Some b ->
  exists ch d, cl_heartbeatStop l = Some ch /\ cl_heartbeatDone l = Some d /\ (d ∉ cl_closed l) /\ (d < cl_next l)%nat /\
    cl_beats l = {[j := b]} /\ at_work ch d b /\ ((ch ∈ cl_closed l) -> unbeating p = true) /\
    (forall b', at_work ch d b' -> beat_ok p (at_beat j b' l)) /\
    (unbeating p = true -> (ch ∈ cl_closed l) /\
      forall l', cl_heartbeatStop l' = Some ch -> cl_heartbeatDone l' = Some d -> cl_beats l' = ∅ -> cl_next l' = cl_next l ->
        cl_closed l' = {[d]} ∪ cl_closed l -> beat_ok p l').
Proof.
  intros Hb Hj. assert (Hne : cl_beats l = ∅ -> False) by (intros He; by rewrite He, lookup_empty in Hj).
  assert (Hone : forall ch d, beating ch d l -> cl_beats l = {[j := b]} /\ at_work ch d b /\
    forall b', at_work ch d b' -> beating ch d (at_beat j b' l)).
  { intros ch d [(j' & b0 & Hbs & Hw) Hd]. rewrite Hbs in Hj. apply lookup_singleton_Some in Hj as [-> ->].
    split_and!; [done..|]. intros b' Hw'. split; [|done]. exists j, b'. cbn. by rewrite Hbs, insert_singleton_eq. }
  destruct p as [[]|]; cbn in Hb |- *; destruct beat eqn:Eb; try (destruct Hb as [? [Hb ?]]; by destruct Hne); try (destruct Hb as [Hb ?]; by destruct Hne).
  1-6: destruct Hb as (ch & d & Hs & Hd & Hnc & Hne' & Hlt & Hld & Hbt); destruct (Hone ch d Hbt) as (H1 & H2 & H3);
    exists ch, d; split_and!; try done; try (by destruct Hbt); intros b' Hw; exists ch, d; split_and!; eauto.
  - destruct Hb as [_ (ch & d & Hs & Hd & Hc & Hld & [Hbt|[Hbt _]])]; [|by destruct Hne].
    destruct (Hone ch d Hbt) as (H1 & H2 & H3). exists ch, d. split_and!; try done; try (by destruct Hbt).
    + intros b' Hw. split; [done|]. exists ch, d. split_and!; eauto.
    + intros _. split; [done|]. intros l' Hs' Hd' Hb' Hn' Hc'. split; [done|]. exists ch, d. rewrite Hc', Hn'. split_and!; eauto; [set_solver|].
      right. split; [done|set_solver].
  - destruct Hb as [_ (ch & d & Hs & -> & Hd & Hc & Hld & [Hbt|[Hbt _]])]; [|by destruct Hne].
    destruct (Hone ch d Hbt) as (H1 & H2 & H3). exists ch, d. split_and!; try done; try (by destruct Hbt).
    + intros b' Hw. split; [done|]. exists ch, d. split_and!; eauto.
    + intros _. split; [done|]. intros l' Hs' Hd' Hb' Hn' Hc'. split; [done|]. exists ch, d. rewrite Hc', Hn'. split_and!; eauto; [set_solver|].
      right. split; [done|set_solver].
Qed.

(** A step that leaves the loops, the connection and the callers of [Stop] alone. *)
Lemma beat_goes p l l1 : alone p l -> beat_ok p l1 -> (forall x, x ∈ cl_closed l1 -> (x < cl_next l1)%nat) ->
  cl_loops l1 = cl_loops l -> cl_conn l1 = cl_conn l -> cl_reader l1 = cl_reader l -> cl_connected l1 = cl_connected l ->
  cl_opened l1 = cl_opened l -> cl_syncing l1 = cl_syncing l -> cl_stopped l1 = cl_stopped l -> cl_stop l1 = cl_stop l ->
  cl_stops l1 = cl_stops l -> cl_next l1 = cl_next l -> alone p l1.
Proof.
  intros [] Hb Hf Hl Hc Hr Hcd Ho Hsy Hd Hs Hst Hn.
  split; unfold conn_ok, away, cut in *; rewrite ?Hl, ?Hc, ?Hr, ?Hcd, ?Ho, ?Hsy, ?Hd, ?Hs, ?Hst, ?Hn; auto. by rewrite <- Hn.
Qed.

Lemma beat_alone p j b g l : alone p l -> cl_beats l !! j = Some b -> moves (beat_step j b g l).
Proof.
  intros A Hj. destruct (beat_busy p l j b (a_beat _ _ A) Hj) as (ch & d & Hs & Hd & Hnd & Hld & Hbs & Hw & Hcl & Hgo & Hend).
  assert (Hat : forall b', at_work ch d b' -> moves (Some (Ok (at_beat j b' l)))).
  { intros b' Hw'. exists (at_beat j b' l), p. split; [done|]. eapply beat_goes; eauto. apply A. }
  destruct b, g; cbn [beat_step]; try done; try (by apply Hat).
  - by destruct Hw; apply Hat.
  - destruct (is_closed stop l) eqn:Ec; [|done]. destruct Hw as [-> ->]. cbn in Ec. apply bool_decide_eq_true in Ec.
    unfold close_chan. cbn. rewrite bool_decide_false by done. eexists _, p. split; [done|].
    destruct (Hend (Hcl Ec)) as [_ Hend']. eapply beat_goes; eauto; cbn.
    + apply Hend'; try done. cbn. by rewrite Hbs, delete_singleton_eq.
    + intros x [->%elem_of_singleton|Hx]%elem_of_union; [done|by apply (a_fresh _ _ A)].
Qed.

Lemma beat_ok_same p l l1 : cl_beats l1 = cl_beats l -> cl_heartbeatStop l1 = cl_heartbeatStop l ->
  cl_heartbeatDone l1 = cl_heartbeatDone l -> cl_closed l1 = cl_closed l -> (cl_next l <= cl_next l1)%nat ->
  beat_ok p l -> beat_ok p l1.
Proof.
  intros Hb Hs Hd Hc Hn.
  assert (Hbt : forall ch d, beating ch d l -> beating ch d l1) by (unfold beating; by rewrite Hb, Hc).
  unfold beat_ok. rewrite Hb, Hs, Hd, Hc. destruct p as [[]|]; try done; try (destruct (streaming _ && beat); [|done]);
    intros H; decompose [ex and] H; split_and?; try done;
    first [eexists _, _; solve [split_and?; eauto; try lia; intuition eauto]|eexists; split_and?; eauto; lia].
Qed.

(** A caller of [Stop] goes from [s] to [s']. *)
Lemma stop_goes p j s s' l l1 : alone p l -> cl_stops l !! j = Some s -> cl_stops l1 = <[j := s']> (cl_stops l) ->
  cl_loops l1 = cl_loops l -> cl_beats l1 = cl_beats l -> cl_heartbeatStop l1 = cl_heartbeatStop l ->
  cl_heartbeatDone l1 = cl_heartbeatDone l -> cl_closed l1 = cl_closed l -> cl_next l1 = cl_next l ->
  cl_syncing l1 = cl_syncing l -> cl_reader l1 = cl_reader l ->
  conn_ok p l1 -> cl_connected l1 = bool_decide (is_Some (cl_conn l1)) -> away p l1 ->
  (cut l1 -> cl_conn l1 = None \/ late p = true) -> (cl_conn l1 = None \/ cl_conn l1 = cl_conn l) ->
  (cl_stop l1 = true -> cl_stopped l1 = true) ->
  (forall j', <[j := s']> (cl_stops l) !! j' = Some SClose -> cl_stopped l1 = true /\ cl_stop l1 = false /\
    forall j'', <[j := s']> (cl_stops l) !! j'' = Some SClose -> j'' = j') ->
  (closed_stage s' = true -> cl_stop l1 = true) -> (cl_stop l = true -> cl_stop l1 = true) ->
  (cl_stop l1 = true -> closed_stage s' = true \/ (cl_stop l = true /\ closed_stage s = false)) -> alone p l1.
Proof.
  intros [] Hj Hst Hl Hb Hs Hd Hc Hn Hsy Hr Hco Hcd Haw Hlate Hconn Hstop Hclose Hcls Hcls' Hclr.
  split; rewrite ?Hst, ?Hl, ?Hc, ?Hn, ?Hsy, ?Hr; auto.
  - eapply beat_ok_same; [done..|by rewrite Hn|done].
  - intros j' s0 [[<- <-]|[Hne Hj']]%lookup_insert_Some; [exact Hcls|]. intros Hs0. by eapply Hcls', a_closed0.
  - intros Hs1. destruct (Hclr Hs1) as [H|[H1 H2]]; [by exists j, s'; rewrite lookup_insert_eq|].
    destruct (a_closer0 H1) as (j' & s0 & Hj' & Hs0). exists j', s0. split; [|done].
    rewrite lookup_insert_ne; [done|]. intros <-. rewrite Hj in Hj'. congruence.
  - intros j' [s0 [[<- _]|[_ Hj']]%lookup_insert_Some]; apply a_stops0; eauto.
  - intros c Hc'. destruct Hconn as [Hx|Hx]; rewrite Hx in Hc'; [done|by apply a_read0].
Qed.

Lemma cut_insert j s' l l1 : cl_stops l1 = <[j := s']> (cl_stops l) -> cut l1 -> cut_stage s' = true \/ cut l.
Proof.
  intros Hst (j' & s0 & Hj' & Hs0). rewrite Hst in Hj'. apply lookup_insert_Some in Hj' as [[<- <-]|[Hne Hj']]; [by left|].
  right. by exists j', s0.
Qed.

Lemma close_insert j s' (stops : gmap nat Stopper) (P : Prop) : s' <> SClose ->
  (forall j', stops !! j' = Some SClose -> P /\ forall j'', stops !! j'' = Some SClose -> j'' = j') ->
  forall j', <[j := s']> stops !! j' = Some SClose -> P /\ forall j'', <[j := s']> stops !! j'' = Some SClose -> j'' = j'.
Proof.
  intros Hne H j' [[_ He]|[_ Hj']]%lookup_insert_Some; [done|]. destruct (H j' Hj') as [HP Hu]. split; [done|].
  intros j'' [[_ He]|[_ Hj'']]%lookup_insert_Some; [done|]. by apply Hu.
Qed.

(** It is not the one that closes [stopChan]. *)
Lemma stop_walks p j s s' l : alone p l -> cl_stops l !! j = Some s -> s' <> SClose -> s <> SClose ->
  (cut_stage s' = true -> cut_stage s = true) -> (closed_stage s' = true <-> closed_stage s = true) ->
  alone p (at_stop j s' l).
Proof.
  intros A Hj Hne Hns Hcs Hcl. assert (Hcut : cut_stage s = true -> cut l) by (intros H; by exists j, s).
  pose proof A as []. eapply stop_goes; eauto; cbn; eauto.
  - intros [H|H]%(cut_insert j s' l); auto.
  - intros j' Hj'. apply close_insert with (P := cl_stopped l = true /\ cl_stop l = false) in Hj'; [tauto|done|].
    intros j0 Hj0. specialize (a_close0 j0 Hj0). tauto.
  - intros H%Hcl. eauto.
  - intros Hs. destruct (closed_stage s); [left; tauto|by right].
Qed.

Lemma stopper_alone p j s g l : alone p l -> cl_stops l !! j = Some s -> moves (stopper_step j s g l).
Proof.
  intros A Hj. assert (Hcut : cut_stage s = true -> cut l) by (intros H; by exists j, s).
  pose proof A as []. destruct s, g; cbn [stopper_step]; try done.
  - destruct (cl_stopped l) eqn:Ed; eexists _, p; (split; [done|]); [by eapply stop_walks|].
    eapply stop_goes; eauto; cbn; eauto.
    + intros [H|H]%(cut_insert j SClose l); auto; done.
    + assert (Hno : forall j', cl_stops l !! j' = Some SClose -> False) by (intros j' Hj'; by destruct (a_close0 j' Hj')).
      assert (Hu : forall j', <[j := SClose]> (cl_stops l) !! j' = Some SClose -> j' = j)
        by (intros j' [[-> _]|[_ Hj']]%lookup_insert_Some; [done|by destruct (Hno j')]).
      intros j' Hj'. split_and!; [done| |intros j'' Hj''; by rewrite (Hu _ Hj'), (Hu _ Hj'')].
      destruct (cl_stop l) eqn:Es; [|done]. by discriminate (a_stopped0 eq_refl).
  - destruct (a_close0 j Hj) as (Hd & Hs & Hu). rewrite Hs. eexists _, p; (split; [done|]).
    eapply stop_goes; eauto; cbn; eauto.
    + destruct p as [[]|]; cbn in a_away0 |- *; auto; by case_match.
    + intros [H|H]%(cut_insert j SCut l); auto; done.
    + intros j' [[_ He]|[Hne Hj']]%lookup_insert_Some; [done|]. by destruct Hne; rewrite (Hu _ Hj').
  - pose proof (a_closed0 j _ Hj eq_refl) as Hs. eexists _, p; (split; [done|]). eapply stop_goes; eauto; cbn; eauto.
    + destruct p as [[]|]; cbn in a_conn0 |- *; try match type of a_conn0 with _ /\ _ => by destruct a_conn0 as [-> ->] end;
        rewrite a_conn0; destruct (cl_conn l); set_solver.
    + destruct p as [[]|]; cbn in a_away0 |- *; auto.
    + intros j' Hj'. apply close_insert with (P := cl_stopped l = true /\ cl_stop l = false) in Hj'; [tauto|done|].
      intros j0 Hj0. specialize (a_close0 j0 Hj0). tauto.
  - destruct (cl_done l); [|done]. eexists _, p; (split; [done|]). by eapply stop_walks.
  - eexists _, p; (split; [done|]). by eapply stop_walks.
Qed.

(** *** Every run *)

Lemma no_loop_alone q l : alone q l -> cl_loops l = ∅ -> q = None.
Proof.
  intros A Hn. destruct q as [p|]; [|done]. destruct (a_loops _ _ A) as [i Hi]. rewrite Hn in Hi.
  exfalso. by apply (map_non_empty_singleton (M := gmap nat) i p).
Qed.

Lemma start_alone p l : alone p l -> second_start EvStart l = false -> exists q, alone q (begin_loop l).
Proof.
  intros A Hs. cbn in Hs. apply negb_false_iff, bool_decide_eq_true in Hs. unfold begin_loop.
  destruct (cl_connected l) eqn:Ec; [by exists p|]. exists (Some PSelect).
  pose proof (no_loop_alone p l A Hs) as ->.
  destruct A. assert (Hn : cl_conn l = None) by (destruct (cl_conn l); cbn in *; congruence).
  split; cbn; try done; try (by left); try (by rewrite Hn).
  - exists (cl_next l). by rewrite a_loops0.
  - intros x Hx. specialize (a_fresh0 x Hx). lia.
  - intros j Hj. specialize (a_stops0 j Hj). lia.
Qed.

Lemma stop_called_alone p l : alone p l -> alone p (bump (at_stop (cl_next l) SEnter l)).
Proof.
  intros A. pose proof A as []. assert (Hno : cl_stops l !! cl_next l = None).
  { apply eq_None_not_Some. intros H%a_stops0. lia. }
  split; cbn; try done.
  - apply (beat_ok_same p l); [done..|cbn; lia|done].
  - intros x Hx. specialize (a_fresh0 x Hx). lia.
  - intros [H|H]%(cut_insert (cl_next l) SEnter l); auto; done.
  - intros j Hj. apply close_insert with (P := cl_stopped l = true /\ cl_stop l = false) in Hj; [tauto|done|].
    intros j0 Hj0. specialize (a_close0 j0 Hj0). tauto.
  - intros j s [[<- <-]|[_ Hj]]%lookup_insert_Some; [done|]. intros Hs. by eapply a_closed0.
  - intros (j & s & Hj & Hs)%a_closer0. exists j, s. split; [|done]. rewrite lookup_insert_ne; [done|]. by intros <-; congruence.
  - intros j [s [[<- _]|[_ Hj]]%lookup_insert_Some]; [lia|]. specialize (a_stops0 j). rewrite Hj in a_stops0.
    specialize (a_stops0 (mk_is_Some _ _ eq_refl)). lia.
Qed.

Lemma step_alone e p l : alone p l -> second_start e l = false -> moves (cl_step auth beat e l).
Proof.
  intros A Hs. destruct e as [| |i g|j g|j g]; cbn [cl_step].
  - destruct (start_alone p l A Hs) as [q Hq]. by exists (begin_loop l), q.
  - eexists _, p. split; [done|]. by apply stop_called_alone.
  - destruct (cl_loops l !! i) as [p'|] eqn:Ei; [|done]. cbn.
    assert (exists q, p = Some q) as [q ->].
    { destruct p as [q|]; [by exists q|]. rewrite (a_loops _ _ A), lookup_empty in Ei. done. }
    destruct (a_loops _ _ A) as [i' Hi']. pose proof Ei as Ei'. rewrite Hi' in Ei'. apply lookup_singleton_Some in Ei' as [-> ->].
    by apply loop_alone.
  - destruct (cl_beats l !! j) as [b|] eqn:Ej; [|done]. cbn. by eapply beat_alone.
  - destruct (cl_stops l !! j) as [s|] eqn:Ej; [|done]. cbn. by eapply stopper_alone.
Qed.

Lemma run_is_alone es : forall p l o, alone p l -> run_alone es l = Some o -> exists l' q, o = Ok l' /\ alone q l'.
Proof.
  induction es as [|e es IH]; intros p l o A H; cbn in H; [simplify_eq; by exists l, p|].
  destruct (second_start e l) eqn:Es; [done|]. pose proof (step_alone e p l A Es) as Hm.
  destruct (cl_step auth beat e l) as [o'|]; cbn in Hm.
  - destruct Hm as (l1 & q & -> & A1). by eapply IH.
  - by case_bool_decide.
Qed.

Lemma alone_beats q l : alone q l -> (size (cl_beats l) <= 1)%nat.
Proof.
  intros A. destruct (decide (cl_beats l = ∅)) as [->|Hne]; [by rewrite map_size_empty; lia|].
  apply map_choose in Hne as (j & b & Hj). destruct (beat_busy q l j b (a_beat _ _ A) Hj) as (ch & d & _ & _ & _ & _ & -> & _).
  by rewrite map_size_singleton.
Qed.

Lemma alone_opened q l : alone q l -> (size (cl_opened l) <= 1)%nat /\ forall c, cl_conn l = Some c -> cl_opened l = {[c]}.
Proof.
  intros []. destruct q as [[]|]; cbn in a_conn0; try match type of a_conn0 with _ /\ _ => destruct a_conn0 as [Hc a_conn0]; rewrite ?Hc end; rewrite a_conn0;
    try destruct (cl_conn l);
    rewrite ?size_singleton, ?size_empty; split; try lia; intros; by simplify_eq.
Qed.

(** C12: with one [run] at a time, whatever the master, the network and the callers of
    [Stop] do and in whatever order: nothing panics; the connection in the client is
    the only one open, and the one a command is read from; there is one heartbeat at
    most, none without a loop; and when no loop runs and some [Stop] has closed the
    connection it found, no connection is open. *)
Theorem client_is_orderly es o : run_alone es new_client_life = Some o ->
  exists l, o = Ok l /\ (size (cl_loops l) <= 1)%nat /\ (size (cl_beats l) <= 1)%nat /\ (size (cl_opened l) <= 1)%nat /\
    (forall c, cl_conn l = Some c -> cl_opened l = {[c]} /\
      forall i n r, cl_loops l !! i = Some (PReading n r) -> r = Some c) /\
    (cl_loops l = ∅ -> cl_beats l = ∅ /\ (cut l -> cl_opened l = ∅)).
Proof.
  intros H. destruct (run_is_alone es None _ o alone_start H) as (l & q & -> & A). exists l. split; [done|].
  split_and!.
  - destruct q; [destruct (a_loops _ _ A) as [i ->]; by rewrite map_size_singleton|].
    rewrite (a_loops _ _ A), map_size_empty. lia.
  - by eapply alone_beats.
  - by destruct (alone_opened q l A).
  - intros c Hc. split; [by apply (alone_opened q l A)|]. intros i n r Hi. rewrite <- (a_read _ _ A c Hc).
    destruct q as [p|]; [|by rewrite (a_loops _ _ A), lookup_empty in Hi].
    destruct (a_loops _ _ A) as [i' Hi']. rewrite Hi' in Hi. apply lookup_singleton_Some in Hi as [-> ->].
    by apply (a_reading _ _ A n r).
  - intros Hn. pose proof (no_loop_alone q l A Hn) as ->. destruct A. cbn in *. split; [by destruct a_beat0|].
    intros [Hc|Hc]%a_late0; [by rewrite Hc in a_conn0|done].
Qed.
End Inv.

(** A life: connect, synchronise, stream with a heartbeat, stop while reading. *)
Definition stream_start : list LifeEvent :=
  [EvStart] ++ map (EvLoop 0) [GGo; GConn; GGo; GGo; GOk; GGo; GGo; GGo; GGo; GGo; GGo] ++ [EvBeat 4 GGo; EvBeat 4 GGo].
Definition stream_stop : list LifeEvent := [EvStop; EvStopper 5 GGo; EvStopper 5 GGo; EvStopper 5 GGo].
Definition stream_end : list LifeEvent :=
  map (EvLoop 0) [GErr (Errorf (bs "read: use of closed network connection")); GGo; GGo; GGo] ++ [EvBeat 4 GStop] ++
  map (EvLoop 0) [GGo; GGo; GGo; GGo; GGo] ++ [EvStopper 5 GOk].

Lemma client_is_orderly_witness : exists l,
  run_alone false true (stream_start ++ stream_stop ++ stream_end) new_client_life = Some (Ok l) /\
  cl_loops l = ∅ /\ cl_beats l = ∅ /\ cl_opened l = ∅.
Proof.
  destruct (run_alone false true (stream_start ++ stream_stop ++ stream_end) new_client_life) as [o|] eqn:E; [|vm_compute in E; discriminate].
  destruct (client_is_orderly false true _ o E) as (l & -> & _ & _ & _ & _ & H).
  exists l. split; [reflexivity|]. vm_compute in E. injection E as <-.
  destruct (H eq_refl) as [Hb Ho]. split; [reflexivity|]. split; [exact Hb|]. apply Ho. exists 5%nat, (SBack None).
  split; reflexivity.
Defined.
