(* ===== verification/ClientLifeStop.v ===== *)
(** * How a client's loops end

    [Stop] ends every [run] in a bounded number of its steps, and with one [run]
    nothing but the master, the network and the timers can hold it up. Two at a time,
    which a retry of the manager begins, can leak a connection and end the process. *)

From Stdlib Require Import ZArith Lia String.
From stdpp Require Import base list list_numbers gmap fin_maps sets.
From S2P Require Import Prelude GoLib StorageTypes StorageIface Client ClientLife ClientLifeSpec.

Section Stop.
  Context (auth beat : bool).

(** ** A bound on the steps of a stopped loop *)

Definition rank (p : Pc) : nat :=
  match p with
  | PLeave => 1 | PQuit => 2 | PSelect => 3 | PBackoff | PDrop => 4 | PAgain | PUnsync | PUnauth => 5 | PAfter _ => 6
  | PWaitBeat _ _ => 7 | PUnbeaten _ => 8 | PUnbeat _ => 9 | PRead _ | PReadClosed _ => 10 | PDelay _ => 11
  | PReadErr _ _ => 12 | PReading _ _ => 13 | PBeatGo => 14 | PBeatDone => 15 | PBeatStop => 16 | PReset => 17
  | PRelease _ => 18 | PSync => 19 | PClaim => 20 | PAuth => 21 | PStore _ => 22 | PDial => 23
  end.

Definition rank_of (i : nat) (l : ClientLife) : nat := match cl_loops l !! i with Some p => rank p | None => 0 end.

Fixpoint steps_of (i : nat) (es : list LifeEvent) : nat :=
  match es with
  | [] => 0
  | EvLoop j _ :: es' => (if decide (j = i) then 1 else 0) + steps_of i es'
  | _ :: es' => steps_of i es'
  end.

(** The loops begun are numbered below [cl_next]. *)
Definition numbered (l : ClientLife) : Prop := forall i, is_Some (cl_loops l !! i) -> (i < cl_next l)%nat.

(** Goroutine [i] goes on to another place, nearer the end once [Stop] has been
    called, or ends. *)
Definition walks (i : nat) (p : Pc) (l l' : ClientLife) : Prop :=
  (cl_next l <= cl_next l')%nat /\ cl_stop l' = cl_stop l /\
  ((exists q, cl_loops l' = <[i := q]> (cl_loops l) /\ (cl_stop l = true -> (rank q < rank p)%nat)) \/
   (cl_loops l' = delete i (cl_loops l) /\ (0 < rank p)%nat)).

Lemma walk i p q l l1 : cl_loops l1 = cl_loops l -> (cl_next l <= cl_next l1)%nat -> cl_stop l1 = cl_stop l ->
  (cl_stop l = true -> (rank q < rank p)%nat) -> walks i p l (at_loop i q l1).
Proof. intros Hl Hn Hs Hr. split_and!; cbn; [done..|left]. exists q. by rewrite Hl. Qed.

Lemma reset_walks i g l l' : loop_step auth beat i PReset g l = Some (Ok l') -> walks i PReset l l'.
Proof.
  cbn [loop_step]. unfold stream_reset. intros H. destruct (cl_conn l), g; repeat case_bool_decide; cbn [fmap option_fmap option_map] in H; try done;
    injection H as <-; apply walk; cbn; try done; destruct beat; cbn; lia.
Qed.

Lemma unbeat_walks i res g l l' : loop_step auth beat i (PUnbeat res) g l = Some (Ok l') -> walks i (PUnbeat res) l l'.
Proof.
  intros H. destruct g; cbn [loop_step] in H; try done. destruct (cl_heartbeatStop l) as [ch|] eqn:Es.
  - unfold close_chan in H. case_bool_decide; [done|]. injection H as <-. apply walk; cbn; [done..|lia].
  - injection H as <-. apply walk; cbn; [done..|lia].
Qed.

Lemma loop_step_walks i p g l l' : loop_step auth beat i p g l = Some (Ok l') -> walks i p l l'.
Proof.
  intros H. destruct p; try (by eapply reset_walks); try (by eapply unbeat_walks); destruct g; cbn [loop_step] in H; try done; try (by destruct res).
  all: try (injection H as <-; apply walk; cbn; [done|lia|done|];
    try (destruct (cl_stop l) eqn:Es); try (destruct res); try (destruct auth); try (destruct beat); cbn; intros; lia).
  - destruct (cl_stop l) eqn:Es; [|done]. injection H as <-. apply walk; cbn; [done..|lia].
  - destruct (cl_syncing l); injection H as <-; apply walk; cbn; try done; lia.
  - destruct (cl_stop l) eqn:Es; [|done]. injection H as <-. apply walk; cbn; [done..|lia].
  - destruct (is_closed done l); [|done]. injection H as <-. apply walk; cbn; [done..|lia].
  - destruct res; injection H as <-; (apply walk; cbn; [done..|]); intros Hs; rewrite ?Hs; cbn; lia.
  - injection H as <-. split_and!; cbn; [done..|]. right. split; [done|lia].
Qed.

(** The heartbeat and the callers of [Stop] do not move the loops. *)
Definition beside (l l' : ClientLife) : Prop :=
  cl_loops l' = cl_loops l /\ cl_next l' = cl_next l /\ (cl_stop l = true -> cl_stop l' = true).

Lemma beat_beside j b g l l' : beat_step j b g l = Some (Ok l') -> beside l l'.
Proof.
  intros H. destruct b, g; cbn in H; try done; try (by injection H as <-).
  destruct (is_closed stop l); [|done]. destruct done as [d|]; [|done]. unfold close_chan in H.
  case_bool_decide; [done|]. by injection H as <-.
Qed.

Lemma stopper_beside j s g l l' : stopper_step j s g l = Some (Ok l') -> beside l l'.
Proof. intros H. destruct s, g; cbn in H; try done; repeat case_match; simplify_eq; done. Qed.

Definition begins (l l' : ClientLife) : Prop :=
  (cl_next l <= cl_next l')%nat /\ cl_stop l' = cl_stop l /\
  (cl_loops l' = cl_loops l \/ cl_loops l' = <[cl_next l := PSelect]> (cl_loops l) /\ (cl_next l < cl_next l')%nat).

(** What an event does to the loops. *)
Lemma step_cases e l l' : cl_step auth beat e l = Some (Ok l') ->
  match e with
  | EvLoop i _ => exists p, cl_loops l !! i = Some p /\ walks i p l l'
  | EvStart | EvStop => begins l l'
  | EvBeat _ _ | EvStopper _ _ => beside l l'
  end.
Proof.
  intros H. destruct e as [| |j g|j g|j g]; cbn [cl_step] in H.
  - injection H as <-. unfold begin_loop. destruct (cl_connected l); [split_and!; [done|done|by left]|].
    split_and!; cbn; [lia|done|right; split; [done|lia]].
  - injection H as <-. split_and!; cbn; [lia|done|by left].
  - destruct (cl_loops l !! j) as [p|]; [|done]. exists p. split; [done|]. by eapply loop_step_walks.
  - destruct (cl_beats l !! j); [|done]. by eapply beat_beside.
  - destruct (cl_stops l !! j); [|done]. by eapply stopper_beside.
Qed.

Lemma step_numbered e l l' : cl_step auth beat e l = Some (Ok l') -> numbered l -> numbered l'.
Proof.
  intros H%step_cases Hn. destruct e as [| |j g|j g|j g].
  1-2: destruct H as (Hle & _ & [He|[He Hlt]]); intros i Hi; rewrite He in Hi; [specialize (Hn i Hi); lia|];
    destruct Hi as [q [[<- _]|[_ Hi]]%lookup_insert_Some]; [lia|specialize (Hn i (mk_is_Some _ _ Hi)); lia].
  - destruct H as (p & Hj & Hle & _ & [(q & He & _)|[He _]]); intros i Hi; rewrite He in Hi.
    + destruct Hi as [q' [[<- _]|[_ Hi]]%lookup_insert_Some]; eapply Nat.lt_le_trans; eauto.
    + destruct Hi as [q' [_ Hi]%lookup_delete_Some]. eapply Nat.lt_le_trans; eauto.
  - destruct H as (He & Hx & _). intros i. rewrite He, Hx. apply Hn.
  - destruct H as (He & Hx & _). intros i. rewrite He, Hx. apply Hn.
Qed.

Lemma step_bound i e l l' : cl_step auth beat e l = Some (Ok l') -> cl_stop l = true -> (i < cl_next l)%nat ->
  cl_stop l' = true /\ (i < cl_next l')%nat /\ (steps_of i [e] + rank_of i l' <= rank_of i l)%nat.
Proof.
  intros H%step_cases Hs Hi. unfold rank_of. destruct e as [| |j g|j g|j g]; cbn.
  1-2: destruct H as (Hle & Hs' & [He|[He Hlt]]); rewrite He, Hs'; split_and!; try done; try lia;
    rewrite lookup_insert_ne by lia; lia.
  - destruct H as (p & Hj & Hle & Hs' & Hw). rewrite Hs'. split_and!; [done|lia|].
    destruct Hw as [(q & -> & Hr)|[-> Hr]]; destruct (decide (j = i)) as [->|Hne].
    + rewrite lookup_insert_eq, Hj. specialize (Hr Hs). lia.
    + rewrite lookup_insert_ne by done. lia.
    + rewrite lookup_delete_eq, Hj. lia.
    + rewrite lookup_delete_ne by done. lia.
  - destruct H as (-> & -> & H). split_and!; auto; lia.
  - destruct H as (-> & -> & H). split_and!; auto; lia.
Qed.

Lemma run_numbered es : forall l l', cl_run auth beat es l = Some (Ok l') -> numbered l -> numbered l'.
Proof.
  induction es as [|e es IH]; intros l l' H Hn; cbn in H; [by simplify_eq|].
  destruct (cl_step auth beat e l) as [[l1| | |]|] eqn:E; try (by case_bool_decide; simplify_eq).
  eapply IH; [done|]. by eapply step_numbered.
Qed.

Lemma run_bound i es : forall l l', cl_run auth beat es l = Some (Ok l') -> cl_stop l = true -> (i < cl_next l)%nat ->
  cl_stop l' = true /\ (steps_of i es + rank_of i l' <= rank_of i l)%nat.
Proof.
  induction es as [|e es IH]; intros l l' H Hs Hi; cbn in H; [simplify_eq; cbn; split; [done|lia]|].
  destruct (cl_step auth beat e l) as [[l1| | |]|] eqn:E; try (by case_bool_decide; simplify_eq).
  destruct (step_bound i e l l1 E Hs Hi) as (Hs1 & Hi1 & Hb). destruct (IH l1 l' H Hs1 Hi1) as [Hs' Hb']. split; [done|].
  assert (steps_of i (e :: es) = steps_of i [e] + steps_of i es)%nat by (destruct e; cbn; lia). lia.
Qed.

(** ** What a stopped loop can wait for *)

(** The dial, the answer to AUTH, the synchronisation and the read of a command; each
    can end with an error. *)
Definition awaits_master (p : Pc) : bool := match p with PDial | PAuth | PSync | PReading _ _ => true | _ => false end.

(** A step that waits for nobody, or for a channel that is closed. *)
Definition own_step (e : LifeEvent) : bool :=
  match e with EvLoop _ (GGo | GStop) | EvBeat _ (GGo | GStop) => true | _ => false end.

Definition enabled (e : LifeEvent) (l : ClientLife) : Prop := exists l', cl_step auth beat e l = Some (Ok l').

Lemma alone_enabled q e l : alone beat q l -> second_start e l = false -> is_Some (cl_step auth beat e l) -> enabled e l.
Proof.
  intros A Hs [o Ho]. pose proof (step_alone auth beat e q l A Hs) as Hm. rewrite Ho in Hm.
  destruct Hm as (l' & q' & -> & _). by exists l'.
Qed.

(** The heartbeat the loop waits for has its own way to the end. *)
Lemma beat_goes_on q j b l : alone beat q l -> unbeating q = true -> cl_beats l !! j = Some b ->
  exists e, own_step e = true /\ enabled e l.
Proof.
  intros A Hq Hj. destruct (beat_busy beat q l j b (a_beat _ _ _ A) Hj) as (ch & d & Hs & Hd & Hnd & Hld & Hbs & Hw & Hcl & Hgo & Hend).
  destruct (Hend Hq) as [Hc _].
  exists (EvBeat j (match b with BWait _ _ => GStop | _ => GGo end)). split; [by destruct b|].
  apply (alone_enabled q); [done..|]. cbn. rewrite Hj. cbn. destruct b; cbn; eauto.
  destruct Hw as [_ ->]. unfold is_closed. rewrite bool_decide_true by done. eauto.
Qed.

Lemma alone_loop q i p l : alone beat q l -> cl_loops l !! i = Some p -> q = Some p /\ cl_loops l = {[i := p]}.
Proof.
  intros A Hi. destruct q as [q|]; [|by rewrite (a_loops _ _ _ A), lookup_empty in Hi].
  destruct (a_loops _ _ _ A) as [i' Hi']. pose proof Hi as H. rewrite Hi' in H. by apply lookup_singleton_Some in H as [-> ->].
Qed.

Lemma stopped_goes_on q i p l : alone beat q l -> cl_stop l = true -> cl_loops l !! i = Some p ->
  if awaits_master p then forall err, enabled (EvLoop i (GErr err)) l else exists e, own_step e = true /\ enabled e l.
Proof.
  intros A Hs Hi. destruct (alone_loop q i p l A Hi) as [-> Hl].
  assert (Hgo : forall g, is_Some (loop_step auth beat i p g l) -> enabled (EvLoop i g) l).
  { intros g Hg. apply (alone_enabled (Some p)); [done..|]. cbn. by rewrite Hi. }
  pose proof (a_conn _ _ _ A) as Ho. pose proof (a_beat _ _ _ A) as Hb.
  destruct p; cbn [awaits_master]; try (intros err; apply Hgo; cbn; eauto; done).
  all: try (exists (EvLoop i GGo); split; [done|]; apply Hgo; cbn; solve [repeat case_match; eauto]).
  all: try (exists (EvLoop i GStop); split; [done|]; apply Hgo; cbn; rewrite Hs; by eauto).
  - exists (EvLoop i GGo). split; [done|]. apply Hgo. cbn. unfold stream_reset. cbn in Ho. destruct (cl_conn l); [|by eauto].
    rewrite Ho. rewrite bool_decide_true by set_solver. by eauto.
  - destruct Hb as [_ (ch & d & _ & -> & _ & _ & _ & [[(j & b & Hj & _) _]|[_ Hd]])].
    + apply (beat_goes_on _ j b l A); [done|]. by rewrite Hj, lookup_singleton_eq.
    + exists (EvLoop i GGo). split; [done|]. apply Hgo. cbn. rewrite bool_decide_true by done. by eauto.
Qed.

Lemma run_alone_run es : forall l o, run_alone auth beat es l = Some o -> cl_run auth beat es l = Some o.
Proof.
  induction es as [|e es IH]; intros l o H; cbn in *; [done|]. destruct (second_start e l); [done|].
  destruct (cl_step auth beat e l) as [[]|]; auto.
Qed.

Lemma rank_max p : (rank p <= 23)%nat.
Proof. destruct p; cbn; lia. Qed.

(** C13: once [Stop] has closed [stopChan], however the run goes on: the loop makes at
    most 23 more steps; and as long as it has not ended it waits for the master, in a
    dial, a synchronisation or a read, which can fail at any time, or some step of
    the loop or of its heartbeat that waits for nobody is there to take. *)
Theorem stop_ends_the_loop es es' l l' i :
  run_alone auth beat es new_client_life = Some (Ok l) -> cl_stop l = true -> is_Some (cl_loops l !! i) ->
  run_alone auth beat es' l = Some (Ok l') ->
  (steps_of i es' + rank_of i l' <= 23)%nat /\
  forall p, cl_loops l' !! i = Some p ->
    if awaits_master p then forall err, enabled (EvLoop i (GErr err)) l' else exists e, own_step e = true /\ enabled e l'.
Proof.
  intros H Hs [p Hi] H'. pose proof (run_numbered es _ _ (run_alone_run _ _ _ H)) as Hn.
  assert (Hn0 : numbered l) by (apply Hn; intros k; cbn; rewrite lookup_empty; by intros []).
  destruct (run_bound i es' l l' (run_alone_run _ _ _ H') Hs (Hn0 i (mk_is_Some _ _ Hi))) as [Hs' Hb].
  unfold rank_of at 2 in Hb. rewrite Hi in Hb. pose proof (rank_max p). split; [lia|].
  intros p' Hp'. destruct (run_is_alone _ _ es None _ _ (alone_start beat) H) as (l0 & q & [= <-] & A).
  destruct (run_is_alone _ _ es' q _ _ A H') as (l1 & q' & [= <-] & A').
  by eapply stopped_goes_on.
Qed.

End Stop.

(** ** Two loops *)

(** One step of a run. *)
Lemma run_cons a e es l l' o : cl_step a true e l = Some (Ok l') -> cl_run a true es l' = o ->
  cl_run a true (e :: es) l = o.
Proof. intros H <-. cbn. by rewrite H. Qed.
Lemma run_last a e l o : cl_step a true e l = Some o -> cl_run a true [e] l = Some o.
Proof. intros H. cbn. rewrite H. by destruct o. Qed.

Section Two.
  Context (auth : bool).

Definition loop_steps (i : nat) : list Given -> list LifeEvent := map (EvLoop i).

Definition to_claim : list Given := if auth then [GOk] else [].
(** From the claim of the synchronisation to the first read. *)
Definition to_read : list Given := [GGo; GOk; GGo; GGo; GGo; GGo; GGo].

(** Loop [i] waits for its dial and the manager calls [Start] again, which begins loop
    [j]. Both connect, synchronise and stream. *)
Definition second_begins (i j : nat) : list LifeEvent :=
  [EvStart; EvLoop j GGo; EvLoop i GConn; EvLoop j GConn; EvLoop i GGo; EvLoop j GGo] ++
  loop_steps i (to_claim ++ to_read) ++ loop_steps j (to_claim ++ to_read) ++ [EvLoop i GGo; EvLoop j GGo].

(** The master closes the connection. *)
Definition both_end (i j : nat) : list LifeEvent :=
  loop_steps i [GErr EOF; GGo; GGo] ++ loop_steps j [GErr EOF; GGo; GGo].

(** No goroutine will ever close connection [c]. *)
Definition forgotten (c : nat) (l : ClientLife) : Prop :=
  (c ∈ cl_opened l) /\ cl_conn l <> Some c /\ (c < cl_next l)%nat /\ forall i, cl_loops l !! i <> Some (PStore c).

Lemma forgotten_frame c l l' : cl_opened l' = cl_opened l -> cl_conn l' = cl_conn l ->
  (cl_next l <= cl_next l')%nat -> cl_loops l' = cl_loops l -> forgotten c l -> forgotten c l'.
Proof. intros Ho Hc Hn Hl (H1 & H2 & H3 & H4). split_and!; [by rewrite Ho|by rewrite Hc|lia|by rewrite Hl]. Qed.

Lemma forgotten_at_loop c i p l : p <> PStore c -> forgotten c l -> forgotten c (at_loop i p l).
Proof.
  intros Hp (H1 & H2 & H3 & H4). split_and!; cbn; [done..|]. intros k. rewrite lookup_insert_Some. naive_solver.
Qed.

Lemma forgotten_drop c l : forgotten c l -> forgotten c (drop_conn l).
Proof. intros (H1 & H2 & H3 & H4). split_and!; cbn; [|done..]. destruct (cl_conn l); [|done]. set_solver. Qed.

Lemma close_chan_frame ch l l' : close_chan ch l = Ok l' -> cl_opened l' = cl_opened l /\ cl_conn l' = cl_conn l /\
  cl_next l' = cl_next l /\ cl_loops l' = cl_loops l.
Proof. unfold close_chan. destruct ch; [|done]. case_bool_decide; [done|]. by intros [= <-]. Qed.

Lemma forgotten_close c ch l l' : close_chan ch l = Ok l' -> forgotten c l -> forgotten c l'.
Proof. intros (Ho & Hc & Hn & Hl)%close_chan_frame. apply forgotten_frame; [done..|lia|done]. Qed.

Lemma reset_forgets beat c i g l l' : stream_reset beat g i l = Some l' -> forgotten c l -> forgotten c l'.
Proof.
  unfold stream_reset. intros H F. destruct (cl_conn l) eqn:Ec, g; repeat case_bool_decide; simplify_eq;
    (apply forgotten_at_loop; [by destruct beat|]); (apply (forgotten_frame c l); cbn; try done; lia).
Qed.

Lemma loop_forgets beat c i p g l l' : cl_loops l !! i = Some p -> loop_step auth beat i p g l = Some (Ok l') ->
  forgotten c l -> forgotten c l'.
Proof.
  intros Hi H F. pose proof F as (H1 & H2 & H3 & H4).
  assert (Hf : forall q l1, q <> PStore c -> cl_opened l1 = cl_opened l -> cl_conn l1 = cl_conn l ->
    (cl_next l <= cl_next l1)%nat -> cl_loops l1 = cl_loops l -> forgotten c (at_loop i q l1)).
  { intros. apply forgotten_at_loop; [done|]. by apply (forgotten_frame c l). }
  assert (Hd : forall q, q <> PStore c -> forgotten c (at_loop i q (drop_conn l))).
  { intros. apply forgotten_at_loop; [done|]. by apply forgotten_drop. }
  destruct p; try (cbn [loop_step] in H; destruct (stream_reset _ _ _ _) eqn:E; [|done]; simplify_eq/=; by eapply reset_forgets).
  all: destruct g; cbn [loop_step] in H; try done; try (by destruct res).
  all: try (injection H as <-; first [apply Hd; done | apply Hf; cbn; try done; try lia; repeat case_match; done]).
  all: try (repeat case_match; simplify_eq; first [apply Hd; done | apply Hf; cbn; try done; lia]).
  1: { injection H as <-. split_and!; cbn; [set_solver|done|lia|]. intros k. rewrite lookup_insert_Some.
       intros [[_ [= Hk]]|[_ Hk]]; [lia|by apply (H4 k)]. }
  1: { injection H as <-. split_and!; cbn; [done|intros [= ->]; by apply (H4 i)|done|]. intros k.
       rewrite lookup_insert_Some. intros [[_ Hk]|[_ Hk]]; [by destruct auth|by apply (H4 k)]. }
  - injection H as <-. apply Hf; [|done..]. unfold read_error. by repeat case_match.
  - destruct (cl_heartbeatStop l); [|simplify_eq; by apply Hf].
    destruct (close_chan _ _) as [l1| | |] eqn:E; simplify_eq. apply forgotten_at_loop; [done|]. by eapply forgotten_close.
  - injection H as <-. split_and!; cbn; [done..|]. intros k. rewrite lookup_delete_Some. naive_solver.
Qed.

Lemma step_forgets beat c e l l' : cl_step auth beat e l = Some (Ok l') -> forgotten c l -> forgotten c l'.
Proof.
  intros H F. destruct e as [| |i g|j b|j s]; cbn [cl_step] in H.
  - injection H as <-. unfold begin_loop. destruct (cl_connected l); [done|].
    apply (forgotten_frame c (at_loop (cl_next l) PSelect l)); cbn; [done..|lia|done|]. by apply forgotten_at_loop.
  - injection H as <-. apply (forgotten_frame c l); cbn; [done..|lia|done|done].
  - destruct (cl_loops l !! i) as [p|] eqn:Ei; [|done]. by eapply loop_forgets.
  - destruct (cl_beats l !! j) as [[]|]; [..|done]; destruct b; cbn in H; try done; try by (injection H as <-; apply (forgotten_frame c l)).
    destruct (is_closed stop l); [|done]. injection H as H. eapply forgotten_close; [exact H|]. by apply (forgotten_frame c l).
  - destruct (cl_stops l !! j) as [[]|]; [..|done]; destruct s; cbn in H; try done; repeat case_match; simplify_eq;
      try by apply (forgotten_frame c l). eapply (forgotten_frame c (drop_conn l)); [done..|]. by apply forgotten_drop.
Qed.

Lemma run_forgets beat c es : forall l l', cl_run auth beat es l = Some (Ok l') -> forgotten c l -> forgotten c l'.
Proof.
  induction es as [|e es IH]; intros l l' H F; cbn in H; [by simplify_eq|].
  destruct (cl_step auth beat e l) as [[l1| | |]|] eqn:E; try (by case_bool_decide; simplify_eq).
  eapply IH; [exact H|]. by eapply step_forgets.
Qed.

(** *** The run of both loops *)

(** Loop [i] at [p], loop [j] at [q], nobody else. *)
Definition pair (i j : nat) (p q : Pc) : gmap nat Pc := <[j := q]> {[i := p]}.

Section Pair.
  Context (i j : nat) (Hne : i <> j).

Lemma pair_fst p q : pair i j p q !! i = Some p.
Proof. unfold pair. by rewrite lookup_insert_ne, lookup_singleton_eq. Qed.
Lemma pair_snd p q : pair i j p q !! j = Some q.
Proof. apply lookup_insert_eq. Qed.
Lemma pair_set_fst p p' q : <[i := p']> (pair i j p q) = pair i j p' q.
Proof. unfold pair. by rewrite insert_insert_ne, insert_singleton_eq. Qed.
Lemma pair_set_snd p q q' : <[j := q']> (pair i j p q) = pair i j p q'.
Proof. apply insert_insert_eq. Qed.

End Pair.

#[local] Arguments cl_run : simpl never.

Ltac pair_simpl :=
  repeat (cbn; unfold at_loop, at_beat, bump, set_conn, set_sync, set_channels, set_goroutines; cbn; first [rewrite pair_set_fst by done | rewrite pair_set_snd by done | rewrite pair_fst by done |
    rewrite pair_snd by done | rewrite bool_decide_true by set_solver]); cbn.

Ltac pair_step := eapply run_cons; [pair_simpl; reflexivity|pair_simpl].

(** A client with one loop, which waits for its dial. *)
Definition dialing (i : nat) (reader : option nat) (stopped done : bool) (hs hd : option nat) (closed : gset nat)
    (next : nat) (stops : gmap nat Stopper) : ClientLife :=
  mkCL None reader false false stopped false done hs hd ∅ closed next {[i := PDial]} ∅ stops.

(** The same client once two loops stream from the second of their connections. *)
Definition streaming_both (i j : nat) (stopped done : bool) (closed : gset nat) (stops : gmap nat Stopper) : ClientLife :=
  mkCL (Some (2 + j)%nat) (Some (2 + j)%nat) true false stopped false done (Some (6 + j)%nat) (Some (7 + j)%nat)
    ({[(2 + j)%nat]} ∪ ({[(1 + j)%nat]} ∪ ∅)) closed (9 + j)
    (pair i j (PReading 0 (Some (2 + j)%nat)) (PReading 0 (Some (2 + j)%nat)))
    (<[(8 + j)%nat := BNew]> (<[(5 + j)%nat := BNew]> ∅)) stops.

Lemma second_begins_run i reader stopped done hs hd closed next stops : i <> next ->
  cl_run auth true (second_begins i next) (dialing i reader stopped done hs hd closed next stops) =
    Some (Ok (streaming_both i next stopped done closed stops)).
Proof.
  intros Hne. unfold second_begins, dialing, to_claim, to_read.
  eapply (run_cons auth _ _ _ (mkCL None reader false false stopped false done hs hd ∅ closed (S next)
    (pair i next PDial PSelect) ∅ stops)); [reflexivity|].
  destruct auth; cbn [loop_steps map app].
  - repeat pair_step. reflexivity.
  - repeat pair_step. reflexivity.
Qed.

Lemma both_end_run i j stopped done closed stops : i <> j -> (6 + j)%nat ∉ closed ->
  cl_run auth true (both_end i j) (streaming_both i j stopped done closed stops) = Some (Panic closed_panic).
Proof.
  intros Hne Hcl. unfold both_end, streaming_both. cbn [loop_steps map app].
  do 2 pair_step. eapply run_cons.
  { pair_simpl. rewrite bool_decide_false by done. reflexivity. }
  do 2 pair_step. eapply run_last. pair_simpl. reflexivity.
Qed.

(** C14: nothing keeps [Start] from starting a second [run] while the first is not
    connected, in spite of the comment that it does. Whatever a client with a heartbeat
    has done with one [run] at a time, when that loop waits for its dial, nobody has
    asked it to stop and [Start] is called again, as a retry of the manager does, the
    run can go on so that both loops read
    from one connection, while the other connection stays open for good, whatever
    happens from then on; and when the master closes the connection the second
    [stopHeartbeat] can close the channel the first has closed, which ends the process. *)
Theorem two_loops_crash es l i :
  run_alone auth true es new_client_life = Some (Ok l) -> cl_loops l !! i = Some PDial -> cl_stop l = false ->
  exists es1 l1 j c c', cl_run auth true (EvStart :: es1) l = Some (Ok l1) /\ i <> j /\ c' <> c /\
    cl_loops l1 !! i = Some (PReading 0 (Some c)) /\ cl_loops l1 !! j = Some (PReading 0 (Some c)) /\
    (forall es2 l2, cl_run auth true es2 l1 = Some (Ok l2) -> c' ∈ cl_opened l2) /\
    exists es3, cl_run auth true es3 l1 = Some (Panic closed_panic).
Proof.
  intros H Hi Hs. destruct (run_is_alone _ _ es None _ _ (alone_start true) H) as (l0 & q & [= <-] & A).
  pose proof (run_numbered auth true es _ _ (run_alone_run _ _ _ _ _ H)) as Hn.
  assert (Hlt : (i < cl_next l)%nat) by (apply Hn; [intros k; cbn; rewrite lookup_empty; by intros []|by eexists]).
  destruct (alone_loop _ _ _ _ _ A Hi) as [-> Hl].
  destruct (a_beat _ _ _ A) as [Hb _]. destruct (a_conn _ _ _ A) as [Hc Ho].
  pose proof (a_connected _ _ _ A) as Hcd. rewrite Hc in Hcd. pose proof (a_sync _ _ _ A) as Hsy. pose proof (a_fresh _ _ _ A) as Hf.
  set (n := cl_next l) in *.
  assert (El : l = dialing i (cl_reader l) (cl_stopped l) (cl_done l) (cl_heartbeatStop l) (cl_heartbeatDone l) (cl_closed l) n (cl_stops l)).
  { destruct l; cbn in *. unfold dialing. rewrite Hb, Hc, Ho, Hcd, Hsy, Hl, Hs. done. }
  exists (tail (second_begins i n)), (streaming_both i n (cl_stopped l) (cl_done l) (cl_closed l) (cl_stops l)), n, (2 + n)%nat, (1 + n)%nat.
  assert (Hne : i <> n) by lia. split_and!; [|done|lia|cbn; by rewrite pair_fst|cbn; by rewrite pair_snd| |].
  - transitivity (cl_run auth true (second_begins i n) (dialing i (cl_reader l) (cl_stopped l) (cl_done l)
      (cl_heartbeatStop l) (cl_heartbeatDone l) (cl_closed l) n (cl_stops l))); [by f_equal|by apply second_begins_run].
  - intros es2 l2 H2. eapply (run_forgets true (1 + n)); [exact H2|]. split_and!; cbn; [set_solver|intros [=]; lia|lia|].
    intros k. unfold pair. rewrite lookup_insert_Some, lookup_singleton_Some. naive_solver.
  - exists (both_end i n). apply both_end_run; [done|]. intros Hin%Hf. lia.
Qed.
End Two.

(** The manager's first attempt has given up on a dial that takes its time. *)
Definition slow_dial : list LifeEvent := [EvStart; EvLoop 0 GGo].

Lemma two_loops_crash_witness : exists l, run_alone false true slow_dial new_client_life = Some (Ok l) /\
  exists es1 l1 j c c', cl_run false true (EvStart :: es1) l = Some (Ok l1) /\ 0%nat <> j /\ c' <> c /\
    cl_loops l1 !! 0%nat = Some (PReading 0 (Some c)) /\ cl_loops l1 !! j = Some (PReading 0 (Some c)) /\
    (forall es2 l2, cl_run false true es2 l1 = Some (Ok l2) -> c' ∈ cl_opened l2) /\
    exists es3, cl_run false true es3 l1 = Some (Panic closed_panic).
Proof.
  eexists. split; [vm_compute; reflexivity|].
  eapply (two_loops_crash false slow_dial); [vm_compute; reflexivity|reflexivity|reflexivity].
Defined.

Lemma stop_ends_the_loop_witness : exists l l',
  run_alone false true (stream_start ++ stream_stop) new_client_life = Some (Ok l) /\
  run_alone false true stream_end l = Some (Ok l') /\ (steps_of 0 stream_end + rank_of 0 l' <= 23)%nat.
Proof.
  eexists _, _. split; [vm_compute; reflexivity|]. split; [vm_compute; reflexivity|].
  eapply (stop_ends_the_loop false true (stream_start ++ stream_stop) stream_end);
    [vm_compute; reflexivity|reflexivity|eexists; reflexivity|vm_compute; reflexivity].
Defined.
