(* ===== verification/Sync.v ===== *)
(** * The synchronisation manager (replication/sync.go)

    A manager wraps a client: it retries its start, keeps other managers from
    starting on the same master meanwhile, and turns the client's callback into
    [initialSyncDone] and the callbacks of its own users. Waiting for the first
    synchronisation is in SyncWait. *)

From Stdlib Require Import ZArith Lia String.
From stdpp Require Import base list list_numbers gmap.
From S2P Require Import Prelude GoLib StorageTypes StoreSpec StorageIface Client ClientRun.

(** ** The coordinator of all managers *)

(** [type syncCoordinator struct]: the masters a manager is starting on. *)
Definition syncCoordinator : Type := gset bytes.

Definition tryAcquire (masterAddr : bytes) (sc : syncCoordinator) : bool * syncCoordinator :=
  if bool_decide (masterAddr ∈ sc) then (false, sc) else (true, {[masterAddr]} ∪ sc).

Definition release (masterAddr : bytes) (sc : syncCoordinator) : syncCoordinator := sc ∖ {[masterAddr]}.

(** ** The manager *)

(** [type SyncManager struct]. A callback is a handle; [sm_fired] is the log of the
    manager's callbacks, called or started in a goroutine. *)
Record SyncManager (St : Type) : Type := mkManager {
  sm_client : Client St;
  initialSyncDone : bool;
  syncCallbacks : list nat;
  sm_fired : list nat;
  starting : bool;
  maxRetries : nat;
  retryDelay : Z
}.
Arguments mkManager {St}.
Arguments sm_client {St} s : rename.
Arguments initialSyncDone {St} s : rename.
Arguments syncCallbacks {St} s : rename.
Arguments sm_fired {St} s : rename.
Arguments starting {St} s : rename.
Arguments maxRetries {St} s : rename.
Arguments retryDelay {St} s : rename.

(** [type SyncStatus struct] *)
Record SyncStatus : Type := mkSyncStatus {
  ss_InitialSyncCompleted : bool;
  ss_InitialSyncProgress : float64;
  ss_Connected : bool;
  MasterHost : bytes;
  ss_ReplicationOffset : Z;
  ss_LastSyncTime : Z;
  ss_BytesReceived : Z;
  ss_CommandsProcessed : Z
}.

Section SyncManager.
  Context {St : Type} `{StorageOps St} `{GoUnicode} `{ClientEnv} `{Network}.

Definition set_client (c : Client St) (s : SyncManager St) : SyncManager St :=
  mkManager c (initialSyncDone s) (syncCallbacks s) (sm_fired s) (starting s) (maxRetries s) (retryDelay s).
Definition set_starting (b : bool) (s : SyncManager St) : SyncManager St :=
  mkManager (sm_client s) (initialSyncDone s) (syncCallbacks s) (sm_fired s) b (maxRetries s) (retryDelay s).
Definition set_sync (done : bool) (callbacks fired : list nat) (s : SyncManager St) : SyncManager St :=
  mkManager (sm_client s) done callbacks fired (starting s) (maxRetries s) (retryDelay s).

Definition NewSyncManager (masterAddr : bytes) (stor : St) : SyncManager St :=
  mkManager (NewClient masterAddr stor) false [] [] false 5 Second.

(** ** Configuration *)

Definition on_client (m : M (Client St) unit) (s : SyncManager St) : outcome unit * SyncManager St :=
  let '(o, c) := m (sm_client s) in (o, set_client c s).

Definition SM_SetAuth (password : bytes) := on_client (SetAuth password).
Definition SM_SetSyncTimeout (timeout : Z) := on_client (SetSyncTimeout timeout).
Definition SM_SetConnectTimeout (timeout : Z) := on_client (SetConnectTimeout timeout).
Definition SM_SetReadTimeout (timeout : Z) := on_client (SetReadTimeout timeout).
Definition SM_SetWriteTimeout (timeout : Z) := on_client (SetWriteTimeout timeout).
Definition SM_SetCommandFilters (commands : list bytes) := on_client (SetCommandFilters commands).
Definition SM_SetDatabases (dbs : list Z) := on_client (SetDatabases dbs).
Definition SM_SetHeartbeatInterval (interval : Z) := on_client (SetHeartbeatInterval interval).

(** ** Completion of a synchronisation *)

(** The handle of the closure [Start] registers with the client. *)
Definition sync_done_callback : nat := 0.

(** That closure. *)
Definition sync_done (s : SyncManager St) : SyncManager St :=
  set_sync true (syncCallbacks s) (sm_fired s ++ syncCallbacks s) s.

(** The client has finished a synchronisation and calls [callbacks]. *)
Definition run_callbacks (callbacks : list nat) (s : SyncManager St) : SyncManager St :=
  foldl (fun s fn => if (fn =? sync_done_callback)%nat then sync_done s else s) s callbacks.

(** The client's [performSync], with the manager's part of its callbacks. *)
Definition manager_sync (now : Z) (s : SyncManager St) : outcome unit * SyncManager St :=
  let '(o, c) := performSync now (sm_client s) in
  (o, run_callbacks (drop (length (fired (sm_client s))) (fired c)) (set_client c s)).

Definition OnSyncComplete (fn : nat) (s : SyncManager St) : SyncManager St :=
  if initialSyncDone s then set_sync true (syncCallbacks s) (sm_fired s ++ [fn]) s
  else set_sync (initialSyncDone s) (syncCallbacks s ++ [fn]) (sm_fired s) s.

(** ** Start and Stop *)

(** One attempt: what the client's [Start] sees, and the error of the context if
    it ends before the delay to the next attempt. *)
Record Attempt : Type := mkAttempt { seen : list StartEvent; cut : option error }.

Definition start_client (events : list StartEvent) (s : SyncManager St)
    : option (outcome unit) * SyncManager St :=
  let '(o, c) := Start events (sm_client s) in (o, set_client c s).

(** Attempts [i], [i+1], ... of [maxRetries]; [None]: still waiting. *)
Fixpoint start_attempts (i : nat) (attempts : list Attempt) (lastErr : error) (s : SyncManager St)
    : option (outcome unit) * SyncManager St :=
  if (maxRetries s <=? i)%nat then
    (Some (Err (Errorf (bs "failed to start sync after " ++ FormatInt (Z.of_nat (maxRetries s)) ++
                        bs " retries: " ++ Error lastErr))), s)
  else
    match attempts with
    | [] => (None, s)
    | a :: attempts' =>
        let '(o, s') := start_client (seen a) s in
        match o with
        | Some (Err err) =>
            if (i <? maxRetries s - 1)%nat then
              match cut a with
              | None => start_attempts (S i) attempts' err s'
              | Some ctxErr => (Some (Err ctxErr), s')
              end
            else start_attempts (S i) attempts' err s'
        | _ => (o, s')
        end
    end.

(** With a context that is alive at the call. A caller that finds another start
    going on, of this manager or on this master, returns without an error. *)
Definition SM_Start (attempts : list Attempt) (sc : syncCoordinator) (s : SyncManager St)
    : option (outcome unit) * syncCoordinator * SyncManager St :=
  if starting s then (Some (Ok tt), sc, s)
  else
    let s := set_starting true s in
    let masterAddr := masterAddr (sm_client s) in
    let '(acquired, sc') := tryAcquire masterAddr sc in
    if acquired then
      let c := sm_client s in
      let s := set_client (set_callbacks (onSyncComplete c ++ [sync_done_callback]) (fired c) c) s in
      match start_attempts 0 attempts EOF s with
      | (None, s') => (None, sc', s')
      | (Some o, s') => (Some o, release masterAddr sc', set_starting false s')
      end
    else (Some (Ok tt), sc', set_starting false s).

Definition SM_Stop (in_time : bool) : SyncManager St -> outcome unit * SyncManager St := on_client (Stop in_time).

(** ** Status *)

Definition SM_SyncStatus (s : SyncManager St) : SyncStatus :=
  let st := Stats (sm_client s) in
  mkSyncStatus (initialSyncDone s) (InitialSyncProgress st) (st_Connected st) (st_MasterAddr st)
    (ReplicationOffset st) (LastSyncTime st) (BytesReceived st) (CommandsProcessed st).

Definition IsInitialSyncCompleted (s : SyncManager St) : bool := initialSyncDone s.

Definition IsConnected (s : SyncManager St) : bool := st_Connected (Stats (sm_client s)).

End SyncManager.
