(* ===== verification/SyncSpec.v ===== *)
(** * What the synchronisation manager guarantees *)

From Stdlib Require Import ZArith Lia String.
From stdpp Require Import base list list_numbers gmap.
From S2P Require Import Prelude GoLib RespTypes RespWriter RespReader RespProofs StorageTypes Memory MemoryInv.
From S2P Require Import Lzf Rdb RdbFormat RdbProofs RdbSpec StoreSpec StorageIface StorageSpec RdbLoad RdbLoadSpec.
From S2P Require Import Client ClientProofs ClientSpec ClientRun ClientRunSpec Sync.

Section Proofs.
  Context {St : Type} `{Laws : StorageLaws St} {U : GoUnicode} {Env : ClientEnv} {Net : Network}.

Implicit Types (s : SyncManager St) (c : Client St) (sc : syncCoordinator).

(** ** Attempts *)

(** An attempt that fails, and whose delay passes. *)
Definition fails (timeout : Z) (a : Attempt) : Prop :=
  cut a = None /\ exists e, start_wait timeout (seen a) = Some (Err e).

Definition start_timeout c : Z := if syncTimeout c =? 0 then 30 * Second else syncTimeout c.

Definition ran (n : nat) s : SyncManager St :=
  set_client (set_runs (runs (sm_client s) + n) (sm_client s)) s.

Lemma ran_0 s : ran 0 s = s.
Proof. unfold ran. rewrite Nat.add_0_r. destruct s as [c d cb f st m r]. cbn. by destruct c. Qed.

Lemma ran_ran m n s : ran n (ran m s) = ran (m + n) s.
Proof. unfold ran. cbn. by rewrite Nat.add_assoc. Qed.

Lemma start_client_waits events s : connected (sm_client s) = false ->
  start_client events s = (start_wait (start_timeout (sm_client s)) events, ran 1 s).
Proof. intros Hc. unfold start_client, Start, ran. rewrite Hc, Nat.add_1_r. done. Qed.

(** Attempts that fail leave their goroutines behind. *)
Lemma start_attempts_fail l : forall i rest lastErr s, connected (sm_client s) = false ->
  Forall (fails (start_timeout (sm_client s))) l -> (i + length l <= maxRetries s)%nat ->
  exists err, start_attempts i (l ++ rest) lastErr s =
    start_attempts (i + length l) rest err (ran (length l) s).
Proof.
  induction l as [|a l IH]; intros i rest lastErr s Hc Hl Hi.
  { exists lastErr. cbn [app length]. by rewrite Nat.add_0_r, ran_0. }
  apply Forall_cons in Hl as [(Hcut & e & He) Hl]. cbn [app length] in *. cbn [start_attempts].
  rewrite (proj2 (Nat.leb_gt _ _)) by lia. rewrite start_client_waits, He, Hcut by done.
  destruct (IH (S i) rest e (ran 1 s)) as (err & E); [done|done|cbn; lia|].
  exists err. rewrite ran_ran in E. rewrite Nat.add_succ_r. destruct (i <? _)%nat; exact E.
Qed.

Lemma start_attempts_frame l : forall i lastErr s o s', start_attempts i l lastErr s = (o, s') ->
  exists c', s' = set_client c' s.
Proof.
  induction l as [|a l IH]; intros i lastErr s o s'; cbn [start_attempts].
  - destruct (_ <=? _)%nat; intros [= <- <-]; exists (sm_client s); by destruct s.
  - destruct (_ <=? _)%nat; [intros [= <- <-]; exists (sm_client s); by destruct s|].
    unfold start_client. destruct (Start _ _) as [o1 c1].
    assert (Hgo : forall e, start_attempts (S i) l e (set_client c1 s) = (o, s') -> exists c', s' = set_client c' s).
    { intros e E. destruct (IH _ _ _ _ _ E) as (c' & ->). by exists c'. }
    destruct o1 as [[u|e|p|]|]; try (intros [= <- <-]; by exists c1).
    destruct (_ <? _)%nat; [destruct (cut a); [intros [= <- <-]; by exists c1|]|]; apply Hgo.
Qed.

(** ** Callbacks *)

(** How often the manager's closure is among the client's callbacks. *)
Definition registrations c : nat := length (filter (fun fn => fn = sync_done_callback) (onSyncComplete c)).

Definition synced (n : nat) s : SyncManager St :=
  set_sync (initialSyncDone s || (0 <? n)%nat) (syncCallbacks s)
    (sm_fired s ++ concat (replicate n (syncCallbacks s))) s.

Lemma synced_0 s : synced 0 s = s.
Proof. unfold synced. cbn. rewrite orb_false_r, app_nil_r. by destruct s. Qed.

Lemma run_callbacks_eq l : forall s,
  run_callbacks l s = synced (length (filter (fun fn => fn = sync_done_callback) l)) s.
Proof.
  induction l as [|fn l IH]; intros s; [by rewrite synced_0|]. cbn [run_callbacks foldl].
  fold (run_callbacks l (if (fn =? sync_done_callback)%nat then sync_done s else s)). rewrite IH, filter_cons.
  destruct (Nat.eqb_spec fn sync_done_callback) as [->|Hne]; [|by rewrite decide_False].
  rewrite decide_True by done. unfold synced, sync_done. cbn [length replicate concat initialSyncDone set_sync
    syncCallbacks sm_fired]. rewrite orb_true_r, <- app_assoc. reflexivity.
Qed.

Lemma manager_sync_ok now s id offset version items trailer rest e b sent :
  let c := sm_client s in
  st_wf (c_storage c) -> unlimited (st_abs (c_storage c)) -> 0 <= version <= 12 -> Forall readable_ritem items ->
  Forall (loadable (databases c)) items ->
  Z.of_nat (length (encode_file version items trailer)) <= maxBulkSize ->
  is_word id -> in_int64 offset -> syncing c = false -> c_writer c = mkWriter b sent None ->
  c_reader c = mkReader (encode (SimpleStringValue (fullresync_line id offset)) ++
    rdb_transfer (encode_file version items trailer) ++ rest) e ->
  exists c', manager_sync now s = (Ok tt, synced (registrations c) (set_client c' s)) /\ st_wf (c_storage c') /\
    st_abs (c_storage c') = (foldl (load_item now (databases c)) (st_abs (c_storage c), 0) items).1.
Proof.
  intros c Hs Hu Hv Hwf Hl Hlen Hid Hoff Hsync Hw Hr.
  destruct (performSync_ok now id offset version items trailer rest e b sent c Hs Hu Hv Hwf Hl Hlen Hid Hoff
    Hsync Hw Hr) as (st' & E & Hs' & Ha). unfold manager_sync. fold c. rewrite E.
  set (c' := sync_finished _ _). exists c'. split; [|done]. change (fired c') with (fired c ++ onSyncComplete c).
  rewrite drop_app_length, run_callbacks_eq. done.
Qed.

(** ** Claims *)

(** The manager's [Start] takes its marks back: when it returns, whatever the
    attempts saw, the manager is not starting and the coordinator holds the same
    masters as before; while it waits, the coordinator holds its master. *)
Theorem start_restores_coordinator attempts sc s : starting s = false ->
  let '(o, sc', s') := SM_Start attempts sc s in
  match o with
  | Some _ => sc' = sc /\ starting s' = false
  | None => sc' = {[masterAddr (sm_client s)]} ∪ sc /\ starting s' = true /\ masterAddr (sm_client s) ∉ sc
  end.
Proof.
  intros Hs. unfold SM_Start, tryAcquire, release. rewrite Hs.
  case_bool_decide as Hin; [done|].
  set (s1 := set_client _ _). destruct (start_attempts 0 attempts EOF s1) as [o s'] eqn:E.
  destruct (start_attempts_frame _ _ _ _ _ _ E) as (c' & ->). destruct o; [|done].
  split; [|done]. cbn [masterAddr sm_client set_client set_starting]. set_solver.
Qed.

(** While one manager is starting on a master, the start of another one on it
    returns at once, without an error and without having started anything. *)
Theorem second_start_is_skipped attempts attempts' sc sc1 s1 s1' s2 : starting s1 = false -> starting s2 = false ->
  masterAddr (sm_client s1) = masterAddr (sm_client s2) -> SM_Start attempts sc s1 = (None, sc1, s1') ->
  SM_Start attempts' sc1 s2 = (Some (Ok tt), sc1, s2).
Proof.
  intros H1 H2 Ha E. pose proof (start_restores_coordinator attempts sc s1 H1) as H'. rewrite E in H'.
  destruct H' as (-> & _ & _). unfold SM_Start, tryAcquire. rewrite H2. cbn [masterAddr sm_client set_starting].
  rewrite bool_decide_true by set_solver. f_equal. destruct s2. cbn in *. by subst.
Qed.

(** [Start] makes at most [maxRetries] attempts: it succeeds with the first one
    that does and fails after that many failures. Every attempt starts another
    goroutine on the client's loop, and those of failed attempts go on. *)
Theorem start_retries l a rest sc s : starting s = false -> masterAddr (sm_client s) ∉ sc ->
  connected (sm_client s) = false -> Forall (fails (start_timeout (sm_client s))) l ->
  start_wait (start_timeout (sm_client s)) (seen a) = Some (Ok tt) ->
  let '(o, _, s') := SM_Start (l ++ a :: rest) sc s in
  ((length l < maxRetries s)%nat -> o = Some (Ok tt) /\ runs (sm_client s') = (runs (sm_client s) + length l + 1)%nat) /\
  (length l = maxRetries s -> (exists e, o = Some (Err e)) /\
    runs (sm_client s') = (runs (sm_client s) + length l)%nat).
Proof.
  intros Hs Hin Hc Hl Ha. unfold SM_Start, tryAcquire. rewrite Hs, bool_decide_false by exact Hin.
  set (s1 := set_client _ _).
  destruct (decide (length l <= maxRetries s)%nat) as [Hle|Hgt].
  2: { destruct (start_attempts _ _ _ _) as [[o|] s']; cbn; split; lia. }
  destruct (start_attempts_fail l 0 (a :: rest) EOF s1 Hc Hl Hle) as (err & E). rewrite E. cbn [Nat.add start_attempts].
  change (maxRetries (ran (length l) s1)) with (maxRetries s). destruct (Nat.leb_spec (maxRetries s) (length l)) as [H1|H1].
  - split; [lia|]. intros _. split; [by eexists|done].
  - rewrite start_client_waits by exact Hc. change (start_timeout _) with (start_timeout (sm_client s)). rewrite Ha.
    split; [|lia]. intros _. split; [done|]. cbn. lia.
Qed.

(** A full synchronisation of the client completes the manager's: the flag is
    set and every callback registered so far, those of waiting goroutines among
    them, is called once per start of the manager, in order; the storage holds
    the file. *)
Theorem sync_completes_manager now s id offset version items trailer rest e b sent :
  let c := sm_client s in
  st_wf (c_storage c) -> unlimited (st_abs (c_storage c)) -> 0 <= version <= 12 -> Forall readable_ritem items ->
  Forall (loadable (databases c)) items ->
  Z.of_nat (length (encode_file version items trailer)) <= maxBulkSize ->
  is_word id -> in_int64 offset -> syncing c = false -> c_writer c = mkWriter b sent None ->
  c_reader c = mkReader (encode (SimpleStringValue (fullresync_line id offset)) ++
    rdb_transfer (encode_file version items trailer) ++ rest) e -> (0 < registrations c)%nat ->
  exists s', manager_sync now s = (Ok tt, s') /\ initialSyncDone s' = true /\
    sm_fired s' = sm_fired s ++ concat (replicate (registrations c) (syncCallbacks s)) /\
    (forall fn, fn ∈ syncCallbacks s -> fn ∈ sm_fired s') /\
    st_abs (c_storage (sm_client s')) = (foldl (load_item now (databases c)) (st_abs (c_storage c), 0) items).1.
Proof.
  intros c Hs Hu Hv Hwf Hl Hlen Hid Hoff Hsync Hw Hr Hreg.
  destruct (manager_sync_ok now s id offset version items trailer rest e b sent) as (c' & E & _ & Ha); try done.
  fold c in E, Ha. rewrite E. eexists. split; [reflexivity|]. set (n := registrations c) in *.
  split; [unfold synced; cbn; destruct n; [lia|]; by rewrite orb_true_r|]. split; [done|]. split; [|exact Ha].
  intros fn Hfn. unfold synced. cbn. apply elem_of_app. right.
  destruct n as [|n]; [lia|]. cbn. apply elem_of_app. by left.
Qed.

End Proofs.

(** ** Witnesses *)

#[local] Existing Instance sample_hash.
#[local] Existing Instance sample_runtime.

Definition sample_manager : SyncManager MemoryStorage := NewSyncManager (bs "master:6379") sample_storage.

(** A manager that was started twice and has two users, in front of a master. *)
Definition synced_manager : SyncManager MemoryStorage :=
  set_sync false [11; 12]%nat [] (set_client (set_callbacks [0; 4; 0]%nat [] sample_replica) sample_manager).

Definition dead_attempt : Attempt := mkAttempt [Tick false Second; RunDone] None.
Definition good_attempt : Attempt := mkAttempt [Tick false Second; Tick true (2 * Second)] None.

Lemma start_restores_coordinator_witness :
  let '(o, sc', s') := SM_Start [dead_attempt; good_attempt] {[bs "other:6379"]} sample_manager in
  match o with
  | Some _ => sc' = {[bs "other:6379"]} /\ starting s' = false
  | None => sc' = {[masterAddr (sm_client sample_manager)]} ∪ {[bs "other:6379"]} /\ starting s' = true /\
      masterAddr (sm_client sample_manager) ∉ ({[bs "other:6379"]} : syncCoordinator)
  end.
Proof. by apply (start_restores_coordinator [dead_attempt; good_attempt] {[bs "other:6379"]} sample_manager). Defined.

Lemma second_start_is_skipped_witness :
  SM_Start [good_attempt] (SM_Start [dead_attempt] ∅ sample_manager).1.2 sample_manager =
    (Some (Ok tt), (SM_Start [dead_attempt] ∅ sample_manager).1.2, sample_manager).
Proof.
  by apply (second_start_is_skipped [dead_attempt] [good_attempt] ∅ (SM_Start [dead_attempt] ∅ sample_manager).1.2
    sample_manager (SM_Start [dead_attempt] ∅ sample_manager).2 sample_manager).
Defined.

Lemma start_retries_witness :
  let '(o, _, s') := SM_Start (replicate 3 dead_attempt ++ good_attempt :: []) ∅ sample_manager in
  ((3 < 5)%nat -> o = Some (Ok tt) /\ runs (sm_client s') = 4%nat) /\
  (3%nat = 5%nat -> (exists e, o = Some (Err e)) /\ runs (sm_client s') = 3%nat).
Proof.
  apply (start_retries (replicate 3 dead_attempt) good_attempt [] ∅ sample_manager); [done|set_solver|done| |done].
  apply Forall_replicate. split; [done|by eexists].
Defined.

Lemma sync_completes_manager_witness : exists s', manager_sync 7 synced_manager = (Ok tt, s') /\
  initialSyncDone s' = true /\ sm_fired s' = [] ++ concat (replicate 2 [11; 12]%nat) /\
  (forall fn, fn ∈ [11; 12]%nat -> fn ∈ sm_fired s') /\
  abstract (c_storage (sm_client s')) = (foldl (load_item 7 {[0]}) (abstract sample_storage, 0) sample_file).1.
Proof.
  apply (sync_completes_manager (Laws := memory_laws) 7 synced_manager (bs "8a3f") 1234 11 sample_file
    (bs "checksum") (bs "*1") EOF [] []); [apply sample_storage_wf|apply sample_storage_unlimited|lia|
    apply sample_file_readable|apply sample_file_loadable|apply sample_file_size; lia|done|
    by vm_compute|done|done|done|vm_compute; lia].
Defined.
