(* ===== verification/SyncWait.v ===== *)
(** * Waiting for the first synchronisation (replication/sync.go)

    [WaitForSync] looks at the flag in one critical section and registers its
    callback in another; a synchronisation that completes sets the flag and copies
    the callbacks in one critical section and calls the copies afterwards. Here the
    goroutines of one manager that do so are an executable transition system, so that
    they interleave between any two of these actions. What the manager does
    otherwise is in Sync. *)

From Stdlib Require Import ZArith Lia String.
From stdpp Require Import base list gmap sets.
From S2P Require Import Prelude GoLib.

(** ** State *)

(** Where a caller of [WaitForSync] is: at the call, between the two critical
    sections, in the select, back with its result. *)
Inductive Waiter : Type :=
| WEnter
| WRegister
| WSelect
| WBack (res : option error).

(** A registered callback: the closure of a waiter, which closes its channel once, or
    a function of a user. *)
Inductive Callback : Type :=
| CWaiter (i : nat)
| CUser (fn : nat).

#[global] Instance Callback_eq_dec : EqDecision Callback.
Proof. solve_decision. Defined.

(** [sw_closed]: the waiters whose [syncDone] is closed; [sw_ended]: those whose
    context is done, with its error; [sw_notify]: the completions past their critical
    section, with the callbacks they have still to call; [sw_called]: the users'
    functions called. Waiters and completions share their numbering. *)
Record SyncWait : Type := mkSyncWait {
  sw_done : bool;
  sw_callbacks : list Callback;
  sw_closed : gset nat;
  sw_ended : gmap nat error;
  sw_waiters : gmap nat Waiter;
  sw_notify : gmap nat (list Callback);
  sw_called : list nat;
  sw_next : nat
}.

Definition new_sync_wait : SyncWait := mkSyncWait false [] ∅ ∅ ∅ ∅ [] 0.

Definition at_waiter (i : nat) (w : Waiter) (s : SyncWait) : SyncWait :=
  mkSyncWait (sw_done s) (sw_callbacks s) (sw_closed s) (sw_ended s) (<[i := w]> (sw_waiters s)) (sw_notify s)
    (sw_called s) (sw_next s).
Definition add_callback (c : Callback) (s : SyncWait) : SyncWait :=
  mkSyncWait (sw_done s) (sw_callbacks s ++ [c]) (sw_closed s) (sw_ended s) (sw_waiters s) (sw_notify s)
    (sw_called s) (sw_next s).
Definition next_number (s : SyncWait) : SyncWait :=
  mkSyncWait (sw_done s) (sw_callbacks s) (sw_closed s) (sw_ended s) (sw_waiters s) (sw_notify s) (sw_called s)
    (S (sw_next s)).
Definition end_context (i : nat) (err : error) (s : SyncWait) : SyncWait :=
  mkSyncWait (sw_done s) (sw_callbacks s) (sw_closed s) (<[i := err]> (sw_ended s)) (sw_waiters s) (sw_notify s)
    (sw_called s) (sw_next s).

(** ** Steps *)

(** Which case of the select a waiter takes; [Run] where there is none. *)
Inductive Case : Type := Run | SyncDone | CtxDone.

(** [WaitForSync] *)
Definition wait_step (i : nat) (w : Waiter) (c : Case) (s : SyncWait) : option SyncWait :=
  match w, c with
  | WEnter, Run => Some (at_waiter i (if sw_done s then WBack None else WRegister) s)
  | WRegister, Run => Some (at_waiter i WSelect (add_callback (CWaiter i) s))
  | WSelect, SyncDone => if bool_decide (i ∈ sw_closed s) then Some (at_waiter i (WBack None) s) else None
  | WSelect, CtxDone => err ← sw_ended s !! i; Some (at_waiter i (WBack (Some err)) s)
  | _, _ => None
  end.

(** The closure [Start] registers with the client: its critical section. *)
Definition sync_completes (s : SyncWait) : SyncWait :=
  mkSyncWait true (sw_callbacks s) (sw_closed s) (sw_ended s) (sw_waiters s)
    (<[sw_next s := sw_callbacks s]> (sw_notify s)) (sw_called s) (S (sw_next s)).

(** One turn of its loop over the copied callbacks. *)
Definition notify_step (k : nat) (todo : list Callback) (s : SyncWait) : SyncWait :=
  match todo with
  | [] =>
      mkSyncWait (sw_done s) (sw_callbacks s) (sw_closed s) (sw_ended s) (sw_waiters s) (delete k (sw_notify s))
        (sw_called s) (sw_next s)
  | CWaiter i :: todo' =>
      mkSyncWait (sw_done s) (sw_callbacks s) ({[i]} ∪ sw_closed s) (sw_ended s) (sw_waiters s)
        (<[k := todo']> (sw_notify s)) (sw_called s) (sw_next s)
  | CUser fn :: todo' =>
      mkSyncWait (sw_done s) (sw_callbacks s) (sw_closed s) (sw_ended s) (sw_waiters s)
        (<[k := todo']> (sw_notify s)) (sw_called s ++ [fn]) (sw_next s)
  end.

(** [OnSyncComplete] *)
Definition user_registers (fn : nat) (s : SyncWait) : SyncWait :=
  if sw_done s then
    mkSyncWait (sw_done s) (sw_callbacks s) (sw_closed s) (sw_ended s) (sw_waiters s) (sw_notify s)
      (sw_called s ++ [fn]) (sw_next s)
  else add_callback (CUser fn) s.

(** A call of [WaitForSync], a step of one, the end of its context; a synchronisation
    that completes, a callback it calls; a call of [OnSyncComplete]. *)
Inductive WaitEvent : Type :=
| EvWait
| EvWaiter (i : nat) (c : Case)
| EvContext (i : nat) (err : error)
| EvSync
| EvNotify (k : nat)
| EvUser (fn : nat).

Definition sw_step (e : WaitEvent) (s : SyncWait) : option SyncWait :=
  match e with
  | EvWait => Some (next_number (at_waiter (sw_next s) WEnter s))
  | EvWaiter i c => w ← sw_waiters s !! i; wait_step i w c s
  | EvContext i err =>
      match sw_waiters s !! i, sw_ended s !! i with Some _, None => Some (end_context i err s) | _, _ => None end
  | EvSync => Some (sync_completes s)
  | EvNotify k => todo ← sw_notify s !! k; Some (notify_step k todo s)
  | EvUser fn => Some (user_registers fn s)
  end.

Fixpoint sw_run (es : list WaitEvent) (s : SyncWait) : option SyncWait :=
  match es with [] => Some s | e :: es' => s' ← sw_step e s; sw_run es' s' end.

(** No synchronisation completes meanwhile. *)
Definition no_sync (es : list WaitEvent) : Prop := EvSync ∉ es.

(** ** Invariant *)

Definition outside (i : nat) (s : SyncWait) : Prop :=
  (CWaiter i ∉ sw_callbacks s) /\ (i ∉ sw_closed s) /\ (forall k todo, sw_notify s !! k = Some todo -> CWaiter i ∉ todo).

(** Only registered waiters are known to the manager; the channels closed and the
    callbacks being called are those of completed synchronisations; a waiter has a
    result for its reason. *)
Record wait_ok (s : SyncWait) : Prop := {
  wk_fresh : forall i, (sw_next s <= i)%nat -> sw_waiters s !! i = None /\ sw_notify s !! i = None;
  wk_outside : forall i, sw_waiters s !! i = None \/ sw_waiters s !! i = Some WEnter \/
    sw_waiters s !! i = Some WRegister -> outside i s;
  wk_known : forall i, sw_waiters s !! i = Some WSelect -> CWaiter i ∈ sw_callbacks s;
  wk_synced : (exists i, i ∈ sw_closed s) \/ (exists k, is_Some (sw_notify s !! k)) -> sw_done s = true;
  wk_nil : forall i, sw_waiters s !! i = Some (WBack None) -> sw_done s = true;
  wk_err : forall i err, sw_waiters s !! i = Some (WBack (Some err)) -> sw_ended s !! i = Some err
}.

Lemma new_sync_wait_ok : wait_ok new_sync_wait.
Proof.
  split; cbn; try done.
  - intros i _. split; [set_solver|split; [set_solver|]]. done.
  - intros [[i Hi]|[k [todo Hk]]]; [set_solver|done].
Qed.

(** What one step does to a waiter. *)
Definition same_waiters (s s' : SyncWait) : Prop := sw_waiters s' = sw_waiters s /\ sw_next s' = sw_next s.

Lemma outside_add i c s w : c <> CWaiter i -> outside i s -> outside i (at_waiter w WSelect (add_callback c s)).
Proof. intros Hc (H1 & H2 & H3). split_and!; cbn; [|done..]. rewrite elem_of_app. set_solver. Qed.

Lemma wait_step_ok i w c s s' : sw_waiters s !! i = Some w -> wait_step i w c s = Some s' -> wait_ok s -> wait_ok s'.
Proof.
  intros Hi H [Hf Ho Hk Hs Hn He].
  assert (Hlt : forall j, (sw_next s <= j)%nat -> j <> i) by (intros j Hj ->; destruct (Hf i Hj); congruence).
  assert (Hfresh : forall q j, (sw_next s <= j)%nat -> <[i := q]> (sw_waiters s) !! j = None /\ sw_notify s !! j = None).
  { intros q j Hj. rewrite lookup_insert_ne by (symmetry; auto). auto. }
  destruct w, c; cbn in H; try done.
  - injection H as <-. split; cbn; [apply Hfresh| | |done| |]; intros j.
    + destruct (decide (j = i)) as [->|]; [intros _; apply Ho; auto|rewrite lookup_insert_ne by done; apply Ho].
    + intros [[_ H]|[_ H]]%lookup_insert_Some; [by destruct (sw_done s)|auto].
    + intros [[<- H]|[_ H]]%lookup_insert_Some; [by destruct (sw_done s)|eauto].
    + intros err [[<- H]|[_ H]]%lookup_insert_Some; [by destruct (sw_done s)|auto].
  - injection H as <-. split; cbn; [apply Hfresh| | |done| |]; intros j.
    + destruct (decide (j = i)) as [->|Hne]; [rewrite lookup_insert_eq; intuition congruence|].
      rewrite lookup_insert_ne by done. intros Hj. apply outside_add; [congruence|auto].
    + intros [[<- _]|[_ H]]%lookup_insert_Some; apply elem_of_app; [right; set_solver|left; auto].
    + intros [[_ ?]|[_ H]]%lookup_insert_Some; [done|eauto].
    + intros err [[_ ?]|[_ H]]%lookup_insert_Some; [done|auto].
  - case_bool_decide as Hc; [|done]. injection H as <-. split; cbn; [apply Hfresh| | |done| |]; intros j.
    + destruct (decide (j = i)) as [->|Hne]; [rewrite lookup_insert_eq; intuition congruence|].
      rewrite lookup_insert_ne by done. apply Ho.
    + intros [[_ ?]|[_ H]]%lookup_insert_Some; [done|auto].
    + intros _. apply Hs. left. by exists i.
    + intros err [[_ ?]|[_ H]]%lookup_insert_Some; [done|auto].
  - destruct (sw_ended s !! i) as [err|] eqn:Ee; [|done]. injection H as <-.
    split; cbn; [apply Hfresh| | |done| |]; intros j.
    + destruct (decide (j = i)) as [->|Hne]; [rewrite lookup_insert_eq; intuition congruence|].
      rewrite lookup_insert_ne by done. apply Ho.
    + intros [[_ ?]|[_ H]]%lookup_insert_Some; [done|auto].
    + intros [[_ ?]|[_ H]]%lookup_insert_Some; [done|eauto].
    + intros err' [[<- [= <-]]|[_ H]]%lookup_insert_Some; [done|auto].
Qed.

Lemma notify_step_ok k todo s : sw_notify s !! k = Some todo -> wait_ok s -> wait_ok (notify_step k todo s).
Proof.
  intros Hk [Hf Ho Hw Hs Hn He].
  assert (Hd : sw_done s = true) by (apply Hs; right; by exists k).
  destruct todo as [|[i|fn] todo]; cbn; split; cbn; try done.
  - intros i Hi. destruct (Hf i Hi). rewrite lookup_delete_None. auto.
  - intros i Hi. destruct (Ho i Hi) as (H1 & H2 & H3). split_and!; cbn; [done..|].
    intros k' todo' [_ H]%lookup_delete_Some. eauto.
  - intros j Hj. destruct (Hf j Hj). rewrite lookup_insert_ne; [auto|congruence].
  - intros j Hj. destruct (Ho j Hj) as (H1 & H2 & H3). pose proof (H3 _ _ Hk). split_and!; cbn; [done|set_solver|].
    intros k' todo' [[_ <-]|[_ H']]%lookup_insert_Some; [set_solver|eauto].
  - intros j Hj. destruct (Hf j Hj). rewrite lookup_insert_ne; [auto|congruence].
  - intros j Hj. destruct (Ho j Hj) as (H1 & H2 & H3). pose proof (H3 _ _ Hk). split_and!; cbn; [done..|].
    intros k' todo' [[_ <-]|[_ H']]%lookup_insert_Some; [set_solver|eauto].
Qed.

Lemma sync_completes_ok s : wait_ok s -> wait_ok (sync_completes s).
Proof.
  intros [Hf Ho Hw Hs Hn He]. split; cbn; try done.
  - intros i Hi. destruct (Hf i ltac:(lia)). rewrite lookup_insert_ne by lia. auto.
  - intros i Hi. destruct (Ho i Hi) as (H1 & H2 & H3). split_and!; cbn; [done..|].
    intros k todo [[_ <-]|[_ H]]%lookup_insert_Some; [done|eauto].
Qed.

Lemma add_callback_ok fn s : wait_ok s -> wait_ok (add_callback (CUser fn) s).
Proof.
  intros [Hf Ho Hw Hs Hn He]. split; cbn; try done.
  - intros i Hi. destruct (Ho i Hi) as (H1 & H2 & H3). split_and!; cbn; [set_solver|done..].
  - intros i Hi. apply elem_of_app. left. auto.
Qed.

Lemma sw_step_ok e s s' : sw_step e s = Some s' -> wait_ok s -> wait_ok s'.
Proof.
  intros H W. destruct e as [|i c|i err| |k|fn]; cbn in H.
  - injection H as <-. destruct W as [Hf Ho Hw Hs Hn He]. split; cbn; try done; intros i.
    + intros Hi. rewrite lookup_insert_ne by lia. apply Hf. lia.
    + destruct (decide (i = sw_next s)) as [->|]; [intros _; apply Ho; left; by apply Hf|].
      rewrite lookup_insert_ne by done. apply Ho.
    + intros [[_ ?]|[_ H]]%lookup_insert_Some; [done|auto].
    + intros [[_ ?]|[_ H]]%lookup_insert_Some; [done|eauto].
    + intros err [[_ ?]|[_ H]]%lookup_insert_Some; [done|auto].
  - destruct (sw_waiters s !! i) as [w|] eqn:Ei; [|done]. by eapply wait_step_ok.
  - destruct (sw_waiters s !! i) eqn:Ei; [|done]. destruct (sw_ended s !! i) eqn:Ee; [done|]. injection H as <-.
    destruct W as [Hf Ho Hw Hs Hn He]. split; cbn; try done. intros j e' Hj. rewrite lookup_insert_ne; [auto|].
    intros ->. apply He in Hj. congruence.
  - injection H as <-. by apply sync_completes_ok.
  - destruct (sw_notify s !! k) eqn:Ek; [|done]. injection H as <-. by apply notify_step_ok.
  - injection H as <-. unfold user_registers. destruct (sw_done s) eqn:Ed; [|by apply add_callback_ok].
    destruct W as [Hf Ho Hw Hs Hn He]. split; cbn; try done.
Qed.

Lemma sw_run_ok es : forall s s', sw_run es s = Some s' -> wait_ok s -> wait_ok s'.
Proof.
  induction es as [|e es IH]; intros s s' H W; cbn in H; [by simplify_eq|].
  destruct (sw_step e s) as [s1|] eqn:E; [|done]. eapply IH; [exact H|]. by eapply sw_step_ok.
Qed.

(** ** A registered waiter is released *)

(** Completion [k] has called the waiter's closure, or will. *)
Definition releases (k i : nat) (s : SyncWait) : Prop :=
  (k < sw_next s)%nat /\ (i ∈ sw_closed s \/ exists todo, sw_notify s !! k = Some todo /\ CWaiter i ∈ todo).

Lemma sw_step_releases k i e s s' : sw_step e s = Some s' -> releases k i s -> releases k i s'.
Proof.
  intros H [Hlt Hr]. destruct e as [|j c|j err| |k'|fn]; cbn in H.
  - injection H as <-. split; cbn; [lia|done].
  - destruct (sw_waiters s !! j) as [w|]; [|done].
    destruct w, c; cbn in H; repeat case_bool_decide; try done; try (by injection H as <-).
    destruct (sw_ended s !! j); [|done]. by injection H as <-.
  - destruct (sw_waiters s !! j), (sw_ended s !! j); try done. by injection H as <-.
  - injection H as <-. split; cbn; [lia|]. rewrite lookup_insert_ne by lia. done.
  - destruct (sw_notify s !! k') as [todo'|] eqn:Ek; [|done]. injection H as <-.
    destruct todo' as [|c todo'], (decide (k' = k)) as [->|Hne]; [| |destruct c|destruct c]; split; cbn; try done.
    all: rewrite ?lookup_insert_eq, ?(lookup_insert_ne _ _ _ _ Hne), ?(lookup_delete_ne _ _ _ Hne).
    all: destruct Hr as [Hr|(todo & Ht & Hin)]; [left; set_solver|]; simplify_eq; try set_solver; eauto.
    all: apply elem_of_cons in Hin as [[=]|Hin]; subst; [left; set_solver|eauto].
  - injection H as <-. unfold user_registers. by destruct (sw_done s).
Qed.

Lemma sw_run_releases k i es : forall s s', sw_run es s = Some s' -> releases k i s -> releases k i s'.
Proof.
  induction es as [|e es IH]; intros s s' H W; cbn in H; [by simplify_eq|].
  destruct (sw_step e s) as [s1|] eqn:E; [|done]. eapply IH; [exact H|]. by eapply sw_step_releases.
Qed.

(** ** A waiter that is not registered yet is not *)

(** The waiter is past its look at the flag, and no completion knows of it. *)
Definition missed (i : nat) (s : SyncWait) : Prop :=
  (i ∉ sw_closed s) /\ (forall k todo, sw_notify s !! k = Some todo -> CWaiter i ∉ todo) /\
  (i < sw_next s)%nat /\
  (sw_waiters s !! i = Some WRegister \/ sw_waiters s !! i = Some WSelect \/
   exists err, sw_waiters s !! i = Some (WBack (Some err))).

Lemma missed_waiter i j q s : missed i s -> j <> i -> missed i (at_waiter j q s).
Proof. intros (H1 & H2 & H3 & H4) Hne. split_and!; cbn; [done..|]. by rewrite lookup_insert_ne. Qed.

Lemma wait_step_missed i j w c s s' : sw_waiters s !! j = Some w -> wait_step j w c s = Some s' ->
  missed i s -> missed i s'.
Proof.
  intros Hj H Hm. destruct (decide (j = i)) as [->|Hne].
  - destruct Hm as (H1 & H2 & H3 & H4).
    destruct w, c; cbn in H; try done; try (destruct H4 as [H4|[H4|[err H4]]]; congruence).
    + injection H as <-. split_and!; cbn; [done..|]. rewrite lookup_insert_eq. auto.
    + by rewrite bool_decide_false in H.
    + destruct (sw_ended s !! i); [|done]. injection H as <-. split_and!; cbn; [done..|]. rewrite lookup_insert_eq. eauto.
  - destruct w, c; cbn in H; try done.
    + injection H as <-. by apply missed_waiter.
    + injection H as <-. by apply (missed_waiter i j WSelect s).
    + case_bool_decide; [|done]. injection H as <-. by apply missed_waiter.
    + destruct (sw_ended s !! j); [|done]. injection H as <-. by apply missed_waiter.
Qed.

Lemma sw_step_missed i e s s' : e <> EvSync -> sw_step e s = Some s' -> missed i s -> missed i s'.
Proof.
  intros Hne H Hm. destruct e as [|j c|j err| |k|fn]; cbn in H; [| | |done| |].
  - injection H as <-. destruct Hm as (H1 & H2 & H3 & H4). split_and!; cbn; [done..|lia|].
    rewrite lookup_insert_ne by lia. done.
  - destruct (sw_waiters s !! j) eqn:Ej; [|done]. by eapply wait_step_missed.
  - destruct (sw_waiters s !! j), (sw_ended s !! j); try done. by injection H as <-.
  - destruct (sw_notify s !! k) as [todo|] eqn:Ek; [|done]. injection H as <-.
    destruct Hm as (H1 & H2 & H3 & H4). pose proof (H2 _ _ Ek) as Hin.
    destruct todo as [|[j|fn] todo]; split_and!; cbn; try done; try set_solver;
      intros k' todo'; rewrite ?lookup_delete_Some, ?lookup_insert_Some; naive_solver set_solver.
  - injection H as <-. unfold user_registers. by destruct (sw_done s).
Qed.

Lemma sw_run_missed i es : forall s s', no_sync es -> sw_run es s = Some s' -> missed i s -> missed i s'.
Proof.
  induction es as [|e es IH]; intros s s' Hn H W; cbn in H; [by simplify_eq|].
  destruct (sw_step e s) as [s1|] eqn:E; [|done]. unfold no_sync in *.
  eapply IH; [|exact H|]; [set_solver|]. eapply sw_step_missed; [|exact E|exact W]. set_solver.
Qed.

(** ** Claims *)

(** C31: [WaitForSync], however callers of it, synchronisations that complete, the
    callbacks they call, users that register and contexts that end interleave.
    (1) A caller that comes back without an error does so after a synchronisation; one
    that comes back with an error does so because its context has ended, with that
    context's error. (2) Once a caller is registered, the next synchronisation to
    complete releases it: when that completion has called its callbacks, a caller
    still in the select can take its result, without an error. (3) But between the look
    at the flag and the registration a synchronisation is missed: a caller that has not
    registered yet is released by none that has completed already; until another one
    completes it does not come back without an error, and only its context can end
    the wait. Every state without the flag leads there in three steps: a call, its look
    at the flag, a synchronisation. *)
Theorem wait_can_miss_sync es s i : sw_run es new_sync_wait = Some s ->
  (sw_waiters s !! i = Some (WBack None) -> sw_done s = true) /\
  (forall err, sw_waiters s !! i = Some (WBack (Some err)) -> sw_ended s !! i = Some err) /\
  (sw_waiters s !! i = Some WSelect -> forall es' s', sw_run (EvSync :: es') s = Some s' ->
    sw_notify s' !! sw_next s = None -> sw_waiters s' !! i = Some WSelect ->
    sw_step (EvWaiter i SyncDone) s' = Some (at_waiter i (WBack None) s')) /\
  (sw_waiters s !! i = Some WRegister -> forall es' s', no_sync es' -> sw_run es' s = Some s' ->
    sw_waiters s' !! i = Some WRegister \/
    sw_waiters s' !! i = Some WSelect /\ sw_step (EvWaiter i SyncDone) s' = None \/
    exists err, sw_waiters s' !! i = Some (WBack (Some err)) /\ sw_ended s' !! i = Some err) /\
  (sw_done s = false -> exists s', sw_run [EvWait; EvWaiter (sw_next s) Run; EvSync] s = Some s' /\
    sw_waiters s' !! sw_next s = Some WRegister /\ sw_done s' = true).
Proof.
  intros H. pose proof (sw_run_ok _ _ _ H new_sync_wait_ok) as W. split_and!; [by apply W|by apply W| | |].
  - intros Hi es' s' Hrun Hk Hi'. cbn in Hrun.
    destruct (sw_run_releases (sw_next s) i es' _ _ Hrun) as [_ [Hin|(todo & Hk' & _)]]; [|..|congruence].
    + split; cbn; [lia|right]. exists (sw_callbacks s). rewrite lookup_insert_eq. split; [done|]. by apply W.
    + cbn. rewrite Hi'. cbn. by rewrite bool_decide_true.
  - intros Hi es' s' Hn Hrun. destruct (wk_outside _ W i) as (_ & H2 & H3); [auto|].
    assert (Hlt : (i < sw_next s)%nat).
    { destruct (decide (i < sw_next s)%nat); [done|]. destruct (wk_fresh _ W i); [lia|congruence]. }
    destruct (sw_run_missed i es' s s' Hn Hrun) as (H4 & _ & _ & [H5|[H5|[err H5]]]); [by split_and!; auto|auto|..].
    + right. left. split; [done|]. cbn. rewrite H5. cbn. by rewrite bool_decide_false.
    + right. right. exists err. split; [done|]. eapply wk_err; [|done]. eapply sw_run_ok; eauto.
  - intros Hd. eexists. cbn. rewrite lookup_insert_eq. cbn. rewrite Hd. split; [reflexivity|]. cbn.
    by rewrite lookup_insert_eq.
Qed.

(** ** Witness *)

(** Two callers: 0 registers and is released by the synchronisation; 1 has looked at
    the flag before it and is not, until its context ends. *)
Definition missed_run : list WaitEvent :=
  [EvWait; EvWait; EvWaiter 0 Run; EvWaiter 1 Run; EvWaiter 0 Run; EvSync].
Definition missed_rest : list WaitEvent :=
  [EvNotify 2; EvWaiter 1 Run; EvWaiter 0 SyncDone; EvNotify 2; EvContext 1 EOF; EvWaiter 1 CtxDone].

Definition missed_state : SyncWait := default new_sync_wait (sw_run missed_run new_sync_wait).
Definition missed_end : SyncWait := default new_sync_wait (sw_run missed_rest missed_state).

Lemma wait_can_miss_sync_witness : sw_run missed_run new_sync_wait = Some missed_state /\
  sw_run missed_rest missed_state = Some missed_end /\
  sw_done missed_state = true /\ sw_waiters missed_state !! 1%nat = Some WRegister /\
  sw_waiters missed_end !! 0%nat = Some (WBack None) /\ sw_waiters missed_end !! 1%nat = Some (WBack (Some EOF)) /\
  (sw_waiters missed_end !! 1%nat = Some WRegister \/
   sw_waiters missed_end !! 1%nat = Some WSelect /\ sw_step (EvWaiter 1 SyncDone) missed_end = None \/
   exists err, sw_waiters missed_end !! 1%nat = Some (WBack (Some err)) /\ sw_ended missed_end !! 1%nat = Some err).
Proof.
  split_and!; try (vm_compute; reflexivity).
  apply (wait_can_miss_sync missed_run missed_state 1) with (es' := missed_rest); try (vm_compute; reflexivity).
  unfold no_sync, missed_rest. set_solver.
Defined.
