(* ===== verification/Options.v ===== *)
(** * The options of a replica (options.go, errors.go)

    An option is a function on the configuration that may refuse its argument;
    [defaultConfig] and the options build the configuration [New] starts from.
    Loggers and metrics collectors are handles, [None] for nil. *)

From Stdlib Require Import ZArith Lia String.
From stdpp Require Import base list list_numbers.
From S2P Require Import Prelude GoLib StorageTypes.

(** ** Errors *)

Definition ErrNotConnected : error := Errorf (bs "not connected to master").
Definition ErrInvalidConfig : error := Errorf (bs "invalid configuration").
Definition ErrClosed : error := Errorf (bs "replica is closed").

(** A [ConnectionError] by its text. *)
Definition ConnectionError (addr : bytes) (err : error) : error :=
  Errorf (bs "connection error to " ++ addr ++ bs ": " ++ Error err).

(** ** crypto/tls *)

Definition VersionTLS12 : Z := 771.
Definition VersionTLS13 : Z := 772.

Definition TLS_RSA_WITH_AES_128_GCM_SHA256 : Z := 156.
Definition TLS_RSA_WITH_AES_256_GCM_SHA384 : Z := 157.
Definition TLS_ECDHE_ECDSA_WITH_AES_128_GCM_SHA256 : Z := 49195.
Definition TLS_ECDHE_ECDSA_WITH_AES_256_GCM_SHA384 : Z := 49196.
Definition TLS_ECDHE_RSA_WITH_AES_128_GCM_SHA256 : Z := 49199.
Definition TLS_ECDHE_RSA_WITH_AES_256_GCM_SHA384 : Z := 49200.
Definition TLS_ECDHE_RSA_WITH_CHACHA20_POLY1305 : Z := 52392.
Definition TLS_ECDHE_ECDSA_WITH_CHACHA20_POLY1305 : Z := 52393.

(** The fields of [tls.Config] the code sets. *)
Record TLSConfig : Type := mkTLSConfig {
  ServerName : bytes;
  InsecureSkipVerify : bool;
  MinVersion : Z;
  CipherSuites : list Z
}.

(** ** Configuration *)

Record config : Type := mkConfig {
  cf_masterAddr : bytes;
  cf_masterPassword : bytes;
  masterTLS : option TLSConfig;
  replicaAddr : bytes;
  replicaPassword : bytes;
  cf_databases : list Z;
  defaultDatabase : Z;
  cf_syncTimeout : Z;
  cf_connectTimeout : Z;
  cf_readTimeout : Z;
  cf_writeTimeout : Z;
  cf_heartbeatInterval : Z;
  maxMemory : Z;
  logger : nat;
  metrics : option nat;
  readOnly : bool;
  cf_commandFilters : list bytes;
  cf_redirectWrites : bool;
  shardCount : Z
}.

(** The handle of [defaultLogger]. *)
Definition defaultLogger : nat := 0.

Definition defaultConfig : config := {|
  cf_masterAddr := bs "localhost:6379"; cf_masterPassword := []; masterTLS := None;
  replicaAddr := []; replicaPassword := [];
  cf_databases := []; defaultDatabase := 0;
  cf_syncTimeout := 30 * Second; cf_connectTimeout := 5 * Second; cf_readTimeout := 30 * Second;
  cf_writeTimeout := 10 * Second; cf_heartbeatInterval := 30 * Second; maxMemory := 0;
  logger := defaultLogger; metrics := None; readOnly := true; cf_commandFilters := [];
  cf_redirectWrites := false; shardCount := 0
|}.

Definition Option : Type := config -> outcome config.

(** ** Field updates *)

Definition cfg_masterAddr (x : bytes) (c : config) : config := mkConfig x (cf_masterPassword c) (masterTLS c)
  (replicaAddr c) (replicaPassword c) (cf_databases c) (defaultDatabase c) (cf_syncTimeout c)
  (cf_connectTimeout c) (cf_readTimeout c) (cf_writeTimeout c) (cf_heartbeatInterval c) (maxMemory c) (logger
  c) (metrics c) (readOnly c) (cf_commandFilters c) (cf_redirectWrites c) (shardCount c).
Definition cfg_masterPassword (x : bytes) (c : config) : config := mkConfig (cf_masterAddr c) x (masterTLS c)
  (replicaAddr c) (replicaPassword c) (cf_databases c) (defaultDatabase c) (cf_syncTimeout c)
  (cf_connectTimeout c) (cf_readTimeout c) (cf_writeTimeout c) (cf_heartbeatInterval c) (maxMemory c) (logger
  c) (metrics c) (readOnly c) (cf_commandFilters c) (cf_redirectWrites c) (shardCount c).
Definition cfg_masterTLS (x : option TLSConfig) (c : config) : config := mkConfig (cf_masterAddr c)
  (cf_masterPassword c) x (replicaAddr c) (replicaPassword c) (cf_databases c) (defaultDatabase c)
  (cf_syncTimeout c) (cf_connectTimeout c) (cf_readTimeout c) (cf_writeTimeout c) (cf_heartbeatInterval c)
  (maxMemory c) (logger c) (metrics c) (readOnly c) (cf_commandFilters c) (cf_redirectWrites c) (shardCount c).
Definition cfg_replicaAddr (x : bytes) (c : config) : config := mkConfig (cf_masterAddr c) (cf_masterPassword
  c) (masterTLS c) x (replicaPassword c) (cf_databases c) (defaultDatabase c) (cf_syncTimeout c)
  (cf_connectTimeout c) (cf_readTimeout c) (cf_writeTimeout c) (cf_heartbeatInterval c) (maxMemory c) (logger
  c) (metrics c) (readOnly c) (cf_commandFilters c) (cf_redirectWrites c) (shardCount c).
Definition cfg_replicaPassword (x : bytes) (c : config) : config := mkConfig (cf_masterAddr c)
  (cf_masterPassword c) (masterTLS c) (replicaAddr c) x (cf_databases c) (defaultDatabase c) (cf_syncTimeout c)
  (cf_connectTimeout c) (cf_readTimeout c) (cf_writeTimeout c) (cf_heartbeatInterval c) (maxMemory c) (logger
  c) (metrics c) (readOnly c) (cf_commandFilters c) (cf_redirectWrites c) (shardCount c).
Definition cfg_databases (x : list Z) (c : config) : config := mkConfig (cf_masterAddr c) (cf_masterPassword c)
  (masterTLS c) (replicaAddr c) (replicaPassword c) x (defaultDatabase c) (cf_syncTimeout c) (cf_connectTimeout
  c) (cf_readTimeout c) (cf_writeTimeout c) (cf_heartbeatInterval c) (maxMemory c) (logger c) (metrics c)
  (readOnly c) (cf_commandFilters c) (cf_redirectWrites c) (shardCount c).
Definition cfg_defaultDatabase (x : Z) (c : config) : config := mkConfig (cf_masterAddr c) (cf_masterPassword
  c) (masterTLS c) (replicaAddr c) (replicaPassword c) (cf_databases c) x (cf_syncTimeout c) (cf_connectTimeout
  c) (cf_readTimeout c) (cf_writeTimeout c) (cf_heartbeatInterval c) (maxMemory c) (logger c) (metrics c)
  (readOnly c) (cf_commandFilters c) (cf_redirectWrites c) (shardCount c).
Definition cfg_syncTimeout (x : Z) (c : config) : config := mkConfig (cf_masterAddr c) (cf_masterPassword c)
  (masterTLS c) (replicaAddr c) (replicaPassword c) (cf_databases c) (defaultDatabase c) x (cf_connectTimeout
  c) (cf_readTimeout c) (cf_writeTimeout c) (cf_heartbeatInterval c) (maxMemory c) (logger c) (metrics c)
  (readOnly c) (cf_commandFilters c) (cf_redirectWrites c) (shardCount c).
Definition cfg_connectTimeout (x : Z) (c : config) : config := mkConfig (cf_masterAddr c) (cf_masterPassword c)
  (masterTLS c) (replicaAddr c) (replicaPassword c) (cf_databases c) (defaultDatabase c) (cf_syncTimeout c) x
  (cf_readTimeout c) (cf_writeTimeout c) (cf_heartbeatInterval c) (maxMemory c) (logger c) (metrics c)
  (readOnly c) (cf_commandFilters c) (cf_redirectWrites c) (shardCount c).
Definition cfg_readTimeout (x : Z) (c : config) : config := mkConfig (cf_masterAddr c) (cf_masterPassword c)
  (masterTLS c) (replicaAddr c) (replicaPassword c) (cf_databases c) (defaultDatabase c) (cf_syncTimeout c)
  (cf_connectTimeout c) x (cf_writeTimeout c) (cf_heartbeatInterval c) (maxMemory c) (logger c) (metrics c)
  (readOnly c) (cf_commandFilters c) (cf_redirectWrites c) (shardCount c).
Definition cfg_writeTimeout (x : Z) (c : config) : config := mkConfig (cf_masterAddr c) (cf_masterPassword c)
  (masterTLS c) (replicaAddr c) (replicaPassword c) (cf_databases c) (defaultDatabase c) (cf_syncTimeout c)
  (cf_connectTimeout c) (cf_readTimeout c) x (cf_heartbeatInterval c) (maxMemory c) (logger c) (metrics c)
  (readOnly c) (cf_commandFilters c) (cf_redirectWrites c) (shardCount c).
Definition cfg_heartbeatInterval (x : Z) (c : config) : config := mkConfig (cf_masterAddr c) (cf_masterPassword
  c) (masterTLS c) (replicaAddr c) (replicaPassword c) (cf_databases c) (defaultDatabase c) (cf_syncTimeout c)
  (cf_connectTimeout c) (cf_readTimeout c) (cf_writeTimeout c) x (maxMemory c) (logger c) (metrics c) (readOnly
  c) (cf_commandFilters c) (cf_redirectWrites c) (shardCount c).
Definition cfg_maxMemory (x : Z) (c : config) : config := mkConfig (cf_masterAddr c) (cf_masterPassword c)
  (masterTLS c) (replicaAddr c) (replicaPassword c) (cf_databases c) (defaultDatabase c) (cf_syncTimeout c)
  (cf_connectTimeout c) (cf_readTimeout c) (cf_writeTimeout c) (cf_heartbeatInterval c) x (logger c) (metrics
  c) (readOnly c) (cf_commandFilters c) (cf_redirectWrites c) (shardCount c).
Definition cfg_logger (x : nat) (c : config) : config := mkConfig (cf_masterAddr c) (cf_masterPassword c)
  (masterTLS c) (replicaAddr c) (replicaPassword c) (cf_databases c) (defaultDatabase c) (cf_syncTimeout c)
  (cf_connectTimeout c) (cf_readTimeout c) (cf_writeTimeout c) (cf_heartbeatInterval c) (maxMemory c) x
  (metrics c) (readOnly c) (cf_commandFilters c) (cf_redirectWrites c) (shardCount c).
Definition cfg_metrics (x : option nat) (c : config) : config := mkConfig (cf_masterAddr c) (cf_masterPassword
  c) (masterTLS c) (replicaAddr c) (replicaPassword c) (cf_databases c) (defaultDatabase c) (cf_syncTimeout c)
  (cf_connectTimeout c) (cf_readTimeout c) (cf_writeTimeout c) (cf_heartbeatInterval c) (maxMemory c) (logger
  c) x (readOnly c) (cf_commandFilters c) (cf_redirectWrites c) (shardCount c).
Definition cfg_readOnly (x : bool) (c : config) : config := mkConfig (cf_masterAddr c) (cf_masterPassword c)
  (masterTLS c) (replicaAddr c) (replicaPassword c) (cf_databases c) (defaultDatabase c) (cf_syncTimeout c)
  (cf_connectTimeout c) (cf_readTimeout c) (cf_writeTimeout c) (cf_heartbeatInterval c) (maxMemory c) (logger
  c) (metrics c) x (cf_commandFilters c) (cf_redirectWrites c) (shardCount c).
Definition cfg_commandFilters (x : list bytes) (c : config) : config := mkConfig (cf_masterAddr c)
  (cf_masterPassword c) (masterTLS c) (replicaAddr c) (replicaPassword c) (cf_databases c) (defaultDatabase c)
  (cf_syncTimeout c) (cf_connectTimeout c) (cf_readTimeout c) (cf_writeTimeout c) (cf_heartbeatInterval c)
  (maxMemory c) (logger c) (metrics c) (readOnly c) x (cf_redirectWrites c) (shardCount c).
Definition cfg_redirectWrites (x : bool) (c : config) : config := mkConfig (cf_masterAddr c) (cf_masterPassword
  c) (masterTLS c) (replicaAddr c) (replicaPassword c) (cf_databases c) (defaultDatabase c) (cf_syncTimeout c)
  (cf_connectTimeout c) (cf_readTimeout c) (cf_writeTimeout c) (cf_heartbeatInterval c) (maxMemory c) (logger
  c) (metrics c) (readOnly c) (cf_commandFilters c) x (shardCount c).
Definition cfg_shardCount (x : Z) (c : config) : config := mkConfig (cf_masterAddr c) (cf_masterPassword c)
  (masterTLS c) (replicaAddr c) (replicaPassword c) (cf_databases c) (defaultDatabase c) (cf_syncTimeout c)
  (cf_connectTimeout c) (cf_readTimeout c) (cf_writeTimeout c) (cf_heartbeatInterval c) (maxMemory c) (logger
  c) (metrics c) (readOnly c) (cf_commandFilters c) (cf_redirectWrites c) x.

(** ** The options *)

Definition WithMaster (addr : bytes) : Option := fun c =>
  if bool_decide (addr = []) then Err (ConnectionError addr ErrInvalidConfig) else Ok (cfg_masterAddr addr c).

Definition WithMasterAuth (password : bytes) : Option := fun c => Ok (cfg_masterPassword password c).
Definition WithReplicaAddr (addr : bytes) : Option := fun c => Ok (cfg_replicaAddr addr c).

Definition WithSyncTimeout (timeout : Z) : Option := fun c =>
  if timeout <=? 0 then Err ErrInvalidConfig else Ok (cfg_syncTimeout timeout c).
Definition WithConnectTimeout (timeout : Z) : Option := fun c =>
  if timeout <=? 0 then Err ErrInvalidConfig else Ok (cfg_connectTimeout timeout c).
Definition WithReadTimeout (timeout : Z) : Option := fun c =>
  if timeout <=? 0 then Err ErrInvalidConfig else Ok (cfg_readTimeout timeout c).
Definition WithWriteTimeout (timeout : Z) : Option := fun c =>
  if timeout <=? 0 then Err ErrInvalidConfig else Ok (cfg_writeTimeout timeout c).

Definition WithHeartbeatInterval (interval : Z) : Option := fun c => Ok (cfg_heartbeatInterval interval c).

Definition WithMaxMemory (n : Z) : Option := fun c =>
  if n <? 0 then Err ErrInvalidConfig else Ok (cfg_maxMemory n c).

Definition WithLogger (l : option nat) : Option := fun c =>
  match l with None => Err ErrInvalidConfig | Some l => Ok (cfg_logger l c) end.
Definition WithMetrics (collector : option nat) : Option := fun c => Ok (cfg_metrics collector c).

Definition WithTLS (tlsConfig : option TLSConfig) : Option := fun c => Ok (cfg_masterTLS tlsConfig c).

(** [type TLSEnvironment int] *)
Definition TLSEnvironmentDevelopment : Z := 0.
Definition TLSEnvironmentStaging : Z := 1.
Definition TLSEnvironmentProduction : Z := 2.

Definition secure_suites : list Z := [TLS_ECDHE_RSA_WITH_AES_256_GCM_SHA384; TLS_ECDHE_RSA_WITH_CHACHA20_POLY1305;
  TLS_ECDHE_ECDSA_WITH_AES_256_GCM_SHA384; TLS_ECDHE_ECDSA_WITH_CHACHA20_POLY1305].

Definition WithTLSEnvironment (serverName : bytes) (env : Z) : Option := fun c =>
  if bool_decide (serverName = []) then Err ErrInvalidConfig
  else if env =? TLSEnvironmentDevelopment then
    Ok (cfg_masterTLS (Some (mkTLSConfig serverName false VersionTLS12 (secure_suites ++
      [TLS_ECDHE_RSA_WITH_AES_128_GCM_SHA256; TLS_ECDHE_ECDSA_WITH_AES_128_GCM_SHA256;
       TLS_RSA_WITH_AES_256_GCM_SHA384; TLS_RSA_WITH_AES_128_GCM_SHA256]))) c)
  else if env =? TLSEnvironmentStaging then
    Ok (cfg_masterTLS (Some (mkTLSConfig serverName false VersionTLS12 (secure_suites ++
      [TLS_ECDHE_RSA_WITH_AES_128_GCM_SHA256; TLS_ECDHE_ECDSA_WITH_AES_128_GCM_SHA256]))) c)
  else if env =? TLSEnvironmentProduction then
    Ok (cfg_masterTLS (Some (mkTLSConfig serverName false VersionTLS13 secure_suites)) c)
  else Err ErrInvalidConfig.

Definition WithSecureTLS (serverName : bytes) : Option := WithTLSEnvironment serverName TLSEnvironmentProduction.

(** The builder of a custom configuration. The code hands out a pointer to it, and
    the option [Build] returns reads it when it is applied: [b] is its state then. *)
Record TLSBuilder : Type := mkTLSBuilder {
  b_serverName : bytes;
  b_insecureSkipVerify : bool;
  b_minVersion : Z;
  b_cipherSuites : list Z
}.

Definition WithTLSCustom (serverName : bytes) : TLSBuilder := mkTLSBuilder serverName false VersionTLS12 secure_suites.

Definition b_MinVersion (version : Z) (b : TLSBuilder) : TLSBuilder :=
  mkTLSBuilder (b_serverName b) (b_insecureSkipVerify b) version (b_cipherSuites b).
Definition b_SkipVerify (skip : bool) (b : TLSBuilder) : TLSBuilder :=
  mkTLSBuilder (b_serverName b) skip (b_minVersion b) (b_cipherSuites b).
Definition b_CipherSuites (suites : list Z) (b : TLSBuilder) : TLSBuilder :=
  mkTLSBuilder (b_serverName b) (b_insecureSkipVerify b) (b_minVersion b) suites.

Definition Build (b : TLSBuilder) : Option := fun c =>
  if bool_decide (b_serverName b = []) then Err ErrInvalidConfig
  else Ok (cfg_masterTLS (Some (mkTLSConfig (b_serverName b) (b_insecureSkipVerify b) (b_minVersion b) (b_cipherSuites b))) c).

Definition WithReadOnly (b : bool) : Option := fun c => Ok (cfg_readOnly b c).
Definition WithCommandFilters (commands : list bytes) : Option := fun c => Ok (cfg_commandFilters commands c).

Definition WithDatabases (dbs : list Z) : Option := fun c =>
  if existsb (fun db => (db <? 0) || (15 <? db)) dbs then Err ErrInvalidConfig else Ok (cfg_databases dbs c).

Definition WithReplicaAuth (password : bytes) : Option := fun c => Ok (cfg_replicaPassword password c).
Definition WithWriteRedirection (enabled : bool) : Option := fun c => Ok (cfg_redirectWrites enabled c).

Definition WithDefaultDatabase (db : Z) : Option := fun c =>
  if (db <? 0) || (15 <? db) then Err ErrInvalidConfig else Ok (cfg_defaultDatabase db c).

Definition WithShardCount (count : Z) : Option := fun c =>
  if count <? 0 then Err ErrInvalidConfig else Ok (cfg_shardCount count c).

(** The loop of [New] over its options; the first error ends it. *)
Fixpoint apply_options (opts : list Option) (c : config) : outcome config :=
  match opts with
  | [] => Ok c
  | opt :: opts' =>
      match opt c with
      | Ok c' => apply_options opts' c'
      | o => o
      end
  end.

(** ** What the options of the library keep *)

(** The options the library offers. *)
Inductive provided : Option -> Prop :=
| p_Master addr : provided (WithMaster addr)
| p_MasterAuth password : provided (WithMasterAuth password)
| p_ReplicaAddr addr : provided (WithReplicaAddr addr)
| p_SyncTimeout t : provided (WithSyncTimeout t)
| p_ConnectTimeout t : provided (WithConnectTimeout t)
| p_ReadTimeout t : provided (WithReadTimeout t)
| p_WriteTimeout t : provided (WithWriteTimeout t)
| p_HeartbeatInterval t : provided (WithHeartbeatInterval t)
| p_MaxMemory n : provided (WithMaxMemory n)
| p_Logger l : provided (WithLogger l)
| p_Metrics m : provided (WithMetrics m)
| p_TLS t : provided (WithTLS t)
| p_TLSEnvironment serverName env : provided (WithTLSEnvironment serverName env)
| p_TLSCustom b : provided (Build b)
| p_ReadOnly b : provided (WithReadOnly b)
| p_CommandFilters l : provided (WithCommandFilters l)
| p_Databases l : provided (WithDatabases l)
| p_ReplicaAuth password : provided (WithReplicaAuth password)
| p_WriteRedirection b : provided (WithWriteRedirection b)
| p_DefaultDatabase db : provided (WithDefaultDatabase db)
| p_ShardCount n : provided (WithShardCount n).

Record valid_options (c : config) : Prop := {
  vo_master : cf_masterAddr c <> [];
  vo_timeouts : 0 < cf_syncTimeout c /\ 0 < cf_connectTimeout c /\ 0 < cf_readTimeout c /\ 0 < cf_writeTimeout c;
  vo_memory : 0 <= maxMemory c;
  vo_databases : Forall (fun db => 0 <= db <= 15) (cf_databases c);
  vo_default : 0 <= defaultDatabase c <= 15;
  vo_shards : 0 <= shardCount c
}.

Lemma default_valid : valid_options defaultConfig.
Proof. split; cbn; try done; try lia. Qed.

(** An option of the library refuses its argument or keeps the configuration valid. *)
Lemma provided_keeps opt c : provided opt -> valid_options c ->
  match opt c with Ok c' => valid_options c' | Err _ => True | _ => False end.
Proof.
  intros Hopt [H1 H2 H3 H4 H5 H6]. destruct Hopt;
    unfold WithMaster, WithSyncTimeout, WithConnectTimeout, WithReadTimeout, WithWriteTimeout, WithMaxMemory,
      WithLogger, WithTLSEnvironment, Build, WithDatabases, WithDefaultDatabase, WithShardCount;
    repeat match goal with
    | |- context [if ?b then _ else _] => destruct b eqn:?
    | |- context [match ?l with Some _ => _ | None => _ end] => destruct l
    end; try done; split; cbn; try done; try lia; 
    try (by match goal with H : bool_decide _ = false |- _ => apply bool_decide_eq_false in H end).
  apply Forall_forall. intros db Hdb.
  match goal with H : existsb _ _ = false |- _ => rewrite <- not_true_iff_false, existsb_exists in H; rename H into He end.
  destruct (decide (0 <= db <= 15)) as [|Hn]; [done|]. destruct He. exists db. split; [by apply list_elem_of_In|lia].
Qed.

Lemma apply_options_valid opts : Forall provided opts -> forall c, valid_options c ->
  match apply_options opts c with Ok c' => valid_options c' | Err _ => True | _ => False end.
Proof.
  induction 1 as [|opt opts Hopt _ IH]; intros c Hc; [done|]. cbn. pose proof (provided_keeps opt c Hopt Hc) as H.
  destruct (opt c); try done. by apply IH.
Qed.
