(* ===== verification/Server.v ===== *)
(** * The Redis server (server/server.go)

    A server answers the commands of its clients from the storage the replica
    fills, runs their scripts and, if told so, forwards their writes to the
    master. The state of a command is the server's, shared by all clients, and
    the connection's. A command is one atomic step. The goroutines are in ServerLife. *)

From Stdlib Require Import ZArith Lia String.
From stdpp Require Import base list list_numbers gmap.
From S2P Require Import Prelude GoLib RespTypes RespWriter RespReader StorageTypes Memory.
From S2P Require Import Sync Lua.

(** The connections to the master by number: the error of the dial or what the
    master will send, and the error of setting the deadline. *)
Class MasterNet : Type := {
  master_dial : nat -> error + Reader;
  master_deadline : nat -> option error
}.

(** The text [%v] and [%.17g] give to a float or to a map. *)
Class GoFormat : Type := {
  fmt_17g : float64 -> bytes;
  fmt_v_float : float64 -> bytes;
  fmt_v_map : list (bytes * GoValue) -> bytes
}.

(** ** Formatting *)

(** [%.1f] of a finite float: its exact value to one decimal, ties to even. *)
Definition fmt_1f (f : float64) : bytes :=
  match f with
  | SpecFloat.S754_finite s m e =>
      let tenths :=
        if 0 <=? e then Z.pos m * 10 * 2 ^ e
        else
          let d := 2 ^ (- e) in
          let q := (Z.pos m * 10) / d in
          let r := (Z.pos m * 10) mod d in
          if (2 * r <? d) || ((2 * r =? d) && Z.even q) then q else q + 1 in
      (if s then bs "-" else []) ++ FormatUint (tenths / 10) ++ bs "." ++ FormatUint (tenths mod 10)
  | SpecFloat.S754_zero _ => bs "0.0"
  | SpecFloat.S754_infinity s => if s then bs "-Inf" else bs "+Inf"
  | SpecFloat.S754_nan => bs "NaN"
  end.

Fixpoint format_unit (fuel : nat) (n div : Z) (exp : nat) : Z * nat :=
  match fuel with
  | O => (div, exp)
  | S fuel' => if 1024 <=? n then format_unit fuel' (n / 1024) (div * 1024) (S exp) else (div, exp)
  end.

(** Five divisions by 1024 bring an int64 below 1024 after the first one. *)
Definition formatBytes (n : Z) : bytes :=
  if n <? 1024 then FormatInt n ++ bs "B"
  else
    let '(div, exp) := format_unit 6 (n / 1024) 1024 0 in
    fmt_1f (float_div (float_of_int n) (float_of_int div)) ++ take 1 (drop exp (bs "KMGTPE")) ++ bs "B".

(** [d.Seconds()] of a [time.Duration]. *)
Definition Duration_Seconds (d : Z) : float64 :=
  float_add (float_of_int (Z.quot d Second)) (float_div (float_of_int (Z.rem d Second)) (float_of_int 1000000000)).

(** ** State *)

Section Server.
  Context `{Hash : XXHash} `{Runtime : GoRuntime} {VM : LuaVM} {U : GoUnicode} {Net : MasterNet} {Fmt : GoFormat}.
  Context (strategy now : Z).

(** [type Server struct]; [syncMgr] is what the manager, if there is one, reports;
    [dials] counts the connections to the master and [master_sent] logs the bytes
    sent on each. *)
Record Server : Type := mkServer {
  sv_lua : Engine;
  sv_storage : MemoryStorage;
  syncMgr : option SyncStatus;
  sv_password : bytes;
  redirectWrites : bool;
  sv_masterAddr : bytes;
  sv_masterPassword : bytes;
  connCount : Z;
  commandCount : Z;
  errorCount : Z;
  dials : nat;
  master_sent : list bytes
}.

(** [type Client struct] *)
Record Conn : Type := mkConn {
  cl_reader : Reader;
  cl_writer : Writer;
  authenticated : bool;
  cl_db : Z;
  lastCmd : Z;
  closed : bool
}.

Definition Session : Type := Server * Conn.
Abbreviation H A := (M Session A).

Definition set_stores (es : ES) (s : Server) : Server := mkServer es.1 es.2 (syncMgr s) (sv_password s)
  (redirectWrites s) (sv_masterAddr s) (sv_masterPassword s) (connCount s) (commandCount s) (errorCount s)
  (dials s) (master_sent s).
Definition set_counts (conns cmds errs : Z) (s : Server) : Server := mkServer (sv_lua s) (sv_storage s) (syncMgr s)
  (sv_password s) (redirectWrites s) (sv_masterAddr s) (sv_masterPassword s) conns cmds errs (dials s) (master_sent s).
Definition set_master (n : nat) (l : list bytes) (s : Server) : Server := mkServer (sv_lua s) (sv_storage s)
  (syncMgr s) (sv_password s) (redirectWrites s) (sv_masterAddr s) (sv_masterPassword s) (connCount s)
  (commandCount s) (errorCount s) n l.
Definition set_access (password : bytes) (redirect : bool) (addr mpassword : bytes) (s : Server) : Server :=
  mkServer (sv_lua s) (sv_storage s) (syncMgr s) password redirect addr mpassword (connCount s) (commandCount s)
  (errorCount s) (dials s) (master_sent s).
Definition set_syncMgr (m : option SyncStatus) (s : Server) : Server := mkServer (sv_lua s) (sv_storage s) m
  (sv_password s) (redirectWrites s) (sv_masterAddr s) (sv_masterPassword s) (connCount s) (commandCount s)
  (errorCount s) (dials s) (master_sent s).

Definition set_io (r : Reader) (w : Writer) (c : Conn) : Conn :=
  mkConn r w (authenticated c) (cl_db c) (lastCmd c) (closed c).
Definition set_auth (b : bool) (c : Conn) : Conn := mkConn (cl_reader c) (cl_writer c) b (cl_db c) (lastCmd c) (closed c).
Definition set_db (db : Z) (c : Conn) : Conn := mkConn (cl_reader c) (cl_writer c) (authenticated c) db (lastCmd c) (closed c).
Definition set_lastCmd (t : Z) (c : Conn) : Conn := mkConn (cl_reader c) (cl_writer c) (authenticated c) (cl_db c) t (closed c).
Definition set_closed (c : Conn) : Conn := mkConn (cl_reader c) (cl_writer c) (authenticated c) (cl_db c) (lastCmd c) true.

Definition NewServer (s : MemoryStorage) : Server :=
  mkServer (NewEngine []) s None [] false [] [] 0 0 0 0 [].

Definition SetPassword (password : bytes) (s : Server) : Server :=
  set_access password (redirectWrites s) (sv_masterAddr s) (sv_masterPassword s) s.
Definition SetSyncManager (m : SyncStatus) : Server -> Server := set_syncMgr (Some m).
Definition SetWriteRedirection (enabled : bool) (masterAddr masterPassword : bytes) (s : Server) : Server :=
  set_access (sv_password s) enabled masterAddr masterPassword s.

(** A new client, on the connection that delivers [r]. *)
Definition handleNewClient (r : Reader) (s : Server) : Server * Conn :=
  (set_counts (connCount s + 1) (commandCount s) (errorCount s) s,
   mkConn r NewWriter (bool_decide (sv_password s = [])) 0 now false).

(** The counters of [Stats]; the number of clients is the caller's. *)
Definition Server_Stats (s : Server) : Z * Z * Z := (commandCount s, errorCount s, connCount s).

(** ** Parts of the state *)

Definition get_server : H Server := fun ss => (Ok ss.1, ss).
Definition get_conn : H Conn := fun ss => (Ok ss.2, ss).
Definition mod_server (f : Server -> Server) : H unit := gmodify (fun ss => (f ss.1, ss.2)).
Definition mod_conn (f : Conn -> Conn) : H unit := gmodify (fun ss => (ss.1, f ss.2)).

Definition on_storage {A} (m : Mem A) : H A := fun ss =>
  let '(o, s) := m (sv_storage ss.1) in (o, (set_stores (sv_lua ss.1, s) ss.1, ss.2)).
Definition on_lua {A} (m : M ES A) : H A := fun ss =>
  let '(o, es) := m (sv_lua ss.1, sv_storage ss.1) in (o, (set_stores es ss.1, ss.2)).
Definition mod_lua {A} (f : Engine -> A * Engine) : H A := fun ss =>
  let '(a, e) := f (sv_lua ss.1) in (Ok a, (set_stores (e, sv_storage ss.1) ss.1, ss.2)).

Definition Close : H unit := mod_conn set_closed.

(** ** Replies *)

(** [_ = c.writer.<write>; _ = c.writer.Flush()] *)
Definition send (m : M Writer unit) : H unit := fun ss =>
  let '(o, w) := (gtry m gret (fun _ => gret tt) ;;! gtry Flush gret (fun _ => gret tt)) (cl_writer ss.2) in
  (o, (ss.1, set_io (cl_reader ss.2) w ss.2)).

Definition writeString (s : bytes) : H unit := send (WriteSimpleString s).

Definition clean_line (s : bytes) : bytes :=
  ReplaceByte (ReplaceByte s Byte.x0a " "%byte) Byte.x0d " "%byte.

Definition writeError (s : bytes) : H unit :=
  mod_server (fun sv => set_counts (connCount sv) (commandCount sv) (errorCount sv + 1) sv) ;;!
  send (WriteError (clean_line s)).

Definition writeBulkString (data : bytes) : H unit := send (WriteBulkString data).
Definition writeNull : H unit := send WriteNullBulkString.
Definition writeInteger (i : Z) : H unit := send (WriteInteger i).

Fixpoint convertToValue (item : GoValue) : Value :=
  match item with
  | GNil => NullBulkStringValue
  | GString v => BulkStringValue v
  | GInt v => IntegerValue v
  | GBool v => if v then IntegerValue 1 else NullBulkStringValue
  | GBytes v => BulkStringValue v
  | GSlice v => ArrayValue (map convertToValue v)
  | GStrings v => ArrayValue (BulkStringValue <$> v)
  | GFloat f => BulkStringValue (fmt_v_float f)
  | GMap l => BulkStringValue (fmt_v_map l)
  end.

Definition writeArray (array : list GoValue) : H unit := send (WriteArray (convertToValue <$> array)).

(** The map the assignments build; a later one wins. *)
Definition built_map (l : list (bytes * GoValue)) : gmap bytes GoValue := list_to_map (reverse l).

Definition writeResult (result : GoValue) : H unit :=
  match result with
  | GNil => writeNull
  | GBool v => if v then writeInteger 1 else writeNull
  | GString v => writeBulkString v
  | GInt v => writeInteger v
  | GFloat v => writeBulkString (fmt_17g v)
  | GSlice v => writeArray v
  | GStrings v => writeArray (GString <$> v)
  | GMap v =>
      let! entries := on_storage (range_map (built_map v)) in
      writeArray (entries ≫= fun '(key, value) => [GString key; value])
  | GBytes v => writeBulkString (bs "[" ++ Join ((fun b => FormatInt (bz b)) <$> v) (bs " ") ++ bs "]")
  end.

Definition wrong_args (name : bytes) : H unit :=
  writeError (bs "ERR wrong number of arguments for '" ++ name ++ bs "' command").

(** ** Connection and keys *)

Definition handleAuth (cmd : Command) : H unit :=
  match Args cmd with
  | [password] =>
      let! sv := get_server in
      if bool_decide (sv_password sv = []) then
        writeError (bs "ERR Client sent AUTH, but no password is set")
      else if bool_decide (password = sv_password sv) then
        mod_conn (set_auth true) ;;! writeString (bs "OK")
      else writeError (bs "ERR invalid password")
  | _ => wrong_args (bs "auth")
  end.

Definition handlePing (cmd : Command) : H unit :=
  match Args cmd with
  | [] => writeString (bs "PONG")
  | [message] => writeBulkString message
  | _ => wrong_args (bs "ping")
  end.

Definition handleSelect (cmd : Command) : H unit :=
  match Args cmd with
  | [arg] =>
      match ParseInt arg with
      | None => writeError (bs "ERR invalid DB index")
      | Some db =>
          gtry (on_storage (SelectDB db))
            (fun _ => mod_conn (set_db db) ;;! writeString (bs "OK"))
            (fun err => writeError (bs "ERR " ++ Error err))
      end
  | _ => wrong_args (bs "select")
  end.

(** Whether reads are refused because the first synchronisation is not over. *)
Definition loading (sv : Server) : bool :=
  match syncMgr sv with Some status => negb (ss_InitialSyncCompleted status) | None => false end.

Definition handleGet (cmd : Command) : H unit :=
  match Args cmd with
  | [key] =>
      let! sv := get_server in
      if loading sv then writeError (bs "LOADING Redis is loading the dataset in memory")
      else
        let! value := on_storage (Get now key) in
        match value with None => writeNull | Some d => writeBulkString d end
  | _ => wrong_args (bs "get")
  end.

Definition handleMGet (cmd : Command) : H unit :=
  match Args cmd with
  | [] => wrong_args (bs "mget")
  | keys =>
      let! sv := get_server in
      if loading sv then writeError (bs "LOADING Redis is loading the dataset in memory")
      else
        let! values := on_storage (gfold (fun values key =>
          let! value := Get now key in
          gret (values ++ [match value with Some d => GString d | None => GNil end])) keys []) in
        writeArray values
  end.

Definition handleExists (cmd : Command) : H unit :=
  match Args cmd with
  | [] => wrong_args (bs "exists")
  | keys => let! count := on_storage (Exists now keys) in writeInteger count
  end.

Definition handleType (cmd : Command) : H unit :=
  match Args cmd with
  | [key] => let! valueType := on_storage (Type_ now key) in writeString (ValueType_String valueType)
  | _ => wrong_args (bs "type")
  end.

Definition handleTTL (cmd : Command) : H unit :=
  match Args cmd with
  | [key] => let! ttl := on_storage (TTL now key) in writeInteger (int64_of_float (Duration_Seconds ttl))
  | _ => wrong_args (bs "ttl")
  end.

Definition handlePTTL (cmd : Command) : H unit :=
  match Args cmd with
  | [key] => let! ttl := on_storage (PTTL now key) in writeInteger (Z.quot ttl Millisecond)
  | _ => wrong_args (bs "pttl")
  end.

(** ** Key listings *)

Definition handleKeys (cmd : Command) : H unit :=
  match Args cmd with
  | [pattern] => let! keys := on_storage (Keys strategy now pattern) in writeArray (GString <$> keys)
  | _ => wrong_args (bs "keys")
  end.

(** The loop over the options; the error of a bad one. Other words are skipped. *)
Fixpoint scan_options (args : list bytes) (pattern : bytes) (count : Z) : bytes + bytes * Z :=
  match args with
  | [] => inr (pattern, count)
  | arg :: rest =>
      let arg := ToUpper arg in
      if bool_decide (arg = bs "MATCH") then
        match rest with
        | [] => inl (bs "ERR syntax error")
        | p :: rest' => scan_options rest' p count
        end
      else if bool_decide (arg = bs "COUNT") then
        match rest with
        | [] => inl (bs "ERR syntax error")
        | n :: rest' =>
            match ParseInt n with
            | Some count' => if count' <=? 0 then inl (bs "ERR invalid count") else scan_options rest' pattern count'
            | None => inl (bs "ERR invalid count")
            end
        end
      else scan_options rest pattern count
  end.

Definition handleScan (cmd : Command) : H unit :=
  match Args cmd with
  | [] => wrong_args (bs "scan")
  | arg :: rest =>
      match ParseInt arg with
      | None => writeError (bs "ERR invalid cursor")
      | Some cursor =>
          match scan_options rest [] 10 with
          | inl msg => writeError msg
          | inr (pattern, count) =>
              let! (newCursor, keys) := on_storage (Scan strategy now cursor pattern count) in
              writeArray [GString (FormatInt newCursor); GSlice (GString <$> keys)]
          end
      end
  end.

Definition handleDBSize (cmd : Command) : H unit :=
  match Args cmd with
  | [] => let! size := on_storage KeyCount in writeInteger size
  | _ => wrong_args (bs "dbsize")
  end.

(** ** Introspection *)

Definition line (s : bytes) : bytes := s ++ CRLF.

Definition info_server : bytes :=
  line (bs "# Server") ++ line (bs "redis_version:7.0.0") ++ line (bs "redis_mode:replica") ++
  line (bs "arch_bits:64") ++ line (bs "os:Linux") ++ CRLF.

(** [time.Since(t)] saturates as [time.Until] does. *)
Definition info_replication (m : option SyncStatus) : bytes :=
  line (bs "# Replication") ++ line (bs "role:slave") ++
  (match m with
   | Some status =>
       line (bs "master_host:" ++ MasterHost status) ++
       line (if ss_Connected status then bs "master_link_status:up" else bs "master_link_status:down") ++
       line (bs "master_last_io_seconds_ago:" ++
         FormatInt (int64_of_float (Duration_Seconds (Until (ss_LastSyncTime status) now)))) ++
       line (if ss_InitialSyncCompleted status then bs "master_sync_in_progress:0" else bs "master_sync_in_progress:1") ++
       line (bs "master_repl_offset:" ++ FormatInt (ss_ReplicationOffset status))
   | None =>
       line (bs "master_host:unknown") ++ line (bs "master_link_status:down") ++
       line (bs "master_last_io_seconds_ago:-1") ++ line (bs "master_sync_in_progress:0") ++
       line (bs "master_repl_offset:0")
   end) ++ CRLF.

Definition info_memory (usage : Z) : bytes :=
  line (bs "# Memory") ++ line (bs "used_memory:" ++ FormatInt usage) ++
  line (bs "used_memory_human:" ++ formatBytes usage) ++ CRLF.

Definition info_keyspace (dbs : list (Z * (Z * Z))) : bytes :=
  match dbs with
  | [] => []
  | _ => line (bs "# Keyspace") ++
      concat ((fun '(db, (keys, expires)) => line (bs "db" ++ FormatInt db ++ bs ":keys=" ++ FormatInt keys ++
        bs ",expires=" ++ FormatInt expires)) <$> dbs) ++ CRLF
  end.

Definition info_section (m : option SyncStatus) (info section : bytes) : Mem bytes :=
  let named (name : string) := bool_decide (section = bs name) in
  let info := if named "all"%string || named "server"%string then info ++ info_server else info in
  let info := if named "all"%string || named "replication"%string then info ++ info_replication m else info in
  let! info := if named "all"%string || named "memory"%string then
      let! usage := MemoryUsage in gret (info ++ info_memory usage)
    else gret info in
  if named "all"%string || named "keyspace"%string then
    let! dbInfo := DatabaseInfo now in
    let! dbs := range_map dbInfo in
    gret (info ++ info_keyspace dbs)
  else gret info.

Definition handleInfo (cmd : Command) : H unit :=
  let sections := match Args cmd with [] => [bs "all"] | args => ToLower <$> args end in
  let! sv := get_server in
  let! info := on_storage (gfold (info_section (syncMgr sv)) sections []) in
  writeBulkString (TrimSpace info).

Definition handleRole (cmd : Command) : H unit :=
  match Args cmd with
  | [] =>
      let! sv := get_server in
      writeArray (GString (bs "slave") ::
        match syncMgr sv with
        | Some status =>
            match SplitByte (MasterHost status) ":"%byte with
            | [host; port] => [GString host; GInt (default 6379 (ParseInt port))]
            | _ => [GString (MasterHost status); GInt 6379]
            end ++ [GInt (ss_ReplicationOffset status)]
        | None => [GString (bs "unknown"); GInt 6379; GInt 0]
        end)
  | _ => wrong_args (bs "role")
  end.

Definition handleCommand (cmd : Command) : H unit :=
  match Args cmd with
  | [] => writeInteger 20
  | sub :: _ =>
      if bool_decide (ToUpper sub = bs "DOCS") then writeArray []
      else writeError (bs "ERR unknown COMMAND subcommand")
  end.

Definition handleReadOnly (cmd : Command) : H unit :=
  match Args cmd with [] => writeString (bs "OK") | _ => wrong_args (bs "readonly") end.

Definition handleConfigGet (cmd : Command) : H unit :=
  match Args cmd with
  | [_; name] =>
      let parameter := ToLower name in
      if bool_decide (parameter = bs "databases") || bool_decide (parameter = bs "*") then
        writeArray [GString (bs "databases"); GString (bs "16")]
      else writeArray []
  | _ => wrong_args (bs "config get")
  end.

Definition handleConfig (cmd : Command) : H unit :=
  match Args cmd with
  | [] => wrong_args (bs "config")
  | sub :: _ =>
      if bool_decide (ToUpper sub = bs "GET") then handleConfigGet cmd
      else writeError (bs "ERR Unknown CONFIG subcommand or wrong number of arguments")
  end.

(** ** Scripts *)

(** The key count and what follows it: the keys and the other arguments. The sum
    in the test can wrap; [make] then panics on the count. *)
Definition script_args (rest : list bytes) : outcome (bytes + list bytes * list bytes) :=
  match rest with
  | [] => Ok (inl (bs "ERR value is not an integer or out of range"))
  | n :: args =>
      match ParseInt n with
      | None => Ok (inl (bs "ERR value is not an integer or out of range"))
      | Some numKeys =>
          if (numKeys <? 0) || (2 + Z.of_nat (length args) <? wrap64 (2 + numKeys)) then
            Ok (inl (bs "ERR Number of keys can't be negative or greater than args"))
          else if maxAlloc <? 16 * numKeys then Panic (bs "makeslice: len out of range")
          else Ok (inr (take (Z.to_nat numKeys) args, drop (Z.to_nat numKeys) args))
      end
  end.

(** The part [handleEval] and [handleEvalSHA] share. *)
Definition eval_with (run : list bytes -> list bytes -> M ES GoValue) (rest : list bytes) : H unit :=
  let! parsed := fun ss => (script_args rest, ss) in
  match parsed with
  | inl msg => writeError msg
  | inr (keys, args) => gtry (on_lua (run keys args)) writeResult (fun err => writeError (bs "ERR " ++ Error err))
  end.

Definition handleEval (cmd : Command) : H unit :=
  match Args cmd with
  | script :: (_ :: _) as rest => eval_with (Eval now script) rest
  | _ => wrong_args (bs "eval")
  end.

Definition handleEvalSHA (cmd : Command) : H unit :=
  match Args cmd with
  | sha :: (_ :: _) as rest => eval_with (EvalSHA now sha) rest
  | _ => wrong_args (bs "evalsha")
  end.

Definition handleScript (cmd : Command) : H unit :=
  match Args cmd with
  | [] => wrong_args (bs "script")
  | sub :: rest =>
      let subCmd := ToUpper sub in
      if bool_decide (subCmd = bs "LOAD") then
        match rest with
        | [script] => let! sha := mod_lua (LoadScript script) in writeString sha
        | _ => wrong_args (bs "script load")
        end
      else if bool_decide (subCmd = bs "EXISTS") then
        match rest with
        | [] => wrong_args (bs "script exists")
        | hashes =>
            let! sv := get_server in
            writeArray ((fun exists_ : bool => GInt (if exists_ then 1 else 0)) <$> ScriptExists hashes (sv_lua sv))
        end
      else if bool_decide (subCmd = bs "FLUSH") then
        match rest with
        | [] => mod_lua (fun e => (tt, ScriptFlush e)) ;;! writeString (bs "OK")
        | _ => wrong_args (bs "script flush")
        end
      else writeError (bs "ERR unknown SCRIPT subcommand '" ++ subCmd ++ bs "'")
  end.

(** ** Writes, refused or sent to the master *)

Definition writeCommandToMaster (cmd : Command) : M Writer unit :=
  WriteArray (BulkStringValue <$> (Name cmd :: Args cmd)) ;;! Flush.

Fixpoint protocolValueToInterface (val : Value) : GoValue :=
  match val with
  | mkValue ty d n arr null =>
      if bool_decide (ty = TypeSimpleString) then GString d
      else if bool_decide (ty = TypeError) then GString (bs "ERR " ++ d)
      else if bool_decide (ty = TypeInteger) then GInt n
      else if bool_decide (ty = TypeBulkString) then if null then GNil else GBytes d
      else if bool_decide (ty = TypeArray) then
        if null then GNil else GSlice (map protocolValueToInterface arr)
      else GString d
  end.

Definition forwardResponse (resp : Value) : H unit :=
  let ty := VType resp in
  if bool_decide (ty = TypeSimpleString) then writeString (Data resp)
  else if bool_decide (ty = TypeError) then writeError (Data resp)
  else if bool_decide (ty = TypeInteger) then writeInteger (Integer resp)
  else if bool_decide (ty = TypeBulkString) then
    if IsNull resp then writeNull else writeBulkString (Data resp)
  else if bool_decide (ty = TypeArray) then
    if IsNull resp then writeNull else writeArray (protocolValueToInterface <$> Array resp)
  else writeError (bs "ERR unsupported response type from master").

(** What is said to the master on one connection: [inl] is the error the client is
    told, [inr] the master's answer. *)
Definition ask_master (password : bytes) (cmd : Command) (r : Reader) : (bytes + Value) * Writer :=
  let ask (c : Command) (rw : Reader * Writer) (werr rerr : bytes) : outcome (bytes + Value) * (Reader * Writer) :=
    let '(o, w) := writeCommandToMaster c rw.2 in
    match o with
    | Err e => (Ok (inl (werr ++ Error e)), (rw.1, w))
    | _ =>
        let '(o, r) := ReadNext rw.1 in
        match o with
        | Ok v => (Ok (inr v), (r, w))
        | Err e => (Ok (inl (rerr ++ Error e)), (r, w))
        | _ => (OutOfFuel, (r, w))
        end
    end in
  let original (rw : Reader * Writer) : (bytes + Value) * Writer :=
    match ask cmd rw (bs "ERR failed to send command to master: ") (bs "ERR failed to read response from master: ") with
    | (Ok x, (_, w)) => (x, w)
    | (_, (_, w)) => (inl [], w)
    end in
  if bool_decide (password = []) then original (r, NewWriter)
  else
    match ask (mkCommand (bs "AUTH") [password]) (r, NewWriter) (bs "ERR failed to send auth to master: ")
            (bs "ERR failed to read auth response: ") with
    | (Ok (inr resp), rw) =>
        if bool_decide (VType resp = TypeError) then (inl (Data resp), rw.2) else original rw
    | (Ok (inl msg), (_, w)) => (inl msg, w)
    | (_, (_, w)) => (inl [], w)
    end.

Definition redirectToMaster (cmd : Command) : H unit :=
  let! sv := get_server in
  if bool_decide (sv_masterAddr sv = []) then
    writeError (bs "ERR master address not configured for write redirection")
  else
    let n := dials sv in
    mod_server (set_master (S n) (master_sent sv)) ;;!
    match master_dial n with
    | inl err => writeError (bs "ERR failed to connect to master: " ++ Error err)
    | inr r =>
        match master_deadline n with
        | Some err => writeError (bs "ERR failed to set connection deadline: " ++ Error err)
        | None =>
            let '(answer, w) := ask_master (sv_masterPassword sv) cmd r in
            mod_server (fun sv => set_master (dials sv) (master_sent sv ++ [w_sent w]) sv) ;;!
            match answer with inl msg => writeError msg | inr resp => forwardResponse resp end
        end
    end.

Definition write_command (cmd : Command) : H unit :=
  let! sv := get_server in
  if redirectWrites sv then redirectToMaster cmd
  else writeError (bs "READONLY You can't write against a read only replica").

Definition handleSet (cmd : Command) : H unit := write_command cmd.
Definition handleDel (cmd : Command) : H unit := write_command cmd.

(** ** Dispatch *)

(** The [switch] of [executeCommand]; the name is upper case when it gets here. *)
Definition handlers : list (string * (Command -> H unit)) := [
  ("AUTH"%string, handleAuth); ("PING"%string, handlePing); ("SELECT"%string, handleSelect);
  ("GET"%string, handleGet); ("MGET"%string, handleMGet); ("SET"%string, handleSet); ("DEL"%string, handleDel);
  ("EXISTS"%string, handleExists); ("TTL"%string, handleTTL); ("PTTL"%string, handlePTTL);
  ("TYPE"%string, handleType); ("KEYS"%string, handleKeys); ("SCAN"%string, handleScan);
  ("DBSIZE"%string, handleDBSize); ("INFO"%string, handleInfo); ("ROLE"%string, handleRole);
  ("COMMAND"%string, handleCommand); ("CONFIG"%string, handleConfig); ("READONLY"%string, handleReadOnly);
  ("EVAL"%string, handleEval); ("EVALSHA"%string, handleEvalSHA); ("SCRIPT"%string, handleScript);
  ("QUIT"%string, fun _ => writeString (bs "OK") ;;! Close)].

Definition handler_for (name : bytes) : option (Command -> H unit) :=
  snd <$> find (fun h => bool_decide (bs h.1 = name)) handlers.

Definition server_command (cmd : Command) : H unit :=
  mod_server (fun sv => set_counts (connCount sv) (commandCount sv + 1) (errorCount sv) sv) ;;!
  let! c := get_conn in
  if negb (authenticated c) && negb (bool_decide (ToUpper (Name cmd) = bs "AUTH")) then
    writeError (bs "NOAUTH Authentication required")
  else
    match handler_for (ToUpper (Name cmd)) with
    | Some h => h cmd
    | None => writeError (bs "ERR unknown command '" ++ Name cmd ++ bs "'")
    end.

(** What [handle] does with the result of a read: whether it goes on. [cancelled]:
    the context of the client is over. *)
Definition handle_value (cancelled : bool) (o : outcome Value) : H bool :=
  match o with
  | Err err =>
      if bool_decide (err = EOF) || cancelled then gret false
      else writeError (bs "Protocol error: " ++ Error err) ;;! gret false
  | Ok value =>
      match ParseCommand value with
      | Ok cmd => mod_conn (set_lastCmd now) ;;! server_command cmd ;;! gret true
      | Err err => writeError (bs "Protocol error: " ++ Error err) ;;! gret true
      | Panic p => fun ss => (Panic p, ss)
      | OutOfFuel => fun ss => (OutOfFuel, ss)
      end
  | Panic p => fun ss => (Panic p, ss)
  | OutOfFuel => fun ss => (OutOfFuel, ss)
  end.

(** The loop of [handle], of a server that is not stopped: each round reads at least
    a byte or ends it. *)
Fixpoint handle_loop (fuel : nat) : H unit :=
  match fuel with
  | O => fun ss => (OutOfFuel, ss)
  | S fuel' =>
      let! c := get_conn in
      if closed c then gret tt
      else
        let '(o, r) := ReadNext (cl_reader c) in
        mod_conn (set_io r (cl_writer c)) ;;!
        let! more := handle_value false o in
        if (more : bool) then handle_loop fuel' else gret tt
  end.

Definition handle : H unit :=
  gdefer Close (fun ss => handle_loop (S (length (rd_buf (cl_reader ss.2)))) ss).

End Server.
