(* ===== verification/ServerProofs.v ===== *)
(** * Proofs about the server

    A handler sends exactly one reply to its client. The lemmas are relative to
    a preorder [R] on storages that the storage operations of a handler respect and a
    predicate [P] on the scripts the server has been given;
    [spares] is the one of the commands that only read. *)

From Stdlib Require Import ZArith Lia String.
From stdpp Require Import base list list_numbers gmap fin_maps.
From S2P Require Import Prelude GoLib RespTypes RespWriter RespReader RespProofs StorageTypes Matching Memory.
From S2P Require Import MemoryInv StoreSpec MemoryOps MemoryBulk MemoryEvict MemoryCleanup MemoryScan MemorySpec.
From S2P Require Import Sync Sha1 Lua LuaSpec Server.

(** ** Shapes of replies *)

(** A value of one of the shapes of the protocol, of any size. *)
Inductive shaped : Value -> Prop :=
| shaped_simple d : no_lf d -> shaped (SimpleStringValue d)
| shaped_error d : no_lf d -> shaped (ErrorValue d)
| shaped_integer n : shaped (IntegerValue n)
| shaped_bulk d : shaped (BulkStringValue d)
| shaped_null : shaped NullBulkStringValue
| shaped_array a : Forall shaped a -> shaped (ArrayValue a).

(** Integers of 64 bits and lengths the reader accepts. *)
Fixpoint fits (v : Value) : Prop :=
  match v with
  | mkValue _ d n arr _ => in_int64 n /\ Z.of_nat (length d) <= maxBulkSize /\
      Z.of_nat (length arr) <= maxArraySize /\ fold_right (fun v P => fits v /\ P) True arr
  end.

Lemma shaped_wf v : shaped v -> fits v -> wf_value v.
Proof.
  induction v as [ty d n arr null IH] using Value_ind_nested. intros Hs. inversion Hs; subst; cbn; intros Hf.
  - by constructor.
  - by constructor.
  - constructor. apply Hf.
  - constructor. apply Hf.
  - constructor.
  - destruct Hf as (_ & _ & Hlen & Hall). constructor; [done|].
    match goal with H : Forall shaped arr |- _ => rename H into Ha end. clear Hs Hlen.
    induction arr as [|v arr IHa]; [constructor|]. apply Forall_cons in IH as [IHv IHr].
    apply Forall_cons in Ha as [Hv Hr]. destruct Hall as [Hfv Hfr]. constructor; auto.
Qed.

Lemma GoValue_ind_nested (P : GoValue -> Prop) : P GNil -> (forall b, P (GBool b)) -> (forall s, P (GString s)) ->
  (forall n, P (GInt n)) -> (forall f, P (GFloat f)) -> (forall d, P (GBytes d)) ->
  (forall l, Forall P l -> P (GSlice l)) -> (forall l, P (GStrings l)) -> (forall l, P (GMap l)) -> forall v, P v.
Proof.
  intros H1 H2 H3 H4 H5 H6 H7 H8 H9. fix IH 1. intros [|b|s|n|f|d|l|l|l];
    [exact H1|apply H2|apply H3|apply H4|apply H5|apply H6|apply H7|apply H8|apply H9].
  induction l as [|x l IHl]; constructor; [apply IH|exact IHl].
Qed.

Lemma shaped_supported v : shaped v -> supported v = true.
Proof.
  induction v as [ty d n arr null IH] using Value_ind_nested. intros Hs. inversion Hs; subst; try done.
  apply forallb_forall. intros x Hx%list_elem_of_In. rewrite Forall_forall in IH.
  apply IH; [done|]. match goal with H : Forall shaped arr |- _ => by rewrite Forall_forall in H; apply H end.
Qed.

Lemma clean_line_no_lf s : no_lf (clean_line s).
Proof.
  unfold clean_line, ReplaceByte, no_lf. rewrite !Forall_fmap. apply Forall_forall. intros c _. cbn.
  repeat case_bool_decide; congruence.
Qed.

Section ServerProofs.
  Context `{Hash : XXHash} `{Runtime : GoRuntime} {VM : LuaVM} {U : GoUnicode} {Net : MasterNet} {Fmt : GoFormat}.
  Context (strategy now : Z).

Lemma shaped_convert item : shaped (convertToValue item).
Proof.
  induction item as [|b| | | | |l IH|l|l] using GoValue_ind_nested; cbn [convertToValue]; try constructor.
  - destruct b; constructor.
  - induction IH; constructor; auto.
  - apply Forall_fmap, Forall_forall. intros; constructor.
Qed.

(** ** Writes to a connection that works *)

Definition healthy (c : Conn) (sent : bytes) : Prop := cl_writer c = mkWriter [] sent None.

(** The client and the server after the reply [out], or an error. *)
Definition said (c : Conn) (out : bytes) : Conn := set_io (cl_reader c) (mkWriter [] out None) c.
Definition failed (sv : Server) : Server := set_counts (connCount sv) (commandCount sv) (errorCount sv + 1) sv.

Lemma send_eq m out sv c sent : emits m out -> healthy c sent -> send m (sv, c) = (Ok tt, (sv, said c (sent ++ out))).
Proof. intros Hm Hc. unfold send. cbn [snd]. rewrite Hc. by erewrite gbind_ok by (by erewrite gtry_ok by apply Hm). Qed.

Lemma writeError_eq s sv c sent : healthy c sent ->
  writeError s (sv, c) = (Ok tt, (failed sv, said c (sent ++ encode (ErrorValue (clean_line s))))).
Proof.
  intros Hc. unfold writeError, mod_server, gmodify, gbind. cbn [fst snd].
  by apply send_eq; [apply (WriteValue_encode (ErrorValue (clean_line s)) eq_refl)|].
Qed.

Lemma write_value_eq v m sv c sent : m = WriteValue v -> supported v = true -> healthy c sent ->
  send m (sv, c) = (Ok tt, (sv, said c (sent ++ encode v))).
Proof. intros -> Hv Hc. by apply send_eq; [apply WriteValue_encode|]. Qed.

(** ** What a reading operation leaves alone *)

Definition value_at (t : Z) (a : AStore) (db : Z) (k : bytes) : option StoredValue :=
  live t (default ∅ (adbs a !! db)) k.

(** From now on every key of every database reads as before. *)
Definition spares (s s' : MemoryStorage) : Prop := memoryLimit s' = memoryLimit s /\
  forall t db k, now <= t -> value_at t (abstract s') db k = value_at t (abstract s) db k.

Lemma spares_refl s : spares s s.
Proof. done. Qed.

Lemma spares_trans s1 s2 s3 : spares s1 s2 -> spares s2 s3 -> spares s1 s3.
Proof. intros [L1 H1] [L2 H2]. split; [congruence|]. intros t db k Ht. by rewrite H2, H1. Qed.

Lemma spares_same s s' : abstract s' = abstract s -> spares s s'.
Proof. unfold spares. intros E. split; [by injection E|]. intros. by rewrite E. Qed.

(** A cleanup cycle, too, leaves every key that can be read as it was. *)
Lemma cleanup_spares s : wf s -> exists s', performCleanup now s = (Ok tt, s') /\ wf s' /\ spares s s'.
Proof.
  intros Hs. destruct (performCleanup_ok now s Hs) as (s' & gone & E & Hev & [Hdom Hsh] & _).
  exists s'. split; [done|]. split; [apply Hev|]. split; [apply (config_fields _ _ (ev_config _ _ _ _ Hev))|].
  intros t db k Ht. unfold value_at. cbn [abstract adbs]. destruct (absDB s !! db) as [m0|] eqn:E0; cycle 1.
  { destruct (absDB s' !! db) eqn:E1; [|done]. destruct (proj1 (Hdom db)) as [? ?]; [by rewrite E1|congruence]. }
  destruct (proj2 (Hdom db)) as [m1 E1]; [by rewrite E0|]. rewrite E1. cbn [default].
  cbn in *. destruct (Hsh db m0 m1 E0 E1) as [Hsub Hkeep]. unfold live. destruct (m1 !! k) as [v|] eqn:Ek.
  { by rewrite (lookup_weaken _ _ _ _ Ek Hsub). }
  destruct (m0 !! k) as [v|] eqn:Ek0; [|done]. destruct (IsExpired now v) eqn:Ex.
  - by rewrite (IsExpired_mono now t v Ht Ex).
  - by rewrite (Hkeep k v Ek0 Ex) in Ek.
Qed.

Lemma live_delete_expired t m k v k' : m !! k = Some v -> IsExpired now v = true -> now <= t ->
  live t (delete k m) k' = live t m k'.
Proof.
  intros Hk He Ht. unfold live. destruct (decide (k' = k)) as [->|Hne]; [|by rewrite lookup_delete_ne].
  rewrite lookup_delete_eq, Hk. by rewrite (IsExpired_mono now t v Ht He).
Qed.

(** The operations that only read, and the selection of a database. *)
Definition reading_op (op : Op) : Prop :=
  match op with
  | OpGet _ | OpExists _ | OpTTL _ | OpPTTL _ | OpType _ | OpKeys _ _ | OpKeyCount | OpMemoryUsage | OpSelectDB _ | OpInfo _ | OpDatabaseInfo => True
  | OpScan _ _ _ count => 0 <= count /\ 16 * count <= maxAlloc
  | _ => False
  end.

Lemma reading_spares op s s' r : reading_op op -> astep now (abstract s) op r (abstract s') -> spares s s'.
Proof.
  destruct op; try done; intros _; cbn [astep]; try (intros [_ E]; by apply spares_same).
  - intros [_ E]. case_bool_decide as Hl; [by apply spares_same|]. split; [by injection E|]. intros t db k Ht.
    unfold value_at. rewrite E. unfold with_selected. cbn [adbs].
    destruct (decide (db = acur (abstract s))) as [->|Hne]; [|by rewrite lookup_insert_ne].
    rewrite lookup_insert_eq. cbn [default]. fold (selected (abstract s)).
    destruct (selected (abstract s) !! key) as [v|] eqn:Ek.
    + apply (live_delete_expired t _ key v); [done| |done]. unfold live in Hl. rewrite Ek in Hl.
      destruct (IsExpired now v); [done|]. by destruct Hl.
    + by rewrite delete_id.
  - intros (ks & _ & E & _). by apply spares_same.
  - destruct (_ || _); [intros [_ E]; by apply spares_same|]. intros [_ E]. split; [by injection E|].
    intros t db' k Ht. unfold value_at. rewrite E. cbn [adbs]. destruct (decide (db' = db)) as [->|Hne].
    + rewrite lookup_partial_alter_eq. by destruct (adbs (abstract s) !! db).
    + by rewrite lookup_partial_alter_ne.
  - intros (L & _ & _ & E). by apply spares_same.
  - intros (n & E & _). by apply spares_same.
  - intros (info & _ & E & _). by apply spares_same.
Qed.

(** ** Computations on the storage *)

Section Answers.
  Context (R : MemoryStorage -> MemoryStorage -> Prop) (R_trans : forall s1 s2 s3, R s1 s2 -> R s2 s3 -> R s1 s3).
  Context (R_spares : forall s s', spares s s' -> R s s').

Lemma R_refl s : R s s.
Proof. apply R_spares, spares_refl. Qed.

Definition query {A} (m : Mem A) : Prop := forall s, wf s -> exists a s', m s = (Ok a, s') /\ wf s' /\ R s s'.
Definition attempt {A} (m : Mem A) : Prop := forall s, wf s -> exists o s', m s = (o, s') /\ returns o /\ wf s' /\ R s s'.

Lemma query_ret {A} (a : A) : query (gret a).
Proof. intros s Hs. exists a, s. split_and!; [done|done|apply R_refl]. Qed.

Lemma query_bind {A B} (m : Mem A) (k : A -> Mem B) : query m -> (forall a, query (k a)) -> query (gbind m k).
Proof.
  intros Hm Hk s Hs. destruct (Hm s Hs) as (a & s1 & E1 & Hs1 & H1). destruct (Hk a s1 Hs1) as (b & s2 & E2 & Hs2 & H2).
  exists b, s2. unfold gbind. rewrite E1, E2. split_and!; [done|done|by eapply R_trans].
Qed.

Lemma query_fold {A B} (f : B -> A -> Mem B) l : (forall b a, query (f b a)) -> forall b, query (gfold f l b).
Proof.
  intros Hf. induction l as [|a l IH]; intros b; [apply query_ret|]. cbn [gfold]. by apply query_bind.
Qed.

Lemma query_quiet {A} (m : Mem A) P : (forall s, wf s -> queries m P s) -> query m.
Proof.
  intros Hm s Hs. destruct (Hm s Hs) as (a & s' & E & Hq & _). exists a, s'. split; [done|].
  pose proof (quiet_evolves s s' Hs Hq) as He. split; [apply He|].
  apply R_spares, spares_same. destruct Hq as [t ->]. done.
Qed.

Lemma query_range {K A} `{Countable K} (m : gmap K A) : query (range_map m).
Proof. eapply query_quiet. intros s _. apply queries_range. Qed.

(** An operation on the storage answers, and not with an error unless it may. *)
Lemma attempt_op {A} op (f : A -> Reply) (m : Mem A) : run_op now op = reply f m -> reading_op op -> attempt m.
Proof.
  intros E Hop s Hs. destruct (op_ok_outcome now op f m s E) as (o & s' & Em & Ho & Hs' & Hstep); [by destruct op|done|].
  exists o, s'. split_and!; [done|done|done|]. by eapply R_spares, reading_spares.
Qed.

Definition errs (op : Op) : bool := match op with OpSelectDB _ => true | _ => false end.

Lemma query_op {A} op (f : A -> Reply) (m : Mem A) : run_op now op = reply f m -> reading_op op -> errs op = false -> query m.
Proof.
  intros E Hop He s Hs. destruct (op_ok_outcome now op f m s E) as (o & s' & Em & Ho & Hs' & Hstep); [by destruct op|done|].
  pose proof (reading_spares _ _ _ _ Hop Hstep) as Hsp.
  destruct o as [a|e|p|]; try done; [exists a, s'; split_and!; [done|done|by apply R_spares]|]. exfalso.
  destruct op; try done; cbn [astep] in Hstep; by first [by destruct Hstep|by destruct Hstep as (? & ? & _)|by destruct Hstep as (? & _ & ? & _)|by destruct Hstep as (? & _ & ?)|
    discriminate He].
Qed.

(** ** The scripts in the cache *)

(** All of them are scripts of [P]. *)
Context (P : bytes -> Prop).

Definition cached (e : Engine) : Prop := forall h script, scripts e !! h = Some script -> P script.

Definition sv_ok (sv : Server) : Prop := wf (sv_storage sv) /\ cached (sv_lua sv).

Lemma cached_same e e' : scripts e' = scripts e -> cached e -> cached e'.
Proof. unfold cached. by intros ->. Qed.

Lemma cached_load script e : P script -> cached e -> cached (LoadScript script e).2.
Proof.
  intros Hp He. assert (Hi : cached (set_cache (<[script_hash script := script]> (scripts e)) [] e)).
  { intros h s'. cbn. rewrite lookup_insert_Some. intros [[_ <-]|[_ H]]; [done|by eapply He]. }
  unfold LoadScript. repeat case_match; try exact He; try exact Hi.
  intros h s'. cbn. rewrite lookup_delete_Some. intros [_ H']. by apply (Hi h s').
Qed.

Lemma cached_flush e : cached (ScriptFlush e).
Proof. intros h s'. cbn. by rewrite lookup_empty. Qed.

(** ** One reply per call *)

Record kept (sv sv' : Server) : Prop := {
  kp_sync : syncMgr sv' = syncMgr sv;
  kp_password : sv_password sv' = sv_password sv;
  kp_redirect : redirectWrites sv' = redirectWrites sv;
  kp_master : sv_masterAddr sv' = sv_masterAddr sv /\ sv_masterPassword sv' = sv_masterPassword sv;
  kp_counts : connCount sv' = connCount sv /\ commandCount sv' = commandCount sv
}.

Lemma kept_refl sv : kept sv sv.
Proof. done. Qed.

Lemma kept_trans sv1 sv2 sv3 : kept sv1 sv2 -> kept sv2 sv3 -> kept sv1 sv3.
Proof. intros [A1 A2 A3 [A4 A5] [A6 A7]] [B1 B2 B3 [B4 B5] [B6 B7]]. split; [|..|split|split]; congruence. Qed.

(** The replies the error counter counts. *)
Definition errors_in (v : Value) : Z := Z.b2z (bool_decide (VType v = TypeError)).

(** The call sends one well-shaped reply to a client whose connection works. *)
Definition replies (m : M Session unit) : Prop := forall sv c sent, sv_ok sv -> healthy c sent ->
  exists sv' c' v, m (sv, c) = (Ok tt, (sv', c')) /\ sv_ok sv' /\ R (sv_storage sv) (sv_storage sv') /\
    kept sv sv' /\ healthy c' (sent ++ encode v) /\ shaped v /\ cl_reader c' = cl_reader c /\ closed c' = closed c /\
    errorCount sv' = errorCount sv + errors_in v.

Lemma replies_send m v : emits m (encode v) -> shaped v -> VType v <> TypeError -> replies (send m).
Proof.
  intros Hm Hv Hty sv c sent Hs Hc. exists sv, (said c (sent ++ encode v)), v.
  split; [by apply send_eq|]. split_and!; try done; [apply R_refl|].
  unfold errors_in. rewrite bool_decide_false by done. cbn. lia.
Qed.

Lemma replies_storage {A} (m : Mem A) k : query m -> (forall a, replies (k a)) -> replies (gbind (on_storage m) k).
Proof.
  intros Hm Hk sv c sent [Hs Hq] Hc. destruct (Hm _ Hs) as (a & s1 & E & Hs1 & H1).
  assert (Eon : on_storage m (sv, c) = (Ok a, (set_stores (sv_lua sv, s1) sv, c))) by (unfold on_storage; cbn; by rewrite E).
  rewrite (gbind_ok _ _ _ _ _ Eon).
  destruct (Hk a (set_stores (sv_lua sv, s1) sv) c sent (conj Hs1 Hq) Hc) as (sv' & c' & v & E' & Hs' & HR & Hk' & Hrest).
  exists sv', c', v. split; [done|]. split; [done|]. split; [by eapply R_trans|]. split; [|done].
  by eapply kept_trans; [|exact Hk'].
Qed.

Lemma replies_get k : (forall sv, replies (k sv)) -> replies (gbind get_server k).
Proof. intros Hk sv c sent. apply Hk. Qed.

Lemma replies_conn k : (forall c, replies (k c)) -> replies (gbind get_conn k).
Proof. intros Hk sv c sent. apply Hk. Qed.

Lemma replies_server f k : (forall sv, sv_storage (f sv) = sv_storage sv /\ sv_lua (f sv) = sv_lua sv /\ errorCount (f sv) = errorCount sv /\ kept sv (f sv)) -> replies k ->
  replies (mod_server f ;;! k).
Proof.
  intros Hf Hk sv c sent Hs Hc. destruct (Hf sv) as (Ef & El & Ee & Hkf).
  destruct (Hk (f sv) c sent) as (sv' & c' & v & E & Hs' & HR & Hk' & Hrest); [unfold sv_ok; by rewrite Ef, El|done|].
  exists sv', c', v. rewrite Ef in HR. rewrite Ee in Hrest. split; [done|]. split; [done|]. split; [done|].
  split; [by eapply kept_trans|exact Hrest].
Qed.

Lemma replies_mod_conn f k : (forall c, cl_writer (f c) = cl_writer c /\ cl_reader (f c) = cl_reader c /\
  closed (f c) = closed c) -> replies k -> replies (mod_conn f ;;! k).
Proof.
  intros Hf Hk sv c sent Hs Hc. destruct (Hf c) as (E1 & E2 & E3).
  destruct (Hk sv (f c) sent Hs) as (sv' & c' & v & E & Hrest); [unfold healthy; by rewrite E1|].
  exists sv', c', v. rewrite E2, E3 in Hrest. by split.
Qed.

(** ** The replies of the code *)

Lemma replies_writeString s : no_lf s -> replies (writeString s).
Proof. intros Hs. apply (replies_send _ (SimpleStringValue s)); [|by constructor|done]. apply (WriteValue_encode (SimpleStringValue s) eq_refl). Qed.

Lemma replies_writeError s : replies (writeError s).
Proof.
  intros sv c sent Hs Hc. eexists _, _, (ErrorValue (clean_line s)). split; [by apply writeError_eq|].
  split_and!; try done; [apply R_refl|constructor; apply clean_line_no_lf].
Qed.

Lemma replies_writeBulkString d : replies (writeBulkString d).
Proof. apply (replies_send _ (BulkStringValue d)); [apply emits_WriteBulkString|constructor|done]. Qed.

Lemma replies_writeNull : replies writeNull.
Proof. apply (replies_send _ NullBulkStringValue); [apply (WriteValue_encode NullBulkStringValue eq_refl)|constructor|done]. Qed.

Lemma replies_writeInteger n : replies (writeInteger n).
Proof. apply (replies_send _ (IntegerValue n)); [apply (WriteValue_encode (IntegerValue n) eq_refl)|constructor|done]. Qed.

Lemma replies_writeArray l : replies (writeArray l).
Proof.
  assert (Hs : shaped (ArrayValue (convertToValue <$> l))).
  { constructor. apply Forall_fmap, Forall_forall. intros x _. apply shaped_convert. }
  apply (replies_send _ (ArrayValue (convertToValue <$> l))); [|done|done].
  apply (WriteValue_encode (ArrayValue (convertToValue <$> l))), shaped_supported, Hs.
Qed.

(** ** Queries of the handlers *)

Lemma query_Get key : query (Get now key).
Proof. by apply (query_op (OpGet key) RVal). Qed.

Lemma query_MemoryUsage : query MemoryUsage.
Proof. by apply (query_op OpMemoryUsage RInt). Qed.

Lemma query_DatabaseInfo : query (DatabaseInfo now).
Proof. by apply (query_op OpDatabaseInfo RDatabases). Qed.

Lemma query_Scan cursor pattern count : 0 <= count -> 16 * count <= maxAlloc -> query (Scan strategy now cursor pattern count).
Proof. intros Hc Hm. by apply (query_op (OpScan strategy cursor pattern count) RPage). Qed.

Lemma query_info m info section : query (info_section now m info section).
Proof.
  apply query_bind.
  - case_match; [|apply query_ret]. apply query_bind; [apply query_MemoryUsage|]. intros. apply query_ret.
  - intros i. case_match; [|apply query_ret]. apply query_bind; [apply query_DatabaseInfo|]. intros d.
    apply query_bind; [apply query_range|]. intros. apply query_ret.
Qed.

(** ** The handlers *)

#[local] Arguments writeError : simpl never.
Create HintDb replies discriminated.
#[local] Hint Resolve replies_writeError replies_writeBulkString replies_writeNull replies_writeInteger
  replies_writeArray replies_get query_Get query_MemoryUsage query_DatabaseInfo query_info : replies.
#[local] Hint Extern 1 (replies (writeString _)) => apply replies_writeString; solve [assumption|repeat constructor; done] : replies.

Lemma replies_wrong_args name : replies (wrong_args name).
Proof. apply replies_writeError. Qed.
#[local] Hint Resolve replies_wrong_args : replies.

(** Case analysis on the arguments, down to the writes. *)
Ltac reply_cases := repeat first
  [ done
  | solve [eauto with replies]
  | case_bool_decide
  | match goal with
    | |- replies (match ?x with _ => _ end) => destruct x
    | |- replies (if ?x then _ else _) => destruct x
    end
  | progress cbn
  | apply replies_get; intros ?sv
  | apply replies_server; [by intros ?sv|]
  | apply replies_mod_conn; [done|] ].

Lemma replies_try {A} (m : Mem A) k h : attempt m -> (forall a, replies (k a)) -> (forall e, replies (h e)) ->
  replies (gtry (on_storage m) k h).
Proof.
  intros Hm Hk Hh sv c sent [Hs Hq] Hc. destruct (Hm _ Hs) as (o & s1 & E & Ho & Hs1 & H1).
  assert (Eon : on_storage m (sv, c) = (o, (set_stores (sv_lua sv, s1) sv, c))) by (unfold on_storage; cbn; by rewrite E).
  assert (Hgo : forall m', replies m' -> exists sv' c' v, m' (set_stores (sv_lua sv, s1) sv, c) = (Ok tt, (sv', c')) /\
    sv_ok sv' /\ R (sv_storage sv) (sv_storage sv') /\ kept sv sv' /\ healthy c' (sent ++ encode v) /\
    shaped v /\ cl_reader c' = cl_reader c /\ closed c' = closed c /\ errorCount sv' = errorCount sv + errors_in v).
  { intros m' Hm'. destruct (Hm' (set_stores (sv_lua sv, s1) sv) c sent (conj Hs1 Hq) Hc) as (sv' & c' & v & E' & Hs' & HR & Hk' & Hrest).
    exists sv', c', v. split; [done|]. split; [done|]. split; [by eapply R_trans|]. split; [|done].
    by eapply kept_trans; [|exact Hk']. }
  unfold gtry. rewrite Eon. destruct o; try done; auto.
Qed.

Lemma replies_Auth cmd : replies (handleAuth cmd).
Proof. unfold handleAuth. reply_cases. Qed.
Lemma replies_Ping cmd : replies (handlePing cmd).
Proof. unfold handlePing. reply_cases. Qed.
Lemma replies_Role cmd : replies (handleRole cmd).
Proof. unfold handleRole. reply_cases. Qed.
Lemma replies_Command cmd : replies (handleCommand cmd).
Proof. unfold handleCommand. reply_cases. Qed.
Lemma replies_Config cmd : replies (handleConfig cmd).
Proof. unfold handleConfig, handleConfigGet. reply_cases. Qed.
Lemma replies_ReadOnly cmd : replies (handleReadOnly cmd).
Proof. unfold handleReadOnly. reply_cases. Qed.

Lemma replies_Select cmd : replies (handleSelect cmd).
Proof.
  unfold handleSelect. destruct (Args cmd) as [|arg [|? ?]]; try solve [reply_cases].
  destruct (ParseInt arg) as [db|]; [|reply_cases]. apply replies_try; [|intros ?; reply_cases..].
  by apply (attempt_op (OpSelectDB db) (fun _ => RUnit)).
Qed.

Lemma replies_Get cmd : replies (handleGet now cmd).
Proof.
  unfold handleGet. destruct (Args cmd) as [|key [|? ?]]; try solve [reply_cases]. reply_cases.
  apply replies_storage; [apply query_Get|]. intros []; reply_cases.
Qed.

Lemma replies_MGet cmd : replies (handleMGet now cmd).
Proof.
  unfold handleMGet. destruct (Args cmd) as [|key keys]; [reply_cases|].
  apply replies_get. intros sv. destruct (loading sv); [reply_cases|].
  apply replies_storage; [|intros; reply_cases]. apply query_fold. intros b a. apply query_bind; [apply query_Get|].
  intros. apply query_ret.
Qed.

Lemma replies_Exists cmd : replies (handleExists now cmd).
Proof.
  unfold handleExists. destruct (Args cmd) as [|key keys]; [reply_cases|].
  apply replies_storage; [|intros; reply_cases]. by apply (query_op (OpExists (key :: keys)) RInt).
Qed.

Lemma replies_Type cmd : replies (handleType now cmd).
Proof.
  unfold handleType. destruct (Args cmd) as [|key [|? ?]]; try solve [reply_cases].
  apply replies_storage; [by apply (query_op (OpType key) RInt)|]. intros t. apply replies_writeString.
  unfold ValueType_String. repeat case_match; by repeat constructor.
Qed.

Lemma replies_TTL cmd : replies (handleTTL now cmd).
Proof.
  unfold handleTTL. destruct (Args cmd) as [|key [|? ?]]; try solve [reply_cases].
  apply replies_storage; [by apply (query_op (OpTTL key) RInt)|intros; reply_cases].
Qed.

Lemma replies_PTTL cmd : replies (handlePTTL now cmd).
Proof.
  unfold handlePTTL. destruct (Args cmd) as [|key [|? ?]]; try solve [reply_cases].
  apply replies_storage; [by apply (query_op (OpPTTL key) RInt)|intros; reply_cases].
Qed.

Lemma replies_Keys cmd : replies (handleKeys strategy now cmd).
Proof.
  unfold handleKeys. destruct (Args cmd) as [|pattern [|? ?]]; try solve [reply_cases].
  apply replies_storage; [by apply (query_op (OpKeys strategy pattern) RKeys)|intros; reply_cases].
Qed.

Lemma replies_DBSize cmd : replies (handleDBSize cmd).
Proof.
  unfold handleDBSize. destruct (Args cmd) as [|? ?]; [|reply_cases].
  apply replies_storage; [by apply (query_op OpKeyCount RInt)|intros; reply_cases].
Qed.

Lemma replies_Info cmd : replies (handleInfo now cmd).
Proof.
  unfold handleInfo. apply replies_get. intros sv. apply replies_storage; [|intros; reply_cases].
  apply query_fold. intros. apply query_info.
Qed.

(** ** Listings with a cursor, and redirected writes *)

Lemma scan_options_count args : forall pattern count, 0 < count ->
  match scan_options args pattern count with inr (_, count') => 0 < count' | inl _ => True end.
Proof.
  induction args as [args IH] using (induction_ltof1 _ (@length _)). unfold ltof in IH. intros pattern count Hc.
  destruct args as [|arg rest]; [done|]. cbn [scan_options]. repeat case_bool_decide.
  - destruct rest as [|p rest]; [done|]. apply IH; cbn; lia || done.
  - destruct rest as [|n rest]; [done|]. destruct (ParseInt n) as [count'|]; [|done].
    destruct (Z.leb_spec count' 0); [done|]. apply IH; cbn; lia.
  - apply IH; cbn; lia.
Qed.

(** The count of a [SCAN] that reaches the storage. *)
Definition scan_count (args : list bytes) : option Z :=
  match args with
  | [] => None
  | arg :: rest =>
      match ParseInt arg, scan_options rest [] 10 with Some _, inr (_, count) => Some count | _, _ => None end
  end.

Lemma replies_Scan cmd : 16 * default 0 (scan_count (Args cmd)) <= maxAlloc -> replies (handleScan strategy now cmd).
Proof.
  unfold handleScan, scan_count. intros Hc. destruct (Args cmd) as [|arg rest]; [reply_cases|].
  destruct (ParseInt arg) as [cursor|]; [|reply_cases].
  pose proof (scan_options_count rest [] 10 ltac:(lia)) as Hpos.
  destruct (scan_options rest [] 10) as [msg|[pattern count]]; [reply_cases|]. cbn in Hc.
  apply replies_storage; [|intros []; reply_cases]. apply query_Scan; [lia|done].
Qed.

Lemma ReadNext_yields_wf r v r' : ReadNext r = (Ok v, r') -> wf_value v.
Proof. apply yields_ReadNext_fuel. Qed.

Lemma ask_master_answer password cmd r resp w : ask_master password cmd r = (inr resp, w) -> wf_value resp.
Proof.
  unfold ask_master. repeat match goal with
  | |- (let '(_, _) := ?x in _) = _ -> _ => destruct x as [[] ?] eqn:?
  | |- context [let '(o, w) := writeCommandToMaster ?c ?x in _] => destruct (writeCommandToMaster c x) as [[] ?]
  | |- context [let '(o, r) := ReadNext ?x in _] => destruct (ReadNext x) as [[] ?] eqn:?
  | _ => progress cbn
  | _ => case_bool_decide
  end; intros; simplify_eq; by eapply ReadNext_yields_wf.
Qed.

Lemma replies_forward resp : wf_value resp -> replies (forwardResponse resp).
Proof. intros Hw. unfold forwardResponse. destruct Hw; cbn; reply_cases. Qed.

Lemma replies_write cmd : replies (write_command cmd).
Proof.
  unfold write_command. apply replies_get. intros sv. destruct (redirectWrites sv); [|reply_cases].
  unfold redirectToMaster. apply replies_get. intros sv'. case_bool_decide; [reply_cases|].
  apply replies_server; [by intros|]. destruct (master_dial _); [apply replies_writeError|].
  destruct (master_deadline _); [apply replies_writeError|].
  destruct (ask_master _ cmd r) as [[msg|resp] w] eqn:Ea; (apply replies_server; [by intros|]); [reply_cases|].
  by eapply replies_forward, ask_master_answer.
Qed.

(** ** Scripts *)

Lemma script_args_ok rest : 16 * Z.of_nat (length rest) <= maxAlloc ->
  default 0 (head rest ≫= ParseInt) <= maxInt64 - 2 -> exists x, script_args rest = Ok x.
Proof.
  intros Hl Hn. destruct rest as [|n args]; [by eexists|]. cbn in Hn |- *. destruct (ParseInt n) as [k|]; [|by eexists].
  cbn in Hn. destruct (Z.ltb_spec k 0); [by eexists|]. cbn [orb].
  rewrite wrap64_id by (unfold in_int64, minInt64, maxInt64 in *; lia).
  destruct (Z.ltb_spec (2 + Z.of_nat (length args)) (2 + k)); [by eexists|].
  destruct (Z.ltb_spec maxAlloc (16 * k)); [|by eexists]. cbn [length] in Hl. lia.
Qed.

(** What a command is called when it is dispatched. *)
Definition called (cmd : Command) (name : string) : Prop := ToUpper (Name cmd) = bs name.
#[global] Instance called_dec cmd name : Decision (called cmd name).
Proof. unfold called. apply _. Defined.

(** What a client sends to be run or loaded. *)
Definition script_sent (cmd : Command) : option bytes :=
  match Args cmd with
  | x :: rest =>
      if bool_decide (called cmd "EVAL") then Some x
      else match rest with
           | [script] => if bool_decide (called cmd "SCRIPT") && bool_decide (ToUpper x = bs "LOAD") then Some script else None
           | _ => None
           end
  | [] => None
  end.

Lemma replies_lua {A} (f : Engine -> A * Engine) k : (forall e, cached e -> cached (f e).2) ->
  (forall e a, (f e).1 = a -> replies (k a)) -> replies (gbind (mod_lua f) k).
Proof.
  intros Hf Hk sv c sent [Hs Hq] Hc. unfold gbind, mod_lua. cbn. specialize (Hf (sv_lua sv) Hq).
  specialize (Hk (sv_lua sv)). destruct (f (sv_lua sv)) as [a e] eqn:Ef. cbn in *.
  destruct (Hk a eq_refl (set_stores (e, sv_storage sv) sv) c sent (conj Hs Hf) Hc) as (sv' & c' & v & E & Hs' & HR & Hk' & Hrest).
  exists sv', c', v. do 3 (split; [done|]). split; [|done]. by eapply kept_trans; [|exact Hk'].
Qed.

Lemma replies_Script cmd : called cmd "SCRIPT" -> (forall script, script_sent cmd = Some script -> P script) -> replies (handleScript cmd).
Proof.
  unfold handleScript, script_sent. intros Hn Hp. destruct (Args cmd) as [|sub rest]; [reply_cases|]. cbn zeta.
  rewrite bool_decide_false in Hp by (unfold called in *; by rewrite Hn). rewrite (bool_decide_true _ Hn) in Hp.
  destruct (decide (ToUpper sub = bs "LOAD")) as [Hl|Hl].
  - rewrite (bool_decide_true _ Hl) in *. destruct rest as [|script [|? ?]]; [reply_cases| |reply_cases].
    apply replies_lua; [intros e; by apply cached_load, Hp|].
    intros e sha <-. assert ((LoadScript script e).1 = script_hash script) as -> by (unfold LoadScript; by repeat case_match).
    apply replies_writeString, hex_text_no_lf.
  - rewrite (bool_decide_false _ Hl). clear Hp. case_bool_decide; [reply_cases|]. case_bool_decide; [|reply_cases].
    destruct rest; [|reply_cases]. apply replies_lua; [intros e _; apply cached_flush|]. intros. reply_cases.
Qed.

Lemma replies_result result : replies (writeResult result).
Proof.
  destruct result; cbn; try solve [reply_cases]. apply replies_storage; [apply query_range|]. intros. reply_cases.
Qed.

(** A script can do anything to the storage, so it needs the total relation. *)
Lemma replies_run (run : M ES GoValue) : (forall s s', R s s') ->
  (forall e s, wf s -> cached e -> exists o e' s', run (e, s) = (o, (e', s')) /\ returns o /\ wf s' /\ cached e') ->
  replies (gtry (on_lua run) writeResult (fun err => writeError (bs "ERR " ++ Error err))).
Proof.
  intros HR Hrun sv c sent [Hs Hq] Hc. destruct (Hrun (sv_lua sv) _ Hs Hq) as (o & e' & s' & E & Ho & Hs').
  assert (Eon : on_lua run (sv, c) = (o, (set_stores (e', s') sv, c))) by (unfold on_lua; cbn; by rewrite E).
  unfold gtry. rewrite Eon.
  assert (Hgo : forall m, replies m -> exists sv' c' v, m (set_stores (e', s') sv, c) = (Ok tt, (sv', c')) /\
    sv_ok sv' /\ R (sv_storage sv) (sv_storage sv') /\ kept sv sv' /\ healthy c' (sent ++ encode v) /\
    shaped v /\ cl_reader c' = cl_reader c /\ closed c' = closed c /\ errorCount sv' = errorCount sv + errors_in v).
  { intros m Hm. destruct (Hm (set_stores (e', s') sv) c sent Hs' Hc) as (sv' & c' & v & E' & Hw & _ & Hk & Hrest).
    exists sv', c', v. do 2 (split; [done|]). split; [apply HR|]. split; [|done]. by eapply kept_trans; [|exact Hk]. }
  destruct o; try done; apply Hgo; [apply replies_result|apply replies_writeError].
Qed.

Lemma replies_eval run rest : (forall s s', R s s') -> 16 * Z.of_nat (length rest) <= maxAlloc ->
  default 0 (head rest ≫= ParseInt) <= maxInt64 - 2 ->
  (forall keys args e s, wf s -> cached e -> exists o e' s', run keys args (e, s) = (o, (e', s')) /\ returns o /\ wf s' /\ cached e') ->
  replies (eval_with run rest).
Proof.
  intros HR Hl Hn Hrun. destruct (script_args_ok rest Hl Hn) as [x Ex]. intros sv c sent.
  unfold eval_with. unfold gbind. rewrite Ex. revert sv c sent. change (replies (match x with
    | inl msg => writeError msg
    | inr (keys, args) => gtry (on_lua (run keys args)) writeResult (fun err => writeError (bs "ERR " ++ Error err))
    end)). destruct x as [msg|[keys args]]; [reply_cases|].
  apply replies_run; [done|apply Hrun].
Qed.

Lemma Eval_ends script keys args e s : halting script -> wf s -> cached e ->
  exists o e' s', Eval now script keys args (e, s) = (o, (e', s')) /\ returns o /\ wf s' /\ cached e'.
Proof.
  intros Hh Hs He. destruct (Eval_halting now script keys args e s Hs Hh) as (o & e' & s' & E & Ho & Hs' & Hc).
  exists o, e', s'. split_and!; try done. by eapply cached_same.
Qed.

Lemma EvalSHA_ends sha keys args e s : (forall script, P script -> halting script) -> wf s -> cached e ->
  exists o e' s', EvalSHA now sha keys args (e, s) = (o, (e', s')) /\ returns o /\ wf s' /\ cached e'.
Proof.
  intros Hp Hs He. unfold EvalSHA. unfold gget, gbind at 1. cbn [fst]. destruct (scripts e !! sha) as [script|] eqn:Esha.
  - unfold gbind at 1 2, on_engine, gmodify. apply Eval_ends; [|done|done]. eapply Hp, He, Esha.
  - by do 3 eexists.
Qed.

Lemma replies_Eval cmd : (forall s s', R s s') -> (forall script, P script -> halting script) ->
  16 * Z.of_nat (length (tail (Args cmd))) <= maxAlloc ->
  default 0 (head (tail (Args cmd)) ≫= ParseInt) <= maxInt64 - 2 ->
  ((forall script, head (Args cmd) = Some script -> P script) -> replies (handleEval now cmd)) /\ replies (handleEvalSHA now cmd).
Proof.
  intros HR Hp Hl Hn. unfold handleEval, handleEvalSHA. destruct (Args cmd) as [|script [|n args]]; (split; [intros Hs|]);
    try apply replies_wrong_args; (apply replies_eval; [done..|]); intros; [apply Eval_ends|apply EvalSHA_ends]; auto.
Qed.

(** ** Dispatch *)

Definition scripted_call cmd : Prop := called cmd "EVAL" \/ called cmd "EVALSHA".

(** The sizes a command asks for can be allocated. *)
Definition fair (cmd : Command) : Prop :=
  (called cmd "SCAN" -> 16 * default 0 (scan_count (Args cmd)) <= maxAlloc) /\
  (scripted_call cmd -> 16 * Z.of_nat (length (tail (Args cmd))) <= maxAlloc /\
    default 0 (head (tail (Args cmd)) ≫= ParseInt) <= maxInt64 - 2).

(** What is asked of the scripts: those sent are scripts of [P], and for a run to be
    answered the scripts of [P] come back. *)
Definition scripts_ok (cmd : Command) : Prop :=
  (forall script, script_sent cmd = Some script -> P script) /\
  (scripted_call cmd -> (forall s s', R s s') /\ forall script, P script -> halting script).

Lemma replies_handler cmd h : fair cmd -> scripts_ok cmd -> ~ called cmd "QUIT" ->
  handler_for strategy now (ToUpper (Name cmd)) = Some h -> replies (h cmd).
Proof.
  intros [Hscan Heval] [Hsent Hscript] Hquit. unfold handler_for. intros ([name h'] & [Hin Hname]%find_some & Eh)%fmap_Some.
  cbn [snd] in Eh. subst h'.
  apply bool_decide_eq_true in Hname. cbn [fst snd] in *. symmetry in Hname. fold (called cmd name) in Hname.
  assert (He : scripted_call cmd -> ((forall script, head (Args cmd) = Some script -> P script) -> replies (handleEval now cmd)) /\
    replies (handleEvalSHA now cmd)).
  { intros Hs. destruct (Heval Hs), (Hscript Hs). by apply replies_Eval. }
  unfold handlers in Hin. repeat (destruct Hin as [[= <- <-]|Hin]);
    try solve [destruct Hin].
  all: first [done | apply replies_Auth | apply replies_Ping | apply replies_Select | apply replies_Get | apply replies_MGet
    | apply replies_write | apply replies_Exists | apply replies_TTL | apply replies_PTTL | apply replies_Type
    | apply replies_Keys | apply replies_Scan; auto | apply replies_DBSize | apply replies_Info | apply replies_Role
    | apply replies_Command | apply replies_Config | apply replies_ReadOnly | by apply replies_Script
    | apply (proj1 (He (or_introl Hname))); intros script Hhd; apply Hsent; unfold script_sent; destruct (Args cmd); [done|];
        cbn in Hhd; by rewrite bool_decide_true
    | apply (proj2 (He (or_intror Hname)))].
Qed.

Lemma handler_quit : handler_for strategy now (bs "QUIT") = Some (fun _ => writeString (bs "OK") ;;! Close).
Proof. reflexivity. Qed.

(** ** A command *)

Definition served (ss : Session) (cmd : Command) (ss' : Session) (v : Value) : Prop :=
  sv_ok ss'.1 /\ R (sv_storage ss.1) (sv_storage ss'.1) /\ syncMgr ss'.1 = syncMgr ss.1 /\
  commandCount ss'.1 = commandCount ss.1 + 1 /\ errorCount ss'.1 = errorCount ss.1 + errors_in v /\ cl_reader ss'.2 = cl_reader ss.2 /\
  (exists sent, healthy ss.2 sent /\ healthy ss'.2 (sent ++ encode v)) /\ shaped v /\
  closed ss'.2 = closed ss.2 || authenticated ss.2 && bool_decide (called cmd "QUIT").

Lemma command_served sv c sent cmd : fair cmd -> scripts_ok cmd ->
  sv_ok sv -> healthy c sent ->
  exists ss' v, server_command strategy now cmd (sv, c) = (Ok tt, ss') /\ served (sv, c) cmd ss' v.
Proof.
  intros Hfair Hscript Hs Hc.
  set (sv1 := set_counts (connCount sv) (commandCount sv + 1) (errorCount sv) sv).
  assert (Hdone : forall m, server_command strategy now cmd (sv, c) = m (sv1, c) -> replies m ->
    authenticated c && bool_decide (called cmd "QUIT") = false ->
    exists ss' v, server_command strategy now cmd (sv, c) = (Ok tt, ss') /\ served (sv, c) cmd ss' v).
  { intros m E Hm Hq. destruct (Hm sv1 c sent Hs Hc) as (sv' & c' & v & E' & Hw & HR & [K1 _ _ _ [_ K2]] & Hh & Hv & Hr & Hcl & He).
    exists (sv', c'), v. rewrite E. split; [done|]. unfold served. cbn [fst snd]. rewrite Hq, orb_false_r.
    split_and!; try done. by exists sent. }
  assert (Erun : server_command strategy now cmd (sv, c) =
    (if negb (authenticated c) && negb (bool_decide (called cmd "AUTH")) then
       writeError (bs "NOAUTH Authentication required")
     else match handler_for strategy now (ToUpper (Name cmd)) with
          | Some h => h cmd
          | None => writeError (bs "ERR unknown command '" ++ Name cmd ++ bs "'")
          end) (sv1, c)) by done.
  destruct (negb (authenticated c) && negb (bool_decide (called cmd "AUTH"))) eqn:Ea.
  { eapply Hdone; [exact Erun|apply replies_writeError|]. by destruct (authenticated c). }
  destruct (handler_for strategy now (ToUpper (Name cmd))) as [h|] eqn:Eh; cycle 1.
  { eapply Hdone; [exact Erun|apply replies_writeError|]. rewrite bool_decide_false; [by rewrite andb_false_r|].
    intros Hq. by rewrite Hq, handler_quit in Eh. }
  destruct (decide (called cmd "QUIT")) as [Hq|Hq]; cycle 1.
  { eapply Hdone; [exact Erun|by eapply replies_handler|]. by rewrite (bool_decide_false _ Hq), andb_false_r. }
  rewrite Hq, handler_quit in Eh. injection Eh as <-. rewrite Erun.
  assert (Hok : no_lf (bs "OK")) by (repeat constructor; done).
  destruct (replies_writeString _ Hok sv1 c sent Hs Hc) as (sv' & c' & v & E & Hw & HR & [K1 _ _ _ [_ K2]] & Hh & Hv & Hr & _ & He).
  exists (sv', set_closed c'), v. split; [by rewrite (gbind_ok _ _ _ _ _ E)|]. unfold served. cbn [fst snd].
  rewrite (bool_decide_true _ Hq), andb_true_r. split_and!; try done; [by exists sent|].
  assert (Ha : authenticated c = true).
  { destruct (authenticated c); [done|]. rewrite bool_decide_false in Ea; [done|]. unfold called. by rewrite Hq. }
  by rewrite Ha, orb_true_r.
Qed.

(** ** A session *)

(** What a value the client sends asks for; it may also quit, or not. *)
Definition modest (v : Value) : Prop :=
  match ParseCommand v with
  | Ok cmd => fair cmd /\ scripts_ok cmd
  | _ => True
  end.
Definition admissible (v : Value) : Prop :=
  match ParseCommand v with
  | Ok cmd => fair cmd /\ ~ called cmd "QUIT" /\ scripts_ok cmd
  | _ => True
  end.

Lemma admissible_modest v : admissible v -> modest v.
Proof. unfold admissible, modest. destruct (ParseCommand v); naive_solver. Qed.

(** A value is answered with one reply, and the client is served on. *)
Lemma value_served cancelled v sv c sent : modest v -> sv_ok sv -> healthy c sent ->
  exists sv' c' reply, handle_value strategy now cancelled (Ok v) (sv, c) = (Ok true, (sv', c')) /\
    sv_ok sv' /\ R (sv_storage sv) (sv_storage sv') /\ errorCount sv' = errorCount sv + errors_in reply /\
    cl_reader c' = cl_reader c /\ healthy c' (sent ++ encode reply) /\ shaped reply /\
    (admissible v -> closed c' = closed c).
Proof.
  intros Ha Hs Hh. pose proof (ParseCommand_returns v) as Hp. unfold modest, admissible in *. cbn [handle_value].
  destruct (ParseCommand v) as [cmd|err|p|]; try done; clear Hp.
  - destruct Ha as (Hfair & Hscript).
    destruct (command_served sv (set_lastCmd now c) sent cmd Hfair Hscript Hs Hh)
      as ([sv2 c2] & reply & E & Hs2 & HR & _ & _ & Herr & Hr2 & (sent' & Hsent' & Hh2) & Hshape & Hcl2).
    assert (sent' = sent) as -> by (unfold healthy in *; cbn in Hsent'; congruence).
    exists sv2, c2, reply. split.
    + unfold gbind at 1, mod_conn, gmodify. cbn [fst snd]. by rewrite (gbind_ok _ _ _ _ _ E).
    + split_and!; try done. intros (_ & Hquit & _). cbn [fst snd] in Hcl2. rewrite Hcl2, (bool_decide_false _ Hquit).
      by rewrite andb_false_r, orb_false_r.
  - destruct (replies_writeError (bs "Protocol error: " ++ Error err) sv c sent Hs Hh)
      as (sv2 & c2 & reply & E & Hs2 & HR & _ & Hh2 & Hshape & Hr2 & Hcl2 & Herr).
    exists sv2, c2, reply. split; [by rewrite (gbind_ok _ _ _ _ _ E)|done].
Qed.

Lemma session_ok vals : forall fuel sv c sent, (length vals < fuel)%nat ->
  cl_reader c = mkReader (concat (encode <$> vals)) EOF -> closed c = false -> healthy c sent -> sv_ok sv ->
  Forall wf_value vals -> Forall admissible vals ->
  exists sv' c' replies, handle_loop strategy now fuel (sv, c) = (Ok tt, (sv', c')) /\
    sv_ok sv' /\ R (sv_storage sv) (sv_storage sv') /\
    length replies = length vals /\ Forall shaped replies /\ healthy c' (sent ++ concat (encode <$> replies)) /\
    errorCount sv' = errorCount sv + sumZ (errors_in <$> replies).
Proof.
  induction vals as [|v vals IH]; intros [|fuel] sv c sent Hfuel Hr Hcl Hh Hs Hwf Hadm; try (cbn in Hfuel; lia).
  - exists sv, (set_io (mkReader [] EOF) (cl_writer c) c), []. split.
    + cbn [handle_loop]. unfold gbind, get_conn. cbn [snd]. by rewrite Hcl, Hr.
    + split_and!; try done; [apply R_refl| |].
      * cbn [fmap list_fmap concat]. by rewrite app_nil_r.
      * cbn. rewrite sumZ_nil. lia.
  - apply Forall_cons in Hwf as [Hv Hwf]. apply Forall_cons in Hadm as [Ha Hadm]. cbn in Hfuel.
    cbn [fmap list_fmap concat] in Hr. set (r := mkReader (concat (encode <$> vals)) EOF).
    destruct (value_served false v sv (set_io r (cl_writer c) c) sent (admissible_modest v Ha) Hs Hh)
      as (sv2 & c2 & reply & E & Hs2 & HR & Herr & Hr2 & Hh2 & Hshape & Hcl2).
    destruct (IH fuel sv2 c2 (sent ++ encode reply)) as (sv' & c' & replies & E' & Hs' & HR' & Hlen & Hall & Hh' & Herr');
      [lia|done|by rewrite Hcl2|done..|].
    exists sv', c', (reply :: replies). split.
    + cbn [handle_loop]. unfold gbind at 1, get_conn. cbn [snd]. rewrite Hcl, Hr, ReadNext_encode by done.
      unfold gbind at 1, mod_conn, gmodify. cbn [fst snd]. by rewrite (gbind_ok _ _ _ _ _ E).
    + split_and!; try done; [by eapply R_trans|cbn; by f_equal|by constructor|cbn; by rewrite app_assoc|].
      cbn [fmap list_fmap]. rewrite sumZ_cons. lia.
Qed.

End Answers.

End ServerProofs.

Lemma spares_mono t T s s' : t <= T -> spares t s s' -> spares T s s'.
Proof. intros Ht [Hm Hs]. split; [done|]. intros t' db k ?. apply Hs. lia. Qed.
