(* ===== verification/ServerSpec.v ===== *)
(** * What the server guarantees

    The claims on the server: what a session of any client is answered, who may
    ask, how the reads refine the abstract store, where a write goes, and the
    requests that end the process. *)

From Stdlib Require Import ZArith Lia String.
From stdpp Require Import base list list_numbers gmap fin_maps.
From S2P Require Import Prelude GoLib RespTypes RespWriter RespReader RespProofs RespSpec StorageTypes Matching Memory.
From S2P Require Import MemoryInv StoreSpec MemoryOps MemorySpec StorageSpec StorageIface Client ClientProofs.
From S2P Require Import Sync Sha1 Lua LuaSpec Server ServerProofs.

Section ServerSpec.
  Context `{Hash : XXHash} `{Runtime : GoRuntime} {VM : LuaVM} {U : GoUnicode} {Net : MasterNet} {Fmt : GoFormat}.
  Context (strategy now : Z).

(** ** Dispatch of one command *)

Definition counted (sv : Server) : Server := set_counts (connCount sv) (commandCount sv + 1) (errorCount sv) sv.

Lemma command_dispatch cmd h sv c : authenticated c = true -> handler_for strategy now (ToUpper (Name cmd)) = Some h ->
  server_command strategy now cmd (sv, c) = h cmd (counted sv, c).
Proof. intros Ha Eh. unfold server_command, gbind, mod_server, gmodify, get_conn. cbn [fst snd].
  rewrite Ha. cbn [negb andb]. by rewrite Eh. Qed.

(** ** The reads, as operations of the abstract store *)

Definition int_reply (f : Z -> Value) (r : Reply) : Value := match r with RInt n => f n | _ => NullBulkStringValue end.

(** The operation a command stands for, and the reply it makes of the result. *)
Inductive reads : string -> list bytes -> Op -> (Reply -> Value) -> Prop :=
| reads_get key : reads "GET" [key] (OpGet key)
    (fun r => match r with RVal (Some d) => BulkStringValue d | _ => NullBulkStringValue end)
| reads_exists key keys : reads "EXISTS" (key :: keys) (OpExists (key :: keys)) (int_reply IntegerValue)
| reads_ttl key : reads "TTL" [key] (OpTTL key)
    (int_reply (fun n => IntegerValue (int64_of_float (Duration_Seconds n))))
| reads_pttl key : reads "PTTL" [key] (OpPTTL key) (int_reply (fun n => IntegerValue (Z.quot n Millisecond)))
| reads_type key : reads "TYPE" [key] (OpType key) (int_reply (fun n => SimpleStringValue (ValueType_String n)))
| reads_keys pattern : reads "KEYS" [pattern] (OpKeys strategy pattern)
    (fun r => match r with RKeys ks => ArrayValue (BulkStringValue <$> ks) | _ => NullBulkStringValue end)
| reads_dbsize : reads "DBSIZE" [] OpKeyCount (int_reply IntegerValue)
| reads_select arg db : ParseInt arg = Some db -> reads "SELECT" [arg] (OpSelectDB db)
    (fun r => match r with RErr e => ErrorValue (clean_line (bs "ERR " ++ Error e)) | _ => SimpleStringValue (bs "OK") end).

(** What the server sends for a computation of the storage and a continuation. *)
Lemma storage_answers {A} op (f : A -> Reply) (m : Mem A) (k : A -> M Session unit) enc sv c sent :
  run_op now op = reply f m -> reading_op op -> errs op = false -> wf (sv_storage sv) -> healthy c sent ->
  (forall a sv, k a (sv, c) = (Ok tt, (sv, said c (sent ++ encode (enc (f a)))))) ->
  exists r s', gbind (on_storage m) k (sv, c) =
      (Ok tt, (set_stores (sv_lua sv, s') sv, said c (sent ++ encode (enc r)))) /\
    wf s' /\ astep now (abstract (sv_storage sv)) op r (abstract s') /\ spares now (sv_storage sv) s'.
Proof.
  intros E Hop He Hs Hc Hk.
  destruct (op_ok_outcome now op f m (sv_storage sv) E) as (o & s' & Em & Ho & Hs' & Hstep); [by destruct op|done|].
  destruct (query_op now (spares now) (fun s s' H => H) op f m E Hop He (sv_storage sv) Hs) as (a & s1 & Em1 & _ & Hsp).
  rewrite Em in Em1. injection Em1 as -> ->. exists (f a), s1. split; [|done].
  unfold gbind, on_storage. cbn [fst snd]. rewrite Em. apply Hk.
Qed.

Lemma command_refines name args op enc sv c sent : reads name args op enc ->
  authenticated c = true -> loading sv = false \/ name <> "GET"%string -> wf (sv_storage sv) -> healthy c sent ->
  exists r sv' c', server_command strategy now (mkCommand (bs name) args) (sv, c) = (Ok tt, (sv', c')) /\
    healthy c' (sent ++ encode (enc r)) /\ wf (sv_storage sv') /\
    astep now (abstract (sv_storage sv)) op r (abstract (sv_storage sv')) /\
    cl_reader c' = cl_reader c /\ authenticated c' = true /\ syncMgr sv' = syncMgr sv.
Proof.
  intros Hop Ha Hl Hs Hc.
  assert (Hrun : forall A (f : A -> Reply) (m : Mem A) (k : A -> M Session unit) h enc',
    handler_for strategy now (ToUpper (bs name)) = Some h -> run_op now op = reply f m -> reading_op op ->
    errs op = false -> h (mkCommand (bs name) args) (counted sv, c) = gbind (on_storage m) k (counted sv, c) ->
    (forall a sv, k a (sv, c) = (Ok tt, (sv, said c (sent ++ encode (enc' (f a)))))) -> enc = enc' ->
    exists r sv' c', server_command strategy now (mkCommand (bs name) args) (sv, c) = (Ok tt, (sv', c')) /\
      healthy c' (sent ++ encode (enc r)) /\ wf (sv_storage sv') /\
      astep now (abstract (sv_storage sv)) op r (abstract (sv_storage sv')) /\
      cl_reader c' = cl_reader c /\ authenticated c' = true /\ syncMgr sv' = syncMgr sv).
  { intros A f m k h enc' Eh Eop Hr He Eh' Hk ->. rewrite (command_dispatch _ h) by done. rewrite Eh'.
    destruct (storage_answers op f m k enc' (counted sv) c sent Eop Hr He Hs Hc Hk) as (r & s' & E & Hs' & Hstep & _).
    rewrite E. by eexists r, _, _. }
  assert (Hw : forall v m sv, m = WriteValue v -> supported v = true ->
    send m (sv, c) = (Ok tt, (sv, said c (sent ++ encode v)))) by (intros; by apply write_value_eq).
  destruct Hop as [key|key keys|key|key|key|pattern| |arg db Hdb].
  - destruct Hl as [Hl|Hl]; [|done]. eapply (Hrun _ RVal (Get now key) _ (handleGet now)); try reflexivity.
    + unfold handleGet, gbind at 1, get_server. cbn [Args fst]. change (loading (counted sv)) with (loading sv). by rewrite Hl.
    + intros [d|] sv'; [by apply (Hw (BulkStringValue d))|by apply (Hw NullBulkStringValue)].
  - eapply (Hrun _ RInt (Exists now (key :: keys)) _ (handleExists now)); try reflexivity. intros n sv'. by apply (Hw (IntegerValue n)).
  - eapply (Hrun _ RInt (TTL now key) _ (handleTTL now)); try reflexivity. intros n sv'. by apply (Hw (IntegerValue _)).
  - eapply (Hrun _ RInt (PTTL now key) _ (handlePTTL now)); try reflexivity. intros n sv'. by apply (Hw (IntegerValue _)).
  - eapply (Hrun _ RInt (Type_ now key) _ (handleType now)); try reflexivity. intros n sv'. by apply (Hw (SimpleStringValue _)).
  - eapply (Hrun _ RKeys (Keys strategy now pattern) _ (handleKeys strategy now)); try reflexivity. intros ks sv'.
    assert (Ek : BulkStringValue <$> ks = convertToValue <$> (GString <$> ks)) by by rewrite <- list_fmap_compose.
    cbv beta iota. rewrite Ek. apply (Hw (ArrayValue _)); [done|]. rewrite <- Ek. apply shaped_supported. constructor.
    apply Forall_fmap, Forall_forall. intros; constructor.
  - eapply (Hrun _ RInt KeyCount _ (handleDBSize)); try reflexivity. intros n sv'. by apply (Hw (IntegerValue _)).
  - rewrite (command_dispatch _ handleSelect) by done. unfold handleSelect. cbn [Args]. rewrite Hdb.
    destruct (op_ok_outcome now (OpSelectDB db) (fun _ => RUnit) (SelectDB db) (sv_storage sv)) as (o & s' & Em & Ho & Hs' & Hstep); try done.
    unfold gtry, on_storage. cbn [fst snd]. change (sv_storage (counted sv)) with (sv_storage sv). rewrite Em.
    destruct o as [[]|err|p|]; try done.
    + eexists RUnit, _, _. split.
      { unfold gbind, mod_conn, gmodify. cbn [fst snd]. by apply (write_value_eq (SimpleStringValue (bs "OK"))). }
      done.
    + eexists (RErr err), _, _. split; [by apply writeError_eq|]. done.
Qed.

(** C5: the server refines the abstract store: an authenticated client's GET,
    EXISTS, TTL, PTTL, TYPE, KEYS, DBSIZE or SELECT is answered with the reply of
    the operation on the abstract store, encoded, and leaves the storage the
    operation leaves. Before the first synchronisation is over, only GET is not. *)
Theorem server_refines_store name args op enc sv c sent : reads name args op enc ->
  authenticated c = true -> loading sv = false \/ name <> "GET"%string -> wf (sv_storage sv) -> healthy c sent ->
  exists r sv' c', server_command strategy now (mkCommand (bs name) args) (sv, c) = (Ok tt, (sv', c')) /\
    healthy c' (sent ++ encode (enc r)) /\ wf (sv_storage sv') /\
    astep now (abstract (sv_storage sv)) op r (abstract (sv_storage sv')) /\
    cl_reader c' = cl_reader c /\ authenticated c' = true.
Proof.
  intros Hop Ha Hl Hs Hc. destruct (command_refines name args op enc sv c sent Hop Ha Hl Hs Hc)
    as (r & sv' & c' & E & Hh & Hs' & Hstep & Hr & Ha' & _). by exists r, sv', c'.
Qed.

(** ** Sessions *)

(** A value that asks for something other than to quit, for a size that cannot be
    allocated or for a script that does not come back; a value that is no command at
    all does. *)
Definition polite (v : Value) : Prop :=
  match ParseCommand v with
  | Ok cmd => fair cmd /\ ~ called cmd "QUIT" /\ forall script, script_sent cmd = Some script -> halting script
  | _ => True
  end.

Lemma encode_length v : wf_value v -> (1 <= length (encode v))%nat.
Proof.
  destruct 1; rewrite ?encode_simple, ?encode_error, ?encode_integer, ?encode_bulk_value, ?encode_null_bulk,
    ?encode_array, ?encode_null_array; cbn; lia.
Qed.

Lemma stream_length vals : Forall wf_value vals -> (length vals <= length (concat (encode <$> vals)))%nat.
Proof.
  induction 1 as [|v vals Hv _ IH]; [done|]. cbn. rewrite length_app. pose proof (encode_length v Hv). lia.
Qed.

(** C7: whatever values a client sends, it is answered: one reply for each value, in
    order and of a shape of the protocol, also when the value is no command, the
    command is unknown, or the client may not give it; the error counter grows by
    the number of error replies; and at the end of the stream the connection is
    closed. Commands that quit, or that ask for a size that cannot be allocated,
    are the exception; and the scripts in the cache and those the client has run or
    loaded must come back: from every state, storage, keys and arguments their runs end
    within the steps the model follows, with a value whose tables are nested no deeper
    ([halting]). A script that loops for ever, ends the process or returns a table that
    holds itself is never answered (see [script_effects]). *)
Theorem session_replies vals sv c : Forall wf_value vals -> Forall polite vals ->
  (forall h script, scripts (sv_lua sv) !! h = Some script -> halting script) ->
  cl_reader c = mkReader (concat (encode <$> vals)) EOF -> closed c = false -> healthy c [] -> wf (sv_storage sv) ->
  exists sv' c' replies, handle strategy now (sv, c) = (Ok tt, (sv', c')) /\ closed c' = true /\
    cl_writer c' = mkWriter [] (concat (encode <$> replies)) None /\ length replies = length vals /\
    Forall shaped replies /\ errorCount sv' = errorCount sv + sumZ (errors_in <$> replies) /\ wf (sv_storage sv').
Proof.
  intros Hwf Hp Hcached Hr Hcl Hh Hs. pose proof (stream_length vals Hwf) as Hlen.
  destruct (session_ok strategy now (fun _ _ => True) ltac:(done) ltac:(done) halting vals (S (length (rd_buf (cl_reader c)))) sv c [])
    as (sv' & c' & replies & E & [Hs' _] & _ & Hl & Hall & Hh' & He); try done.
  { rewrite Hr. cbn [rd_buf]. lia. }
  { eapply Forall_impl; [exact Hp|]. intros v. unfold admissible, polite, scripts_ok.
    destruct (ParseCommand v); [|done..]. naive_solver. }
  exists sv', (set_closed c'), replies. split; [|done]. unfold handle, gdefer. cbn [snd]. by rewrite E.
Qed.

(** Before the first synchronisation the age of the last one is the longest duration,
    some 292 years. *)
Example age_before_first_sync : int64_of_float (Duration_Seconds (Until zero_time (2 ^ 60))) = 9223372036.
Proof. reflexivity. Qed.

(** ** Who may ask *)

(** C9: on a server with a password, a client that is not authenticated reads and
    changes nothing: whatever the command, the storage and the scripts stay as they
    are and the reply is an error unless the command is AUTH with the password,
    which is also the only one that lets the client in. *)
Theorem password_guards_server cmd sv c sent : authenticated c = false -> sv_password sv <> [] -> healthy c sent ->
  exists sv' c' v, server_command strategy now cmd (sv, c) = (Ok tt, (sv', c')) /\ healthy c' (sent ++ encode v) /\
    sv_storage sv' = sv_storage sv /\ sv_lua sv' = sv_lua sv /\
    (authenticated c' = true <-> called cmd "AUTH" /\ Args cmd = [sv_password sv]) /\
    (VType v <> TypeError <-> authenticated c' = true) /\
    (~ called cmd "AUTH" -> v = ErrorValue (bs "NOAUTH Authentication required")).
Proof.
  intros Ha Hp Hc.
  assert (Hrefuse : forall msg, server_command strategy now cmd (sv, c) = writeError msg (counted sv, c) ->
    ~ (called cmd "AUTH" /\ Args cmd = [sv_password sv]) ->
    (~ called cmd "AUTH" -> clean_line msg = bs "NOAUTH Authentication required") ->
    exists sv' c' v, server_command strategy now cmd (sv, c) = (Ok tt, (sv', c')) /\ healthy c' (sent ++ encode v) /\
      sv_storage sv' = sv_storage sv /\ sv_lua sv' = sv_lua sv /\
      (authenticated c' = true <-> called cmd "AUTH" /\ Args cmd = [sv_password sv]) /\
      (VType v <> TypeError <-> authenticated c' = true) /\
      (~ called cmd "AUTH" -> v = ErrorValue (bs "NOAUTH Authentication required"))).
  { intros msg E Hno Hmsg. rewrite E, (writeError_eq _ _ _ sent) by done.
    eexists _, _, (ErrorValue (clean_line msg)). split; [done|]. split_and!; try done; cbn [authenticated said set_io].
    - rewrite Ha. naive_solver.
    - rewrite Ha. cbn. naive_solver.
    - intros Hn. by rewrite Hmsg. }
  assert (E : server_command strategy now cmd (sv, c) =
    (if negb (bool_decide (called cmd "AUTH")) then writeError (bs "NOAUTH Authentication required")
     else match handler_for strategy now (ToUpper (Name cmd)) with
          | Some h => h cmd
          | None => writeError (bs "ERR unknown command '" ++ Name cmd ++ bs "'")
          end) (counted sv, c)).
  { unfold server_command, gbind, mod_server, gmodify, get_conn. cbn [fst snd]. by rewrite Ha. }
  destruct (decide (called cmd "AUTH")) as [Hauth|Hauth]; cycle 1.
  { rewrite bool_decide_false in E by done. eapply Hrefuse; [exact E|naive_solver|done]. }
  rewrite bool_decide_true in E by done. cbn [negb] in E. rewrite Hauth in E.
  change (handler_for strategy now (bs "AUTH")) with (Some handleAuth) in E. unfold handleAuth in E.
  destruct (Args cmd) as [|password [|x l]] eqn:Eargs.
  { eapply Hrefuse; [exact E|naive_solver|naive_solver]. }
  2: { eapply Hrefuse; [exact E|naive_solver|naive_solver]. }
  unfold gbind at 1, get_server in E. cbn [fst] in E. change (sv_password (counted sv)) with (sv_password sv) in E.
  rewrite (bool_decide_false _ Hp) in E. destruct (decide (password = sv_password sv)) as [->|Hne]; cycle 1.
  { rewrite bool_decide_false in E by done. eapply Hrefuse; [exact E|naive_solver|naive_solver]. }
  rewrite bool_decide_true in E by done. unfold gbind, mod_conn, gmodify in E. cbn [fst snd] in E.
  unfold writeString in E. rewrite (write_value_eq (SimpleStringValue (bs "OK")) _ _ _ sent) in E by done.
  eexists _, _, (SimpleStringValue (bs "OK")). split; [exact E|]. by split_and!.
Qed.

(** ** Requests that end the process *)

(** C38: a client that may give commands can end the process, and every client's
    connection with it: SCAN with a count, or EVAL and EVALSHA with a number of
    keys, past the limit below which [session_replies] promises a reply, panics in
    the allocation. *)
Theorem oversized_request_panics cmd sv c : authenticated c = true ->
  (called cmd "SCAN" /\ maxAlloc < 16 * default 0 (scan_count (Args cmd))) \/
  (scripted_call cmd /\ 16 * Z.of_nat (length (tail (Args cmd))) <= maxAlloc /\
   maxInt64 - 2 < default 0 (head (tail (Args cmd)) ≫= ParseInt)) ->
  exists p ss', server_command strategy now cmd (sv, c) = (Panic p, ss').
Proof.
  intros Ha [[Hscan Hbig]|(Hscript & Hsmall & Hbig)].
  - rewrite (command_dispatch _ (handleScan strategy now)) by (rewrite ?Hscan; done).
    unfold handleScan, scan_count in *. destruct (Args cmd) as [|arg rest]; [done|].
    destruct (ParseInt arg) as [cursor|]; [|done]. destruct (scan_options rest [] 10) as [|[pattern count]]; [done|].
    unfold gbind, on_storage, Scan. cbn [fst snd default] in *. destruct (Z.ltb_spec maxAlloc (16 * count)); [|cbn in Hbig; lia].
    rewrite orb_true_r. by eexists _, _.
  - assert (Hrun : forall run sha n args, Args cmd = sha :: n :: args ->
      exists p ss', eval_with run (n :: args) (counted sv, c) = (Panic p, ss')).
    { intros run sha n args Eargs. rewrite Eargs in Hsmall, Hbig. cbn [tail] in Hsmall, Hbig.
      change (head (n :: args) ≫= ParseInt) with (ParseInt n) in Hbig.
      destruct (ParseInt n) as [k|] eqn:Ek; [|done]. cbn in Hbig.
      assert (Hk : in_int64 k) by (eapply parseInt64_range, parseInt64_ParseInt, Ek).
      assert (Hwrap : wrap64 (2 + k) < 0).
      { assert (k = maxInt64 - 1 \/ k = maxInt64) as [->| ->] by (unfold in_int64 in Hk; lia); done. }
      unfold eval_with, gbind, script_args. rewrite Ek. unfold in_int64, minInt64, maxInt64, maxAlloc in *.
      destruct (Z.ltb_spec k 0); [lia|]. destruct (Z.ltb_spec (2 + Z.of_nat (length args)) (wrap64 (2 + k))); [lia|].
      cbn [orb]. destruct (Z.ltb_spec (2 ^ 48) (16 * k)); [by eexists _, _|lia]. }
    destruct (Args cmd) as [|sha [|n args]] eqn:Eargs; [done|done|].
    destruct Hscript as [Hs|Hs].
    + rewrite (command_dispatch _ (handleEval now)) by (rewrite ?Hs; done). unfold handleEval. rewrite Eargs.
      by eapply Hrun.
    + rewrite (command_dispatch _ (handleEvalSHA now)) by (rewrite ?Hs; done). unfold handleEvalSHA. rewrite Eargs.
      by eapply Hrun.
Qed.

(** ** One selected database for all *)

(** The database a client selects is everybody's: after its SELECT, the GET of
    any other client reads the database selected, whatever that client had selected
    itself, and the next SET of the replication stream is applied to it and to no
    other. *)
Theorem select_is_shared arg db sv c sent : ParseInt arg = Some db -> 0 <= db <= 15 -> authenticated c = true ->
  loading sv = false -> wf (sv_storage sv) -> healthy c sent ->
  exists sv1 c1, server_command strategy now (mkCommand (bs "SELECT") [arg]) (sv, c) = (Ok tt, (sv1, c1)) /\
    (forall c' sent' key, authenticated c' = true -> healthy c' sent' -> exists sv2 c2,
       server_command strategy now (mkCommand (bs "GET") [key]) (sv1, c') = (Ok tt, (sv2, c2)) /\
       healthy c2 (sent' ++ encode
         match live now (default ∅ (absDB (sv_storage sv) !! db)) key ≫= string_of with
         | Some d => BulkStringValue d
         | None => NullBulkStringValue
         end)) /\
    (forall key value, exists s', storage_Set now key value None (sv_storage sv1) = (Ok tt, s') /\
       (forall db', db' <> db -> absDB s' !! db' = absDB (sv_storage sv1) !! db') /\
       (memoryLimit (sv_storage sv) <= 0 -> exists m, absDB s' !! db = Some m /\
          m !! key = Some (mkStored ValueTypeString (StringValue value) None now))).
Proof.
  intros Harg Hdb Ha Hl Hs Hc.
  destruct (command_refines "SELECT" [arg] _ _ sv c sent (reads_select arg db Harg) Ha (or_introl Hl) Hs Hc)
    as (r & sv1 & c1 & E & _ & Hs1 & Hstep & _ & _ & Hsync). cbn [astep] in Hstep.
  replace ((db <? 0) || (15 <? db)) with false in Hstep by zbool. destruct Hstep as [-> Habs].
  exists sv1, c1. split; [done|].
  assert (Hsel : selected (abstract (sv_storage sv1)) = default ∅ (absDB (sv_storage sv) !! db)).
  { rewrite Habs. unfold selected. cbn [adbs acur abstract]. rewrite lookup_partial_alter_eq. done. }
  assert (Hlim : alimit (abstract (sv_storage sv1)) = memoryLimit (sv_storage sv)) by by rewrite Habs.
  split.
  - intros c' sent' key Ha' Hc'.
    assert (Hl1 : loading sv1 = false) by (unfold loading in *; by rewrite Hsync).
    destruct (command_refines "GET" [key] _ _ sv1 c' sent' (reads_get key) Ha' (or_introl Hl1) Hs1 Hc')
      as (r & sv2 & c2 & E2 & Hh2 & _ & [-> _] & _). rewrite Hsel in Hh2. exists sv2, c2. split; [done|exact Hh2].
  - intros key value.
    destruct (op_ok_outcome now (OpSet key value None) (fun _ => RUnit) (Set_ now key value None) (sv_storage sv1))
      as (o & s' & E' & Ho & Hs' & Hr & Hset); try done.
    destruct o as [[]|err|p|]; try done. exists s'. split; [done|].
    assert (Hcur : acur (abstract (sv_storage sv1)) = db) by by rewrite Habs.
    split.
    + intros db' Hne. change (absDB s') with (adbs (abstract s')). revert Hset.
      case_match; [intros (victim & _ & ->)|intros ->]; unfold with_selected; cbn [adbs];
        by rewrite Hcur, lookup_insert_ne by done.
    + intros Hnolimit. rewrite Hlim in Hset. replace (0 <? memoryLimit (sv_storage sv)) with false in Hset by zbool.
      cbn [andb] in Hset. change (absDB s') with (adbs (abstract s')). rewrite Hset. unfold with_selected. cbn [adbs].
      rewrite Hcur, lookup_insert_eq. eexists. split; [done|]. by rewrite lookup_insert_eq.
Qed.

(** ** Redirected writes *)

(** What the client is told of the master's answer. *)
Definition relayed (v : Value) : Value :=
  match v with
  | mkValue ty d n arr null =>
      if bool_decide (ty = TypeError) then ErrorValue (clean_line d)
      else if bool_decide (ty = TypeArray) then
        if null then NullBulkStringValue else ArrayValue (convertToValue <$> (protocolValueToInterface <$> arr))
      else v
  end.

Definition command_value (cmd : Command) : Value := ArrayValue (BulkStringValue <$> (Name cmd :: Args cmd)).

(** What a login says and hears on the connection to the master. *)
Definition login (password : bytes) (greeting : Value) : bytes * bytes :=
  if bool_decide (password = []) then ([], [])
  else (encode (command_value (mkCommand (bs "AUTH") [password])), encode greeting).

Lemma writeCommandToMaster_ok cmd sent :
  writeCommandToMaster cmd (mkWriter [] sent None) = (Ok tt, mkWriter [] (sent ++ encode (command_value cmd)) None).
Proof.
  unfold writeCommandToMaster.
  assert (Hm : emits (WriteArray (BulkStringValue <$> (Name cmd :: Args cmd))) (encode (command_value cmd))).
  { apply (WriteValue_encode (command_value cmd)), shaped_supported. constructor.
    apply Forall_fmap, Forall_forall. intros; constructor. }
  by erewrite gbind_ok by apply Hm.
Qed.

Lemma ask_master_ok password cmd greeting v rest e : wf_value greeting -> VType greeting <> TypeError -> wf_value v ->
  ask_master password cmd (mkReader ((login password greeting).2 ++ encode v ++ rest) e) =
  (inr v, mkWriter [] ((login password greeting).1 ++ encode (command_value cmd)) None).
Proof.
  intros Hg Hgt Hv. unfold ask_master, login, NewWriter. case_bool_decide as Hp; cbn [fst snd app].
  - rewrite writeCommandToMaster_ok. by rewrite ReadNext_encode.
  - rewrite writeCommandToMaster_ok, ReadNext_encode by done. rewrite bool_decide_false by done.
    cbn [fst snd app]. rewrite writeCommandToMaster_ok. by rewrite ReadNext_encode.
Qed.

Lemma forward_ok v sv c sent : wf_value v -> healthy c sent -> exists sv', forwardResponse v (sv, c) =
  (Ok tt, (sv', said c (sent ++ encode (relayed v)))) /\ (sv' = sv \/ sv' = failed sv).
Proof.
  intros Hv Hc. assert (Hw : forall v m, m = WriteValue v -> supported v = true ->
    send m (sv, c) = (Ok tt, (sv, said c (sent ++ encode v)))) by (intros; by apply write_value_eq).
  destruct Hv as [d|d|n|d| |a _ Ha|].
  - exists sv. split; [|by left]. by apply (Hw (SimpleStringValue d)).
  - exists (failed sv). split; [|by right]. by apply writeError_eq.
  - exists sv. split; [|by left]. by apply (Hw (IntegerValue n)).
  - exists sv. split; [|by left]. by apply (Hw (BulkStringValue d)).
  - exists sv. split; [|by left]. by apply (Hw NullBulkStringValue).
  - exists sv. split; [|by left]. apply (Hw (ArrayValue _)); [done|]. apply shaped_supported. constructor.
    apply Forall_fmap, Forall_forall. intros x _. apply shaped_convert.
  - exists sv. split; [|by left]. by apply (Hw NullBulkStringValue).
Qed.

(** C32: with redirection on, a SET or a DEL is sent to the master as the client
    gave it, after a login if the master has a password, and the client is told
    what the master answered; the replica's own storage is left alone. *)
Theorem redirect_relays_master cmd sv c sent greeting v rest e : called cmd "SET" \/ called cmd "DEL" ->
  authenticated c = true -> redirectWrites sv = true -> sv_masterAddr sv <> [] -> healthy c sent ->
  wf_value greeting -> VType greeting <> TypeError -> wf_value v -> master_deadline (dials sv) = None ->
  master_dial (dials sv) = inr (mkReader ((login (sv_masterPassword sv) greeting).2 ++ encode v ++ rest) e) ->
  exists sv' c', server_command strategy now cmd (sv, c) = (Ok tt, (sv', c')) /\
    healthy c' (sent ++ encode (relayed v)) /\ sv_storage sv' = sv_storage sv /\ dials sv' = S (dials sv) /\
    master_sent sv' = master_sent sv ++ [(login (sv_masterPassword sv) greeting).1 ++ encode (command_value cmd)].
Proof.
  intros Hname Ha Hredir Haddr Hc Hg Hgt Hv Hdead Hdial.
  assert (E : server_command strategy now cmd (sv, c) = redirectToMaster cmd (counted sv, c)).
  { destruct Hname as [Hn|Hn]; [rewrite (command_dispatch _ handleSet)|rewrite (command_dispatch _ handleDel)];
      try (rewrite ?Hn; done); unfold handleSet, handleDel, write_command, gbind at 1, get_server; cbn [fst];
      change (redirectWrites (counted sv)) with (redirectWrites sv); by rewrite Hredir. }
  rewrite E. unfold redirectToMaster, gbind at 1, get_server. cbn [fst].
  change (sv_masterAddr (counted sv)) with (sv_masterAddr sv). rewrite bool_decide_false by done.
  change (dials (counted sv)) with (dials sv). rewrite Hdial, Hdead.
  change (sv_masterPassword (counted sv)) with (sv_masterPassword sv). rewrite ask_master_ok by done.
  unfold gbind, mod_server, gmodify. cbn [fst snd].
  match goal with |- context [forwardResponse v (?sv0, c)] => destruct (forward_ok v sv0 c sent Hv Hc) as (sv' & -> & Hsv) end.
  eexists sv', _. split; [done|]. split; [done|]. by destruct Hsv as [->| ->].
Qed.

(** ** Scripts write *)

(** The script calls SET on its key and argument and returns the text. *)
Definition sets_and_returns (script key value text : bytes) : Prop := forall L, exists resume heap L',
  vm_step (DoString L script [key] [value]) = LCall false (LString <$> [bs "SET"; key; value]) resume /\
  vm_step (resume (Answered (LString (bs "OK")))) = LReturn (LString text) heap L'.

Lemma run_sets script key value text s s' L : sets_and_returns script key value text -> (2 <= lua_fuel)%nat ->
  (forall s, LV_AsString (LString s) = s) -> Set_ now key value None s = (Ok tt, s') ->
  exists heap L', run_script lua_fuel now (DoString L script [key] [value]) s = (Ok (inr (LString text, heap), L'), s').
Proof.
  intros Hdo Hfuel Hstr E. destruct (Hdo L) as (resume & heap & L' & E1 & E2). exists heap, L'.
  assert (Ecall : redisCall now (LString <$> [bs "SET"; key; value]) s = (Ok (Answered (LString (bs "OK"))), s')).
  { unfold redisCall, executeRedisCommand. cbn [fmap list_fmap]. rewrite !Hstr, bool_decide_false by done.
    rewrite (gtry_ok _ _ _ _ (GString (bs "OK")) s'); [done|]. unfold Lua.executeCommand. rewrite bool_decide_false by done.
    rewrite bool_decide_true by done. by rewrite (gbind_ok _ _ _ _ _ E). }
  destruct lua_fuel as [|[|fuel]]; [lia|lia|]. rewrite run_script_S, E1. unfold redis_call.
  by rewrite (gbind_ok _ _ _ _ _ Ecall), run_script_S, E2.
Qed.

(** C37: a script a client runs can write to the replica, where the client's own SET
    is refused: without redirection a SET, of anything, is answered with an error and
    leaves the storage as it is; an EVAL whose script calls SET has the effect of a SET
    on the storage. *)
Theorem script_writes_replica script key value text sv c sent : authenticated c = true -> healthy c sent ->
  wf (sv_storage sv) -> (forall s, LV_AsString (LString s) = s) -> (2 <= lua_fuel)%nat ->
  sets_and_returns script key value text ->
  (redirectWrites sv = false -> forall args, exists sv' c' v,
    server_command strategy now (mkCommand (bs "SET") args) (sv, c) = (Ok tt, (sv', c')) /\
    healthy c' (sent ++ encode v) /\ VType v = TypeError /\ sv_storage sv' = sv_storage sv) /\
  exists sv' c', server_command strategy now (mkCommand (bs "EVAL") [script; bs "1"; key; value]) (sv, c) =
      (Ok tt, (sv', c')) /\ healthy c' (sent ++ encode (BulkStringValue text)) /\ wf (sv_storage sv') /\
    astep now (abstract (sv_storage sv)) (OpSet key value None) RUnit (abstract (sv_storage sv')).
Proof.
  intros Ha Hc Hs Hstr Hfuel Hdo. split.
  { intros Hredir args. rewrite (command_dispatch _ handleSet) by done. unfold handleSet, write_command, gbind at 1, get_server.
    cbn [fst]. change (redirectWrites (counted sv)) with (redirectWrites sv). rewrite Hredir.
    rewrite (writeError_eq _ _ _ sent) by done. eexists _, _, _. split; [reflexivity|]. done. }
  destruct (op_ok_outcome now (OpSet key value None) (fun _ => RUnit) (Set_ now key value None) (sv_storage sv))
    as (o & s' & E & Ho & Hs' & Hr & Hset); try done.
  destruct o as [[]|err|p|]; try done.
  assert (Eeval : exists e', Eval now script [key] [value] (sv_lua sv, sv_storage sv) = (Ok (GString text), (e', s'))).
  { destruct (getLuaState_ok (sv_lua sv) (sv_storage sv)) as (L & e1 & Eg & _).
    destruct (Eval_fuel_run lua_fuel now script [key] [value] _ _ L e1 Eg) as (pool & n & Er).
    destruct (run_sets script key value text _ s' L Hdo Hfuel Hstr E) as (heap & L' & EL). unfold Eval. rewrite Er, EL.
    eexists. unfold given_back. cbn [fst]. by destruct lua_fuel as [|fuel]; [lia|]. }
  destruct Eeval as [e' Eeval]. rewrite (command_dispatch _ (handleEval now)) by done.
  unfold handleEval, eval_with. cbn [Args]. unfold gbind at 1. change (script_args [bs "1"; key; value]) with
    (Ok (A := bytes + list bytes * list bytes) (inr ([key], [value]))). cbv beta iota.
  unfold gtry, on_lua. cbn [fst snd]. change (sv_lua (counted sv)) with (sv_lua sv).
  change (sv_storage (counted sv)) with (sv_storage sv). rewrite Eeval.
  eexists _, _. split; [by apply (write_value_eq (BulkStringValue text))|]. done.
Qed.

End ServerSpec.

(** ** Witnesses *)

#[local] Existing Instance sample_hash.
#[local] Existing Instance sample_runtime.

#[local] Existing Instance sample_vm.

(** A master that accepts a login and answers OK, and texts for what has one elsewhere. *)
#[local] Instance sample_net : MasterNet :=
  {| master_dial := fun _ => inr (mkReader (encode (SimpleStringValue (bs "OK")) ++ encode (IntegerValue 2) ++ []) EOF);
     master_deadline := fun _ => None |}.

#[local] Instance sample_format : GoFormat :=
  {| fmt_17g := fun _ => []; fmt_v_float := fun _ => []; fmt_v_map := fun _ => [] |}.

Definition sample_server : Server :=
  SetWriteRedirection true (bs "master:6379") (bs "secret") (NewServer sample_storage).

Definition sample_values : list Value := [
  ArrayValue (BulkStringValue <$> [bs "get"; bs "job:7"]);
  ArrayValue (BulkStringValue <$> [bs "eval"; put_script; bs "1"; bs "k"; bs "v"]);
  IntegerValue 3;
  ArrayValue (BulkStringValue <$> [bs "SCAN"; bs "0"; bs "count"; bs "5"])].

Definition sample_conn (vals : list Value) : Conn :=
  (handleNewClient 7 (mkReader (concat (encode <$> vals)) EOF) sample_server).2.

Lemma sample_values_wf : Forall wf_value sample_values.
Proof.
  unfold sample_values. cbn [fmap list_fmap]. repeat first [ apply Forall_cons_2 | apply Forall_nil_2 | apply wf_array | apply wf_bulk | apply wf_integer ];
    by vm_compute.
Defined.

Lemma sample_values_polite : Forall polite sample_values.
Proof.
  assert (Hplain : forall v cmd, ParseCommand v = Ok cmd -> fair cmd -> ~ called cmd "QUIT" -> script_sent cmd = None -> polite v).
  { intros v cmd E Hf Hq Hs. unfold polite. rewrite E. by rewrite Hs. }
  assert (Hunscripted : forall cmd, called cmd "EVAL" \/ called cmd "EVALSHA" -> bool_decide (called cmd "EVAL") || bool_decide (called cmd "EVALSHA") = true).
  { intros cmd [H|H]; rewrite (bool_decide_true _ H); [done|by rewrite orb_true_r]. }
  unfold sample_values. apply Forall_cons_2; [|apply Forall_cons_2; [|apply Forall_cons_2; [|apply Forall_singleton]]].
  - apply (Hplain _ (mkCommand (bs "GET") [bs "job:7"])); [done|split; [done|]| |done]; [|by vm_compute].
    intros Hs%Hunscripted. by vm_compute in Hs.
  - unfold polite. change (ParseCommand _) with (Ok (mkCommand (bs "EVAL") [put_script; bs "1"; bs "k"; bs "v"])).
    split; [split; [done|]|split; [by vm_compute|]].
    + intros _. split; vm_compute; congruence.
    + intros script [= <-]. apply put_halting.
  - done.
  - apply (Hplain _ (mkCommand (bs "SCAN") [bs "0"; bs "count"; bs "5"])); [done|split| |done]; [| |by vm_compute].
    + intros _. vm_compute. congruence.
    + intros Hs%Hunscripted. by vm_compute in Hs.
Qed.

Lemma server_refines_store_witness : exists r sv' c',
  server_command 1 7 (mkCommand (bs "TYPE") [bs "none"]) (sample_server, sample_conn []) = (Ok tt, (sv', c')) /\
  healthy c' ([] ++ encode (int_reply (fun n => SimpleStringValue (ValueType_String n)) r)) /\ wf (sv_storage sv') /\
  astep 7 (abstract sample_storage) (OpType (bs "none")) r (abstract (sv_storage sv')) /\
  cl_reader c' = cl_reader (sample_conn []) /\ authenticated c' = true.
Proof.
  apply (server_refines_store 1 7 "TYPE" [bs "none"] (OpType (bs "none")) _ sample_server (sample_conn []) []);
    [constructor|done|by right|apply sample_storage_wf|done].
Defined.

Lemma session_replies_witness : exists sv' c' replies,
  handle 1 7 (sample_server, sample_conn sample_values) = (Ok tt, (sv', c')) /\ closed c' = true /\
  cl_writer c' = mkWriter [] (concat (encode <$> replies)) None /\ length replies = 4%nat /\
  Forall shaped replies /\ errorCount sv' = 0 + sumZ (errors_in <$> replies) /\ wf (sv_storage sv').
Proof.
  apply (session_replies 1 7 sample_values sample_server (sample_conn sample_values));
    [apply sample_values_wf|apply sample_values_polite|intros h script; change (scripts _) with (∅ : gmap bytes bytes); by rewrite lookup_empty|done|done|done|
     apply sample_storage_wf].
Defined.

Definition sample_guarded : Server := SetPassword (bs "sesame") sample_server.

Lemma password_guards_server_witness : exists sv' c' v,
  server_command 1 7 (mkCommand (bs "AUTH") [bs "sesame"]) (sample_guarded, set_auth false (sample_conn [])) =
    (Ok tt, (sv', c')) /\ healthy c' ([] ++ encode v) /\
  sv_storage sv' = sample_storage /\ sv_lua sv' = NewEngine [] /\
  (authenticated c' = true <-> called (mkCommand (bs "AUTH") [bs "sesame"]) "AUTH" /\ [bs "sesame"] = [bs "sesame"]) /\
  (VType v <> TypeError <-> authenticated c' = true) /\
  (~ called (mkCommand (bs "AUTH") [bs "sesame"]) "AUTH" -> v = ErrorValue (bs "NOAUTH Authentication required")).
Proof.
  by apply (password_guards_server 1 7 (mkCommand (bs "AUTH") [bs "sesame"]) sample_guarded
    (set_auth false (sample_conn [])) []).
Defined.

Lemma oversized_request_panics_witness : exists p ss',
  server_command 1 7 (mkCommand (bs "EVAL") [bs "return 1"; bs "9223372036854775807"]) (sample_server, sample_conn []) =
    (Panic p, ss').
Proof.
  apply (oversized_request_panics 1 7 (mkCommand (bs "EVAL") [bs "return 1"; bs "9223372036854775807"])
    sample_server (sample_conn [])); [done|]. right. split; [by left|]. split; by vm_compute.
Defined.

Lemma select_is_shared_witness : exists sv1 c1,
  server_command 1 7 (mkCommand (bs "SELECT") [bs "3"]) (sample_server, sample_conn []) = (Ok tt, (sv1, c1)) /\
  (forall c' sent' key, authenticated c' = true -> healthy c' sent' -> exists sv2 c2,
     server_command 1 7 (mkCommand (bs "GET") [key]) (sv1, c') = (Ok tt, (sv2, c2)) /\
     healthy c2 (sent' ++ encode
       match live 7 (default ∅ (absDB sample_storage !! 3)) key ≫= string_of with
       | Some d => BulkStringValue d
       | None => NullBulkStringValue
       end)) /\
  (forall key value, exists s', storage_Set 7 key value None (sv_storage sv1) = (Ok tt, s') /\
     (forall db', db' <> 3 -> absDB s' !! db' = absDB (sv_storage sv1) !! db') /\
     (memoryLimit sample_storage <= 0 -> exists m, absDB s' !! 3 = Some m /\
        m !! key = Some (mkStored ValueTypeString (StringValue value) None 7))).
Proof.
  apply (select_is_shared 1 7 (bs "3") 3 sample_server (sample_conn []) []);
    [by vm_compute|lia|done|done|apply sample_storage_wf|done].
Defined.

Lemma redirect_relays_master_witness : exists sv' c',
  server_command 1 7 (mkCommand (bs "DEL") [bs "a"; bs "b"]) (sample_server, sample_conn []) = (Ok tt, (sv', c')) /\
  healthy c' ([] ++ encode (relayed (IntegerValue 2))) /\ sv_storage sv' = sample_storage /\ dials sv' = 1%nat /\
  master_sent sv' = [] ++ [(login (bs "secret") (SimpleStringValue (bs "OK"))).1 ++
    encode (command_value (mkCommand (bs "DEL") [bs "a"; bs "b"]))].
Proof.
  apply (redirect_relays_master 1 7 (mkCommand (bs "DEL") [bs "a"; bs "b"]) sample_server (sample_conn []) []
    (SimpleStringValue (bs "OK")) (IntegerValue 2) [] EOF); try done; [by right|repeat constructor; done|by constructor].
Defined.

Lemma script_writes_replica_witness :
  (false = false -> forall args, exists sv' c' v,
    server_command 1 7 (mkCommand (bs "SET") args) (NewServer sample_storage, sample_conn []) = (Ok tt, (sv', c')) /\
    healthy c' ([] ++ encode v) /\ VType v = TypeError /\ sv_storage sv' = sample_storage) /\
  exists sv' c',
  server_command 1 7 (mkCommand (bs "EVAL") [put_script; bs "1"; bs "k"; bs "v"]) (NewServer sample_storage, sample_conn []) =
    (Ok tt, (sv', c')) /\ healthy c' ([] ++ encode (BulkStringValue (bs "OK"))) /\ wf (sv_storage sv') /\
  astep 7 (abstract sample_storage) (OpSet (bs "k") (bs "v") None) RUnit (abstract (sv_storage sv')).
Proof.
  apply (script_writes_replica 1 7 put_script (bs "k") (bs "v") (bs "OK") (NewServer sample_storage) (sample_conn []) []);
    [done|done|apply sample_storage_wf|done|cbn; lia|]. intros L. by do 3 eexists.
Defined.
