(* ===== verification/ServerLife.v ===== *)
(** * Starting, serving and stopping the server (server/server.go)

    The server of Server with its goroutines: the one that accepts connections,
    one per client, and the caller of [Stop]. A step of one of them, or of the
    network, is an event; the goroutines interleave freely between events. The
    loop of [acceptConnections] and the one of [handle] are cut at the calls that
    wait, [Accept] and [ReadNext]; a command is one event, as in Server. *)

From Stdlib Require Import ZArith Lia String.
From stdpp Require Import base list list_numbers gmap.
From S2P Require Import Prelude GoLib RespTypes RespWriter RespReader StorageTypes Memory.
From S2P Require Import Sync Lua Server.

Section ServerLife.
  Context `{Hash : XXHash} `{Runtime : GoRuntime} {VM : LuaVM} {U : GoUnicode} {Net : MasterNet} {Fmt : GoFormat}.
  Context (strategy : Z).

(** ** State *)

(** Where [acceptConnections] is: not running, before its [select], in [Accept],
    or with a connection to register. *)
Inductive Acceptor : Type :=
| AIdle
| ASelect
| AAccept
| AConn (r : Reader).

(** Where the caller of [Stop] is: not yet called, after [s.cancel], after the
    listener is closed, in the range over the clients with those still to visit,
    in [s.wg.Wait], or back. *)
Inductive Stopping : Type :=
| SRunning
| SCancelled
| SUnlistened
| SRange (todo : gset nat)
| SWait
| SReturned.

(** [l_listener]: the address listened on, and whether the listener is open.
    [l_conns]: the clients whose [handle] has not returned, by the number of their
    connection; [l_reading]: those of them inside [ReadNext]; [l_clients]: the keys
    of [s.clients]; [l_done]: [s.ctx] is cancelled. The wait group counts the
    acceptor, unless idle, and the clients of [l_conns]. *)
Record Life : Type := mkLife {
  l_server : Server;
  l_listener : option (bytes * bool);
  l_acceptor : Acceptor;
  l_conns : gmap nat Conn;
  l_reading : gset nat;
  l_clients : gset nat;
  l_next : nat;
  l_done : bool;
  l_stop : Stopping
}.

Definition new_life (sv : Server) : Life := mkLife sv None AIdle ∅ ∅ ∅ 0 false SRunning.

Definition set_acceptor (a : Acceptor) (l : Life) : Life := mkLife (l_server l) (l_listener l) a (l_conns l)
  (l_reading l) (l_clients l) (l_next l) (l_done l) (l_stop l).
Definition set_stop (st : Stopping) (l : Life) : Life := mkLife (l_server l) (l_listener l) (l_acceptor l) (l_conns l)
  (l_reading l) (l_clients l) (l_next l) (l_done l) st.
Definition set_listener (x : option (bytes * bool)) (l : Life) : Life := mkLife (l_server l) x (l_acceptor l) (l_conns l)
  (l_reading l) (l_clients l) (l_next l) (l_done l) (l_stop l).
Definition set_conns (conns : gmap nat Conn) (reading clients : gset nat) (l : Life) : Life := mkLife (l_server l)
  (l_listener l) (l_acceptor l) conns reading clients (l_next l) (l_done l) (l_stop l).
Definition set_l_server (sv : Server) (l : Life) : Life := mkLife sv (l_listener l) (l_acceptor l) (l_conns l)
  (l_reading l) (l_clients l) (l_next l) (l_done l) (l_stop l).
Definition set_done (l : Life) : Life := mkLife (l_server l) (l_listener l) (l_acceptor l) (l_conns l)
  (l_reading l) (l_clients l) (l_next l) true (l_stop l).

(** ** Starting *)

(** [listen]: the error of [net.Listen], or the address it listens on. *)
Definition life_start (addr : bytes) (listen : error + bytes) (l : Life) : outcome unit * Life :=
  match listen with
  | inl err => (Err (Errorf (bs "failed to listen on " ++ addr ++ bs ": " ++ Error err)), set_listener None l)
  | inr a => (Ok tt, set_acceptor ASelect (set_listener (Some (a, true)) l))
  end.

Definition Addr (addr : bytes) (l : Life) : bytes :=
  match l_listener l with Some (a, _) => a | None => addr end.

Definition listening (l : Life) : bool := match l_listener l with Some (_, open) => open | None => false end.

(** ** Accepting *)

(** The [select]. *)
Definition accept_select (l : Life) : Life := set_acceptor (if l_done l then AIdle else AAccept) l.

(** What [Accept] returned. *)
Definition accept_result (res : error + Reader) (l : Life) : Life :=
  match res with
  | inl _ => set_acceptor (if l_done l then AIdle else ASelect) l
  | inr r => set_acceptor (AConn r) l
  end.

(** [handleNewClient] on the connection [r], with the goroutine it starts. *)
Definition register (now : Z) (r : Reader) (l : Life) : Life :=
  let '(sv, c) := handleNewClient now r (l_server l) in
  mkLife sv (l_listener l) ASelect (<[l_next l := c]> (l_conns l)) (l_reading l) ({[l_next l]} ∪ l_clients l)
    (S (l_next l)) (l_done l) (l_stop l).

(** ** Serving *)

(** The deferred calls of [handle]. *)
Definition finish_client (i : nat) (l : Life) : Life :=
  set_conns (delete i (l_conns l)) (l_reading l ∖ {[i]}) (l_clients l ∖ {[i]}) l.

(** The [select] of [handle]; the context of a client is a child of the server's. *)
Definition client_select (i : nat) (c : Conn) (l : Life) : Life :=
  if l_done l || closed c then finish_client i l
  else set_conns (l_conns l) ({[i]} ∪ l_reading l) (l_clients l) l.

(** What [handle] does with the result [o] of a read; [None]: the process ends. A
    connection the client has closed is not in [s.clients] any more. *)
Definition client_read (now : Z) (i : nat) (c : Conn) (o : outcome Value) (l : Life) : option Life :=
  match handle_value strategy now (l_done l || closed c) o (l_server l, c) with
  | (Ok more, (sv, c')) =>
      let l' := set_l_server sv (set_conns (<[i := c']> (l_conns l)) (l_reading l ∖ {[i]})
        (if closed c' then l_clients l ∖ {[i]} else l_clients l) l) in
      Some (if (more : bool) then l' else finish_client i l')
  | _ => None
  end.

(** ** Stopping *)

(** [client.Close] from outside: nothing more can be written. *)
Definition cut (c : Conn) : Conn :=
  set_closed (set_io (cl_reader c) (mkWriter [] (w_sent (cl_writer c)) (Some (Errorf (bs "use of closed network connection")))) c).
Definition close_client (i : nat) (l : Life) : Life :=
  set_conns (alter cut i (l_conns l)) (l_reading l) (l_clients l ∖ {[i]}) l.

(** [s.cancel()] *)
Definition stop_cancel (l : Life) : Life := set_stop SCancelled (set_done l).
(** [s.listener.Close()] *)
Definition stop_listener (l : Life) : Life :=
  set_stop SUnlistened (set_listener ((fun x => (x.1, false)) <$> l_listener l) l).
Definition stop_range (l : Life) : Life := set_stop (SRange (l_clients l)) l.
Definition stop_visit (i : nat) (todo : gset nat) (l : Life) : Life :=
  set_stop (SRange (todo ∖ {[i]})) (close_client i l).

(** The goroutines the wait group counts have returned. *)
Definition quiet (l : Life) : bool :=
  match l_acceptor l with AIdle => bool_decide (l_conns l = ∅) | _ => false end.

(** ** Events *)

Inductive Event : Type :=
| EStart (addr : bytes) (listen : error + bytes)
| ESelect
| EAccept (res : error + Reader)
| ERegister (now : Z)
| ECheck (i : nat)
| ERead (i : nat) (now : Z) (o : outcome Value)
| EStop
| EClose
| ERange
| EVisit (i : nat)
| ERanged
| EWaited.

(** A closed listener gives no connection. A range over the clients visits those of
    its start, and may visit one registered meanwhile. [Start] is called once, and
    again if it failed, [Stop] once, later. *)
Definition life_step (e : Event) (l : Life) : option Life :=
  match e with
  | EStart addr listen =>
      match l_stop l, l_listener l with SRunning, None => Some (life_start addr listen l).2 | _, _ => None end
  | ESelect => match l_acceptor l with ASelect => Some (accept_select l) | _ => None end
  | EAccept res =>
      match l_acceptor l, res with
      | AAccept, inl _ => Some (accept_result res l)
      | AAccept, inr _ => if listening l then Some (accept_result res l) else None
      | _, _ => None
      end
  | ERegister now => match l_acceptor l with AConn r => Some (register now r l) | _ => None end
  | ECheck i =>
      match l_conns l !! i with
      | Some c => if bool_decide (i ∈ l_reading l) then None else Some (client_select i c l)
      | None => None
      end
  | ERead i now o =>
      match l_conns l !! i with
      | Some c => if bool_decide (i ∈ l_reading l) then client_read now i c o l else None
      | None => None
      end
  | EStop => match l_stop l with SRunning => Some (stop_cancel l) | _ => None end
  | EClose => match l_stop l with SCancelled => Some (stop_listener l) | _ => None end
  | ERange => match l_stop l with SUnlistened => Some (stop_range l) | _ => None end
  | EVisit i =>
      match l_stop l with
      | SRange todo => if bool_decide (i ∈ todo ∪ l_clients l) then Some (stop_visit i todo l) else None
      | _ => None
      end
  | ERanged => match l_stop l with SRange todo => if bool_decide (todo = ∅) then Some (set_stop SWait l) else None | _ => None end
  | EWaited => match l_stop l with SWait => if quiet l then Some (set_stop SReturned l) else None | _ => None end
  end.

Fixpoint life_run (es : list Event) (l : Life) : option Life :=
  match es with
  | [] => Some l
  | e :: es' => l' ← life_step e l; life_run es' l'
  end.

(** [Stats] *)
Definition Life_Stats (l : Life) : Z * (Z * Z * Z) := (Z.of_nat (size (l_clients l)), Server_Stats (l_server l)).

(** ** Who has to act *)

(** The events that do not wait for the network or the caller: an [Accept] and a
    [ReadNext] end by themselves only once the listener or the connection is closed. *)
Definition prompt (l : Life) (e : Event) : bool :=
  match e with
  | EStart _ _ | EStop => false
  | EAccept (inl _) => negb (listening l)
  | EAccept (inr _) => false
  | ERead i _ (Err _) => match l_conns l !! i with Some c => closed c | None => false end
  | ERead _ _ _ => false
  | _ => true
  end.

(** A run that waits for nobody. *)
Fixpoint prompt_run (es : list Event) (l : Life) : option Life :=
  match es with
  | [] => Some l
  | e :: es' => if prompt l e then l' ← life_step e l; prompt_run es' l' else None
  end.

(** The steps [Stop] and the goroutines have left once the context is cancelled. *)
Definition stop_rank (l : Life) : nat :=
  match l_stop l with
  | SRunning => 5 + size (l_clients l) | SCancelled => 4 + size (l_clients l) | SUnlistened => 3 + size (l_clients l)
  | SRange todo => 2 + size (todo ∪ l_clients l) | SWait => 1 | SReturned => 0
  end.
Definition accept_rank (l : Life) : nat :=
  match l_acceptor l with AIdle => 0 | ASelect => 1 | AConn _ => 4 | AAccept => 5 end.
Definition life_rank (l : Life) : nat := stop_rank l + accept_rank l + size (l_conns l) + size (l_reading l).

End ServerLife.

Arguments life_step : simpl never.
