(* ===== verification/ServerLifeSpec.v ===== *)
(** * What stopping and serving many clients guarantee *)

From Stdlib Require Import ZArith Lia String.
From stdpp Require Import base list list_numbers gmap fin_maps fin_map_dom sets.
From S2P Require Import Prelude GoLib RespTypes RespWriter RespReader RespProofs RespSpec StorageTypes Matching Memory.
From S2P Require Import MemoryInv StoreSpec StorageSpec Sync Lua LuaSpec Server ServerProofs ServerSpec ServerLife.

Section ServerLifeSpec.
  Context `{Hash : XXHash} `{Runtime : GoRuntime} {VM : LuaVM} {U : GoUnicode} {Net : MasterNet} {Fmt : GoFormat}.
  Context (strategy : Z).

(** ** A closed client stays closed *)

Definition keeps {A} (m : M Session A) : Prop := forall ss, closed ss.2 = true -> closed (m ss).2.2 = true.

Lemma keeps_pure {A} (o : Session -> outcome A) : keeps (fun ss => (o ss, ss)).
Proof. by intros ss. Qed.
Lemma keeps_bind {A B} (m : M Session A) (k : A -> M Session B) : keeps m -> (forall a, keeps (k a)) -> keeps (gbind m k).
Proof.
  intros Hm Hk ss Hs. specialize (Hm ss Hs). unfold gbind. destruct (m ss) as [[a|e|p|] ss']; try done. by apply Hk.
Qed.
Lemma keeps_try {A B} (m : M Session A) (k : A -> M Session B) h : keeps m -> (forall a, keeps (k a)) ->
  (forall e, keeps (h e)) -> keeps (gtry m k h).
Proof.
  intros Hm Hk Hh ss Hs. specialize (Hm ss Hs). unfold gtry. destruct (m ss) as [[a|e|p|] ss']; try done.
  - by apply Hk.
  - by apply Hh.
Qed.
Lemma keeps_storage {A} (m : Mem A) : keeps (on_storage m).
Proof. intros ss Hs. unfold on_storage. by destruct (m _). Qed.
Lemma keeps_lua {A} (m : M ES A) : keeps (on_lua m).
Proof. intros ss Hs. unfold on_lua. by destruct (m _). Qed.
Lemma keeps_mod_lua {A} (f : Engine -> A * Engine) : keeps (mod_lua f).
Proof. intros ss Hs. unfold mod_lua. by destruct (f _). Qed.
Lemma keeps_conn f : (forall c, closed c = true -> closed (f c) = true) -> keeps (mod_conn f).
Proof. intros Hf ss Hs. by apply Hf. Qed.
Lemma keeps_server f : keeps (mod_server f).
Proof. by intros ss. Qed.
Lemma keeps_send m : keeps (send m).
Proof. intros ss Hs. unfold send. by destruct (gbind _ _ (cl_writer ss.2)). Qed.

Ltac keep :=
  intros; first
    [ apply keeps_bind; [|intros ?] | apply keeps_try; [|intros ?|intros ?] | apply keeps_storage | apply keeps_lua
    | apply keeps_mod_lua | apply keeps_conn; done | apply keeps_server | apply keeps_send | apply keeps_pure
    | progress (cbv beta iota zeta) | case_match ].
Ltac keeping := repeat keep.

Lemma keeps_writeError s : keeps (writeError s).
Proof. unfold writeError. keeping. Qed.
Lemma keeps_writeResult r : keeps (writeResult r).
Proof. destruct r; cbn [writeResult]; repeat first [apply keeps_send | keep]. Qed.

Lemma keeps_eval run rest : keeps (eval_with run rest).
Proof. unfold eval_with. repeat first [apply keeps_writeError | apply keeps_writeResult | keep]. Qed.

Lemma keeps_redirect cmd : keeps (redirectToMaster cmd).
Proof.
  unfold redirectToMaster, forwardResponse. repeat first [apply keeps_writeError | keep].
Qed.

Lemma keeps_handler name h cmd now : handler_for strategy now name = Some h -> keeps (h cmd).
Proof.
  unfold handler_for. intros ([name' h'] & [Hin _]%find_some & Eh)%fmap_Some. cbn [snd] in Eh. subst h'.
  unfold handlers in Hin. repeat (destruct Hin as [[= <- <-]|Hin]); try solve [destruct Hin].
  all: unfold handleAuth, handlePing, handleSelect, handleGet, handleMGet, handleSet, handleDel, handleExists, handleTTL,
    handlePTTL, handleType, handleKeys, handleScan, handleDBSize, handleInfo, handleRole, handleCommand, handleConfig,
    handleConfigGet, handleReadOnly, handleEval, handleEvalSHA, handleScript, write_command, wrong_args, Close.
  all: repeat first [apply keeps_writeError | apply keeps_eval | apply keeps_redirect | keep].
Qed.

Lemma keeps_handle_value now cancelled o : keeps (handle_value strategy now cancelled o).
Proof.
  unfold handle_value, server_command.
  repeat first [apply keeps_writeError | match goal with E : handler_for _ _ _ = Some _ |- _ => exact (keeps_handler _ _ _ _ E) end | keep].
Qed.

(** ** The invariant *)

Record life_inv (l : Life) : Prop := {
  inv_done : l_done l = match l_stop l with SRunning => false | _ => true end;
  inv_unlistened : match l_stop l with SRunning | SCancelled => True | _ => listening l = false end;
  inv_clients : forall i, i ∈ l_clients l -> is_Some (l_conns l !! i);
  inv_reading : forall i, i ∈ l_reading l -> is_Some (l_conns l !! i);
  inv_open : forall i c, l_conns l !! i = Some c -> closed c = false -> i ∈ l_clients l;
  inv_swept : forall i c, l_conns l !! i = Some c -> i ∈ l_reading l -> closed c = false ->
    match l_stop l with SRange todo => i ∈ todo | SWait | SReturned => False | _ => True end;
  inv_quiet : l_stop l = SReturned -> quiet l = true;
  inv_next : forall i, is_Some (l_conns l !! i) -> (i < l_next l)%nat
}.

Lemma new_life_inv sv : life_inv (new_life sv).
Proof. by split; cbn; intros; simplify_map_eq; try set_solver. Qed.

(** Steps that leave the clients alone. *)
Lemma inv_same l l' : life_inv l ->
  l_conns l' = l_conns l -> l_reading l' = l_reading l -> l_clients l' = l_clients l -> l_next l' = l_next l ->
  l_done l' = match l_stop l' with SRunning => false | _ => true end ->
  match l_stop l' with SRunning | SCancelled => True | _ => listening l' = false end ->
  (forall i c, l_conns l !! i = Some c -> i ∈ l_reading l -> closed c = false ->
    match l_stop l' with SRange todo => i ∈ todo | SWait | SReturned => False | _ => True end) ->
  (l_stop l' = SReturned -> quiet l' = true) -> life_inv l'.
Proof. intros [] E1 E2 E3 E4 H1 H2 H3 H4. split; rewrite ?E1, ?E2, ?E3, ?E4; eauto. Qed.

Lemma finish_inv i l : life_inv l -> life_inv (finish_client i l).
Proof.
  intros []. split; cbn; try done.
  - intros j [? ?]%elem_of_difference. rewrite lookup_delete_ne by set_solver. eauto.
  - intros j [? ?]%elem_of_difference. rewrite lookup_delete_ne by set_solver. eauto.
  - intros j c [? ?]%lookup_delete_Some ?. apply elem_of_difference. split; [eauto|set_solver].
  - intros j c [? ?]%lookup_delete_Some [? ?]%elem_of_difference ?. by apply (inv_swept0 j c).
  - intros Hs. specialize (inv_quiet0 Hs). unfold quiet in *. cbn. destruct (l_acceptor l); try done.
    apply bool_decide_eq_true in inv_quiet0. by rewrite inv_quiet0, delete_empty.
  - intros j [? [? ?]%lookup_delete_Some]. eauto.
Qed.

Lemma quiet_conns l i c : life_inv l -> l_conns l !! i = Some c -> l_stop l <> SReturned.
Proof.
  intros [] Hc Hs. specialize (inv_quiet0 Hs). unfold quiet in *. destruct (l_acceptor l); try done.
  apply bool_decide_eq_true in inv_quiet0. by rewrite inv_quiet0, lookup_empty in Hc.
Qed.

Lemma quiet_acceptor l : life_inv l -> l_acceptor l <> AIdle -> l_stop l <> SReturned.
Proof. intros [] Ha Hs. specialize (inv_quiet0 Hs). unfold quiet in *. by destruct (l_acceptor l). Qed.

Lemma client_read_inv now i c o l l' : life_inv l -> l_conns l !! i = Some c ->
  client_read strategy now i c o l = Some l' -> life_inv l'.
Proof.
  intros Hinv Hc. unfold client_read. pose proof (keeps_handle_value now (l_done l || closed c) o (l_server l, c)) as Hk.
  destruct (handle_value _ _ _ _ _) as [[more| | |] [sv c']]; try done. cbn [snd] in Hk. intros [= <-].
  assert (H : life_inv (set_l_server sv (set_conns (<[i := c']> (l_conns l)) (l_reading l ∖ {[i]})
        (if closed c' then l_clients l ∖ {[i]} else l_clients l) l))).
  { pose proof (quiet_conns l i c Hinv Hc) as Hq. destruct Hinv. split; cbn; try done.
    - intros j Hj. apply lookup_insert_is_Some'. right. apply inv_clients0. destruct (closed c'); set_solver.
    - intros j [Hj _]%elem_of_difference. apply lookup_insert_is_Some'. eauto.
    - intros j d. destruct (decide (j = i)) as [->|Hne].
      + rewrite lookup_insert_eq. intros [= ->] Hd. rewrite Hd in *. apply (inv_open0 i c Hc).
        destruct (closed c); naive_solver.
      + rewrite lookup_insert_ne by done. intros Hd Hd'. destruct (closed c'); set_solver.
    - intros j d. rewrite elem_of_difference, elem_of_singleton. intros Hd [? ?].
      rewrite lookup_insert_ne in Hd by done. by apply (inv_swept0 j d).
    - intros j [->|?]%lookup_insert_is_Some'; eauto. }
  destruct more; [done|by apply finish_inv].
Qed.

Lemma cut_closed c : closed (cut c) = true.
Proof. done. Qed.

Lemma visit_inv i todo l : life_inv l -> l_stop l = SRange todo -> life_inv (stop_visit i todo l).
Proof.
  intros [] Hs. rewrite Hs in *. split; cbn; try done.
  - intros j [? _]%elem_of_difference. rewrite lookup_alter_is_Some. eauto.
  - intros j ?. rewrite lookup_alter_is_Some. eauto.
  - intros j c Hj Hc. destruct (decide (i = j)) as [->|Hne].
    + rewrite lookup_alter_eq in Hj. destruct (l_conns l !! j); [|done]. by injection Hj as <-.
    + rewrite lookup_alter_ne in Hj by done. apply elem_of_difference. split; [eauto|set_solver].
  - intros j c Hj Hr Hc. destruct (decide (i = j)) as [->|Hne].
    + rewrite lookup_alter_eq in Hj. destruct (l_conns l !! j); [|done]. by injection Hj as <-.
    + rewrite lookup_alter_ne in Hj by done. apply elem_of_difference. split; [eauto|set_solver].
  - intros j. rewrite lookup_alter_is_Some. eauto.
Qed.

Lemma register_inv now r l : life_inv l -> l_acceptor l = AConn r -> life_inv (register now r l).
Proof.
  intros Hinv Ha. assert (Hq : l_stop l <> SReturned) by (apply (quiet_acceptor l Hinv); by rewrite Ha).
  destruct Hinv.
  assert (Hfresh : forall j, is_Some (l_conns l !! j) -> l_next l <> j) by (intros j Hj%inv_next0; lia).
  split; cbn; try done.
  - intros j [->%elem_of_singleton|Hj]%elem_of_union; rewrite lookup_insert_is_Some'; eauto.
  - intros j ?. rewrite lookup_insert_is_Some'. eauto.
  - intros j c [[<- _]|[? ?]]%lookup_insert_Some ?; [set_solver|]. apply elem_of_union. eauto.
  - intros j c [[<- _]|[? ?]]%lookup_insert_Some Hj ?; [|by apply (inv_swept0 j c)].
    exfalso. by eapply Hfresh; [apply inv_reading0|].
  - intros j [<-|Hj]%lookup_insert_is_Some'; [lia|]. apply inv_next0 in Hj. lia.
Qed.

Lemma select_inv i c l : life_inv l -> l_conns l !! i = Some c -> life_inv (client_select i c l).
Proof.
  intros Hinv Hc. unfold client_select. destruct (l_done l || closed c) eqn:Ed; [by apply finish_inv|].
  apply orb_false_iff in Ed as [Ed _]. destruct Hinv. split; cbn; try done.
  - intros j [->%elem_of_singleton|Hj]%elem_of_union; eauto.
  - intros j d Hj _ Hd. rewrite inv_done0 in Ed. by destruct (l_stop l).
Qed.

Lemma acceptor_inv a l : life_inv l -> l_acceptor l <> AIdle -> life_inv (set_acceptor a l).
Proof.
  intros Hinv Ha. pose proof (quiet_acceptor l Hinv Ha). pose proof Hinv as []. by apply (inv_same l).
Qed.

Lemma life_step_inv e l l' : life_inv l -> life_step strategy e l = Some l' -> life_inv l'.
Proof.
  intros Hinv. unfold life_step, accept_select, accept_result.
  destruct e as [addr listen| |res|now|i|i now o| | | |i| |].
  - destruct (l_stop l) eqn:Es, (l_listener l) eqn:El; try done. intros [= <-]. pose proof Hinv as []. rewrite Es in *.
    destruct listen; apply (inv_same l); cbn; rewrite ?Es; try done; eauto.
  - destruct (l_acceptor l) eqn:Ea; try done. intros [= <-]. apply acceptor_inv; [done|by rewrite Ea].
  - destruct (l_acceptor l) eqn:Ea; try done.
    destruct res; [|destruct (listening l); try done]; intros [= <-]; (apply acceptor_inv; [done|by rewrite Ea]).
  - destruct (l_acceptor l) eqn:Ea; try done. intros [= <-]. by apply register_inv.
  - destruct (l_conns l !! i) eqn:Ec; [|done]. case_bool_decide; [done|]. intros [= <-]. by apply select_inv.
  - destruct (l_conns l !! i) eqn:Ec; [|done]. case_bool_decide; [|done]. by apply client_read_inv.
  - destruct (l_stop l) eqn:Es; try done. intros [= <-]. pose proof Hinv as []. by apply (inv_same l).
  - destruct (l_stop l) eqn:Es; try done. intros [= <-]. pose proof Hinv as []. rewrite Es in *. apply (inv_same l); try done.
    unfold listening. cbn. by destruct (l_listener l).
  - destruct (l_stop l) eqn:Es; try done. intros [= <-]. pose proof Hinv as []. rewrite Es in *. apply (inv_same l); try done. cbn. eauto.
  - destruct (l_stop l) eqn:Es; try done. case_bool_decide; [|done]. intros [= <-]. by apply visit_inv.
  - destruct (l_stop l) eqn:Es; try done. case_bool_decide; [|done]. intros [= <-]. pose proof Hinv as []. rewrite Es in *.
    apply (inv_same l); try done. cbn. intros i c Hi Hr Hc. specialize (inv_swept0 i c Hi Hr Hc). set_solver.
  - destruct (l_stop l) eqn:Es; try done. destruct (quiet l) eqn:Eq; [|done]. intros [= <-]. pose proof Hinv as []. rewrite Es in *.
    by apply (inv_same l).
Qed.

Lemma life_run_inv es l l' : life_inv l -> life_run strategy es l = Some l' -> life_inv l'.
Proof.
  revert l. induction es as [|e es IH]; intros l Hinv; cbn; [by intros [= <-]|].
  intros (l1 & E & Hrun)%bind_Some. eapply IH; [|exact Hrun]. by eapply life_step_inv.
Qed.

(** ** Stopping *)

Lemma quiet_stuck l e : life_inv l -> l_stop l = SReturned -> life_step strategy e l = None.
Proof.
  intros Hinv Hs. pose proof (inv_quiet _ Hinv Hs) as Hq. unfold quiet in Hq.
  destruct (l_acceptor l) eqn:Ea; try done. apply bool_decide_eq_true in Hq.
  unfold life_step. rewrite Hs, Ea, Hq. destruct e; try done; by rewrite lookup_empty.
Qed.

(** C15: when [Stop] has returned nothing of the server is left: no goroutine that
    accepts or serves, no client that counts as connected, no connection that is
    open, and the listener is closed. No step is possible any more, so the storage
    and the engine are at rest. This holds whatever the clients did meanwhile and
    whenever they connected, also between the cancellation and the sweep. *)
Theorem stopped_server_is_quiet es sv l e : life_run strategy es (new_life sv) = Some l -> l_stop l = SReturned ->
  l_acceptor l = AIdle /\ l_conns l = ∅ /\ l_clients l = ∅ /\ l_reading l = ∅ /\ listening l = false /\
  (Life_Stats l).1 = 0 /\ life_step strategy e l = None.
Proof.
  intros Hrun Hs. pose proof (life_run_inv _ _ _ (new_life_inv sv) Hrun) as Hinv.
  pose proof (quiet_stuck l e Hinv Hs) as Hstuck. destruct Hinv. specialize (inv_quiet0 Hs). unfold quiet in *.
  rewrite Hs in *. destruct (l_acceptor l); try done. apply bool_decide_eq_true in inv_quiet0. rewrite inv_quiet0 in *.
  assert (Hc : l_clients l = ∅).
  { apply set_eq. intros i. split; [|set_solver]. intros Hi%inv_clients0. by destruct Hi. }
  assert (Hr : l_reading l = ∅).
  { apply set_eq. intros i. split; [|set_solver]. intros Hi%inv_reading0. by destruct Hi. }
  split_and!; try done. unfold Life_Stats. cbn. by rewrite Hc.
Qed.

(** ** Stop returns *)

Lemma size_without i (X : gset nat) : i ∈ X -> (size (X ∖ {[i]}) < size X)%nat.
Proof. intros Hi. apply subset_size. set_solver. Qed.

Lemma stop_rank_le l l' : l_stop l' = l_stop l -> l_clients l' ⊆ l_clients l -> (stop_rank l' <= stop_rank l)%nat.
Proof.
  intros Es Hc. unfold stop_rank. rewrite Es. destruct (l_stop l); try (apply subseteq_size in Hc; lia).
  assert (H' : todo ∪ l_clients l' ⊆ todo ∪ l_clients l) by set_solver. apply subseteq_size in H'. lia.
Qed.

Lemma finish_rank i c l : l_conns l !! i = Some c -> (life_rank (finish_client i l) < life_rank l)%nat.
Proof.
  intros Hc. unfold life_rank. cbn. pose proof (stop_rank_le l (finish_client i l) eq_refl ltac:(cbn; set_solver)).
  rewrite map_size_delete, Hc. assert (Hne : size (l_conns l) <> 0%nat) by (apply map_size_ne_0_lookup; eauto).
  assert (size (l_reading l ∖ {[i]}) <= size (l_reading l))%nat by (apply subseteq_size; set_solver).
  change (accept_rank (finish_client i l)) with (accept_rank l). lia.
Qed.

Lemma read_rank now i c o l l' : l_conns l !! i = Some c -> i ∈ l_reading l ->
  client_read strategy now i c o l = Some l' -> (life_rank l' < life_rank l)%nat.
Proof.
  intros Hc Hi. unfold client_read. destruct (handle_value _ _ _ _ _) as [[more| | |] [sv c']]; try done. intros [= <-].
  set (l1 := set_l_server _ _).
  assert (H1 : (life_rank l1 < life_rank l)%nat).
  { unfold life_rank. pose proof (stop_rank_le l l1 eq_refl ltac:(cbn; destruct (closed c'); set_solver)).
    change (accept_rank l1) with (accept_rank l). cbn. rewrite map_size_insert, Hc. pose proof (size_without i _ Hi).
    unfold id. lia. }
  destruct more; [done|]. etrans; [|exact H1]. apply (finish_rank i c'). cbn. apply lookup_insert_eq.
Qed.

Lemma register_rank now r l : life_inv l -> l_acceptor l = AConn r -> (life_rank (register now r l) < life_rank l)%nat.
Proof.
  intros Hinv Ha. assert (Hn : l_conns l !! l_next l = None).
  { destruct (l_conns l !! l_next l) eqn:E; [|done]. pose proof (inv_next l Hinv (l_next l) ltac:(eauto)). lia. }
  assert (Hu : forall X : gset nat, (size ({[l_next l]} ∪ X) <= S (size X))%nat).
  { intros X. rewrite size_union_alt, size_singleton. pose proof (subseteq_size (X ∖ {[l_next l]}) X ltac:(set_solver)). lia. }
  assert (Hs : (stop_rank (register now r l) <= S (stop_rank l))%nat).
  { pose proof (Hu (l_clients l)) as H1. unfold stop_rank. cbn. destruct (l_stop l); try lia.
    pose proof (Hu (todo ∪ l_clients l)) as H2. replace (todo ∪ ({[l_next l]} ∪ l_clients l)) with
      ({[l_next l]} ∪ (todo ∪ l_clients l)) by set_solver. lia. }
  unfold life_rank, accept_rank. change (l_acceptor (register now r l)) with ASelect.
  change (l_conns (register now r l)) with (<[l_next l := (handleNewClient now r (l_server l)).2]> (l_conns l)).
  change (l_reading (register now r l)) with (l_reading l). rewrite Ha, map_size_insert, Hn. lia.
Qed.

Lemma acceptor_rank a l : (accept_rank (set_acceptor a l) < accept_rank l)%nat ->
  (life_rank (set_acceptor a l) < life_rank l)%nat.
Proof. unfold life_rank. change (stop_rank (set_acceptor a l)) with (stop_rank l). cbn. lia. Qed.

Lemma stop_rank_lt l l' : l_acceptor l' = l_acceptor l -> size (l_conns l') = size (l_conns l) ->
  l_reading l' = l_reading l -> (stop_rank l' < stop_rank l)%nat -> (life_rank l' < life_rank l)%nat.
Proof. intros E1 E2 E3 ?. unfold life_rank, accept_rank. rewrite E1, E2, E3. lia. Qed.

(** Once the context is cancelled every step is one of those left. *)
Lemma life_step_rank e l l' : life_inv l -> l_done l = true -> life_step strategy e l = Some l' ->
  l_done l' = true /\ (life_rank l' < life_rank l)%nat.
Proof.
  intros Hinv Hd. pose proof (inv_done l Hinv) as Hstop. rewrite Hd in Hstop.
  unfold life_step, accept_select, accept_result. rewrite Hd.
  destruct e as [addr listen| |res|now|i|i now o| | | |i| |].
  - by destruct (l_stop l).
  - destruct (l_acceptor l) eqn:Ea; try done. intros [= <-]. split; [done|]. apply acceptor_rank.
    unfold accept_rank. rewrite Ea. cbn. lia.
  - destruct (l_acceptor l) eqn:Ea; try done.
    destruct res; [|destruct (listening l); try done]; intros [= <-]; (split; [done|]); apply acceptor_rank;
      unfold accept_rank; rewrite Ea; cbn; lia.
  - destruct (l_acceptor l) eqn:Ea; try done. intros [= <-]. split; [done|by apply (register_rank now r)].
  - destruct (l_conns l !! i) eqn:Ec; [|done]. case_bool_decide; [done|]. intros [= <-]. unfold client_select. rewrite Hd.
    split; [done|by eapply finish_rank].
  - destruct (l_conns l !! i) eqn:Ec; [|done]. case_bool_decide; [|done]. intros E. split; [|by eapply read_rank].
    unfold client_read in E. destruct (handle_value _ _ _ _ _) as [[[]| | |] [sv c']]; try done; by injection E as <-.
  - by destruct (l_stop l).
  - destruct (l_stop l) eqn:Es; try done. intros [= <-]. split; [done|]. apply stop_rank_lt; try done.
    unfold stop_rank. rewrite Es. cbn. lia.
  - destruct (l_stop l) eqn:Es; try done. intros [= <-]. split; [done|]. apply stop_rank_lt; try done.
    unfold stop_rank. rewrite Es. cbn. rewrite union_idemp_L. lia.
  - destruct (l_stop l) eqn:Es; try done. case_bool_decide as Hi; [|done]. intros [= <-]. split; [done|].
    apply stop_rank_lt; try done; [cbn; by rewrite <- !size_dom, dom_alter_L|]. unfold stop_rank. rewrite Es. cbn.
    rewrite <- difference_union_distr_l_L. pose proof (size_without i _ Hi). lia.
  - destruct (l_stop l) eqn:Es; try done. case_bool_decide; [|done]. intros [= <-]. split; [done|].
    apply stop_rank_lt; try done. unfold stop_rank. rewrite Es. cbn. lia.
  - destruct (l_stop l) eqn:Es; try done. destruct (quiet l); [|done]. intros [= <-]. split; [done|].
    apply stop_rank_lt; try done. unfold stop_rank. rewrite Es. cbn. lia.
Qed.

Lemma life_run_rank es l l' : life_inv l -> l_done l = true -> life_run strategy es l = Some l' ->
  (length es + life_rank l' <= life_rank l)%nat.
Proof.
  revert l. induction es as [|e es IH]; intros l Hinv Hd; cbn; [by intros [= <-]|].
  intros (l1 & E & Hrun)%bind_Some. destruct (life_step_rank e l l1 Hinv Hd E) as [Hd1 Hlt].
  specialize (IH l1 (life_step_inv _ _ _ Hinv E) Hd1 Hrun). lia.
Qed.

(** Until [Stop] is back somebody can go on without the network. *)
Lemma life_progress l : life_inv l -> l_done l = true -> l_stop l <> SReturned ->
  exists e, prompt l e = true /\ is_Some (life_step strategy e l).
Proof.
  intros Hinv Hd Hs. pose proof (inv_done l Hinv) as Hstop. rewrite Hd in Hstop.
  destruct (l_stop l) as [| | |todo| |] eqn:Es; try done.
  - exists EClose. unfold life_step. rewrite Es. eauto.
  - exists ERange. unfold life_step. rewrite Es. eauto.
  - destruct (set_choose_or_empty todo) as [[i Hi]|He%leibniz_equiv].
    + exists (EVisit i). unfold life_step. rewrite Es, bool_decide_true by set_solver. eauto.
    + exists ERanged. unfold life_step. rewrite Es, bool_decide_true by done. eauto.
  - pose proof (inv_unlistened l Hinv) as Hl. rewrite Es in Hl. unfold life_step.
    destruct (l_acceptor l) as [| | |r] eqn:Ea.
    + destruct (decide (l_conns l = ∅)) as [He|(i & c & Hc)%map_choose].
      * exists EWaited. unfold quiet. rewrite ?Es, ?Ea, bool_decide_true by done. eauto.
      * destruct (decide (i ∈ l_reading l)) as [Hi|Hi].
        -- pose proof (inv_swept l Hinv i c Hc Hi) as Hcl. rewrite Es in Hcl.
           exists (ERead i 0 (Err EOF)). cbn. rewrite Hc, bool_decide_true by done. unfold client_read. cbn.
           split; [by destruct (closed c)|]. eauto.
        -- exists (ECheck i). cbn. rewrite Hc, bool_decide_false by done. eauto.
    + exists ESelect. rewrite ?Ea. eauto.
    + exists (EAccept (inl EOF)). cbn. rewrite ?Hl, ?Ea. eauto.
    + exists (ERegister 0). rewrite ?Ea. eauto.
Qed.

(** C16: [Stop] returns. Once it has cancelled the context, at most [life_rank] more
    steps, of the goroutines, the clients or [Stop], are possible; and from wherever
    they have got to there is a run that waits neither for a client nor for the
    network and at whose end [Stop] is back. A command that has been read is one step,
    which ends. *)
Theorem stop_returns es sv l : life_run strategy es (new_life sv) = Some l -> l_done l = true ->
  (forall es' l', life_run strategy es' l = Some l' -> (length es' <= life_rank l)%nat) /\
  (exists es' l', prompt_run strategy es' l = Some l' /\ l_stop l' = SReturned).
Proof.
  intros Hrun Hd. pose proof (life_run_inv _ _ _ (new_life_inv sv) Hrun) as Hinv. clear Hrun. split.
  - intros es' l' E. pose proof (life_run_rank es' l l' Hinv Hd E). lia.
  - remember (life_rank l) as n eqn:En. revert l Hinv Hd En.
    induction n as [n IH] using lt_wf_ind. intros l Hinv Hd ->.
    assert (Hdec : l_stop l = SReturned \/ l_stop l <> SReturned) by (destruct (l_stop l); auto; by right).
    destruct Hdec as [Hs|Hs]; [by exists [], l|].
    destruct (life_progress l Hinv Hd Hs) as (e & Hp & l1 & E). destruct (life_step_rank e l l1 Hinv Hd E) as [Hd1 Hlt].
    destruct (IH _ Hlt l1 (life_step_inv _ _ _ Hinv E) Hd1 eq_refl) as (es' & l' & E' & Hs').
    exists (e :: es'), l'. cbn. by rewrite Hp, E.
Qed.

(** ** Many clients *)

(** A value that asks for no more than can be allocated, and for no script. *)
Definition harmless (v : Value) : Prop :=
  match ParseCommand v with Ok cmd => fair cmd /\ ~ scripted_call cmd | _ => True end.

(** Events up to time [T] of a server that is not stopped and gets harmless values. *)
Definition peaceful (T : Z) (e : Event) : Prop :=
  match e with
  | ERead _ now (Ok v) => now <= T /\ harmless v
  | ERead _ now (Err _) => True
  | ERead _ _ _ | EStop => False
  | _ => True
  end.

Record serving (T : Z) (s0 : MemoryStorage) (l : Life) : Prop := {
  serving_wf : wf (sv_storage (l_server l));
  serving_spares : spares T s0 (sv_storage (l_server l));
  serving_conns : forall i c, l_conns l !! i = Some c -> exists sent, healthy c sent;
  serving_stop : l_stop l = SRunning
}.

(** A read of a healthy client is handled. *)
Lemma handle_value_serves T i now o cancelled sv c sent : peaceful T (ERead i now o) ->
  wf (sv_storage sv) -> healthy c sent ->
  exists more sv' c' sent', handle_value strategy now cancelled o (sv, c) = (Ok more, (sv', c')) /\
    wf (sv_storage sv') /\ spares T (sv_storage sv) (sv_storage sv') /\ healthy c' sent'.
Proof.
  intros Hp Hs Hh. destruct o as [v|err|p|]; cbn [peaceful] in Hp; try done.
  - destruct Hp as [Ht Hv].
    destruct (value_served strategy now (spares T) ltac:(intros; by eapply spares_trans)
      ltac:(intros; by eapply spares_mono) (fun _ => True) cancelled v sv c sent)
      as (sv' & c' & reply & E & [? _] & ? & _ & _ & ? & _).
    + unfold modest, scripts_ok, harmless in *. destruct (ParseCommand v); naive_solver.
    + by split.
    + done.
    + eauto 10.
  - cbn [handle_value]. destruct (bool_decide (err = EOF) || cancelled).
    + exists false, sv, c, sent. by split_and!.
    + rewrite (gbind_ok _ _ _ _ _ (writeError_eq (bs "Protocol error: " ++ Error err) sv c sent Hh)).
      eexists _, _, _, _. split_and!; [done|done|by apply spares_same|done].
Qed.

Lemma life_step_serves T s0 e l l' : peaceful T e -> serving T s0 l -> life_step strategy e l = Some l' -> serving T s0 l'.
Proof.
  intros Hp Hl. pose proof Hl as [Hwf Hsp Hc Hs]. unfold life_step, accept_select, accept_result. rewrite Hs.
  destruct e as [addr listen| |res|now|i|i now o| | | |i| |]; try done.
  - destruct (l_listener l); [done|]. intros [= <-]. by destruct listen.
  - destruct (l_acceptor l); try done. by intros [= <-].
  - destruct (l_acceptor l), res; try destruct (listening l); try done; by intros [= <-].
  - destruct (l_acceptor l); try done. intros [= <-]. split; cbn; try done.
    intros j c [[_ <-]|[_ Hj]]%lookup_insert_Some; [by exists []|by eapply Hc].
  - destruct (l_conns l !! i) as [c|] eqn:Ec; [|done]. case_bool_decide; [done|]. intros [= <-].
    unfold client_select. case_match; [|done]. split; cbn; try done. intros j d [_ Hj]%lookup_delete_Some. by eapply Hc.
  - destruct (l_conns l !! i) as [c|] eqn:Ec; [|done]. case_bool_decide; [|done]. unfold client_read.
    destruct (Hc i c Ec) as [sent Hh].
    destruct (handle_value_serves T i now o (l_done l || closed c) (l_server l) c sent Hp Hwf Hh)
      as (more & sv' & c' & sent' & E & Hwf' & Hsp' & Hh').
    rewrite E. intros [= <-].
    destruct more; split; cbn; try done; try by eapply spares_trans.
    + intros j d [[_ <-]|[_ Hj]]%lookup_insert_Some; [by exists sent'|by eapply Hc].
    + intros j d [_ [[_ <-]|[_ Hj]]%lookup_insert_Some]%lookup_delete_Some; [by exists sent'|by eapply Hc].
Qed.

Lemma life_run_serves T s0 es l l' : Forall (peaceful T) es -> serving T s0 l ->
  life_run strategy es l = Some l' -> serving T s0 l'.
Proof.
  intros Hes. revert l. induction Hes as [|e es He _ IH]; intros l Hl; cbn; [by intros [= <-]|].
  intros (l1 & E & Hrun)%bind_Some. by eapply IH; [eapply life_step_serves|].
Qed.

(** C8: a server with many clients. However the connections and the commands of
    the clients interleave, as long as they ask for no script and for no more than
    can be allocated: the storage is well-formed, every key of every database reads,
    from the time of the last command on, as it did when the server started, and
    whatever the next such value or error a client reads, it is handled: no client
    can make the process panic for another. *)
Theorem clients_only_read T es sv l : wf (sv_storage sv) -> Forall (peaceful T) es ->
  life_run strategy es (new_life sv) = Some l ->
  wf (sv_storage (l_server l)) /\
  (forall t db k, T <= t -> live t (default ∅ (absDB (sv_storage (l_server l)) !! db)) k =
     live t (default ∅ (absDB (sv_storage sv) !! db)) k) /\
  (forall i now o, i ∈ l_reading l -> peaceful T (ERead i now o) -> is_Some (life_step strategy (ERead i now o) l)).
Proof.
  intros Hwf Hes Hrun. pose proof (life_run_inv _ _ _ (new_life_inv sv) Hrun) as Hinv.
  assert (Hl : serving T (sv_storage sv) l) by (by eapply life_run_serves; [done| |done]; split).
  destruct Hl as [Hwf' [_ Hsp] Hc _]. split; [done|]. split; [done|].
  intros i now o Hi Hp. destruct (inv_reading l Hinv i Hi) as [c Ec]. destruct (Hc i c Ec) as [sent Hh].
  destruct (handle_value_serves T i now o (l_done l || closed c) (l_server l) c sent Hp Hwf' Hh)
    as (more & sv' & c' & sent' & E & _).
  unfold life_step, client_read. rewrite Ec, bool_decide_true, E by done. eauto.
Qed.

End ServerLifeSpec.

(** ** Witnesses *)

#[local] Existing Instance sample_hash.
#[local] Existing Instance sample_runtime.
#[local] Existing Instance sample_vm.
#[local] Existing Instance sample_net.
#[local] Existing Instance sample_format.

(** A client connects, sends GET, and while it waits for the answer to be followed
    another one is accepted. *)
Definition sample_serving : list Event := [
  EStart (bs ":6380") (inr (bs "[::]:6380")); ESelect; EAccept (inr (mkReader [] EOF)); ERegister 5; ECheck 0;
  ESelect; ERead 0 6 (Ok (ArrayValue (BulkStringValue <$> [bs "get"; bs "job:7"]))); EAccept (inr (mkReader [] EOF));
  ECheck 0].

(** The server is stopped. The connection accepted before is registered after the
    range over the clients; it is left at the first look at the context. *)
Definition sample_stopping : list Event := [
  EStop; EClose; ERange; EVisit 0; ERanged; ERegister 8; ERead 0 8 (Err (Errorf (bs "closed"))); ECheck 1; ESelect; EWaited].

Definition sample_life (es : list Event) : Life := default (new_life sample_server) (life_run 1 es (new_life sample_server)).

Lemma sample_life_run es : is_Some (life_run 1 es (new_life sample_server)) ->
  life_run 1 es (new_life sample_server) = Some (sample_life es).
Proof. unfold sample_life. by intros [l ->]. Defined.

Lemma sample_serving_peaceful : Forall (peaceful 7) sample_serving.
Proof.
  repeat first [apply Forall_cons_2 | apply Forall_nil_2]; try done. split; [done|].
  unfold harmless, fair, scripted_call, called. vm_compute. repeat split; intros; try done;
    by repeat match goal with H : _ \/ _ |- _ => destruct H end.
Defined.

Lemma stopped_server_is_quiet_witness :
  let l := sample_life (sample_serving ++ sample_stopping) in
  l_acceptor l = AIdle /\ l_conns l = ∅ /\ l_clients l = ∅ /\ l_reading l = ∅ /\ listening l = false /\
  (Life_Stats l).1 = 0 /\ life_step 1 (ERegister 9) l = None.
Proof.
  apply (stopped_server_is_quiet 1 (sample_serving ++ sample_stopping) sample_server); [|by vm_compute].
  apply sample_life_run. vm_compute. by eexists.
Defined.

Lemma stop_returns_witness :
  let l := sample_life (sample_serving ++ [EStop]) in
  (forall es' l', life_run 1 es' l = Some l' -> (length es' <= life_rank l)%nat) /\
  (exists es' l', prompt_run 1 es' l = Some l' /\ l_stop l' = SReturned).
Proof.
  apply (stop_returns 1 (sample_serving ++ [EStop]) sample_server); [|by vm_compute].
  apply sample_life_run. vm_compute. by eexists.
Defined.

Lemma clients_only_read_witness :
  let l := sample_life sample_serving in
  wf (sv_storage (l_server l)) /\
  (forall t db k, 7 <= t -> live t (default ∅ (absDB (sv_storage (l_server l)) !! db)) k =
     live t (default ∅ (absDB sample_storage !! db)) k) /\
  (forall i now o, i ∈ l_reading l -> peaceful 7 (ERead i now o) -> is_Some (life_step 1 (ERead i now o) l)).
Proof.
  apply (clients_only_read 1 7 sample_serving sample_server); [apply sample_storage_wf|apply sample_serving_peaceful|].
  apply sample_life_run. vm_compute. by eexists.
Defined.
