(* ===== verification/Replica.v ===== *)
(** * The replica (replica.go)

    A replica builds the storage, the manager and, if it has an address, the server
    from its configuration, and starts and stops them. The storage is one object
    that the three share: [r_storage] is its contents, and the manager and the
    server of a replica are the records with these contents put in. *)

From Stdlib Require Import ZArith Lia String.
From stdpp Require Import base list list_numbers gmap.
From S2P Require Import Prelude GoLib RespTypes RespWriter RespReader StorageTypes Memory.
From S2P Require Import StorageIface Client ClientRun Sync Lua Server Options.

Section Replica.
  Context `{Hash : XXHash} `{Runtime : GoRuntime} {VM : LuaVM} {U : GoUnicode}.
  Context {Env : ClientEnv} {Net : Network} {MNet : MasterNet} {Fmt : GoFormat}.

(** [type Replica struct]. [manager_starts] counts the goroutines that start the
    manager, [listening] tells whether the server has its socket, and [r_fired] is
    the log of the callbacks called. *)
Record Replica : Type := mkReplica {
  r_config : config;
  r_storage : MemoryStorage;
  r_syncMgr : SyncManager MemoryStorage;
  r_server : option Server;
  r_started : bool;
  r_closed : bool;
  manager_starts : nat;
  listening : bool;
  r_syncCallbacks : list nat;
  r_fired : list nat
}.

Definition set_parts (s : MemoryStorage) (m : SyncManager MemoryStorage) (sv : option Server) (r : Replica) : Replica :=
  mkReplica (r_config r) s m sv (r_started r) (r_closed r) (manager_starts r) (listening r) (r_syncCallbacks r) (r_fired r).
Definition set_life (started closed : bool) (starts : nat) (listen : bool) (r : Replica) : Replica :=
  mkReplica (r_config r) (r_storage r) (r_syncMgr r) (r_server r) started closed starts listen (r_syncCallbacks r) (r_fired r).
Definition set_r_callbacks (l fired : list nat) (r : Replica) : Replica :=
  mkReplica (r_config r) (r_storage r) (r_syncMgr r) (r_server r) (r_started r) (r_closed r) (manager_starts r)
    (listening r) l fired.

(** ** The parts over the shared storage *)

Definition manager (r : Replica) : SyncManager MemoryStorage :=
  set_client (set_storage (r_storage r) (sm_client (r_syncMgr r))) (r_syncMgr r).
Definition with_manager (m : SyncManager MemoryStorage) (r : Replica) : Replica :=
  set_parts (c_storage (sm_client m)) m (r_server r) r.

(** The server sees the manager through its status. *)
Definition the_server (r : Replica) (sv : Server) : Server :=
  set_syncMgr (Some (SM_SyncStatus (manager r))) (set_stores (sv_lua sv, r_storage r) sv).

(** A step of the client's goroutine, of the manager, of a connection of the server. *)
Definition on_replication {A} (m : M (Client MemoryStorage) A) : M Replica A := fun r =>
  let '(o, c) := m (sm_client (manager r)) in (o, with_manager (set_client c (r_syncMgr r)) r).

(** The handle of the closure [New] registers with the manager. *)
Definition replica_callback : nat := 1.

(** A synchronisation: the manager calls its callbacks, that closure its own. *)
Definition sync_step (now : Z) : M Replica unit := fun r =>
  let m := manager r in
  let '(o, m') := manager_sync now m in
  let called := drop (length (sm_fired m)) (sm_fired m') in
  let r' := with_manager m' r in
  (o, set_r_callbacks (r_syncCallbacks r')
        (r_fired r' ++ concat ((fun fn => if (fn =? replica_callback)%nat then r_syncCallbacks r' else []) <$> called)) r').

Definition on_connection {A} (m : M Session A) (c : Conn) : M Replica (option (A * Conn)) := fun r =>
  match r_server r with
  | None => (Ok None, r)
  | Some sv =>
      let '(o, (sv', c')) := m (the_server r sv, c) in
      let r' := set_parts (sv_storage sv') (r_syncMgr r) (Some sv') r in
      match o with
      | Ok a => (Ok (Some (a, c')), r')
      | Err e => (Err e, r')
      | Panic p => (Panic p, r')
      | OutOfFuel => (OutOfFuel, r')
      end
  end.

(** ** Construction *)

(** The manager drops the TLS configuration. *)
Definition SM_SetTLS (tls : option TLSConfig) : M (SyncManager MemoryStorage) unit := gret tt.

Definition configure_manager (cfg : config) : M (SyncManager MemoryStorage) unit :=
  (if bool_decide (cf_masterPassword cfg = []) then gret tt else SM_SetAuth (cf_masterPassword cfg)) ;;!
  (match masterTLS cfg with None => gret tt | Some tls => SM_SetTLS (Some tls) end) ;;!
  SM_SetSyncTimeout (cf_syncTimeout cfg) ;;!
  SM_SetConnectTimeout (cf_connectTimeout cfg) ;;!
  SM_SetReadTimeout (cf_readTimeout cfg) ;;!
  SM_SetWriteTimeout (cf_writeTimeout cfg) ;;!
  SM_SetHeartbeatInterval (cf_heartbeatInterval cfg) ;;!
  SM_SetCommandFilters (cf_commandFilters cfg) ;;!
  SM_SetDatabases (cf_databases cfg).

Definition prepare_storage (cfg : config) : Mem unit :=
  (if 0 <? maxMemory cfg then SetMemoryLimit (maxMemory cfg) else gret tt) ;;!
  (if defaultDatabase cfg =? 0 then gret tt
   else gwrap (bs "failed to select default database " ++ FormatInt (defaultDatabase cfg) ++ bs ": ")
          (SelectDB (defaultDatabase cfg))).

(** [SetSyncManager] gives the server the manager itself; see [the_server]. *)
Definition new_server (cfg : config) (stor : MemoryStorage) : option Server :=
  if bool_decide (replicaAddr cfg = []) then None
  else
    let sv := NewServer stor in
    let sv := if bool_decide (replicaPassword cfg = []) then sv else SetPassword (replicaPassword cfg) sv in
    Some (if cf_redirectWrites cfg then SetWriteRedirection true (cf_masterAddr cfg) (cf_masterPassword cfg) sv else sv).

(** [New] once the options are applied. *)
Definition build (cfg : config) : outcome Replica :=
  match NewMemory (if 0 <? shardCount cfg then [Memory.WithShardCount (shardCount cfg)] else []) with
  | Ok stor =>
      let '(o, stor) := prepare_storage cfg stor in
      match o with
      | Ok _ =>
          let syncMgr := (configure_manager cfg (NewSyncManager (cf_masterAddr cfg) stor)).2 in
          Ok (mkReplica cfg stor (Sync.OnSyncComplete replica_callback syncMgr) (new_server cfg stor) false false 0 false [] [])
      | Err e => Err e
      | Panic p => Panic p
      | OutOfFuel => OutOfFuel
      end
  | Err e => Err e
  | Panic p => Panic p
  | OutOfFuel => OutOfFuel
  end.

Definition New (opts : list Option) : outcome Replica :=
  match apply_options opts defaultConfig with
  | Ok cfg => build cfg
  | Err e => Err e
  | Panic p => Panic p
  | OutOfFuel => OutOfFuel
  end.

(** ** Life cycle *)

(** [server.Start]: [listen] is the error of [net.Listen]. *)
Definition Server_Start (addr : bytes) (listen : option error) : outcome unit :=
  match listen with
  | Some err => Err (Errorf (bs "failed to listen on " ++ addr ++ bs ": " ++ Error err))
  | None => Ok tt
  end.

(** [go func() { r.syncMgr.Start(context.Background()) }()] is counted. *)
Definition Start (listen : option error) : M Replica unit := fun r =>
  if r_closed r then (Err ErrClosed, r)
  else if r_started r then (Ok tt, r)
  else
    let r := set_life true (r_closed r) (S (manager_starts r)) (listening r) r in
    match r_server r with
    | None => (Ok tt, r)
    | Some _ =>
        match Server_Start (replicaAddr (r_config r)) listen with
        | Ok _ => (Ok tt, set_life (r_started r) (r_closed r) (manager_starts r) true r)
        | o => (o, r)
        end
    end.

(** The manager's goroutine, with what its attempts see. *)
Definition manager_start (attempts : list Attempt) (sc : syncCoordinator) (r : Replica)
    : option (outcome unit) * syncCoordinator * Replica :=
  let '(o, sc', m) := SM_Start attempts sc (manager r) in (o, sc', with_manager m r).

Definition isStarted (r : Replica) : bool := r_started r && negb (r_closed r).

(** [WaitForSync] up to the call of the manager's. *)
Definition WaitForSync : M Replica unit := fun r =>
  if isStarted r then (Ok tt, r) else (Err ErrNotConnected, r).

(** [Close]; [in_time]: the client's goroutine ends before the timeout of its stop. *)
Definition Close (in_time : bool) : M Replica unit := fun r =>
  if r_closed r then (Ok tt, r)
  else
    let r := set_life (r_started r) true (manager_starts r) (match r_server r with Some _ => false | None => listening r end) r in
    let '(o, m) := if r_started r then SM_Stop in_time (manager r) else (Ok tt, manager r) in
    let r := with_manager m r in
    match o with
    | Ok _ =>
        let '(o, s) := Memory.Close (r_storage r) in (o, set_parts s (r_syncMgr r) (r_server r) r)
    | o => (o, r)
    end.

(** ** Callbacks and status *)

Definition OnSyncComplete (fn : nat) (r : Replica) : Replica := set_r_callbacks (r_syncCallbacks r ++ [fn]) (r_fired r) r.

Definition SyncStatus_ (r : Replica) : SyncStatus :=
  let status := SM_SyncStatus (manager r) in
  mkSyncStatus (ss_InitialSyncCompleted status) (ss_InitialSyncProgress status) (ss_Connected status) (MasterHost status)
    (ss_ReplicationOffset status) (ss_LastSyncTime status) (ss_BytesReceived status) (ss_CommandsProcessed status).

Definition IsConnected (r : Replica) : bool := Sync.IsConnected (manager r).

(** [GetInfo]: the storage's, and the replication's. The version is a constant. *)
Definition GetInfo (go_memory : Z) : M Replica (StorageInfo * SyncStatus) := fun r =>
  let '(o, s) := Info go_memory (r_storage r) in
  let r' := set_parts s (r_syncMgr r) (r_server r) r in
  match o with
  | Ok info => (Ok (info, SyncStatus_ r'), r')
  | Err e => (Err e, r')
  | Panic p => (Panic p, r')
  | OutOfFuel => (OutOfFuel, r')
  end.

(** A call of the library's user on a replica. *)
Inductive Call : Type :=
| CStart (listen : option error)
| CClose (in_time : bool)
| CWait
| COnSyncComplete (fn : nat).

Definition call (x : Call) : M Replica unit := fun r =>
  match x with
  | CStart listen => Start listen r
  | CClose in_time => Close in_time r
  | CWait => WaitForSync r
  | COnSyncComplete fn => (Ok tt, OnSyncComplete fn r)
  end.

(** The outcomes of a sequence of calls; an error does not end it. *)
Fixpoint calls (l : list Call) (r : Replica) : list (outcome unit) * Replica :=
  match l with
  | [] => ([], r)
  | x :: l' => let '(o, r1) := call x r in let '(os, r2) := calls l' r1 in (o :: os, r2)
  end.

End Replica.
