(* ===== verification/ReplicaSpec.v ===== *)
(** * What a replica guarantees

    The claims on the replica as a whole: what [New] makes of the options, which
    settings it ignores, its life cycle, and that a synchronised replica serves the
    data of its master, whatever its clients do in between. *)

From Stdlib Require Import ZArith Lia String.
From stdpp Require Import base list list_numbers gmap fin_maps.
From S2P Require Import Prelude GoLib RespTypes RespWriter RespReader RespProofs RespSpec StorageTypes Matching Memory.
From S2P Require Import MemoryInv StoreSpec MemoryOps MemoryEvict MemoryScan MemorySpec StorageSpec Rdb RdbFormat RdbSpec.
From S2P Require Import StorageIface RdbLoad RdbLoadSpec Client ClientProofs ClientSpec ClientRun ClientRunSpec Sync.
From S2P Require Import SyncSpec Sha1 Lua LuaSpec Options Server ServerProofs ServerSpec Replica.

Section ReplicaSpec.
  Context `{Hash : XXHash} `{Runtime : GoRuntime} {VM : LuaVM} {U : GoUnicode}.
  Context {Env : ClientEnv} {Net : Network} {MNet : MasterNet} {Fmt : GoFormat}.

(** ** Construction *)

Lemma prepare_storage_ok cfg s : valid_options cfg -> wf s -> abstract s = mkAStore {[0 := ∅]} 0 0 ->
  exists s', prepare_storage cfg s = (Ok tt, s') /\ wf s' /\ cleanupStop s' = cleanupStop s /\
    acur (abstract s') = defaultDatabase cfg /\ alimit (abstract s') = maxMemory cfg /\
    (forall db m, adbs (abstract s') !! db = Some m -> m = ∅).
Proof.
  intros Hcfg Hs Ha. set (s1 := if 0 <? maxMemory cfg then set_memoryLimit (maxMemory cfg) s else s).
  assert (E1 : (if 0 <? maxMemory cfg then SetMemoryLimit (maxMemory cfg) else gret tt) s = (Ok tt, s1))
    by (subst s1; by destruct (0 <? maxMemory cfg)).
  assert (Hs1 : wf s1) by (subst s1; destruct (0 <? maxMemory cfg); [by destruct Hs|done]).
  assert (Ha1 : abstract s1 = mkAStore {[0 := ∅]} 0 (maxMemory cfg)).
  { subst s1. pose proof (vo_memory cfg Hcfg). destruct (Z.ltb_spec 0 (maxMemory cfg)).
    - unfold abstract in Ha |- *. injection Ha as Hd Hc Hl. cbn [currentDB memoryLimit set_memoryLimit].
      change (absDB (set_memoryLimit (maxMemory cfg) s)) with (absDB s). by rewrite Hd, Hc.
    - by replace (maxMemory cfg) with 0 by lia. }
  assert (Hst : cleanupStop s1 = cleanupStop s) by (subst s1; by destruct (0 <? maxMemory cfg)).
  unfold prepare_storage. rewrite (gbind_ok _ _ _ _ _ E1). destruct (Z.eqb_spec (defaultDatabase cfg) 0) as [Hz|Hz].
  - exists s1. split; [done|]. split; [done|]. split; [done|]. rewrite Ha1, Hz. split_and!; try done.
    cbn [adbs]. intros db m Hm. apply lookup_singleton_Some in Hm as [_ <-]. done.
  - destruct (SelectDB_ok s1 (defaultDatabase cfg) Hs1 (vo_default cfg Hcfg)) as (s2 & E2 & Hs2 & Hcur & Hconf & _ & Habs).
    exists s2. split; [unfold gwrap; by erewrite gtry_ok|]. split; [done|].
    assert (Hf : memoryLimit s2 = memoryLimit s1 /\ cleanupStop s2 = cleanupStop s1).
    { pose proof (f_equal memoryLimit Hconf) as H1. pose proof (f_equal cleanupStop Hconf) as H2. by destruct s1, s2. }
    destruct Hf as [Hlim Hstop]. split; [congruence|]. split; [exact Hcur|]. cbn [alimit abstract adbs].
    rewrite Hlim. split; [by injection Ha1|]. rewrite Habs. injection Ha1 as Hd _ _. rewrite Hd.
    intros db m. rewrite lookup_partial_alter. case_decide as Hdb; [|by intros [_ <-]%lookup_singleton_Some].
    intros [= <-]. destruct ({[0 := ∅]} !! _) as [m|] eqn:Em; [|done]. by apply lookup_singleton_Some in Em as [_ <-].
Qed.

(** The client of a new replica has the settings of the configuration. *)
Definition configured (cfg : config) (c : Client MemoryStorage) : Prop :=
  Client.masterAddr c = cf_masterAddr cfg /\ Client.masterPassword c = cf_masterPassword cfg /\
  syncTimeout c = cf_syncTimeout cfg /\ connectTimeout c = cf_connectTimeout cfg /\
  readTimeout c = cf_readTimeout cfg /\ writeTimeout c = cf_writeTimeout cfg /\
  commandFilters c = list_to_set (ToUpper <$> cf_commandFilters cfg) /\
  Client.databases c = list_to_set (cf_databases cfg) /\
  heartbeatInterval c = (if 0 <? cf_heartbeatInterval cfg then cf_heartbeatInterval cfg
                         else if cf_heartbeatInterval cfg =? 0 then 10 * Second else -1) /\
  connected c = false /\ stopped c = false.

Lemma build_ok cfg : valid_options cfg -> shardCount cfg <= 2 ^ 43 -> exists r, build cfg = Ok r /\
  r_config r = cfg /\ wf (r_storage r) /\ cleanupStop (r_storage r) = false /\
  acur (abstract (r_storage r)) = defaultDatabase cfg /\ alimit (abstract (r_storage r)) = maxMemory cfg /\
  (forall db m, adbs (abstract (r_storage r)) !! db = Some m -> m = ∅) /\
  configured cfg (sm_client (manager r)) /\ r_server r = new_server cfg (r_storage r) /\
  r_started r = false /\ r_closed r = false /\ manager_starts r = 0%nat /\ listening r = false.
Proof.
  intros Hcfg Hsh. unfold build. set (opts := if 0 <? shardCount cfg then _ else _).
  assert (Hmem : exists s, NewMemory opts = Ok s /\ wf s /\ abstract s = mkAStore {[0 := ∅]} 0 0 /\ cleanupStop s = false).
  { assert (Hstop : forall s, NewMemory opts = Ok s -> cleanupStop s = false).
    { intros s. unfold NewMemory. destruct (newShardedDatabase _); try done. intros [= <-]. subst opts.
      destruct (0 <? shardCount cfg); [|done]. cbn. unfold Memory.WithShardCount. by destruct (0 <? shardCount cfg). }
    subst opts. destruct (Z.ltb_spec 0 (shardCount cfg)) as [H0|H0].
    - destruct (NewMemory_sharded (shardCount cfg)) as (s & E & Hs & Ha & _); [lia|]. exists s. auto.
    - destruct NewMemory_default as (s & E & Hs & Ha & _). exists s. auto. }
  destruct Hmem as (s & -> & Hs & Ha & Hstop).
  destruct (prepare_storage_ok cfg s Hcfg Hs Ha) as (s' & -> & Hs' & Hstop' & Hcur & Hlim & Hdb).
  eexists. split; [reflexivity|]. cbn [r_config r_storage r_server r_started r_closed manager_starts listening].
  split_and!; try done; [by rewrite Hstop'|].
  unfold configured, manager, configure_manager. cbn [r_syncMgr r_storage].
  destruct (bool_decide (cf_masterPassword cfg = [])) eqn:Ep; destruct (masterTLS cfg);
    cbn; split_and!; try done; by apply bool_decide_eq_true in Ep.
Qed.

(** C23: with options of the library, [New] returns the first error of an option or a
    replica as configured: valid settings, a storage with nothing in it, the
    default database selected and the memory limit set, and a client with the
    timeouts and filters given. The one exception is a shard count too large to
    be allocated. *)
Theorem new_replica opts : Forall provided opts ->
  match apply_options opts defaultConfig with
  | Ok cfg => valid_options cfg /\ (shardCount cfg <= 2 ^ 43 -> exists r, New opts = Ok r /\ r_config r = cfg /\
      wf (r_storage r) /\ acur (abstract (r_storage r)) = defaultDatabase cfg /\
      alimit (abstract (r_storage r)) = maxMemory cfg /\
      (forall db m, adbs (abstract (r_storage r)) !! db = Some m -> m = ∅) /\
      configured cfg (sm_client (manager r)) /\ (is_Some (r_server r) <-> replicaAddr cfg <> []))
  | Err e => New opts = Err e
  | _ => False
  end.
Proof.
  intros Hopts. pose proof (apply_options_valid opts Hopts defaultConfig default_valid) as Hv. unfold New.
  destruct (apply_options opts defaultConfig) as [cfg|e|p|]; try done. split; [done|]. intros Hsh.
  destruct (build_ok cfg Hv Hsh) as (r & E & Hc & Hs & _ & Hcur & Hlim & Hdb & Hconf & Hsv & _).
  exists r. split_and!; try done; rewrite Hsv; unfold new_server; case_bool_decide; naive_solver.
Qed.

(** TLS and the read-only setting change nothing but the configuration itself:
    a replica built with them has the same storage, manager and server as one
    without, so the connection to the master is never encrypted, whatever TLS
    configuration was given. *)
Theorem tls_and_read_only_are_ignored cfg tls b :
  build (cfg_masterTLS tls (cfg_readOnly b cfg)) =
  match build cfg with
  | Ok r => Ok (mkReplica (cfg_masterTLS tls (cfg_readOnly b cfg)) (r_storage r) (r_syncMgr r) (r_server r) (r_started r)
      (r_closed r) (manager_starts r) (listening r) (r_syncCallbacks r) (r_fired r))
  | o => o
  end.
Proof.
  unfold build. cbn [shardCount cfg_masterTLS cfg_readOnly].
  destruct (NewMemory _) as [s| | |]; try done.
  change (prepare_storage (cfg_masterTLS tls (cfg_readOnly b cfg)) s) with (prepare_storage cfg s).
  destruct (prepare_storage cfg s) as [[[]| | |] s']; try done. cbn [r_config r_storage r_syncMgr r_server r_started
    r_closed manager_starts listening r_syncCallbacks r_fired]. f_equal. f_equal.
  unfold configure_manager. cbn [masterTLS cfg_masterTLS cfg_readOnly]. by destruct tls, (masterTLS cfg).
Qed.

(** ** Life cycle *)

Lemma Stop_ok in_time (c : Client MemoryStorage) : exists o c', ClientRun.Stop in_time c = (o, c') /\ returns o /\
  c_storage c' = c_storage c /\ stopped c' = true /\ (stopped c = false -> in_time = false -> exists e, o = Err e).
Proof.
  unfold ClientRun.Stop, gget, gbind at 1. destruct (stopped c) eqn:Es; [by exists (Ok tt), c|].
  unfold gbind, gmodify. cbn. destruct in_time; do 2 eexists; (split; [reflexivity|]); split_and!; try done.
  intros _ _. by eexists.
Qed.

Record life_ok (r : Replica) : Prop := {
  lo_stop : r_closed r = false -> cleanupStop (r_storage r) = false;
  lo_starts : manager_starts r = if r_started r then 1%nat else 0%nat;
  lo_listen : listening r = true -> isStarted r = true /\ is_Some (r_server r)
}.

(** [Close] of an open replica. *)
Lemma Close_open t r : life_ok r -> r_closed r = false -> exists o r', Close t r = (o, r') /\ returns o /\ life_ok r' /\
  r_closed r' = true /\
  (r_started r = true -> stopped (sm_client (r_syncMgr r)) = false -> t = false ->
   (exists e, o = Err e) /\ cleanupStop (r_storage r') = false) /\
  (o = Ok tt -> cleanupStop (r_storage r') = true /\ (r_started r = true -> stopped (sm_client (r_syncMgr r')) = true)).
Proof.
  intros [H1 H2 H3] Ec. unfold Close. rewrite Ec. set (r1 := set_life _ _ _ _ r).
  assert (Hl : listening r1 = false).
  { subst r1. cbn. destruct (r_server r) eqn:Esv; [done|]. destruct (listening r); [|done].
    destruct (H3 eq_refl) as [_ [? ?]]. congruence. }
  specialize (H1 Ec). change (r_started r1) with (r_started r).
  assert (Hlife : forall s m sv, life_ok (set_parts s m sv r1)).
  { intros s m sv. split; [done|exact H2|]. intros Hl'. change (listening r1 = true) in Hl'. congruence. }
  assert (Hfin : forall m, cleanupStop (c_storage (sm_client m)) = false ->
    exists r', (let '(o, s) := Memory.Close (r_storage (with_manager m r1)) in
      (o, set_parts s (r_syncMgr (with_manager m r1)) (r_server (with_manager m r1)) (with_manager m r1))) = (Ok tt, r') /\
      life_ok r' /\ r_closed r' = true /\ cleanupStop (r_storage r') = true /\ r_syncMgr r' = m).
  { intros m Hm. unfold Memory.Close. cbn [r_storage with_manager set_parts]. rewrite Hm. eexists. split; [reflexivity|].
    split; [apply (Hlife _ m)|]. done. }
  destruct (r_started r) eqn:Est.
  - unfold SM_Stop, on_client. destruct (Stop_ok t (sm_client (manager r1))) as (o & c' & -> & Ho & Hst & Hstop & Herr).
    set (m := set_client c' (manager r1)).
    assert (Hm : cleanupStop (c_storage (sm_client m)) = false) by (cbn; by rewrite Hst).
    destruct o as [[]|e|p|]; try done.
    + destruct (Hfin m Hm) as (r' & -> & Ha & Hc & Hcl & Hmgr). exists (Ok tt), r'. split_and!; try done.
      * intros _ Hs Ht. by destruct (Herr Hs Ht).
      * intros _. split; [done|]. intros _. by rewrite Hmgr.
    + exists (Err e), (with_manager m r1). split_and!; try done; [apply Hlife|].
      intros _ _ _. split; [by eexists|]. done.
  - destruct (Hfin (manager r1) H1) as (r' & -> & Ha & Hc & Hcl & Hmgr). exists (Ok tt), r'. by split_and!.
Qed.

Lemma Start_open listen r : life_ok r -> r_closed r = false -> exists o r', Start listen r = (o, r') /\ returns o /\
  life_ok r' /\ r_closed r' = false.
Proof.
  intros [H1 H2 H3] Ec. unfold Start. rewrite Ec. specialize (H1 Ec).
  destruct (r_started r) eqn:Est; [exists (Ok tt), r; split_and!; try done; split; by rewrite ?Est|].
  assert (Hno : listening r = false).
  { destruct (listening r); [|done]. destruct (H3 eq_refl) as [Hs _]. unfold isStarted in Hs. by rewrite Est in Hs. }
  cbn [r_server set_life]. destruct (r_server r) as [sv|] eqn:Esv.
  - destruct listen as [err|]; cbn; do 2 eexists; (split; [reflexivity|]); split_and!; try done; split; cbn;
      rewrite ?H2, ?Hno; try done; unfold isStarted; cbn; by rewrite ?Ec, ?Esv.
  - do 2 eexists. split; [reflexivity|]. split_and!; try done. split; cbn; rewrite ?H2, ?Hno; done.
Qed.

Lemma call_life x r : life_ok r -> exists o r', call x r = (o, r') /\ returns o /\ life_ok r' /\
  r_closed r' = r_closed r || (if x is CClose _ then true else false).
Proof.
  intros Ha. destruct x as [listen|t| |fn]; cbn.
  - destruct (r_closed r) eqn:Ec.
    + exists (Err ErrClosed), r. unfold Start. by rewrite Ec.
    + destruct (Start_open listen r Ha Ec) as (o & r' & E & Ho & Ha' & Hc). by exists o, r'.
  - destruct (r_closed r) eqn:Ec.
    + exists (Ok tt), r. unfold Close. by rewrite Ec.
    + destruct (Close_open t r Ha Ec) as (o & r' & E & Ho & Ha' & Hc & _). by exists o, r'.
  - exists (if isStarted r then Ok tt else Err ErrNotConnected), r. unfold WaitForSync. rewrite orb_false_r.
    by destruct (isStarted r).
  - eexists _, _. split; [reflexivity|]. split; [done|]. destruct Ha. split; [by split|]. by rewrite orb_false_r.
Qed.

Definition closes (l : list Call) : bool := existsb (fun x => if x is CClose _ then true else false) l.

Lemma calls_life l : forall r, life_ok r -> exists os r', calls l r = (os, r') /\ Forall returns os /\
  length os = length l /\ life_ok r' /\ r_closed r' = r_closed r || closes l.
Proof.
  induction l as [|x l IH]; intros r Ha; [exists [], r; split_and!; try done; by rewrite orb_false_r|].
  destruct (call_life x r Ha) as (o & r1 & E1 & Ho & Ha1 & Hc1). destruct (IH r1 Ha1) as (os & r2 & E2 & Hos & Hl & Ha2 & Hc2).
  exists (o :: os), r2. cbn [calls]. rewrite E1, E2. split_and!; try done; [by constructor|cbn; by rewrite Hl|].
  rewrite Hc2, Hc1. cbn. by rewrite orb_assoc.
Qed.

Lemma build_life cfg r : valid_options cfg -> shardCount cfg <= 2 ^ 43 -> build cfg = Ok r -> life_ok r /\ r_closed r = false.
Proof.
  intros Hv Hsh E. destruct (build_ok cfg Hv Hsh) as (r' & E' & _ & _ & Hstop & _ & _ & _ & _ & _ & Hs & Hc & Hm & Hl).
  rewrite E in E'. injection E' as <-. split; [|done]. split; [done|by rewrite Hm, Hs|congruence].
Qed.

(** C22: whatever a program calls on a replica, in whatever order and however often,
    and whatever the listener and the client's goroutine do, no call panics, the
    manager is started once at most, the server listens only while the replica is
    started and not closed, and a close is final: Start and WaitForSync then
    refuse, another Close does nothing. *)
Theorem lifecycle_is_safe cfg r0 l : valid_options cfg -> shardCount cfg <= 2 ^ 43 -> build cfg = Ok r0 ->
  let '(os, r) := calls l r0 in
  Forall returns os /\ length os = length l /\ (manager_starts r <= 1)%nat /\ (listening r = true -> isStarted r = true) /\
  r_closed r = closes l /\
  (r_closed r = true -> forall listen t,
     Start listen r = (Err ErrClosed, r) /\ WaitForSync r = (Err ErrNotConnected, r) /\ Close t r = (Ok tt, r)).
Proof.
  intros Hv Hsh E. destruct (build_life cfg r0 Hv Hsh E) as [Ha Hc].
  destruct (calls_life l r0 Ha) as (os & r & -> & Hos & Hl & [H1 H2 H3] & Hcl). rewrite Hc in Hcl.
  split_and!; try done; [rewrite H2; destruct (r_started r); lia|naive_solver|].
  intros Hclosed listen t. unfold Start, WaitForSync, isStarted, Close. rewrite Hclosed, andb_false_r. done.
Qed.

(** An error of Start or Close is told once and hides what follows: a replica
    whose server could not listen counts as started, and starting it again
    succeeds without a server; one whose client did not stop in time counts as
    closed, and closing it again succeeds with the storage still open. *)
Theorem errors_are_told_once r : life_ok r -> r_closed r = false ->
  (r_started r = false -> is_Some (r_server r) -> forall err, exists e r1, Start (Some err) r = (Err e, r1) /\
     isStarted r1 = true /\ listening r1 = false /\ forall listen, Start listen r1 = (Ok tt, r1)) /\
  (r_started r = true -> stopped (sm_client (r_syncMgr r)) = false -> exists e r1, Close false r = (Err e, r1) /\
     cleanupStop (r_storage r1) = false /\ forall t, Close t r1 = (Ok tt, r1)).
Proof.
  intros Ha Hc. split.
  - intros Hs [sv Esv] err. assert (Hno : listening r = false).
    { destruct Ha as [_ _ H3]. destruct (listening r); [|done]. destruct (H3 eq_refl) as [Hst _].
      unfold isStarted in Hst. by rewrite Hs in Hst. }
    unfold Start at 1. rewrite Hc, Hs. cbn [r_server set_life]. rewrite Esv. cbn [Server_Start].
    do 2 eexists. split; [reflexivity|]. unfold isStarted, Start. cbn. by split_and!.
  - intros Hs Hst. destruct (Close_open false r Ha Hc) as (o & r1 & E & _ & _ & Hc1 & Herr & _).
    destruct (Herr Hs Hst eq_refl) as [[e ->] Hcl]. exists e, r1. split; [done|]. split; [done|].
    intros t. unfold Close. by rewrite Hc1.
Qed.

(** ** Serving the master's data *)

(** The reply to a GET of a key that reads as [v]. *)
Definition get_reply (v : option StoredValue) : Value :=
  match v ≫= string_of with Some d => BulkStringValue d | None => NullBulkStringValue end.

Definition GET (key : bytes) : Command := mkCommand (bs "GET") [key].

Lemma GET_served strategy now r sv c sent key : r_server r = Some sv -> initialSyncDone (r_syncMgr r) = true ->
  wf (r_storage r) -> authenticated c = true -> healthy c sent ->
  exists c' r', on_connection (server_command strategy now (GET key)) c r = (Ok (Some (tt, c')), r') /\
    healthy c' (sent ++ encode (get_reply (value_at now (abstract (r_storage r)) (acur (abstract (r_storage r))) key))).
Proof.
  intros Esv Hdone Hs Ha Hc. unfold on_connection. rewrite Esv.
  assert (Hl : loading (the_server r sv) = false) by (unfold loading, the_server; cbn; by rewrite Hdone).
  destruct (command_refines strategy now "GET" [key] _ _ (the_server r sv) c sent (reads_get strategy key) Ha (or_introl Hl) Hs Hc)
    as (x & sv' & c' & E & Hh & _ & [-> _] & _).
  unfold GET. rewrite E. do 2 eexists. split; [reflexivity|]. exact Hh.
Qed.

Lemma GET_loading strategy now r sv c sent key : r_server r = Some sv -> initialSyncDone (r_syncMgr r) = false ->
  authenticated c = true -> healthy c sent ->
  exists c' r', on_connection (server_command strategy now (GET key)) c r = (Ok (Some (tt, c')), r') /\
    healthy c' (sent ++ encode (ErrorValue (bs "LOADING Redis is loading the dataset in memory"))).
Proof.
  intros Esv Hdone Ha Hc. unfold on_connection. rewrite Esv.
  assert (Hl : loading (counted (the_server r sv)) = true) by (unfold loading, the_server, counted; cbn; by rewrite Hdone).
  unfold GET. rewrite (command_dispatch strategy now _ (handleGet now)) by done. unfold handleGet. cbn [Args].
  unfold gbind at 1, get_server. cbn [fst]. rewrite Hl, (writeError_eq _ _ _ sent) by done.
  do 2 eexists. split; [reflexivity|]. done.
Qed.

(** What happens to a replica between two commands of the master: a client, with its
    connection in whatever state, gives a command, or the storage cleans up. *)
Inductive Visit : Type :=
| VCommand (strategy now : Z) (cmd : Command) (conn : Conn)
| VCleanup (now : Z).

Definition visit (x : Visit) : M Replica unit :=
  match x with
  | VCommand strategy now cmd conn => on_connection (server_command strategy now cmd) conn ;;! gret tt
  | VCleanup now => fun r =>
      let '(o, s) := performCleanup now (r_storage r) in (o, set_parts s (r_syncMgr r) (r_server r) r)
  end.

Fixpoint visits (l : list Visit) : M Replica unit :=
  match l with
  | [] => gret tt
  | x :: l' => visit x ;;! visits l'
  end.

(** Up to [T], on a connection that works; any command but a script and a request past
    what can be allocated. *)
Definition visit_ok (T : Z) (x : Visit) : Prop :=
  match x with
  | VCommand _ now cmd conn => now <= T /\ fair cmd /\ ~ scripted_call cmd /\ exists sent, healthy conn sent
  | VCleanup now => now <= T
  end.

(** A replica that serves: its server runs over its storage, and the first
    synchronisation is over. *)
Record in_service (T : Z) (s : MemoryStorage) (r : Replica) : Prop := {
  is_server : is_Some (r_server r);
  is_synced : initialSyncDone (r_syncMgr r) = true;
  is_wf : wf (r_storage r);
  is_spared : spares T s (r_storage r)
}.

Lemma visit_serves T s x r : visit_ok T x -> in_service T s r -> exists r', visit x r = (Ok tt, r') /\ in_service T s r'.
Proof.
  intros Hx [[sv Esv] Hsync Hwf Hsp]. destruct x as [strategy now cmd conn|now]; cbn [visit visit_ok] in *.
  - destruct Hx as (Ht & Hfair & Hscript & sent & Hh).
    destruct (command_served strategy now (spares T) ltac:(intros; by eapply spares_trans)
      ltac:(intros; by eapply spares_mono) (fun _ => True) (the_server r sv) conn sent cmd Hfair)
      as ([sv' c'] & v & E & [Hwf' _] & Hsp' & _); [by split|by split|done|].
    unfold gbind, on_connection. rewrite Esv, E. eexists. split; [reflexivity|].
    split; cbn; [by eexists|done|done|by eapply spares_trans].
  - destruct (cleanup_spares now (r_storage r) Hwf) as (s' & E & Hwf' & Hsp'). rewrite E.
    eexists. split; [reflexivity|]. split; cbn; [by eexists|done|done|].
    eapply spares_trans; [done|]. by eapply spares_mono.
Qed.

Lemma visits_serve T s l : forall r, Forall (visit_ok T) l -> in_service T s r ->
  exists r', visits l r = (Ok tt, r') /\ in_service T s r'.
Proof.
  induction l as [|x l IH]; intros r Hl Hr; [by exists r|]. apply Forall_cons in Hl as [Hx Hl].
  destruct (visit_serves T s x r Hx Hr) as (r1 & E1 & Hr1). destruct (IH r1 Hl Hr1) as (r2 & E2 & Hr2).
  exists r2. cbn [visits]. by rewrite (gbind_ok _ _ _ _ _ E1).
Qed.

(** C4: a replica without a memory limit serves its master's data. Before the first
    synchronisation every GET is answered LOADING. When the master has sent a file the
    parser reads ([readable_ritem]), with databases from 0 to 15, the callbacks of the
    replica have been called, and from then on, until the next command of the master:
    whatever commands the clients give in whatever order, SELECT included, scripts and
    requests too large excepted, and however often expired keys are cleaned up, a GET of
    any client, on any key, at any later time, is answered with the value the file
    leaves, as the parser reads it, for the key in the database selected then, or with
    null when it leaves none, one that is no string or one that has expired. *)
Theorem replica_serves_master now r sv id offset version items trailer rest e b sent :
  let c := sm_client (manager r) in
  let loaded := (foldl (load_item now (Client.databases c)) (abstract (r_storage r), 0) items).1 in
  r_server r = Some sv -> initialSyncDone (r_syncMgr r) = false -> syncCallbacks (r_syncMgr r) = [replica_callback] ->
  wf (r_storage r) -> unlimited (abstract (r_storage r)) -> 0 <= version <= 12 -> Forall readable_ritem items ->
  Forall (loadable (Client.databases c)) items ->
  Z.of_nat (length (encode_file version items trailer)) <= maxBulkSize ->
  is_word id -> in_int64 offset -> syncing c = false -> c_writer c = mkWriter b sent None ->
  c_reader c = mkReader (encode (SimpleStringValue (fullresync_line id offset)) ++
    rdb_transfer (encode_file version items trailer) ++ rest) e -> registrations c = 1%nat ->
  (forall strategy now0 conn sent0 key, authenticated conn = true -> healthy conn sent0 ->
     exists conn' r', on_connection (server_command strategy now0 (GET key)) conn r = (Ok (Some (tt, conn')), r') /\
       healthy conn' (sent0 ++ encode (ErrorValue (bs "LOADING Redis is loading the dataset in memory")))) /\
  exists r1, sync_step now r = (Ok tt, r1) /\ r_fired r1 = r_fired r ++ r_syncCallbacks r /\
    forall T l, Forall (visit_ok T) l -> exists r2, visits l r1 = (Ok tt, r2) /\
      forall strategy now1 conn sent0 key, T <= now1 -> authenticated conn = true -> healthy conn sent0 ->
        exists conn' r3, on_connection (server_command strategy now1 (GET key)) conn r2 = (Ok (Some (tt, conn')), r3) /\
          healthy conn' (sent0 ++ encode (get_reply (value_at now1 loaded (currentDB (r_storage r2)) key))).
Proof.
  intros c loaded Esv Hdone Hcb Hs Hu Hv Hwf Hl Hlen Hid Hoff Hsync Hw Hr Hreg. split.
  { intros. by eapply GET_loading. }
  destruct (manager_sync_ok (Laws := memory_laws) now (manager r) id offset version items trailer rest e b sent)
    as (c' & E & Hs' & Ha); try done. fold c in E, Ha. rewrite Hreg in E. unfold sync_step. rewrite E.
  eexists. split; [reflexivity|]. split.
  - cbn. rewrite drop_app_length, Hcb. cbn. by rewrite app_nil_r.
  - intros T l Hl'. match goal with |- context [visits _ ?r1] => set (R1 := r1) end.
    destruct (visits_serve T (r_storage R1) l R1 Hl') as (r2 & E2 & [[sv2 Esv2] Hsync2 Hwf2 [_ Hsp2]]).
    { split; [by exists sv|subst R1; unfold synced; cbn; by rewrite orb_true_r|done|apply spares_refl]. }
    exists r2. split; [exact E2|]. intros strategy now1 conn sent0 key Ht Hauth Hh.
    destruct (GET_served strategy now1 r2 sv2 conn sent0 key) as (conn' & r3 & Eg & Hg); try done.
    exists conn', r3. split; [exact Eg|]. rewrite Hsp2 in Hg by done.
    change (abstract (r_storage R1)) with (st_abs (c_storage c')) in Hg. by rewrite Ha in Hg.
Qed.

End ReplicaSpec.

(** ** Witnesses *)

#[local] Existing Instance sample_hash.
#[local] Existing Instance sample_runtime.
#[local] Existing Instance sample_vm.
#[local] Existing Instance sample_net.
#[local] Existing Instance sample_format.
#[local] Existing Instance calm_env.
#[local] Existing Instance session_network.

Definition sample_options : list Option := [
  WithMaster (bs "master:6379"); WithReplicaAddr (bs ":6380"); WithMasterAuth (bs "secret");
  WithMaxMemory 1000; WithDatabases [0; 2]; WithDefaultDatabase 2; Options.WithShardCount 3].

Lemma sample_options_provided : Forall provided sample_options.
Proof. repeat constructor. Defined.

Definition sample_config : config :=
  match apply_options sample_options defaultConfig with Ok cfg => cfg | _ => defaultConfig end.

Lemma sample_config_valid : valid_options sample_config.
Proof. apply (apply_options_valid sample_options sample_options_provided defaultConfig default_valid). Defined.

Lemma new_replica_witness : valid_options sample_config /\ exists r, New sample_options = Ok r /\
  r_config r = sample_config /\ wf (r_storage r) /\ acur (abstract (r_storage r)) = 2 /\
  alimit (abstract (r_storage r)) = 1000 /\
  (forall db m, adbs (abstract (r_storage r)) !! db = Some m -> m = ∅) /\
  configured sample_config (sm_client (manager r)) /\ (is_Some (r_server r) <-> bs ":6380" <> []).
Proof.
  destruct (new_replica sample_options sample_options_provided) as [Hv Hr]. split; [exact Hv|]. by apply Hr.
Defined.

Lemma lifecycle_is_safe_witness : exists r0, build sample_config = Ok r0 /\
  let '(os, r) := calls [CStart (Some EOF); CStart None; CWait; CClose false; CClose true; CStart None] r0 in
  Forall returns os /\ length os = 6%nat /\ (manager_starts r <= 1)%nat /\ (listening r = true -> isStarted r = true) /\
  r_closed r = true /\
  (r_closed r = true -> forall listen t,
     Start listen r = (Err ErrClosed, r) /\ WaitForSync r = (Err ErrNotConnected, r) /\ Close t r = (Ok tt, r)).
Proof.
  destruct (build_ok sample_config sample_config_valid) as (r0 & E & _); [done|]. exists r0. split; [exact E|].
  apply (lifecycle_is_safe sample_config r0); [apply sample_config_valid|done|exact E].
Defined.

Lemma errors_are_told_once_witness : exists r, build sample_config = Ok r /\
  (r_started r = false -> is_Some (r_server r) -> forall err, exists e r1, Start (Some err) r = (Err e, r1) /\
     isStarted r1 = true /\ listening r1 = false /\ forall listen, Start listen r1 = (Ok tt, r1)) /\
  (r_started r = true -> stopped (sm_client (r_syncMgr r)) = false -> exists e r1, Close false r = (Err e, r1) /\
     cleanupStop (r_storage r1) = false /\ forall t, Close t r1 = (Ok tt, r1)).
Proof.
  destruct (build_ok sample_config sample_config_valid) as (r & E & _); [done|]. exists r. split; [exact E|].
  destruct (build_life sample_config r sample_config_valid) as [Ha Hc]; [done|exact E|].
  apply (errors_are_told_once r Ha Hc).
Defined.

(** A replica whose client is connected to a master about to send its file. *)
Definition sample_serving : Replica :=
  mkReplica sample_config sample_storage
    (set_sync false [replica_callback] [] (set_client (set_callbacks [0]%nat [] sample_replica) sample_manager))
    (Some (NewServer sample_storage)) true false 1 true [21; 22]%nat [].

(** One client selects another database, the storage cleans up, a second client gives a
    SET, which a replica refuses, and selects database 0 again. *)
Definition sample_client_conn : Conn := (handleNewClient 8 (mkReader [] EOF) (NewServer sample_storage)).2.

Definition sample_visits : list Visit := [
  VCommand 1 9 (mkCommand (bs "select") [bs "2"]) sample_client_conn; VCleanup 10;
  VCommand 1 11 (mkCommand (bs "SET") [bs "n"; bs "1"]) sample_client_conn;
  VCommand 1 12 (mkCommand (bs "GET") [bs "n"]) sample_client_conn;
  VCommand 1 13 (mkCommand (bs "SELECT") [bs "0"]) sample_client_conn].

Lemma sample_visits_ok : Forall (visit_ok 13) sample_visits.
Proof.
  assert (Hh : exists sent, healthy sample_client_conn sent) by by exists [].
  repeat first [apply Forall_cons_2 | apply Forall_nil_2]; try (by cbn; lia); cbn [visit_ok];
    (split; [lia|]); (split; [|split; [|exact Hh]]); unfold fair, scripted_call, called; vm_compute;
    repeat split; intros; try done; by repeat match goal with H : _ \/ _ |- _ => destruct H end.
Defined.

(** What the file leaves. *)
Definition sample_loaded : AStore := (foldl (load_item 7 {[0]}) (abstract sample_storage, 0) sample_file).1.

Lemma replica_serves_master_witness :
  (forall strategy now0 conn sent0 key, authenticated conn = true -> healthy conn sent0 ->
     exists conn' r', on_connection (server_command strategy now0 (GET key)) conn sample_serving = (Ok (Some (tt, conn')), r') /\
       healthy conn' (sent0 ++ encode (ErrorValue (bs "LOADING Redis is loading the dataset in memory")))) /\
  exists r1, sync_step 7 sample_serving = (Ok tt, r1) /\ r_fired r1 = [] ++ [21; 22]%nat /\
    exists r2, visits sample_visits r1 = (Ok tt, r2) /\
      forall strategy now1 conn sent0 key, 13 <= now1 -> authenticated conn = true -> healthy conn sent0 ->
        exists conn' r3, on_connection (server_command strategy now1 (GET key)) conn r2 = (Ok (Some (tt, conn')), r3) /\
          healthy conn' (sent0 ++ encode (get_reply (value_at now1 sample_loaded (currentDB (r_storage r2)) key))).
Proof.
  destruct (replica_serves_master 7 sample_serving (NewServer sample_storage) (bs "8a3f") 1234 11 sample_file
    (bs "checksum") (bs "*1") EOF [] []) as [Hbefore (r1 & E & Hf & Hvisits)];
    [done|done|done|apply sample_storage_wf|apply sample_storage_unlimited|lia|
     apply sample_file_readable|apply sample_file_loadable|apply sample_file_size; lia|done|by vm_compute|done|done|done|done|].
  split; [exact Hbefore|]. exists r1. split; [exact E|]. split; [exact Hf|].
  exact (Hvisits 13 sample_visits sample_visits_ok).
Defined.

(** The key the master set to -1 reads as 255. *)
Example sample_loaded_n : get_reply (value_at 20 sample_loaded 0 (bs "n")) = BulkStringValue (bs "255").
Proof. by vm_compute. Qed.
